(* ===== verification/_CoqProject ===== *)
-Q . S2P
Prelude.v
Decimal.v
TraceMap.v
Queue.v
Bits.v
Stages.v
Skips.v
Havoc.v
Faults.v
Execution.v
Keeping.v
Calibration.v
Found.v
Sync.v
Trim.v
FaultInjection.v
FuzzLoop.v
Options.v
Startup.v
RandomFile.v
RandomLock.v
Nodes.v
Events.v
Clients.v
Systems.v
Managers.v
AerospikeClient.v
Store.v
TestMain.v
Strace.v
Bpf.v
Rr.v
Cpu.v
Concurrency.v
Kafka.v
Alarm.v
Attach.v
System.v
ForkServer.v
