(* ===== verification/Prelude.v ===== *)
(** * DistFuzz: a verification development

    DistFuzz is a fuzzer for distributed systems.  A coverage-guided fuzzer mutates
    files of bytes; each file is the input of one test, in which a driver starts a
    cluster of servers, lets client operators send requests and critical operators
    kill, restart and add nodes, and stops the cluster again.  Every decision of the
    driver, of the clients and of the fault injectors that run beneath the servers is
    a byte of that file.  The injectors record what happened in a coverage map, which
    tells the fuzzer whether the file is worth keeping.

    This library models the program as it is built ([fuzz/CMakeLists.txt] defines
    [NO_CONCURRENCY_FUZZ] and [NO_FUZZING_ERROR]; the second is a parameter here), and
    two parts of the fuzzer that the build or a constant switches off; it proves what
    each part promises.  Paths below are relative to [src/].

    ** How the code is modelled

    A C or C++ function is a definition with its name: a Gallina function where the
    code is pure, otherwise a procedure [proc S A] on a record [S] of the variables it
    works on.  A procedure falls through, returns from its function, exits the
    process, is undefined or has used up the bound of a loop; reads and writes through
    [from_option] and [update] are undefined outside of their buffers and at null
    pointers.  [wp m Q R E s] says that a run of [m] from [s] is neither undefined nor
    out of its bound, and that [Q], [R] or [E] holds where it falls through, returns
    or exits; all safety theorems are of this form.  Integers are [Z], and every cast
    and every operation that can leave its width is followed by [u8], [u16], [u32],
    [u64] or [s32].  Buffers are lists whose length is their capacity, the files are
    a finite map, arrays of counters that are too large to write down are finite maps.

    What is not in the repository is a class: its fields are what the code calls, the
    class with the suffix [OK] holds the documented laws that the theorems use, and a
    demonstration instance shows that they can hold.  These are the target program,
    the clock, the disk and [rand] ([Env]), the directories of other fuzzers
    ([Group]), the kernel at the start ([Kernel]), [boost::process] ([Host]), the
    message queue ([Mailbox]), the processes of clients ([ClientHost]), scripts and
    pauses ([TestHost]), the traced process ([Tracee]), [/proc] ([Cores]), the
    recorded interleavings ([Race]), the fork server in the target ([ForkPeer]) and the
    client library of Aerospike ([Vendor]); [libbpf] in [Attach] and [rdkafka] in [Kafka]
    are records of what the calls of these libraries return.

    ** The fuzzer, [fuzz/fuzzer/old]

    - [TraceMap] ([TestRunning.cpp], [FuzzOne.cpp], [Synchronize.cpp]): [classify_counts],
      [has_new_bits], [CountBytes], [hash32], [ShowCoverage], [sync_coverage].  The
      routines that work on eight bytes at a time equal their bytewise references; the
      coverage grows exactly when the flag of [has_new_bits] is set.
    - [Queue] ([QueueCulling.cpp], [Fuzzer.h]): seeds, [AddToQueue], [UpdateQueueTop],
      [CullQueue].  The reference counts are exact, so that no trace is freed while it
      is used; each slot belongs to a seed of least score, and the favored seeds cover
      all slots.
    - [Bits], [Stages], [Skips], [Havoc] ([FuzzOne.cpp]): the deterministic stages as the
      exact lists of files they submit, the predicates by which they skip what earlier
      stages have tried, and havoc and splicing, which stay inside of their buffers
      whatever [rand] gives.  The interface to the runs is the class [Target].
    - [Faults], [Execution], [Keeping], [Calibration], [Found] ([TestRunning.cpp]):
      [ExecuteCase], [FuzzUnit], the handlers of crashes and hangs, the calibration and
      the dry run.  [g_inv] is the invariant of all globals; [FuzzUnit] keeps it, and
      what it keeps of an input is stated exactly; the queue cannot grow for ever.
      [FuzzLoop] discharges the interface [Target] with these procedures.
    - [Alarm] ([ExecuteCase] and [HandleTimeout] of [TestRunning.cpp]): a run of the target
      as a step relation of the fuzzer, the target and the timer.  Every interleaving
      ends, and its result is one of those that [Execution] has as a value.
    - [Sync] ([Synchronize.cpp]), [Trim] ([Trim.cpp]), [FaultInjection]
      ([FaultInjectionEngin.cpp]): a file of another fuzzer is imported once, a trimmed
      file has a trace of the same checksum, and the error list is left as it was found.
    - [Options], [Startup] ([Main.cpp], [ShmMapping.cpp]): the command line, the output
      directories, the segments of shared memory, the coverage of a group.
      [FuzzLoop] ([Main.cpp], [FuzzOne.cpp], [TestcasesProcess.cpp], [Setup.cpp]):
      [ReadTestcases], [init_stats], [FuzzMain] and the loop.  [Startup.fuzzer_safe]
      composes all of the above: the fuzzer, from its command line to any number of
      turns, is never undefined and keeps the invariant.
    - [Cpu] ([Setup.cpp]): [BindFreeCPU], whose call is commented out, finds a core that
      no process is pinned to.
    - [Concurrency] ([DelayInsertionEngin.cpp], which [NO_CONCURRENCY_FUZZ] leaves out):
      the search for interleavings settles every pair it tries, as reached or as
      unreachable, and stays inside of its arrays as long as the pairs that a run takes
      fit into the array of enabled pairs.
    - [ForkServer] ([ForkServer.cpp], which [no_forkserver] switches off): the pipes, the
      handshake and the words that the fuzzer and the fork server exchange for each run.

    ** The tests, [core] and [event_control]

    - [RandomFile], [RandomLock] ([core/src/dst_default_random.c], [split_files] of
      [core/src/dst_test_main.cpp]): the reader of the input refines a stream of bytes,
      zeros at its end; threads that share it behind its lock get disjoint pieces, and
      each of them is served in the end (a step relation, by rule induction).
    - [Nodes] ([core/include/dst_node_manager.hpp] and the critical operators): the
      manager is sound under every sequence of operators: no null process, no index out
      of range, no two processes with one output or error log, nodes that are recorded
      as stopped have ended.
    - [Events] ([core/src/dst_default_event.cpp], [event_control/src/main.cpp]),
      [Clients] ([core/src/operator/dst_default_client_operator.cpp]): the log holds
      the records in the order in which they were sent, up to those that still wait in
      the queue; a request is recorded before it is made and again only after it has
      succeeded.
    - [Systems] (the [include] and [src] directories of the tests of eleven systems and of
      the general one): the command lines of the servers, which differ from node to
      node, and those of the clients, which name every node once.
    - [Managers] ([nuraft_test/src/node_manager.cpp],
      [redisraft_test/src/operators/redisraft_client.cpp],
      [general_test/include/general_configuration_generator.hpp],
      [core/src/operator/dst_default_operator.cpp]) and [AerospikeClient]
      ([aerospike_test/include/aerospike_client.hpp]): what single systems do differently.
      The first write and the requests of Aerospike leave the histories that the other
      clients leave; a node of NuRaft that is restarted overwrites its log.
    - [Store] ([core/src/dst_default_in_memory_kv_store.cpp], [core/include/dst_registry.hpp],
      [core/src/utils/share_mem_util.cpp]): the store, the registries and the flag that
      tells the servers of a test whether they are fuzzed.
    - [TestMain] ([core/src/dst_test_main.cpp]): the driver, composed of these parts:
      when a run returns, no check has failed and every server is stopped.

    ** The injectors

    - [Strace] ([strace/src/dst_fuzz.c]), [Bpf] ([bpf/dst_fuzz_fault.bpf.c], [bpf/utils.h],
      [bpf/dst_fuzz_fault.c]), [Rr] ([rr/src/dst_fuzz.cc]): for each system call, the bytes
      that decide on its fault, the fault, and the slot of the coverage map that is
      counted.
    - [Kafka] ([init_kafka_producer] of [strace/src/dst_fuzz.c],
      [fuzz/coverage_collector/coverage_collector.c]): machines that share no memory with
      the fuzzer send their slots to a topic, and the collector adds them up.
    - [Attach] ([init_dst_fuzz] of [strace/src/dst_fuzz.c], the first call of [dst_fuzz] in
      [rr/src/dst_fuzz.cc], [main] of [bpf/dst_fuzz_fault.c]): how the injectors find the
      segments that [ShmSetup] of the fuzzer made, so that what they count is what
      [has_new_bits] judges.

    ** The whole

    - [System] composes the fuzzer with the driver as its target: the crashes that the
      fuzzer counts are the tests whose check has failed or whose servers could not be
      started.  It also follows the input of the fuzzer through [split_files] and the
      environment of the servers to the bytes by which each process decides.

    [Prelude] has the integers, the buffers, the procedures with their logic and its
    tactics ([wp_step], [stable_step]) and the hint databases; [Decimal] has numbers in
    text, whose printing and scanning are inverse to each other.

    ** Bounds

    A bounded loop of the source is [for_n], [for_range], [for_fold] or [for_each] with
    its own bound.  A [while] loop has a bound that the theorems show to be enough: the
    letters of the command line for [read_options], the bits of the width for
    [double_until] of [Trim], the length of the file for [TrimCase], the 16 hexadecimal
    digits of a word for [hashes2hash] of [Concurrency].  The number of steps of a run
    with its alarm is bounded by the time limit, the duration of the target and the time
    for which the fuzzer is kept from running, [slack] in [Alarm], which is arbitrary.
    Splicing draws until two indices differ: its bound is an argument, with the
    hypothesis that [rand] does not give one index that many times in a row.  The loop
    of [main] has no end; the theorems are about any number of its turns.  The size of
    the coverage map is an argument of the fuzzer, a multiple of eight below [2^32], as
    [MAP_SIZE] is.  The theorems about the fuzzer assume that the disk holds at most
    [2^29] files, of less than [2^28] bytes.

    ** Not modelled

    The parts of other files under [NO_CONCURRENCY_FUZZ], which the build leaves out; what
    is printed, logged or plotted; the load average of [Setup.cpp], in floating point;
    [Exit] and the second [main] under [TEST]; the logging; the XML of the keeper, written
    by boost; the vendor libraries, which are the classes and records above; the trees of
    strace, rr and libbpf into which the injectors are compiled; shell scripts and tests. *)

From Stdlib Require Export ZArith Lia.
From stdpp Require Export base list gmap strings numbers.

#[global] Open Scope Z_scope.

(** ** Machine integers

    A w-bit unsigned integer of the C++ sources is a [Z] in [0, 2^w); each
    cast and each arithmetic operation that can leave the range is followed by
    an explicit wrap. *)

Definition u8 (z : Z) : Z := z mod 2 ^ 8.
Definition u16 (z : Z) : Z := z mod 2 ^ 16.
Definition u32 (z : Z) : Z := z mod 2 ^ 32.
Definition u64 (z : Z) : Z := z mod 2 ^ 64.

(** Reinterpretation of an unsigned word as a signed one. *)
Definition s32 (z : Z) : Z := (z + 2 ^ 31) mod 2 ^ 32 - 2 ^ 31.

Definition is_u8 (z : Z) : Prop := 0 <= z < 2 ^ 8.
Definition is_u32 (z : Z) : Prop := 0 <= z < 2 ^ 32.
Definition is_u64 (z : Z) : Prop := 0 <= z < 2 ^ 64.

#[global] Instance is_u8_dec z : Decision (is_u8 z).
Proof. unfold is_u8. apply _. Defined.
#[global] Instance is_u32_dec z : Decision (is_u32 z).
Proof. unfold is_u32. apply _. Defined.
#[global] Instance is_u64_dec z : Decision (is_u64 z).
Proof. unfold is_u64. apply _. Defined.

(** The length of a list as an integer, and C array indexing with a default
    of 0 for the positions the bounds lemmas exclude. *)
Definition zlen {A} (l : list A) : Z := Z.of_nat (length l).
Definition nthZ (l : list Z) (i : Z) : Z := default 0 (l !! Z.to_nat i).

(** ** Byte buffers

    A buffer allocated by [new u8[n]], [malloc] or [mmap] is a list of bytes
    whose length is its capacity.  [slice] reads and [blit] overwrites a
    range; both are undefined ([None]) as soon as one byte of the range lies
    outside of the buffer. *)

Definition slice {A} (b : list A) (i n : Z) : option (list A) :=
  if decide (0 <= i /\ 0 <= n /\ i + n <= zlen b)
  then Some (take (Z.to_nat n) (drop (Z.to_nat i) b)) else None.

Definition blit {A} (b : list A) (i : Z) (src : list A) : option (list A) :=
  if decide (0 <= i /\ i + zlen src <= zlen b)
  then Some (take (Z.to_nat i) b ++ src ++ drop (Z.to_nat i + length src) b)
  else None.

(** Little-endian words over bytes, as an x86-64 load or store sees them. *)
Definition le_load (bs : list Z) : Z := little_endian_to_Z 8 bs.
Definition le_bytes (k : Z) (v : Z) : list Z := Z_to_little_endian k 8 v.

(** The files, by name. *)
Abbreviation fs := (gmap string (list Z)).

(** ** Procedures

    A C++ function body is a state transformer with five ways to stop: it
    falls through to the next statement ([Norm]), it returns from the
    enclosing function ([Ret]), the process exits ([Exit]), its behaviour is
    undefined ([UB]: an access out of bounds, a null dereference, a division
    by zero), or the bound given to one of its [while] loops is used up
    ([Diverge]).  The theorems exclude the last two. *)

Inductive outcome (A : Type) : Type :=
  | Norm (a : A)
  | Ret (v : Z)
  | Exit (code : Z)
  | UB
  | Diverge.
Arguments Norm {A} a.
Arguments Ret {A} v.
Arguments Exit {A} code.
Arguments UB {A}.
Arguments Diverge {A}.

Definition proc (S A : Type) : Type := S → outcome A * S.

#[global] Instance proc_ret S : MRet (proc S) := λ A a s, (Norm a, s).
#[global] Instance proc_bind S : MBind (proc S) := λ A B f m s,
  match m s with
  | (Norm a, s') => f a s'
  | (Ret v, s') => (Ret v, s')
  | (Exit c, s') => (Exit c, s')
  | (UB, s') => (UB, s')
  | (Diverge, s') => (Diverge, s')
  end.

Definition gets {S A} (f : S → A) : proc S A := λ s, (Norm (f s), s).
Definition modify {S} (f : S → S) : proc S unit := λ s, (Norm tt, f s).
Definition return_ {S A} (v : Z) : proc S A := λ s, (Ret v, s).
Definition exit_ {S A} (c : Z) : proc S A := λ s, (Exit c, s).
Definition ub {S A} : proc S A := λ s, (UB, s).
Definition diverge {S A} : proc S A := λ s, (Diverge, s).

(** Read or write through a partial operation: undefined behaviour when it is
    not defined. *)
Definition from_option {S A} (f : S → option A) : proc S A := λ s,
  match f s with Some a => (Norm a, s) | None => (UB, s) end.
Definition update {S} (f : S → option S) : proc S unit := λ s,
  match f s with Some s' => (Norm tt, s') | None => (UB, s) end.

Definition when {S} (b : bool) (m : proc S unit) : proc S unit :=
  if b then m else mret tt.

(** A call of a function whose body is [m]: its [return] ends at the call. *)
Definition call {S} (m : proc S unit) : proc S Z := λ s,
  match m s with
  | (Norm _, s') => (Norm 0, s')
  | (Ret v, s') => (Norm v, s')
  | (Exit c, s') => (Exit c, s')
  | (UB, s') => (UB, s')
  | (Diverge, s') => (Diverge, s')
  end.

(** A component works on its own part of the globals: [get] and [set] select
    it. *)
Definition zoom {S T A} (get : S → T) (set : T → S → S) (m : proc T A) : proc S A :=
  λ s, let '(o, t) := m (get s) in (o, set t s).

(** The exit status after an exception that no one catches: [abort]. *)
Definition ABORTED : Z := 134.

(** [for (i = lo; ...; i += step)] with a fixed number [n] of iterations;
    [continue] is falling through the body. *)
Fixpoint for_n {S} (n : nat) (i step : Z) (body : Z → proc S unit) : proc S unit :=
  match n with
  | O => mret tt
  | S n' => body i ;; for_n n' (i + step) step body
  end.

(** [for (i = lo; i < hi; i += step)], [step] positive and [hi] constant. *)
Definition for_range {S} (lo hi step : Z) (body : Z → proc S unit) : proc S unit :=
  for_n (Z.to_nat ((hi - lo + step - 1) / step)) lo step body.

(** The same with local variables [a] that the body updates. *)
Fixpoint for_fold {S A} (n : nat) (i step : Z) (body : Z → A → proc S A) (a : A) : proc S A :=
  match n with
  | O => mret a
  | S n' => a' ← body i a; for_fold n' (i + step) step body a'
  end.

(** [for (auto &x : l)] *)
Fixpoint for_each {S A} (l : list A) (body : A → proc S unit) : proc S unit :=
  match l with
  | [] => mret tt
  | x :: l' => body x ;; for_each l' body
  end.

(** [while (cond) body], at most [fuel] iterations. *)
Fixpoint while_ {S} (fuel : nat) (cond : S → bool) (body : proc S unit) : proc S unit :=
  match fuel with
  | O => λ s, if cond s then (Diverge, s) else (Norm tt, s)
  | S fuel' => λ s, if cond s then (body ;; while_ fuel' cond body) s else (Norm tt, s)
  end.

(** The same with local variables [a]. *)
Fixpoint while_fold {S A} (fuel : nat) (cond : A → S → bool) (body : A → proc S A) (a : A)
    : proc S A :=
  match fuel with
  | O => λ s, if cond a s then (Diverge, s) else (Norm a, s)
  | S fuel' => λ s,
      if cond a s then (a' ← body a; while_fold fuel' cond body a') s else (Norm a, s)
  end.

(** ** Correctness of procedures

    [wp m Q R E s]: run from [s], the procedure neither is undefined nor
    diverges, and [Q], [R] or [E] holds when it falls through, returns or
    exits. *)

Definition wp {S A} (m : proc S A) (Q : A → S → Prop) (R E : Z → S → Prop)
    (s : S) : Prop :=
  match m s with
  | (Norm a, s') => Q a s'
  | (Ret v, s') => R v s'
  | (Exit c, s') => E c s'
  | (UB, _) | (Diverge, _) => False
  end.

Create HintDb u discriminated.
Create HintDb wp discriminated.

(** *** Ranges of machine integers *)

Lemma u8_range z : is_u8 (u8 z).
Proof. unfold is_u8, u8. apply Z.mod_pos_bound. lia. Qed.

Lemma u32_range z : is_u32 (u32 z).
Proof. unfold is_u32, u32. apply Z.mod_pos_bound. lia. Qed.

Lemma u64_range z : is_u64 (u64 z).
Proof. unfold is_u64, u64. apply Z.mod_pos_bound. lia. Qed.

Lemma u8_id z : is_u8 z → u8 z = z.
Proof. unfold is_u8, u8. apply Z.mod_small. Qed.

Lemma u32_id z : is_u32 z → u32 z = z.
Proof. unfold is_u32, u32. apply Z.mod_small. Qed.

Lemma u64_id z : is_u64 z → u64 z = z.
Proof. unfold is_u64, u64. apply Z.mod_small. Qed.

Lemma is_u8_0 : is_u8 0.
Proof. unfold is_u8. lia. Qed.

#[export] Hint Resolve u8_range u32_range u64_range is_u8_0 : u.

(** A property of every byte is checked by evaluation. *)
Lemma u8_enum (P : Z → bool) :
  forallb P (seqZ 0 256) = true → ∀ b, is_u8 b → P b = true.
Proof.
  intros H b Hb. apply (proj1 (forallb_forall P _) H).
  apply list_elem_of_In, elem_of_seqZ. unfold is_u8 in Hb. lia.
Qed.

(** A bitwise operation stays inside of a power-of-two range that contains
    its operands. *)
Lemma testbit_high a n i : 0 <= a < 2 ^ n → n <= i → Z.testbit a i = false.
Proof.
  intros Ha Hi. destruct (decide (0 <= n)).
  - rewrite <-(Z.mod_small a (2 ^ n)) by lia. by apply Z.mod_pow2_bits_high.
  - rewrite Z.pow_neg_r in Ha by lia. lia.
Qed.

Lemma range_of_testbit a n : 0 <= n → 0 <= a →
  (∀ i, n <= i → Z.testbit a i = false) → a < 2 ^ n.
Proof.
  intros Hn Ha Hbits.
  assert (a = a mod 2 ^ n) as ->; [|apply Z.mod_pos_bound; lia].
  apply Z.bits_inj'. intros i Hi. destruct (decide (i < n)).
  - by rewrite Z.mod_pow2_bits_low by lia.
  - rewrite Z.mod_pow2_bits_high by lia. apply Hbits. lia.
Qed.

Lemma land_range a b n : 0 <= n → 0 <= a → 0 <= b < 2 ^ n →
  0 <= Z.land a b < 2 ^ n.
Proof.
  intros Hn Ha Hb. assert (0 <= Z.land a b) by (apply Z.land_nonneg; lia).
  split; [done|]. apply range_of_testbit; [done..|]. intros i Hi.
  rewrite Z.land_spec, (testbit_high b n i) by lia. apply andb_false_r.
Qed.

Lemma lxor_range a b n : 0 <= n → 0 <= a < 2 ^ n → 0 <= b < 2 ^ n →
  0 <= Z.lxor a b < 2 ^ n.
Proof.
  intros Hn Ha Hb. assert (0 <= Z.lxor a b) by (apply Z.lxor_nonneg; lia).
  split; [done|]. apply range_of_testbit; [done..|]. intros i Hi.
  by rewrite Z.lxor_spec, (testbit_high a n i), (testbit_high b n i).
Qed.

Lemma lor_range a b n : 0 <= n → 0 <= a < 2 ^ n → 0 <= b < 2 ^ n →
  0 <= Z.lor a b < 2 ^ n.
Proof.
  intros Hn Ha Hb. assert (0 <= Z.lor a b) by (apply Z.lor_nonneg; lia).
  split; [done|]. apply range_of_testbit; [done..|]. intros i Hi.
  by rewrite Z.lor_spec, (testbit_high a n i), (testbit_high b n i).
Qed.

Lemma lxor_cancel a b : Z.lxor (Z.lxor a b) b = a.
Proof. by rewrite Z.lxor_assoc, Z.lxor_nilpotent, Z.lxor_0_r. Qed.

(** *** Buffers *)

Lemma zlen_nonneg {A} (l : list A) : 0 <= zlen l.
Proof. unfold zlen. lia. Qed.

Lemma zlen_app {A} (l k : list A) : zlen (l ++ k) = zlen l + zlen k.
Proof. unfold zlen. rewrite length_app. lia. Qed.

Lemma slice_Some {A} (b : list A) i n l :
  slice b i n = Some l →
  0 <= i ∧ 0 <= n ∧ i + n <= zlen b ∧ zlen l = n ∧
  l = take (Z.to_nat n) (drop (Z.to_nat i) b).
Proof.
  unfold slice. case_decide as H; intros [= <-].
  destruct H as (?&?&?). repeat split; try done.
  unfold zlen in *. rewrite length_take, length_drop. lia.
Qed.

Lemma slice_is_Some {A} (b : list A) i n :
  0 <= i → 0 <= n → i + n <= zlen b →
  slice b i n = Some (take (Z.to_nat n) (drop (Z.to_nat i) b)).
Proof. intros. unfold slice. by rewrite decide_True by done. Qed.

Lemma blit_Some {A} (b : list A) i src b' :
  blit b i src = Some b' →
  0 <= i ∧ i + zlen src <= zlen b ∧ zlen b' = zlen b ∧
  b' = take (Z.to_nat i) b ++ src ++ drop (Z.to_nat i + length src) b.
Proof.
  unfold blit. case_decide as H; intros [= <-]. destruct H.
  repeat split; try done. unfold zlen in *.
  rewrite !length_app, length_take, length_drop. lia.
Qed.

Lemma blit_is_Some {A} (b : list A) i src :
  0 <= i → i + zlen src <= zlen b →
  blit b i src =
    Some (take (Z.to_nat i) b ++ src ++ drop (Z.to_nat i + length src) b).
Proof. intros. unfold blit. by rewrite decide_True by done. Qed.

(** Writing twice at one place keeps the second write, and writing back what
    was read restores the buffer: the two facts every mutation stage uses. *)
Lemma blit_blit {A} (b b1 : list A) i s1 s2 :
  blit b i s1 = Some b1 → length s1 = length s2 → blit b1 i s2 = blit b i s2.
Proof.
  intros H Hl. apply blit_Some in H as (Hi&Hr&Hlen&->).
  assert (zlen s2 = zlen s1) as Hz by (unfold zlen; lia).
  rewrite !blit_is_Some by (rewrite ?Hlen; lia).
  f_equal. rewrite <-Hl. unfold zlen in *.
  assert (length (take (Z.to_nat i) b) = Z.to_nat i) as Ht
    by (rewrite length_take; lia).
  rewrite take_app_le by lia. rewrite take_take, Nat.min_id.
  rewrite (app_assoc (take _ _) s1), drop_app_length';
    [done|rewrite length_app; lia].
Qed.

Lemma blit_slice {A} (b : list A) i n old :
  slice b i n = Some old → blit b i old = Some b.
Proof.
  intros H. apply slice_Some in H as (?&?&?&Hz&Hold).
  assert (Hl : length old = Z.to_nat n) by (unfold zlen in Hz; lia).
  rewrite blit_is_Some by lia. f_equal.
  rewrite Hl, Hold, <-drop_drop. by rewrite take_drop, take_drop.
Qed.

Lemma blit_restore {A} (b b' : list A) i n old s :
  slice b i n = Some old → blit b i s = Some b' → length s = length old →
  blit b' i old = Some b.
Proof.
  intros Hs Hb Hl. rewrite (blit_blit b b' i s old Hb Hl). by eapply blit_slice.
Qed.

(** A buffer of [8 * n] bytes is walked in chunks of eight. *)
Lemma chunk_split {A} (l : list A) (k n : nat) :
  length l = (k * S n)%nat →
  length (take k l) = k ∧ length (drop k l) = (k * n)%nat.
Proof. intros H. rewrite length_take, length_drop. lia. Qed.

Lemma fmap_concat {A B} (f : A → B) (ls : list (list A)) :
  f <$> concat ls = concat ((λ l : list A, f <$> l) <$> ls).
Proof. induction ls as [|l ls IH]; [done|]. cbn [concat fmap list_fmap]. by rewrite fmap_app, IH. Qed.

Lemma max_list_app l k : foldr Z.max 0 (l ++ k) = Z.max (foldr Z.max 0 l) (foldr Z.max 0 k).
Proof.
  induction l as [|x l IH]; cbn.
  - rewrite Z.max_r; [done|]. induction k; cbn; lia.
  - rewrite IH. lia.
Qed.

Lemma le_load_range bs : Forall is_u8 bs → 0 <= le_load bs < 2 ^ (8 * zlen bs).
Proof.
  intros H. unfold le_load, zlen. rewrite Z.mul_comm.
  apply (little_endian_to_Z_bound 8); [lia|]. exact H.
Qed.

Lemma le_bytes_u8 k v : 0 <= k → Forall is_u8 (le_bytes k v).
Proof. intros. by apply (Z_to_little_endian_bound k 8). Qed.

Lemma length_le_bytes k v : 0 <= k → zlen (le_bytes k v) = k.
Proof. intros. unfold zlen. by apply length_Z_to_little_endian. Qed.

Lemma le_bytes_load bs : Forall is_u8 bs → le_bytes (zlen bs) (le_load bs) = bs.
Proof. intros. by apply (Z_to_little_endian_to_Z (zlen bs) 8). Qed.

Lemma le_load_bytes k v : 0 <= k → le_load (le_bytes k v) = v mod 2 ^ (8 * k).
Proof.
  intros. unfold le_load, le_bytes.
  rewrite little_endian_to_Z_to_little_endian by lia. f_equal. f_equal. lia.
Qed.

(** A word is worked on bit by bit, hence byte by byte. *)
Lemma testbit_le_cons b bs i : is_u8 b → 0 <= i →
  Z.testbit (le_load (b :: bs)) i =
  if decide (i < 8) then Z.testbit b i else Z.testbit (le_load bs) (i - 8).
Proof.
  intros Hb Hi. unfold le_load. cbn [little_endian_to_Z].
  rewrite Z.lor_spec, Z.shiftl_spec by done. case_decide.
  - rewrite (Z.testbit_neg_r _ (i - 8)) by lia. by rewrite orb_false_r.
  - rewrite (testbit_high b 8 i) by (unfold is_u8 in Hb; lia). done.
Qed.

Lemma le_load_cons b bs : is_u8 b → le_load (b :: bs) = b + 2 ^ 8 * le_load bs.
Proof.
  intros Hb. unfold le_load. cbn [little_endian_to_Z].
  rewrite <-Z.add_nocarry_lor; [rewrite Z.shiftl_mul_pow2; lia|].
  apply Z.bits_inj'. intros i Hi. rewrite Z.land_spec, Z.shiftl_spec, Z.bits_0 by done.
  destruct (decide (i < 8)).
  - rewrite (Z.testbit_neg_r _ (i - 8)) by lia. apply andb_false_r.
  - by rewrite (testbit_high b 8 i) by (unfold is_u8 in Hb; lia).
Qed.

Lemma le_load_0 bs : Forall is_u8 bs → le_load bs = 0 ↔ Forall (λ b, b = 0) bs.
Proof.
  induction 1 as [|b bs Hb Hbs IH]; [by split|].
  rewrite le_load_cons by done. rewrite Forall_cons_iff. destruct IH as [IH1 IH2].
  pose proof (le_load_range bs Hbs). unfold is_u8 in Hb.
  split; [intros ?; split; [lia|apply IH1; lia]|intros [? ?%IH2]; lia].
Qed.

Lemma is_u8_land_l a b : is_u8 a → 0 <= b → is_u8 (Z.land a b).
Proof. intros Ha Hb. unfold is_u8. rewrite Z.land_comm. apply land_range; [lia|done..]. Qed.

Lemma le_load_land a b : Forall is_u8 a → Forall is_u8 b → length a = length b →
  Z.land (le_load a) (le_load b) = le_load (zip_with Z.land a b).
Proof.
  intros Ha. revert b. induction Ha as [|x a Hx Ha IH]; intros [|y b] Hb Hl; try done.
  apply Forall_cons_iff in Hb as [Hy Hb]. cbn [zip_with]. injection Hl as Hl.
  apply Z.bits_inj'. intros i Hi.
  rewrite Z.land_spec, !testbit_le_cons by (done || (apply is_u8_land_l; [done|apply Hy])).
  case_decide; [by rewrite Z.land_spec|]. by rewrite <-IH, Z.land_spec.
Qed.

Lemma le_load_lnot bs : Forall is_u8 bs →
  Z.lnot (le_load bs) mod 2 ^ (8 * zlen bs) = le_load ((λ b, u8 (Z.lnot b)) <$> bs).
Proof.
  induction 1 as [|b bs Hb Hbs IH]; [reflexivity|]. rewrite fmap_cons.
  replace (zlen (b :: bs)) with (zlen bs + 1) by (unfold zlen; cbn [length]; lia).
  pose proof (zlen_nonneg bs) as Hn.
  apply Z.bits_inj'. intros i Hi.
  rewrite testbit_le_cons by auto with u. destruct (decide (i < 8 * (zlen bs + 1))).
  - rewrite Z.mod_pow2_bits_low, Z.lnot_spec, testbit_le_cons by (done || lia).
    case_decide.
    + unfold u8. by rewrite Z.mod_pow2_bits_low, Z.lnot_spec by lia.
    + by rewrite <-IH, Z.mod_pow2_bits_low, Z.lnot_spec by lia.
  - rewrite Z.mod_pow2_bits_high by lia. rewrite decide_False by lia.
    by rewrite <-IH, Z.mod_pow2_bits_high by lia.
Qed.

(** *** Rules of the procedure logic *)

Section wp_rules.
Context {S : Type}.
Implicit Types (R E : Z → S → Prop) (s : S).

Lemma wp_mret {A} (a : A) Q R E s : Q a s → wp (mret a) Q R E s.
Proof. done. Qed.

Lemma wp_return {A} v (Q : A → S → Prop) R E s : R v s → wp (return_ v) Q R E s.
Proof. done. Qed.

Lemma wp_exit {A} c (Q : A → S → Prop) R E s : E c s → wp (exit_ c) Q R E s.
Proof. done. Qed.

Lemma wp_gets {A} (f : S → A) Q R E s : Q (f s) s → wp (gets f) Q R E s.
Proof. done. Qed.

Lemma wp_modify f (Q : unit → S → Prop) R E s : Q tt (f s) → wp (modify f) Q R E s.
Proof. done. Qed.

Lemma wp_from_option {A} (f : S → option A) a Q R E s :
  f s = Some a → Q a s → wp (from_option f) Q R E s.
Proof. unfold wp, from_option. by intros ->. Qed.

Lemma wp_update f s' (Q : unit → S → Prop) R E s :
  f s = Some s' → Q tt s' → wp (update f) Q R E s.
Proof. unfold wp, update. by intros ->. Qed.

Lemma wp_bind {A B} (m : proc S A) (k : A → proc S B) Q R E s :
  wp m (λ a, wp (k a) Q R E) R E s → wp (m ≫= k) Q R E s.
Proof. unfold wp, mbind, proc_bind. by destruct (m s) as [[] ?]. Qed.

Lemma wp_mono {A} (m : proc S A) (Q Q' : A → S → Prop) R R' E E' s :
  wp m Q R E s →
  (∀ a s', Q a s' → Q' a s') → (∀ v s', R v s' → R' v s') →
  (∀ c s', E c s' → E' c s') → wp m Q' R' E' s.
Proof. unfold wp. destruct (m s) as [[] ?]; naive_solver. Qed.

Lemma wp_conseq {A} (m : proc S A) (Q Q' : A → S → Prop) R E s :
  wp m Q R E s → (∀ a s', Q a s' → Q' a s') → wp m Q' R E s.
Proof. intros H HQ. by eapply wp_mono. Qed.

Lemma wp_call m (Q : Z → S → Prop) R E s :
  wp m (λ _, Q 0) Q E s → wp (call m) Q R E s.
Proof. unfold wp, call. by destruct (m s) as [[] ?]. Qed.

Lemma wp_when (b : bool) m (Q : unit → S → Prop) R E s :
  (b = true → wp m Q R E s) → (b = false → Q tt s) → wp (when b m) Q R E s.
Proof. intros H1 H2. destruct b; [by apply H1|by apply H2]. Qed.

Lemma wp_if {A} (b : bool) (m1 m2 : proc S A) Q R E s :
  (b = true → wp m1 Q R E s) → (b = false → wp m2 Q R E s) →
  wp (if b then m1 else m2) Q R E s.
Proof. destruct b; auto. Qed.

Lemma wp_ifd {P : Prop} {A} (d : {P} + {¬ P}) (m1 m2 : proc S A) Q R E s :
  (P → wp m1 Q R E s) → (¬ P → wp m2 Q R E s) →
  wp (if d then m1 else m2) Q R E s.
Proof. destruct d; auto. Qed.

Lemma wp_zoom {T A} (get : S → T) (set : T → S → S) (m : proc T A) Q R E s :
  wp m (λ a t, Q a (set t s)) (λ v t, R v (set t s)) (λ c t, E c (set t s)) (get s) →
  wp (zoom get set m) Q R E s.
Proof. unfold wp, zoom. by destruct (m (get s)) as [[] ?]. Qed.

(** The loop invariant of a [for] loop speaks of the iterations already done. *)
Lemma wp_for_n n i step body (I : Z → S → Prop) R E s :
  I i s →
  (∀ k s', 0 <= k < Z.of_nat n → I (i + k * step) s' →
     wp (body (i + k * step)) (λ _, I (i + (k + 1) * step)) R E s') →
  wp (for_n n i step body) (λ _, I (i + Z.of_nat n * step)) R E s.
Proof.
  revert i s. induction n as [|n IH]; intros i s Hi Hb.
  - apply wp_mret. by replace (i + Z.of_nat 0 * step) with i by lia.
  - cbn [for_n]. apply wp_bind. specialize (Hb 0 s) as H0.
    replace (i + 0 * step) with i in H0 by lia.
    eapply wp_mono; [apply H0; [lia|done]| |done..].
    intros [] s1 H1. replace (i + (0 + 1) * step) with (i + step) in H1 by lia.
    specialize (IH (i + step) s1 H1).
    replace (i + Z.of_nat (Datatypes.S n) * step) with (i + step + Z.of_nat n * step) by lia.
    apply IH. intros k s2 Hk H2. specialize (Hb (k + 1) s2).
    replace (i + (k + 1) * step) with (i + step + k * step) in Hb by lia.
    replace (i + (k + 1 + 1) * step) with (i + step + (k + 1) * step) in Hb by lia.
    apply Hb; [lia|done].
Qed.

Lemma wp_for_fold {A} n i step (body : Z → A → proc S A) a (I : Z → A → S → Prop) R E s :
  I i a s →
  (∀ k a' s', 0 <= k < Z.of_nat n → I (i + k * step) a' s' →
     wp (body (i + k * step) a') (I (i + (k + 1) * step)) R E s') →
  wp (for_fold n i step body a) (I (i + Z.of_nat n * step)) R E s.
Proof.
  revert i a s. induction n as [|n IH]; intros i a s Hi Hb.
  - apply wp_mret. by replace (i + Z.of_nat 0 * step) with i by lia.
  - cbn [for_fold]. apply wp_bind. specialize (Hb 0 a s) as H0.
    replace (i + 0 * step) with i in H0 by lia.
    eapply wp_conseq; [apply H0; [lia|done]|].
    intros a1 s1 H1. replace (i + (0 + 1) * step) with (i + step) in H1 by lia.
    specialize (IH (i + step) a1 s1 H1).
    replace (i + Z.of_nat (Datatypes.S n) * step) with (i + step + Z.of_nat n * step) by lia.
    apply IH. intros k a2 s2 Hk H2. specialize (Hb (k + 1) a2 s2).
    replace (i + (k + 1) * step) with (i + step + k * step) in Hb by lia.
    replace (i + (k + 1 + 1) * step) with (i + step + (k + 1) * step) in Hb by lia.
    apply Hb; [lia|done].
Qed.

Lemma wp_for_range lo hi step body (I : Z → S → Prop) R E s :
  0 < step →
  I lo s →
  (∀ i s', lo <= i < hi → (i - lo) mod step = 0 → I i s' →
     wp (body i) (λ _, I (i + step)) R E s') →
  wp (for_range lo hi step body)
     (λ _ s', ∃ i, hi <= i ∧ I i s') R E s.
Proof.
  intros Hstep Hi Hb. unfold for_range.
  set (n := Z.to_nat ((hi - lo + step - 1) / step)).
  eapply wp_mono; [apply (wp_for_n n lo step body I R E s Hi)| |done..].
  - intros k s' Hk HI.
    replace (lo + (k + 1) * step) with (lo + k * step + step) by lia.
    apply Hb; [|by replace (lo + k * step - lo) with (k * step) by lia; rewrite Z.mod_mul by lia|done].
    subst n. split; [nia|].
    assert (k + 1 <= (hi - lo + step - 1) / step) as Hk2 by lia.
    pose proof (Z.mul_div_le (hi - lo + step - 1) step Hstep). nia.
  - intros [] s' HI. eexists. split; [|exact HI]. subst n.
    destruct (decide (0 <= (hi - lo + step - 1) / step)) as [Hd|Hd].
    + rewrite Z2Nat.id by done.
      pose proof (Z.mul_succ_div_gt (hi - lo + step - 1) step Hstep). nia.
    + replace (Z.of_nat (Z.to_nat ((hi - lo + step - 1) / step))) with 0 by lia.
      assert (hi - lo + step - 1 < 0); [|lia].
      apply Z.nle_gt. intros Hn. apply Hd. by apply Z.div_pos.
Qed.

(** Unit step: the loop ends exactly at its bound. *)
Lemma wp_for_up lo hi body (I : Z → S → Prop) R E s :
  lo <= hi →
  I lo s →
  (∀ i s', lo <= i < hi → I i s' → wp (body i) (λ _, I (i + 1)) R E s') →
  wp (for_range lo hi 1 body) (λ _, I hi) R E s.
Proof.
  intros Hle Hi Hb. unfold for_range.
  replace ((hi - lo + 1 - 1) / 1) with (hi - lo) by (rewrite Z.div_1_r; lia).
  eapply wp_mono; [apply (wp_for_n (Z.to_nat (hi - lo)) lo 1 body I R E s Hi)| |done..].
  - intros k s' Hk HI. replace (lo + (k + 1) * 1) with (lo + k * 1 + 1) by lia.
    apply Hb; [lia|done].
  - intros [] s'. by replace (lo + Z.of_nat (Z.to_nat (hi - lo)) * 1) with hi by lia.
Qed.

(** One invariant for every element of the list that is walked. *)
Lemma wp_for_each {A} (l : list A) body (I : S → Prop) R E s :
  I s → (∀ x s', x ∈ l → I s' → wp (body x) (λ _, I) R E s') →
  wp (for_each l body) (λ _, I) R E s.
Proof.
  revert s. induction l as [|x l IH]; intros s Hi Hb; [done|].
  cbn [for_each]. apply wp_bind. eapply wp_mono; [apply Hb; [left|done]| |done..].
  intros [] s1 H1. apply IH; [done|]. intros y s2 Hy. apply Hb. by right.
Qed.

(** An invariant that speaks of the elements already visited. *)
Lemma wp_for_each_done {A} (l done : list A) body (I : list A → S → Prop) R E s :
  I done s →
  (∀ d x s', x ∈ l → I d s' → wp (body x) (λ _, I (d ++ [x])) R E s') →
  wp (for_each l body) (λ _, I (done ++ l)) R E s.
Proof.
  revert done s. induction l as [|x l IH]; intros done s Hi Hb.
  { by rewrite app_nil_r. }
  cbn [for_each]. apply wp_bind. eapply wp_mono; [by apply (Hb done); [left|]| |done..].
  intros [] s1 H1. change (x :: l) with ([x] ++ l). rewrite (app_assoc done [x] l). apply IH; [done|].
  intros d y s2 Hy. apply Hb. by right.
Qed.

(** What a specification says of a run. *)
Lemma wp_run {A} (m : proc S A) Q s :
  wp m Q (λ _ _, False) (λ _ _, False) s → ∃ a s', m s = (Norm a, s') ∧ Q a s'.
Proof. unfold wp. destruct (m s) as [[] ?]; naive_solver. Qed.

(** A [while] loop ends when a natural measure decreases below its bound. *)
Lemma wp_while fuel cond body (I : S → Prop) (m : S → nat) R E s :
  (m s < fuel)%nat → I s →
  (∀ s', I s' → cond s' = true →
     wp body (λ _ s'', I s'' ∧ (m s'' < m s')%nat) R E s') →
  wp (while_ fuel cond body) (λ _ s', I s' ∧ cond s' = false) R E s.
Proof.
  revert s. induction fuel as [|fuel IH]; intros s Hm Hi Hb; [lia|].
  unfold wp. cbn [while_]. destruct (cond s) eqn:Hc; [|done].
  change (wp (body ;; while_ fuel cond body) (λ _ s', I s' ∧ cond s' = false) R E s).
  apply wp_bind. eapply wp_mono; [by apply Hb| |done..].
  intros [] s1 [H1 Hlt]. apply IH; [lia|done..].
Qed.

Lemma wp_while_fold {A} fuel cond (body : A → proc S A) (I : A → S → Prop) (m : A → S → nat)
    R E a s :
  (m a s < fuel)%nat → I a s →
  (∀ a' s', I a' s' → cond a' s' = true →
     wp (body a') (λ a'' s'', I a'' s'' ∧ (m a'' s'' < m a' s')%nat) R E s') →
  wp (while_fold fuel cond body a) (λ a' s', I a' s' ∧ cond a' s' = false) R E s.
Proof.
  revert a s. induction fuel as [|fuel IH]; intros a s Hm Hi Hb; [lia|].
  unfold wp. cbn [while_fold]. destruct (cond a s) eqn:Hc; [|done].
  change (wp (a' ← body a; while_fold fuel cond body a')
    (λ a' s', I a' s' ∧ cond a' s' = false) R E s).
  apply wp_bind. eapply wp_mono; [by apply Hb| |done..].
  intros a1 s1 [H1 Hlt]. apply IH; [lia|done..].
Qed.
End wp_rules.

(** [wp_step] consumes the first statement of a procedure; the goals that are
    left are the loops, the calls and the conditions of the branches. *)
Ltac wp_step :=
  lazymatch goal with
  | |- wp (mret _) _ _ _ _ => apply wp_mret
  | |- wp (return_ _) _ _ _ _ => apply wp_return
  | |- wp (exit_ _) _ _ _ _ => apply wp_exit
  | |- wp (gets _) _ _ _ _ => apply wp_gets
  | |- wp (modify _) _ _ _ _ => apply wp_modify
  | |- wp (mbind _ _) _ _ _ _ => apply wp_bind
  | |- wp (when _ _) _ _ _ _ => apply wp_when; intros ?
  | |- wp (if decide _ then _ else _) _ _ _ _ => apply wp_ifd; intros ?
  | |- wp (if _ then _ else _) _ _ _ _ => apply wp_if; intros ?
  | |- wp (let _ := _ in _) _ _ _ _ => cbv zeta
  end.
Ltac wp_steps := repeat wp_step.

(** ** What procedures leave alone

    Whenever the procedure falls through, [Rel] relates the states. *)
Definition stable {S A} (Rel : S → S → Prop) (m : proc S A) : Prop :=
  ∀ s a s', m s = (Norm a, s') → Rel s s'.

Section stable.
Context {S : Type} (Rel : S → S → Prop) `{!PreOrder Rel}.

Lemma stable_bind {A B} (m : proc S A) (k : A → proc S B) :
  stable Rel m → (∀ a, stable Rel (k a)) → stable Rel (m ≫= k).
Proof.
  intros Hm Hk s b s' Hr. unfold mbind, proc_bind in Hr.
  destruct (m s) as [[a|v|c| |] s1] eqn:E; try discriminate Hr.
  etrans; [by eapply Hm|by eapply Hk].
Qed.

Lemma stable_ret {A} (a : A) : stable Rel (mret a).
Proof. by intros s b s' [= _ <-]. Qed.

Lemma stable_gets {A} (f : S → A) : stable Rel (gets f).
Proof. by intros s b s' [= _ <-]. Qed.

Lemma stable_modify f : (∀ s, Rel s (f s)) → stable Rel (modify f).
Proof. intros Hf s b s' [= _ <-]. apply Hf. Qed.

Lemma stable_option {A} (f : S → option A) : stable Rel (from_option f).
Proof. intros s b s'. unfold from_option. destruct (f s); by intros [= _ <-]. Qed.

Lemma stable_exit {A} c : stable (A := A) Rel (exit_ c).
Proof. by intros s b s' E. Qed.

Lemma stable_zoom {T A} (get : S → T) set (m : proc T A) :
  (∀ s x, Rel s (set x s)) → stable Rel (zoom get set m).
Proof.
  intros Hset s b s'. unfold zoom. destruct (m (get s)) as [o x]. intros [= _ <-]. apply Hset.
Qed.
End stable.

Ltac stable_step side := first
  [apply stable_ret; exact _|apply stable_gets; exact _|apply stable_option; exact _|apply stable_exit
  |apply stable_modify; intros; side
  |apply stable_bind; [exact _| |intros ?]|progress unfold when
  |match goal with |- stable _ (match ?x with _ => _ end) => destruct x end].
