(* ===== verification/Decimal.v ===== *)
(** * Decimal numbers in text

    [std::to_string], [sprintf] and [sscanf] of unsigned numbers, [std::stoi], [atoi]
    and [strtol]: file names, process identifiers, the segments that the environment
    names and the records of the operation log are made of them.  Printing and scanning are inverse to each other. *)

From Stdlib Require Import Ascii.
From S2P Require Import Prelude.

Definition digit (d : Z) : ascii := ascii_of_nat (Z.to_nat (48 + d)).

(** The decimal digits of [n] in front of [acc]; [fuel + 1] digits at most. *)
Fixpoint dec (fuel : nat) (n : Z) (acc : string) : string :=
  let acc := String (digit (n mod 10)) acc in
  match fuel with
  | O => acc
  | S fuel' => if n <? 10 then acc else dec fuel' (n / 10) acc
  end.

(** [std::to_string] of an [u64]: at most 20 digits. *)
Definition to_string (n : Z) : string := dec 19 n EmptyString.

Fixpoint zeros (k : nat) (s : string) : string :=
  match k with O => s | S k' => String (digit 0) (zeros k' s) end.

(** [sscanf] of [%u] with a maximal width: the leading digits, [w] at most. *)
Definition digit_of (c : ascii) : option Z :=
  let d := Z.of_nat (nat_of_ascii c) - 48 in
  if decide (0 <= d < 10) then Some d else None.
Fixpoint scan_digits (w : nat) (s : string) (v : Z) : Z :=
  match w, s with
  | S w', String c s' =>
      match digit_of c with Some d => scan_digits w' s' (v * 10 + d) | None => v end
  | _, _ => v
  end.

Definition is_space (c : ascii) : bool :=
  let n := Z.of_nat (nat_of_ascii c) in
  bool_decide (n = 32 ∨ 9 <= n <= 13).

Fixpoint skip_spaces (s : string) : string :=
  match s with
  | String c t => if is_space c then skip_spaces t else s
  | EmptyString => s
  end.

(** The digits that [%u] converts, if there is one. *)
Definition scan_number (w : nat) (s : string) : option Z :=
  match s with
  | String c _ => if digit_of c is Some _ then Some (scan_digits w s 0) else None
  | EmptyString => None
  end.

(** The number at the start of a text, of any length. *)
Definition scan_int (s : string) : option Z :=
  match skip_spaces s with
  | String "-"%char t => Z.opp <$> scan_number (String.length t) t
  | String "+"%char t => scan_number (String.length t) t
  | t => scan_number (String.length t) t
  end.

(** [std::stoi]: [None] stands for the exception, which is thrown when there is no
    number and when it is not an [int]. *)
Definition stoi (s : string) : option Z :=
  v ← scan_int s; if decide (-2 ^ 31 <= v < 2 ^ 31) then Some v else None.

(** [strtol] stops at the ends of [long]. *)
Definition saturate_long (z : Z) : Z := Z.max (-2 ^ 63) (Z.min (2 ^ 63 - 1) z).

(** [atoi]: [(int)strtol(s, NULL, 10)], 0 when there is no number. *)
Definition atoi (s : string) : Z := s32 (saturate_long (default 0 (scan_int s))).

(** [strtol(s, NULL, 0)]: the prefix [0x] stands for base 16 and a leading zero for
    base 8. *)
Definition digit_in (base : Z) (c : ascii) : option Z :=
  let n := Z.of_nat (nat_of_ascii c) in
  let d := if decide (48 <= n <= 57) then n - 48
           else if decide (65 <= n <= 90) then n - 55
           else if decide (97 <= n <= 122) then n - 87 else base in
  if decide (d < base) then Some d else None.
Fixpoint scan_in (base : Z) (s : string) (v : Z) : Z :=
  match s with
  | String c t => if digit_in base c is Some d then scan_in base t (v * base + d) else v
  | EmptyString => v
  end.
Definition scan_prefixed (s : string) : Z :=
  match s with
  | String "0"%char (String "x"%char t) | String "0"%char (String "X"%char t) => scan_in 16 t 0
  | String "0"%char _ => scan_in 8 s 0
  | _ => scan_in 10 s 0
  end.
Definition strtol (s : string) : Z :=
  saturate_long
    match skip_spaces s with
    | String "-"%char t => - scan_prefixed t
    | String "+"%char t => scan_prefixed t
    | t => scan_prefixed t
    end.

(** [std::to_string] of an [int]. *)
Definition int_to_string (z : Z) : string :=
  if decide (z < 0) then "-" +:+ to_string (- z) else to_string z.

(** Texts as bytes of a file. *)
Fixpoint bytes_of_string (s : string) : list Z :=
  match s with
  | EmptyString => []
  | String c t => Z.of_nat (nat_of_ascii c) :: bytes_of_string t
  end.
Fixpoint string_of_bytes (l : list Z) : string :=
  match l with
  | [] => EmptyString
  | b :: l' => String (ascii_of_nat (Z.to_nat b)) (string_of_bytes l')
  end.

Lemma digit_of_digit d : 0 <= d < 10 → digit_of (digit d) = Some d.
Proof.
  intros Hd. unfold digit_of, digit. rewrite nat_ascii_embedding by lia.
  rewrite decide_True by lia. f_equal. lia.
Qed.

(** [s] starts with the [k] digits of [n], which [acc] follows: what a scan with
    enough, and with too little width reads. *)
Record printed (n : Z) (k : nat) (acc s : string) : Prop := Printed {
  pr_range : 0 <= n < 10 ^ Z.of_nat k;
  pr_least : n = 0 ∧ k = 1%nat ∨ 10 ^ (Z.of_nat k - 1) <= n;
  pr_length : String.length s = (k + String.length acc)%nat;
  pr_whole : ∀ w v, (k <= w)%nat →
    scan_digits w s v = scan_digits (w - k) acc (v * 10 ^ Z.of_nat k + n);
  pr_cut : ∀ w v, (w <= k)%nat →
    scan_digits w s v = v * 10 ^ Z.of_nat w + n / 10 ^ (Z.of_nat k - Z.of_nat w);
}.

Lemma printed_digit n acc : 0 <= n < 10 → printed n 1 acc (String (digit n) acc).
Proof.
  intros Hn. split.
  - cbn. lia.
  - change (10 ^ (Z.of_nat 1 - 1)) with 1. lia.
  - done.
  - intros [|w] v Hw; [lia|]. cbn [scan_digits]. rewrite digit_of_digit by done.
    rewrite Nat.sub_succ, Nat.sub_0_r. f_equal.
  - intros [|[|w]] v Hw; [| |lia].
    + cbn [scan_digits]. change (10 ^ (Z.of_nat 1 - Z.of_nat 0)) with 10.
      rewrite Z.div_small by lia. cbn. lia.
    + cbn [scan_digits]. rewrite digit_of_digit by done.
      change (10 ^ (Z.of_nat 1 - Z.of_nat 1)) with 1. rewrite Z.div_1_r. cbn. lia.
Qed.

(** The digits of [n / 10], then the last one. *)
Lemma printed_step n k acc s : 10 <= n →
  printed (n / 10) k (String (digit (n mod 10)) acc) s → printed n (S k) acc s.
Proof.
  intros Hn [Hr Hl Hlen Hw Hc].
  pose proof (Z.div_mod n 10 ltac:(lia)) as Hdm.
  assert (0 <= n mod 10 < 10) as Hmod by (apply Z.mod_pos_bound; lia).
  assert (1 <= n / 10) as H1 by (apply Z.div_le_lower_bound; lia).
  assert (10 ^ Z.of_nat (S k) = 10 * 10 ^ Z.of_nat k) as Hpow
    by (rewrite Nat2Z.inj_succ, Z.pow_succ_r; lia).
  split.
  - lia.
  - right. destruct Hl as [[? _]|Hl]; [lia|].
    destruct k as [|k]; [cbn in *; lia|].
    replace (Z.of_nat (S (S k)) - 1) with (Z.succ (Z.of_nat (S k) - 1)) by lia.
    rewrite Z.pow_succ_r by lia. lia.
  - rewrite Hlen. cbn [String.length]. lia.
  - intros w v Hwk. rewrite Hw by lia. destruct (w - k)%nat as [|w'] eqn:E; [lia|].
    cbn [scan_digits]. rewrite digit_of_digit by done.
    replace (w - S k)%nat with w' by lia. f_equal. rewrite Hpow. lia.
  - intros w v Hwk. destruct (decide (w <= k)%nat) as [Hle|Hgt].
    + rewrite Hc by done. f_equal. rewrite Z.div_div by (try apply Z.pow_pos_nonneg; lia).
      f_equal. replace (Z.of_nat (S k) - Z.of_nat w) with (Z.succ (Z.of_nat k - Z.of_nat w)) by lia.
      by rewrite Z.pow_succ_r by lia.
    + replace w with (S k) in * by lia. rewrite Hw by lia. rewrite Nat.sub_succ_l, Nat.sub_diag by lia.
      cbn [scan_digits]. rewrite digit_of_digit by done.
      rewrite Z.sub_diag, Z.pow_0_r, Z.div_1_r, Hpow. lia.
Qed.

Lemma dec_printed fuel n acc : 0 <= n < 10 ^ (Z.of_nat fuel + 1) →
  ∃ k, printed n k acc (dec fuel n acc).
Proof.
  revert n acc. induction fuel as [|fuel IH]; intros n acc Hn; cbn [dec].
  - cbn in Hn. exists 1%nat. rewrite Z.mod_small by lia. by apply printed_digit.
  - destruct (Z.ltb_spec n 10).
    + exists 1%nat. rewrite Z.mod_small by lia. apply printed_digit. lia.
    + destruct (IH (n / 10) (String (digit (n mod 10)) acc)) as [k Hk].
      { split; [by apply Z.div_pos; lia|]. apply Z.div_lt_upper_bound; [lia|].
        rewrite <-Z.pow_succ_r by lia. replace (Z.succ (Z.of_nat fuel + 1))
          with (Z.of_nat (S fuel) + 1) by lia. apply Hn. }
      exists (S k). by apply printed_step.
Qed.

Lemma scan_zeros j s w : (j <= w)%nat → scan_digits w (zeros j s) 0 = scan_digits (w - j) s 0.
Proof.
  revert w. induction j as [|j IH]; intros w Hw; cbn [zeros]; [by rewrite Nat.sub_0_r|].
  destruct w as [|w]; [lia|]. cbn [scan_digits]. rewrite digit_of_digit by lia.
  rewrite IH by lia. by rewrite Nat.sub_succ.
Qed.

Lemma length_zeros j s : String.length (zeros j s) = (j + String.length s)%nat.
Proof. induction j as [|j IH]; [done|]. cbn [zeros String.length]. by rewrite IH. Qed.

Lemma zeros_app j s t : zeros j s +:+ t = zeros j (s +:+ t).
Proof. induction j as [|j IH]; [done|]. 
  change (String (digit 0) (zeros j s +:+ t) = String (digit 0) (zeros j (s +:+ t))). by rewrite IH.
Qed.

Lemma length_append s t : String.length (s +:+ t) = (String.length s + String.length t)%nat.
Proof.
  induction s as [|c s IH]; [done|]. change (String c s +:+ t) with (String c (s +:+ t)).
  cbn [String.length]. by rewrite IH.
Qed.

Lemma dec_app fuel n acc t : dec fuel n acc +:+ t = dec fuel n (acc +:+ t).
Proof.
  revert n acc. induction fuel as [|fuel IH]; intros n acc; cbn [dec]; [done|].
  destruct (n <? 10); [done|]. by rewrite IH.
Qed.

(** Text that a scan of digits does not enter. *)
Definition no_digit (t : string) : Prop :=
  match t with EmptyString => True | String c _ => digit_of c = None end.

Lemma scan_no_digit w t v : no_digit t → scan_digits w t v = v.
Proof. destruct w, t as [|c t]; try done. cbn. by intros ->. Qed.


(** *** Printing and scanning *)

Lemma dec_head fuel n acc : ∃ c s d, dec fuel n acc = String c s ∧ digit_of c = Some d.
Proof.
  revert n acc. induction fuel as [|fuel IH]; intros n acc; cbn [dec].
  - assert (0 <= n mod 10 < 10) by (apply Z.mod_pos_bound; lia).
    exists (digit (n mod 10)), acc, (n mod 10). by rewrite digit_of_digit.
  - destruct (n <? 10); [|apply IH]. assert (0 <= n mod 10 < 10) by (apply Z.mod_pos_bound; lia).
    exists (digit (n mod 10)), acc, (n mod 10). by rewrite digit_of_digit.
Qed.

Lemma to_string_scan n t w : is_u64 n → no_digit t → (String.length (to_string n) <= w)%nat →
  scan_number w (to_string n +:+ t) = Some n.
Proof.
  intros Hn Ht Hw. unfold is_u64 in Hn. unfold to_string in *. rewrite dec_app.
  change (EmptyString +:+ t) with t.
  destruct (dec_printed 19 n t) as [k Hp]; [cbn; lia|].
  assert (String.length (dec 19 n EmptyString) = k) as Hk.
  { pose proof (pr_length _ _ _ _ Hp) as Hl. change t with (EmptyString +:+ t) in Hl at 1.
    rewrite <-dec_app, length_append in Hl. lia. }
  destruct (dec_head 19 n t) as (c&s&d&E&Hd). unfold scan_number. rewrite E, Hd, <-E.
  rewrite (pr_whole _ _ _ _ Hp) by lia. rewrite scan_no_digit by done. f_equal; lia.
Qed.

Lemma append_assoc a b c : (a +:+ b) +:+ c = a +:+ b +:+ c.
Proof. induction a as [|x a IH]; [done|]. exact (f_equal (String x) IH). Qed.

Lemma append_empty s : s +:+ EmptyString = s.
Proof.
  induction s as [|c s IH]; [done|]. change (String c s +:+ EmptyString) with (String c (s +:+ EmptyString)).
  by rewrite IH.
Qed.

Lemma to_string_inj n m : is_u64 n → is_u64 m → to_string n = to_string m → n = m.
Proof.
  intros Hn Hm E. pose proof (to_string_scan n EmptyString _ Hn I ltac:(reflexivity)) as H1.
  pose proof (to_string_scan m EmptyString _ Hm I ltac:(reflexivity)) as H2.
  rewrite E in H1. congruence.
Qed.

(** A digit is neither white space nor a sign. *)
Lemma digit_plain c d : digit_of c = Some d → is_space c = false ∧ c ≠ "-"%char ∧ c ≠ "+"%char.
Proof.
  intros Hd. split; [|split; intros ->; vm_compute in Hd; discriminate].
  unfold digit_of in Hd. case_decide as Hr; [|done]. unfold is_space.
  apply bool_decide_eq_false_2. lia.
Qed.

Lemma scan_int_plain s t : is_Some (c ← match s with String c _ => Some c | _ => None end; digit_of c) →
  scan_int (s +:+ t) = scan_number (String.length (s +:+ t)) (s +:+ t).
Proof.
  destruct s as [|c s]; [by intros [? [=]]|]. cbn [mbind option_bind]. intros [d Hd].
  destruct (digit_plain c d Hd) as (Hs&Hm&Hp). change (String c s +:+ t) with (String c (s +:+ t)).
  unfold scan_int. cbn [skip_spaces]. rewrite Hs.
  destruct c as [[] [] [] [] [] [] [] []]; try done.
Qed.

Lemma scan_int_to_string n t : is_u64 n → no_digit t → scan_int (to_string n +:+ t) = Some n.
Proof.
  intros Hn Ht. rewrite scan_int_plain.
  - apply to_string_scan; [done..|]. rewrite length_append. lia.
  - destruct (dec_head 19 n EmptyString) as (c&s&d&E&Hd). unfold to_string. rewrite E. cbn. by eexists.
Qed.

(** An [int] that is printed is read back. *)
Lemma stoi_to_string z : -2 ^ 31 <= z < 2 ^ 31 → stoi (int_to_string z) = Some z.
Proof.
  intros Hz. assert (∀ n, is_u64 n → scan_int (to_string n) = Some n) as Hpos.
  { intros n Hn. rewrite <-(append_empty (to_string n)). by apply scan_int_to_string. }
  unfold stoi, int_to_string. case_decide as Hneg.
  - assert (scan_int ("-" +:+ to_string (- z)) = Some z) as ->; [|cbn; by rewrite decide_True].
    unfold scan_int. change ("-" +:+ to_string (- z)) with (String "-"%char (to_string (- z))).
    cbn [skip_spaces]. change (is_space "-"%char) with false. cbv iota.
    rewrite <-(append_empty (to_string (- z))). rewrite to_string_scan; [cbn; f_equal; lia|unfold is_u64; lia|done|].
    rewrite append_empty. lia.
  - rewrite Hpos by (unfold is_u64; lia). cbn. by rewrite decide_True.
Qed.

Lemma int_of_long n : 0 <= n < 2 ^ 31 → s32 (saturate_long n) = n.
Proof.
  intros Hn. assert (saturate_long n = n) as -> by (unfold saturate_long; lia).
  unfold s32. rewrite Z.mod_small by lia. lia.
Qed.

Lemma atoi_to_string n : 0 <= n < 2 ^ 31 → atoi (to_string n) = n.
Proof.
  intros Hn. unfold atoi.
  rewrite <-(append_empty (to_string n)), scan_int_to_string by (unfold is_u64; cbn; lia || done).
  by apply int_of_long.
Qed.

Lemma digit_in_10 c : digit_in 10 c = digit_of c.
Proof. destruct c as [[] [] [] [] [] [] [] []]; reflexivity. Qed.

Lemma scan_in_10 s v : scan_in 10 s v = scan_digits (String.length s) s v.
Proof.
  revert v. induction s as [|c s IH]; intros v; [done|]. cbn [scan_in scan_digits String.length].
  rewrite digit_in_10. by destruct (digit_of c).
Qed.

(** A positive number is printed without a leading zero. *)
Lemma to_string_head n : 0 < n → is_u64 n →
  ∃ c s d, to_string n = String c s ∧ digit_of c = Some d ∧ 0 < d.
Proof.
  unfold is_u64. intros Hn Hu. destruct (dec_head 19 n EmptyString) as (c&s&d&E&Hd).
  exists c, s, d. split; [done|]. split; [done|].
  destruct (dec_printed 19 n EmptyString) as [k [Hr Hl _ _ Hc]]; [cbn; lia|].
  destruct k as [|k]; [cbn in Hr; lia|].
  specialize (Hc 1%nat 0 ltac:(lia)). rewrite E in Hc. cbn [scan_digits] in Hc. rewrite Hd in Hc.
  destruct Hl as [[? _]|Hl]; [lia|]. change (Z.of_nat 1) with 1 in Hc.
  assert (1 <= n / 10 ^ (Z.of_nat (S k) - 1)); [|lia].
  apply Z.div_le_lower_bound; [apply Z.pow_pos_nonneg; lia|]. by rewrite Z.mul_1_r.
Qed.

Lemma scan_prefixed_plain c s d : digit_of c = Some d → 0 < d →
  scan_prefixed (String c s) = scan_in 10 (String c s) 0.
Proof.
  intros Hd Hpos. destruct c as [[] [] [] [] [] [] [] []]; try done.
  vm_compute in Hd. injection Hd as <-. lia.
Qed.

Lemma strtol_to_string n : 0 <= n < 2 ^ 31 → s32 (strtol (to_string n)) = n.
Proof.
  intros Hn. destruct (decide (n = 0)) as [->|Hz]; [done|].
  destruct (to_string_head n) as (c&s&d&E&Hd&Hpos); [lia|unfold is_u64; lia|].
  pose proof (to_string_scan n EmptyString _ ltac:(unfold is_u64; lia) I (reflexivity _)) as Hs.
  rewrite append_empty in Hs. rewrite E in *. unfold scan_number in Hs. rewrite Hd in Hs.
  apply (inj Some) in Hs. rewrite <-scan_in_10, <-(scan_prefixed_plain c s d) in Hs by done.
  destruct (digit_plain c d Hd) as (Hsp&Hm&Hp). unfold strtol. cbn [skip_spaces]. rewrite Hsp.
  transitivity (s32 (saturate_long (scan_prefixed (String c s)))).
  - destruct c as [[] [] [] [] [] [] [] []]; done.
  - rewrite Hs. by apply int_of_long.
Qed.

(** *** Texts in files *)

Lemma string_of_bytes_of_string s : string_of_bytes (bytes_of_string s) = s.
Proof.
  induction s as [|c s IH]; [done|]. cbn [bytes_of_string string_of_bytes].
  by rewrite Nat2Z.id, ascii_nat_embedding, IH.
Qed.

Lemma bytes_of_string_u8 s : Forall is_u8 (bytes_of_string s).
Proof.
  induction s as [|c s IH]; [constructor|]. cbn [bytes_of_string]. constructor; [|done].
  pose proof (nat_ascii_bounded c). unfold is_u8. lia.
Qed.

Lemma zlen_bytes_of_string s : zlen (bytes_of_string s) = Z.of_nat (String.length s).
Proof. unfold zlen. induction s as [|c s IH]; [done|]. cbn [bytes_of_string length String.length]. lia. Qed.
