(* ===== verification/TraceMap.v ===== *)
(** * Coverage maps

    The coverage maps of the fuzzer ([globalTraceBit], [branchTraceBit], the
    virgin maps and the maps shared between fuzzers) and the routines of
    [fuzz/fuzzer/old/TestRunning.cpp], [FuzzOne.cpp], [QueueCulling.cpp] and
    [Synchronize.cpp] that read and update them.  A map is the list of its
    [MAP_SIZE] bytes.  The routines walk a map one machine word at a time; the
    theorems relate them to what they do to each single byte. *)

From Stdlib Require Import ZArith Lia.
From stdpp Require Import base list gmap strings numbers.
From S2P Require Import Prelude.

(** [constants.h]: the size of a map is [1 << MAP_SIZE_POW2].  The routines
    below are defined for any size, which the statements restrict to a
    multiple of the word size where that matters. *)
Definition MAP_SIZE_POW2 : Z := 23.
Definition MAP_SIZE : Z := Z.shiftl 1 MAP_SIZE_POW2.

(** ** Hit-count classes *)

(** [for (i = lo; i < hi; i++) t[i] = v;] *)
Definition fill (lo hi : nat) (v : Z) (t : list Z) : list Z :=
  foldl (λ t i, <[i:=v]> t) t (seq lo (hi - lo)).

(** The table [count_class_lookup8], after [init_count_class]. *)
Definition count_class_lookup8 : list Z :=
  fill 128 256 128 (fill 32 128 64 (fill 16 32 32 (fill 8 16 16 (fill 4 8 8
    (<[3%nat:=4]> (<[2%nat:=2]> (<[1%nat:=1]> (<[0%nat:=0]>
      (replicate 256 0))))))))).

(** The table [count_class_lookup16], as the function of its index: the two
    loops write each index [(b1 << 8) + b2] with [b1, b2 < 256] once. *)
Definition count_class_lookup16 (i : Z) : Z :=
  let b1 := Z.shiftr i 8 in
  let b2 := Z.land i 255 in
  Z.lor (Z.shiftl (nthZ count_class_lookup8 b1) 8) (nthZ count_class_lookup8 b2).

(** One [mem16[k] = count_class_lookup16[mem16[k]]]. *)
Definition classify16 (m : list Z) : list Z :=
  le_bytes 2 (count_class_lookup16 (le_load m)).

(** [classify_counts] on x86-64, [i] words left. *)
Fixpoint classify_words (i : nat) (mem : list Z) : list Z :=
  match i with
  | O => mem
  | S i' =>
      let w := take 8 mem in
      (if decide (le_load w = 0) then w
       else classify16 (take 2 w) ++ classify16 (take 2 (drop 2 w)) ++
            classify16 (take 2 (drop 4 w)) ++ classify16 (take 2 (drop 6 w)))
      ++ classify_words i' (drop 8 mem)
  end.
Definition classify_counts (map_size : Z) (mem : list Z) : list Z :=
  classify_words (Z.to_nat (Z.shiftr map_size 3)) mem.

(** ** Counting *)

Definition FF (b : Z) : Z := u32 (Z.shiftl 255 (Z.shiftl b 3)).

(** [if (v & FF(b)) ret++;] *)
Definition count_byte (v b ret : Z) : Z :=
  if decide (Z.land v (FF b) = 0) then ret else u32 (ret + 1).

(** [CountBytes], [i] words of 32 bits left. *)
Fixpoint count_words (i : nat) (mem : list Z) (ret : Z) : Z :=
  match i with
  | O => ret
  | S i' =>
      let v := le_load (take 4 mem) in
      let mem := drop 4 mem in
      if decide (v = 0) then count_words i' mem ret else
      let ret := count_byte v 0 ret in
      let ret := count_byte v 1 ret in
      let ret := count_byte v 2 ret in
      let ret := count_byte v 3 ret in
      count_words i' mem ret
  end.
Definition CountBytes (map_size : Z) (mem : list Z) : Z :=
  count_words (Z.to_nat (Z.shiftr map_size 2)) mem 0.

(** [ShowCoverage]: the number of virgin-map bytes that were touched. *)
Definition ShowCoverage (virgin_map : list Z) : Z :=
  foldl (λ cov_count b, if decide (b = 255) then cov_count else u32 (cov_count + 1))
        0 virgin_map.

(** ** New coverage *)

(** The condition of the inner [if] of [has_new_bits]: one of the eight bytes
    is hit for the first time. *)
Definition new_tuple (cur vir : list Z) : bool :=
  existsb (λ p, negb (p.1 =? 0) && (p.2 =? 255)) (zip cur vir).

(** [has_new_bits] on x86-64, [i] words left: the flag it returns and the
    updated virgin map. *)
Fixpoint new_bits_words (i : nat) (current virgin : list Z) (ret : Z) : Z * list Z :=
  match i with
  | O => (ret, virgin)
  | S i' =>
      let cur := take 8 current in
      let vir := take 8 virgin in
      let c := le_load cur in
      let v := le_load vir in
      let '(ret, vir) :=
        if negb (c =? 0) && negb (Z.land c v =? 0) then
          (if ret <? 2 then (if new_tuple cur vir then 2 else 1) else ret,
           le_bytes 8 (Z.land v (u64 (Z.lnot c))))
        else (ret, vir) in
      let '(ret, virgin') := new_bits_words i' (drop 8 current) (drop 8 virgin) ret in
      (ret, vir ++ virgin')
  end.
Definition has_new_bits (map_size : Z) (current virgin : list Z) : Z * list Z :=
  new_bits_words (Z.to_nat (Z.shiftr map_size 3)) current virgin 0.

(** [MinimizeBit]: the set of the map positions that are hit. *)
Definition MinimizeBit (globalTraceBit : list Z) : list bool :=
  (λ b, negb (b =? 0)) <$> globalTraceBit.

(** [sync_coverage]: the new local and global maps. *)
Definition sync_coverage (local_coverage global_coverage : list Z) : list Z * list Z :=
  let global_coverage := zip_with Z.land global_coverage local_coverage in
  (global_coverage, global_coverage).

(** ** The checksum of a map *)

Definition ROL64 (x r : Z) : Z := Z.lor (u64 (Z.shiftl x r)) (Z.shiftr x (64 - r)).

Definition hash_mix (h1 k1 : Z) : Z :=
  let k1 := u64 (k1 * 0x87c37b91114253d5) in
  let k1 := ROL64 k1 31 in
  let k1 := u64 (k1 * 0x4cf5ad432745937f) in
  let h1 := Z.lxor h1 k1 in
  let h1 := ROL64 h1 27 in
  u64 (h1 * 5 + 0x52dce729).

Fixpoint hash_words (len : nat) (data : list Z) (h1 : Z) : Z :=
  match len with
  | O => h1
  | S len' => hash_words len' (drop 8 data) (hash_mix h1 (le_load (take 8 data)))
  end.

Definition HASH_CONST : Z := 0xa5b35705.

Definition hash32 (key : list Z) (len seed : Z) : Z :=
  let h1 := Z.lxor seed len in
  let h1 := hash_words (Z.to_nat (Z.shiftr len 3)) key h1 in
  let h1 := Z.lxor h1 (Z.shiftr h1 33) in
  let h1 := u64 (h1 * 0xff51afd7ed558ccd) in
  let h1 := Z.lxor h1 (Z.shiftr h1 33) in
  let h1 := u64 (h1 * 0xc4ceb9fe1a85ec53) in
  let h1 := Z.lxor h1 (Z.shiftr h1 33) in
  u32 h1.

(** ** What the routines do to one byte *)

(** The class of a hit count. *)
Definition bucket (b : Z) : Z :=
  if b <? 3 then b else if b <? 4 then 4 else if b <? 8 then 8
  else if b <? 16 then 16 else if b <? 32 then 32 else if b <? 128 then 64 else 128.

(** A byte of the virgin map after a hit of class [c]. *)
Definition clear_bits (c v : Z) : Z := Z.land v (u8 (Z.lnot c)).

(** The flag that one byte contributes. *)
Definition byte_flag (c v : Z) : Z :=
  if c =? 0 then 0 else if v =? 255 then 2 else if Z.land c v =? 0 then 0 else 1.

Definition max_list (l : list Z) : Z := foldr Z.max 0 l.

(** ** Hit-count classes, byte by byte *)

Lemma lookup8_bucket b : is_u8 b → nthZ count_class_lookup8 b = bucket b.
Proof.
  intros Hb. apply Z.eqb_eq. revert b Hb. apply u8_enum. vm_compute. reflexivity.
Qed.

Lemma bucket_u8 b : is_u8 b → is_u8 (bucket b).
Proof.
  intros Hb. apply (bool_decide_eq_true_1 (is_u8 (bucket b))). revert b Hb.
  apply (u8_enum (λ b, bool_decide (is_u8 (bucket b)))). vm_compute. reflexivity.
Qed.

Lemma bucket_0 b : is_u8 b → bucket b = 0 ↔ b = 0.
Proof.
  intros Hb. split; [|by intros ->]. intros H.
  assert (implb (bucket b =? 0) (b =? 0) = true) as Hi.
  { revert b Hb H. intros b Hb _. revert b Hb.
    apply (u8_enum (λ b, implb (bucket b =? 0) (b =? 0))). vm_compute. reflexivity. }
  rewrite H in Hi. by apply Z.eqb_eq.
Qed.

Lemma classify16_pair lo hi : is_u8 lo → is_u8 hi →
  classify16 [lo; hi] = [bucket lo; bucket hi].
Proof.
  intros Hlo Hhi. unfold classify16, count_class_lookup16.
  rewrite !le_load_cons by done. change (le_load []) with 0.
  replace (Z.shiftr (lo + 2 ^ 8 * (hi + 2 ^ 8 * 0)) 8) with hi
    by (rewrite Z.shiftr_div_pow2 by lia; unfold is_u8 in *; Z.div_mod_to_equations; lia).
  replace (Z.land (lo + 2 ^ 8 * (hi + 2 ^ 8 * 0)) 255) with lo
    by (change 255 with (Z.ones 8); rewrite Z.land_ones by lia;
        unfold is_u8 in *; Z.div_mod_to_equations; lia).
  rewrite !lookup8_bucket by done.
  transitivity (le_bytes 2 (le_load [bucket lo; bucket hi])).
  - f_equal. unfold le_load. cbn [little_endian_to_Z].
    by rewrite Z.shiftl_0_l, Z.lor_0_r, Z.lor_comm.
  - apply (le_bytes_load [bucket lo; bucket hi]).
    repeat constructor; by apply bucket_u8.
Qed.

Lemma classify_word_bytes w : Forall is_u8 w → length w = 8%nat →
  (if decide (le_load w = 0) then w
   else classify16 (take 2 w) ++ classify16 (take 2 (drop 2 w)) ++
        classify16 (take 2 (drop 4 w)) ++ classify16 (take 2 (drop 6 w)))
  = bucket <$> w.
Proof.
  intros Hw Hl. case_decide as H0.
  - apply le_load_0 in H0; [|done]. symmetry. clear Hl Hw.
    induction H0 as [|b w -> _ IH]; [done|]. by rewrite fmap_cons, IH.
  - do 8 (destruct w as [|? w]; [discriminate Hl|]). destruct w; [|discriminate Hl].
    repeat match goal with H : Forall _ (_ :: _) |- _ =>
      apply Forall_cons_iff in H as [? H] end.
    cbn [take drop]. by rewrite !classify16_pair by done.
Qed.

Lemma classify_words_bytes n mem : Forall is_u8 mem → length mem = (8 * n)%nat →
  classify_words n mem = bucket <$> mem.
Proof.
  revert mem. induction n as [|n IH]; intros mem Hmem Hl.
  - destruct mem; [done|cbn in Hl; lia].
  - apply chunk_split in Hl as [Ht Hd]. cbn [classify_words]. cbv zeta.
    rewrite classify_word_bytes, IH by (auto using Forall_take, Forall_drop).
    by rewrite <-fmap_app, take_drop.
Qed.

Lemma words_of_map map_size (mem : list Z) k :
  0 <= k → map_size mod 2 ^ k = 0 → zlen mem = map_size →
  length mem = (Z.to_nat (2 ^ k) * Z.to_nat (Z.shiftr map_size k))%nat.
Proof.
  intros Hk Hm Hz. rewrite Z.shiftr_div_pow2 by done.
  pose proof (zlen_nonneg mem). assert (0 < 2 ^ k) by lia.
  apply Nat2Z.inj. rewrite Nat2Z.inj_mul, !Z2Nat.id; [|apply Z.div_pos; lia|lia].
  fold (zlen mem). rewrite Hz. apply Z.div_exact in Hm; lia.
Qed.

(** C5. [classify_counts], which rewrites a map through a table of 65536
    entries and skips the words that are zero, replaces every byte of the map
    by the class of its hit count and changes nothing else. *)
Theorem classify_counts_bytewise map_size mem :
  map_size mod 8 = 0 → zlen mem = map_size → Forall is_u8 mem →
  classify_counts map_size mem = bucket <$> mem.
Proof.
  intros Hm Hz Hmem. apply classify_words_bytes; [done|].
  apply (words_of_map map_size mem 3); [lia|done..].
Qed.

Lemma classify_counts_bytewise_witness :
  classify_counts 8 [0; 3; 9; 255; 0; 1; 40; 2] = [0; 4; 16; 128; 0; 1; 64; 2].
Proof.
  rewrite (classify_counts_bytewise 8 [0; 3; 9; 255; 0; 1; 40; 2]);
    [reflexivity|reflexivity|reflexivity|].
  repeat constructor; lia.
Defined.

(** ** New coverage, byte by byte *)

Lemma clear_bits_ldiff c v : is_u8 v → clear_bits c v = Z.ldiff v c.
Proof.
  intros Hv. unfold clear_bits, u8. apply Z.bits_inj'. intros i Hi.
  rewrite Z.land_spec, Z.ldiff_spec. destruct (decide (i < 8)).
  - by rewrite Z.mod_pow2_bits_low, Z.lnot_spec by lia.
  - by rewrite (testbit_high v 8 i) by (unfold is_u8 in Hv; lia).
Qed.

Lemma clear_bits_u8 c v : is_u8 v → is_u8 (clear_bits c v).
Proof.
  intros Hv. unfold clear_bits. apply is_u8_land_l; [done|].
  pose proof (u8_range (Z.lnot c)) as [? _]. done.
Qed.

Lemma clear_bits_disjoint c v : is_u8 v → Z.land c v = 0 → clear_bits c v = v.
Proof.
  intros Hv H. rewrite clear_bits_ldiff by done. apply Z.bits_inj'. intros i Hi.
  rewrite Z.ldiff_spec. assert (Z.testbit (Z.land c v) i = false) as Hb
    by (rewrite H; apply Z.bits_0).
  rewrite Z.land_spec in Hb. by destruct (Z.testbit v i), (Z.testbit c i).
Qed.

Lemma land_clear_bits c v : is_u8 v → Z.land c (clear_bits c v) = 0.
Proof. intros Hv. rewrite clear_bits_ldiff by done. rewrite Z.land_comm. apply Z.land_ldiff. Qed.

Lemma land_255 c : is_u8 c → Z.land c 255 = c.
Proof.
  intros Hc. change 255 with (Z.ones 8). rewrite Z.land_ones by lia.
  apply Z.mod_small. done.
Qed.

Lemma byte_flag_range c v : 0 <= byte_flag c v <= 2.
Proof. unfold byte_flag. repeat case_match; lia. Qed.

Lemma max_flags_range cur vir :
  0 <= max_list (zip_with byte_flag cur vir) <= 2.
Proof.
  unfold max_list. revert vir. induction cur as [|c cur IH]; intros [|v vir]; cbn; try lia.
  specialize (IH vir). pose proof (byte_flag_range c v). lia.
Qed.

Lemma zip_land_u8 a b : Forall is_u8 a → Forall is_u8 b →
  Forall is_u8 (zip_with Z.land a b).
Proof.
  intros Ha Hb. apply Forall_zip_with_fst with (P := is_u8); [done|].
  eapply Forall_impl; [|exact Hb]. intros y [Hy _] x Hx. by apply is_u8_land_l.
Qed.

Lemma lnot_bytes_u8 bs : Forall is_u8 ((λ b, u8 (Z.lnot b)) <$> bs).
Proof. apply Forall_fmap, Forall_true. intros x. apply u8_range. Qed.

Lemma zip_with_land_0 cur vir : Forall is_u8 cur → Forall is_u8 vir →
  length cur = length vir →
  Z.land (le_load cur) (le_load vir) = 0 →
  zip_with clear_bits cur vir = vir ∧ max_list (zip_with byte_flag cur vir) = 0.
Proof.
  intros Hc Hv Hl H. rewrite le_load_land in H by done.
  apply le_load_0 in H; [|by apply zip_land_u8].
  revert vir Hv Hl H. induction Hc as [|c cur Hc Hcs IH]; intros [|v vir] Hv Hl H; try done.
  apply Forall_cons_iff in Hv as [Hv Hvs]. cbn [zip_with] in *.
  apply Forall_cons_iff in H as [H0 H]. injection Hl as Hl.
  destruct (IH vir Hvs Hl H) as [-> Hm].
  split; [by rewrite clear_bits_disjoint|].
  unfold max_list in *. cbn [foldr]. rewrite Hm. unfold byte_flag. rewrite H0.
  case_match; [done|]. case_match; [|done]. exfalso.
  apply Z.eqb_eq in H2 as ->. rewrite land_255 in H0 by done.
  by apply Z.eqb_neq in H1.
Qed.

Lemma new_tuple_flag cur vir : Forall is_u8 cur → length cur = length vir →
  new_tuple cur vir = true ↔ max_list (zip_with byte_flag cur vir) = 2.
Proof.
  unfold new_tuple, max_list. intros Hc. revert vir.
  induction Hc as [|c cur Hc Hcs IH]; intros [|v vir] Hl; try done.
  injection Hl as Hl. cbn. pose proof (max_flags_range cur vir) as Hr.
  unfold max_list in Hr. unfold byte_flag at 1.
  destruct (c =? 0) eqn:Hc0; cbn [negb andb orb].
  { rewrite IH by done. split; lia. }
  destruct (v =? 255) eqn:Hv; cbn [andb orb].
  { split; [intros _; lia|done]. }
  rewrite IH by done. case_match; split; lia.
Qed.

(** The two branches of the loop body, for one word. *)
Lemma new_bits_word cur vir ret :
  Forall is_u8 cur → Forall is_u8 vir → length cur = 8%nat → length vir = 8%nat →
  0 <= ret <= 2 →
  (if negb (le_load cur =? 0) && negb (Z.land (le_load cur) (le_load vir) =? 0) then
     (if ret <? 2 then (if new_tuple cur vir then 2 else 1) else ret,
      le_bytes 8 (Z.land (le_load vir) (u64 (Z.lnot (le_load cur)))))
   else (ret, vir)) =
  (Z.max ret (max_list (zip_with byte_flag cur vir)), zip_with clear_bits cur vir).
Proof.
  intros Hc Hv Hlc Hlv Hret.
  destruct (Z.eqb_spec (Z.land (le_load cur) (le_load vir)) 0) as [H0|H0].
  { rewrite andb_false_r. apply zip_with_land_0 in H0 as [-> ->]; [|done..|by rewrite Hlc].
    f_equal. lia. }
  destruct (Z.eqb_spec (le_load cur) 0) as [Hz|_].
  { rewrite Hz in H0. by rewrite Z.land_0_l in H0. }
  cbn [negb andb]. f_equal.
  - pose proof (max_flags_range cur vir) as Hr.
    destruct (new_tuple cur vir) eqn:Ht.
    + apply new_tuple_flag in Ht; [|done|by rewrite Hlc].
      case_match; lia.
    + assert (max_list (zip_with byte_flag cur vir) ≠ 2) as Hn2.
      { intros H2. apply new_tuple_flag in H2; [congruence|done|by rewrite Hlc]. }
      assert (max_list (zip_with byte_flag cur vir) ≠ 0) as Hn0.
      { intros H2. apply H0. rewrite le_load_land by (done || by rewrite Hlc).
        apply le_load_0; [by apply zip_land_u8|].
        clear -Hc Hlc Hlv H2. assert (length cur = length vir) as Hl by (by rewrite Hlc).
        clear Hlc Hlv. unfold max_list in H2. revert vir Hl H2.
        induction Hc as [|c cur Hc _ IH]; intros [|v vir] Hl H2; try done.
        cbn in *. injection Hl as Hl. pose proof (byte_flag_range c v).
        pose proof (max_flags_range cur vir) as Hr. unfold max_list in Hr.
        constructor; [|apply IH; [done|lia]].
        assert (byte_flag c v = 0) as Hf by lia. unfold byte_flag in Hf.
        destruct (Z.eqb_spec c 0) as [->|]; [done|].
        destruct (v =? 255); [done|]. by destruct (Z.eqb_spec (Z.land c v) 0). }
      case_match; lia.
  - change (u64 (Z.lnot (le_load cur))) with (Z.lnot (le_load cur) mod 2 ^ (8 * 8)).
    replace (8 * 8) with (8 * zlen cur) by (unfold zlen; lia).
    rewrite le_load_lnot by done.
    rewrite le_load_land by (auto using lnot_bytes_u8; by rewrite length_fmap, Hlc).
    replace 8 with (zlen (zip_with Z.land vir ((λ b, u8 (Z.lnot b)) <$> cur)))
      by (unfold zlen; rewrite length_zip_with, length_fmap; lia).
    rewrite le_bytes_load by auto using zip_land_u8, lnot_bytes_u8.
    rewrite zip_with_fmap_r, <-(zip_with_flip clear_bits cur vir). reflexivity.
Qed.

Lemma zip_with_chunk {A} (f : Z → Z → A) cur vir k :
  length (take k cur) = length (take k vir) →
  zip_with f cur vir =
  zip_with f (take k cur) (take k vir) ++ zip_with f (drop k cur) (drop k vir).
Proof. intros H. by rewrite <-zip_with_app, !take_drop. Qed.

Lemma new_bits_words_bytes n cur vir ret :
  Forall is_u8 cur → Forall is_u8 vir →
  length cur = (8 * n)%nat → length vir = (8 * n)%nat → 0 <= ret <= 2 →
  new_bits_words n cur vir ret =
  (Z.max ret (max_list (zip_with byte_flag cur vir)), zip_with clear_bits cur vir).
Proof.
  revert cur vir ret. induction n as [|n IH]; intros cur vir ret Hc Hv Hlc Hlv Hret.
  { destruct cur, vir; try (cbn in *; lia). cbn. f_equal. lia. }
  apply chunk_split in Hlc as [Hc1 Hc2]. apply chunk_split in Hlv as [Hv1 Hv2].
  cbn [new_bits_words]. cbv zeta.
  rewrite new_bits_word by auto using Forall_take, Forall_drop.
  pose proof (max_flags_range (take 8 cur) (take 8 vir)).
  rewrite IH by (auto using Forall_take, Forall_drop; lia).
  rewrite !(zip_with_chunk _ cur vir 8) by (by rewrite Hc1).
  unfold max_list. rewrite max_list_app.
  f_equal. lia.
Qed.

Lemma has_new_bits_bytes map_size cur vir :
  map_size mod 8 = 0 → zlen cur = map_size → zlen vir = map_size →
  Forall is_u8 cur → Forall is_u8 vir →
  has_new_bits map_size cur vir =
  (max_list (zip_with byte_flag cur vir), zip_with clear_bits cur vir).
Proof.
  intros Hm Hc Hv Hcu Hvu. unfold has_new_bits.
  rewrite new_bits_words_bytes; [|done|done| | |lia].
  - f_equal. pose proof (max_flags_range cur vir). lia.
  - apply (words_of_map map_size cur 3); [lia|done..].
  - apply (words_of_map map_size vir 3); [lia|done..].
Qed.

(** C2. [has_new_bits], which compares and updates eight bytes at a time, is
    the byte-by-byte comparison: it clears in every virgin byte the bits of
    the trace byte, and returns the largest flag of a byte, where a byte
    contributes 2 when it is hit and was never hit, 1 when it shows a class
    that is new, and 0 otherwise. *)
Theorem has_new_bits_bytewise map_size cur vir :
  map_size mod 8 = 0 → zlen cur = map_size → zlen vir = map_size →
  Forall is_u8 cur → Forall is_u8 vir →
  has_new_bits map_size cur vir =
  (max_list (zip_with byte_flag cur vir), zip_with clear_bits cur vir).
Proof. apply has_new_bits_bytes. Qed.

Lemma has_new_bits_bytewise_witness :
  has_new_bits 8 [0; 1; 2; 0; 0; 0; 8; 0] [255; 254; 255; 255; 255; 255; 7; 255]
  = (2, [255; 254; 253; 255; 255; 255; 7; 255]).
Proof.
  rewrite (has_new_bits_bytewise 8 [0; 1; 2; 0; 0; 0; 8; 0]
             [255; 254; 255; 255; 255; 255; 7; 255]);
    [reflexivity|reflexivity|reflexivity|reflexivity|repeat constructor; lia..].
Defined.

Lemma max_list_nonneg l : 0 <= max_list l.
Proof. unfold max_list. induction l; cbn; lia. Qed.

Lemma zip_clear_u8 cur vir : Forall is_u8 vir → Forall is_u8 (zip_with clear_bits cur vir).
Proof.
  intros Hv. apply Forall_zip_with_snd with (P := is_u8); [|done].
  apply Forall_true. intros x y. apply clear_bits_u8.
Qed.

Lemma flags_after_clear cur vir : Forall is_u8 cur → Forall is_u8 vir →
  max_list (zip_with byte_flag cur (zip_with clear_bits cur vir)) = 0.
Proof.
  unfold max_list. intros Hc. revert vir.
  induction Hc as [|c cur Hc Hcs IH]; intros [|v vir] Hv; try done.
  apply Forall_cons_iff in Hv as [Hv Hvs]. cbn. rewrite IH by done.
  unfold byte_flag. destruct (Z.eqb_spec c 0) as [->|Hc0]; [done|].
  rewrite land_clear_bits by done. cbn.
  destruct (Z.eqb_spec (clear_bits c v) 255) as [H|H]; [|done].
  pose proof (land_clear_bits c v Hv) as H0. rewrite H, land_255 in H0 by done. done.
Qed.

(** A trace is new at most once: comparing it a second time with the
    virgin map it has just updated reports nothing and leaves the map alone. *)
Theorem has_new_bits_once map_size cur vir flag vir' :
  map_size mod 8 = 0 → zlen cur = map_size → zlen vir = map_size →
  Forall is_u8 cur → Forall is_u8 vir →
  has_new_bits map_size cur vir = (flag, vir') →
  has_new_bits map_size cur vir' = (0, vir').
Proof.
  intros Hm Hc Hv Hcu Hvu H. rewrite has_new_bits_bytes in H by done.
  injection H as <- <-. rewrite has_new_bits_bytes; [| |done| |done|].
  - rewrite flags_after_clear by done. f_equal.
    apply list_eq. intros i. rewrite !lookup_zip_with.
    destruct (cur !! i) as [c|]; [|done]. cbn.
    destruct (vir !! i) as [v|] eqn:Hi; [|done]. cbn. f_equal.
    apply clear_bits_disjoint; [apply clear_bits_u8|apply land_clear_bits];
      by eapply Forall_lookup_1.
  - done.
  - unfold zlen in *. rewrite length_zip_with. lia.
  - by apply zip_clear_u8.
Qed.

Lemma has_new_bits_once_witness :
  has_new_bits 8 [1; 0; 0; 0; 0; 0; 0; 4] [254; 255; 255; 255; 255; 255; 255; 251]
  = (0, [254; 255; 255; 255; 255; 255; 255; 251]).
Proof.
  apply (has_new_bits_once 8 [1; 0; 0; 0; 0; 0; 0; 4] (replicate 8 255) 2
           [254; 255; 255; 255; 255; 255; 255; 251]);
    [reflexivity|reflexivity|reflexivity|repeat constructor; lia..|reflexivity].
Defined.

(** ** Coverage counts *)

(** The number of virgin-map bytes that are not 255 any more. *)
Definition covered (vir : list Z) : Z := zlen (filter (λ b, b ≠ 255) vir).

Lemma covered_cons b vir :
  covered (b :: vir) = covered vir + (if decide (b = 255) then 0 else 1).
Proof.
  unfold covered, zlen. rewrite filter_cons. repeat case_decide; cbn [length]; try done; lia.
Qed.

Lemma covered_range vir : 0 <= covered vir <= zlen vir.
Proof.
  unfold covered, zlen. split; [lia|].
  pose proof (length_filter (λ b, b ≠ 255) vir). lia.
Qed.

Lemma ShowCoverage_from vir c : 0 <= c → c + zlen vir < 2 ^ 32 →
  foldl (λ cov_count b, if decide (b = 255) then cov_count else u32 (cov_count + 1)) c vir
  = c + covered vir.
Proof.
  revert c. induction vir as [|b vir IH]; intros c Hc Hl.
  { unfold covered, zlen. cbn. lia. }
  cbn [foldl]. rewrite covered_cons.
  pose proof (zlen_nonneg vir). assert (zlen (b :: vir) = 1 + zlen vir) as Hz
    by (unfold zlen; cbn [length]; lia).
  rewrite Hz in Hl. case_decide.
  - rewrite IH by lia. lia.
  - rewrite u32_id by (unfold is_u32; lia). rewrite IH by lia. lia.
Qed.

Lemma ShowCoverage_covered vir : zlen vir < 2 ^ 32 → ShowCoverage vir = covered vir.
Proof. intros H. unfold ShowCoverage. rewrite ShowCoverage_from; lia. Qed.

Lemma clear_bits_255 c v : is_u8 c → is_u8 v →
  clear_bits c v = 255 ↔ v = 255 ∧ c = 0.
Proof.
  intros Hc Hv. split.
  - intros H. pose proof (land_clear_bits c v Hv) as H0. rewrite H, land_255 in H0 by done.
    subst c. split; [|done]. rewrite clear_bits_disjoint in H; [done|done|apply Z.land_0_l].
  - intros [-> ->]. reflexivity.
Qed.

Lemma covered_clear cur vir : Forall is_u8 cur → Forall is_u8 vir →
  length cur = length vir →
  covered vir <= covered (zip_with clear_bits cur vir) ∧
  (covered vir < covered (zip_with clear_bits cur vir) ↔
   max_list (zip_with byte_flag cur vir) = 2).
Proof.
  unfold max_list. intros Hc. revert vir.
  induction Hc as [|c cur Hc Hcs IH]; intros [|v vir] Hv Hl; try done.
  apply Forall_cons_iff in Hv as [Hv Hvs]. injection Hl as Hl.
  destruct (IH vir Hvs Hl) as [IH1 IH2]. cbn [zip_with foldr].
  rewrite !covered_cons. pose proof (max_flags_range cur vir) as Hr. unfold max_list in Hr.
  pose proof (clear_bits_255 c v Hc Hv) as Hcb. unfold byte_flag at 1.
  repeat case_decide; destruct (Z.eqb_spec c 0); destruct (Z.eqb_spec v 255);
    try (exfalso; tauto); try (case_match); lia.
Qed.

(** C6. The coverage count that the fuzzer plots never decreases when a run is
    accounted for, and it increases exactly when [has_new_bits] returns 2, the
    value that names a queue entry [+cov]. *)
Theorem coverage_grows_iff_new map_size cur vir flag vir' :
  map_size mod 8 = 0 → map_size < 2 ^ 32 →
  zlen cur = map_size → zlen vir = map_size →
  Forall is_u8 cur → Forall is_u8 vir →
  has_new_bits map_size cur vir = (flag, vir') →
  ShowCoverage vir <= ShowCoverage vir' ∧
  (ShowCoverage vir < ShowCoverage vir' ↔ flag = 2).
Proof.
  intros Hm Hs Hc Hv Hcu Hvu H. rewrite has_new_bits_bytes in H by done.
  injection H as <- <-. assert (length cur = length vir) by (unfold zlen in *; lia).
  assert (zlen (zip_with clear_bits cur vir) = map_size) as Hz
    by (unfold zlen in *; rewrite length_zip_with; lia).
  rewrite !ShowCoverage_covered by lia. by apply covered_clear.
Qed.

Lemma coverage_grows_iff_new_witness :
  ShowCoverage (replicate 8 255) <= ShowCoverage [254; 255; 255; 255; 255; 255; 255; 255] ∧
  (ShowCoverage (replicate 8 255) < ShowCoverage [254; 255; 255; 255; 255; 255; 255; 255]
   ↔ 2 = 2).
Proof.
  apply (coverage_grows_iff_new 8 [1; 0; 0; 0; 0; 0; 0; 0] (replicate 8 255));
    [reflexivity|reflexivity|reflexivity|reflexivity|repeat constructor; lia..|reflexivity].
Defined.

(** ** Counting the bytes of a map *)

Definition hits (mem : list Z) : Z := zlen (filter (λ b, b ≠ 0) mem).

Lemma hits_app a b : hits (a ++ b) = hits a + hits b.
Proof. unfold hits. by rewrite list.filter_app, zlen_app. Qed.

Lemma hits_cons b l : hits (b :: l) = hits l + (if decide (b = 0) then 0 else 1).
Proof. unfold hits, zlen. rewrite filter_cons. repeat case_decide; cbn [length]; try done; lia. Qed.

Lemma hits_range l : 0 <= hits l <= zlen l.
Proof.
  unfold hits, zlen. split; [lia|]. pose proof (length_filter (λ b, b ≠ 0) l). lia.
Qed.

(** The mask [FF(k)] selects byte [k] of a 32-bit word. *)
Lemma FF_selects w k : Forall is_u8 w → length w = 4%nat → (k < 4)%nat →
  Z.land (le_load w) (FF (Z.of_nat k)) = 0 ↔ w !! k = Some 0.
Proof.
  intros Hw Hl Hk.
  assert (FF (Z.of_nat k) = le_load (<[k:=255]> [0; 0; 0; 0])) as ->
    by (do 4 (destruct k; [reflexivity|]); lia).
  assert (Forall is_u8 (<[k:=255]> [0; 0; 0; 0])) as Hm
    by (do 4 (destruct k; [repeat constructor; lia|]); lia).
  rewrite le_load_land by (done || by rewrite length_insert).
  rewrite le_load_0 by (by apply zip_land_u8).
  do 4 (destruct w as [|? w]; [discriminate Hl|]). destruct w; [|discriminate Hl].
  repeat match goal with H : Forall _ (_ :: _) |- _ =>
    apply Forall_cons_iff in H as [? H] end.
  do 4 (destruct k as [|k]; [cbn; rewrite !Forall_cons_iff, !Z.land_0_r, land_255 by done;
    split; [by intros (?&?&?&?&_); f_equal|intros [= ->]; repeat split; done]|]).
  lia.
Qed.

Lemma count_byte_spec w k b ret : Forall is_u8 w → length w = 4%nat →
  w !! k = Some b → 0 <= ret → ret + 1 < 2 ^ 32 →
  count_byte (le_load w) (Z.of_nat k) ret = ret + (if decide (b = 0) then 0 else 1).
Proof.
  intros Hw Hl Hb H0 Hr. unfold count_byte.
  assert (k < 4)%nat as Hk by (apply lookup_lt_Some in Hb; lia).
  pose proof (FF_selects w k Hw Hl Hk) as HF. rewrite Hb in HF.
  assert (Z.land (le_load w) (FF (Z.of_nat k)) = 0 ↔ b = 0) as HF'
    by (split; [intros ?%HF; congruence|intros ->; by apply HF]).
  repeat case_decide; try lia.
  by rewrite u32_id by (unfold is_u32; lia).
Qed.

Lemma count_words_hits n mem ret : Forall is_u8 mem → length mem = (4 * n)%nat →
  0 <= ret → ret + zlen mem < 2 ^ 32 → count_words n mem ret = ret + hits mem.
Proof.
  revert mem ret. induction n as [|n IH]; intros mem ret Hm Hl H0 Hr.
  { destruct mem; [|cbn in Hl; lia]. cbn. change (hits []) with 0. lia. }
  pose proof Hl as Hl'. apply chunk_split in Hl' as [Ht Hd]. cbn [count_words]. cbv zeta.
  rewrite <-(take_drop 4 mem) at 3. rewrite hits_app.
  rewrite <-(take_drop 4 mem), zlen_app in Hr.
  apply (Forall_take _ 4) in Hm as Hw. apply (Forall_drop _ 4) in Hm as Hm'.
  remember (take 4 mem) as w eqn:Ew. clear Ew. remember (drop 4 mem) as rest eqn:Er. clear Er.
  pose proof (hits_range w). pose proof (zlen_nonneg rest).
  case_decide as Hz.
  { apply le_load_0 in Hz; [|done]. rewrite IH by (try done; unfold zlen in *; lia).
    assert (hits w = 0) as ->; [|lia]. clear -Hz.
    induction Hz as [|b w -> _ IHw]; [done|]. by rewrite hits_cons, IHw. }
  do 4 (destruct w as [|? w]; [discriminate Ht|]). destruct w; [|discriminate Ht].
  rewrite !hits_cons. change (hits []) with 0.
  pose proof (λ k b r, count_byte_spec _ k b r Hw Ht) as HC.
  change (count_byte ?v 0) with (count_byte v (Z.of_nat 0)).
  assert (zlen [z; z0; z1; z2] = 4) as H4 by done. rewrite H4 in Hr.
  rewrite (HC 0%nat z ret) by (done || lia).
  rewrite (HC 1%nat z0) by (done || (case_decide; lia)).
  rewrite (HC 2%nat z1) by (done || (repeat case_decide; lia)).
  rewrite (HC 3%nat z2) by (done || (repeat case_decide; lia)).
  rewrite IH; [|done|lia|repeat case_decide; lia|repeat case_decide; lia].
  lia.
Qed.

(** [CountBytes], which reads a map as 32-bit words and tests four masks,
    counts the bytes of the map that are not zero. *)
Theorem CountBytes_hits map_size mem :
  map_size mod 4 = 0 → map_size < 2 ^ 32 → zlen mem = map_size → Forall is_u8 mem →
  CountBytes map_size mem = zlen (filter (λ b, b ≠ 0) mem).
Proof.
  intros Hm Hs Hz Hmem. unfold CountBytes. rewrite count_words_hits; [done|done| |lia|lia].
  apply (words_of_map map_size mem 2); [lia|done..].
Qed.

Lemma CountBytes_hits_witness : CountBytes 8 [0; 3; 0; 255; 128; 1; 0; 2] = 5.
Proof.
  rewrite (CountBytes_hits 8 [0; 3; 0; 255; 128; 1; 0; 2]);
    [reflexivity|reflexivity|reflexivity|reflexivity|].
  repeat constructor; lia.
Defined.

(** ** Maps shared between fuzzers *)

Lemma sync_coverage_bytes local global :
  sync_coverage local global =
  (zip_with Z.land global local, zip_with Z.land global local).
Proof. reflexivity. Qed.

Lemma covered_land a b : Forall is_u8 a → Forall is_u8 b → length a = length b →
  covered a <= covered (zip_with Z.land a b) ∧
  covered b <= covered (zip_with Z.land a b).
Proof.
  intros Ha. revert b. induction Ha as [|x a Hx Has IH]; intros [|y b] Hb Hl; try done.
  apply Forall_cons_iff in Hb as [Hy Hb]. injection Hl as Hl.
  destruct (IH b Hb Hl). cbn [zip_with]. rewrite !covered_cons.
  assert (Z.land x y = 255 → x = 255 ∧ y = 255) as H255.
  { intros H'. assert (Z.land (Z.land x y) 255 = 255) by (by rewrite H').
    split; apply Z.bits_inj'; intros i Hi; destruct (decide (i < 8)).
    1,3: change 255 with (Z.ones 8) in H'; assert (Z.testbit (Z.land x y) i = true) as Hb'
      by (rewrite H'; apply Z.ones_spec_low; lia);
      rewrite Z.land_spec in Hb'; apply andb_true_iff in Hb' as [? ?];
      change 255 with (Z.ones 8); by rewrite Z.ones_spec_low by lia.
    all: rewrite (testbit_high _ 8 i) by (unfold is_u8 in *; lia);
      by rewrite (testbit_high 255 8 i) by lia. }
  repeat case_decide; lia.
Qed.

(** Synchronising with the map shared between fuzzers leaves the local and
    the shared map equal, loses nothing that either of them has covered, and
    the shared map does not depend on the order in which two fuzzers
    synchronise. *)
Theorem sync_coverage_merges a b global a' global' :
  Forall is_u8 a → Forall is_u8 global → length a = length global →
  sync_coverage a global = (a', global') →
  a' = global' ∧
  covered a <= covered global' ∧ covered global <= covered global' ∧
  sync_coverage a' global' = (a', global') ∧
  (sync_coverage b global').2 = (sync_coverage a (sync_coverage b global).2).2.
Proof.
  intros Ha Hg Hl H. rewrite sync_coverage_bytes in H. injection H as <- <-.
  destruct (covered_land global a) as [? ?]; [done..|].
  split; [done|]. split; [done|]. split; [done|]. rewrite !sync_coverage_bytes. cbn [snd].
  split.
  - f_equal; apply list_eq; intros i; rewrite !lookup_zip_with;
      destruct (global !! i), (a !! i); cbn; f_equal; apply Z.land_diag.
  - apply list_eq. intros i. rewrite !lookup_zip_with.
    destruct (global !! i), (a !! i), (b !! i); cbn; f_equal.
    rewrite <-!Z.land_assoc. f_equal. apply Z.land_comm.
Qed.

Lemma sync_coverage_merges_witness :
  [252; 255] = [252; 255] ∧ covered [254; 255] <= covered [252; 255] ∧
  covered [253; 255] <= covered [252; 255] ∧
  sync_coverage [252; 255] [252; 255] = ([252; 255], [252; 255]) ∧
  (sync_coverage [255; 127] [252; 255]).2 =
  (sync_coverage [254; 255] (sync_coverage [255; 127] [253; 255]).2).2.
Proof.
  apply (sync_coverage_merges [254; 255] [255; 127] [253; 255] [252; 255] [252; 255]);
    [repeat constructor; lia|repeat constructor; lia|reflexivity|reflexivity].
Defined.
