(* ===== verification/Queue.v ===== *)
(** * The seed queue

    [fuzz/fuzzer/old/Fuzzer.h] ([seed]), [TestcasesProcess.cpp] ([AddToQueue])
    and [QueueCulling.cpp] ([UpdateQueueTop], [CullQueue]).

    The queue is a [std::list] that only grows at its end, so an iterator is
    the position of its seed and [queue.end()] is [None].  [queueTop] holds, for
    each slot of the trace map, the seed with the lowest score that hits it.
    The concurrent half of the queue is compiled out ([NO_CONCURRENCY_FUZZ]);
    what is left of it, the reset of [concurrent_trace_record], reads and writes
    nothing else. *)

From S2P Require Import Prelude.
From S2P Require Import TraceMap.

(** [hasHang] and [hasCrash] are set by no constructor and by no code: they
    are indeterminate, [None]. *)
Record seed := Seed {
  wasFuzzed : bool;
  favored : bool;
  elistFileName : string;
  control_matrix_file : string;
  fileName : string;
  fileLen : Z;
  execTime : Z;
  trace : option (list bool);
  topCount : Z;
  concurrent_trace : option (list bool);
  concurrent_top_count : Z;
  cksum : Z;
  hasHang : option bool;
  hasCrash : option bool;
  trimDone : bool;
}.

(** [AddToQueue]'s local [seed s] with its three names and its length set. *)
Definition new_seed (fname : string) (fsize : Z) (elist_fname cm_file : option string) : seed :=
  Seed false false (default EmptyString elist_fname) (default EmptyString cm_file)
    fname fsize 0 None 0 None 0 0 None None false.

Definition set_wasFuzzed (b : bool) (e : seed) : seed :=
  Seed b e.(favored) e.(elistFileName) e.(control_matrix_file) e.(fileName)
    e.(fileLen) e.(execTime) e.(trace) e.(topCount) e.(concurrent_trace)
    e.(concurrent_top_count) e.(cksum) e.(hasHang) e.(hasCrash) e.(trimDone).
Definition set_favored (b : bool) (e : seed) : seed :=
  Seed e.(wasFuzzed) b e.(elistFileName) e.(control_matrix_file) e.(fileName)
    e.(fileLen) e.(execTime) e.(trace) e.(topCount) e.(concurrent_trace)
    e.(concurrent_top_count) e.(cksum) e.(hasHang) e.(hasCrash) e.(trimDone).
Definition set_fileLen (n : Z) (e : seed) : seed :=
  Seed e.(wasFuzzed) e.(favored) e.(elistFileName) e.(control_matrix_file) e.(fileName)
    n e.(execTime) e.(trace) e.(topCount) e.(concurrent_trace)
    e.(concurrent_top_count) e.(cksum) e.(hasHang) e.(hasCrash) e.(trimDone).
Definition set_execTime (n : Z) (e : seed) : seed :=
  Seed e.(wasFuzzed) e.(favored) e.(elistFileName) e.(control_matrix_file) e.(fileName)
    e.(fileLen) n e.(trace) e.(topCount) e.(concurrent_trace)
    e.(concurrent_top_count) e.(cksum) e.(hasHang) e.(hasCrash) e.(trimDone).
Definition set_trace (t : option (list bool)) (e : seed) : seed :=
  Seed e.(wasFuzzed) e.(favored) e.(elistFileName) e.(control_matrix_file) e.(fileName)
    e.(fileLen) e.(execTime) t e.(topCount) e.(concurrent_trace)
    e.(concurrent_top_count) e.(cksum) e.(hasHang) e.(hasCrash) e.(trimDone).
Definition set_topCount (n : Z) (e : seed) : seed :=
  Seed e.(wasFuzzed) e.(favored) e.(elistFileName) e.(control_matrix_file) e.(fileName)
    e.(fileLen) e.(execTime) e.(trace) n e.(concurrent_trace)
    e.(concurrent_top_count) e.(cksum) e.(hasHang) e.(hasCrash) e.(trimDone).
Definition set_cksum (n : Z) (e : seed) : seed :=
  Seed e.(wasFuzzed) e.(favored) e.(elistFileName) e.(control_matrix_file) e.(fileName)
    e.(fileLen) e.(execTime) e.(trace) e.(topCount) e.(concurrent_trace)
    e.(concurrent_top_count) n e.(hasHang) e.(hasCrash) e.(trimDone).

(** The globals of the queue. *)
Record qstate := QState {
  queue : list seed;
  queueTop : list (option nat);
  pendFavor : bool;
  scoreChange : bool;
  traceRecord : list bool;
}.

Definition set_queue (l : list seed) (q : qstate) : qstate :=
  QState l q.(queueTop) q.(pendFavor) q.(scoreChange) q.(traceRecord).
Definition set_queueTop (l : list (option nat)) (q : qstate) : qstate :=
  QState q.(queue) l q.(pendFavor) q.(scoreChange) q.(traceRecord).
Definition set_pendFavor (b : bool) (q : qstate) : qstate :=
  QState q.(queue) q.(queueTop) b q.(scoreChange) q.(traceRecord).
Definition set_scoreChange (b : bool) (q : qstate) : qstate :=
  QState q.(queue) q.(queueTop) q.(pendFavor) b q.(traceRecord).
Definition set_traceRecord (l : list bool) (q : qstate) : qstate :=
  QState q.(queue) q.(queueTop) q.(pendFavor) q.(scoreChange) l.

Definition AddToQueue (fname : string) (fsize : Z) (elist_fname cm_file : option string)
    : proc qstate unit :=
  modify (λ q, set_queue (q.(queue) ++ [new_seed fname fsize elist_fname cm_file]) q).

(** [it->field] and [it->field = ...]: dereferencing [queue.end()] or an
    iterator of no element is undefined. *)
Definition seed_at (t : nat) : proc qstate seed := from_option (λ q, q.(queue) !! t).
Definition upd_seed (t : nat) (f : seed → seed) : proc qstate unit :=
  update (λ q, e ← q.(queue) !! t; Some (set_queue (<[t := f e]> q.(queue)) q)).

(** The score that [UpdateQueueTop] compares: lower is better. *)
Definition score_of (e : seed) : Z := u64 (e.(execTime) * e.(fileLen)).

(** Lines 39-43: one slot less for the seed [t]; its trace goes with its last
    slot. *)
Definition release (t : nat) : proc qstate unit :=
  upd_seed t (λ e, set_topCount (u32 (e.(topCount) - 1)) e) ;;
  e ← seed_at t;
  if decide (e.(topCount) = 0) then upd_seed t (set_trace None) else mret tt.

(** Lines 46-55: the slot [i] goes to the seed [s]. *)
Definition claim (s : nat) (globalTraceBit : list Z) (i : Z) : proc qstate unit :=
  modify (λ q, set_queueTop (<[Z.to_nat i := Some s]> q.(queueTop)) q) ;;
  upd_seed s (λ e, set_topCount (u32 (e.(topCount) + 1)) e) ;;
  e ← seed_at s;
  (if decide (e.(trace) = None)
   then upd_seed s (set_trace (Some (MinimizeBit globalTraceBit)))
   else mret tt) ;;
  modify (set_scoreChange true).

(** The body of the loop of [UpdateQueueTop]. *)
Definition UpdateQueueTop_slot (s : nat) (score : Z) (globalTraceBit : list Z) (i : Z)
    : proc qstate unit :=
  if decide (nthZ globalTraceBit i = 0) then mret tt else
  top ← from_option (λ q, q.(queueTop) !! Z.to_nat i);
  match top with
  | Some t =>
      e ← seed_at t;
      if decide (score > score_of e) then mret tt
      else release t ;; claim s globalTraceBit i
  | None => claim s globalTraceBit i
  end.

Definition UpdateQueueTop (map_size : Z) (s : nat) (globalTraceBit : list Z)
    : proc qstate unit :=
  e ← seed_at s;
  let score := score_of e in
  for_range 0 map_size 1 (UpdateQueueTop_slot s score globalTraceBit).

(** [traceRecord |= *trace] *)
Definition bits_or (a b : list bool) : list bool := zip_with orb a b.

(** The body of the second loop of [CullQueue]. *)
Definition CullQueue_slot (i : Z) : proc qstate unit :=
  top ← from_option (λ q, q.(queueTop) !! Z.to_nat i);
  seen ← from_option (λ q, q.(traceRecord) !! Z.to_nat i);
  match top with
  | Some t =>
      if seen : bool then mret tt else
      e ← seed_at t;
      match e.(trace) with
      | Some tr => modify (λ q, set_traceRecord (bits_or q.(traceRecord) tr) q)
      | None => mret tt
      end ;;
      upd_seed t (set_favored true) ;;
      e ← seed_at t;
      when (negb e.(wasFuzzed)) (modify (set_pendFavor true))
  | None => mret tt
  end.

Definition CullQueue (map_size : Z) : proc qstate unit :=
  change ← gets scoreChange;
  if change : bool then
    modify (set_scoreChange false) ;;
    modify (set_pendFavor false) ;;
    modify (set_traceRecord (replicate (Z.to_nat map_size) false)) ;;
    modify (λ q, set_queue (set_favored false <$> q.(queue)) q) ;;
    for_range 0 map_size 1 CullQueue_slot
  else return_ 0.

(** ** The invariant of the queue *)

(** How many slots a seed holds. *)
Definition tops (s : nat) (l : list (option nat)) : Z := zlen (filter (λ o, o = Some s) l).

(** Every slot holds a seed of the queue, [topCount] counts the slots of a
    seed, and exactly the seeds that hold a slot own a trace of the width of the
    map. *)
Record queue_inv (map_size : Z) (q : qstate) : Prop := QueueInv {
  qi_len : zlen q.(queueTop) = map_size;
  qi_valid : ∀ i t, q.(queueTop) !! i = Some (Some t) → is_Some (q.(queue) !! t);
  qi_count : ∀ t e, q.(queue) !! t = Some e → e.(topCount) = tops t q.(queueTop);
  qi_trace : ∀ t e, q.(queue) !! t = Some e → e.(trace) = None ↔ e.(topCount) = 0;
  qi_width : ∀ t e tr, q.(queue) !! t = Some e → e.(trace) = Some tr → zlen tr = map_size;
}.

(** What [UpdateQueueTop] leaves alone in every seed. *)
Definition core (e : seed) : seed := set_topCount 0 (set_trace None e).

(** [UpdateQueueTop] as a function of the slots: a slot that the trace hits
    goes to [s] unless its present seed has a strictly lower score. *)
Definition score_at (q : qstate) (t : nat) : Z := default 0 (score_of <$> q.(queue) !! t).
Definition better (q : qstate) (s : nat) (o : option nat) : bool :=
  match o with None => true | Some t => bool_decide (score_at q s <= score_at q t) end.
Definition slot_after (q : qstate) (s : nat) (globalTraceBit : list Z)
    (j : nat) (o : option nat) : option nat :=
  if negb (nthZ globalTraceBit (Z.of_nat j) =? 0) && better q s o then Some s else o.
Definition top_after (q : qstate) (s : nat) (globalTraceBit : list Z) : list (option nat) :=
  imap (slot_after q s globalTraceBit) q.(queueTop).

Lemma tops_insert s l i x y : l !! i = Some x →
  tops s (<[i := y]> l) =
  tops s l - (if decide (x = Some s) then 1 else 0) + (if decide (y = Some s) then 1 else 0).
Proof.
  intros Hi. assert (l = take i l ++ x :: drop (S i) l) as Hl by (by rewrite take_drop_middle).
  rewrite insert_take_drop by (by eapply lookup_lt_Some).
  remember (take i l) as l1 eqn:E1. remember (drop (S i) l) as l2 eqn:E2. clear E1 E2. subst l.
  unfold tops. rewrite !list.filter_app, !zlen_app, !filter_cons. unfold zlen.
  repeat case_decide; cbn [length]; lia.
Qed.

Lemma tops_range s l : 0 <= tops s l <= zlen l.
Proof. unfold tops, zlen. pose proof (length_filter (λ o, o = Some s) l). lia. Qed.

Lemma tops_pos s l i : l !! i = Some (Some s) → 0 < tops s l.
Proof.
  intros Hi. unfold tops, zlen.
  assert (Some s ∈ filter (λ o, o = Some s) l) as Hin
    by (apply list_elem_of_filter; split; [done|by eapply list_elem_of_lookup_2]).
  destruct (filter _ l); [by apply not_elem_of_nil in Hin|cbn; lia].
Qed.

Lemma tops_exists s l : 0 < tops s l → ∃ i, l !! i = Some (Some s).
Proof.
  unfold tops, zlen. destruct (filter _ l) as [|o f] eqn:Hf; cbn [length]; [lia|].
  intros _. assert (o ∈ filter (λ o, o = Some s) l) as Hin by (rewrite Hf; left).
  apply list_elem_of_filter in Hin as [-> Hin]. by apply list_elem_of_lookup_1 in Hin.
Qed.

Lemma wp_seed_at t e Q R E q : q.(queue) !! t = Some e → Q e q → wp (seed_at t) Q R E q.
Proof. intros. by eapply wp_from_option. Qed.

Lemma wp_upd_seed t f e (Q : unit → qstate → Prop) R E q : q.(queue) !! t = Some e →
  Q tt (set_queue (<[t := f e]> q.(queue)) q) → wp (upd_seed t f) Q R E q.
Proof. intros He HQ. eapply wp_update; [|exact HQ]. cbn. by rewrite He. Qed.

(** A new value of the seed [t] that only differs in [topCount] and [trace]. *)
Lemma core_insert (l : list seed) t e e' : l !! t = Some e → core e' = core e →
  core <$> <[t := e']> l = core <$> l.
Proof.
  intros He Hc. rewrite list_fmap_insert, Hc. apply list_insert_id.
  by rewrite list_lookup_fmap, He.
Qed.

Lemma core_lookup (l l' : list seed) t e : core <$> l = core <$> l' → l !! t = Some e →
  ∃ e', l' !! t = Some e' ∧ core e' = core e.
Proof.
  intros Hc He. apply (f_equal (λ k, k !! t)) in Hc.
  rewrite !list_lookup_fmap, He in Hc. destruct (l' !! t) as [e'|]; [|done].
  exists e'. split; [done|]. by apply (inj Some) in Hc.
Qed.

Lemma score_of_core e : score_of (core e) = score_of e.
Proof. by destruct e. Qed.

Lemma score_at_core q q' t : core <$> q.(queue) = core <$> q'.(queue) →
  score_at q t = score_at q' t.
Proof.
  intros Hc. unfold score_at. apply (f_equal (λ k, k !! t)) in Hc.
  rewrite !list_lookup_fmap in Hc. destruct (q.(queue) !! t), (q'.(queue) !! t); try done.
  apply (inj Some) in Hc. cbn. by rewrite <-score_of_core, Hc, score_of_core.
Qed.

(** ** [UpdateQueueTop] *)

(** The seed [t] with one slot less, in the queue in which the slot [i] is
    free. *)
Lemma queue_inv_free map_size q i t e e' : queue_inv map_size q →
  q.(queueTop) !! i = Some (Some t) → q.(queue) !! t = Some e →
  e'.(topCount) = e.(topCount) - 1 → (e'.(trace) = None ↔ e'.(topCount) = 0) →
  (∀ tr, e'.(trace) = Some tr → zlen tr = map_size) →
  queue_inv map_size
    (set_queueTop (<[i := None]> q.(queueTop)) (set_queue (<[t := e']> q.(queue)) q)).
Proof.
  intros [Hlen Hvalid Hcount Htrace Hwidth] Hi He Ht' Htr Hw.
  split; cbn [queueTop queue set_queueTop set_queue].
  - unfold zlen. by rewrite length_insert.
  - intros j u. rewrite list_lookup_insert_Some. intros [(?&?&?)|[_ Hj]]; [done|].
    apply Hvalid in Hj as [eu Hu']. apply lookup_lt_Some in Hu'.
    apply lookup_lt_is_Some_2. by rewrite length_insert.
  - intros u eu. rewrite (tops_insert u _ i (Some t)) by done.
    rewrite list_lookup_insert_Some. intros [(<-&<-&?)|[Hne Hu']].
    + rewrite decide_True, decide_False by done. rewrite Ht', (Hcount t e He). lia.
    + rewrite decide_False, decide_False by congruence. rewrite (Hcount u eu Hu'). lia.
  - intros u eu. rewrite list_lookup_insert_Some. intros [(<-&<-&?)|[Hne Hu']]; [done|eauto].
  - intros u eu tr. rewrite list_lookup_insert_Some. intros [(<-&<-&?)|[Hne Hu']]; eauto.
Qed.

(** Giving up the slot [i] keeps the invariant of the queue in which the slot
    is free. *)
Lemma wp_release map_size q i t : queue_inv map_size q → map_size < 2 ^ 32 →
  q.(queueTop) !! i = Some (Some t) →
  ∀ R E, wp (release t) (λ _ q',
    queue_inv map_size (set_queueTop (<[i := None]> q'.(queueTop)) q') ∧
    q' = set_queue q'.(queue) q ∧ core <$> q'.(queue) = core <$> q.(queue)) R E q.
Proof.
  intros Hq Hms Hi R E. destruct (qi_valid _ _ Hq i t Hi) as [e He].
  pose proof (tops_pos t _ i Hi) as Hpos. pose proof (tops_range t q.(queueTop)) as Hr.
  pose proof (qi_count _ _ Hq t e He) as Hcount. pose proof (qi_len _ _ Hq) as Hlen.
  assert (u32 (topCount e - 1) = topCount e - 1) as Hu by (apply u32_id; unfold is_u32; lia).
  assert (t < length q.(queue))%nat as Hlt by (by eapply lookup_lt_Some).
  unfold release. wp_steps. eapply wp_upd_seed; [done|].
  wp_steps. eapply wp_seed_at; [by apply list_lookup_insert_eq|]. cbn [topCount set_topCount].
  wp_steps.
  - eapply wp_upd_seed; [by apply list_lookup_insert_eq|]. cbn [queue set_queue].
    rewrite list_insert_insert_eq.
    split; [|split; [done|by eapply core_insert]]. by apply (queue_inv_free map_size q i t e).
  - split; [|split; [done|by eapply core_insert]].
    apply (queue_inv_free map_size q i t e); try done.
    + cbn [trace set_topCount topCount]. rewrite (qi_trace _ _ Hq t e He). lia.
    + intros tr. cbn [trace set_topCount]. by apply (qi_width _ _ Hq t).
Qed.

(** The seed [s] with one slot more, the slot [i] that was free. *)
Lemma queue_inv_take map_size q i s e e' :
  queue_inv map_size (set_queueTop (<[i := None]> q.(queueTop)) q) →
  (i < length q.(queueTop))%nat → q.(queue) !! s = Some e →
  e'.(topCount) = e.(topCount) + 1 →
  (∃ tr, e'.(trace) = Some tr ∧ zlen tr = map_size) →
  queue_inv map_size
    (QState (<[s := e']> q.(queue)) (<[i := Some s]> q.(queueTop)) q.(pendFavor) true
       q.(traceRecord)).
Proof.
  intros [Hlen Hvalid Hcount Htrace Hwidth] Hi He Ht' [t' [Htr' Hw']].
  cbn [queue queueTop set_queueTop] in *. unfold zlen in Hlen. rewrite length_insert in Hlen.
  pose proof (tops_range s (<[i := None]> q.(queueTop))) as Hr.
  assert (is_Some (q.(queueTop) !! i)) as [o Ho] by (by apply lookup_lt_is_Some_2).
  assert (s < length q.(queue))%nat as Hs by (by eapply lookup_lt_Some).
  split; cbn [queueTop queue].
  - unfold zlen. by rewrite length_insert.
  - intros j u. rewrite list_lookup_insert_Some. intros [(?&[= ->]&?)|[Hne Hj]];
      apply lookup_lt_is_Some_2; rewrite length_insert; [done|].
    apply lookup_lt_is_Some_1, (Hvalid j). by rewrite list_lookup_insert_ne.
  - intros u eu Hu'. rewrite (tops_insert u _ _ o) by done.
    pose proof (tops_insert u _ _ _ None Ho) as H0.
    rewrite (decide_False (P := None = _)) in H0 by done.
    apply list_lookup_insert_Some in Hu' as [(<-&<-&?)|[Hne Hu']].
    + rewrite (decide_True (P := Some s = Some s)) by done.
      rewrite Ht', (Hcount s e He). lia.
    + rewrite (decide_False (P := Some s = Some u)) by congruence.
      rewrite (Hcount u eu Hu'). lia.
  - intros u eu. rewrite list_lookup_insert_Some. intros [(<-&<-&?)|[Hne Hu']]; [|eauto].
    rewrite Htr', Ht'. split; [done|]. rewrite (Hcount s e He). lia.
  - intros u eu tr'. rewrite list_lookup_insert_Some.
    intros [(<-&<-&?)|[Hne Hu']]; [rewrite Htr'; by intros [= <-]|eauto].
Qed.

(** Taking a free slot restores the invariant. *)
Lemma wp_claim map_size q s e tr i :
  queue_inv map_size (set_queueTop (<[Z.to_nat i := None]> q.(queueTop)) q) →
  map_size < 2 ^ 32 → zlen tr = map_size → 0 <= i < map_size →
  q.(queue) !! s = Some e →
  ∀ R E, wp (claim s tr i) (λ _ q', queue_inv map_size q' ∧
    q' = QState q'.(queue) (<[Z.to_nat i := Some s]> q.(queueTop)) q.(pendFavor) true
           q.(traceRecord) ∧
    core <$> q'.(queue) = core <$> q.(queue)) R E q.
Proof.
  intros Hq Hms Htr Hi He R E.
  pose proof (qi_len _ _ Hq) as Hlen. pose proof (qi_count _ _ Hq s e He) as Hcount.
  cbn [queueTop set_queueTop] in Hlen, Hcount. unfold zlen in Hlen. rewrite length_insert in Hlen.
  pose proof (tops_range s (<[Z.to_nat i := None]> q.(queueTop))) as Hr.
  assert (topCount e < map_size) as Hlt.
  { rewrite Hcount. unfold tops, zlen.
    pose proof (length_filter_lt (λ o, o = Some s) (<[Z.to_nat i:=None]> (queueTop q)) None) as Hf.
    rewrite length_insert in Hf.
    eapply Z.lt_le_trans; [apply inj_lt, Hf; [|done]|lia].
    eapply list_elem_of_lookup_2, list_lookup_insert_eq. lia. }
  assert (u32 (topCount e + 1) = topCount e + 1) as Hu by (apply u32_id; unfold is_u32; lia).
  assert (s < length q.(queue))%nat as Hs by (by eapply lookup_lt_Some).
  unfold claim. wp_steps. eapply wp_upd_seed; [done|]. wp_steps.
  eapply wp_seed_at; [by apply list_lookup_insert_eq|]. wp_steps.
  - eapply wp_upd_seed; [by apply list_lookup_insert_eq|]. wp_steps.
    cbn [queue set_queue set_queueTop]. rewrite list_insert_insert_eq.
    split; [|split; [done|by eapply core_insert]].
    apply (queue_inv_take map_size q (Z.to_nat i) s e); [done|lia|done|exact Hu|]. eexists. split; [done|].
    unfold MinimizeBit, zlen. by rewrite length_fmap.
  - cbn [trace set_topCount] in *. destruct (trace e) as [t'|] eqn:Ht; [|done].
    split; [|split; [done|by eapply core_insert]].
    apply (queue_inv_take map_size q (Z.to_nat i) s e); [done|lia|done|exact Hu|]. exists t'.
    split; [done|]. by eapply (qi_width _ _ Hq).
Qed.

Lemma wp_UpdateQueueTop_slot map_size q s e tr i o :
  queue_inv map_size q → map_size < 2 ^ 32 → zlen tr = map_size → 0 <= i < map_size →
  q.(queue) !! s = Some e → q.(queueTop) !! Z.to_nat i = Some o →
  ∀ R E, wp (UpdateQueueTop_slot s (score_of e) tr i) (λ _ q', queue_inv map_size q' ∧
    queueTop q' = <[Z.to_nat i := slot_after q s tr (Z.to_nat i) o]> q.(queueTop) ∧
    core <$> q'.(queue) = core <$> q.(queue) ∧
    (q' = q ∨ q' = QState q'.(queue) q'.(queueTop) q.(pendFavor) true q.(traceRecord))) R E q.
Proof.
  intros Hq Hms Htr Hi He Ho R E. unfold slot_after. rewrite Z2Nat.id by lia.
  unfold UpdateQueueTop_slot. wp_steps.
  { rewrite (proj2 (Z.eqb_eq _ _)) by done. cbn [negb andb]. rewrite list_insert_id by done. auto. }
  rewrite (proj2 (Z.eqb_neq _ _)) by done. cbn [negb andb].
  eapply wp_from_option; [exact Ho|]. destruct o as [t|]; cbn [better].
  - wp_steps. destruct (qi_valid _ _ Hq _ t Ho) as [et Het]. eapply wp_seed_at; [done|].
    unfold score_at. rewrite He, Het. cbn [fmap option_fmap option_map default from_option].
    wp_steps.
    { rewrite bool_decide_eq_false_2 by (cbn; lia). rewrite list_insert_id by done. auto. }
    rewrite bool_decide_eq_true_2 by (cbn; lia).
    eapply wp_mono; [by eapply wp_release| |done..]. intros [] q1 (Hq1&E1&Hc1).
    destruct (core_lookup _ _ s e (eq_sym Hc1) He) as (e1&He1&_).
    eapply wp_mono; [by eapply (wp_claim map_size q1 s e1)| |done..].
    intros [] [] (Hq2&E2&Hc2). rewrite E1 in E2. cbn in E2. injection E2 as -> -> -> ->.
    split; [done|]. split; [done|]. split; [by rewrite Hc2|]. by right.
  - eapply wp_mono; [eapply (wp_claim map_size q s e); try done| |done..].
    { rewrite list_insert_id by done. by destruct q. }
    intros [] [] (Hq2&E2&Hc2). cbn in E2. injection E2 as -> -> -> ->. auto.
Qed.

Lemma lookup_top_after q s tr j o : q.(queueTop) !! j = Some o →
  top_after q s tr !! j = Some (slot_after q s tr j o).
Proof. intros Hj. unfold top_after. by rewrite list_lookup_imap, Hj. Qed.

Lemma slot_after_core q q' s tr j o : core <$> q.(queue) = core <$> q'.(queue) →
  slot_after q s tr j o = slot_after q' s tr j o.
Proof.
  intros Hc. unfold slot_after, better. destruct o as [t|]; [|done].
  by rewrite !(score_at_core q q').
Qed.

Lemma wp_UpdateQueueTop map_size q s e tr :
  queue_inv map_size q → map_size < 2 ^ 32 → zlen tr = map_size → q.(queue) !! s = Some e →
  ∀ R E, wp (UpdateQueueTop map_size s tr) (λ _ q', queue_inv map_size q' ∧
    queueTop q' = top_after q s tr ∧ core <$> q'.(queue) = core <$> q.(queue) ∧
    (q' = q ∨ q' = QState q'.(queue) q'.(queueTop) q.(pendFavor) true q.(traceRecord))) R E q.
Proof.
  intros Hq Hms Htr He R E. unfold UpdateQueueTop. wp_steps. eapply wp_seed_at; [done|]. wp_steps.
  pose proof (qi_len _ _ Hq) as Hlen. unfold zlen in Hlen.
  eapply wp_mono; [apply (wp_for_up _ _ _ (λ i q', queue_inv map_size q' ∧
    (∀ j, queueTop q' !! j =
       if decide (j < Z.to_nat i)%nat then top_after q s tr !! j else q.(queueTop) !! j) ∧
    core <$> q'.(queue) = core <$> q.(queue) ∧
    (q' = q ∨ q' = QState q'.(queue) q'.(queueTop) q.(pendFavor) true q.(traceRecord))))
    |cbv beta|done..].
  - lia.
  - split; [done|]. split; [|auto]. intros j. by rewrite decide_False by lia.
  - intros i q1 Hi (Hq1&Ht1&Hc1&Hd1).
    assert (is_Some (q.(queueTop) !! Z.to_nat i)) as [o Ho] by (apply lookup_lt_is_Some_2; lia).
    destruct (core_lookup _ _ s e (eq_sym Hc1) He) as (e1&He1&Hce).
    rewrite <-(score_of_core e), <-Hce, score_of_core.
    eapply wp_mono; [eapply (wp_UpdateQueueTop_slot map_size q1 s e1 tr i o); try done| |done..].
    { rewrite Ht1. by rewrite decide_False by lia. }
    intros [] q2 (Hq2&Ht2&Hc2&Hd2). split; [done|]. split; [|split; [by rewrite Hc2|]].
    + intros j. rewrite Ht2. destruct (decide (j = Z.to_nat i)) as [->|Hj].
      * rewrite decide_True by lia. rewrite (lookup_top_after q s tr _ o) by done.
        rewrite (slot_after_core q1 q) by done. apply list_lookup_insert_eq.
        pose proof (qi_len _ _ Hq1). unfold zlen in *. lia.
      * rewrite list_lookup_insert_ne, Ht1 by done. repeat case_decide; done || lia.
    + destruct Hd2 as [->|Hd2]; [done|]. right. rewrite Hd2 at 1.
      by destruct Hd1 as [->|Hd1]; [|rewrite Hd1].
  - intros [] q' (Hq'&Ht'&Hc'&Hd'). split; [done|]. split; [|done]. apply list_eq. intros j.
    rewrite Ht'. case_decide; [done|]. rewrite lookup_ge_None_2 by lia.
    by rewrite lookup_ge_None_2 by (unfold top_after; rewrite length_imap; lia).
Qed.

(** C7. An update of the queue with a seed and with the trace of its run leaves
    the slots as [top_after] says: each slot that the trace hits belongs to the
    seed unless the seed that holds it has a strictly lower score; all other
    slots, and of each seed everything but [topCount] and [trace], stay.  The
    invariant of the queue is kept: no iterator dangles, and [topCount] does not
    wrap around.  Unless a slot was given to the seed nothing changes, so that
    [CullQueue] may skip its work. *)
Theorem UpdateQueueTop_slots map_size q s e tr :
  queue_inv map_size q → map_size < 2 ^ 32 → zlen tr = map_size → q.(queue) !! s = Some e →
  ∃ q', UpdateQueueTop map_size s tr q = (Norm tt, q') ∧ queue_inv map_size q' ∧
    queueTop q' = top_after q s tr ∧ core <$> q'.(queue) = core <$> q.(queue) ∧
    (scoreChange q' = false → q' = q).
Proof.
  intros Hq Hms Htr He.
  destruct (wp_run _ _ _ (wp_UpdateQueueTop map_size q s e tr Hq Hms Htr He _ _))
    as ([]&q'&Hrun&Hq'&Ht&Hc&Hd).
  exists q'. repeat (split; [done|]). destruct Hd as [->|Hd]; [done|]. by rewrite Hd.
Qed.

(** A queue of [n] seeds that no run has been recorded for. *)
Definition fresh_queue (map_size : Z) (l : list seed) : qstate :=
  QState l (replicate (Z.to_nat map_size) None) false false (replicate (Z.to_nat map_size) false).

Lemma fresh_queue_inv map_size l : 0 <= map_size →
  (∀ t e, l !! t = Some e → e.(topCount) = 0 ∧ e.(trace) = None) →
  queue_inv map_size (fresh_queue map_size l).
Proof.
  intros Hms Hl. split; cbn [queue queueTop fresh_queue].
  - unfold zlen. rewrite length_replicate. lia.
  - intros i t. rewrite lookup_replicate. naive_solver.
  - intros t e He. destruct (Hl t e He) as [-> _].
    destruct (decide (0 < tops t (replicate (Z.to_nat map_size) None))) as [Hp|Hp].
    + apply tops_exists in Hp as [i Hi]. rewrite lookup_replicate in Hi. naive_solver.
    + pose proof (tops_range t (replicate (Z.to_nat map_size) None)). lia.
  - intros t e He. by destruct (Hl t e He) as [-> ->].
  - intros t e tr He. by destruct (Hl t e He) as [_ ->].
Qed.

Lemma UpdateQueueTop_slots_witness :
  let q := fresh_queue 3 [set_execTime 5 (new_seed "a" 2 None None);
                          set_execTime 4 (new_seed "b" 2 None None)] in
  ∃ q', UpdateQueueTop 3 1 [1; 0; 8] q = (Norm tt, q') ∧ queue_inv 3 q' ∧
    queueTop q' = [Some 1%nat; None; Some 1%nat] ∧
    core <$> q'.(queue) = core <$> q.(queue) ∧
    (scoreChange q' = false → q' = q).
Proof.
  intros q. apply (UpdateQueueTop_slots 3 q 1 (set_execTime 4 (new_seed "b" 2 None None)) [1; 0; 8]).
  - apply fresh_queue_inv; [lia|]. intros [|[|t]] e; cbn; [..|done]; by intros [= <-].
  - reflexivity.
  - reflexivity.
  - reflexivity.
Defined.

(** The seed that a slot holds after a series of runs. *)
Definition best_of (us : list (nat * list Z)) (q : qstate) (i : nat) (o : option nat) : Prop :=
  match o with
  | Some t => (∃ tr, (t, tr) ∈ us ∧ nthZ tr (Z.of_nat i) ≠ 0) ∧
      ∀ s tr, (s, tr) ∈ us → nthZ tr (Z.of_nat i) ≠ 0 → score_at q t <= score_at q s
  | None => ∀ s tr, (s, tr) ∈ us → nthZ tr (Z.of_nat i) = 0
  end.

Lemma best_of_step us q q' s tr i o : core <$> q'.(queue) = core <$> q.(queue) →
  best_of us q i o → best_of (us ++ [(s, tr)]) q' i (slot_after q s tr i o).
Proof.
  intros Hc Hb. unfold slot_after.
  destruct (Z.eqb_spec (nthZ tr (Z.of_nat i)) 0) as [H0|H0]; cbn [negb andb].
  - destruct o as [t|]; cbn [best_of] in *.
    + destruct Hb as [(tr'&Hin&Hnz) Hle]. split; [exists tr'; set_solver|]. intros s' tr2.
      rewrite elem_of_app, list_elem_of_singleton, !(score_at_core q' q) by done. naive_solver.
    + intros s' tr2. rewrite elem_of_app, list_elem_of_singleton. naive_solver.
  - destruct (better q s o) eqn:Hbet; unfold better in Hbet.
    + split; [exists tr; set_solver|]. intros s' tr2.
      rewrite elem_of_app, list_elem_of_singleton, !(score_at_core q' q) by done.
      intros [Hin|[= -> ->]] Hnz; [|lia]. destruct o as [t|]; cbn [best_of] in *.
      * apply bool_decide_eq_true in Hbet. destruct Hb as [_ Hle].
        specialize (Hle _ _ Hin Hnz). lia.
      * by rewrite (Hb _ _ Hin) in Hnz.
    + destruct o as [t|]; [|done]. apply bool_decide_eq_false in Hbet.
      destruct Hb as [(tr'&Hin&Hnz) Hle]. split; [exists tr'; set_solver|]. intros s' tr2.
      rewrite elem_of_app, list_elem_of_singleton, !(score_at_core q' q) by done.
      intros [Hin'|[= -> ->]] Hnz'; [by eapply Hle|lia].
Qed.

(** C10. After any series of runs, recorded one after the other in an empty table,
    a slot is free exactly when no run hit it, and otherwise holds a seed that
    hit it with the lowest score of all the seeds that did. *)
Theorem queueTop_argmin map_size l us :
  0 <= map_size < 2 ^ 32 →
  (∀ t e, l !! t = Some e → e.(topCount) = 0 ∧ e.(trace) = None) →
  (∀ s tr, (s, tr) ∈ us → (s < length l)%nat ∧ zlen tr = map_size) →
  ∃ q', for_each us (λ u, UpdateQueueTop map_size u.1 u.2) (fresh_queue map_size l)
          = (Norm tt, q') ∧ queue_inv map_size q' ∧
    ∀ i, 0 <= Z.of_nat i < map_size → ∃ o, queueTop q' !! i = Some o ∧ best_of us q' i o.
Proof.
  intros Hms Hl Hus.
  set (I := λ (d : list (nat * list Z)) q', queue_inv map_size q' ∧ core <$> q'.(queue) = core <$> l ∧
    ∀ i, 0 <= Z.of_nat i < map_size → ∃ o, queueTop q' !! i = Some o ∧ best_of d q' i o).
  destruct (wp_run (for_each us (λ u, UpdateQueueTop map_size u.1 u.2)) (λ _, I ([] ++ us))
    (fresh_queue map_size l)) as ([]&q'&Hrun&Hq'&_&Hi); [|by exists q'].
  apply (wp_for_each_done us []).
  - split; [apply fresh_queue_inv; [lia|done]|]. split; [done|]. intros i Hi. exists None.
    split; [apply lookup_replicate; split; [done|lia]|]. cbn. set_solver.
  - intros d [s tr] q1 Hin (Hq1&Hc1&Hb1). cbn [fst snd].
    destruct (Hus s tr Hin) as [Hs Htr]. apply lookup_lt_is_Some_2 in Hs as [e He].
    destruct (core_lookup _ _ s e (eq_sym Hc1) He) as (e1&He1&_).
    eapply wp_conseq; [eapply (wp_UpdateQueueTop map_size q1 s e1 tr); done || lia|].
    intros [] q2 (Hq2&Ht2&Hc2&_). split; [done|]. split; [by rewrite Hc2|].
    intros i Hi. destruct (Hb1 i Hi) as (o&Ho&Hb). eexists.
    split; [rewrite Ht2; by apply lookup_top_after|]. by apply best_of_step.
Qed.

Lemma queueTop_argmin_witness :
  let l := [set_execTime 5 (new_seed "a" 2 None None); set_execTime 4 (new_seed "b" 2 None None)] in
  let us := [(0%nat, [1; 1; 0]); (1%nat, [1; 0; 0])] in
  ∃ q', for_each us (λ u, UpdateQueueTop 3 u.1 u.2) (fresh_queue 3 l) = (Norm tt, q') ∧
    queue_inv 3 q' ∧
    ∀ i, 0 <= Z.of_nat i < 3 → ∃ o, queueTop q' !! i = Some o ∧ best_of us q' i o.
Proof.
  intros l us. apply (queueTop_argmin 3 l us).
  - lia.
  - intros [|[|t]] e; cbn; [..|done]; by intros [= <-].
  - intros s tr [[= -> ->]|[[= -> ->]|[]%elem_of_nil]%elem_of_cons]%elem_of_cons;
      (split; [cbn; lia|reflexivity]).
Defined.

(** ** [CullQueue] *)

(** Some favored seed is the seed of the slot or has the slot in its trace. *)
Definition is_favored (q : qstate) (f : nat) (e : seed) : Prop :=
  q.(queue) !! f = Some e ∧ e.(favored) = true.
Definition slot_covered (q : qstate) (i : nat) (t : nat) : Prop :=
  ∃ f e, is_favored q f e ∧ (f = t ∨ ∃ tr, e.(trace) = Some tr ∧ tr !! i = Some true).

(** What holds while [CullQueue] has visited the slots below [i]. *)
Record cull_inv (map_size : Z) (q0 : qstate) (i : Z) (q : qstate) : Prop := CullInv {
  ci_queue : queue_inv map_size q;
  ci_top : q.(queueTop) = q0.(queueTop);
  ci_same : set_favored false <$> q.(queue) = set_favored false <$> q0.(queue);
  ci_change : q.(scoreChange) = false;
  ci_len : zlen q.(traceRecord) = map_size;
  ci_record : ∀ j, q.(traceRecord) !! j = Some true →
    ∃ f e tr, is_favored q f e ∧ e.(trace) = Some tr ∧ tr !! j = Some true;
  ci_cover : ∀ j t, Z.of_nat j < i → q.(queueTop) !! j = Some (Some t) → slot_covered q j t;
  ci_holds : ∀ f e, is_favored q f e → ∃ j, q.(queueTop) !! j = Some (Some f);
  ci_pend : q.(pendFavor) = true ↔ ∃ f e, is_favored q f e ∧ e.(wasFuzzed) = false;
}.

(** The queue in which the seed [t] becomes favored and its trace is added to
    the record. *)
Definition favor (t : nat) (e : seed) (q : qstate) : qstate :=
  QState (<[t := set_favored true e]> q.(queue)) q.(queueTop)
    (q.(pendFavor) || negb e.(wasFuzzed)) q.(scoreChange)
    (match e.(trace) with Some tr => bits_or q.(traceRecord) tr | None => q.(traceRecord) end).

Lemma is_favored_favor q t e f e' : q.(queue) !! t = Some e →
  is_favored (favor t e q) f e' ↔
  (f = t ∧ e' = set_favored true e) ∨ (f ≠ t ∧ is_favored q f e').
Proof.
  intros Ht. unfold is_favored, favor. cbn [queue].
  assert (t < length q.(queue))%nat by (by eapply lookup_lt_Some).
  rewrite list_lookup_insert_Some. split.
  - intros [[(->&<-&_)|[Hne H1]] H2]; [by left|right]. auto.
  - intros [[-> ->]|[Hne [H1 H2]]]; split; auto.
Qed.

(** A favored seed stays favored. *)
Lemma is_favored_mono q t e f e' : q.(queue) !! t = Some e → is_favored q f e' →
  ∃ e'', is_favored (favor t e q) f e'' ∧ e''.(trace) = e'.(trace) ∧
    e''.(wasFuzzed) = e'.(wasFuzzed).
Proof.
  intros Ht [Hf Hfav]. destruct (decide (f = t)) as [->|Hne].
  - rewrite Ht in Hf. injection Hf as ->. exists (set_favored true e').
    split; [|done]. apply is_favored_favor; [done|]. by left.
  - exists e'. split; [|done]. apply is_favored_favor; [done|]. by right.
Qed.

Lemma queue_inv_favor map_size q t e : queue_inv map_size q → q.(queue) !! t = Some e →
  queue_inv map_size (favor t e q).
Proof.
  intros [Hlen Hvalid Hcount Htrace Hwidth] He.
  assert (∀ u eu, <[t := set_favored true e]> q.(queue) !! u = Some eu →
    ∃ eu0, q.(queue) !! u = Some eu0 ∧ topCount eu = topCount eu0 ∧ trace eu = trace eu0) as Hold.
  { intros u eu. rewrite list_lookup_insert_Some. intros [(<-&<-&_)|[_ H]]; eauto. }
  split; cbn [queue queueTop favor].
  - done.
  - intros i u Hu. apply Hvalid in Hu as Hs. apply lookup_lt_is_Some_2.
    rewrite length_insert. by apply lookup_lt_is_Some_1.
  - intros u eu (eu0&Hu&->&_)%Hold. eauto.
  - intros u eu (eu0&Hu&->&->)%Hold. eauto.
  - intros u eu tr (eu0&Hu&_&->)%Hold. eauto.
Qed.

Lemma lookup_bits_or a b j : bits_or a b !! j = Some true →
  a !! j = Some true ∨ b !! j = Some true.
Proof.
  unfold bits_or. rewrite lookup_zip_with.
  destruct (a !! j) as [[]|], (b !! j) as [[]|]; cbn; auto.
Qed.

Lemma cull_inv_favor map_size q0 i q t e : cull_inv map_size q0 (Z.of_nat i) q →
  q.(queueTop) !! i = Some (Some t) → q.(queue) !! t = Some e →
  cull_inv map_size q0 (Z.of_nat i + 1) (favor t e q).
Proof.
  intros [Hq Htop Hsame Hch Hlen Hrec Hcov Hholds Hpend] Hi He.
  assert (is_favored (favor t e q) t (set_favored true e)) as Hself
    by (apply is_favored_favor; auto).
  split; try done.
  - by apply queue_inv_favor.
  - rewrite <-Hsame. cbn [queue favor]. rewrite list_fmap_insert. apply list_insert_id.
    by rewrite list_lookup_fmap, He.
  - cbn [traceRecord favor]. destruct (trace e) as [tr|] eqn:Htr; [|done].
    apply (qi_width _ _ Hq t) in Htr; [|done]. unfold zlen, bits_or in *.
    rewrite length_zip_with. lia.
  - intros j Hj. cbn [traceRecord favor] in Hj.
    assert (q.(traceRecord) !! j = Some true ∨ ∃ tr, trace e = Some tr ∧ tr !! j = Some true)
      as [(f&e1&tr&Hf&Htr&Hb)%Hrec|(tr&Htr&Hb)].
    { destruct (trace e) as [tr|]; [apply lookup_bits_or in Hj as [?|?]|]; eauto. }
    + destruct (is_favored_mono q t e f e1 He Hf) as (e2&Hf2&Ht2&_).
      exists f, e2, tr. by rewrite Ht2.
    + by exists t, (set_favored true e), tr.
  - intros j u Hj Hu. destruct (decide (j = i)) as [->|Hne].
    + cbn [queueTop favor] in Hu. rewrite Hi in Hu. injection Hu as <-.
      exists t, (set_favored true e). auto.
    + destruct (Hcov j u) as (f&e1&Hf&Hc); [lia|done|].
      destruct (is_favored_mono q t e f e1 He Hf) as (e2&Hf2&Ht2&_).
      exists f, e2. by rewrite Ht2.
  - intros f e1 [[-> _]|[_ Hf]]%is_favored_favor; [by exists i|by eapply Hholds|done].
  - cbn [pendFavor favor]. rewrite orb_true_iff, Hpend, negb_true_iff. split.
    + intros [(f&e1&Hf&Hw)|Hw]; [|by exists t, (set_favored true e)].
      destruct (is_favored_mono q t e f e1 He Hf) as (e2&Hf2&_&Hw2).
      exists f, e2. by rewrite Hw2.
    + intros (f&e1&[[-> ->]|[_ Hf]]%is_favored_favor&Hw); [by right|left; eauto|done].
Qed.

Lemma CullQueue_slot_run i q t e : q.(queueTop) !! i = Some (Some t) →
  q.(traceRecord) !! i = Some false → q.(queue) !! t = Some e →
  CullQueue_slot (Z.of_nat i) q = (Norm tt, favor t e q).
Proof.
  intros Hi Hr He. unfold CullQueue_slot, mbind, proc_bind, from_option. rewrite Nat2Z.id, Hi, Hr.
  unfold seed_at, upd_seed, from_option, update, favor.
  assert (t < length q.(queue))%nat by (by eapply lookup_lt_Some).
  destruct (trace e) as [tr|] eqn:Htr; rewrite He; cbn; rewrite Htr, ?He; cbn; rewrite ?He; cbn;
    rewrite list_lookup_insert_eq by done; cbn; destruct (wasFuzzed e), q as [? ? [] ? ?]; done.
Qed.

(** The state in which the loop over the slots starts. *)
Definition cull_start (map_size : Z) (q : qstate) : qstate :=
  QState (set_favored false <$> q.(queue)) q.(queueTop) false false
    (replicate (Z.to_nat map_size) false).

Lemma cull_inv_start map_size q : 0 <= map_size → queue_inv map_size q →
  cull_inv map_size q 0 (cull_start map_size q).
Proof.
  intros Hms [Hlen Hvalid Hcount Htrace Hwidth].
  assert (∀ f e, ¬ is_favored (cull_start map_size q) f e) as Hno.
  { intros f e [Hf Hfav]. cbn in Hf. rewrite list_lookup_fmap in Hf.
    destruct (q.(queue) !! f); [|done]. injection Hf as <-. done. }
  assert (∀ t e, (cull_start map_size q).(queue) !! t = Some e → ∃ e0, q.(queue) !! t = Some e0 ∧
    topCount e = topCount e0 ∧ trace e = trace e0) as Hold.
  { intros t e. cbn [queue cull_start]. rewrite list_lookup_fmap.
    destruct (q.(queue) !! t) as [e0|]; [|done]. intros [= <-]. eauto. }
  split; try done.
  - split; [done| | | |].
    + intros i t Hi. apply Hvalid in Hi as [e He]. cbn. rewrite list_lookup_fmap, He. by eexists.
    + intros t e (e0&He&->&_)%Hold. eauto.
    + intros t e (e0&He&->&->)%Hold. eauto.
    + intros t e tr (e0&He&_&->)%Hold. eauto.
  - cbn. rewrite <-list_fmap_compose. by apply list_fmap_ext.
  - cbn. unfold zlen. rewrite length_replicate. lia.
  - cbn. intros j Hj. apply lookup_replicate in Hj as [? _]. done.
  - intros j t Hj. lia.
  - intros f e Hf. by apply Hno in Hf.
  - cbn. split; [done|]. intros (f&e&Hf&_). by apply Hno in Hf.
Qed.

Lemma CullQueue_run map_size q :
  0 <= map_size → queue_inv map_size q → q.(scoreChange) = true →
  ∃ q', CullQueue map_size q = (Norm tt, q') ∧ queue_inv map_size q' ∧
    q'.(queueTop) = q.(queueTop) ∧
    set_favored false <$> q'.(queue) = set_favored false <$> q.(queue) ∧
    (∀ i t, q'.(queueTop) !! i = Some (Some t) → slot_covered q' i t) ∧
    (∀ f e, is_favored q' f e → ∃ i, q'.(queueTop) !! i = Some (Some f)) ∧
    (q'.(pendFavor) = true ↔ ∃ f e, is_favored q' f e ∧ e.(wasFuzzed) = false) ∧
    CullQueue map_size q' = (Ret 0, q').
Proof.
  intros Hms Hq Hch.
  destruct (wp_run (for_range 0 map_size 1 CullQueue_slot) (λ _, cull_inv map_size q map_size)
    (cull_start map_size q)) as ([]&q'&Hrun&Hinv).
  { apply wp_for_up; [done|by apply cull_inv_start|]. intros i q1 Hi Hc.
    rewrite <-(Z2Nat.id i) in Hc |- * by lia. remember (Z.to_nat i) as n eqn:Hn.
    pose proof (qi_len _ _ (ci_queue _ _ _ _ Hc)) as Hl. pose proof (ci_len _ _ _ _ Hc) as Hl'.
    unfold zlen in *.
    assert (is_Some (q1.(queueTop) !! n)) as [o Ho] by (apply lookup_lt_is_Some_2; lia).
    assert (is_Some (q1.(traceRecord) !! n)) as [r Hr] by (apply lookup_lt_is_Some_2; lia).
    assert (wp (CullQueue_slot (Z.of_nat n)) (λ _ q2,
      (o = None ∨ r = true) ∧ q2 = q1 ∨ ∃ t e, o = Some t ∧ q1.(queue) !! t = Some e ∧
      q2 = favor t e q1) (λ _ _, False) (λ _ _, False) q1) as Hstep.
    { destruct o as [t|]; [destruct r|].
      1,3: unfold wp, CullQueue_slot, mbind, proc_bind, from_option; rewrite Nat2Z.id, Ho, Hr;
        cbn; auto.
      destruct (qi_valid _ _ (ci_queue _ _ _ _ Hc) _ _ Ho) as [e He].
      unfold wp. rewrite (CullQueue_slot_run n q1 t e) by done. eauto 6. }
    eapply wp_conseq; [exact Hstep|]. intros [] q2 [[Hor ->]|(t&e&->&He&->)];
      [|by apply cull_inv_favor].
    destruct Hc as [H1 H2 H3 H4 H5 H6 H7 H8 H9]. split; try done. intros j t Hj Ht.
    destruct (decide (j = n)) as [->|]; [|apply H7; [lia|done]].
    rewrite Ho in Ht. destruct Hor as [->| ->]; [done|].
    destruct (H6 n Hr) as (f&e&tr&Hf&Htr&Hb). exists f, e. eauto. }
  exists q'. destruct Hinv as [H1 H2 H3 H4 H5 H6 H7 H8 H9].
  split. { unfold CullQueue, mbind, proc_bind, gets, modify. rewrite Hch. exact Hrun. }
  repeat (split; [done|]). split.
  { intros i t Hi. apply H7; [|done]. rewrite <-(qi_len _ _ H1). unfold zlen.
    apply lookup_lt_Some in Hi. lia. }
  split; [done|]. split; [done|].
  unfold CullQueue, mbind, proc_bind, gets. by rewrite H4.
Qed.

(** C15. When the table changed since the last culling, [CullQueue] marks seeds so
    that each slot that some seed holds is covered by a marked seed: its own, or
    one whose trace has the slot.  Only seeds that hold a slot are marked,
    [pendFavor] tells whether a marked seed was never fuzzed, the other fields of
    the seeds and the table stay, and the next call is a no-op. *)
Theorem CullQueue_covers map_size q :
  0 <= map_size → queue_inv map_size q → q.(scoreChange) = true →
  ∃ q', CullQueue map_size q = (Norm tt, q') ∧ queue_inv map_size q' ∧
    q'.(queueTop) = q.(queueTop) ∧
    set_favored false <$> q'.(queue) = set_favored false <$> q.(queue) ∧
    (∀ i t, q'.(queueTop) !! i = Some (Some t) → slot_covered q' i t) ∧
    (∀ f e, is_favored q' f e → ∃ i, q'.(queueTop) !! i = Some (Some f)) ∧
    (q'.(pendFavor) = true ↔ ∃ f e, is_favored q' f e ∧ e.(wasFuzzed) = false) ∧
    CullQueue map_size q' = (Ret 0, q').
Proof. apply CullQueue_run. Qed.

(** A queue of two seeds, the second of which holds the first of two slots. *)
Definition two_seeds : qstate :=
  QState [new_seed "a" 2 None None;
          set_topCount 1 (set_trace (Some [true; false]) (new_seed "b" 2 None None))]
    [Some 1%nat; None] false true [false; false].

Lemma two_seeds_inv : queue_inv 2 two_seeds.
Proof.
  split; [done|..].
  - intros [|[|i]] t; cbn; [intros [= <-]; by eexists|done|done].
  - intros [|[|t]] e; cbn; [..|done]; by intros [= <-].
  - intros [|[|t]] e; cbn; [..|done]; by intros [= <-].
  - intros [|[|t]] e tr; cbn; [..|done]; intros [= <-]; [done|]. by intros [= <-].
Qed.

Lemma CullQueue_covers_witness :
  ∃ q', CullQueue 2 two_seeds = (Norm tt, q') ∧ queue_inv 2 q' ∧
    q'.(queueTop) = two_seeds.(queueTop) ∧
    set_favored false <$> q'.(queue) = set_favored false <$> two_seeds.(queue) ∧
    (∀ i t, q'.(queueTop) !! i = Some (Some t) → slot_covered q' i t) ∧
    (∀ f e, is_favored q' f e → ∃ i, q'.(queueTop) !! i = Some (Some f)) ∧
    (q'.(pendFavor) = true ↔ ∃ f e, is_favored q' f e ∧ e.(wasFuzzed) = false) ∧
    CullQueue 2 q' = (Ret 0, q').
Proof. apply (CullQueue_covers 2 two_seeds); [lia|apply two_seeds_inv|reflexivity]. Defined.

(** ** Growth of the queue *)

Lemma queue_inv_grow map_size q l :
  (∀ t e, l !! t = Some e → e.(topCount) = 0 ∧ e.(trace) = None) →
  queue_inv map_size q → queue_inv map_size (set_queue (q.(queue) ++ l) q).
Proof.
  intros Hl [Hlen Hvalid Hcount Htrace Hwidth].
  assert (∀ t e, (q.(queue) ++ l) !! t = Some e → q.(queue) !! t = Some e ∨
    (length q.(queue) <= t)%nat ∧ e.(topCount) = 0 ∧ e.(trace) = None) as Hold.
  { intros t e [?|[Hge He]]%lookup_app_Some; [by left|right]. apply Hl in He. tauto. }
  split; cbn [queue queueTop set_queue]; [done|..].
  - intros i t Hi. apply lookup_lt_is_Some_2. rewrite length_app.
    apply Hvalid, lookup_lt_is_Some_1 in Hi. lia.
  - intros t e [He|(Hge&->&_)]%Hold; [eauto|].
    destruct (decide (0 < tops t q.(queueTop))) as [Hp|Hp].
    + apply tops_exists in Hp as [i Hi]. apply Hvalid, lookup_lt_is_Some_1 in Hi. lia.
    + pose proof (tops_range t q.(queueTop)). lia.
  - intros t e [He|(Hge&->&->)]%Hold; [eauto|done].
  - intros t e tr [He|(Hge&_&->)]%Hold; [eauto|done].
Qed.

Lemma AddToQueue_inv map_size fname fsize elist cm q : queue_inv map_size q →
  queue_inv map_size (set_queue (q.(queue) ++ [new_seed fname fsize elist cm]) q).
Proof. apply queue_inv_grow. intros [|t] e; cbn; [|done]. by intros [= <-]. Qed.

(** A change of a seed that keeps [topCount] and [trace]. *)
Lemma queue_inv_upd map_size q t e f : queue_inv map_size q → q.(queue) !! t = Some e →
  topCount (f e) = topCount e → trace (f e) = trace e →
  queue_inv map_size (set_queue (<[t := f e]> q.(queue)) q).
Proof.
  intros [Hlen Hvalid Hcount Htrace Hwidth] He Hc Ht.
  assert (∀ u eu, <[t := f e]> q.(queue) !! u = Some eu → ∃ eu0, q.(queue) !! u = Some eu0 ∧
    topCount eu = topCount eu0 ∧ trace eu = trace eu0) as Hold.
  { intros u eu. rewrite list_lookup_insert_Some. intros [(<-&<-&_)|[_ H]]; eauto. }
  split; cbn [queue queueTop set_queue]; [done|..].
  - intros i u Hu. apply lookup_lt_is_Some_2. rewrite length_insert.
    by apply lookup_lt_is_Some_1, (Hvalid i).
  - intros u eu (eu0&Hu&->&_)%Hold. eauto.
  - intros u eu (eu0&Hu&->&->)%Hold. eauto.
  - intros u eu tr (eu0&Hu&_&->)%Hold. eauto.
Qed.
