(* ===== verification/Bits.v ===== *)
(** * Words and the predicates that prune mutations

    The macros and tables at the head of [fuzz/fuzzer/old/FuzzOne.cpp], and its
    functions [could_be_bitflip], [could_be_arith] and [could_be_interest], with
    which the deterministic stages skip a value that an earlier stage tried. *)

From S2P Require Import Prelude.

Definition ARITH_MAX : Z := 35.

(** Values converted to [u16] or [u32] on the way in, as the macros do. *)
Definition SWAP16 (x : Z) : Z :=
  let _ret := u16 x in u16 (Z.lor (Z.shiftl _ret 8) (Z.shiftr _ret 8)).
Definition SWAP32 (x : Z) : Z :=
  let _ret := u32 x in
  Z.lor (Z.lor (Z.lor (u32 (Z.shiftl _ret 24)) (Z.shiftr _ret 24))
               (Z.land (u32 (Z.shiftl _ret 8)) 0x00FF0000))
        (Z.land (Z.shiftr _ret 8) 0x0000FF00).

Definition INTERESTING_8 : list Z := [-128; -1; 0; 1; 16; 32; 64; 100; 127].
Definition INTERESTING_16 : list Z :=
  [-32768; -129; 128; 255; 256; 512; 1000; 1024; 4096; 32767].
Definition INTERESTING_32 : list Z :=
  [-2147483648; -100663046; -32769; 32768; 65535; 65536; 100663045; 2147483647].

Definition interesting_8 : list Z := INTERESTING_8.
Definition interesting_16 : list Z := INTERESTING_8 ++ INTERESTING_16.
Definition interesting_32 : list Z := INTERESTING_8 ++ INTERESTING_16 ++ INTERESTING_32.

(** The loop of [could_be_bitflip]: shift until the lowest bit is set. *)
Fixpoint strip_zeros (fuel : nat) (xor_val sh : Z) : option (Z * Z) :=
  match fuel with
  | O => None
  | S fuel' =>
      if decide (Z.land xor_val 1 = 0)
      then strip_zeros fuel' (Z.shiftr xor_val 1) (sh + 1)
      else Some (xor_val, sh)
  end.

(** A word of 32 bits that is not zero is stripped in at most 32 rounds:
    [strip_zeros_shift] and [odd_part]. *)
Definition could_be_bitflip (xor_val : Z) : bool :=
  if decide (xor_val = 0) then true else
  match strip_zeros 33 xor_val 0 with
  | None => false
  | Some (xor_val, sh) =>
      if decide (xor_val = 1 ∨ xor_val = 3 ∨ xor_val = 15) then true
      else if decide (Z.land sh 7 ≠ 0) then false
      else if decide (xor_val = 0xff ∨ xor_val = 0xffff ∨ xor_val = 0xffffffff) then true
      else false
  end.

(** One of the two loops of [could_be_arith]: how many of the [n] pieces of
    [w] bits differ, and the last pair that does. *)
Definition piece (w v i : Z) : Z := Z.shiftr v (w * i) mod 2 ^ w.
Definition diff_step (w old_val new_val : Z) (acc : Z * Z * Z) (i : Z) : Z * Z * Z :=
  let '(diffs, ov, nv) := acc in
  let a := piece w old_val i in
  let b := piece w new_val i in
  if decide (a = b) then (diffs, ov, nv) else (diffs + 1, a, b).
Definition diff_pieces (w n old_val new_val : Z) (ov nv : Z) : Z * Z * Z :=
  foldl (diff_step w old_val new_val) (0, ov, nv) (seqZ 0 n).

(** [(uW)(ov - nv) <= ARITH_MAX || (uW)(nv - ov) <= ARITH_MAX] *)
Definition arith_near (w ov nv : Z) : bool :=
  bool_decide ((ov - nv) mod 2 ^ w <= ARITH_MAX) ||
  bool_decide ((nv - ov) mod 2 ^ w <= ARITH_MAX).

Definition could_be_arith (old_val new_val blen : Z) : bool :=
  if decide (old_val = new_val) then true else
  let '(diffs, ov, nv) := diff_pieces 8 blen old_val new_val 0 0 in
  if bool_decide (diffs = 1) && arith_near 8 ov nv then true else
  if decide (blen = 1) then false else
  let '(diffs, ov, nv) := diff_pieces 16 (blen / 2) old_val new_val ov nv in
  if bool_decide (diffs = 1) &&
     (arith_near 16 ov nv || arith_near 16 (SWAP16 ov) (SWAP16 nv)) then true else
  if decide (blen = 4) then
    arith_near 32 old_val new_val || arith_near 32 (SWAP32 old_val) (SWAP32 new_val)
  else false.

(** [(old_val & ~(m << (i * 8))) | (v << (i * 8))], at 32 bits. *)
Definition splice_word (old_val m v i : Z) : Z :=
  Z.lor (Z.land old_val (u32 (Z.lnot (Z.shiftl m (i * 8))))) (u32 (Z.shiftl v (i * 8))).

Definition could_be_interest (old_val new_val blen check_le : Z) : bool :=
  if decide (old_val = new_val) then true else
  if existsb (λ i, existsb (λ v, new_val =? splice_word old_val 0xff (u8 v) i) interesting_8)
       (seqZ 0 blen) then true else
  if decide (blen = 2 ∧ check_le = 0) then false else
  if existsb (λ i, existsb (λ v,
       (new_val =? splice_word old_val 0xffff (u16 v) i) ||
       bool_decide (blen > 2) && (new_val =? splice_word old_val 0xffff (SWAP16 v) i))
       interesting_16) (seqZ 0 (blen - 1)) then true else
  if decide (blen = 4 ∧ check_le ≠ 0) then
    existsb (λ v, new_val =? u32 v) interesting_32
  else false.

(** [FLIP_BIT]: bit [_b] of a buffer, the bits of a byte numbered from its
    most significant one; undefined outside of the buffer. *)
Definition FLIP_BIT (_ar : list Z) (_b : Z) : option (list Z) :=
  let _bf := u32 _b in
  b ← _ar !! Z.to_nat (Z.shiftr _bf 3);
  Some (<[Z.to_nat (Z.shiftr _bf 3) := Z.lxor b (Z.shiftr 128 (Z.land _bf 7))]> _ar).

(** ** [could_be_bitflip] *)

Lemma odd_land_1 x : Z.land x 1 = 0 ↔ Z.odd x = false.
Proof.
  change 1 with (Z.ones 1) at 1. rewrite Z.land_ones by lia. change (2 ^ 1) with 2.
  rewrite Zmod_odd. destruct (Z.odd x); lia.
Qed.

Lemma strip_zeros_shift n fuel v sh : Z.odd v = true → (n < fuel)%nat →
  strip_zeros fuel (v * 2 ^ Z.of_nat n) sh = Some (v, sh + Z.of_nat n).
Proof.
  intros Hv. revert fuel sh. induction n as [|n IH]; intros [|fuel] sh Hf; try lia; cbn [strip_zeros].
  - rewrite decide_False by (rewrite odd_land_1, Z.mul_1_r; congruence).
    do 2 f_equal; lia.
  - replace (v * 2 ^ Z.of_nat (S n)) with (2 * (v * 2 ^ Z.of_nat n))
      by (rewrite Nat2Z.inj_succ, Z.pow_succ_r by lia; lia).
    rewrite decide_True by (rewrite odd_land_1, Z.odd_mul; done).
    rewrite Z.shiftr_div_pow2, Z.mul_comm by lia. change (2 ^ 1) with 2.
    rewrite Z.div_mul by lia. rewrite IH by lia. do 2 f_equal. lia.
Qed.

Lemma odd_part k x : 0 < x < 2 ^ k → ∃ v n, Z.odd v = true ∧ x = v * 2 ^ Z.of_nat n ∧
  Z.of_nat n < k ∧ 0 < v.
Proof.
  intros H. assert (0 <= k) as Hk by (apply Z.nlt_ge; intros ?; rewrite Z.pow_neg_r in H; lia).
  revert x H. pattern k. apply natlike_ind; [|clear k Hk; intros k Hk IH|done]; [lia|].
  intros x Hx. rewrite Z.pow_succ_r in Hx by done. destruct (Z.odd x) eqn:Ho.
  - exists x, 0%nat. split; [done|]. lia.
  - rewrite <-Z.negb_even, negb_false_iff in Ho. apply Z.even_spec in Ho as [y ->].
    destruct (IH y) as (v&n&Hv&->&Hn&Hp); [lia|]. exists v, (S n).
    split; [done|]. rewrite Nat2Z.inj_succ, Z.pow_succ_r by lia. lia.
Qed.

(** Zero, a run of one, two or four bits at any place, or a run of one, two
    or four bytes at a byte boundary. *)
Definition bit_run (x : Z) : Prop :=
  x = 0 ∨ ∃ v n, x = v * 2 ^ Z.of_nat n ∧
    (v = 1 ∨ v = 3 ∨ v = 15 ∨
     Z.of_nat n mod 8 = 0 ∧ (v = 0xff ∨ v = 0xffff ∨ v = 0xffffffff)).

(** [could_be_bitflip] terminates on every 32-bit word, and holds of exactly
    the words that are zero, a run of one, two or four bits at any place, or a run
    of one, two or four whole bytes. *)
Theorem could_be_bitflip_runs x : is_u32 x → could_be_bitflip x = true ↔ bit_run x.
Proof.
  intros Hx. unfold could_be_bitflip, bit_run. destruct (decide (x = 0)) as [->|H0]; [split; auto|].
  destruct (odd_part 32 x) as (v&n&Hv&->&Hn&Hp); [unfold is_u32 in Hx; lia|].
  rewrite strip_zeros_shift by (done || lia).
  assert (∀ v' n', Z.odd v' = true → v * 2 ^ Z.of_nat n = v' * 2 ^ Z.of_nat n' → v = v' ∧ n = n') as Huniq.
  { intros v' n' Hv' Heq.
    pose proof (strip_zeros_shift n (S (n + n')) v 0 Hv) as H1.
    pose proof (strip_zeros_shift n' (S (n + n')) v' 0 Hv') as H2.
    rewrite Heq, H2 in H1 by lia. injection (H1 ltac:(lia)). lia. }
  assert (Z.land (0 + Z.of_nat n) 7 = Z.of_nat n mod 8) as ->
    by (rewrite Z.add_0_l; exact (Z.land_ones (Z.of_nat n) 3 ltac:(lia))).
  split.
  - intros H. right. exists v, n. split; [done|]. repeat case_decide; try done; [tauto|].
    assert (Z.of_nat n mod 8 = 0) by lia. tauto.
  - intros [H|(v'&n'&Heq&Hor)]; [lia|].
    destruct (Huniq v' n') as [-> ->]; [|done|].
    { destruct Hor as [->|[->|[->|[_ [->|[->| ->]]]]]]; done. }
    repeat case_decide; tauto.
Qed.

Lemma could_be_bitflip_runs_witness : could_be_bitflip 0x1e0 = true ↔ bit_run 0x1e0.
Proof. apply could_be_bitflip_runs. unfold is_u32. lia. Defined.

(** ** [could_be_arith] *)

(** At most [ARITH_MAX] was added or subtracted, modulo the width. *)
Definition near (w a b : Z) : Prop :=
  ∃ d, - ARITH_MAX <= d <= ARITH_MAX ∧ b = (a + d) mod 2 ^ w.

(** All pieces but one are equal, and that one is related by [R]. *)
Definition only_piece (w n old_val new_val : Z) (R : Z → Z → Prop) : Prop :=
  ∃ i, 0 <= i < n ∧ R (piece w old_val i) (piece w new_val i) ∧
    ∀ j, 0 <= j < n → j ≠ i → piece w old_val j = piece w new_val j.

Lemma piece_range w v i : 0 <= w → 0 <= piece w v i < 2 ^ w.
Proof. intros. unfold piece. apply Z.mod_pos_bound. lia. Qed.

Lemma testbit_piece w v i k : 0 < w → 0 <= i → 0 <= k < w →
  Z.testbit (piece w v i) k = Z.testbit v (w * i + k).
Proof.
  intros. unfold piece. rewrite Z.mod_pow2_bits_low, Z.shiftr_spec by lia. f_equal. lia.
Qed.

(** A word is determined by its pieces. *)
Lemma pieces_ext w n a b : 0 < w → 0 <= n → 0 <= a < 2 ^ (w * n) → 0 <= b < 2 ^ (w * n) →
  (∀ j, 0 <= j < n → piece w a j = piece w b j) → a = b.
Proof.
  intros Hw Hn Ha Hb H. apply Z.bits_inj'. intros k Hk. destruct (decide (k < w * n)).
  - pose proof (Z.div_mod k w ltac:(lia)) as Hdm. pose proof (Z.mod_pos_bound k w Hw).
    assert (0 <= k / w < n) by (split; [apply Z.div_pos; lia|apply Z.div_lt_upper_bound; lia]).
    rewrite Hdm, <-!testbit_piece by lia. by rewrite H.
  - by rewrite !(testbit_high _ (w * n) k) by lia.
Qed.

Lemma arith_near_spec w a b : 6 <= w → 0 <= a < 2 ^ w → 0 <= b < 2 ^ w →
  arith_near w a b = true ↔ near w a b.
Proof.
  intros Hw Ha Hb. unfold arith_near, near, ARITH_MAX.
  assert (2 ^ 6 <= 2 ^ w) as Hp by (apply Z.pow_le_mono_r; lia). change (2 ^ 6) with 64 in Hp.
  rewrite orb_true_iff, !bool_decide_eq_true. split.
  - intros [H|H].
    + exists (- ((a - b) mod 2 ^ w)). pose proof (Z.mod_pos_bound (a - b) (2 ^ w)). split; [lia|].
      rewrite Z.add_opp_r, Zminus_mod_idemp_r. replace (a - (a - b)) with b by lia.
      by rewrite Z.mod_small by lia.
    + exists ((b - a) mod 2 ^ w). pose proof (Z.mod_pos_bound (b - a) (2 ^ w)). split; [lia|].
      rewrite Zplus_mod_idemp_r. replace (a + (b - a)) with b by lia. by rewrite Z.mod_small by lia.
  - intros (d&Hd&->). destruct (decide (0 <= d)); [right|left].
    + rewrite Zminus_mod_idemp_l. replace (a + d - a) with d by lia. rewrite Z.mod_small; lia.
    + rewrite Zminus_mod_idemp_r. replace (a - (a + d)) with (- d) by lia.
      rewrite Z.mod_small; lia.
Qed.

(** The loop counts the pieces that differ and keeps the last of them. *)
Lemma foldl_diff_step w old_val new_val l d ov nv :
  foldl (diff_step w old_val new_val) (d, ov, nv) l =
  let ds := filter (λ i, piece w old_val i ≠ piece w new_val i) l in
  match list.last ds with
  | Some i => (d + zlen ds, piece w old_val i, piece w new_val i)
  | None => (d, ov, nv)
  end.
Proof.
  revert d ov nv. induction l as [|i l IH]; intros d ov nv; [done|].
  cbn [foldl diff_step]. cbv zeta. rewrite filter_cons.
  destruct (decide (piece w old_val i = piece w new_val i)) as [He|He]; rewrite IH; cbv zeta.
  - by rewrite decide_False by tauto.
  - rewrite decide_True by done. rewrite list.last_cons.
    destruct (filter _ l) as [|x ds] eqn:Hf; [cbn; unfold zlen; cbn; f_equal; f_equal; lia|].
    destruct (list.last (x :: ds)) as [y|] eqn:Hl; [|by apply list.last_None in Hl].
    f_equal. f_equal. unfold zlen. cbn [length]. lia.
Qed.

Lemma diff_pieces_one w n old_val new_val ov nv (R : Z → Z → bool) (R' : Z → Z → Prop) :
  (∀ i, 0 <= i < n → R (piece w old_val i) (piece w new_val i) = true ↔
     R' (piece w old_val i) (piece w new_val i)) →
  (∃ i, 0 <= i < n ∧ piece w old_val i ≠ piece w new_val i) →
  (let '(diffs, ov, nv) := diff_pieces w n old_val new_val ov nv in
   bool_decide (diffs = 1) && R ov nv = true) ↔ only_piece w n old_val new_val R'.
Proof.
  intros HR [i0 [Hi0 Hne]]. unfold diff_pieces. rewrite foldl_diff_step. cbv zeta.
  assert (∀ i, i ∈ filter (λ i, piece w old_val i ≠ piece w new_val i) (seqZ 0 n) ↔
    0 <= i < n ∧ piece w old_val i ≠ piece w new_val i) as Hin.
  { intros i. rewrite list_elem_of_filter, elem_of_seqZ. split; intros [? ?]; split; (done || lia). }
  assert (NoDup (filter (λ i, piece w old_val i ≠ piece w new_val i) (seqZ 0 n))) as Hnd
    by (apply list.NoDup_filter, NoDup_seqZ).
  destruct (filter _ (seqZ 0 n)) as [|i ds] eqn:Hf.
  { exfalso. assert (i0 ∈ @nil Z) as []%elem_of_nil by (by apply Hin). }
  assert (0 <= i < n ∧ piece w old_val i ≠ piece w new_val i) as [Hi Hd] by (apply Hin; left).
  destruct ds as [|i' ds].
  - cbn [list.last]. rewrite bool_decide_eq_true_2 by done. cbn [andb]. rewrite HR by done. split.
    + intros HRi. exists i. split; [done|]. split; [done|]. intros j Hj Hji.
      destruct (decide (piece w old_val j = piece w new_val j)); [done|].
      assert (j ∈ [i]) as ?%list_elem_of_singleton by (by apply Hin). done.
    + intros (k&Hk&HRk&Hother). destruct (decide (i = k)) as [->|Hik]; [done|].
      by rewrite Hother in Hd.
  - assert (0 <= i' < n ∧ piece w old_val i' ≠ piece w new_val i') as [Hi' Hd']
      by (apply Hin; right; left).
    assert (i ≠ i') as Hii by (inversion_clear Hnd as [|? ? Hni]; intros ->; apply Hni; left).
    destruct (list.last (i :: i' :: ds)) as [y|] eqn:Hl; [|by apply list.last_None in Hl].
    rewrite bool_decide_eq_false_2 by (unfold zlen; cbn [length]; lia).
    split; [done|]. intros (k&Hk&_&Hother). exfalso.
    destruct (decide (i = k)) as [->|Hik]; [apply Hd'|apply Hd]; by apply Hother.
Qed.

Lemma SWAP16_range x : 0 <= SWAP16 x < 2 ^ 16.
Proof. unfold SWAP16, u16. apply Z.mod_pos_bound. lia. Qed.

Lemma SWAP32_range x : 0 <= SWAP32 x < 2 ^ 32.
Proof.
  unfold SWAP32. pose proof (u32_range x) as Hx. unfold is_u32 in Hx.
  assert (∀ k, 0 <= Z.shiftr (u32 x) k) as Hr by (intros; apply Z.shiftr_nonneg; lia).
  assert (Z.shiftr (u32 x) 24 < 2 ^ 32).
  { rewrite Z.shiftr_div_pow2 by lia. apply Z.div_lt_upper_bound; lia. }
  assert (∀ y, 0 <= u32 y < 2 ^ 32) as Hu by apply u32_range.
  repeat apply lor_range; try lia; try apply Hu; try (split; [apply Hr|done]);
    apply land_range; try lia; try apply Hu; apply Hr.
Qed.

(** [could_be_arith] holds of exactly the pairs of words in which one byte, one
    aligned half (in either byte order) or the whole word (in either byte order)
    was moved by at most [ARITH_MAX], and the rest is the same. *)
Theorem could_be_arith_moves old_val new_val blen :
  (blen = 1 ∨ blen = 2 ∨ blen = 4) →
  0 <= old_val < 2 ^ (8 * blen) → 0 <= new_val < 2 ^ (8 * blen) →
  could_be_arith old_val new_val blen = true ↔
    only_piece 8 blen old_val new_val (near 8) ∨
    blen ≠ 1 ∧ only_piece 16 (blen / 2) old_val new_val
                 (λ a b, near 16 a b ∨ near 16 (SWAP16 a) (SWAP16 b)) ∨
    blen = 4 ∧ (near 32 old_val new_val ∨ near 32 (SWAP32 old_val) (SWAP32 new_val)).
Proof.
  intros Hb Ho Hn. unfold could_be_arith. destruct (decide (old_val = new_val)) as [<-|Hne].
  { split; [intros _; left|done]. exists 0. split; [lia|]. split; [|done]. exists 0.
    split; [unfold ARITH_MAX; lia|]. rewrite Z.add_0_r, Z.mod_small; [done|by apply piece_range]. }
  assert (∀ w n, 0 < w → 0 <= n → w * n = 8 * blen →
    ∃ i, 0 <= i < n ∧ piece w old_val i ≠ piece w new_val i) as Hdiff.
  { intros w n Hw Hn' Hwn. rewrite <-Hwn in Ho, Hn.
    destruct (decide (Exists (λ i, piece w old_val i ≠ piece w new_val i) (seqZ 0 n))) as [He|He].
    - apply list.Exists_exists in He as (i&Hi&Hd). apply elem_of_seqZ in Hi. exists i. split; [lia|done].
    - exfalso. apply Hne, (pieces_ext w n); try done. intros j Hj.
      destruct (decide (piece w old_val j = piece w new_val j)); [done|]. destruct He.
      apply list.Exists_exists. exists j. split; [apply elem_of_seqZ; lia|done]. }
  pose proof (diff_pieces_one 8 blen old_val new_val 0 0 (arith_near 8) (near 8)) as H8.
  destruct (diff_pieces 8 blen old_val new_val 0 0) as [[d8 ov] nv]. rewrite <-H8; clear H8;
    [|intros i _; apply arith_near_spec; [lia|by apply piece_range..]|apply Hdiff; lia].
  destruct (bool_decide (d8 = 1) && arith_near 8 ov nv); [tauto|].
  case_decide as Hb1; [split; [done|intros [?|[?|?]]; (done || lia)]|].
  pose proof (diff_pieces_one 16 (blen / 2) old_val new_val ov nv
    (λ a b, arith_near 16 a b || arith_near 16 (SWAP16 a) (SWAP16 b))
    (λ a b, near 16 a b ∨ near 16 (SWAP16 a) (SWAP16 b))) as H16.
  destruct (diff_pieces 16 (blen / 2) old_val new_val ov nv) as [[d16 ov'] nv'].
  rewrite <-H16; clear H16.
  2:{ intros i _. rewrite orb_true_iff, !arith_near_spec; [done|..]; try lia;
        (apply SWAP16_range || by apply piece_range). }
  2:{ destruct Hb as [->|[->| ->]]; [done|by apply Hdiff..]. }
  destruct (bool_decide (d16 = 1) && _); [tauto|].
  case_decide as Hb4; [subst blen|split; [done|intros [?|[[_ ?]|?]]; (done || lia)]].
  rewrite orb_true_iff, !arith_near_spec; try lia; try apply SWAP32_range.
  split; [tauto|]. intros [?|[[_ ?]|[_ ?]]]; done.
Qed.

Lemma could_be_arith_moves_witness :
  could_be_arith 0x1ff0 0x2005 2 = true ↔
    only_piece 8 2 0x1ff0 0x2005 (near 8) ∨
    2 ≠ 1 ∧ only_piece 16 (2 / 2) 0x1ff0 0x2005
                 (λ a b, near 16 a b ∨ near 16 (SWAP16 a) (SWAP16 b)) ∨
    2 = 4 ∧ (near 32 0x1ff0 0x2005 ∨ near 32 (SWAP32 0x1ff0) (SWAP32 0x2005)).
Proof. apply (could_be_arith_moves 0x1ff0 0x2005 2); lia. Defined.
