(* ===== verification/Stages.v ===== *)
(** * The deterministic mutation stages

    [BitFlip], [Arithmetic8/16/32], [InterestingReplace8/16/32], [AddToken],
    [DictionaryReplace], [DictionaryInsert] and [Dictionary] of
    [fuzz/fuzzer/old/FuzzOne.cpp].

    The stages call [FuzzUnit], [rand] and the queue of the fuzzer through the
    class [Target]; their theorems hold for every target that keeps the laws of
    [TargetOK].  [print_result] and the messages on [cout] write to files the
    program never reads and are left out.  [submitted] is a history variable:
    the inputs given to [FuzzUnit], in order. *)

From stdpp Require Import sorting.
From S2P Require Import Prelude.
From S2P Require Import TraceMap.
From S2P Require Import Queue.
From S2P Require Import Bits.

Definition MIN_TOKEN_SIZE : Z := 1.
Definition MAX_TOKEN_SIZE : Z := 32.
Definition MAX_TOKEN_NUM : Z := 50.
Definition MAX_FILE_LEN : Z := 1 * 1024 * 1024.

(** ** What the stages use of the rest of the fuzzer *)

Class Target (W : Type) := {
  FuzzUnit : list Z → proc W Z;
  globalTraceBit : W → list Z;
  seeds : W → list seed;
  queueCycle : W → Z;
  rand : proc W Z;
  read_file : string → proc W (option (list Z));
}.

(** The laws: a run of the target may end the process, but is never undefined;
    the queue only grows, and its old seeds keep their checksum, name and length;
    [rand] yields a non-negative [int]; the files of the seeds have less than 2^28
    bytes, so that the number of their bits fits an [u32], and so does the number
    of the seeds. *)
Definition seed_key (e : seed) : Z * string * Z := (e.(cksum), e.(fileName), e.(fileLen)).
Definition grows (l l' : list seed) : Prop := (seed_key <$> l) `prefix_of` (seed_key <$> l').

Class TargetOK (W : Type) `{!Target W} := {
  t_inv : W → Prop;
  FuzzUnit_ok : ∀ buf w, t_inv w → Forall is_u8 buf →
    wp (FuzzUnit buf) (λ r w', is_u8 r ∧ t_inv w' ∧ grows (seeds w) (seeds w') ∧
                               queueCycle w' = queueCycle w)
       (λ _ _, False) (λ _ _, True) w;
  rand_ok : ∀ w, t_inv w →
    wp rand (λ r w', 0 <= r < 2 ^ 31 ∧ t_inv w' ∧ seeds w' = seeds w ∧
                     queueCycle w' = queueCycle w)
       (λ _ _, False) (λ _ _, False) w;
  read_file_ok : ∀ name w, t_inv w →
    wp (read_file name) (λ o w', t_inv w' ∧ seeds w' = seeds w ∧ queueCycle w' = queueCycle w ∧
                                 (∀ b, o = Some b → Forall is_u8 b))
       (λ _ _, False) (λ _ _, True) w;
  seeds_small : ∀ w, t_inv w → Forall (λ e, 0 <= e.(fileLen) < 2 ^ 28) (seeds w);
  seeds_count : ∀ w, t_inv w → zlen (seeds w) < 2 ^ 32;
}.

(** ** State of the mutation stages

    The buffer [filemap], the table [useful_byte], the two [std::map]s of
    tokens (kept in the order of their keys) and the rest of the fuzzer;
    [temp_len] is the length of the file that [Havoc] has in the buffer. *)
Record fuzz (W : Type) := Fuzz {
  filemap : list Z;
  temp_len : Z;
  useful_byte : list bool;
  autoToken : list (list Z * Z);
  pointedToken : list (list Z * Z);
  submitted : list (list Z);
  world : W;
}.
Arguments Fuzz {W}.
Arguments filemap {W}.
Arguments temp_len {W}.
Arguments useful_byte {W}.
Arguments autoToken {W}.
Arguments pointedToken {W}.
Arguments submitted {W}.
Arguments world {W}.

Section state.
Context {W : Type}.
Implicit Types s : fuzz W.

Definition set_filemap (b : list Z) s : fuzz W :=
  Fuzz b s.(temp_len) s.(useful_byte) s.(autoToken) s.(pointedToken) s.(submitted) s.(world).
Definition set_temp_len (n : Z) s : fuzz W :=
  Fuzz s.(filemap) n s.(useful_byte) s.(autoToken) s.(pointedToken) s.(submitted) s.(world).
Definition set_useful_byte (u : list bool) s : fuzz W :=
  Fuzz s.(filemap) s.(temp_len) u s.(autoToken) s.(pointedToken) s.(submitted) s.(world).
Definition set_autoToken (t : list (list Z * Z)) s : fuzz W :=
  Fuzz s.(filemap) s.(temp_len) s.(useful_byte) t s.(pointedToken) s.(submitted) s.(world).
Definition set_submitted (l : list (list Z)) s : fuzz W :=
  Fuzz s.(filemap) s.(temp_len) s.(useful_byte) s.(autoToken) s.(pointedToken) l s.(world).
Definition set_world (w : W) s : fuzz W :=
  Fuzz s.(filemap) s.(temp_len) s.(useful_byte) s.(autoToken) s.(pointedToken) s.(submitted) w.

(** Words of [k] bytes at [filemap + i]. *)
Definition load (k i : Z) : proc (fuzz W) Z :=
  from_option (λ s, le_load <$> slice s.(filemap) i k).
Definition store (k i v : Z) : proc (fuzz W) unit :=
  update (λ s, b ← blit s.(filemap) i (le_bytes k v); Some (set_filemap b s)).
Definition useful (i : Z) : proc (fuzz W) bool :=
  from_option (λ s, s.(useful_byte) !! Z.to_nat i).
Definition set_useful (i : Z) : proc (fuzz W) unit :=
  update (λ s, _ ← s.(useful_byte) !! Z.to_nat i;
               Some (set_useful_byte (<[Z.to_nat i := true]> s.(useful_byte)) s)).
Definition flip (b : Z) : proc (fuzz W) unit :=
  update (λ s, m ← FLIP_BIT s.(filemap) b; Some (set_filemap m s)).
End state.

Section stages.
Context {W : Type} `{!Target W}.
Context (map_size : Z).

(** [FuzzUnit(argv, filemap, len)], recorded. *)
Definition fuzz_unit (len : Z) : proc (fuzz W) Z :=
  buf ← from_option (λ s : fuzz W, slice s.(filemap) 0 len);
  modify (λ s, set_submitted (s.(submitted) ++ [buf]) s) ;;
  zoom world set_world (FuzzUnit buf).

(** [if (FuzzUnit(argv, filemap, len)) return 1;] *)
Definition try_unit (len : Z) : proc (fuzz W) unit :=
  r ← fuzz_unit len;
  if decide (r = 0) then mret tt else return_ 1.

(** A word is written and the file is tried. *)
Definition probe (k i v len : Z) : proc (fuzz W) unit := store k i v ;; try_unit len.

(** A loop over [n] entries of [useful_byte] that stops at the first one that
    is set; the conjunctions of the other stages read it the same way. *)
Fixpoint any_useful (n : nat) (i : Z) : proc (fuzz W) bool :=
  match n with
  | O => mret false
  | S n' => u ← useful i; if u : bool then mret true else any_useful n' (i + 1)
  end.

(** *** Tokens *)

(** The order of [std::string]. *)
Fixpoint bytes_lt (a b : list Z) : bool :=
  match a, b with
  | _, [] => false
  | [], _ :: _ => true
  | x :: a', y :: b' => (x <? y) || (x =? y) && bytes_lt a' b'
  end.

(** [if (m.count(t) == 0) m[t] = 1; else m[t]++;] *)
Fixpoint token_bump (t : list Z) (m : list (list Z * Z)) : list (list Z * Z) :=
  match m with
  | [] => [(t, 1)]
  | (k, v) :: m' =>
      if decide (t = k) then (k, u32 (v + 1)) :: m'
      else if bytes_lt t k then (t, 1) :: (k, v) :: m'
      else (k, v) :: token_bump t m'
  end.

(** The comparison of a [u16] with an [s16] is one of [int]s, that of a [u32]
    with an [s32] is one of unsigned words. *)
Definition is_interesting_token (token : list Z) : bool :=
  bool_decide (zlen token = 2 ∧ le_load token ∈ interesting_16) ||
  bool_decide (zlen token = 4 ∧ le_load token ∈ (u32 <$> interesting_32)).

Definition AddToken (token : list Z) : proc (fuzz W) unit :=
  if is_interesting_token token then mret tt else
  pointed ← gets pointedToken;
  if decide (token ∈ pointed.*1) then mret tt else
  modify (λ s, set_autoToken (token_bump token s.(autoToken)) s).

(** *** [BitFlip] *)

Definition trace_cksum : proc (fuzz W) Z :=
  gets (λ s, hash32 (globalTraceBit s.(world)) map_size HASH_CONST).
Definition seed_cksum (qCur : nat) : proc (fuzz W) Z :=
  from_option (λ s, cksum <$> seeds s.(world) !! qCur).

(** Lines 390-394: a byte whose first bit changes the trace of the seed is
    added to the token. *)
Definition extend_token (qCur : nat) (cksum stageCur : Z) (acc : Z * list Z)
    : proc (fuzz W) (Z * list Z) :=
  let '(prevcksum, token) := acc in
  qcksum ← seed_cksum qCur;
  if decide (cksum ≠ qcksum) then
    if decide (zlen token < MAX_TOKEN_SIZE) then
      b ← load 1 (Z.shiftr stageCur 3);
      mret (prevcksum, token ++ [b])
    else mret (prevcksum, token)
  else mret (prevcksum, token).

(** Lines 367-395: the tokens that the 1/1 walk collects, one step. *)
Definition collect_token (qCur : nat) (stageMax stageCur : Z) (acc : Z * list Z)
    : proc (fuzz W) (Z * list Z) :=
  let '(prevcksum, token) := acc in
  if decide (stageCur mod 8 = 0) then
    cksum ← trace_cksum;
    acc ←
      (if decide (cksum ≠ prevcksum) then
         (if decide (MIN_TOKEN_SIZE <= zlen token <= MAX_TOKEN_SIZE)
          then AddToken token else mret tt) ;;
         mret (cksum, [])
       else if decide (stageCur = stageMax - 1) then
         b ← load 1 (Z.shiftr stageCur 3);
         let token := if decide (zlen token < MAX_TOKEN_SIZE) then token ++ [b] else token in
         (if decide (MIN_TOKEN_SIZE <= zlen token) then AddToken token else mret tt) ;;
         mret (prevcksum, token)
       else mret (prevcksum, token));
    extend_token qCur cksum stageCur acc
  else mret (prevcksum, token).

(** Lines 399-406: a byte whose inversion changes the trace is useful. *)
Definition mark_useful (qCur : nat) (stageCur : Z) : proc (fuzz W) unit :=
  u ← useful (Z.shiftr stageCur 3);
  if u : bool then mret tt else
  cksum ← trace_cksum;
  qcksum ← seed_cksum qCur;
  if decide (cksum ≠ qcksum) then set_useful (Z.shiftr stageCur 3) else mret tt.

(** Lines 357-358: [flipnum] bits from [stageCur] on. *)
Definition flip_run (stageCur flipnum : Z) : proc (fuzz W) unit :=
  for_range 0 flipnum 1 (λ i, flip (stageCur + i)).

Definition BitFlip_step (len flipnum flipstep : Z) (qCur : nat) (stageMax stageCur : Z)
    (acc : Z * list Z) : proc (fuzz W) (Z * list Z) :=
  useful_flag ←
    (if decide (flipnum ≠ 8 ∧ flipstep = 8)
     then any_useful (Z.to_nat (flipnum / flipstep)) (Z.shiftr stageCur 3)
     else mret true);
  if negb useful_flag then mret acc else
  flip_run stageCur flipnum ;;
  try_unit len ;;
  flip_run stageCur flipnum ;;
  if decide (flipnum = 1 ∧ flipstep = 1) then collect_token qCur stageMax stageCur acc
  else if decide (flipnum = 8 ∧ flipstep = 8) then mark_useful qCur stageCur ;; mret acc
  else mret acc.

Definition BitFlip (len flipnum flipstep : Z) (qCur : nat) : proc (fuzz W) unit :=
  if decide (Z.shiftl len 3 < flipnum - flipstep) then return_ 0 else
  let stageMax := Z.shiftl len 3 - (flipnum - flipstep) in
  prevcksum ← seed_cksum qCur;
  for_fold (Z.to_nat ((stageMax + flipstep - 1) / flipstep)) 0 flipstep
    (BitFlip_step len flipnum flipstep qCur stageMax) (prevcksum, []) ;;
  return_ 0.

(** *** Arithmetic

    [i] is a [u32] or a [u64] and [len] at most [MAX_FILE_LEN]; the sums and
    differences wrap around at the width of the word they are stored to. *)

Definition Arithmetic8 (len : Z) : proc (fuzz W) unit :=
  for_range 0 len 1 (λ i,
    u ← any_useful 1 i;
    if negb u then mret tt else
    orig ← load 1 i;
    for_range 1 (ARITH_MAX + 1) 1 (λ j,
      when (negb (could_be_bitflip (u8 (Z.lxor orig (orig + j))))) (probe 1 i (orig + j) len) ;;
      when (negb (could_be_bitflip (u8 (Z.lxor orig (orig - j))))) (probe 1 i (orig - j) len)) ;;
    store 1 i orig) ;;
  return_ 0.

Definition Arithmetic16 (len : Z) : proc (fuzz W) unit :=
  if decide (len < 2) then return_ 0 else
  for_range 0 (len - 1) 1 (λ i,
    u ← any_useful 2 i;
    if negb u then mret tt else
    orig ← load 2 i;
    for_range 1 (ARITH_MAX + 1) 1 (λ j,
      let r1 := u16 (Z.lxor orig (orig + j)) in
      let r2 := u16 (Z.lxor orig (orig - j)) in
      let r3 := u16 (Z.lxor orig (SWAP16 (SWAP16 orig + j))) in
      let r4 := u16 (Z.lxor orig (SWAP16 (SWAP16 orig - j))) in
      when (bool_decide (Z.land orig 0xff + j > 0xff) && negb (could_be_bitflip r1))
        (probe 2 i (orig + j) len) ;;
      when (bool_decide (Z.land orig 0xff < j) && negb (could_be_bitflip r2))
        (probe 2 i (orig - j) len) ;;
      when (bool_decide (Z.shiftr orig 8 + j > 0xff) && negb (could_be_bitflip r3))
        (probe 2 i (SWAP16 (SWAP16 orig + j)) len) ;;
      when (bool_decide (Z.shiftr orig 8 < j) && negb (could_be_bitflip r4))
        (probe 2 i (SWAP16 (SWAP16 orig - j)) len)) ;;
    store 2 i orig) ;;
  return_ 0.

Definition Arithmetic32 (len : Z) : proc (fuzz W) unit :=
  if decide (len < 4) then return_ 0 else
  for_range 0 (len - 3) 1 (λ i,
    u ← any_useful 4 i;
    if negb u then mret tt else
    orig ← load 4 i;
    for_range 1 (ARITH_MAX + 1) 1 (λ j,
      let r1 := u32 (Z.lxor orig (orig + j)) in
      let r2 := u32 (Z.lxor orig (orig - j)) in
      let r3 := u32 (Z.lxor orig (SWAP32 (SWAP32 orig + j))) in
      let r4 := u32 (Z.lxor orig (SWAP32 (SWAP32 orig - j))) in
      when (bool_decide (Z.land orig 0xffff + j > 0xffff) && negb (could_be_bitflip r1))
        (probe 4 i (orig + j) len) ;;
      when (bool_decide (Z.land orig 0xffff < j) && negb (could_be_bitflip r2))
        (probe 4 i (orig - j) len) ;;
      when (bool_decide (Z.shiftr orig 16 + j > 0xff) && negb (could_be_bitflip r3))
        (probe 4 i (SWAP32 (SWAP32 orig + j)) len) ;;
      when (bool_decide (Z.shiftr orig 16 < j) && negb (could_be_bitflip r4))
        (probe 4 i (SWAP32 (SWAP32 orig - j)) len)) ;;
    store 4 i orig) ;;
  return_ 0.

(** *** Interesting values *)

Definition InterestingReplace8 (len : Z) : proc (fuzz W) unit :=
  for_range 0 len 1 (λ i,
    u ← any_useful 1 i;
    if negb u then mret tt else
    orig ← load 1 i;
    for_each interesting_8 (λ v,
      when (negb (could_be_bitflip (Z.lxor orig (u8 v))) && negb (could_be_arith orig (u8 v) 1))
        (probe 1 i v len)) ;;
    store 1 i orig) ;;
  return_ 0.

Definition InterestingReplace16 (len : Z) : proc (fuzz W) unit :=
  if decide (len < 2) then return_ 0 else
  for_range 0 (len - 1) 1 (λ i,
    u ← any_useful 2 i;
    if negb u then mret tt else
    orig ← load 2 i;
    for_each interesting_16 (λ v,
      when (negb (could_be_bitflip (Z.lxor orig (u16 v))) && negb (could_be_arith orig (u16 v) 2) &&
            negb (could_be_interest orig (u16 v) 2 0))
        (probe 2 i v len)) ;;
    store 2 i orig) ;;
  return_ 0.

Definition InterestingReplace32 (len : Z) : proc (fuzz W) unit :=
  if decide (len < 4) then return_ 0 else
  for_range 0 (len - 3) 1 (λ i,
    u ← any_useful 4 i;
    if negb u then mret tt else
    orig ← load 4 i;
    for_each interesting_32 (λ v,
      when (negb (could_be_bitflip (Z.lxor orig (u32 v))) && negb (could_be_arith orig (u32 v) 4) &&
            negb (could_be_interest orig (u32 v) 4 0))
        (probe 4 i v len)) ;;
    store 4 i orig) ;;
  return_ 0.

(** *** Dictionary *)

(** [memcmp(token_data, orig, token_len)], [orig] a copy of the file at [i]
    that [token_len] does not exceed. *)
Definition replace_body (len i : Z) (orig : list Z) (token : list Z * Z) : proc (fuzz W) unit :=
  let token_data := token.1 in
  let token_len := zlen token_data in
  if decide (token_len > len - i) then mret tt else
  same ← from_option (λ _ : fuzz W, slice orig 0 token_len);
  if decide (same = token_data) then mret tt else
  should ← any_useful (Z.to_nat token_len) i;
  if negb should then mret tt else
  update (λ s, b ← blit s.(filemap) i token_data; Some (set_filemap b s)) ;;
  try_unit len.

Definition DictionaryReplace (len : Z) (MVector : list (list Z * Z)) : proc (fuzz W) unit :=
  for_range 0 len 1 (λ i,
    orig ← from_option (λ s : fuzz W, slice s.(filemap) i (Z.min MAX_TOKEN_SIZE (len - i)));
    for_each MVector (replace_body len i orig) ;;
    update (λ s, b ← blit s.(filemap) i orig; Some (set_filemap b s))) ;;
  return_ 0.

(** The buffer [temp] is local; [FuzzUnit] is given it in place of the file. *)
Definition try_buffer (temp : list Z) (n : Z) : proc (fuzz W) unit :=
  buf ← from_option (λ _ : fuzz W, slice temp 0 n);
  modify (λ s : fuzz W, set_submitted (s.(submitted) ++ [buf]) s) ;;
  r ← zoom world set_world (FuzzUnit buf);
  if decide (r = 0) then mret tt else return_ 1.

Fixpoint insert_tokens (len i : Z) (MVector : list (list Z * Z)) (temp : list Z)
    : proc (fuzz W) (list Z) :=
  match MVector with
  | [] => mret temp
  | token :: MVector' =>
      let token_data := token.1 in
      let token_len := zlen token_data in
      if decide (len + token_len > MAX_FILE_LEN) then insert_tokens len i MVector' temp else
      tail ← from_option (λ s : fuzz W, slice s.(filemap) i (len - i));
      temp ← from_option (λ _, blit temp i token_data);
      temp ← from_option (λ _, blit temp (i + token_len) tail);
      try_buffer temp (len + token_len) ;;
      insert_tokens len i MVector' temp
  end.

(** [temp] starts with whatever [new u8[len + MAX_TOKEN_SIZE]] holds. *)
Definition DictionaryInsert (len : Z) (MVector : list (list Z * Z)) (temp : list Z)
    : proc (fuzz W) unit :=
  for_fold (Z.to_nat len) 0 1 (λ i temp,
    temp ← insert_tokens len i MVector temp;
    b ← from_option (λ s : fuzz W, slice s.(filemap) i 1);
    from_option (λ _, blit temp i b)) temp ;;
  return_ 0.

Definition CompareMVectorValue (obj1 obj2 : list Z * Z) : bool := bool_decide (obj1.2 > obj2.2).
Definition CompareMVectorStringLen (obj1 obj2 : list Z * Z) : bool :=
  bool_decide (zlen obj1.1 < zlen obj2.1).

(** [std::sort] leaves the order of equal elements open: it is an argument. *)
Definition Dictionary
    (sort : (list Z * Z → list Z * Z → bool) → list (list Z * Z) → list (list Z * Z))
    (len : Z) (temp : list Z) : proc (fuzz W) unit :=
  MVector ← gets autoToken;
  let MVector := if decide (zlen MVector > MAX_TOKEN_NUM)
                 then take (Z.to_nat MAX_TOKEN_NUM) (sort CompareMVectorValue MVector)
                 else MVector in
  let MVector := sort CompareMVectorStringLen MVector in
  r ← call (DictionaryReplace len MVector);
  if decide (r ≠ 0) then return_ 1 else
  r ← call (DictionaryInsert len MVector temp);
  if decide (r ≠ 0) then return_ 1 else
  return_ 0.

End stages.

(** ** What a stage submits

    [emits m P P' xs]: from a state with [P] the procedure [m] submits exactly
    the inputs [xs] and reaches [P'], or a run of the target fails, [m] returns
    1 and what it submitted is a prefix of [xs].  A run of the target may also end
    the process.  Undefined behaviour and divergence are excluded by [wp]. *)

Section emits.
Context {W : Type} `{!Target W, !TargetOK W}.
Implicit Types (s : fuzz W) (P : fuzz W → Prop).

Definition emits (m : proc (fuzz W) unit) P P' (xs : list (list Z)) : Prop :=
  ∀ s, P s → wp m (λ _ s', P' s' ∧ s'.(submitted) = s.(submitted) ++ xs)
    (λ r s', r = 1 ∧ s'.(submitted) `prefix_of` s.(submitted) ++ xs) (λ _ _, True) s.

Lemma emits_nil P : emits (mret tt) P P [].
Proof. intros s Hs. apply wp_mret. by rewrite app_nil_r. Qed.

Lemma emits_seq m1 m2 P1 P2 P3 xs ys :
  emits m1 P1 P2 xs → emits m2 P2 P3 ys → emits (m1 ;; m2) P1 P3 (xs ++ ys).
Proof.
  intros H1 H2 s Hs. apply wp_bind. eapply wp_mono; [by apply H1| | |done].
  - intros [] s1 [Hs1 E1]. eapply wp_mono; [by apply H2| | |done].
    + intros [] s2 [Hs2 E2]. split; [done|]. by rewrite E2, E1, app_assoc.
    + intros r s2 [-> Hp]. split; [done|]. by rewrite app_assoc, <-E1.
  - intros r s1 [-> Hp]. split; [done|]. rewrite app_assoc. by apply prefix_app_r.
Qed.

Lemma emits_when (b : bool) m P xs :
  emits m P P xs → emits (when b m) P P (if b then xs else []).
Proof. intros Hm. destruct b; [done|apply emits_nil]. Qed.

Lemma emits_conseq m P1 P1' P2 P2' xs : (∀ s, P1' s → P1 s) → (∀ s, P2 s → P2' s) →
  emits m P1 P2 xs → emits m P1' P2' xs.
Proof.
  intros H1 H2 Hm s Hs. eapply wp_conseq; [by apply Hm, H1|]. naive_solver.
Qed.

Lemma emits_for_n n i body P (xs : Z → list (list Z)) :
  (∀ k, i <= k < i + Z.of_nat n → emits (body k) P P (xs k)) →
  emits (for_n n i 1 body) P P (concat (xs <$> seqZ i (Z.of_nat n))).
Proof.
  revert i. induction n as [|n IH]; intros i Hb; [apply emits_nil|].
  cbn [for_n]. rewrite Nat2Z.inj_succ, seqZ_cons by lia. cbn [concat fmap list_fmap].
  apply (emits_seq _ _ _ P); [apply Hb; lia|].
  replace (Z.pred (Z.succ (Z.of_nat n))) with (Z.of_nat n) by lia.
  rewrite <-Z.add_1_r. apply IH. intros k Hk. apply Hb. lia.
Qed.

Lemma emits_for_range lo hi body P (xs : Z → list (list Z)) : lo <= hi →
  (∀ k, lo <= k < hi → emits (body k) P P (xs k)) →
  emits (for_range lo hi 1 body) P P (concat (xs <$> seqZ lo (hi - lo))).
Proof.
  intros Hle Hb. unfold for_range. rewrite Z.div_1_r.
  replace (hi - lo + 1 - 1) with (hi - lo) by lia.
  rewrite <-(Z2Nat.id (hi - lo)) at 2 by lia.
  apply emits_for_n. intros k Hk. apply Hb. lia.
Qed.

Lemma emits_for_each {A} (l : list A) body P (xs : A → list (list Z)) :
  (∀ x, x ∈ l → emits (body x) P P (xs x)) → emits (for_each l body) P P (concat (xs <$> l)).
Proof.
  induction l as [|x l IH]; intros Hb; [apply emits_nil|].
  cbn [for_each concat fmap list_fmap]. apply (emits_seq _ _ _ P); [apply Hb; left|].
  apply IH. intros y Hy. apply Hb. by right.
Qed.

(** A statement that submits nothing. *)
Lemma emits_silent m P P' :
  (∀ s, P s → wp m (λ _ s', P' s' ∧ s'.(submitted) = s.(submitted)) (λ _ _, False) (λ _ _, True) s) →
  emits m P P' [].
Proof.
  intros Hm s Hs. eapply wp_mono; [by apply Hm| |done|done]. intros [] s' [? ->].
  by rewrite app_nil_r.
Qed.

(** The state is as in [s0] but for the file, the target and the history. *)
Record at_file s0 (f : list Z) s : Prop := AtFile {
  af_file : s.(filemap) = f;
  af_bytes : Forall is_u8 f;
  af_inv : t_inv s.(world);
  af_grows : grows (seeds s0.(world)) (seeds s.(world));
  af_cycle : queueCycle s.(world) = queueCycle s0.(world);
  af_len : s.(temp_len) = s0.(temp_len);
  af_useful : s.(useful_byte) = s0.(useful_byte);
  af_auto : s.(autoToken) = s0.(autoToken);
  af_pointed : s.(pointedToken) = s0.(pointedToken);
}.

Lemma grows_trans l1 l2 l3 : grows l1 l2 → grows l2 l3 → grows l1 l3.
Proof. unfold grows. apply transitivity. Qed.

Lemma wp_fuzz_unit len s Q R : t_inv s.(world) → Forall is_u8 s.(filemap) →
  0 <= len <= zlen s.(filemap) →
  (∀ r w', is_u8 r → t_inv w' → grows (seeds s.(world)) (seeds w') →
     queueCycle w' = queueCycle s.(world) →
     Q r (set_world w' (set_submitted (s.(submitted) ++ [take (Z.to_nat len) s.(filemap)]) s))) →
  wp (fuzz_unit len) Q R (λ _ _, True) s.
Proof.
  intros Hinv Hu Hlen HQ. unfold fuzz_unit. wp_steps. eapply wp_from_option.
  { apply slice_is_Some; lia. }
  wp_steps. apply wp_zoom. cbn [world set_submitted]. rewrite drop_0.
  eapply wp_mono; [apply FuzzUnit_ok; [done|by apply Forall_take]| |done|done].
  intros r w' (?&?&?&?). by apply HQ.
Qed.

Lemma emits_try s0 f len : 0 <= len <= zlen f →
  emits (try_unit len) (at_file s0 f) (at_file s0 f) [take (Z.to_nat len) f].
Proof.
  intros Hlen s [Hf Hu Hinv Hg Hc Hl Hus Ha Hp]. unfold try_unit. apply wp_bind.
  apply wp_fuzz_unit; [done|by rewrite Hf|by rewrite Hf|].
  intros r w' Hr Hw Hg' Hc'. rewrite Hf. wp_steps.
  - split; [|done]. split; try done; [by eapply grows_trans|cbn; congruence].
  - split; [done|]. done.
Qed.

(** *** Stages that replace a word *)

(** A file with [v] at position [i], its word of [k] bytes at [i], and whether
    one of its bytes [i .. i + k - 1] is useful. *)
Definition put (f : list Z) (i : Z) (v : list Z) : list Z :=
  take (Z.to_nat i) f ++ v ++ drop (Z.to_nat i + length v) f.
Definition word (f : list Z) (k i : Z) : Z :=
  le_load (take (Z.to_nat k) (drop (Z.to_nat i) f)).
Definition any_set (u : list bool) (i : Z) (n : nat) : bool :=
  existsb id (take n (drop (Z.to_nat i) u)).

(** The inputs that a stage derives from the file [f] of length [len]: at each
    position with a useful byte, the words that [words] names. *)
Definition variants_at (k len : Z) (u : list bool) (words : Z → list Z) (f : list Z) (i : Z)
    : list (list Z) :=
  if any_set u i (Z.to_nat k)
  then (λ v, take (Z.to_nat len) (put f i (le_bytes k v))) <$> words (word f k i)
  else [].
Definition variants (k len : Z) (u : list bool) (words : Z → list Z) (f : list Z)
    : list (list Z) :=
  concat (variants_at k len u words f <$> seqZ 0 (len - k + 1)).

Definition at_word s0 (f : list Z) (k i : Z) s : Prop :=
  ∃ v, zlen v = k ∧ at_file s0 (put f i v) s.

Lemma put_bytes f i v : Forall is_u8 f → Forall is_u8 v → Forall is_u8 (put f i v).
Proof.
  intros Hf Hv. unfold put.
  apply Forall_app_2; [by apply Forall_take|apply Forall_app_2; [done|by apply Forall_drop]].
Qed.

Lemma blit_put f i v : 0 <= i → i + zlen v <= zlen f → blit f i v = Some (put f i v).
Proof. apply blit_is_Some. Qed.

Lemma zlen_put f i v : 0 <= i → i + zlen v <= zlen f → zlen (put f i v) = zlen f.
Proof. intros. by apply blit_put, blit_Some in H0 as (_&_&?&_). Qed.

(** A store over a word that was stored before. *)
Lemma emits_store s0 f k i v : 0 <= k → 0 <= i → i + k <= zlen f → Forall is_u8 f →
  emits (store k i v) (at_word s0 f k i) (at_file s0 (put f i (le_bytes k v))) [].
Proof.
  intros Hk Hi Hl Hf. apply emits_silent. intros s (v0&Hv0&[Hfm Hu Hinv Hg Hc Hln Hus Ha Hp]).
  assert (zlen (le_bytes k v) = k) as Hle by (by apply length_le_bytes).
  unfold store. eapply wp_update.
  { rewrite Hfm. rewrite (blit_blit f (put f i v0) i v0 (le_bytes k v)); [|apply blit_put; lia|].
    - rewrite blit_put by lia. reflexivity.
    - unfold zlen in *. lia. }
  split; [|done]. split; try done. apply put_bytes; [done|by apply le_bytes_u8].
Qed.

Lemma emits_probe s0 f k i v len : 0 <= k → 0 <= i → i + k <= zlen f → Forall is_u8 f →
  0 <= len <= zlen f →
  emits (probe k i v len) (at_word s0 f k i) (at_word s0 f k i)
    [take (Z.to_nat len) (put f i (le_bytes k v))].
Proof.
  intros Hk Hi Hl Hf Hlen. unfold probe.
  assert (zlen (le_bytes k v) = k) as Hle by (by apply length_le_bytes).
  apply (emits_seq _ _ _ (at_file s0 (put f i (le_bytes k v))) _ []); [by apply emits_store|].
  eapply emits_conseq; [done| |apply emits_try; rewrite zlen_put; lia].
  intros s Hs. by exists (le_bytes k v).
Qed.

Lemma wp_any_useful n i s Q R E : 0 <= i → i + Z.of_nat n <= zlen s.(useful_byte) →
  Q (any_set s.(useful_byte) i n) s → wp (any_useful n i) Q R E s.
Proof.
  unfold any_set. revert i. induction n as [|n IH]; intros i Hi Hl HQ; [by apply wp_mret|].
  cbn [any_useful]. wp_steps. unfold zlen in Hl.
  destruct (drop (Z.to_nat i) s.(useful_byte)) as [|u l] eqn:Hd.
  { apply (f_equal length) in Hd. rewrite length_drop in Hd. cbn in Hd. lia. }
  eapply wp_from_option.
  { rewrite <-(Nat.add_0_r (Z.to_nat i)), <-lookup_drop, Hd. reflexivity. }
  cbn [take existsb] in HQ. destruct u; [by apply wp_mret|].
  apply IH; [lia|unfold zlen; lia|].
  assert (drop (Z.to_nat (i + 1)) s.(useful_byte) = l) as ->; [|done].
  replace (Z.to_nat (i + 1)) with (Z.to_nat i + 1)%nat by lia.
  by rewrite <-drop_drop, Hd.
Qed.

(** Loading the word at [i] and storing it back. *)
Lemma put_word f k i : 0 <= k → 0 <= i → i + k <= zlen f → Forall is_u8 f →
  put f i (le_bytes k (word f k i)) = f.
Proof.
  intros Hk Hi Hl Hf. unfold word.
  assert (slice f i k = Some (take (Z.to_nat k) (drop (Z.to_nat i) f))) as Hs
    by (apply slice_is_Some; lia).
  pose proof (slice_Some _ _ _ _ Hs) as (_&_&_&Hz&_).
  rewrite <-Hz at 1. rewrite le_bytes_load by (by apply Forall_take, Forall_drop).
  apply blit_slice in Hs. rewrite blit_put in Hs by lia. by injection Hs.
Qed.

(** The common shape of the six word stages, at one position. *)
Lemma emits_word_stage s0 f k len words (inner : Z → proc (fuzz W) unit) i :
  0 <= k → 0 <= i → i + k <= len → len <= zlen f → len <= zlen s0.(useful_byte) →
  Forall is_u8 f →
  (∀ orig, emits (inner orig) (at_word s0 f k i) (at_word s0 f k i)
     ((λ v, take (Z.to_nat len) (put f i (le_bytes k v))) <$> words orig)) →
  emits (u ← any_useful (Z.to_nat k) i;
         if negb u then mret tt else orig ← load k i; inner orig ;; store k i orig)
    (at_file s0 f) (at_file s0 f) (variants_at k len s0.(useful_byte) words f i).
Proof.
  intros Hk Hi Hik Hlen Hul Hf Hin s Hs. pose proof Hs as [Hfm Hu Hinv Hg Hc Hln Hus Ha Hp].
  wp_steps. apply wp_any_useful; [done|rewrite Hus; lia|].
  unfold variants_at. rewrite Hus. destruct (any_set _ i _); cbn [negb];
    [|by apply emits_nil].
  wp_steps. eapply wp_from_option.
  { rewrite Hfm, slice_is_Some by lia. reflexivity. }
  fold (word f k i). set (orig := word f k i).
  rewrite <-(app_nil_r (_ <$> words orig)).
  apply (emits_seq _ _ (at_word s0 f k i) (at_word s0 f k i)); [apply Hin| |].
  - eapply emits_conseq; [done| |apply emits_store; (done || lia)].
    intros s'. by rewrite put_word by (done || lia).
  - exists (le_bytes k orig). split; [by apply length_le_bytes|]. subst orig.
    by rewrite put_word by (done || lia).
Qed.

(** A whole stage: it submits [xs] and leaves the file and the tables as they
    were, or a run fails and it returns 1. *)
Definition submits (m : proc (fuzz W) unit) s (xs : list (list Z)) : Prop :=
  wp m (λ _ _, False)
    (λ r s', r = 0 ∧ at_file s s.(filemap) s' ∧ s'.(submitted) = s.(submitted) ++ xs ∨
             r = 1 ∧ s'.(submitted) `prefix_of` s.(submitted) ++ xs)
    (λ _ _, True) s.

(** What a stage expects of the state. *)
Record ready (len : Z) s : Prop := Ready {
  rd_inv : t_inv s.(world);
  rd_bytes : Forall is_u8 s.(filemap);
  rd_len : 0 <= len <= zlen s.(filemap);
  rd_useful : len <= zlen s.(useful_byte);
}.

Lemma ready_at_file len s : ready len s → at_file s s.(filemap) s.
Proof. intros []. split; try done. unfold grows. done. Qed.

Lemma submits_return m s xs len : ready len s →
  emits m (at_file s s.(filemap)) (at_file s s.(filemap)) xs → submits (m ;; return_ 0) s xs.
Proof.
  intros Hr Hm. apply wp_bind. eapply wp_mono; [by apply Hm, (ready_at_file len)| | |done].
  - intros [] s' [? ?]. apply wp_return. by left.
  - intros r s' [? ?]. by right.
Qed.

Lemma submits_early s len xs : ready len s → xs = [] → submits (return_ 0) s xs.
Proof.
  intros Hr ->. apply wp_return. left. split; [done|]. split; [by eapply ready_at_file|].
  by rewrite app_nil_r.
Qed.

(** Loops that probe one word per value that passes a test. *)
Lemma emits_probes {A} s0 f k i len (l : list A) (body : A → proc (fuzz W) unit)
    (words : A → list Z) :
  (∀ x, x ∈ l → emits (body x) (at_word s0 f k i) (at_word s0 f k i)
     ((λ v, take (Z.to_nat len) (put f i (le_bytes k v))) <$> words x)) →
  emits (for_each l body) (at_word s0 f k i) (at_word s0 f k i)
    ((λ v, take (Z.to_nat len) (put f i (le_bytes k v))) <$> concat (words <$> l)).
Proof.
  intros Hb. rewrite fmap_concat, <-list_fmap_compose. by apply emits_for_each.
Qed.

Lemma emits_probes_range s0 f k i len lo hi (body : Z → proc (fuzz W) unit)
    (words : Z → list Z) : lo <= hi →
  (∀ j, lo <= j < hi → emits (body j) (at_word s0 f k i) (at_word s0 f k i)
     ((λ v, take (Z.to_nat len) (put f i (le_bytes k v))) <$> words j)) →
  emits (for_range lo hi 1 body) (at_word s0 f k i) (at_word s0 f k i)
    ((λ v, take (Z.to_nat len) (put f i (le_bytes k v))) <$>
       concat (words <$> seqZ lo (hi - lo))).
Proof.
  intros Hle Hb. rewrite fmap_concat, <-list_fmap_compose. by apply emits_for_range.
Qed.

(** [when test (probe ...)] *)
Lemma emits_when_probe s0 f k i len (b : bool) v :
  0 <= k → 0 <= i → i + k <= len → len <= zlen f → Forall is_u8 f →
  emits (when b (probe k i v len)) (at_word s0 f k i) (at_word s0 f k i)
    ((λ v, take (Z.to_nat len) (put f i (le_bytes k v))) <$> (if b then [v] else [])).
Proof.
  intros. destruct b; [|apply emits_nil]. apply emits_probe; (done || lia).
Qed.

(** A stage over all positions that have room for a word of [k] bytes. *)
Lemma submits_word_stage s k len words (inner : Z → Z → proc (fuzz W) unit) :
  ready len s → 0 <= k <= len + 1 →
  (∀ i orig, 0 <= i → i + k <= len →
     emits (inner i orig) (at_word s s.(filemap) k i) (at_word s s.(filemap) k i)
     ((λ v, take (Z.to_nat len) (put s.(filemap) i (le_bytes k v))) <$> words orig)) →
  submits (for_range 0 (len - k + 1) 1 (λ i,
      u ← any_useful (Z.to_nat k) i;
      if negb u then mret tt else orig ← load k i; inner i orig ;; store k i orig) ;;
    return_ 0) s (variants k len s.(useful_byte) words s.(filemap)).
Proof.
  intros Hr Hk Hin. eapply submits_return; [done|]. unfold variants.
  replace (len - k + 1) with (len - k + 1 - 0) at 2 by lia.
  apply emits_for_range; [lia|]. intros i Hi. destruct Hr.
  apply emits_word_stage; try (done || lia). intros orig. apply Hin; lia.
Qed.
End emits.

(** ** The word stages *)

(** The words that each stage tries in place of [orig]. *)
Definition keep (b : bool) (v : Z) : list Z := if b then [v] else [].

Definition arith8_words (orig : Z) : list Z :=
  filter (λ v, could_be_bitflip (u8 (Z.lxor orig v)) = false)
    (concat ((λ j, [orig + j; orig - j]) <$> seqZ 1 ARITH_MAX)).

Definition arith16_words (orig : Z) : list Z :=
  concat ((λ j,
    keep (bool_decide (Z.land orig 0xff + j > 0xff) &&
          negb (could_be_bitflip (u16 (Z.lxor orig (orig + j))))) (orig + j) ++
    keep (bool_decide (Z.land orig 0xff < j) &&
          negb (could_be_bitflip (u16 (Z.lxor orig (orig - j))))) (orig - j) ++
    keep (bool_decide (Z.shiftr orig 8 + j > 0xff) &&
          negb (could_be_bitflip (u16 (Z.lxor orig (SWAP16 (SWAP16 orig + j))))))
         (SWAP16 (SWAP16 orig + j)) ++
    keep (bool_decide (Z.shiftr orig 8 < j) &&
          negb (could_be_bitflip (u16 (Z.lxor orig (SWAP16 (SWAP16 orig - j))))))
         (SWAP16 (SWAP16 orig - j))) <$> seqZ 1 ARITH_MAX).

Definition arith32_words (orig : Z) : list Z :=
  concat ((λ j,
    keep (bool_decide (Z.land orig 0xffff + j > 0xffff) &&
          negb (could_be_bitflip (u32 (Z.lxor orig (orig + j))))) (orig + j) ++
    keep (bool_decide (Z.land orig 0xffff < j) &&
          negb (could_be_bitflip (u32 (Z.lxor orig (orig - j))))) (orig - j) ++
    keep (bool_decide (Z.shiftr orig 16 + j > 0xff) &&
          negb (could_be_bitflip (u32 (Z.lxor orig (SWAP32 (SWAP32 orig + j))))))
         (SWAP32 (SWAP32 orig + j)) ++
    keep (bool_decide (Z.shiftr orig 16 < j) &&
          negb (could_be_bitflip (u32 (Z.lxor orig (SWAP32 (SWAP32 orig - j))))))
         (SWAP32 (SWAP32 orig - j))) <$> seqZ 1 ARITH_MAX).

Definition interest8_words (orig : Z) : list Z :=
  filter (λ v, could_be_bitflip (Z.lxor orig (u8 v)) = false ∧
               could_be_arith orig (u8 v) 1 = false) interesting_8.
Definition interest16_words (orig : Z) : list Z :=
  filter (λ v, could_be_bitflip (Z.lxor orig (u16 v)) = false ∧
               could_be_arith orig (u16 v) 2 = false ∧
               could_be_interest orig (u16 v) 2 0 = false) interesting_16.
Definition interest32_words (orig : Z) : list Z :=
  filter (λ v, could_be_bitflip (Z.lxor orig (u32 v)) = false ∧
               could_be_arith orig (u32 v) 4 = false ∧
               could_be_interest orig (u32 v) 4 0 = false) interesting_32.

Lemma keep_filter (P : Z → Prop) `{!∀ x, Decision (P x)} (b : bool) v :
  (b = true ↔ P v) → keep b v = filter P [v].
Proof.
  intros Hb. rewrite filter_cons, filter_nil. unfold keep. destruct b; case_decide; naive_solver.
Qed.

Lemma filter_concat {A} (P : A → Prop) `{!∀ x, Decision (P x)} (ls : list (list A)) :
  filter P (concat ls) = concat (filter P <$> ls).
Proof. induction ls as [|l ls IH]; [done|]. cbn [concat fmap list_fmap]. by rewrite list.filter_app, IH. Qed.

Section word_stages.
Context {W : Type} `{!Target W, !TargetOK W}.
Implicit Types s : fuzz W.

Lemma Arithmetic8_submits len s : ready len s →
  submits (Arithmetic8 len) s (variants 1 len s.(useful_byte) arith8_words s.(filemap)).
Proof.
  intros Hr. pose proof Hr as [_ Hb Hl _]. unfold Arithmetic8.
  replace len with (len - 1 + 1) at 1 by lia.
  apply (submits_word_stage s 1 len arith8_words
    (λ i orig, for_range 1 (ARITH_MAX + 1) 1 (λ j,
      when (negb (could_be_bitflip (u8 (Z.lxor orig (orig + j))))) (probe 1 i (orig + j) len) ;;
      when (negb (could_be_bitflip (u8 (Z.lxor orig (orig - j))))) (probe 1 i (orig - j) len))));
    [done|lia|]. intros i orig Hi Hil. unfold arith8_words.
  rewrite filter_concat, <-list_fmap_compose. apply emits_probes_range; [done|]. intros j _.
  cbn [compose]. change [orig + j; orig - j] with ([orig + j] ++ [orig - j]).
  rewrite list.filter_app, fmap_app.
  eapply emits_seq; (erewrite <-keep_filter; [apply emits_when_probe; (done || lia)|]);
    apply negb_true_iff.
Qed.

(** [when] statements one after the other. *)
Ltac emits_whens :=
  rewrite ?fmap_app; repeat (eapply emits_seq; [apply emits_when_probe; (done || lia)|]);
  apply emits_when_probe; (done || lia).

Lemma Arithmetic16_submits len s : ready len s →
  submits (Arithmetic16 len) s (variants 2 len s.(useful_byte) arith16_words s.(filemap)).
Proof.
  intros Hr. pose proof Hr as [_ Hb Hl _]. unfold Arithmetic16. case_decide.
  { eapply submits_early; [done|]. unfold variants. by rewrite seqZ_nil by lia. }
  replace (len - 1) with (len - 2 + 1) by lia.
  apply (submits_word_stage s 2 len arith16_words (λ i orig, for_range 1 (ARITH_MAX + 1) 1 (λ j, _)));
    [done|lia|]. intros i orig Hi Hil. apply emits_probes_range; [done|]. intros j _. emits_whens.
Qed.

Lemma Arithmetic32_submits len s : ready len s →
  submits (Arithmetic32 len) s (variants 4 len s.(useful_byte) arith32_words s.(filemap)).
Proof.
  intros Hr. pose proof Hr as [_ Hb Hl _]. unfold Arithmetic32. case_decide.
  { eapply submits_early; [done|]. unfold variants. by rewrite seqZ_nil by lia. }
  replace (len - 3) with (len - 4 + 1) by lia.
  apply (submits_word_stage s 4 len arith32_words (λ i orig, for_range 1 (ARITH_MAX + 1) 1 (λ j, _)));
    [done|lia|]. intros i orig Hi Hil. apply emits_probes_range; [done|]. intros j _. emits_whens.
Qed.

(** The loop over a table of interesting values. *)
Lemma emits_table s0 f k i len (table : list Z) (test : Z → bool) (P : Z → Prop)
    `{!∀ v, Decision (P v)} :
  (∀ v, test v = true ↔ P v) → 0 <= k → 0 <= i → i + k <= len → len <= zlen f →
  Forall is_u8 f →
  emits (for_each table (λ v, when (test v) (probe k i v len))) (at_word s0 f k i) (at_word s0 f k i)
    ((λ v, take (Z.to_nat len) (put f i (le_bytes k v))) <$> filter P table).
Proof.
  intros HP Hk Hi Hil Hl Hf.
  assert (filter P table = concat ((λ v, keep (test v) v) <$> table)) as ->.
  { clear -HP. induction table as [|v t IH]; [done|]. cbn [fmap list_fmap concat].
    rewrite (keep_filter P) by apply HP. rewrite <-IH. change (v :: t) with ([v] ++ t).
    by rewrite list.filter_app. }
  apply emits_probes. intros v _. by apply emits_when_probe.
Qed.

Lemma InterestingReplace8_submits len s : ready len s →
  submits (InterestingReplace8 len) s (variants 1 len s.(useful_byte) interest8_words s.(filemap)).
Proof.
  intros Hr. pose proof Hr as [_ Hb Hl _]. unfold InterestingReplace8.
  replace len with (len - 1 + 1) at 1 by lia.
  apply (submits_word_stage s 1 len interest8_words (λ i orig, for_each interesting_8 (λ v, _)));
    [done|lia|]. intros i orig Hi Hil. apply emits_table; try (done || lia).
  intros v. by rewrite andb_true_iff, !negb_true_iff.
Qed.

Lemma InterestingReplace16_submits len s : ready len s →
  submits (InterestingReplace16 len) s (variants 2 len s.(useful_byte) interest16_words s.(filemap)).
Proof.
  intros Hr. pose proof Hr as [_ Hb Hl _]. unfold InterestingReplace16. case_decide.
  { eapply submits_early; [done|]. unfold variants. by rewrite seqZ_nil by lia. }
  replace (len - 1) with (len - 2 + 1) by lia.
  apply (submits_word_stage s 2 len interest16_words (λ i orig, for_each interesting_16 (λ v, _)));
    [done|lia|]. intros i orig Hi Hil. apply emits_table; try (done || lia).
  intros v. rewrite !andb_true_iff, !negb_true_iff. tauto.
Qed.

Lemma InterestingReplace32_submits len s : ready len s →
  submits (InterestingReplace32 len) s (variants 4 len s.(useful_byte) interest32_words s.(filemap)).
Proof.
  intros Hr. pose proof Hr as [_ Hb Hl _]. unfold InterestingReplace32. case_decide.
  { eapply submits_early; [done|]. unfold variants. by rewrite seqZ_nil by lia. }
  replace (len - 3) with (len - 4 + 1) by lia.
  apply (submits_word_stage s 4 len interest32_words (λ i orig, for_each interesting_32 (λ v, _)));
    [done|lia|]. intros i orig Hi Hil. apply emits_table; try (done || lia).
  intros v. rewrite !andb_true_iff, !negb_true_iff. tauto.
Qed.
End word_stages.

(** ** Flipping bits *)

Definition flip_mask (b : Z) (i : nat) : Z :=
  if decide (i = Z.to_nat (Z.shiftr b 3)) then Z.shiftr 128 (Z.land b 7) else 0.
Definition flip_bit1 (f : list Z) (b : Z) : list Z := imap (λ i x, Z.lxor x (flip_mask b i)) f.
Definition flip_bits (f : list Z) (a n : Z) : list Z := foldl flip_bit1 f (seqZ a n).

Lemma lookup_flip_bit1 f b i : flip_bit1 f b !! i = (λ x, Z.lxor x (flip_mask b i)) <$> f !! i.
Proof. unfold flip_bit1. apply list_lookup_imap. Qed.

Lemma length_flip_bit1 f b : length (flip_bit1 f b) = length f.
Proof. apply length_imap. Qed.

Lemma flip_bit1_twice f b : flip_bit1 (flip_bit1 f b) b = f.
Proof.
  apply list_eq. intros i. rewrite !lookup_flip_bit1. destruct (f !! i); [|done]. cbn.
  f_equal. apply lxor_cancel.
Qed.

Lemma flip_bit1_comm f a b : flip_bit1 (flip_bit1 f a) b = flip_bit1 (flip_bit1 f b) a.
Proof.
  apply list_eq. intros i. rewrite !lookup_flip_bit1. destruct (f !! i); [|done]. cbn.
  f_equal. rewrite !Z.lxor_assoc. f_equal. apply Z.lxor_comm.
Qed.

Lemma foldl_flip_comm f b l : foldl flip_bit1 (flip_bit1 f b) l = flip_bit1 (foldl flip_bit1 f l) b.
Proof.
  revert f. induction l as [|c l IH]; intros f; [done|]. cbn [foldl].
  by rewrite flip_bit1_comm, IH.
Qed.

Lemma flip_bits_twice f a n : flip_bits (flip_bits f a n) a n = f.
Proof.
  unfold flip_bits. induction (seqZ a n) as [|b l IH]; [done|]. cbn [foldl].
  by rewrite (foldl_flip_comm f b l), flip_bit1_twice.
Qed.

Lemma length_flip_bits f a n : length (flip_bits f a n) = length f.
Proof.
  unfold flip_bits. revert f. induction (seqZ a n) as [|b l IH]; intros f; [done|]. cbn [foldl].
  by rewrite IH, length_flip_bit1.
Qed.

Lemma flip_mask_u8 b i : 0 <= b → is_u8 (flip_mask b i).
Proof.
  intros Hb. unfold flip_mask. case_decide; [|apply is_u8_0].
  assert (0 <= Z.land b 7 < 8) as Hk by (apply (land_range b 7 3); lia).
  rewrite Z.shiftr_div_pow2 by lia. unfold is_u8.
  pose proof (Z.pow_pos_nonneg 2 (Z.land b 7)).
  split; [apply Z.div_pos; lia|]. apply Z.div_lt_upper_bound; [lia|]. change (2 ^ 8) with 256. nia.
Qed.

Lemma flip_bits_u8 f a n : 0 <= a → Forall is_u8 f → Forall is_u8 (flip_bits f a n).
Proof.
  intros Ha. unfold flip_bits. assert (Forall (λ b, 0 <= b) (seqZ a n)) as Hl.
  { apply list.Forall_forall. intros b Hb%elem_of_seqZ. lia. }
  revert f. induction Hl as [|b l Hb Hl IH]; intros f Hf; [done|]. cbn [foldl]. apply IH.
  apply list.Forall_lookup. intros i x. rewrite lookup_flip_bit1.
  destruct (f !! i) as [y|] eqn:Hy; [|done]. intros [= <-].
  apply lxor_range; [lia|eapply (proj1 (list.Forall_lookup _ _) Hf), Hy|by apply flip_mask_u8].
Qed.

Lemma FLIP_BIT_flip f b : 0 <= b < 8 * zlen f → b < 2 ^ 32 →
  FLIP_BIT f b = Some (flip_bit1 f b).
Proof.
  intros Hb Hf. unfold FLIP_BIT. rewrite u32_id by (unfold is_u32; lia).
  assert (0 <= Z.shiftr b 3 < zlen f) as Hi.
  { rewrite Z.shiftr_div_pow2 by lia.
    split; [by apply Z.div_pos; lia|apply Z.div_lt_upper_bound; lia]. }
  unfold zlen in Hi.
  destruct (lookup_lt_is_Some_2 f (Z.to_nat (Z.shiftr b 3))) as [x Hx]; [lia|].
  rewrite Hx. cbn. f_equal. apply list_eq. intros i. rewrite lookup_flip_bit1. unfold flip_mask.
  case_decide as Hd.
  - subst i. rewrite Hx. cbn. apply list_lookup_insert_eq. lia.
  - rewrite list_lookup_insert_ne by done. destruct (f !! i); [|done]. cbn. by rewrite Z.lxor_0_r.
Qed.

Lemma seqZ_snoc a n : 0 <= n → seqZ a (n + 1) = seqZ a n ++ [a + n].
Proof. intros. by rewrite seqZ_app by lia. Qed.

(** *** The table of tokens *)

Lemma bytes_lt_trans a b c : bytes_lt a b = true → bytes_lt b c = true → bytes_lt a c = true.
Proof.
  revert b c. induction a as [|x a IH]; intros [|y b] [|z c]; cbn; try done.
  rewrite !orb_true_iff, !andb_true_iff, !Z.ltb_lt, !Z.eqb_eq. intros [?|[-> ?]] [?|[-> ?]].
  - left. lia.
  - by left.
  - by left.
  - right. split; [done|]. by eapply IH.
Qed.

Lemma bytes_lt_total a b : a = b ∨ bytes_lt a b = true ∨ bytes_lt b a = true.
Proof.
  revert b. induction a as [|x a IH]; intros [|y b]; cbn; auto.
  rewrite !orb_true_iff, !andb_true_iff, !Z.ltb_lt, !Z.eqb_eq.
  destruct (Z.lt_trichotomy x y) as [?|[->|?]]; auto.
  destruct (IH b) as [->|[?|?]]; auto.
Qed.

(** The keys are in order, hence distinct; a token has 1 to 32 bytes. *)
Definition token_ok (kv : list Z * Z) : Prop :=
  MIN_TOKEN_SIZE <= zlen kv.1 <= MAX_TOKEN_SIZE ∧ Forall is_u8 kv.1.
Definition tokens_ok (m : list (list Z * Z)) : Prop :=
  StronglySorted (λ a b, bytes_lt a b = true) m.*1 ∧ Forall token_ok m.

Lemma token_bump_keys t m k : k ∈ (token_bump t m).*1 → k = t ∨ k ∈ m.*1.
Proof.
  induction m as [|[k' v] m IH]; cbn.
  - intros ?%list_elem_of_singleton. by left.
  - case_decide; [|destruct (bytes_lt t k')]; cbn; rewrite ?elem_of_cons; naive_solver.
Qed.

Lemma token_bump_ok t m n : token_ok (t, n) → tokens_ok m → tokens_ok (token_bump t m).
Proof.
  intros Ht [Hs Hf]. split.
  - clear Hf. induction m as [|[k v] m IH]; cbn.
    { by repeat constructor. }
    cbn in Hs. apply StronglySorted_inv in Hs as [Hs Hk].
    case_decide as Htk; [by constructor|]. destruct (bytes_lt t k) eqn:Hlt; cbn.
    + constructor; [by constructor|]. constructor; [done|].
      eapply Forall_impl; [|exact Hk]. cbn. intros c Hc. by eapply bytes_lt_trans.
    + constructor; [by apply IH|]. apply list.Forall_forall. intros c Hc%token_bump_keys.
      destruct Hc as [->|Hc]; [|by eapply (proj1 (list.Forall_forall _ _) Hk)].
      destruct (bytes_lt_total t k) as [?|[?|?]]; congruence.
  - clear Hs. induction Hf as [|[k v] m Hkv Hf IH]; cbn.
    { constructor; [exact Ht|constructor]. }
    case_decide; [by constructor|]. destruct (bytes_lt t k); [|by constructor].
    constructor; [exact Ht|by constructor].
Qed.

Section bitflip.
Context {W : Type} `{!Target W, !TargetOK W} (map_size : Z).
Implicit Types s : fuzz W.

Lemma wp_flip_run stageCur flipnum s Q R E :
  0 <= stageCur → 0 <= flipnum → stageCur + flipnum <= 8 * zlen s.(filemap) →
  8 * zlen s.(filemap) <= 2 ^ 32 →
  Q tt (set_filemap (flip_bits s.(filemap) stageCur flipnum) s) →
  wp (flip_run stageCur flipnum) Q R E s.
Proof.
  intros H0 Hn Hl Hm HQ. unfold flip_run.
  eapply wp_conseq; [apply (wp_for_up _ _ _ (λ i s', s' = set_filemap (flip_bits s.(filemap) stageCur i) s))|].
  - done.
  - by destruct s.
  - intros i s' Hi ->. unfold flip. eapply wp_update.
    { cbn [filemap set_filemap]. rewrite FLIP_BIT_flip; [reflexivity|..];
        unfold zlen in *; rewrite ?length_flip_bits; lia. }
    unfold flip_bits. rewrite seqZ_snoc by lia. by rewrite foldl_app.
  - by intros [] s' ->.
Qed.

(** The state during [BitFlip]: the file is that of [s0]; only the 1/1 walk
    adds tokens and only the 8/8 walk marks bytes as useful. *)
Record walking (flipnum flipstep : Z) s0 s : Prop := Walking {
  wk_file : s.(filemap) = s0.(filemap);
  wk_inv : t_inv s.(world);
  wk_grows : grows (seeds s0.(world)) (seeds s.(world));
  wk_cycle : queueCycle s.(world) = queueCycle s0.(world);
  wk_len : s.(temp_len) = s0.(temp_len);
  wk_pointed : s.(pointedToken) = s0.(pointedToken);
  wk_tokens : tokens_ok s.(autoToken);
  wk_auto : ¬ (flipnum = 1 ∧ flipstep = 1) → s.(autoToken) = s0.(autoToken);
  wk_useful : ¬ (flipnum = 8 ∧ flipstep = 8) → s.(useful_byte) = s0.(useful_byte);
  wk_mono : length s.(useful_byte) = length s0.(useful_byte) ∧
    ∀ i, s0.(useful_byte) !! i = Some true → s.(useful_byte) !! i = Some true;
}.

(** The history and the target play no part in it. *)
Lemma walking_unit fn fs s0 s w' l : walking fn fs s0 s → t_inv w' →
  grows (seeds s.(world)) (seeds w') → queueCycle w' = queueCycle s.(world) →
  walking fn fs s0 (set_world w' (set_submitted l s)).
Proof.
  intros [] Hw Hg Hc. split; try done; [by eapply grows_trans|cbn; congruence].
Qed.

Lemma wp_AddToken token s Q R E : tokens_ok s.(autoToken) →
  token_ok (token, 0) →
  (∀ m, tokens_ok m → Q tt (set_autoToken m s)) → wp (AddToken token) Q R E s.
Proof.
  intros Hok Ht HQ. assert (s = set_autoToken s.(autoToken) s) as Hs by (by destruct s).
  unfold AddToken. wp_steps.
  - rewrite Hs. by apply HQ.
  - rewrite Hs. by apply HQ.
  - apply HQ. by eapply token_bump_ok.
Qed.

Lemma wp_seed_cksum qCur s0 s Q R E : grows (seeds s0.(world)) (seeds s.(world)) →
  (qCur < length (seeds s0.(world)))%nat →
  (∀ c, cksum <$> seeds s0.(world) !! qCur = Some c → Q c s) →
  wp (seed_cksum qCur) Q R E s.
Proof.
  intros Hg Hq HQ. apply lookup_lt_is_Some_2 in Hq as [e He].
  assert ((seed_key <$> seeds s0.(world)) !! qCur = Some (seed_key e)) as Hk
    by (by rewrite list_lookup_fmap, He).
  eapply prefix_lookup_Some in Hk; [|exact Hg]. rewrite list_lookup_fmap in Hk.
  destruct (seeds s.(world) !! qCur) as [e'|] eqn:He'; [|done].
  apply (inj Some) in Hk. unfold seed_key in Hk. injection Hk as Hc _ _.
  unfold seed_cksum. eapply wp_from_option; [by rewrite He'|]. apply HQ. rewrite He. cbn. by rewrite Hc.
Qed.

Lemma wp_load1 i s Q R E : 0 <= i < zlen s.(filemap) → Forall is_u8 s.(filemap) →
  (∀ b, is_u8 b → Q b s) → wp (load 1 i) Q R E s.
Proof.
  intros Hi Hf HQ. unfold load. eapply wp_from_option; [rewrite slice_is_Some by lia; reflexivity|].
  apply HQ. destruct (drop (Z.to_nat i) s.(filemap)) as [|b l] eqn:Hd.
  - apply (f_equal length) in Hd. rewrite length_drop in Hd. unfold zlen in Hi. cbn in Hd. lia.
  - assert (Forall is_u8 (b :: l)) as [Hb _]%Forall_cons_iff by (rewrite <-Hd; by apply Forall_drop).
    change (is_u8 (le_load [b])). rewrite le_load_cons by done. change (le_load []) with 0.
    by rewrite Z.mul_0_r, Z.add_0_r.
Qed.

Definition acc_ok (acc : Z * list Z) : Prop := zlen acc.2 <= MAX_TOKEN_SIZE ∧ Forall is_u8 acc.2.

Lemma acc_ok_snoc c c' t b : acc_ok (c, t) → zlen t < MAX_TOKEN_SIZE → is_u8 b →
  acc_ok (c', t ++ [b]) ∧ token_ok (t ++ [b], 0).
Proof.
  intros [_ Ht] Hl Hb. unfold acc_ok, token_ok, MIN_TOKEN_SIZE. cbn [fst snd].
  rewrite !zlen_app. change (zlen [b]) with 1. pose proof (zlen_nonneg t).
  assert (Forall is_u8 (t ++ [b])) by (apply Forall_app_2; [done|constructor; [done|constructor]]).
  repeat split; (done || lia).
Qed.

(** Collecting tokens changes nothing but the tokens. *)
Lemma wp_extend_token qCur cksum stageCur acc s0 s Q R E :
  walking 1 1 s0 s → (qCur < length (seeds s0.(world)))%nat → Forall is_u8 s0.(filemap) →
  0 <= stageCur < 8 * zlen s0.(filemap) → acc_ok acc →
  (∀ acc', acc_ok acc' → Q acc' s) → wp (extend_token qCur cksum stageCur acc) Q R E s.
Proof.
  intros Hw Hq Hb Hc Hacc HQ. destruct acc as [p t]. unfold extend_token.
  wp_steps. eapply wp_seed_cksum; [apply Hw|done|]. intros c _. wp_steps; [|by apply HQ..].
  apply wp_load1; [|by rewrite (wk_file _ _ _ _ Hw)|].
  - rewrite (wk_file _ _ _ _ Hw), Z.shiftr_div_pow2 by lia.
    split; [by apply Z.div_pos; lia|apply Z.div_lt_upper_bound; lia].
  - intros b Hb'. wp_steps. apply HQ. by eapply acc_ok_snoc.
Qed.

Lemma wp_collect_token qCur stageMax stageCur acc s0 s R E :
  walking 1 1 s0 s → (qCur < length (seeds s0.(world)))%nat → Forall is_u8 s0.(filemap) →
  0 <= stageCur < 8 * zlen s0.(filemap) → acc_ok acc →
  wp (collect_token map_size qCur stageMax stageCur acc)
    (λ acc' s', acc_ok acc' ∧ walking 1 1 s0 s' ∧ s'.(submitted) = s.(submitted)) R E s.
Proof.
  intros Hw Hq Hb Hc Hacc. destruct acc as [prev token].
  assert (∀ m, tokens_ok m → walking 1 1 s0 (set_autoToken m s)) as Hset.
  { intros m Hm. destruct Hw. split; try done. cbn. tauto. }
  assert (∀ c acc1 s1, acc_ok acc1 → walking 1 1 s0 s1 → s1.(submitted) = s.(submitted) →
    wp (extend_token qCur c stageCur acc1)
      (λ acc' s', acc_ok acc' ∧ walking 1 1 s0 s' ∧ s'.(submitted) = s.(submitted)) R E s1) as Htail.
  { intros c acc1 s1 Ha Hw1 Hs1. by eapply wp_extend_token. }
  assert (acc_ok (0, [])) as Hnil by (by split; cbn).
  unfold collect_token, trace_cksum. wp_steps; [| | | |done].
  - destruct Hacc as [Ha1 Ha2]. apply wp_AddToken; [apply Hw|by split|]. intros m Hm. wp_steps.
    apply Htail; [exact Hnil|by apply Hset|done].
  - by apply Htail.
  - apply wp_load1; [|by rewrite (wk_file _ _ _ _ Hw)|].
    { rewrite (wk_file _ _ _ _ Hw), Z.shiftr_div_pow2 by lia.
      split; [by apply Z.div_pos; lia|apply Z.div_lt_upper_bound; lia]. }
    intros b Hb'. cbv zeta.
    set (t' := if decide (zlen token < MAX_TOKEN_SIZE) then token ++ [b] else token).
    assert (acc_ok (prev, t')) as Ht'.
    { subst t'. case_decide; [by eapply acc_ok_snoc|done]. }
    wp_steps; [|by apply Htail]. apply wp_AddToken; [apply Hw| |].
    + destruct Ht' as [? ?]. by split.
    + intros m Hm. wp_steps. apply Htail; [done|by apply Hset|done].
  - by apply Htail.
Qed.

Lemma wp_mark_useful qCur stageCur s0 s R E :
  walking 8 8 s0 s → (qCur < length (seeds s0.(world)))%nat →
  0 <= Z.shiftr stageCur 3 < zlen s0.(useful_byte) →
  wp (mark_useful map_size qCur stageCur)
    (λ _ s', walking 8 8 s0 s' ∧ s'.(submitted) = s.(submitted)) R E s.
Proof.
  intros Hw Hq Hi. pose proof Hw as [_ _ Hg _ _ _ _ _ _ [Hl Hm]]. unfold zlen in Hi.
  assert (is_Some (s.(useful_byte) !! Z.to_nat (Z.shiftr stageCur 3))) as [u Hu]
    by (apply lookup_lt_is_Some_2; lia).
  unfold mark_useful, trace_cksum. wp_steps. unfold useful. eapply wp_from_option; [exact Hu|].
  destruct u; [by wp_steps|]. wp_steps. eapply wp_seed_cksum; [done..|]. intros c _. wp_steps; [|done].
  unfold set_useful. eapply wp_update; [by rewrite Hu|]. split; [|done].
  destruct Hw. split; try done; [cbn; tauto|]. cbn [useful_byte set_useful_byte].
  rewrite length_insert. split; [done|]. intros i Hi'. apply Hm in Hi'.
  destruct (decide (i = Z.to_nat (Z.shiftr stageCur 3))) as [->|]; [congruence|].
  by rewrite list_lookup_insert_ne.
Qed.

(** The six walks of the fuzzer: 1/1, 2/1, 4/1, 8/8, 16/8 and 32/8. *)
Definition flip_kind (flipnum flipstep : Z) : Prop :=
  flipstep = 1 ∧ (flipnum = 1 ∨ flipnum = 2 ∨ flipnum = 4) ∨
  flipstep = 8 ∧ (flipnum = 8 ∨ flipnum = 16 ∨ flipnum = 32).

(** What a walk submits: the file with [flipnum] bits inverted, at every
    [flipstep]th position where they fit; 16/8 and 32/8 need a useful byte. *)
Definition walk_at (len flipnum flipstep : Z) (u : list bool) (f : list Z) (k : Z)
    : list (list Z) :=
  let stageCur := k * flipstep in
  if bool_decide (flipnum = 8 ∨ flipstep ≠ 8) ||
     any_set u (Z.shiftr stageCur 3) (Z.to_nat (flipnum / flipstep))
  then [take (Z.to_nat len) (flip_bits f stageCur flipnum)] else [].
Definition walk (len flipnum flipstep : Z) (u : list bool) (f : list Z) : list (list Z) :=
  concat (walk_at len flipnum flipstep u f <$> seqZ 0 ((8 * len - flipnum) / flipstep + 1)).

(** The bits are inverted, the file is submitted, the bits are put back, and the
    walk learns from the run. *)
Lemma wp_flip_probe len fn fs qCur stageMax k acc s0 s :
  ready len s0 → len <= MAX_FILE_LEN → flip_kind fn fs → zlen s0.(filemap) = len →
  (qCur < length (seeds s0.(world)))%nat →
  0 <= k → k * fs + fn <= 8 * len → acc_ok acc → walking fn fs s0 s →
  wp (flip_run (k * fs) fn ;; try_unit len ;; flip_run (k * fs) fn ;;
    (if decide (fn = 1 ∧ fs = 1) then collect_token map_size qCur stageMax (k * fs) acc
     else if decide (fn = 8 ∧ fs = 8) then mark_useful map_size qCur (k * fs) ;; mret acc
     else mret acc))
    (λ acc' s', acc_ok acc' ∧ walking fn fs s0 s' ∧ s'.(submitted) =
       s.(submitted) ++ [take (Z.to_nat len) (flip_bits s0.(filemap) (k * fs) fn)])
    (λ r s', r = 1 ∧ s'.(submitted) `prefix_of`
       s.(submitted) ++ [take (Z.to_nat len) (flip_bits s0.(filemap) (k * fs) fn)])
    (λ _ _, True) s.
Proof.
  intros [Hinv Hb Hl Hul] Hmax Hk Hlen Hq Hk0 Hfit Hacc Hw.
  assert (0 < fs ∧ 0 < fn) as [Hfs Hfn] by (unfold flip_kind in Hk; lia).
  assert (0 <= k * fs) as Hst by nia. assert (MAX_FILE_LEN = 2 ^ 20) as HM by done.
  pose proof Hw as [Hf _ _ _ _ _ _ _ _ [Hmlen _]].
  assert (0 <= Z.shiftr (k * fs) 3 /\ Z.shiftr (k * fs) 3 < len) as [Hi0 Hi].
  { rewrite Z.shiftr_div_pow2 by lia.
    split; [by apply Z.div_pos; lia|apply Z.div_lt_upper_bound; lia]. }
  wp_steps. apply wp_flip_run; [lia|lia|rewrite Hf; lia|rewrite Hf; lia|]. wp_steps. unfold try_unit.
  wp_steps. rewrite Hf. apply wp_fuzz_unit; [apply Hw|by apply flip_bits_u8| |].
  { cbn [filemap set_filemap]. unfold zlen in *. rewrite length_flip_bits. lia. }
  intros r w' _ Hw' Hg' Hc'. cbn [filemap set_filemap submitted]. wp_steps; [|done].
  apply wp_flip_run; cbn [filemap set_filemap set_world set_submitted];
    [lia|lia|unfold zlen in *; rewrite length_flip_bits; lia..|].
  rewrite flip_bits_twice.
  match goal with |- wp _ _ _ _ ?s' =>
    assert (walking fn fs s0 s') as Hw2;
    [rewrite <-Hf; by apply (walking_unit fn fs s0 s w' _ Hw)|
     assert (s'.(submitted) = s.(submitted) ++
       [take (Z.to_nat len) (flip_bits s0.(filemap) (k * fs) fn)]) as Hs2 by done;
     remember s' as s2 eqn:Es2; clear Es2]
  end.
  wp_steps; try done.
  - destruct_and!; subst fn fs. eapply wp_conseq; [eapply wp_collect_token; done || lia|].
    rewrite <-Hs2. auto.
  - destruct_and!; subst fn fs.
    eapply wp_conseq; [eapply wp_mark_useful; done || (unfold zlen in *; lia)|].
    intros [] s3 [? ?]. wp_steps. rewrite <-Hs2. auto.
Qed.

Lemma wp_BitFlip_step len fn fs qCur stageMax k acc s0 s :
  ready len s0 → len <= MAX_FILE_LEN → flip_kind fn fs → zlen s0.(filemap) = len →
  (qCur < length (seeds s0.(world)))%nat →
  0 <= k → k * fs + fn <= 8 * len → acc_ok acc → walking fn fs s0 s →
  wp (BitFlip_step map_size len fn fs qCur stageMax (k * fs) acc)
    (λ acc' s', acc_ok acc' ∧ walking fn fs s0 s' ∧
       s'.(submitted) = s.(submitted) ++ walk_at len fn fs s0.(useful_byte) s0.(filemap) k)
    (λ r s', r = 1 ∧
       s'.(submitted) `prefix_of` s.(submitted) ++ walk_at len fn fs s0.(useful_byte) s0.(filemap) k)
    (λ _ _, True) s.
Proof.
  intros Hr Hmax Hk Hlen Hq Hk0 Hfit Hacc Hw. pose proof Hr as [Hinv Hb Hl Hul].
  assert (0 < fs ∧ 0 < fn) as [Hfs Hfn] by (unfold flip_kind in Hk; lia).
  assert (0 <= k * fs) as Hst by nia. assert (MAX_FILE_LEN = 2 ^ 20) as HM by done.
  pose proof Hw as [Hf _ _ _ _ _ _ _ Huse [Hmlen _]].
  pose proof (wp_flip_probe len fn fs qCur stageMax k acc s0 s) as Hrun.
  specialize (Hrun Hr Hmax Hk Hlen Hq Hk0 Hfit Hacc Hw).
  assert (wp (mret acc) (λ acc' s', acc_ok acc' ∧ walking fn fs s0 s' ∧ s'.(submitted) = s.(submitted) ++ [])
    (λ r s', r = 1 ∧ s'.(submitted) `prefix_of` s.(submitted) ++ []) (λ _ _, True) s) as Hskip.
  { wp_steps. by rewrite app_nil_r. }
  unfold BitFlip_step, walk_at. apply wp_bind, wp_ifd; intros Hc.
  - destruct_and!. rewrite bool_decide_eq_false_2 by tauto. cbn [orb].
    assert (useful_byte s = useful_byte s0) as Hu by (apply Huse; tauto).
    apply wp_any_useful; [rewrite Z.shiftr_div_pow2 by lia; by apply Z.div_pos; lia| |].
    { rewrite Hu, Z2Nat.id by (apply Z.div_pos; lia). rewrite Z.shiftr_div_pow2 by lia.
      subst fs. replace (k * 8) with (k * 2 ^ 3) by lia. rewrite Z.div_mul by lia.
      assert (fn = 8 * (fn / 8)); [|lia].
      unfold flip_kind in Hk. destruct Hk as [[? _]|[_ [->|[->| ->]]]]; done. }
    rewrite Hu. by destruct (any_set _ _ _).
  - apply wp_mret. rewrite bool_decide_eq_true_2; [exact Hrun|]. destruct (decide (fs = 8)); [left|by right].
    destruct (decide (fn = 8)); tauto.
Qed.

(** The number of places, and that the last one lies inside of the file. *)
Lemma walk_count len flipnum flipstep : flip_kind flipnum flipstep →
  let n := (8 * len - flipnum) / flipstep + 1 in
  (len * 8 - (flipnum - flipstep) + flipstep - 1) / flipstep = n ∧ (n - 1) * flipstep + flipnum <= 8 * len.
Proof.
  intros Hk n. subst n. unfold flip_kind in Hk.
  destruct Hk as [[-> _]|[-> [->|[->| ->]]]]; rewrite ?Z.div_1_r; split; try lia.
  all: Z.div_mod_to_equations; lia.
Qed.

Lemma walk_split len fn fs u f k : 0 <= k < (8 * len - fn) / fs + 1 →
  walk len fn fs u f = concat (walk_at len fn fs u f <$> seqZ 0 k) ++ walk_at len fn fs u f k ++
    concat (walk_at len fn fs u f <$> seqZ (k + 1) ((8 * len - fn) / fs + 1 - (k + 1))).
Proof.
  intros Hk. unfold walk. set (n := _ + 1) in *. replace n with (k + (1 + (n - (k + 1)))) at 1 by lia.
  rewrite !seqZ_app by lia. change (seqZ (0 + k) 1) with [k].
  rewrite !fmap_app, !concat_app. cbn [fmap list_fmap concat]. by rewrite app_nil_r, Z.add_0_l.
Qed.

End bitflip.

(** ** Dictionary *)

(** What [DictionaryReplace] submits at position [i]: the tokens that fit, that
    differ from the file there and that touch a useful byte. *)
Definition replace_at (len : Z) (u : list bool) (f : list Z) (i : Z) (token : list Z * Z)
    : list (list Z) :=
  if decide (zlen token.1 <= len - i ∧ take (length token.1) (drop (Z.to_nat i) f) ≠ token.1 ∧
             any_set u i (length token.1) = true)
  then [take (Z.to_nat len) (put f i token.1)] else [].
Definition replacements (len : Z) (u : list bool) (f : list Z) (MVector : list (list Z * Z))
    : list (list Z) :=
  concat ((λ i, concat (replace_at len u f i <$> MVector)) <$> seqZ 0 len).

(** What [DictionaryInsert] submits: each token at each position, as long as
    the result is not too long. *)
Definition insert_at (len : Z) (f : list Z) (i : Z) (token : list Z * Z) : list (list Z) :=
  if decide (len + zlen token.1 <= MAX_FILE_LEN)
  then [take (Z.to_nat i) f ++ token.1 ++ take (Z.to_nat (len - i)) (drop (Z.to_nat i) f)] else [].
Definition insertions (len : Z) (f : list Z) (MVector : list (list Z * Z)) : list (list Z) :=
  concat ((λ i, concat (insert_at len f i <$> MVector)) <$> seqZ 0 len).

Lemma put_put f i v t : 0 <= i → i + zlen t <= zlen f → zlen v <= zlen t →
  put (put f i v) i t = put f i t.
Proof.
  intros Hi Hl Hv. unfold put, zlen in *.
  assert (length (take (Z.to_nat i) f) = Z.to_nat i) as Ht by (rewrite length_take; lia).
  rewrite take_app_le by lia. rewrite take_take, Nat.min_id. f_equal. f_equal.
  rewrite drop_app_ge by lia. rewrite Ht.
  replace (Z.to_nat i + length t - Z.to_nat i)%nat with (length t) by lia.
  rewrite drop_app_ge by lia. rewrite drop_drop. f_equal. lia.
Qed.

Section dictionary.
Context {W : Type} `{!Target W, !TargetOK W}.
Implicit Types s : fuzz W.

(** A prefix of at most [n] bytes at [i] was overwritten. *)
Definition at_patch s0 (f : list Z) (i n : Z) s : Prop :=
  ∃ v, zlen v <= n ∧ at_file s0 (put f i v) s.

(** The tokens are sorted by length, so that each covers the one before. *)
Definition by_len (l : list (list Z * Z)) : Prop :=
  StronglySorted (λ a b, zlen a.1 <= zlen b.1) l.

Lemma emits_replace_body s0 f len i n token :
  let orig := take (Z.to_nat (Z.min MAX_TOKEN_SIZE (len - i))) (drop (Z.to_nat i) f) in
  0 <= i < len → len <= zlen f → len <= zlen s0.(useful_byte) → Forall is_u8 f →
  token_ok token → n <= zlen token.1 →
  emits (replace_body len i orig token) (at_patch s0 f i n)
    (at_patch s0 f i (if decide (zlen token.1 <= len - i) then zlen token.1 else n))
    (replace_at len s0.(useful_byte) f i token).
Proof.
  intros orig Hi Hl Hul Hf [Htl Htb] Hn s (v&Hv&Hs). unfold replace_body, replace_at.
  assert (∀ n', n <= n' → at_patch s0 f i n' s) as Hskip by (intros n' Hn'; exists v; split; [lia|done]).
  assert (∀ n', n <= n' → wp (mret tt) (λ _ s', at_patch s0 f i n' s' ∧ s'.(submitted) = s.(submitted) ++ [])
    (λ r s', r = 1 ∧ s'.(submitted) `prefix_of` s.(submitted) ++ []) (λ _ _, True) s) as Hret.
  { intros n' Hn'. apply wp_mret. rewrite app_nil_r. auto. }
  apply wp_ifd; intros Hfit.
  { rewrite !decide_False by lia. by apply Hret. }
  rewrite (decide_True (P := zlen _ <= _)) by lia. apply wp_bind.
  assert (slice orig 0 (zlen token.1) = Some (take (length token.1) (drop (Z.to_nat i) f))) as Hsl.
  { subst orig. rewrite slice_is_Some.
    - rewrite drop_0, take_take. do 2 f_equal. unfold zlen in *. lia.
    - done.
    - apply zlen_nonneg.
    - unfold zlen in *. rewrite length_take, length_drop. lia. }
  eapply wp_from_option; [exact Hsl|]. apply wp_ifd; intros Hsame.
  { rewrite decide_False by tauto. by apply Hret. }
  apply wp_bind. apply wp_any_useful; [lia|rewrite (af_useful _ _ _ Hs); unfold zlen in *; lia|].
  rewrite (af_useful _ _ _ Hs). unfold zlen at 1. rewrite Nat2Z.id.
  destruct (any_set _ i _) eqn:Hset; cbn [negb];
    [|rewrite decide_False by (intros (_&_&?); congruence); by apply Hret].
  rewrite decide_True by (split; [lia|done]).
  apply wp_bind. pose proof Hs as [Hfm Hu Hinv Hg Hc Hln Hus Ha Hp].
  assert (zlen (put f i v) = zlen f) as Hz by (apply zlen_put; lia).
  eapply wp_update; [rewrite Hfm, blit_put by (rewrite ?Hz; lia); reflexivity|].
  rewrite put_put by lia.
  eapply wp_mono; [apply (emits_try s0 (put f i token.1) len)| |by intros|done].
  - rewrite zlen_put; lia.
  - split; try done. by apply put_bytes.
  - intros [] s' [? ?]. split; [by exists token.1|done].
Qed.

Lemma emits_replace_tokens s0 f len i l n :
  let orig := take (Z.to_nat (Z.min MAX_TOKEN_SIZE (len - i))) (drop (Z.to_nat i) f) in
  0 <= i < len → len <= zlen f → len <= zlen s0.(useful_byte) → Forall is_u8 f →
  Forall token_ok l → by_len l → Forall (λ t, n <= zlen t.1) l →
  n <= Z.min MAX_TOKEN_SIZE (len - i) →
  emits (for_each l (replace_body len i orig)) (at_patch s0 f i n)
    (at_patch s0 f i (Z.min MAX_TOKEN_SIZE (len - i)))
    (concat (replace_at len s0.(useful_byte) f i <$> l)).
Proof.
  intros orig Hi Hl Hul Hf. revert n.
  induction l as [|t l IH]; intros n Hok Hs Hn Hn'; cbn [for_each fmap list_fmap concat].
  - eapply emits_conseq; [done| |apply emits_nil]. intros s (v&Hv&?). exists v. split; [lia|done].
  - apply Forall_cons_iff in Hok as [Ht Hok]. apply Forall_cons_iff in Hn as [Hnt Hn].
    apply StronglySorted_inv in Hs as [Hs Hts].
    eapply emits_seq; [by apply emits_replace_body|]. apply IH; [done|done| |].
    + case_decide; [exact Hts|done].
    + destruct Ht. case_decide; lia.
Qed.

Lemma DictionaryReplace_submits len MVector s : ready len s → Forall token_ok MVector →
  by_len MVector →
  submits (DictionaryReplace len MVector) s
    (replacements len s.(useful_byte) s.(filemap) MVector).
Proof.
  intros Hr Hok Hs. pose proof Hr as [Hinv Hb Hl Hul]. unfold DictionaryReplace.
  eapply submits_return; [done|]. unfold replacements.
  replace (seqZ 0 len) with (seqZ 0 (len - 0)) by (f_equal; lia).
  apply emits_for_range; [lia|]. intros i Hi s1 Hs1.
  pose proof Hs1 as [Hfm Hu Hinv1 Hg Hc Hln Hus Ha Hp].
  set (orig := take (Z.to_nat (Z.min MAX_TOKEN_SIZE (len - i))) (drop (Z.to_nat i) s.(filemap))).
  assert (zlen orig = Z.min MAX_TOKEN_SIZE (len - i)) as Hzo.
  { subst orig. unfold zlen, MAX_TOKEN_SIZE in *. rewrite length_take, length_drop. lia. }
  apply wp_bind. eapply wp_from_option.
  { rewrite Hfm, slice_is_Some by (unfold MAX_TOKEN_SIZE; lia). reflexivity. }
  fold orig.
  rewrite <-(app_nil_r (concat _)).
  apply (emits_seq _ _ (at_patch s s.(filemap) i 0)
    (at_patch s s.(filemap) i (Z.min MAX_TOKEN_SIZE (len - i)))).
  - apply emits_replace_tokens; try (done || lia).
    + eapply Forall_impl; [|exact Hok]. intros t [? _]. unfold MIN_TOKEN_SIZE in *. lia.
    + unfold MAX_TOKEN_SIZE. lia.
  - apply emits_silent. intros s2 (v&Hv&[Hfm2 Hu2 Hinv2 Hg2 Hc2 Hln2 Hus2 Ha2 Hp2]).
    assert (put s.(filemap) i orig = s.(filemap)) as Hrest.
    { assert (blit s.(filemap) i orig = Some s.(filemap)) as Hbl
        by (apply (blit_slice _ _ (Z.min MAX_TOKEN_SIZE (len - i))), slice_is_Some;
            unfold MAX_TOKEN_SIZE in *; lia).
      rewrite blit_put in Hbl by (unfold MAX_TOKEN_SIZE in *; lia). by injection Hbl. }
    eapply wp_update.
    { rewrite Hfm2, blit_put by (rewrite ?zlen_put; unfold MAX_TOKEN_SIZE in *; lia). reflexivity. }
    rewrite put_put, Hrest by (unfold MAX_TOKEN_SIZE in *; lia). by split.
  - exists []. split; [done|]. unfold put. cbn [app length]. by rewrite Nat.add_0_r, take_drop.
Qed.

Lemma wp_try_buffer s0 f temp n s : at_file s0 f s → 0 <= n <= zlen temp →
  Forall is_u8 (take (Z.to_nat n) temp) →
  wp (try_buffer temp n)
    (λ _ s', at_file s0 f s' ∧ s'.(submitted) = s.(submitted) ++ [take (Z.to_nat n) temp])
    (λ r s', r = 1 ∧ s'.(submitted) `prefix_of` s.(submitted) ++ [take (Z.to_nat n) temp])
    (λ _ _, True) s.
Proof.
  intros [Hfm Hu Hinv Hg Hc Hln Hus Ha Hp] Hn Hb. unfold try_buffer. wp_steps.
  eapply wp_from_option; [apply slice_is_Some; lia|]. rewrite drop_0. wp_steps. apply wp_zoom.
  eapply wp_mono; [by apply FuzzUnit_ok| |done|done]. intros r w' (?&?&?&Hc'). wp_steps; [|done].
  split; [|done]. split; try done; [by eapply grows_trans|]. by etrans; [exact Hc'|].
Qed.

(** The buffer of [DictionaryInsert] after the token and the tail of the file
    were copied to it. *)
Lemma insert_buffer f temp len i t : 0 <= i <= len → len <= zlen f →
  zlen temp = len + MAX_TOKEN_SIZE → zlen t <= MAX_TOKEN_SIZE →
  take (Z.to_nat i) temp = take (Z.to_nat i) f →
  let tail := take (Z.to_nat (len - i)) (drop (Z.to_nat i) f) in
  ∃ temp', blit temp i t = Some (put temp i t) ∧
    blit (put temp i t) (i + zlen t) tail = Some temp' ∧
    zlen temp' = len + MAX_TOKEN_SIZE ∧ take (Z.to_nat i) temp' = take (Z.to_nat i) f ∧
    take (Z.to_nat (len + zlen t)) temp' = take (Z.to_nat i) f ++ t ++ tail.
Proof.
  intros Hi Hl Hz Ht Htk tail. pose proof (zlen_nonneg t) as H0.
  assert (zlen tail = len - i) as Htl
    by (subst tail; unfold zlen in *; rewrite length_take, length_drop; lia).
  exists (put (put temp i t) (i + zlen t) tail).
  assert (zlen (put temp i t) = zlen temp) as Hz1 by (apply zlen_put; lia).
  split; [apply blit_put; lia|]. split; [apply blit_put; lia|].
  split; [rewrite zlen_put; lia|].
  assert (length (take (Z.to_nat i) f) = Z.to_nat i) as Hli by (unfold zlen in *; rewrite length_take; lia).
  assert (take (Z.to_nat (i + zlen t)) (put temp i t) = take (Z.to_nat i) f ++ t) as Hhead.
  { unfold put. rewrite Htk, app_assoc, take_app_le by (rewrite length_app; unfold zlen; lia).
    apply take_ge. rewrite length_app. unfold zlen. lia. }
  unfold put at 1 3. rewrite Hhead. split.
  - rewrite <-!app_assoc. rewrite take_app_le by lia. by rewrite take_take, Nat.min_id.
  - rewrite <-!app_assoc, !app_assoc. rewrite take_app_le.
    + apply take_ge. rewrite !length_app. unfold zlen in *. lia.
    + rewrite !length_app. unfold zlen in *. lia.
Qed.

Lemma wp_insert_tokens s0 f len i l temp s : at_file s0 f s → 0 <= i < len → len <= zlen f →
  Forall token_ok l → zlen temp = len + MAX_TOKEN_SIZE →
  take (Z.to_nat i) temp = take (Z.to_nat i) f →
  wp (insert_tokens len i l temp)
    (λ temp' s', zlen temp' = len + MAX_TOKEN_SIZE ∧
       take (Z.to_nat i) temp' = take (Z.to_nat i) f ∧ at_file s0 f s' ∧
       s'.(submitted) = s.(submitted) ++ concat (insert_at len f i <$> l))
    (λ r s', r = 1 ∧
       s'.(submitted) `prefix_of` s.(submitted) ++ concat (insert_at len f i <$> l))
    (λ _ _, True) s.
Proof.
  intros Hs Hi Hl. revert temp s Hs.
  induction l as [|t l IH]; intros temp s Hs Hok Hz Htk; cbn [insert_tokens fmap list_fmap concat].
  { apply wp_mret. by rewrite app_nil_r. }
  apply Forall_cons_iff in Hok as [Ht Hok]. unfold insert_at at 1 3.
  apply wp_ifd; intros Hfit.
  { rewrite decide_False by lia. by apply IH. }
  rewrite decide_True by lia. pose proof Hs as [Hfm Hu _ _ _ _ _ _ _].
  destruct (insert_buffer f temp len i t.1) as (temp'&Hb1&Hb2&Hz'&Htk'&Hall);
    [lia|lia|done|by destruct Ht as [[_ ?] _]|done|].
  wp_steps. eapply wp_from_option; [rewrite Hfm; apply slice_is_Some; lia|]. wp_steps.
  eapply wp_from_option; [exact Hb1|]. wp_steps. eapply wp_from_option; [exact Hb2|]. wp_steps.
  rewrite <-Hall. pose proof (zlen_nonneg t.1).
  eapply wp_mono; [eapply wp_try_buffer; [done| |]| | |done].
  - destruct Ht. lia.
  - rewrite Hall. apply Forall_app_2; [by apply Forall_take|].
    apply Forall_app_2; [by destruct Ht|by apply Forall_take, Forall_drop].
  - intros [] s1 [Hs1 E1]. eapply wp_mono; [by apply (IH temp' s1)| | |done].
    + intros temp2 s2 (?&?&?&E2). split; [done|]. split; [done|]. split; [done|].
      by rewrite E2, E1, app_assoc.
    + intros r s2 [-> Hp]. split; [done|]. by rewrite app_assoc, <-E1.
  - intros r s1 [-> Hp]. split; [done|]. rewrite app_assoc. by apply prefix_app_r.
Qed.

Lemma DictionaryInsert_submits len MVector temp s : ready len s → Forall token_ok MVector →
  zlen temp = len + MAX_TOKEN_SIZE →
  submits (DictionaryInsert len MVector temp) s (insertions len s.(filemap) MVector).
Proof.
  intros Hr Hok Hz. pose proof Hr as [Hinv Hb Hl Hul]. unfold DictionaryInsert, submits.
  set (X := λ i, concat (insert_at len s.(filemap) i <$> MVector)).
  assert (∀ k, 0 <= k < len → insertions len s.(filemap) MVector =
    concat (X <$> seqZ 0 k) ++ X k ++ concat (X <$> seqZ (k + 1) (len - (k + 1)))) as Hsplit.
  { intros k Hk. unfold insertions. fold X. replace len with (k + (1 + (len - (k + 1)))) at 1 by lia.
    rewrite !seqZ_app by lia. change (seqZ (0 + k) 1) with [k].
    rewrite !fmap_app, !concat_app. cbn [fmap list_fmap concat]. by rewrite app_nil_r, Z.add_0_l. }
  apply wp_bind. eapply wp_mono; [apply (wp_for_fold _ _ _ _ _ (λ i temp' s',
    zlen temp' = len + MAX_TOKEN_SIZE ∧ take (Z.to_nat i) temp' = take (Z.to_nat i) s.(filemap) ∧
    at_file s s.(filemap) s' ∧ s'.(submitted) = s.(submitted) ++ concat (X <$> seqZ 0 i))
    (λ r s', r = 1 ∧ s'.(submitted) `prefix_of` s.(submitted) ++ insertions len s.(filemap) MVector)
    (λ _ _, True))| |auto|done].
  - split; [done|]. split; [done|]. split; [by eapply ready_at_file|]. by rewrite app_nil_r.
  - intros k temp1 s1 Hk (Hz1&Ht1&Hs1&E1).
    replace (0 + k * 1) with k in * by lia. replace (0 + (k + 1) * 1) with (k + 1) by lia.
    apply wp_bind. eapply wp_mono; [apply (wp_insert_tokens s s.(filemap)); try done; lia| | |done].
    + intros temp2 s2 (Hz2&Ht2&Hs2&E2). wp_steps.
      eapply wp_from_option; [rewrite (af_file _ _ _ Hs2); apply slice_is_Some; lia|].
      set (b := take (Z.to_nat 1) (drop (Z.to_nat k) s.(filemap))).
      assert (zlen b = 1) as Hzb by (subst b; unfold zlen in *; rewrite length_take, length_drop; lia).
      eapply wp_from_option; [apply blit_put; unfold MAX_TOKEN_SIZE in *; lia|].
      split; [rewrite zlen_put; unfold MAX_TOKEN_SIZE in *; lia|]. split; [|split; [done|]].
      * unfold put. rewrite Ht2. replace (Z.to_nat (k + 1)) with (Z.to_nat k + 1)%nat by lia.
        assert (length (take (Z.to_nat k) s.(filemap)) = Z.to_nat k) as Hlk
          by (rewrite length_take; unfold zlen in *; lia).
        assert (length b = 1%nat) as Hlb by (unfold zlen in Hzb; lia).
        rewrite <-(take_take_drop s.(filemap)). change (take 1 _) with b.
        rewrite app_assoc, take_app_le; [apply take_ge|]; rewrite length_app, Hlk, Hlb; lia.
      * rewrite E2, E1, seqZ_snoc by lia. rewrite fmap_app, concat_app.
        cbn [fmap list_fmap concat]. by rewrite app_nil_r, app_assoc, Z.add_0_l.
    + intros r s2 [-> Hp]. split; [done|]. rewrite E1 in Hp. rewrite (Hsplit k) by lia.
      rewrite !app_assoc in *. by apply prefix_app_r.
  - intros temp' s' (_&_&Hs'&E'). wp_steps. left. split; [done|]. split; [done|].
    rewrite E'. unfold insertions. fold X.
    by replace (0 + Z.of_nat (Z.to_nat len) * 1) with len by lia.
Qed.

(** What is known of [std::sort]: the elements stay, and come out in order. *)
Definition sorts (sort : (list Z * Z → list Z * Z → bool) → list (list Z * Z) → list (list Z * Z))
    : Prop :=
  (∀ cmp l, sort cmp l ≡ₚ l) ∧ (∀ l, by_len (sort CompareMVectorStringLen l)).

(** The tokens that [Dictionary] uses: all of them, or the first 50 in the
    order of their counts, by length. *)
Definition dictionary_tokens
    (sort : (list Z * Z → list Z * Z → bool) → list (list Z * Z) → list (list Z * Z))
    (m : list (list Z * Z)) : list (list Z * Z) :=
  sort CompareMVectorStringLen
    (if decide (zlen m > MAX_TOKEN_NUM)
     then take (Z.to_nat MAX_TOKEN_NUM) (sort CompareMVectorValue m) else m).

(** [Dictionary] submits the replacements and then the insertions of at most
    50 tokens, in whichever order [std::sort] leaves equal ones; both buffers are
    kept to, and the file is as it was afterwards. *)
Theorem Dictionary_submits sort len temp s :
  sorts sort → ready len s → tokens_ok s.(autoToken) → zlen temp = len + MAX_TOKEN_SIZE →
  let MVector := dictionary_tokens sort s.(autoToken) in
  submits (Dictionary sort len temp) s
    (replacements len s.(useful_byte) s.(filemap) MVector ++ insertions len s.(filemap) MVector) ∧
  zlen MVector <= MAX_TOKEN_NUM.
Proof.
  intros [Hperm Hlen] Hr [_ Hok] Hz MVector.
  assert (Forall token_ok MVector ∧ zlen MVector <= MAX_TOKEN_NUM) as [HokM Hmax].
  { assert (∃ m, MVector ≡ₚ m ∧ Forall token_ok m ∧ zlen m <= MAX_TOKEN_NUM) as (m&Hp&Hm&Hzm).
    { eexists. split; [apply Hperm|]. case_decide.
      - split; [by apply Forall_take; rewrite Hperm|]. unfold zlen. rewrite length_take.
        unfold MAX_TOKEN_NUM. lia.
      - split; [done|]. lia. }
    split; [by rewrite Hp|]. unfold zlen. by rewrite Hp. }
  split; [|done]. unfold Dictionary, submits. wp_steps. fold (dictionary_tokens sort s.(autoToken)).
  fold MVector. apply wp_call.
  eapply wp_mono; [by apply DictionaryReplace_submits; [..|apply Hlen]|done| |done].
  intros r s1 [(->&Hs1&E1)|[-> Hp]]; wp_steps; try done; try lia.
  - apply wp_call. pose proof Hs1 as [Hfm Hu Hinv Hg Hc Hln Hus Ha Hp].
    assert (ready len s1) as Hr1
      by (destruct Hr; split; [done|by rewrite Hfm|by rewrite Hfm|by rewrite Hus]).
    pose proof (DictionaryInsert_submits len MVector temp s1 Hr1 HokM Hz) as HI.
    rewrite Hfm in HI. eapply wp_mono; [exact HI|done| |done].
    rewrite E1, <-app_assoc. intros r s2 [(->&Hs2&E2)|[-> Hp2]]; wp_steps; try done; try lia;
      [|by right].
    left. split; [done|]. split; [|done].
    destruct Hs2. split; try done; try congruence. by eapply grows_trans.
  - right. split; [done|]. rewrite app_assoc. by apply prefix_app_r.
Qed.
End dictionary.

(** ** A target that finds nothing

    Used to evaluate the stages on concrete files. *)
Record quiet := Quiet { quiet_seeds : list seed }.

#[export] Instance quiet_target : Target quiet := {|
  FuzzUnit := λ _, mret 0;
  globalTraceBit := λ _, [];
  seeds := quiet_seeds;
  queueCycle := λ _, 1;
  rand := mret 0;
  read_file := λ _, mret None;
|}.

#[export] Instance quiet_ok : TargetOK quiet.
Proof.
  refine {| t_inv := λ w, Forall (λ e, 0 <= e.(fileLen) < 2 ^ 28) w.(quiet_seeds) ∧
                          zlen w.(quiet_seeds) < 2 ^ 32 |}.
  - intros buf w [] _. apply wp_mret. unfold grows. by repeat split.
  - intros w []. apply wp_mret. by repeat split.
  - intros name w []. apply wp_mret. by repeat split.
  - by intros w [].
  - by intros w [].
Defined.

(** A file of four bytes, all useful, and one seed. *)
Definition demo : fuzz quiet :=
  Fuzz [1; 2; 200; 4] 4 [true; true; true; true] [([7; 8; 9], 1)] [] []
    (Quiet [new_seed "a" 4 None None]).

Lemma demo_ready : ready 4 demo.
Proof.
  split; [split; [constructor; [cbn; lia|constructor]|done]| |unfold zlen; cbn; lia|unfold zlen; cbn; lia].
  apply (bool_decide_unpack _). vm_compute. exact I.
Qed.

Lemma demo_tokens : tokens_ok demo.(autoToken).
Proof.
  split; [repeat constructor|]. constructor; [|constructor]. split; [done|].
  apply (bool_decide_unpack _). vm_compute. exact I.
Qed.

Section summary.
Context {W : Type} `{!Target W, !TargetOK W}.
Implicit Types s : fuzz W.

(** The arithmetic stages submit, for each position with a useful byte and
    each [j] up to [ARITH_MAX], the words [orig + j] and [orig - j] in both byte
    orders as the lists [arith8_words], [arith16_words] and [arith32_words] say:
    without those for which [could_be_bitflip] holds, and for the wider words only
    where the carry reaches the other half.  They stay inside of the buffers and
    leave the file, the tokens and the useful bytes as they were. *)
Theorem Arithmetic_submits len s : ready len s →
  submits (Arithmetic8 len) s (variants 1 len s.(useful_byte) arith8_words s.(filemap)) ∧
  submits (Arithmetic16 len) s (variants 2 len s.(useful_byte) arith16_words s.(filemap)) ∧
  submits (Arithmetic32 len) s (variants 4 len s.(useful_byte) arith32_words s.(filemap)).
Proof.
  intros Hr. split; [by apply Arithmetic8_submits|].
  split; [by apply Arithmetic16_submits|by apply Arithmetic32_submits].
Qed.

(** The stages of interesting values submit, for each position with a useful
    byte, the values of their tables for which none of the predicates says that
    an earlier stage tried them, and leave the file as it was. *)
Theorem Interesting_submits len s : ready len s →
  submits (InterestingReplace8 len) s
    (variants 1 len s.(useful_byte) interest8_words s.(filemap)) ∧
  submits (InterestingReplace16 len) s
    (variants 2 len s.(useful_byte) interest16_words s.(filemap)) ∧
  submits (InterestingReplace32 len) s
    (variants 4 len s.(useful_byte) interest32_words s.(filemap)).
Proof.
  intros Hr. split; [by apply InterestingReplace8_submits|].
  split; [by apply InterestingReplace16_submits|by apply InterestingReplace32_submits].
Qed.
End summary.

Lemma Arithmetic_submits_witness :
  submits (Arithmetic8 4) demo (variants 1 4 demo.(useful_byte) arith8_words demo.(filemap)) ∧
  submits (Arithmetic16 4) demo (variants 2 4 demo.(useful_byte) arith16_words demo.(filemap)) ∧
  submits (Arithmetic32 4) demo (variants 4 4 demo.(useful_byte) arith32_words demo.(filemap)).
Proof. apply Arithmetic_submits. apply demo_ready. Defined.

Lemma Interesting_submits_witness :
  submits (InterestingReplace8 4) demo
    (variants 1 4 demo.(useful_byte) interest8_words demo.(filemap)) ∧
  submits (InterestingReplace16 4) demo
    (variants 2 4 demo.(useful_byte) interest16_words demo.(filemap)) ∧
  submits (InterestingReplace32 4) demo
    (variants 4 4 demo.(useful_byte) interest32_words demo.(filemap)).
Proof. apply Interesting_submits. apply demo_ready. Defined.


(** One of the orders that [std::sort] may choose. *)
Definition some_sort (cmp : list Z * Z → list Z * Z → bool) (l : list (list Z * Z))
    : list (list Z * Z) :=
  @merge_sort _ (λ a b, cmp b a = false) (λ a b, decide (cmp b a = false)) l.

Lemma some_sort_sorts : sorts some_sort.
Proof.
  split.
  - intros cmp l. apply merge_sort_Permutation.
  - intros l. unfold some_sort, by_len.
    assert (∀ a b, CompareMVectorStringLen b a = false ↔ zlen a.1 <= zlen b.1) as Hle.
    { intros a b. unfold CompareMVectorStringLen. rewrite bool_decide_eq_false. lia. }
    assert (Transitive (λ a b, CompareMVectorStringLen b a = false)) as Ht.
    { intros a b c. rewrite !Hle. lia. }
    assert (Total (λ a b, CompareMVectorStringLen b a = false)) as HT.
    { intros a b. rewrite !Hle. lia. }
    pose proof (StronglySorted_merge_sort (λ a b, CompareMVectorStringLen b a = false)
      (H := λ a b, decide (CompareMVectorStringLen b a = false)) l) as Hs.
    induction Hs as [|a l' Hs IH Ha]; constructor; [done|].
    eapply Forall_impl; [|exact Ha]. intros b. apply Hle.
Qed.

Lemma Dictionary_submits_witness :
  let MVector := dictionary_tokens some_sort demo.(autoToken) in
  submits (Dictionary some_sort 4 (replicate 36 0)) demo
    (replacements 4 demo.(useful_byte) demo.(filemap) MVector ++
     insertions 4 demo.(filemap) MVector) ∧
  zlen MVector <= MAX_TOKEN_NUM.
Proof.
  apply (Dictionary_submits some_sort 4 (replicate 36 0) demo).
  - apply some_sort_sorts.
  - apply demo_ready.
  - apply demo_tokens.
  - reflexivity.
Defined.
