(* ===== verification/Skips.v ===== *)
(** * What the pruning of the deterministic stages leaves out

    [Arithmetic8/16/32] skip a word for which [could_be_bitflip] says that
    [BitFlip] produced it.  For bytes this is justified; for wider words it is not,
    because [FLIP_BIT] numbers the bits of a byte from the most significant one
    while the words are little-endian.  The test of [Arithmetic32] for a borrow in
    the big-endian word looks at the wrong half. *)

From S2P Require Import Prelude.
From S2P Require Import Queue.
From S2P Require Import Bits.
From S2P Require Import Stages.

(** The inversion of [n] bits of one byte from bit [p] on, counted from the
    most significant one. *)
Definition byte_mask (p n : Z) : Z := foldr Z.lxor 0 (Z.shiftr 128 <$> seqZ p n).

Lemma lookup_flip_bits f l i :
  foldl flip_bit1 f l !! i =
  (λ x, Z.lxor x (foldr Z.lxor 0 ((λ b, flip_mask b i) <$> l))) <$> f !! i.
Proof.
  revert f. induction l as [|b l IH]; intros f; cbn [foldl fmap list_fmap foldr].
  - destruct (f !! i); [|done]. cbn. by rewrite Z.lxor_0_r.
  - rewrite IH, lookup_flip_bit1. destruct (f !! i); [|done]. cbn. by rewrite Z.lxor_assoc.
Qed.

Lemma flip_mask_byte i r j : 0 <= r < 8 →
  flip_mask (8 * Z.of_nat i + r) j = if decide (j = i) then Z.shiftr 128 r else 0.
Proof.
  intros Hr. unfold flip_mask. rewrite Z.shiftr_div_pow2 by lia. change (2 ^ 3) with 8.
  change 7 with (Z.ones 3). rewrite Z.land_ones by lia. change (2 ^ 3) with 8.
  replace ((8 * Z.of_nat i + r) / 8) with (Z.of_nat i) by (Z.div_mod_to_equations; lia).
  replace ((8 * Z.of_nat i + r) mod 8) with r by (Z.div_mod_to_equations; lia).
  by rewrite Nat2Z.id.
Qed.

(** A run of bits inside of one byte changes that byte only. *)
Lemma flip_bits_byte f i x p n : f !! i = Some x → 0 <= p → 0 <= n → p + n <= 8 →
  flip_bits f (8 * Z.of_nat i + p) n = <[i := Z.lxor x (byte_mask p n)]> f.
Proof.
  intros Hx Hp Hn Hpn. apply list_eq. intros j. unfold flip_bits. rewrite lookup_flip_bits.
  assert (foldr Z.lxor 0 ((λ b, flip_mask b j) <$> seqZ (8 * Z.of_nat i + p) n) =
          if decide (j = i) then byte_mask p n else 0) as ->.
  { unfold byte_mask. unfold seqZ. rewrite <-!list_fmap_compose.
    assert (∀ m, (m < Z.to_nat (8 - p))%nat ∨ m = Z.to_nat (8 - p) → ∀ k,
      (k + m <= Z.to_nat (8 - p))%nat →
      foldr Z.lxor 0 (((λ b, flip_mask b j) ∘ (λ i0, Z.of_nat i0 + (8 * Z.of_nat i + p))) <$> seq k m)
      = if decide (j = i) then foldr Z.lxor 0 ((Z.shiftr 128 ∘ (λ i0, Z.of_nat i0 + p)) <$> seq k m)
        else 0) as Hgen.
    { induction m as [|m IH]; intros Hm k Hk; cbn [seq fmap list_fmap foldr]; [by case_decide|].
      rewrite IH by lia. cbn [compose].
      replace (Z.of_nat k + (8 * Z.of_nat i + p)) with (8 * Z.of_nat i + (Z.of_nat k + p)) by lia.
      rewrite flip_mask_byte by lia. case_decide; [done|apply Z.lxor_0_r]. }
    apply Hgen; lia. }
  destruct (decide (j = i)) as [->|Hne].
  - rewrite Hx, list_lookup_insert_eq by (by eapply lookup_lt_Some). done.
  - rewrite list_lookup_insert_ne by done. destruct (f !! j); [|done]. cbn. by rewrite Z.lxor_0_r.
Qed.

(** A byte that [could_be_bitflip] accepts is the inversion of 1, 2, 4 or 8
    neighbouring bits. *)
Definition masks : list (Z * Z) :=
  concat ((λ n, (λ p, (p, n)) <$> seqZ 0 (8 - n + 1)) <$> [1; 2; 4; 8]).

Lemma bitflip_mask x : is_u8 x → x ≠ 0 → could_be_bitflip x = true →
  ∃ p n, (p, n) ∈ masks ∧ byte_mask p n = x.
Proof.
  intros Hx H0 Hc.
  pose (P := λ x, (x =? 0) || negb (could_be_bitflip x) ||
                  existsb (λ pn, byte_mask pn.1 pn.2 =? x) masks).
  assert (P x = true) as HP by (by apply (u8_enum P); [vm_compute|]).
  unfold P in HP. rewrite Hc, (proj2 (Z.eqb_neq x 0) H0) in HP. cbn [negb orb] in HP.
  apply existsb_exists in HP as ([p n]&Hin&Heq). apply Z.eqb_eq in Heq.
  exists p, n. split; [by apply list_elem_of_In|done].
Qed.

Lemma masks_spec p n : (p, n) ∈ masks →
  0 <= p ∧ p + n <= 8 ∧ (n = 1 ∨ n = 2 ∨ n = 4 ∨ n = 8).
Proof.
  intros Hin.
  assert (forallb (λ pn, (0 <=? pn.1) && (pn.1 + pn.2 <=? 8) &&
    ((pn.2 =? 1) || (pn.2 =? 2) || (pn.2 =? 4) || (pn.2 =? 8))) masks = true) as Hall
    by (by vm_compute).
  apply list_elem_of_In in Hin. apply (proj1 (forallb_forall _ _) Hall) in Hin. cbn in Hin. lia.
Qed.

Lemma elem_of_walk len flipnum flipstep u f k :
  (flipnum = 8 ∨ flipstep ≠ 8) → 0 < flipstep → 0 <= k → k * flipstep + flipnum <= 8 * len →
  take (Z.to_nat len) (flip_bits f (k * flipstep) flipnum) ∈ walk len flipnum flipstep u f.
Proof.
  intros Hk Hfs H0 Hfit. unfold walk. apply list_elem_of_In, in_concat.
  exists (walk_at len flipnum flipstep u f k). split.
  - apply list_elem_of_In, list_elem_of_fmap. exists k. split; [done|]. apply elem_of_seqZ.
    split; [done|]. assert (k <= (8 * len - flipnum) / flipstep); [|lia].
    apply Z.div_le_lower_bound; lia.
  - unfold walk_at. rewrite bool_decide_eq_true_2 by done. by left.
Qed.

Lemma le_bytes_1 v : le_bytes 1 v = [u8 v].
Proof.
  pose proof (length_le_bytes 1 v) as Hl. pose proof (le_load_bytes 1 v) as Hv.
  pose proof (le_bytes_u8 1 v) as Hu. unfold zlen in Hl.
  destruct (le_bytes 1 v) as [|b [|c l]]; cbn [length] in Hl; [lia| |lia].
  apply Forall_inv in Hu; [|lia]. rewrite le_load_cons in Hv by done.
  change (le_load []) with 0 in Hv. f_equal. unfold u8. change (2 ^ 8) with (2 ^ (8 * 1)). rewrite <-Hv; lia.
Qed.

Lemma put_byte f i v : (i < length f)%nat → put f (Z.of_nat i) [v] = <[i := v]> f.
Proof.
  intros Hi. unfold put. rewrite Nat2Z.id, insert_take_drop by done.
  cbn [length app]. by replace (i + 1)%nat with (S i) by lia.
Qed.

Lemma word_byte f i x : f !! i = Some x → is_u8 x → word f 1 (Z.of_nat i) = x.
Proof.
  intros Hx Hu. unfold word. rewrite Nat2Z.id. erewrite drop_S by exact Hx.
  change (le_load [x] = x). rewrite le_load_cons by done. change (le_load []) with 0. lia.
Qed.

(** Skipped bytes were submitted by one of the walks of [BitFlip]. *)
Lemma bitflip_byte len u f i x v : zlen f = len → f !! i = Some x → is_u8 x → is_u8 v →
  v ≠ x → could_be_bitflip (Z.lxor x v) = true →
  <[i := v]> f ∈ walk len 1 1 u f ++ walk len 2 1 u f ++ walk len 4 1 u f ++ walk len 8 8 u f.
Proof.
  intros Hlen Hx Hxu Hvu Hne Hc. assert (i < length f)%nat as Hi by (by eapply lookup_lt_Some).
  destruct (bitflip_mask (Z.lxor x v)) as (p&n&Hin&Hm); [by apply lxor_range|by rewrite Z.lxor_eq_0_iff|done|].
  apply masks_spec in Hin as (Hp&Hpn&Hn).
  assert (<[i := v]> f = take (Z.to_nat len) (flip_bits f (8 * Z.of_nat i + p) n)) as ->.
  { rewrite (flip_bits_byte f i x) by (done || lia). rewrite Hm, <-Z.lxor_assoc, Z.lxor_nilpotent, Z.lxor_0_l.
    rewrite take_ge; [done|]. rewrite length_insert. unfold zlen in Hlen. lia. }
  unfold zlen in Hlen. rewrite !elem_of_app. destruct Hn as [->|[->|[->| ->]]].
  1-3: rewrite <-(Z.mul_1_r (8 * Z.of_nat i + p)).
  - left. apply elem_of_walk; lia.
  - right; left. apply elem_of_walk; lia.
  - right; right; left. apply elem_of_walk; lia.
  - right; right; right. assert (p = 0) as -> by lia.
    replace (8 * Z.of_nat i + 0) with (Z.of_nat i * 8) by lia. apply elem_of_walk; lia.
Qed.

Lemma elem_of_variants1 len u f i words w : zlen f = len → (i < length f)%nat →
  any_set u (Z.of_nat i) 1 = true → w ∈ words (word f 1 (Z.of_nat i)) →
  <[i := u8 w]> f ∈ variants 1 len u words f.
Proof.
  intros Hlen Hi Hu Hw. unfold variants. apply list_elem_of_In, in_concat.
  exists (variants_at 1 len u words f (Z.of_nat i)). unfold zlen in Hlen. split.
  - apply list_elem_of_In, list_elem_of_fmap. exists (Z.of_nat i). split; [done|].
    apply elem_of_seqZ. lia.
  - apply list_elem_of_In. unfold variants_at. change (Z.to_nat 1) with 1%nat. rewrite Hu.
    apply list_elem_of_fmap. exists w. split; [|done].
    rewrite le_bytes_1, put_byte by done. rewrite take_ge; [done|]. rewrite length_insert. lia.
Qed.



(** Two bytes are: adding 32 to the little-endian word 0x00e0 inverts its bits
    5 to 8, a run that [could_be_bitflip] accepts, so that [Arithmetic16] skips it;
    but no walk of [BitFlip] inverts these bits together, and neither
    [Arithmetic8] nor [Arithmetic16] submits the result. *)
Theorem Arithmetic16_gap :
  let f := [0xe0; 0x00] in
  let u := [true; true] in
  could_be_bitflip (u16 (Z.lxor (word f 2 0) (word f 2 0 + 32))) = true ∧
  put f 0 (le_bytes 2 (word f 2 0 + 32)) = [0x00; 0x01] ∧
  [0x00; 0x01] ∉
    walk 2 1 1 u f ++ walk 2 2 1 u f ++ walk 2 4 1 u f ++ walk 2 8 8 u f ++ walk 2 16 8 u f ++
    variants 1 2 u arith8_words f ++ variants 2 2 u arith16_words f ++
    variants 1 2 u interest8_words f ++ variants 2 2 u interest16_words f.
Proof.
  cbv zeta. split; [by vm_compute|]. split; [by vm_compute|].
  apply (bool_decide_unpack _). vm_compute. exact I.
Qed.

(** Subtracting 10 from the big-endian word 0x01000005 borrows from its upper
    half, but [Arithmetic32] tests [orig >> 16] of the little-endian word instead,
    which is 0x0500, and does not try it. *)
Theorem Arithmetic32_borrow_gap :
  let f := [0x01; 0x00; 0x00; 0x05] in
  let orig := word f 4 0 in
  SWAP32 orig = 0x01000005 ∧ SWAP32 orig mod 2 ^ 16 < 10 ∧
  could_be_bitflip (u32 (Z.lxor orig (SWAP32 (SWAP32 orig - 10)))) = false ∧
  SWAP32 (SWAP32 orig - 10) ∉ (u32 <$> arith32_words orig).
Proof.
  cbv zeta. split; [by vm_compute|]. split; [by vm_compute|]. split; [by vm_compute|].
  apply (bool_decide_unpack _). vm_compute. exact I.
Qed.
