(* ===== verification/Havoc.v ===== *)
(** * The randomised stages

    [randNum], [choose_block_len], [Havoc], [locate_diffs] and [Splice] of
    [fuzz/fuzzer/old/FuzzOne.cpp].

    Where one statement draws twice from [rand] the language leaves the order
    open; the model draws from left to right, and the theorems hold for every
    sequence of draws.  A buffer that is allocated and then filled completely
    ([new_buf], [orig_buf]) is the list of the parts copied to it, whose lengths
    add up to its size. *)

From S2P Require Import Prelude.
From S2P Require Import Queue.
From S2P Require Import Bits.
From S2P Require Import Stages.

Definition HAVOC_CYCLES_INIT : Z := 8.
Definition HAVOC_STACK_POW2 : Z := 15.
Definition HAVOC_BLK_SMALL : Z := 32.
Definition HAVOC_BLK_MEDIUM : Z := 128.
Definition HAVOC_BLK_LARGE : Z := 1500.
Definition HAVOC_BLK_XL : Z := 32768.
Definition HAVOC_INIT_MULT : Z := 1.
Definition HAVOC_MAX_MULT : Z := 16.
Definition SPLICE_CYCLES : Z := 15.
Definition SPLICE_HAVOC : Z := 32.

Section havoc.
Context {W : Type} `{!Target W}.

(** The counter that would reseed the generator is never incremented. *)
Definition randNum (denominator : Z) : proc (fuzz W) Z :=
  let denominator := u32 denominator in
  if decide (denominator = 0) then mret 0 else
  r ← zoom world set_world rand;
  mret (r mod denominator).

(** Lines 788-790. *)
Definition block_between (limit min_value max_value : Z) : proc (fuzz W) Z :=
  let min_value := if decide (min_value >= limit) then 1 else min_value in
  r ← randNum (Z.min max_value limit - min_value + 1);
  mret (u32 (min_value + r)).

Definition choose_block_len (limit : Z) : proc (fuzz W) Z :=
  let limit := u32 limit in
  cycle ← gets (λ s : fuzz W, queueCycle s.(world));
  let rlim := u32 (Z.min cycle 3) in
  c ← randNum rlim;
  '(min_value, max_value) ←
    (if decide (c = 0) then mret (1, HAVOC_BLK_SMALL)
     else if decide (c = 1) then mret (HAVOC_BLK_SMALL, HAVOC_BLK_MEDIUM)
     else
       x ← randNum 10;
       if decide (x ≠ 0) then mret (HAVOC_BLK_MEDIUM, HAVOC_BLK_LARGE)
       else mret (HAVOC_BLK_LARGE, HAVOC_BLK_XL));
  block_between limit min_value max_value.

Definition len_ : proc (fuzz W) Z := gets temp_len.
Definition table (t : list Z) : proc (fuzz W) Z :=
  i ← randNum (zlen t); from_option (λ _, t !! Z.to_nat i).

(** [memcpy(filemap + to, data, n)] and [memmove(filemap + to, filemap + from, n)] *)
Definition write_at (to : Z) (data : list Z) : proc (fuzz W) unit :=
  update (λ s, b ← blit s.(filemap) to data; Some (set_filemap b s)).
Definition read_at (from n : Z) : proc (fuzz W) (list Z) :=
  from_option (λ s : fuzz W, slice s.(filemap) from n).

(** [randNum(2) ? randNum(256) : filemap[randNum(temp_len)]] *)
Definition fill_byte (n : Z) : proc (fuzz W) Z :=
  c ← randNum 2;
  if decide (c ≠ 0) then randNum 256 else i ← randNum n; load 1 i.

(** Cases 2 and 3, 6 to 9: a word of [k] bytes, in either byte order. *)
Definition SWAP (k v : Z) : Z := if decide (k = 2) then SWAP16 v else SWAP32 v.
Definition havoc_interesting (k : Z) (t : list Z) : proc (fuzz W) unit :=
  n ← len_;
  if decide (n < k) then mret tt else
  c ← randNum 2;
  i ← randNum (n - (k - 1));
  v ← table t;
  store k i (if decide (c ≠ 0) then v else SWAP k v).
Definition havoc_arith (k sign : Z) : proc (fuzz W) unit :=
  n ← len_;
  if decide (n < k) then mret tt else
  c ← randNum 2;
  pos ← randNum (n - (k - 1));
  r ← randNum ARITH_MAX;
  let num := 1 + r in
  v ← load k pos;
  store k pos (if decide (c ≠ 0) then v + sign * num else SWAP k (SWAP k v + sign * num)).

(** Cases 11 and 12. *)
Definition havoc_delete : proc (fuzz W) unit :=
  n ← len_;
  if decide (n < 2) then mret tt else
  del_len ← choose_block_len (n - 1);
  del_from ← randNum (n - del_len + 1);
  tail ← read_at (del_from + del_len) (n - del_from - del_len);
  write_at del_from tail ;;
  modify (set_temp_len (n - del_len)).

(** [new_buf] of cases 13 and 16: head, inserted part and tail. *)
Definition insert_block (n at_ : Z) (mid : list Z) : proc (fuzz W) unit :=
  head ← read_at 0 at_;
  tail ← read_at at_ (n - at_);
  modify (set_filemap (head ++ mid ++ tail)) ;;
  modify (set_temp_len (n + zlen mid)).

(** Case 13: where the block comes from and how long it is, and the block. *)
Definition clone_range (n : Z) (actually_clone : Z) : proc (fuzz W) (Z * Z) :=
  if decide (actually_clone ≠ 0) then
    clone_len ← choose_block_len n;
    clone_from ← randNum (n - clone_len + 1);
    mret (clone_len, clone_from)
  else
    clone_len ← choose_block_len HAVOC_BLK_XL;
    mret (clone_len, 0).
Definition clone_part (n actually_clone clone_len clone_from : Z) : proc (fuzz W) (list Z) :=
  if decide (actually_clone ≠ 0) then read_at clone_from clone_len
  else b ← fill_byte n; mret (replicate (Z.to_nat clone_len) b).

Definition havoc_clone : proc (fuzz W) unit :=
  n ← len_;
  if decide (n + HAVOC_BLK_XL < MAX_FILE_LEN) then
    actually_clone ← randNum 4;
    r ← clone_range n actually_clone;
    clone_to ← randNum n;
    mid ← clone_part n actually_clone r.1 r.2;
    insert_block n clone_to mid
  else mret tt.

(** Case 14. *)
Definition havoc_copy : proc (fuzz W) unit :=
  n ← len_;
  if decide (n < 2) then mret tt else
  copy_len ← choose_block_len (n - 1);
  copy_from ← randNum (n - copy_len + 1);
  copy_to ← randNum (n - copy_len + 1);
  c ← randNum 4;
  if decide (c ≠ 0) then
    if decide (copy_from ≠ copy_to) then
      block ← read_at copy_from copy_len;
      write_at copy_to block
    else mret tt
  else
    b ← fill_byte n;
    write_at copy_to (replicate (Z.to_nat copy_len) b).

(** The token of cases 15 and 16. *)
Definition pick_token : proc (fuzz W) (list Z) :=
  pointed ← gets pointedToken;
  auto_ ← gets autoToken;
  use_auto ←
    (if decide (pointed = []) then mret true
     else if decide (auto_ = []) then mret false
     else c ← randNum 2; mret (bool_decide (c ≠ 0)));
  let m := if use_auto : bool then auto_ else pointed in
  use_extra ← randNum (zlen m);
  from_option (λ _, fst <$> m !! Z.to_nat use_extra).

Definition havoc_overwrite : proc (fuzz W) unit :=
  n ← len_;
  extra ← pick_token;
  if decide (zlen extra > n) then mret tt else
  insert_at ← randNum (n - zlen extra + 1);
  write_at insert_at extra.

Definition havoc_insert : proc (fuzz W) unit :=
  n ← len_;
  insert_at ← randNum (n + 1);
  extra ← pick_token;
  if decide (n + zlen extra >= MAX_FILE_LEN) then mret tt else
  insert_block n insert_at extra.

(** The [switch]. *)
Definition havoc_case (c : Z) : proc (fuzz W) unit :=
  n ← len_;
  match c with
  | 0 => b ← randNum (Z.shiftl n 3); flip b
  | 1 => i ← randNum n; v ← table interesting_8; store 1 i v
  | 2 => havoc_interesting 2 interesting_16
  | 3 => havoc_interesting 4 interesting_32
  | 4 => i ← randNum n; v ← load 1 i; r ← randNum ARITH_MAX; store 1 i (v - (1 + r))
  | 5 => i ← randNum n; v ← load 1 i; r ← randNum ARITH_MAX; store 1 i (v + (1 + r))
  | 6 => havoc_arith 2 (-1)
  | 7 => havoc_arith 2 1
  | 8 => havoc_arith 4 (-1)
  | 9 => havoc_arith 4 1
  | 10 => i ← randNum n; v ← load 1 i; r ← randNum 255; store 1 i (Z.lxor v (1 + r))
  | 11 | 12 => havoc_delete
  | 13 => havoc_clone
  | 14 => havoc_copy
  | 15 => havoc_overwrite
  | 16 => havoc_insert
  | _ => mret tt
  end.

Definition havoc_step : proc (fuzz W) unit :=
  extras ← gets (λ s : fuzz W, bool_decide (zlen s.(pointedToken) + zlen s.(autoToken) ≠ 0));
  c ← randNum (15 + if extras : bool then 2 else 0);
  havoc_case c.

(** One round: a stack of mutations, a run, and the file is put back. *)
Definition havoc_round (len : Z) (orig_buf : list Z) : proc (fuzz W) unit :=
  r ← randNum HAVOC_STACK_POW2;
  let mutate_time := Z.shiftl 1 (1 + r) in
  for_range 0 mutate_time 1 (λ _, havoc_step) ;;
  n ← len_;
  try_unit n ;;
  (if decide (n < len) then modify (set_filemap orig_buf) else write_at 0 orig_buf) ;;
  modify (set_temp_len len).

Definition queue_size : proc (fuzz W) Z := gets (λ s : fuzz W, u32 (zlen (seeds s.(world)))).

Fixpoint havoc_rounds (fuel : nat) (len : Z) (orig_buf : list Z) (i havoc_time queue_init_size : Z)
    : proc (fuzz W) unit :=
  if decide (i < havoc_time) then
    match fuel with
    | O => diverge
    | S fuel' =>
        havoc_round len orig_buf ;;
        queue_havoc_size ← queue_size;
        let havoc_time :=
          if decide (queue_havoc_size > queue_init_size ∧
                     havoc_time < HAVOC_CYCLES_INIT * HAVOC_MAX_MULT)
          then u32 (havoc_time * 2) else havoc_time in
        havoc_rounds fuel' len orig_buf (i + 1) havoc_time queue_havoc_size
    end
  else mret tt.

(** At most 256 rounds: [Havoc_safe]. *)
Definition Havoc (len cycles : Z) : proc (fuzz W) unit :=
  modify (set_temp_len len) ;;
  queue_init_size ← queue_size;
  let havoc_time := u32 (cycles * HAVOC_INIT_MULT) in
  orig_buf ← read_at 0 len;
  havoc_rounds 256 len orig_buf 0 havoc_time queue_init_size ;;
  return_ 0.

(** [locate_diffs]: the first and the last position at which the buffers
    differ, or -1; a loop over both buffers. *)
Fixpoint locate_loop (a b : list Z) (pos f_loc l_loc : Z) : Z * Z :=
  match a, b with
  | x :: a', y :: b' =>
      if decide (x ≠ y) then
        locate_loop a' b' (pos + 1) (if decide (f_loc = -1) then pos else f_loc) pos
      else locate_loop a' b' (pos + 1) f_loc l_loc
  | _, _ => (f_loc, l_loc)
  end.
Definition locate_diffs (ptr1 ptr2 : list Z) (len : Z) : option (Z * Z) :=
  a ← slice ptr1 0 len; b ← slice ptr2 0 len; Some (locate_loop a b 0 (-1) (-1)).

(** The [do ... while (other_que == qCur)] of [Splice]. *)
Fixpoint pick_other (fuel : nat) (qCur : nat) : proc (fuzz W) Z :=
  match fuel with
  | O => diverge
  | S fuel' =>
      n ← gets (λ s : fuzz W, zlen (seeds s.(world)));
      other ← randNum n;
      if decide (other = Z.of_nat qCur) then pick_other fuel' qCur else mret other
  end.

(** [while (other_que != queue.end() && other_que->fileLen < 2) other_que++;] *)
Fixpoint skip_short (l : list seed) : option seed :=
  match l with
  | [] => None
  | e :: l' => if decide (e.(fileLen) < 2) then skip_short l' else Some e
  end.

(** Lines 1190-1205: the whole file of the other seed, or 1 is returned. *)
Definition read_other (e : seed) : proc (fuzz W) (list Z) :=
  o ← zoom world set_world (read_file e.(fileName));
  match o with
  | None => return_ 1
  | Some content =>
      if decide (Z.min (zlen content) e.(fileLen) ≠ e.(fileLen)) then return_ 1
      else mret (take (Z.to_nat e.(fileLen)) content)
  end.

(** [Havoc] works on [other_buf] in place of the file. *)
Definition havoc_other (other_buf : list Z) (len : Z) : proc (fuzz W) unit :=
  mine ← gets filemap;
  modify (set_filemap other_buf) ;;
  r ← call (Havoc len SPLICE_HAVOC);
  modify (set_filemap mine) ;;
  if decide (r ≠ 0) then return_ 1 else mret tt.

(** The body of the loop of [Splice]. *)
Definition splice_cycle (fuel : nat) (len : Z) (qCur : nat) : proc (fuzz W) unit :=
  other ← pick_other fuel qCur;
  l ← gets (λ s : fuzz W, seeds s.(world));
  match skip_short (drop (Z.to_nat other) l) with
  | None => mret tt
  | Some e =>
      other_buf ← read_other e;
      d ← from_option (λ s : fuzz W, locate_diffs s.(filemap) other_buf (Z.min len e.(fileLen)));
      if decide (d.1 < 0 ∨ d.2 < 2 ∨ d.1 = d.2) then mret tt else
      r ← randNum (d.2 - d.1);
      let splice_at := d.1 + r in
      head ← from_option (λ s : fuzz W, slice s.(filemap) 0 splice_at);
      other_buf ← from_option (λ _, blit other_buf 0 head);
      havoc_other other_buf e.(fileLen)
  end.

(** [fuel] bounds the draws of [pick_other]. *)
Definition Splice (fuel : nat) (len : Z) (qCur : nat) : proc (fuzz W) unit :=
  n ← gets (λ s : fuzz W, zlen (seeds s.(world)));
  if decide (n <= 1 ∨ len <= 1) then return_ 0 else
  for_range 0 SPLICE_CYCLES 1 (λ _, splice_cycle fuel len qCur) ;;
  return_ 0.
End havoc.

(** ** Every mutation stays inside of its buffer *)

Section safety.
Context {W : Type} `{!Target W, !TargetOK W}.
Implicit Types s : fuzz W.

(** A file of 1 to [B] bytes is in the buffer; the tables and the history are
    those of [s0]. *)
Record mutating s0 (B : Z) s : Prop := Mutating {
  mu_inv : t_inv s.(world);
  mu_bytes : Forall is_u8 s.(filemap);
  mu_len : 1 <= s.(temp_len) <= B;
  mu_cap : s.(temp_len) <= zlen s.(filemap);
  mu_useful : s.(useful_byte) = s0.(useful_byte);
  mu_auto : s.(autoToken) = s0.(autoToken);
  mu_pointed : s.(pointedToken) = s0.(pointedToken);
  mu_grows : grows (seeds s0.(world)) (seeds s.(world));
  mu_cycle : queueCycle s.(world) = queueCycle s0.(world);
  mu_sub : s.(submitted) = s0.(submitted);
}.

Lemma wp_randNum_inv d s (Q : Z → fuzz W → Prop) R E : t_inv s.(world) → 0 < d < 2 ^ 32 →
  (∀ r w', 0 <= r < d → t_inv w' → seeds w' = seeds s.(world) →
     queueCycle w' = queueCycle s.(world) → Q r (set_world w' s)) →
  wp (randNum d) Q R E s.
Proof.
  intros Hs Hd HQ. unfold randNum. rewrite u32_id by (unfold is_u32; lia). wp_steps; [lia|].
  apply wp_zoom. eapply wp_mono; [apply rand_ok, Hs| |done|done]. intros r w' (Hr&Hw&Hse&Hc). wp_steps.
  apply HQ; [apply Z.mod_pos_bound; lia|done..].
Qed.

Context (s0 : fuzz W) (B : Z).
Hypothesis HB : MAX_FILE_LEN <= B < 2 ^ 28.
Hypothesis Hauto : Forall token_ok s0.(autoToken).
Hypothesis Hpointed : Forall token_ok s0.(pointedToken).
Hypothesis Hauto_size : zlen s0.(autoToken) < 2 ^ 32.
Hypothesis Hpointed_size : zlen s0.(pointedToken) < 2 ^ 32.

Lemma mutating_world s w' : mutating s0 B s → t_inv w' → seeds w' = seeds s.(world) →
  queueCycle w' = queueCycle s.(world) → mutating s0 B (set_world w' s).
Proof. intros [] Hw Hs Hc. split; try done; cbn; [by rewrite Hs|congruence]. Qed.

Lemma mutating_file s f n : mutating s0 B s → Forall is_u8 f → 1 <= n <= B → n <= zlen f →
  mutating s0 B (set_temp_len n (set_filemap f s)).
Proof. intros [] Hf Hn Hz. by split. Qed.

Lemma mutating_buffer s f : mutating s0 B s → Forall is_u8 f → zlen f = zlen s.(filemap) →
  mutating s0 B (set_filemap f s).
Proof. intros [] Hf Hz. split; try done. cbn. lia. Qed.

Lemma wp_randNum d s (Q : Z → fuzz W → Prop) R E : mutating s0 B s → 0 < d < 2 ^ 32 →
  (∀ r w', 0 <= r < d → mutating s0 B (set_world w' s) → Q r (set_world w' s)) →
  wp (randNum d) Q R E s.
Proof.
  intros Hs Hd HQ. apply wp_randNum_inv; [apply Hs|done|]. intros r w' Hr Hw Hse Hc.
  apply HQ; [done|by apply mutating_world].
Qed.

Lemma wp_choose_block_len limit s (Q : Z → fuzz W → Prop) R E : mutating s0 B s →
  1 <= limit < 2 ^ 28 →
  (∀ r w', 1 <= r <= Z.min limit HAVOC_BLK_XL → mutating s0 B (set_world w' s) →
     Q r (set_world w' s)) →
  wp (choose_block_len limit) Q R E s.
Proof.
  intros Hs Hl HQ. unfold choose_block_len. rewrite (u32_id limit) by (unfold is_u32; lia).
  assert (∀ lo hi s1, (∃ w1, s1 = set_world w1 s) → mutating s0 B s1 → 1 <= lo <= hi → hi <= HAVOC_BLK_XL →
    wp (block_between limit lo hi) Q R E s1) as Hend.
  { intros lo hi s1 [w1 ->] Hs1 Hlo Hhi. unfold HAVOC_BLK_XL, block_between in *. wp_steps.
    set (m := if decide (lo >= limit) then 1 else lo).
    assert (1 <= m <= Z.min hi limit) as Hm by (subst m; case_decide; lia).
    apply wp_randNum; [done|lia|]. intros r w2 Hr Hs2. wp_steps.
    rewrite u32_id by (unfold is_u32; lia). apply HQ; [lia|done]. }
  wp_steps. set (rlim := u32 _).
  assert (wp (randNum rlim) (λ c s1, (∃ w1, s1 = set_world w1 s) ∧ mutating s0 B s1) R E s) as Hc.
  { destruct (decide (rlim = 0)) as [H0|H0].
    - unfold randNum. rewrite H0. change (u32 0) with 0. wp_steps; [|done].
      split; [exists s.(world); by destruct s|done].
    - apply wp_randNum; [done| |eauto]. pose proof (u32_range (Z.min (queueCycle s.(world)) 3)) as Hr.
      fold rlim in Hr. unfold is_u32 in Hr. lia. }
  eapply wp_conseq; [exact Hc|]. intros c s1 [Hw1 Hs1]. unfold HAVOC_BLK_XL in *. wp_steps.
  - apply Hend; try done; unfold HAVOC_BLK_SMALL; lia.
  - apply Hend; try done; unfold HAVOC_BLK_SMALL, HAVOC_BLK_MEDIUM; lia.
  - apply wp_randNum; [done|lia|]. intros x w2 _ Hs2. destruct Hw1 as [w1 ->].
    wp_steps; (apply Hend; [by exists w2|done|unfold HAVOC_BLK_MEDIUM, HAVOC_BLK_LARGE, HAVOC_BLK_XL; lia..]).
Qed.

Lemma wp_read_at from n s (Q : list Z → fuzz W → Prop) R E :
  mutating s0 B s → 0 <= from → 0 <= n → from + n <= s.(temp_len) →
  (∀ l, zlen l = n → Forall is_u8 l → Q l s) → wp (read_at from n) Q R E s.
Proof.
  intros Hs Hf Hn Hl HQ. destruct Hs. unfold read_at.
  assert (slice s.(filemap) from n = Some (take (Z.to_nat n) (drop (Z.to_nat from) s.(filemap)))) as Hsl
    by (apply slice_is_Some; lia).
  eapply wp_from_option; [exact Hsl|]. apply slice_Some in Hsl as (_&_&_&?&_).
  apply HQ; [done|by apply Forall_take, Forall_drop].
Qed.

Lemma wp_write_at to data s (Q : unit → fuzz W → Prop) R E :
  mutating s0 B s → 0 <= to → to + zlen data <= zlen s.(filemap) → Forall is_u8 data →
  (∀ f, mutating s0 B (set_filemap f s) → zlen f = zlen s.(filemap) → Forall is_u8 f →
     Q tt (set_filemap f s)) →
  wp (write_at to data) Q R E s.
Proof.
  intros Hs Ht Hl Hd HQ. unfold write_at. eapply wp_update; [rewrite blit_put by done; reflexivity|].
  assert (Forall is_u8 (put s.(filemap) to data)) by (apply put_bytes; [apply Hs|done]).
  apply HQ; [apply mutating_buffer; [done|done|by apply zlen_put]|by apply zlen_put|done].
Qed.

Lemma wp_load k i s (Q : Z → fuzz W → Prop) R E : mutating s0 B s → 0 <= k → 0 <= i →
  i + k <= s.(temp_len) → (∀ v, Q v s) → wp (load k i) Q R E s.
Proof.
  intros Hs Hk Hi Hl HQ. destruct Hs. eapply wp_from_option; [|apply HQ].
  rewrite slice_is_Some by lia. reflexivity.
Qed.

Lemma wp_load_byte i s (Q : Z → fuzz W → Prop) R E : mutating s0 B s → 0 <= i < s.(temp_len) →
  (∀ v, is_u8 v → Q v s) → wp (load 1 i) Q R E s.
Proof. intros Hs Hi HQ. destruct Hs. apply wp_load1; [lia|done|done]. Qed.

Lemma wp_store k i v s (Q : unit → fuzz W → Prop) R E : mutating s0 B s → 0 <= k → 0 <= i →
  i + k <= s.(temp_len) →
  (∀ s', mutating s0 B s' → Q tt s') → wp (store k i v) Q R E s.
Proof.
  intros Hs Hk Hi Hl HQ. pose proof (mu_cap _ _ _ Hs).
  assert (zlen (le_bytes k v) = k) as Hz by (by apply length_le_bytes).
  eapply wp_update; [rewrite blit_put by lia; reflexivity|]. apply HQ, mutating_buffer; [done| |].
  - apply put_bytes; [apply Hs|by apply le_bytes_u8].
  - apply zlen_put; lia.
Qed.

Lemma wp_table t s (Q : Z → fuzz W → Prop) R E : mutating s0 B s → 0 < zlen t < 2 ^ 32 →
  (∀ v w', mutating s0 B (set_world w' s) → Q v (set_world w' s)) → wp (table t) Q R E s.
Proof.
  intros Hs Ht HQ. unfold table. wp_steps. apply wp_randNum; [done..|]. intros r w' Hr Hs'.
  unfold zlen in Hr. destruct (lookup_lt_is_Some_2 t (Z.to_nat r)) as [v Hv]; [lia|].
  eapply wp_from_option; [exact Hv|]. by apply HQ.
Qed.

(** [mutation m]: the file stays well-formed. *)
Definition mutation (m : proc (fuzz W) unit) : Prop :=
  ∀ R E s, mutating s0 B s → wp m (λ _ s', mutating s0 B s') R E s.

Lemma fill_byte_ok n s (Q : Z → fuzz W → Prop) R E : mutating s0 B s → 1 <= n <= s.(temp_len) →
  (∀ b w', is_u8 b → mutating s0 B (set_world w' s) → Q b (set_world w' s)) →
  wp (fill_byte n) Q R E s.
Proof.
  intros Hs Hn HQ. pose proof (mu_len _ _ _ Hs). unfold fill_byte. wp_steps.
  apply wp_randNum; [done|lia|]. intros c w1 _ Hs1. wp_steps.
  - apply wp_randNum; [done|lia|]. intros b w2 Hb Hs2. by apply (HQ b w2).
  - apply wp_randNum; [done|lia|]. intros i w2 Hi Hs2.
    apply wp_load_byte; [done|cbn; lia|]. intros v Hv. by apply (HQ v w2).
Qed.

Lemma havoc_interesting_ok k t : 1 <= k <= 4 → 0 < zlen t < 2 ^ 32 →
  mutation (havoc_interesting k t).
Proof.
  intros Hk Ht R E s Hs. pose proof (mu_len _ _ _ Hs). unfold havoc_interesting, len_.
  wp_steps; [done|]. apply wp_randNum; [done|lia|]. intros c w1 _ Hs1. wp_steps.
  apply wp_randNum; [done|cbn; lia|]. intros i w2 Hi Hs2. wp_steps.
  apply wp_table; [done..|]. intros v w3 Hs3. apply wp_store; [done|lia|lia|cbn in *; lia|done].
Qed.

Lemma havoc_arith_ok k sign : 1 <= k <= 4 → mutation (havoc_arith k sign).
Proof.
  intros Hk R E s Hs. pose proof (mu_len _ _ _ Hs). unfold havoc_arith, len_.
  wp_steps; [done|]. apply wp_randNum; [done|lia|]. intros c w1 _ Hs1. wp_steps.
  apply wp_randNum; [done|cbn; lia|]. intros i w2 Hi Hs2. wp_steps.
  apply wp_randNum; [done|unfold ARITH_MAX; lia|]. intros r w3 Hr Hs3. wp_steps.
  apply wp_load; [done|lia|lia|cbn in *; lia|]. intros v.
  apply wp_store; [done|lia|lia|cbn in *; lia|done].
Qed.

Lemma havoc_delete_ok : mutation havoc_delete.
Proof.
  intros R E s Hs. pose proof (mu_len _ _ _ Hs). pose proof (mu_cap _ _ _ Hs).
  unfold havoc_delete, len_. wp_steps; [done|].
  apply wp_choose_block_len; [done|lia|]. intros d w1 Hd Hs1. wp_steps.
  apply wp_randNum; [done|lia|]. intros from w2 Hf Hs2. wp_steps.
  apply wp_read_at; [done|lia|lia|cbn; lia|]. intros l Hl Hlb. wp_steps.
  apply wp_write_at; [done|lia|cbn in *; lia|done|]. intros f Hsf Hz Hfb. wp_steps.
  apply (mutating_file (set_world w2 (set_world w1 s))); [done|done|lia|cbn in *; lia].
Qed.

Lemma insert_block_ok at_ mid s R E : mutating s0 B s → 0 <= at_ <= s.(temp_len) →
  s.(temp_len) + zlen mid <= B → Forall is_u8 mid →
  wp (insert_block s.(temp_len) at_ mid) (λ _ s', mutating s0 B s') R E s.
Proof.
  intros Hs Hat Hfit Hmb. pose proof (mu_len _ _ _ Hs). pose proof (zlen_nonneg mid).
  unfold insert_block. wp_steps.
  apply wp_read_at; [done|lia|lia|lia|]. intros head Hh Hhb. wp_steps.
  apply wp_read_at; [done|lia|lia|lia|]. intros tail Ht Htb. wp_steps.
  apply mutating_file; [done| |lia|rewrite !zlen_app; lia]. by repeat apply Forall_app_2.
Qed.

Lemma havoc_clone_ok : mutation havoc_clone.
Proof.
  intros R E s Hs. pose proof (mu_len _ _ _ Hs) as Hlen.
  unfold havoc_clone, clone_range, clone_part, len_.
  assert (HAVOC_BLK_XL = 32768) as HX by done. assert (MAX_FILE_LEN = 1048576) as HM by done.
  wp_steps; [|done]. apply wp_randNum; [done|lia|]. intros c w1 Hc Hs1. wp_steps.
  - apply wp_choose_block_len; [done|lia|]. intros cl w2 Hcl Hs2. wp_steps.
    apply wp_randNum; [done|lia|]. intros cf w3 Hcf Hs3. wp_steps. cbn [fst snd].
    apply wp_randNum; [done|lia|]. intros ct w4 Hct Hs4. wp_steps; [|done].
    apply wp_read_at; [done|lia|lia|cbn; lia|]. intros mid Hm Hmb.
    apply (insert_block_ok ct mid (set_world w4 s)); [done|cbn; lia|cbn; lia|done].
  - apply wp_choose_block_len; [done|lia|]. intros cl w2 Hcl Hs2. wp_steps. cbn [fst snd].
    apply wp_randNum; [done|lia|]. intros ct w3 Hct Hs3. wp_steps; [done|].
    apply fill_byte_ok; [done|cbn; lia|]. intros b w4 Hb Hs4. wp_steps.
    apply (insert_block_ok ct _ (set_world w4 s)); [done|cbn; lia| |by apply Forall_replicate].
    cbn. unfold zlen. rewrite length_replicate. lia.
Qed.

Lemma havoc_copy_ok : mutation havoc_copy.
Proof.
  intros R E s Hs. pose proof (mu_len _ _ _ Hs). pose proof (mu_cap _ _ _ Hs).
  unfold havoc_copy, len_. wp_steps; [done|].
  apply wp_choose_block_len; [done|lia|]. intros cl w1 Hcl Hs1. wp_steps.
  apply wp_randNum; [done|lia|]. intros cf w2 Hcf Hs2. wp_steps.
  apply wp_randNum; [done|lia|]. intros ct w3 Hct Hs3. wp_steps.
  apply wp_randNum; [done|lia|]. intros c w4 _ Hs4. wp_steps; [|done|].
  - apply wp_read_at; [done|lia|lia|cbn; lia|]. intros l Hl Hlb.
    apply wp_write_at; [done|lia|cbn in *; lia|done|done].
  - apply fill_byte_ok; [done|cbn; lia|]. intros b w5 Hb Hs5. apply wp_write_at; [done|lia| | |done].
    + unfold zlen at 1. rewrite length_replicate. cbn. lia.
    + by apply Forall_replicate.
Qed.

(** There is a token to pick: the [switch] selects cases 15 and 16 only then. *)
Lemma wp_pick_token s (Q : list Z → fuzz W → Prop) R E : mutating s0 B s →
  zlen s.(pointedToken) + zlen s.(autoToken) ≠ 0 →
  (∀ t w', zlen t <= MAX_TOKEN_SIZE → Forall is_u8 t → mutating s0 B (set_world w' s) →
     Q t (set_world w' s)) →
  wp pick_token Q R E s.
Proof.
  intros Hs Hne HQ. unfold pick_token.
  assert (zlen s.(pointedToken) < 2 ^ 32 ∧ zlen s.(autoToken) < 2 ^ 32) as [Hp32 Ha32]
    by (by rewrite (mu_auto _ _ _ Hs), (mu_pointed _ _ _ Hs)).
  assert (∀ m s1, (∃ w1, s1 = set_world w1 s) → mutating s0 B s1 → m ≠ [] → zlen m < 2 ^ 32 →
    Forall token_ok m →
    wp (use_extra ← randNum (zlen m); from_option (λ _, fst <$> m !! Z.to_nat use_extra)) Q R E s1) as Hend.
  { intros m s1 [w1 ->] Hs1 Hm Hm32 Hok. wp_steps. apply wp_randNum; [done| |].
    - split; [|done]. unfold zlen. destruct m; [done|cbn; lia].
    - intros r w2 Hr Hs2. unfold zlen in Hr.
      destruct (lookup_lt_is_Some_2 m (Z.to_nat r)) as [[t c] Ht]; [lia|].
      eapply wp_from_option; [by rewrite Ht|].
      apply (proj1 (list.Forall_lookup _ _) Hok) in Ht as [[_ ?] ?]. by apply HQ. }
  assert (∃ w, s = set_world w s) as Hself by (exists s.(world); by destruct s).
  assert (Forall token_ok s.(autoToken) ∧ Forall token_ok s.(pointedToken)) as [Ha Hp]
    by (by rewrite (mu_auto _ _ _ Hs), (mu_pointed _ _ _ Hs)).
  apply wp_bind, wp_gets, wp_bind, wp_gets, wp_bind, wp_ifd; intros H1; [apply wp_mret|apply wp_ifd; intros H2; [apply wp_mret|]].
  - apply Hend; try done. intros H0. by rewrite H0, H1 in Hne.
  - by apply Hend.
  - apply wp_bind, wp_randNum; [done|lia|]. intros c w1 _ Hs1. apply wp_mret.
    case_bool_decide; apply Hend; try done; by exists w1.
Qed.

Lemma havoc_overwrite_ok s R E : mutating s0 B s →
  zlen s.(pointedToken) + zlen s.(autoToken) ≠ 0 →
  wp havoc_overwrite (λ _ s', mutating s0 B s') R E s.
Proof.
  intros Hs Hne. pose proof (mu_len _ _ _ Hs). pose proof (mu_cap _ _ _ Hs).
  unfold havoc_overwrite, len_. wp_steps. apply wp_pick_token; [done..|]. intros t w1 Ht Htb Hs1.
  pose proof (zlen_nonneg t). wp_steps; [done|].
  apply wp_randNum; [done|lia|]. intros i w2 Hi Hs2.
  apply wp_write_at; [done|lia|cbn; lia|done|done].
Qed.

Lemma havoc_insert_ok s R E : mutating s0 B s →
  zlen s.(pointedToken) + zlen s.(autoToken) ≠ 0 →
  wp havoc_insert (λ _ s', mutating s0 B s') R E s.
Proof.
  intros Hs Hne. pose proof (mu_len _ _ _ Hs). unfold havoc_insert, len_. wp_steps.
  apply wp_randNum; [done|lia|]. intros i w1 Hi Hs1. wp_steps.
  apply wp_pick_token; [done..|]. intros t w2 Ht Htb Hs2. pose proof (zlen_nonneg t). wp_steps; [done|].
  apply (insert_block_ok i t (set_world w2 (set_world w1 s))); [done|cbn; lia|cbn; lia|done].
Qed.

(** Cases 4, 5 and 10. *)
Lemma havoc_byte_ok (g : Z → Z → Z) d s R E : 0 < d < 2 ^ 32 → mutating s0 B s →
  wp (i ← randNum s.(temp_len); v ← load 1 i; r ← randNum d; store 1 i (g v r))
    (λ _ s', mutating s0 B s') R E s.
Proof.
  intros Hd Hs. pose proof (mu_len _ _ _ Hs). wp_steps. apply wp_randNum; [done|lia|].
  intros i w1 Hi Hs1. wp_steps. apply wp_load; [done|lia|lia|cbn; lia|]. intros v. wp_steps.
  apply wp_randNum; [done|lia|]. intros r w2 _ Hs2.
  apply wp_store; [done|lia|lia|cbn; lia|done].
Qed.

Lemma flip_bit1_u8 f b : 0 <= b → Forall is_u8 f → Forall is_u8 (flip_bit1 f b).
Proof. intros Hb Hf. by apply (flip_bits_u8 f b 1). Qed.

Lemma havoc_bit_ok s R E : mutating s0 B s →
  wp (b ← randNum (Z.shiftl s.(temp_len) 3); flip b) (λ _ s', mutating s0 B s') R E s.
Proof.
  intros Hs. pose proof (mu_len _ _ _ Hs). pose proof (mu_cap _ _ _ Hs). wp_steps.
  rewrite Z.shiftl_mul_pow2 by lia. apply wp_randNum; [done|lia|]. intros b w1 Hb Hs1.
  unfold flip. eapply wp_update; [rewrite FLIP_BIT_flip by (cbn; lia); reflexivity|].
  apply mutating_buffer; [done| |unfold zlen; by rewrite length_flip_bit1].
  apply flip_bit1_u8; [lia|apply Hs1].
Qed.

Lemma havoc_replace_ok s R E : mutating s0 B s →
  wp (i ← randNum s.(temp_len); v ← table interesting_8; store 1 i v)
    (λ _ s', mutating s0 B s') R E s.
Proof.
  intros Hs. pose proof (mu_len _ _ _ Hs). wp_steps.
  apply wp_randNum; [done|lia|]. intros i w1 Hi Hs1. wp_steps.
  apply wp_table; [done|done|]. intros v w2 Hs2. apply wp_store; [done|lia|lia|cbn; lia|done].
Qed.

Lemma havoc_case_ok c s R E : mutating s0 B s → 0 <= c < 17 →
  (15 <= c → zlen s.(pointedToken) + zlen s.(autoToken) ≠ 0) →
  wp (havoc_case c) (λ _ s', mutating s0 B s') R E s.
Proof.
  intros Hs Hc Htok. unfold havoc_case, len_. apply wp_bind, wp_gets.
  assert (c = 0 ∨ c = 1 ∨ c = 2 ∨ c = 3 ∨ c = 4 ∨ c = 5 ∨ c = 6 ∨ c = 7 ∨ c = 8 ∨ c = 9 ∨ c = 10 ∨
    c = 11 ∨ c = 12 ∨ c = 13 ∨ c = 14 ∨ c = 15 ∨ c = 16) as Hin by lia.
  destruct Hin as [->|[->|[->|[->|[->|[->|[->|[->|[->|[->|[->|[->|[->|[->|[->|[->| ->]]]]]]]]]]]]]]]];
    cbv match.
  - by apply havoc_bit_ok.
  - by apply havoc_replace_ok.
  - by apply havoc_interesting_ok.
  - by apply havoc_interesting_ok.
  - by apply (havoc_byte_ok (λ v r, v - (1 + r))).
  - by apply (havoc_byte_ok (λ v r, v + (1 + r))).
  - by apply havoc_arith_ok.
  - by apply havoc_arith_ok.
  - by apply havoc_arith_ok.
  - by apply havoc_arith_ok.
  - by apply (havoc_byte_ok (λ v r, Z.lxor v (1 + r))).
  - by apply havoc_delete_ok.
  - by apply havoc_delete_ok.
  - by apply havoc_clone_ok.
  - by apply havoc_copy_ok.
  - apply havoc_overwrite_ok; [done|]. apply Htok. lia.
  - apply havoc_insert_ok; [done|]. apply Htok. lia.
Qed.

Lemma havoc_step_ok : mutation havoc_step.
Proof.
  intros R E s Hs. unfold havoc_step. wp_steps.
  case_bool_decide; (apply wp_randNum; [done|lia|]); intros c w1 Hc Hs1;
    (apply havoc_case_ok; [done|lia|]); cbn; [done|lia].
Qed.
End safety.

Section rounds.
Context {W : Type} `{!Target W, !TargetOK W}.
Implicit Types s : fuzz W.

(** Between two rounds: the first [len] bytes of the buffer are the file. *)
Record havocked s0 (len : Z) s : Prop := Havocked {
  hv_inv : t_inv s.(world);
  hv_bytes : Forall is_u8 s.(filemap);
  hv_file : take (Z.to_nat len) s.(filemap) = take (Z.to_nat len) s0.(filemap);
  hv_cap : len <= zlen s.(filemap);
  hv_len : s.(temp_len) = len;
  hv_useful : s.(useful_byte) = s0.(useful_byte);
  hv_auto : s.(autoToken) = s0.(autoToken);
  hv_pointed : s.(pointedToken) = s0.(pointedToken);
  hv_grows : grows (seeds s0.(world)) (seeds s.(world));
  hv_cycle : queueCycle s.(world) = queueCycle s0.(world);
}.

(** After a stage that gave up: the file may be lost, the rest is in order. *)
Record aborted s0 s : Prop := Aborted {
  ab_inv : t_inv s.(world);
  ab_useful : s.(useful_byte) = s0.(useful_byte);
  ab_auto : s.(autoToken) = s0.(autoToken);
  ab_pointed : s.(pointedToken) = s0.(pointedToken);
  ab_grows : grows (seeds s0.(world)) (seeds s.(world));
  ab_cycle : queueCycle s.(world) = queueCycle s0.(world);
}.

(** A submitted input: at least one byte, and not longer than the larger of
    the file and [MAX_FILE_LEN]. *)
Definition input_ok (len : Z) (x : list Z) : Prop :=
  1 <= zlen x <= Z.max len MAX_FILE_LEN ∧ Forall is_u8 x.

(** What [Havoc] expects. *)
Record havoc_ready (len : Z) s : Prop := HavocReady {
  hr_inv : t_inv s.(world);
  hr_bytes : Forall is_u8 s.(filemap);
  hr_len : 1 <= len < 2 ^ 28;
  hr_cap : len <= zlen s.(filemap);
  hr_auto : Forall token_ok s.(autoToken) ∧ zlen s.(autoToken) < 2 ^ 32;
  hr_pointed : Forall token_ok s.(pointedToken) ∧ zlen s.(pointedToken) < 2 ^ 32;
}.

Lemma havoc_round_ok len s0 s : havoc_ready len s0 → havocked s0 len s →
  wp (havoc_round len (take (Z.to_nat len) s0.(filemap)))
    (λ _ s', havocked s0 len s' ∧ ∃ x, input_ok len x ∧ s'.(submitted) = s.(submitted) ++ [x])
    (λ r s', r = 1 ∧ aborted s0 s' ∧ ∃ x, input_ok len x ∧ s'.(submitted) = s.(submitted) ++ [x])
    (λ _ _, True) s.
Proof.
  intros [Hi0 Hb0 Hl Hc0 [Ha Ha32] [Hp Hp32]] Hs.
  set (B := Z.max len MAX_FILE_LEN).
  assert (MAX_FILE_LEN <= B < 2 ^ 28) as HB by (subst B; unfold MAX_FILE_LEN; lia).
  assert (mutating s B s) as Hm.
  { destruct Hs. split; try done; unfold grows; try done; subst B; lia. }
  assert (mutation s B havoc_step) as Hstep.
  { apply havoc_step_ok; [done|by rewrite (hv_auto _ _ _ Hs)|by rewrite (hv_pointed _ _ _ Hs)
      |by rewrite (hv_auto _ _ _ Hs)|by rewrite (hv_pointed _ _ _ Hs)]. }
  unfold havoc_round, len_. wp_steps. eapply (wp_randNum s B); [done|unfold HAVOC_STACK_POW2; lia|].
  intros r w1 Hr Hs1. wp_steps.
  eapply wp_conseq; [eapply (wp_for_range _ _ _ _ (λ _ s', mutating s B s')); [lia|done|]|].
  { intros i s' _ _ Hs'. by apply Hstep. }
  intros [] s2 (k&_&Hs2). pose proof Hs2 as [Hinv2 Hb2 Hl2 Hc2 Hu2 Ha2 Hp2 Hg2 Hcy2 Hsub2].
  wp_steps. unfold try_unit. wp_steps. apply wp_fuzz_unit; [done|done|lia|].
  intros c w3 _ Hw3 Hg3 Hcy3. set (x := take (Z.to_nat s2.(temp_len)) s2.(filemap)).
  assert (input_ok len x) as Hx.
  { subst x. split; [|by apply Forall_take]. fold B. unfold zlen in *. rewrite length_take. lia. }
  assert (zlen (take (Z.to_nat len) s0.(filemap)) = len) as Hzo
    by (unfold zlen in *; rewrite length_take; lia).
  pose proof Hs as [_ _ _ _ _ Hu Hau Hpo Hg Hcy].
  assert (∀ f, Forall is_u8 f → len <= zlen f →
    take (Z.to_nat len) f = take (Z.to_nat len) s0.(filemap) →
    let s' := set_temp_len len (set_filemap f
      (set_world w3 (set_submitted (s2.(submitted) ++ [x]) s2))) in
    havocked s0 len s' ∧ ∃ y, input_ok len y ∧ s'.(submitted) = s.(submitted) ++ [y]) as Hend.
  { intros f Hf Hzf Htf s'. split; [|exists x; cbn; by rewrite Hsub2].
    split; cbn; try done; try congruence. by eapply grows_trans; [|eapply grows_trans]. }
  assert (aborted s0 (set_world w3 (set_submitted (s2.(submitted) ++ [x]) s2))) as Hab.
  { split; cbn; try done; try congruence. by eapply grows_trans; [|eapply grows_trans]. }
  wp_steps; [..|split; [done|]; split; [done|]; exists x; cbn; by rewrite Hsub2].
  - apply Hend; [by apply Forall_take|lia|by rewrite take_take, Nat.min_id].
  - unfold write_at. eapply wp_update.
    { cbn [filemap set_world set_submitted]. rewrite blit_put by lia. reflexivity. }
    wp_steps. apply Hend.
    + apply put_bytes; [done|by apply Forall_take].
    + rewrite zlen_put; lia.
    + unfold put. change (Z.to_nat 0) with 0%nat. rewrite take_0, app_nil_l.
      rewrite take_app_le by (unfold zlen in *; lia). by rewrite take_take, Nat.min_id.
Qed.

Lemma havoc_rounds_ok len s0 fuel i h qs s : havoc_ready len s0 → havocked s0 len s →
  h ∈ [8; 16; 32; 64; 128] → 0 <= i <= h → 128 - i <= Z.of_nat fuel →
  wp (havoc_rounds fuel len (take (Z.to_nat len) s0.(filemap)) i h qs)
    (λ _ s', havocked s0 len s' ∧ ∃ xs, s'.(submitted) = s.(submitted) ++ xs ∧
       Forall (input_ok len) xs ∧ h - i <= zlen xs <= 128 - i)
    (λ r s', r = 1 ∧ aborted s0 s' ∧ ∃ xs, s'.(submitted) = s.(submitted) ++ xs ∧
       Forall (input_ok len) xs ∧ zlen xs <= 128 - i)
    (λ _ _, True) s.
Proof.
  intros Hr. revert i h qs s. induction fuel as [|fuel IH]; intros i h qs s Hs Hh Hi Hf.
  all: assert (8 <= h <= 128) as Hh8 by (repeat (apply elem_of_cons in Hh as [->|Hh]; [lia|]); by apply elem_of_nil in Hh).
  all: cbn [havoc_rounds]; apply wp_ifd; intros Hlt;
    [|wp_steps; split; [done|]; exists []; rewrite app_nil_r; split; [done|]; split; [constructor|unfold zlen; cbn [length]; lia]].
  - lia.
  - wp_steps. eapply wp_mono; [by apply havoc_round_ok| | |done].
    + intros [] s1 [Hs1 (x&Hx&E1)]. unfold queue_size. wp_steps.
      match goal with |- wp (havoc_rounds _ _ _ _ ?h0 _) _ _ _ _ => set (h' := h0) end.
      assert (h' ∈ [8; 16; 32; 64; 128] ∧ h <= h') as [Hh' Hle].
      { subst h'. case_decide as Hd; [|done]. destruct Hd as [_ Hd].
        change (HAVOC_CYCLES_INIT * HAVOC_MAX_MULT) with 128 in Hd.
        rewrite u32_id by (unfold is_u32; lia).
        repeat (apply elem_of_cons in Hh as [->|Hh];
          [first [exfalso; lia|split; [set_solver|lia]]|]).
        by apply elem_of_nil in Hh. }
      eapply wp_mono; [apply (IH (i + 1) h' _ s1); try done; lia| | |done].
      * intros [] s2 [Hs2 (xs&E2&Hxs&Hz)]. split; [done|]. exists (x :: xs).
        rewrite E2, E1, <-app_assoc. split; [done|]. split; [by constructor|].
        unfold zlen in *. cbn [length]. lia.
      * intros r s2 (->&?&xs&E2&Hxs&Hz). split; [done|]. split; [done|]. exists (x :: xs).
        rewrite E2, E1, <-app_assoc. split; [done|]. split; [by constructor|].
        unfold zlen in *. cbn [length]. lia.
    + intros r s1 (->&?&x&Hx&E1). split; [done|]. split; [done|]. exists [x].
      split; [done|]. split; [by constructor|]. unfold zlen. cbn [length]. lia.
Qed.

Lemma Havoc_ok len cycles s : havoc_ready len s → cycles ∈ [8; 16; 32; 64; 128] →
  wp (Havoc len cycles) (λ _ _, False)
    (λ r s', ∃ xs, s'.(submitted) = s.(submitted) ++ xs ∧ Forall (input_ok len) xs ∧
       zlen xs <= 128 ∧
       (r = 0 ∧ havocked s len s' ∧ cycles <= zlen xs ∨ r = 1 ∧ aborted s s'))
    (λ _ _, True) s.
Proof.
  intros Hr Hc. pose proof Hr as [Hi Hb Hl Hcap _ _].
  assert (8 <= cycles <= 128) as Hc8
    by (repeat (apply elem_of_cons in Hc as [->|Hc]; [lia|]); by apply elem_of_nil in Hc).
  unfold Havoc, read_at, queue_size. wp_steps. unfold HAVOC_INIT_MULT. rewrite Z.mul_1_r.
  rewrite u32_id by (unfold is_u32; lia).
  eapply wp_from_option; [apply slice_is_Some; cbn; lia|]. cbn [filemap set_temp_len]. rewrite drop_0.
  wp_steps. eapply wp_mono; [apply (havoc_rounds_ok len s); try done; try lia| | |done].
  - split; try done. unfold grows. done.
  - intros [] s1 [Hs1 (xs&E1&Hxs&Hz)]. wp_steps. exists xs. split; [done|]. split; [done|].
    split; [lia|]. left. split; [done|]. split; [done|]. lia.
  - intros r s1 (->&?&xs&E1&Hxs&Hz). exists xs. split; [done|]. split; [done|]. split; [lia|].
    by right.
Qed.
End rounds.

(** ** [Splice] *)

(** Position [i] of two lists that start at [pos]. *)
Definition differ (a b : list Z) (pos i : Z) : Prop :=
  pos <= i < pos + zlen a ∧ a !! Z.to_nat (i - pos) ≠ b !! Z.to_nat (i - pos).

Lemma differ_cons x y a b pos i : differ (x :: a) (y :: b) pos i ↔
  i = pos ∧ x ≠ y ∨ differ a b (pos + 1) i.
Proof.
  unfold differ. assert (zlen (x :: a) = zlen a + 1) as -> by (unfold zlen; cbn [length]; lia).
  pose proof (zlen_nonneg a). split.
  - intros [Hi Hd]. destruct (decide (i = pos)) as [->|Hne].
    + left. rewrite Z.sub_diag in Hd. split; [done|]. intros ->. by apply Hd.
    + right. replace (Z.to_nat (i - pos)) with (S (Z.to_nat (i - (pos + 1)))) in Hd by lia.
      split; [lia|done].
  - intros [[-> Hd]|[Hi Hd]].
    + rewrite Z.sub_diag. split; [lia|]. intros Heq. apply Hd. by injection Heq.
    + replace (Z.to_nat (i - pos)) with (S (Z.to_nat (i - (pos + 1)))) by lia. split; [lia|done].
Qed.

Lemma locate_loop_spec a b pos f l : length a = length b → 0 <= pos →
  (f = -1 ∨ 0 <= f) →
  let '(f', l') := locate_loop a b pos f l in
  f' = f ∧ l' = l ∧ (∀ i, ¬ differ a b pos i) ∨
  differ a b pos l' ∧ (∀ i, differ a b pos i → i <= l') ∧ (f ≠ -1 → f' = f) ∧
  (f = -1 → differ a b pos f' ∧ ∀ i, differ a b pos i → f' <= i).
Proof.
  revert b pos f l. induction a as [|x a IH]; intros [|y b] pos f l Hl Hpos Hf; try done.
  { left. split; [done|]. split; [done|]. intros i [Hi _]. unfold zlen in Hi. cbn in Hi. lia. }
  injection Hl as Hl. cbn [locate_loop].
  assert (∀ i, differ a b (pos + 1) i → pos + 1 <= i) as Hge by (intros i [? _]; lia).
  destruct (decide (x ≠ y)) as [Hxy|Hxy].
  - specialize (IH b (pos + 1) (if decide (f = -1) then pos else f) pos Hl ltac:(lia)).
    destruct (locate_loop a b _ _ _) as [f' l']. setoid_rewrite differ_cons.
    destruct IH as [(->&->&Hno)|(Hd&Hmax&Hf1&Hf2)]; [case_decide; lia| |].
    + right. split; [by left|]. split; [intros i [[-> _]|?%Hno]; [lia|done]|].
      split; [intros ?; by rewrite decide_False|]. intros ->. rewrite decide_True by done.
      split; [by left|]. intros i [[-> _]|?%Hno]; [lia|done].
    + right. split; [by right|]. split; [intros i [[-> _]|?]; [apply Hge in Hd; lia|by apply Hmax]|].
      destruct (decide (f = -1)) as [->|Hne].
      * rewrite Hf1 by lia. split; [done|]. intros _. split; [by left|].
        intros i [[-> _]|?%Hge]; lia.
      * split; [intros _; apply Hf1; lia|done].
  - specialize (IH b (pos + 1) f l Hl ltac:(lia) Hf). destruct (locate_loop a b _ _ _) as [f' l'].
    setoid_rewrite differ_cons.
    assert (x = y) as <- by (by destruct (decide (x = y))).
    destruct IH as [(->&->&Hno)|(Hd&Hmax&Hf1&Hf2)].
    + left. split; [done|]. split; [done|]. intros i [[_ ?]|?%Hno]; done.
    + right. split; [by right|]. split; [intros i [[_ ?]|?]; [done|by apply Hmax]|]. split; [done|].
      intros H1. destruct (Hf2 H1) as [? Hmin]. split; [by right|].
      intros i [[_ ?]|?]; [done|by apply Hmin].
Qed.

Lemma locate_diffs_ok ptr1 ptr2 len : 0 <= len → len <= zlen ptr1 → len <= zlen ptr2 →
  ∃ f l, locate_diffs ptr1 ptr2 len = Some (f, l) ∧
    let a := take (Z.to_nat len) ptr1 in let b := take (Z.to_nat len) ptr2 in
    (f = -1 ∧ l = -1 ∧ (∀ i, ¬ differ a b 0 i) ∨
     differ a b 0 f ∧ differ a b 0 l ∧ ∀ i, differ a b 0 i → f <= i <= l).
Proof.
  intros H0 H1 H2. unfold locate_diffs. rewrite !slice_is_Some by lia. rewrite !drop_0. cbn.
  pose proof (locate_loop_spec (take (Z.to_nat len) ptr1) (take (Z.to_nat len) ptr2) 0 (-1) (-1)) as Hs.
  destruct (locate_loop _ _ 0 (-1) (-1)) as [f l]. exists f, l. split; [done|].
  destruct Hs as [?|(Hl&Hmax&_&Hf)]; [unfold zlen in *; rewrite !length_take; lia|lia|lia|by left|].
  right. destruct (Hf eq_refl) as [? Hmin]. split; [done|]. split; [done|]. auto.
Qed.

(** [locate_diffs] returns the least and the greatest position at which the
    first [len] bytes of the buffers differ, or -1 twice when they agree. *)
Theorem locate_diffs_bounds ptr1 ptr2 len :
  0 <= len → len <= zlen ptr1 → len <= zlen ptr2 →
  ∃ f l, locate_diffs ptr1 ptr2 len = Some (f, l) ∧
    let a := take (Z.to_nat len) ptr1 in let b := take (Z.to_nat len) ptr2 in
    (f = -1 ∧ l = -1 ∧ (∀ i, ¬ differ a b 0 i) ∨
     differ a b 0 f ∧ differ a b 0 l ∧ ∀ i, differ a b 0 i → f <= i <= l).
Proof. apply locate_diffs_ok. Qed.

Lemma locate_diffs_bounds_witness :
  ∃ f l, locate_diffs [1; 2; 3; 4] [1; 9; 3; 9; 5] 4 = Some (f, l) ∧
    let a := [1; 2; 3; 4] in let b := [1; 9; 3; 9] in
    (f = -1 ∧ l = -1 ∧ (∀ i, ¬ differ a b 0 i) ∨
     differ a b 0 f ∧ differ a b 0 l ∧ ∀ i, differ a b 0 i → f <= i <= l).
Proof.
  apply (locate_diffs_bounds [1; 2; 3; 4] [1; 9; 3; 9; 5] 4); unfold zlen; cbn; lia.
Defined.

Section splice.
Context {W : Type} `{!Target W, !TargetOK W}.
Implicit Types s : fuzz W.

(** One of the next [fuel] draws of [rand] selects another element than [q]
    of [n].  [Splice] repeats its draw until this happens. *)
Fixpoint draws_other (fuel : nat) (n q : Z) (w : W) : Prop :=
  match fuel with
  | O => False
  | S fuel' =>
      match rand w with
      | (Norm r, w') => r mod n ≠ q ∨ draws_other fuel' n q w'
      | _ => False
      end
  end.

Lemma wp_pick_other fuel qCur s (Q : Z → fuzz W → Prop) R E : t_inv s.(world) →
  1 < zlen (seeds s.(world)) →
  draws_other fuel (zlen (seeds s.(world))) (Z.of_nat qCur) s.(world) →
  (∀ r w', 0 <= r < zlen (seeds w') → t_inv w' → seeds w' = seeds s.(world) →
     queueCycle w' = queueCycle s.(world) → Q r (set_world w' s)) →
  wp (pick_other fuel qCur) Q R E s.
Proof.
  revert s. induction fuel as [|fuel IH]; intros s Hi Hn Hd HQ; [done|].
  pose proof (seeds_count _ Hi) as Hcount. cbn [pick_other].
  apply wp_bind, wp_gets, wp_bind. unfold randNum. rewrite u32_id by (unfold is_u32; lia).
  apply wp_ifd; intros H0; [lia|]. apply wp_bind, wp_zoom. pose proof (rand_ok _ Hi) as Hr. unfold wp in Hr |- *. cbn [draws_other] in Hd.
  destruct (rand s.(world)) as [[r|?|?| |] w']; try done. destruct Hr as (Hr&Hi'&Hs'&Hc').
  change (wp (if decide (r mod zlen (seeds s.(world)) = Z.of_nat qCur) then pick_other fuel qCur
              else mret (r mod zlen (seeds s.(world)))) Q R E (set_world w' s)).
  assert (0 <= r mod zlen (seeds s.(world)) < zlen (seeds s.(world))) as Hm
    by (apply Z.mod_pos_bound; lia).
  apply wp_ifd; intros Heq; [|wp_steps; apply HQ; (done || by rewrite Hs')].
  apply IH; cbn [world set_world]; [done|by rewrite Hs'| |].
  - rewrite Hs'. by destruct Hd.
  - intros r2 w2 H1 H2 H3 H4. apply HQ; congruence || done.
Qed.

(** Between two cycles of [Splice]. *)
Record spliced s0 s : Prop := Spliced {
  sp_inv : t_inv s.(world);
  sp_file : s.(filemap) = s0.(filemap);
  sp_useful : s.(useful_byte) = s0.(useful_byte);
  sp_auto : s.(autoToken) = s0.(autoToken);
  sp_pointed : s.(pointedToken) = s0.(pointedToken);
  sp_grows : grows (seeds s0.(world)) (seeds s.(world));
  sp_cycle : queueCycle s.(world) = queueCycle s0.(world);
}.

Definition small_input (x : list Z) : Prop := 1 <= zlen x < 2 ^ 28 ∧ Forall is_u8 x.

(** At most [n] small inputs more than in [s]. *)
Definition submits_some (n : Z) s s' : Prop :=
  ∃ xs, s'.(submitted) = s.(submitted) ++ xs ∧ Forall small_input xs ∧ zlen xs <= n.

Lemma submits_some_0 s : submits_some 0 s s.
Proof. exists []. rewrite app_nil_r. split; [done|]. split; [constructor|done]. Qed.

Lemma submits_some_trans n m s1 s2 s3 :
  submits_some n s1 s2 → submits_some m s2 s3 → submits_some (n + m) s1 s3.
Proof.
  intros (xs&E1&H1&Z1) (ys&E2&H2&Z2). exists (xs ++ ys). rewrite E2, E1, app_assoc.
  split; [done|]. split; [by apply Forall_app_2|]. rewrite zlen_app. lia.
Qed.

Lemma submits_some_le n m s1 s2 : submits_some n s1 s2 → n <= m → submits_some m s1 s2.
Proof. intros (xs&E1&H1&Z1) Hle. exists xs. split; [done|]. split; [done|lia]. Qed.

Context (s0 : fuzz W) (fuel : nat) (len : Z) (qCur : nat).
Hypothesis Hready : havoc_ready len s0.
Hypothesis Hseeds : 1 < zlen (seeds s0.(world)).
Hypothesis Hfair : ∀ w n, t_inv w → 2 <= n < 2 ^ 32 → draws_other fuel n (Z.of_nat qCur) w.

Lemma havoc_other_ok other_buf n s : spliced s0 s → zlen other_buf = n → 2 <= n < 2 ^ 28 →
  Forall is_u8 other_buf →
  wp (havoc_other other_buf n) (λ _ s', spliced s0 s' ∧ submits_some 128 s s')
    (λ r s', r = 1 ∧ aborted s0 s' ∧ submits_some 128 s s') (λ _ _, True) s.
Proof.
  intros Hs Hz Hn Hb. pose proof Hs as [Hi Hf Hu Ha Hp Hg Hc].
  unfold havoc_other. wp_steps. apply wp_call.
  assert (havoc_ready n (set_filemap other_buf s)) as Hr.
  { destruct Hready. split; cbn; rewrite ?Ha, ?Hp; try done; lia. }
  eapply wp_mono; [apply (Havoc_ok n SPLICE_HAVOC); [done|set_solver]|done| |done].
  intros r s1 (xs&E1&Hxs&Hzx&Hor).
  assert (∀ f, submits_some 128 s (set_filemap f s1)) as Hsub.
  { intros f. exists xs. split; [done|]. split; [|done]. eapply Forall_impl; [|exact Hxs].
    intros x [? ?]. split; [unfold MAX_FILE_LEN in *; lia|done]. }
  destruct Hor as [(->&[]&_)|[-> []]]; wp_steps; try done; try lia.
  - split; [|apply Hsub]. split; cbn in *; try congruence. by eapply grows_trans.
  - split; [done|]. split; [|apply Hsub]. split; cbn in *; try congruence. by eapply grows_trans.
Qed.

Lemma skip_short_Some l e : skip_short l = Some e → e ∈ l ∧ 2 <= e.(fileLen).
Proof.
  induction l as [|x l IH]; [done|]. cbn. case_decide as Hd.
  - intros [? ?]%IH. split; [by right|done].
  - intros [= <-]. split; [left|lia].
Qed.

Lemma splice_cycle_ok s : spliced s0 s →
  wp (splice_cycle fuel len qCur) (λ _ s', spliced s0 s' ∧ submits_some 128 s s')
    (λ r s', r = 1 ∧ aborted s0 s' ∧ submits_some 128 s s') (λ _ _, True) s.
Proof.
  intros Hs. pose proof Hs as [Hi Hf Hu Ha Hp Hg Hc]. pose proof Hready as [_ Hb Hl Hcap _ _].
  assert (1 < zlen (seeds s.(world)) < 2 ^ 32) as Hn.
  { split; [|by apply seeds_count]. apply prefix_length in Hg. rewrite !length_fmap in Hg.
    unfold zlen in *. lia. }
  assert (submits_some 128 s s) as Hsame by (eapply submits_some_le; [apply submits_some_0|lia]).
  unfold splice_cycle. apply wp_bind, wp_pick_other; [done|lia|apply Hfair; [done|lia]|].
  intros o w1 _ Hi1 Hs1 Hc1. apply wp_bind, wp_gets.
  assert (∀ w, t_inv w → seeds w = seeds s.(world) → queueCycle w = queueCycle s.(world) →
    spliced s0 (set_world w s) ∧ submits_some 128 s (set_world w s)) as Hw.
  { intros w Hiw Hsw Hcw. split; [|exact Hsame]. split; cbn; try done; congruence || by rewrite Hsw. }
  destruct (skip_short _) as [e|] eqn:He; [|wp_steps; by apply Hw].
  apply skip_short_Some in He as [He Hlen2]. cbn [world set_world] in He.
  assert (e ∈ seeds w1) as Hfl
    by (rewrite <-(take_drop (Z.to_nat o) (seeds w1)); apply elem_of_app; by right).
  apply (proj1 (list.Forall_forall _ _) (seeds_small _ Hi1)) in Hfl.
  assert (∀ w, t_inv w → seeds w = seeds w1 → queueCycle w = queueCycle w1 →
    1 = 1 ∧ aborted s0 (set_world w (set_world w1 s)) ∧
    submits_some 128 s (set_world w (set_world w1 s))) as Hgive.
  { intros w Hiw Hsw Hcw. split; [done|]. split; [|exact Hsame].
    split; cbn; try done; [by rewrite Hsw, Hs1|congruence]. }
  unfold read_other. apply wp_bind, wp_bind, wp_zoom.
  eapply wp_mono; [by apply read_file_ok| |done|done]. intros [content|] w2 (Hi2&Hs2&Hc2&Hbc);
    [|wp_steps; by apply Hgive].
  specialize (Hbc content eq_refl). apply wp_ifd; intros Hres; [wp_steps; by apply Hgive|].
  apply wp_mret. assert (zlen (take (Z.to_nat e.(fileLen)) content) = e.(fileLen)) as Hzo
    by (unfold zlen in *; rewrite length_take; lia).
  remember (take (Z.to_nat e.(fileLen)) content) as other_buf eqn:Eo.
  assert (Forall is_u8 other_buf) as Hbo by (subst; by apply Forall_take). clear Eo.
  destruct (Hw w2) as [Hsp Hsu]; [done|by rewrite Hs2|by rewrite Hc2|].
  destruct (locate_diffs_ok s.(filemap) other_buf (Z.min len e.(fileLen))) as (f&l&Hd&Hspec);
    [lia|rewrite Hf; lia|lia|].
  apply wp_bind. eapply wp_from_option; [exact Hd|]. cbn [fst snd].
  apply wp_ifd; intros Hcond; [by wp_steps|].
  assert (0 <= f < l ∧ l < Z.min len e.(fileLen)) as [Hfl1 Hl1].
  { destruct Hspec as [?|(Hf1&[Hl1 _]&Hm)]; [lia|]. pose proof (Hm f Hf1). destruct Hf1 as [Hf1 _].
    unfold zlen in Hf1, Hl1. rewrite length_take in Hf1, Hl1. lia. }
  apply wp_bind, wp_randNum_inv; [apply Hsp|lia|]. intros r w3 Hr Hi3 Hs3 Hc3. cbn [world set_world] in *.
  destruct (Hw w3) as [Hsp3 Hsu3]; [done|congruence|congruence|].
  assert (slice s.(filemap) 0 (f + r) = Some (take (Z.to_nat (f + r)) s.(filemap))) as Hsl
    by (rewrite slice_is_Some, drop_0 by (rewrite ?Hf; lia); done).
  apply wp_bind. eapply wp_from_option; [exact Hsl|]. apply slice_Some in Hsl as (_&_&_&Hzh&_).
  apply wp_bind. eapply wp_from_option; [apply blit_put; lia|].
  apply (havoc_other_ok _ _ (set_world w3 (set_world w2 (set_world w1 s)))); [exact Hsp3| |lia|].
  - rewrite zlen_put; lia.
  - apply put_bytes; [done|]. rewrite Hf. by apply Forall_take.
Qed.

Lemma Splice_ok :
  wp (Splice fuel len qCur) (λ _ _, False)
    (λ r s', submits_some (SPLICE_CYCLES * 128) s0 s' ∧
       (r = 0 ∧ spliced s0 s' ∨ r = 1 ∧ aborted s0 s'))
    (λ _ _, True) s0.
Proof.
  assert (spliced s0 s0) as Hs0 by (destruct Hready; split; try done; unfold grows; done).
  unfold Splice. wp_steps.
  { split; [eapply submits_some_le; [apply submits_some_0|done]|by left]. }
  eapply wp_mono; [apply (wp_for_up 0 SPLICE_CYCLES _ (λ i s', spliced s0 s' ∧ submits_some (i * 128) s0 s')
    (λ r s', r = 1 ∧ aborted s0 s' ∧ submits_some (SPLICE_CYCLES * 128) s0 s') (λ _ _, True))| | |done].
  - done.
  - split; [done|apply submits_some_0].
  - intros i s' Hi [Hs' Hsub]. eapply wp_mono; [by apply splice_cycle_ok| | |done].
    + intros [] s2 [Hs2 Hsub2]. split; [done|]. eapply submits_some_le; [by eapply submits_some_trans|lia].
    + intros r s2 (->&?&Hsub2). split; [done|]. split; [done|]. eapply submits_some_le; [by eapply submits_some_trans|lia].
  - intros [] s' [Hs' Hsub]. wp_steps. split; [done|by left].
  - intros r s' (->&?&Hsub). split; [done|by right].
Qed.
End splice.

Section claims.
Context {W : Type} `{!Target W, !TargetOK W}.
Implicit Types s : fuzz W.

(** C21. [Havoc], whatever [rand] returns: no read or write outside of the buffer
    through all reallocations, at least [cycles] and at most 128 runs although the
    number of rounds doubles while the queue grows, every input has at least one
    byte and at most the length of the file or [MAX_FILE_LEN], and at the end the
    buffer starts with the file again and the tables are as before. *)
Theorem Havoc_safe len cycles s : havoc_ready len s → cycles ∈ [8; 16; 32; 64; 128] →
  wp (Havoc len cycles) (λ _ _, False)
    (λ r s', ∃ xs, s'.(submitted) = s.(submitted) ++ xs ∧ Forall (input_ok len) xs ∧
       zlen xs <= 128 ∧
       (r = 0 ∧ havocked s len s' ∧ cycles <= zlen xs ∨ r = 1 ∧ aborted s s'))
    (λ _ _, True) s.
Proof. apply Havoc_ok. Qed.

(** [Splice], when the repeated draw of another seed ends: no read or write
    outside of the two buffers, at most 15 times 128 runs, and the file and the
    tables are as before. *)
Theorem Splice_safe s fuel len qCur : havoc_ready len s → 1 < zlen (seeds s.(world)) →
  (∀ w n, t_inv w → 2 <= n < 2 ^ 32 → draws_other fuel n (Z.of_nat qCur) w) →
  wp (Splice fuel len qCur) (λ _ _, False)
    (λ r s', submits_some (SPLICE_CYCLES * 128) s s' ∧
       (r = 0 ∧ spliced s s' ∨ r = 1 ∧ aborted s s'))
    (λ _ _, True) s.
Proof. apply Splice_ok. Qed.
End claims.

Lemma demo_havoc_ready : havoc_ready 4 demo.
Proof.
  destruct demo_ready as [Hi Hb Hl _]. split; [done|done|lia|unfold zlen; cbn; lia|..].
  - split; [apply demo_tokens|done].
  - split; [constructor|done].
Qed.

Lemma Havoc_safe_witness :
  wp (Havoc 4 8) (λ _ _, False)
    (λ r s', ∃ xs, s'.(submitted) = demo.(submitted) ++ xs ∧ Forall (input_ok 4) xs ∧
       zlen xs <= 128 ∧ (r = 0 ∧ havocked demo 4 s' ∧ 8 <= zlen xs ∨ r = 1 ∧ aborted demo s'))
    (λ _ _, True) demo.
Proof. apply (Havoc_safe 4 8 demo); [apply demo_havoc_ready|left]. Defined.

(** A target whose [rand] counts up. *)
Record ticking := Ticking { tick : Z; tick_seeds : list seed }.

#[export] Instance ticking_target : Target ticking := {|
  FuzzUnit := λ _, mret 0;
  globalTraceBit := λ _, [];
  seeds := tick_seeds;
  queueCycle := λ _, 3;
  rand := λ w, (Norm w.(tick), Ticking ((w.(tick) + 1) mod 2 ^ 31) w.(tick_seeds));
  read_file := λ _, mret (Some [9; 8; 7; 6]);
|}.

#[export] Instance ticking_ok : TargetOK ticking.
Proof.
  refine {| t_inv := λ w, 0 <= w.(tick) < 2 ^ 31 ∧
    Forall (λ e, 0 <= e.(fileLen) < 2 ^ 28) w.(tick_seeds) ∧ zlen w.(tick_seeds) < 2 ^ 32 |}.
  - intros buf w Hw _. apply wp_mret. unfold grows. by repeat split; try apply Hw.
  - intros w Hw. split; [apply Hw|]. split; [|done]. split; [|apply Hw]. cbn.
    apply Z.mod_pos_bound. lia.
  - intros name w Hw. apply wp_mret. split; [done|]. split; [done|]. split; [done|].
    intros b [= <-]. apply (bool_decide_unpack _). vm_compute. exact I.
  - intros w Hw. apply Hw.
  - intros w Hw. apply Hw.
Defined.

(** Three draws in a row do not select the same element. *)
Lemma ticking_fair (w : ticking) n q : t_inv w → 2 <= n < 2 ^ 32 → draws_other 3 n q w.
Proof.
  intros [Ht _] Hn. set (t := w.(tick)) in *. cbn. fold t.
  destruct (decide (t mod n = q)) as [E1|]; [right|by left].
  destruct (decide ((t + 1) mod 2 ^ 31 mod n = q)) as [E2|]; [right|by left]. left. intros E3.
  destruct (decide (t + 1 < 2 ^ 31)) as [Hlt|Hge].
  - rewrite (Z.mod_small (t + 1)) in E2 by lia.
    pose proof (Zplus_mod t 1 n) as Hp. rewrite (Z.mod_small 1 n), E1, E2 in Hp by lia.
    pose proof (Z.mod_pos_bound t n). destruct (decide (q + 1 < n)).
    + rewrite Z.mod_small in Hp; lia.
    + replace (q + 1) with n in Hp by lia. rewrite Z.mod_same in Hp; lia.
  - replace (t + 1) with (2 ^ 31) in * by lia. rewrite Z.mod_same in * by lia.
    rewrite Z.mod_0_l in E2 by lia. change ((0 + 1) mod 2 ^ 31) with 1 in E3.
    rewrite Z.mod_small in E3; lia.
Qed.

Definition two_files : fuzz ticking :=
  Fuzz [1; 2; 200; 4] 4 [true; true; true; true] [([7; 8; 9], 1)] [] []
    (Ticking 5 [new_seed "a" 4 None None; new_seed "b" 4 None None]).

Lemma two_files_ready : havoc_ready 4 two_files.
Proof.
  split; [|apply demo_ready|lia|unfold zlen; cbn; lia|split; [apply demo_tokens|done]|split; [constructor|done]].
  cbn. split; [lia|]. split; [|done]. repeat (constructor; [cbn; lia|]). constructor.
Qed.

Lemma Splice_safe_witness :
  wp (Splice 3 4 0) (λ _ _, False)
    (λ r s', submits_some (SPLICE_CYCLES * 128) two_files s' ∧
       (r = 0 ∧ spliced two_files s' ∨ r = 1 ∧ aborted two_files s'))
    (λ _ _, True) two_files.
Proof.
  apply (Splice_safe two_files 3 4 0).
  - apply two_files_ready.
  - unfold zlen. cbn. lia.
  - intros w n Hw Hn. by apply ticking_fair.
Defined.
