(* ===== verification/Faults.v ===== *)
(** * Fault units

    The pure half of [fuzz/fuzzer/old/FaultInjectionEngin.cpp] and
    [are_errors_triggered] of [TestRunning.cpp]: an error list says, for each
    error site of the target, whether its call is made to fail; the sites that are
    set form a fault unit. *)

From S2P Require Import Prelude.

Definition are_errors_triggered (error_list error_trace : list Z) : bool :=
  existsb (λ p, negb (p.1 =? 0) && negb (p.2 =? 0)) (zip error_list error_trace).

(** The [std::set] of the sites [i] with [error_list[i] == 1], in the order of
    its iterators. *)
Definition fault_unit (error_list : list Z) : list Z :=
  filter (λ i, nthZ error_list i = 1) (seqZ 0 (zlen error_list)).

(** Lines 41-48: is [fu_test] a subset of [fu]? *)
Fixpoint fu_subset (fu_test fu : list Z) : bool :=
  match fu_test with
  | [] => true
  | num :: rest => if bool_decide (num ∈ fu) then fu_subset rest fu else false
  end.

Fixpoint unique_among (fus : list (list Z)) (fu : list Z) : bool :=
  match fus with
  | [] => true
  | fu_test :: rest => if fu_subset fu_test fu then false else unique_among rest fu
  end.

Definition is_unique_fault (fu_list : list (list Z)) (error_list : list Z) : bool :=
  unique_among fu_list (fault_unit error_list).

Definition save_crashed_fu (fu_list : list (list Z)) (error_list : list Z) : list (list Z) :=
  fu_list ++ [fault_unit error_list].

Definition show_bit (mem : list Z) (bit_loc : Z) : Z := nthZ mem bit_loc.
Definition flip_bit (mem : list Z) (bit_loc : Z) : list Z :=
  <[Z.to_nat bit_loc := u8 (1 - nthZ mem bit_loc)]> mem.

(** ** Lemmas *)

Lemma elem_of_fault_unit error_list i :
  i ∈ fault_unit error_list ↔ 0 <= i < zlen error_list ∧ nthZ error_list i = 1.
Proof. unfold fault_unit. rewrite list_elem_of_filter, elem_of_seqZ. lia. Qed.

Lemma fu_subset_spec a b : fu_subset a b = true ↔ a ⊆ b.
Proof.
  induction a as [|x a IH]; cbn [fu_subset]; [split; [set_solver|done]|].
  case_bool_decide as Hx.
  - rewrite IH. set_solver.
  - split; [done|]. set_solver.
Qed.

Lemma unique_among_spec fus fu : unique_among fus fu = true ↔ ∀ t, t ∈ fus → ¬ t ⊆ fu.
Proof.
  induction fus as [|t fus IH]; cbn [unique_among]; [split; [set_solver|done]|].
  destruct (fu_subset t fu) eqn:Ht.
  - apply fu_subset_spec in Ht. split; [done|]. intros H. exfalso. apply (H t); [left|done].
  - rewrite IH. split; [|set_solver]. intros H u [->|Hu]%elem_of_cons; [|by apply H].
    rewrite <-fu_subset_spec. congruence.
Qed.

(** No unit was saved after one of its subsets. *)
Definition minimal_units (fus : list (list Z)) : Prop :=
  ∀ i j a b, (i < j)%nat → fus !! i = Some a → fus !! j = Some b → ¬ a ⊆ b.

Lemma minimal_units_save fus error_list : minimal_units fus →
  is_unique_fault fus error_list = true → minimal_units (save_crashed_fu fus error_list).
Proof.
  intros Hm Hu i j a b Hij Ha Hb. unfold save_crashed_fu in *.
  apply lookup_app_Some in Hb as [Hb|[Hj Hb]].
  - rewrite lookup_app_l in Ha by (apply lookup_lt_Some in Hb; lia). by eapply Hm.
  - apply list_lookup_singleton_Some in Hb as [Hj' <-].
    rewrite lookup_app_l in Ha by lia. apply (proj1 (unique_among_spec _ _) Hu).
    by eapply list_elem_of_lookup_2.
Qed.

Lemma are_errors_triggered_spec error_list error_trace :
  are_errors_triggered error_list error_trace = true ↔
  ∃ i a b, error_list !! i = Some a ∧ error_trace !! i = Some b ∧ a ≠ 0 ∧ b ≠ 0.
Proof.
  unfold are_errors_triggered. rewrite existsb_exists. split.
  - intros ([a b]&Hin&Hp). apply list_elem_of_In, list_elem_of_lookup_1 in Hin as [i Hi].
    apply lookup_zip_with_Some in Hi as (a'&b'&[= -> ->]&Ha&Hb).
    apply andb_prop in Hp as [H1 H2]. cbn in H1, H2. exists i, a', b'.
    repeat split; try done; intros ->; done.
  - intros (i&a&b&Ha&Hb&Ha0&Hb0). exists (a, b). split.
    + apply list_elem_of_In. apply list_elem_of_lookup. exists i.
      apply lookup_zip_with_Some. eauto.
    + cbn. apply andb_true_intro. split; apply negb_true_iff, Z.eqb_neq; done.
Qed.
