(* ===== verification/Execution.v ===== *)
(** * Running the target and keeping what it finds

    [fuzz/fuzzer/old/TestRunning.cpp]: [ExecuteCase], [CalibrateCase],
    [DryRunning], the crash and hang handlers, [AddInterestingSeed] and
    [FuzzUnit], with the globals of [Main.cpp] they work on.

    The target program, the clock, the file system's decision to accept a write
    and the fuzzers of the same group are parameters (class [Env]).  The build
    sets [NO_CONCURRENCY_FUZZ]; whether it sets [NO_FUZZING_ERROR] is the field
    [fuzzing_error] of the configuration.  [no_forkserver] is 1 and never
    assigned, so the fork server is left out.  The counters of the shared memory
    that [ExecuteCase] clears for the target and the messages on [cout] are read
    by no code of the fuzzer and are left out as well. *)

From S2P Require Import Prelude.
From S2P Require Import Decimal.
From S2P Require Import TraceMap.
From S2P Require Import Queue.
From S2P Require Import Faults.

Definition FAULT_NONE : Z := 0.
Definition FAULT_TMOUT : Z := 1.
Definition FAULT_CRASH : Z := 2.
Definition FAULT_ERROR : Z := 3.
Definition SIGKILL : Z := 9.
Definition CAL_CYCLES : Z := 1.
Definition EXEC_TIMEOUT : Z := 20000000.
Definition MAX_LIST_SIZE_POW2 : Z := 13.
Definition MAX_LIST_SIZE : Z := Z.shiftl 1 MAX_LIST_SIZE_POW2.
Definition master_sync_cycle : Z := 5.
Definition slave_sync_cycle : Z := 10.
Definition file_lock : string := "file_lock".

(** ** File names *)

(** [sprintf(ss, "%06u", num)] into [char ss[10]]: undefined when the digits
    and the final NUL do not fit. *)
Definition num2str_Keep6bit (num : Z) : option string :=
  let s := to_string num in
  let s := zeros (6 - String.length s) s in
  if decide (String.length s < 10)%nat then Some s else None.

(** ** The globals *)

Inductive counter :=
  | unique_crash_count | unique_hang_count | total_crash_count | total_timeout_count
  | exec_count | total_input | usefule_input | total_error_seq | useful_error_seq
  | unique_ex_hang_count | total_ex_timeout_count | unique_ex_crash_count
  | total_cal_us | total_cal_cycles.

#[export] Instance counter_eq_dec : EqDecision counter.
Proof. solve_decision. Defined.

Definition width (c : counter) : Z :=
  match c with
  | exec_count | total_input | usefule_input | total_error_seq | useful_error_seq
  | total_cal_us | total_cal_cycles => 64
  | _ => 32
  end.

(** The counters in shared memory: the fuzzer resets them, the target and its injector
    count in them. *)
Record shm_counters := ShmCounters {
  variableStateChangeCount : Z;
  concurrentFunctionCountVar : Z;
  tickNum : Z;
}.

(** What [fork], [execv] and [waitpid] give back: the maps and the counters that the
    target leaves in the shared memory, its wait status, and whether [HandleTimeout] ran
    before it ended. *)
Inductive wait_status := Exited (code : Z) | Signaled (sig : Z).
Record child := Child {
  c_trace : list Z;
  c_branch : list Z;
  c_errors : list Z;
  c_counters : shm_counters;
  c_status : wait_status;
  c_alarm : bool;
}.

(** [errorList] is written by the fuzzer and read by the target; [sync_cov_ptr]
    holds both shared coverage maps, [None] being the null pointers; [runs],
    [ticks] and [draws] count the runs of the target, the readings of the clock and
    the calls of [rand]; [synced_ids] is the directory [.synced/], by the names of the
    other fuzzers. *)
Record globals := Globals {
  qs : qstate;
  globalTraceBit : list Z;
  branchTraceBit : list Z;
  errorTraced : list Z;
  virginMap : list Z;
  virginMapForBranchTraceBit : list Z;
  errorList : list Z;
  crashTrace : list bool;
  timeoutTrace : list bool;
  fu_list : list (list Z);
  counts : counter → Z;
  child_timed_out : bool;
  killSignal : Z;
  exec_tmout : Z;
  hang_tmout : Z;
  timeout_given : Z;
  havoc_div : Z;
  queueCycle : Z;
  fuzz_time : Z;
  sync_cov_ptr : option (list Z * list Z);
  files : fs;
  runs : nat;
  ticks : nat;
  draws : nat;
  synced_ids : fs;
  shared : shm_counters;
}.

Definition set_qs (x : qstate) (g : globals) : globals :=
  Globals x g.(globalTraceBit) g.(branchTraceBit) g.(errorTraced) g.(virginMap)
    g.(virginMapForBranchTraceBit) g.(errorList) g.(crashTrace) g.(timeoutTrace) g.(fu_list)
    g.(counts) g.(child_timed_out) g.(killSignal) g.(exec_tmout) g.(hang_tmout)
    g.(timeout_given) g.(havoc_div) g.(queueCycle) g.(fuzz_time) g.(sync_cov_ptr) g.(files)
    g.(runs) g.(ticks) g.(draws) g.(synced_ids) g.(shared).
Definition set_globalTraceBit (x : list Z) (g : globals) : globals :=
  Globals g.(qs) x g.(branchTraceBit) g.(errorTraced) g.(virginMap)
    g.(virginMapForBranchTraceBit) g.(errorList) g.(crashTrace) g.(timeoutTrace) g.(fu_list)
    g.(counts) g.(child_timed_out) g.(killSignal) g.(exec_tmout) g.(hang_tmout)
    g.(timeout_given) g.(havoc_div) g.(queueCycle) g.(fuzz_time) g.(sync_cov_ptr) g.(files)
    g.(runs) g.(ticks) g.(draws) g.(synced_ids) g.(shared).
Definition set_branchTraceBit (x : list Z) (g : globals) : globals :=
  Globals g.(qs) g.(globalTraceBit) x g.(errorTraced) g.(virginMap)
    g.(virginMapForBranchTraceBit) g.(errorList) g.(crashTrace) g.(timeoutTrace) g.(fu_list)
    g.(counts) g.(child_timed_out) g.(killSignal) g.(exec_tmout) g.(hang_tmout)
    g.(timeout_given) g.(havoc_div) g.(queueCycle) g.(fuzz_time) g.(sync_cov_ptr) g.(files)
    g.(runs) g.(ticks) g.(draws) g.(synced_ids) g.(shared).
Definition set_errorTraced (x : list Z) (g : globals) : globals :=
  Globals g.(qs) g.(globalTraceBit) g.(branchTraceBit) x g.(virginMap)
    g.(virginMapForBranchTraceBit) g.(errorList) g.(crashTrace) g.(timeoutTrace) g.(fu_list)
    g.(counts) g.(child_timed_out) g.(killSignal) g.(exec_tmout) g.(hang_tmout)
    g.(timeout_given) g.(havoc_div) g.(queueCycle) g.(fuzz_time) g.(sync_cov_ptr) g.(files)
    g.(runs) g.(ticks) g.(draws) g.(synced_ids) g.(shared).
Definition set_virginMap (x : list Z) (g : globals) : globals :=
  Globals g.(qs) g.(globalTraceBit) g.(branchTraceBit) g.(errorTraced) x
    g.(virginMapForBranchTraceBit) g.(errorList) g.(crashTrace) g.(timeoutTrace) g.(fu_list)
    g.(counts) g.(child_timed_out) g.(killSignal) g.(exec_tmout) g.(hang_tmout)
    g.(timeout_given) g.(havoc_div) g.(queueCycle) g.(fuzz_time) g.(sync_cov_ptr) g.(files)
    g.(runs) g.(ticks) g.(draws) g.(synced_ids) g.(shared).
Definition set_virginMapForBranchTraceBit (x : list Z) (g : globals) : globals :=
  Globals g.(qs) g.(globalTraceBit) g.(branchTraceBit) g.(errorTraced) g.(virginMap) x
    g.(errorList) g.(crashTrace) g.(timeoutTrace) g.(fu_list) g.(counts) g.(child_timed_out)
    g.(killSignal) g.(exec_tmout) g.(hang_tmout) g.(timeout_given) g.(havoc_div) g.(queueCycle)
    g.(fuzz_time) g.(sync_cov_ptr) g.(files) g.(runs) g.(ticks) g.(draws) g.(synced_ids) g.(shared).
Definition set_errorList (x : list Z) (g : globals) : globals :=
  Globals g.(qs) g.(globalTraceBit) g.(branchTraceBit) g.(errorTraced) g.(virginMap)
    g.(virginMapForBranchTraceBit) x g.(crashTrace) g.(timeoutTrace) g.(fu_list) g.(counts)
    g.(child_timed_out) g.(killSignal) g.(exec_tmout) g.(hang_tmout) g.(timeout_given)
    g.(havoc_div) g.(queueCycle) g.(fuzz_time) g.(sync_cov_ptr) g.(files) g.(runs) g.(ticks)
    g.(draws) g.(synced_ids) g.(shared).
Definition set_crashTrace (x : list bool) (g : globals) : globals :=
  Globals g.(qs) g.(globalTraceBit) g.(branchTraceBit) g.(errorTraced) g.(virginMap)
    g.(virginMapForBranchTraceBit) g.(errorList) x g.(timeoutTrace) g.(fu_list) g.(counts)
    g.(child_timed_out) g.(killSignal) g.(exec_tmout) g.(hang_tmout) g.(timeout_given)
    g.(havoc_div) g.(queueCycle) g.(fuzz_time) g.(sync_cov_ptr) g.(files) g.(runs) g.(ticks)
    g.(draws) g.(synced_ids) g.(shared).
Definition set_timeoutTrace (x : list bool) (g : globals) : globals :=
  Globals g.(qs) g.(globalTraceBit) g.(branchTraceBit) g.(errorTraced) g.(virginMap)
    g.(virginMapForBranchTraceBit) g.(errorList) g.(crashTrace) x g.(fu_list) g.(counts)
    g.(child_timed_out) g.(killSignal) g.(exec_tmout) g.(hang_tmout) g.(timeout_given)
    g.(havoc_div) g.(queueCycle) g.(fuzz_time) g.(sync_cov_ptr) g.(files) g.(runs) g.(ticks)
    g.(draws) g.(synced_ids) g.(shared).
Definition set_fu_list (x : list (list Z)) (g : globals) : globals :=
  Globals g.(qs) g.(globalTraceBit) g.(branchTraceBit) g.(errorTraced) g.(virginMap)
    g.(virginMapForBranchTraceBit) g.(errorList) g.(crashTrace) g.(timeoutTrace) x g.(counts)
    g.(child_timed_out) g.(killSignal) g.(exec_tmout) g.(hang_tmout) g.(timeout_given)
    g.(havoc_div) g.(queueCycle) g.(fuzz_time) g.(sync_cov_ptr) g.(files) g.(runs) g.(ticks)
    g.(draws) g.(synced_ids) g.(shared).
Definition set_counts (x : counter → Z) (g : globals) : globals :=
  Globals g.(qs) g.(globalTraceBit) g.(branchTraceBit) g.(errorTraced) g.(virginMap)
    g.(virginMapForBranchTraceBit) g.(errorList) g.(crashTrace) g.(timeoutTrace) g.(fu_list) x
    g.(child_timed_out) g.(killSignal) g.(exec_tmout) g.(hang_tmout) g.(timeout_given)
    g.(havoc_div) g.(queueCycle) g.(fuzz_time) g.(sync_cov_ptr) g.(files) g.(runs) g.(ticks)
    g.(draws) g.(synced_ids) g.(shared).
Definition set_child_timed_out (x : bool) (g : globals) : globals :=
  Globals g.(qs) g.(globalTraceBit) g.(branchTraceBit) g.(errorTraced) g.(virginMap)
    g.(virginMapForBranchTraceBit) g.(errorList) g.(crashTrace) g.(timeoutTrace) g.(fu_list)
    g.(counts) x g.(killSignal) g.(exec_tmout) g.(hang_tmout) g.(timeout_given) g.(havoc_div)
    g.(queueCycle) g.(fuzz_time) g.(sync_cov_ptr) g.(files) g.(runs) g.(ticks) g.(draws)
    g.(synced_ids) g.(shared).
Definition set_killSignal (x : Z) (g : globals) : globals :=
  Globals g.(qs) g.(globalTraceBit) g.(branchTraceBit) g.(errorTraced) g.(virginMap)
    g.(virginMapForBranchTraceBit) g.(errorList) g.(crashTrace) g.(timeoutTrace) g.(fu_list)
    g.(counts) g.(child_timed_out) x g.(exec_tmout) g.(hang_tmout) g.(timeout_given)
    g.(havoc_div) g.(queueCycle) g.(fuzz_time) g.(sync_cov_ptr) g.(files) g.(runs) g.(ticks)
    g.(draws) g.(synced_ids) g.(shared).
Definition set_exec_tmout (x : Z) (g : globals) : globals :=
  Globals g.(qs) g.(globalTraceBit) g.(branchTraceBit) g.(errorTraced) g.(virginMap)
    g.(virginMapForBranchTraceBit) g.(errorList) g.(crashTrace) g.(timeoutTrace) g.(fu_list)
    g.(counts) g.(child_timed_out) g.(killSignal) x g.(hang_tmout) g.(timeout_given)
    g.(havoc_div) g.(queueCycle) g.(fuzz_time) g.(sync_cov_ptr) g.(files) g.(runs) g.(ticks)
    g.(draws) g.(synced_ids) g.(shared).
Definition set_hang_tmout (x : Z) (g : globals) : globals :=
  Globals g.(qs) g.(globalTraceBit) g.(branchTraceBit) g.(errorTraced) g.(virginMap)
    g.(virginMapForBranchTraceBit) g.(errorList) g.(crashTrace) g.(timeoutTrace) g.(fu_list)
    g.(counts) g.(child_timed_out) g.(killSignal) g.(exec_tmout) x g.(timeout_given)
    g.(havoc_div) g.(queueCycle) g.(fuzz_time) g.(sync_cov_ptr) g.(files) g.(runs) g.(ticks)
    g.(draws) g.(synced_ids) g.(shared).
Definition set_timeout_given (x : Z) (g : globals) : globals :=
  Globals g.(qs) g.(globalTraceBit) g.(branchTraceBit) g.(errorTraced) g.(virginMap)
    g.(virginMapForBranchTraceBit) g.(errorList) g.(crashTrace) g.(timeoutTrace) g.(fu_list)
    g.(counts) g.(child_timed_out) g.(killSignal) g.(exec_tmout) g.(hang_tmout) x g.(havoc_div)
    g.(queueCycle) g.(fuzz_time) g.(sync_cov_ptr) g.(files) g.(runs) g.(ticks) g.(draws)
    g.(synced_ids) g.(shared).
Definition set_havoc_div (x : Z) (g : globals) : globals :=
  Globals g.(qs) g.(globalTraceBit) g.(branchTraceBit) g.(errorTraced) g.(virginMap)
    g.(virginMapForBranchTraceBit) g.(errorList) g.(crashTrace) g.(timeoutTrace) g.(fu_list)
    g.(counts) g.(child_timed_out) g.(killSignal) g.(exec_tmout) g.(hang_tmout)
    g.(timeout_given) x g.(queueCycle) g.(fuzz_time) g.(sync_cov_ptr) g.(files) g.(runs)
    g.(ticks) g.(draws) g.(synced_ids) g.(shared).
Definition set_queueCycle (x : Z) (g : globals) : globals :=
  Globals g.(qs) g.(globalTraceBit) g.(branchTraceBit) g.(errorTraced) g.(virginMap)
    g.(virginMapForBranchTraceBit) g.(errorList) g.(crashTrace) g.(timeoutTrace) g.(fu_list)
    g.(counts) g.(child_timed_out) g.(killSignal) g.(exec_tmout) g.(hang_tmout)
    g.(timeout_given) g.(havoc_div) x g.(fuzz_time) g.(sync_cov_ptr) g.(files) g.(runs)
    g.(ticks) g.(draws) g.(synced_ids) g.(shared).
Definition set_fuzz_time (x : Z) (g : globals) : globals :=
  Globals g.(qs) g.(globalTraceBit) g.(branchTraceBit) g.(errorTraced) g.(virginMap)
    g.(virginMapForBranchTraceBit) g.(errorList) g.(crashTrace) g.(timeoutTrace) g.(fu_list)
    g.(counts) g.(child_timed_out) g.(killSignal) g.(exec_tmout) g.(hang_tmout)
    g.(timeout_given) g.(havoc_div) g.(queueCycle) x g.(sync_cov_ptr) g.(files) g.(runs)
    g.(ticks) g.(draws) g.(synced_ids) g.(shared).
Definition set_sync_cov_ptr (x : option (list Z * list Z)) (g : globals) : globals :=
  Globals g.(qs) g.(globalTraceBit) g.(branchTraceBit) g.(errorTraced) g.(virginMap)
    g.(virginMapForBranchTraceBit) g.(errorList) g.(crashTrace) g.(timeoutTrace) g.(fu_list)
    g.(counts) g.(child_timed_out) g.(killSignal) g.(exec_tmout) g.(hang_tmout)
    g.(timeout_given) g.(havoc_div) g.(queueCycle) g.(fuzz_time) x g.(files) g.(runs) g.(ticks)
    g.(draws) g.(synced_ids) g.(shared).
Definition set_files (x : fs) (g : globals) : globals :=
  Globals g.(qs) g.(globalTraceBit) g.(branchTraceBit) g.(errorTraced) g.(virginMap)
    g.(virginMapForBranchTraceBit) g.(errorList) g.(crashTrace) g.(timeoutTrace) g.(fu_list)
    g.(counts) g.(child_timed_out) g.(killSignal) g.(exec_tmout) g.(hang_tmout)
    g.(timeout_given) g.(havoc_div) g.(queueCycle) g.(fuzz_time) g.(sync_cov_ptr) x g.(runs)
    g.(ticks) g.(draws) g.(synced_ids) g.(shared).
Definition set_runs (x : nat) (g : globals) : globals :=
  Globals g.(qs) g.(globalTraceBit) g.(branchTraceBit) g.(errorTraced) g.(virginMap)
    g.(virginMapForBranchTraceBit) g.(errorList) g.(crashTrace) g.(timeoutTrace) g.(fu_list)
    g.(counts) g.(child_timed_out) g.(killSignal) g.(exec_tmout) g.(hang_tmout)
    g.(timeout_given) g.(havoc_div) g.(queueCycle) g.(fuzz_time) g.(sync_cov_ptr) g.(files) x
    g.(ticks) g.(draws) g.(synced_ids) g.(shared).
Definition set_ticks (x : nat) (g : globals) : globals :=
  Globals g.(qs) g.(globalTraceBit) g.(branchTraceBit) g.(errorTraced) g.(virginMap)
    g.(virginMapForBranchTraceBit) g.(errorList) g.(crashTrace) g.(timeoutTrace) g.(fu_list)
    g.(counts) g.(child_timed_out) g.(killSignal) g.(exec_tmout) g.(hang_tmout)
    g.(timeout_given) g.(havoc_div) g.(queueCycle) g.(fuzz_time) g.(sync_cov_ptr) g.(files)
    g.(runs) x g.(draws) g.(synced_ids) g.(shared).
Definition set_draws (x : nat) (g : globals) : globals :=
  Globals g.(qs) g.(globalTraceBit) g.(branchTraceBit) g.(errorTraced) g.(virginMap)
    g.(virginMapForBranchTraceBit) g.(errorList) g.(crashTrace) g.(timeoutTrace) g.(fu_list)
    g.(counts) g.(child_timed_out) g.(killSignal) g.(exec_tmout) g.(hang_tmout)
    g.(timeout_given) g.(havoc_div) g.(queueCycle) g.(fuzz_time) g.(sync_cov_ptr) g.(files)
    g.(runs) g.(ticks) x g.(synced_ids) g.(shared).
Definition set_synced_ids (x : fs) (g : globals) : globals :=
  Globals g.(qs) g.(globalTraceBit) g.(branchTraceBit) g.(errorTraced) g.(virginMap)
    g.(virginMapForBranchTraceBit) g.(errorList) g.(crashTrace) g.(timeoutTrace) g.(fu_list)
    g.(counts) g.(child_timed_out) g.(killSignal) g.(exec_tmout) g.(hang_tmout)
    g.(timeout_given) g.(havoc_div) g.(queueCycle) g.(fuzz_time) g.(sync_cov_ptr) g.(files)
    g.(runs) g.(ticks) g.(draws) x g.(shared).
Definition set_shared (x : shm_counters) (g : globals) : globals :=
  Globals g.(qs) g.(globalTraceBit) g.(branchTraceBit) g.(errorTraced) g.(virginMap)
    g.(virginMapForBranchTraceBit) g.(errorList) g.(crashTrace) g.(timeoutTrace) g.(fu_list)
    g.(counts) g.(child_timed_out) g.(killSignal) g.(exec_tmout) g.(hang_tmout)
    g.(timeout_given) g.(havoc_div) g.(queueCycle) g.(fuzz_time) g.(sync_cov_ptr) g.(files)
    g.(runs) g.(ticks) g.(draws) g.(synced_ids) x.

(** What the command line and the build decide. *)
Record config := Config {
  outputDir : string;
  testfile : string;
  isBranchCoverage : bool;
  sync_cov : Z;
  sync_state : string;
  fuzzing_error : bool;
  sync_id : string;
}.

(** ** The surroundings of the fuzzer

    [run_target n files errors counters timeout] is the [n]-th run of the target, which
    reads the test file and, in shared memory, the error list and the counters; [None]
    is a failure of [fork] or [waitpid].  [disk] says whether creating a file and writing to it succeeds.
    [peers n m] is what the other fuzzers of the group have made of a shared
    coverage map [m] before the [n]-th run. *)
Class Env := {
  run_target : nat → fs → list Z → shm_counters → Z → option child;
  clock : nat → Z;
  disk : fs → string → list Z → bool;
  peers : nat → list Z → list Z;
  rand_at : nat → Z;
}.

Section execution.
Context `{!Env} (cfg : config) (map_size list_size : Z).

Definition queue_op {A} (m : proc qstate A) : proc globals A := zoom qs set_qs m.

Definition add_count (c : counter) (n : Z) (g : globals) : globals :=
  set_counts (λ c', if decide (c' = c) then (g.(counts) c + n) mod 2 ^ width c
                    else g.(counts) c') g.
Definition count_up (c : counter) : proc globals unit := modify (add_count c 1).

Definition GetCurTimeUs : proc globals Z :=
  n ← gets ticks; modify (set_ticks (S n)) ;; mret (clock n).

Definition num2str (num : Z) : proc globals string := from_option (λ _, num2str_Keep6bit num).

(** ** Files *)

Definition create (filename : string) (mem : list Z) : proc globals unit :=
  f ← gets files;
  if decide (f !! filename = None) then
    if disk f filename mem then modify (set_files (<[filename := mem]> f)) else exit_ (-1)
  else exit_ (-1).

(** [open] with [O_EXCL]. *)
Definition WriteMem2File (filename : string) (mem : list Z) : proc globals unit :=
  create filename mem.

Definition WriteToTestcase (mem : list Z) : proc globals unit :=
  modify (λ g, set_files (delete cfg.(testfile) g.(files)) g) ;;
  create cfg.(testfile) mem.

(** [read] of exactly [len] bytes. *)
Definition ReadFile2Mem (filename : string) (len : Z) : proc globals (list Z) :=
  f ← gets files;
  match f !! filename with
  | None => exit_ (-1)
  | Some b => if decide (len <= zlen b) then mret (take (Z.to_nat len) b) else exit_ (-1)
  end.

(** ** One run of the target *)

(** The first counter is reset through a pointer to 32 bits. *)
Definition clear_counters (k : shm_counters) : shm_counters :=
  ShmCounters (Z.shiftl (Z.shiftr k.(variableStateChangeCount) 32) 32) 0 0.

Definition clear_maps (g : globals) : globals :=
  set_globalTraceBit (replicate (Z.to_nat map_size) 0)
    (set_errorTraced (replicate (Z.to_nat list_size) 0)
      (set_branchTraceBit (replicate (Z.to_nat map_size) 0) g)).

Definition store_maps (c : child) (g : globals) : globals :=
  set_globalTraceBit c.(c_trace)
    (set_errorTraced c.(c_errors)
      (set_branchTraceBit c.(c_branch) (set_shared c.(c_counters) g))).

(** The mutex that is released before the run is one that only the target takes. *)
Definition ExecuteCase (timeout : Z) : proc globals Z :=
  modify (set_child_timed_out false) ;;
  modify (λ g, set_shared (clear_counters g.(shared)) g) ;;
  modify clear_maps ;;
  g ← gets id;
  match run_target g.(runs) g.(files) g.(errorList) g.(shared) timeout with
  | None => exit_ (-1)
  | Some c =>
      modify (set_runs (S g.(runs))) ;;
      modify (store_maps c) ;;
      modify (set_child_timed_out c.(c_alarm)) ;;
      modify (λ g, set_globalTraceBit (classify_counts map_size g.(globalTraceBit)) g) ;;
      count_up exec_count ;;
      match c.(c_status) with
      | Signaled sig =>
          modify (set_killSignal (u8 sig)) ;;
          g ← gets id;
          if decide (g.(child_timed_out) = true ∧ g.(killSignal) = SIGKILL)
          then mret FAULT_TMOUT else mret FAULT_CRASH
      | Exited _ => mret FAULT_NONE
      end
  end.

(** ** Calibration *)

(** One cycle of the loop of [CalibrateCase]. *)
Definition calibrate_cycle (q : nat) (mem : list Z) (time_begin i : Z) (run_status : Z)
    : proc globals Z :=
  e ← queue_op (seed_at q);
  buf ← from_option (λ _, slice mem 0 (u32 e.(fileLen)));
  WriteToTestcase buf ;;
  tmout ← gets exec_tmout;
  run_status ← ExecuteCase tmout;
  if decide (run_status ≠ FAULT_NONE) then
    time_end ← GetCurTimeUs;
    modify (add_count total_cal_us (u64 (time_end - time_begin))) ;;
    modify (add_count total_cal_cycles (i + 1)) ;;
    return_ run_status
  else
    e ← queue_op (seed_at q);
    (if decide (e.(cksum) = 0) then
       tr ← gets globalTraceBit;
       queue_op (upd_seed q (set_cksum (hash32 tr map_size HASH_CONST)))
     else mret tt) ;;
    mret run_status.

(** Lines 349-356. *)
Definition calibrate_end (q : nat) (time_begin run_status : Z) : proc globals unit :=
  time_end ← GetCurTimeUs;
  modify (add_count total_cal_us (u64 (time_end - time_begin))) ;;
  modify (add_count total_cal_cycles CAL_CYCLES) ;;
  queue_op (upd_seed q (set_execTime (u64 (time_end - time_begin) / CAL_CYCLES))) ;;
  tr ← gets globalTraceBit;
  queue_op (UpdateQueueTop map_size q tr) ;;
  return_ run_status.

Definition CalibrateCase (q : nat) (mem : list Z) : proc globals Z :=
  call (
    time_begin ← GetCurTimeUs;
    run_status ← for_fold (Z.to_nat CAL_CYCLES) 0 1 (calibrate_cycle q mem time_begin) FAULT_NONE;
    calibrate_end q time_begin run_status).

(** The body of the loop of [DryRunning]: the buffer has [q->fileLen] bytes;
    bytes that [read] does not fill have no value. *)
Definition dry_run (q : nat) : proc globals unit :=
  e ← queue_op (seed_at q);
  f ← gets files;
  match f !! e.(fileName) with
  | None => exit_ (-1)
  | Some b =>
      mem ← from_option (λ _, slice b 0 e.(fileLen));
      _ ← CalibrateCase q mem;
      mret tt
  end.

Definition DryRunning : proc globals unit :=
  l ← gets (λ g, g.(qs).(queue));
  for_each (seq 0 (length l)) dry_run.

(** ** Crashes and hangs *)

(** [trace & ~known], and whether a bit is left. *)
Definition new_bits (trace known : list bool) : bool :=
  existsb id (zip_with (λ a b, a && negb b) trace known).

Definition crash_handler (keeping : Z) (mem : list Z) : proc globals Z :=
  count_up total_crash_count ;;
  total ← gets (λ g, g.(counts) total_crash_count);
  n ← num2str total;
  t ← GetCurTimeUs;
  WriteMem2File (cfg.(outputDir) +:+ "total_crash/" +:+ n +:+ "-" +:+ to_string t) mem ;;
  trace ← gets (λ g, MinimizeBit g.(globalTraceBit));
  known ← gets crashTrace;
  if new_bits trace known then
    modify (set_crashTrace (bits_or known trace)) ;;
    count_up unique_crash_count ;;
    unique ← gets (λ g, g.(counts) unique_crash_count);
    u ← num2str unique;
    n ← num2str total;
    t ← GetCurTimeUs;
    WriteMem2File
      (cfg.(outputDir) +:+ "crash/" +:+ u +:+ "-" +:+ n +:+ "-" +:+ to_string t) mem ;;
    (if decide (keeping = 0) then count_up usefule_input else mret tt) ;;
    mret 1
  else mret keeping.

Definition ex_crash_handler (keeping : Z) (mem : list Z) : proc globals Z :=
  unique_fault ← gets (λ g, is_unique_fault g.(fu_list) g.(errorList));
  trace ← gets (λ g, MinimizeBit g.(globalTraceBit));
  known ← gets crashTrace;
  let new_bit := new_bits trace known in
  if negb unique_fault && negb new_bit then mret keeping else
  when unique_fault (modify (λ g, set_fu_list (save_crashed_fu g.(fu_list) g.(errorList)) g)) ;;
  when new_bit (modify (set_crashTrace (bits_or known trace))) ;;
  count_up unique_ex_crash_count ;;
  unique ← gets (λ g, g.(counts) unique_ex_crash_count);
  u ← num2str unique;
  t ← GetCurTimeUs;
  let crash_name := u +:+ "-" +:+ to_string t in
  WriteMem2File (cfg.(outputDir) +:+ "ex_crash/files/" +:+ crash_name) mem ;;
  triggered ← gets (λ g, are_errors_triggered g.(errorList) g.(errorTraced));
  (if triggered : bool then
     errors ← gets errorList;
     WriteMem2File (cfg.(outputDir) +:+ "ex_crash/errorlists/" +:+ crash_name) errors
   else mret tt) ;;
  when (bool_decide (keeping = 0) && unique_fault) (count_up useful_error_seq) ;;
  mret 1.

(** Lines 658-670 and 722-736: a hang that is new is run again with the larger
    time limit; [Some] is the value with which the handler returns early. *)
Definition confirm_hang (on_crash : Z → list Z → proc globals Z) (keeping : Z) (mem : list Z)
    : proc globals (option Z) :=
  exec ← gets exec_tmout;
  hang ← gets hang_tmout;
  if decide (exec < hang) then
    WriteToTestcase mem ;;
    new_status ← ExecuteCase hang;
    if decide (new_status = FAULT_CRASH) then
      keeping ← on_crash keeping mem; mret (Some keeping)
    else if decide (new_status ≠ FAULT_TMOUT) then mret (Some keeping)
    else mret None
  else mret None.

Definition hang_handler (keeping : Z) (mem : list Z) : proc globals Z :=
  count_up total_timeout_count ;;
  trace ← gets (λ g, MinimizeBit g.(globalTraceBit));
  known ← gets timeoutTrace;
  if new_bits trace known then
    early ← confirm_hang crash_handler keeping mem;
    match early with
    | Some keeping => mret keeping
    | None =>
        modify (λ g, set_timeoutTrace (bits_or g.(timeoutTrace) trace) g) ;;
        count_up unique_hang_count ;;
        unique ← gets (λ g, g.(counts) unique_hang_count);
        u ← num2str unique;
        t ← GetCurTimeUs;
        WriteMem2File (cfg.(outputDir) +:+ "hang/" +:+ u +:+ "-" +:+ to_string t) mem ;;
        (if decide (keeping = 0) then count_up usefule_input else mret tt) ;;
        mret 1
    end
  else mret keeping.

Definition ex_hang_handler (keeping : Z) (mem : list Z) : proc globals Z :=
  count_up total_ex_timeout_count ;;
  trace ← gets (λ g, MinimizeBit g.(globalTraceBit));
  known ← gets timeoutTrace;
  if new_bits trace known then
    early ← confirm_hang ex_crash_handler keeping mem;
    match early with
    | Some keeping => mret keeping
    | None =>
        modify (λ g, set_timeoutTrace (bits_or g.(timeoutTrace) trace) g) ;;
        count_up unique_ex_hang_count ;;
        unique ← gets (λ g, g.(counts) unique_ex_hang_count);
        u ← num2str unique;
        t ← GetCurTimeUs;
        let hang_name := u +:+ "-" +:+ to_string t in
        WriteMem2File (cfg.(outputDir) +:+ "ex_hang/files/" +:+ hang_name) mem ;;
        triggered ← gets (λ g, are_errors_triggered g.(errorList) g.(errorTraced));
        (if triggered : bool then
           errors ← gets errorList;
           WriteMem2File (cfg.(outputDir) +:+ "ex_hang/errorlists/" +:+ hang_name) errors
         else mret tt) ;;
        (if decide (keeping = 0) then count_up useful_error_seq else mret tt) ;;
        mret 1
    end
  else mret keeping.

(** ** Interesting inputs *)

(** Lines 785-795: the flags of the two maps, each of which is brought up to
    date. *)
Definition new_bit_flag : proc globals Z :=
  g ← gets id;
  let '(branchBitFlag, vb) :=
    has_new_bits map_size g.(branchTraceBit) g.(virginMapForBranchTraceBit) in
  let '(newBitFlag, v) := has_new_bits map_size g.(globalTraceBit) g.(virginMap) in
  modify (set_virginMapForBranchTraceBit vb) ;;
  modify (set_virginMap v) ;;
  mret (if cfg.(isBranchCoverage) then (if decide (branchBitFlag = 2) then 2 else 0)
        else newBitFlag).

Definition suffix (flag : Z) : string := if decide (flag = 2) then "+cov" else "+tup".

(** Lines 812-856. *)
Definition keep_seed (flag : Z) (eflag : bool) (mem : list Z) : proc globals unit :=
  size ← gets (λ g, u32 (zlen g.(qs).(queue)));
  n ← num2str size;
  let filename := cfg.(outputDir) +:+ "queue/" +:+ n +:+ suffix flag in
  elist ←
    (if eflag then
       let error_list_filename := cfg.(outputDir) +:+ "errorList/" +:+ n +:+ suffix flag in
       errors ← gets errorList;
       WriteMem2File error_list_filename errors ;;
       count_up useful_error_seq ;;
       mret (Some error_list_filename)
     else mret None);
  when (negb eflag) (count_up usefule_input) ;;
  queue_op (AddToQueue filename (zlen mem) elist None) ;;
  WriteMem2File filename mem ;;
  q ← gets (λ g, pred (length g.(qs).(queue)));
  tr ← gets globalTraceBit;
  queue_op (upd_seed q (set_cksum (hash32 tr map_size HASH_CONST))) ;;
  queue_op (upd_seed q (set_execTime 1)).

Definition AddInterestingSeed (mem : list Z) (run_status : Z) : proc globals Z :=
  newBitFlag ← new_bit_flag;
  eflag ← gets (λ g, cfg.(fuzzing_error) && are_errors_triggered g.(errorList) g.(errorTraced));
  keeping ←
    (if decide (newBitFlag ≠ 0) then keep_seed newBitFlag eflag mem ;; mret 1 else mret 0);
  if decide (run_status = FAULT_TMOUT) then
    if eflag : bool then ex_hang_handler keeping mem else hang_handler keeping mem
  else if decide (run_status = FAULT_CRASH) then
    if eflag : bool then ex_crash_handler keeping mem else crash_handler keeping mem
  else mret keeping.

(** ** [FuzzUnit] *)

Definition sync_cycle : Z :=
  if decide (cfg.(sync_state) = "MASTER") then master_sync_cycle else slave_sync_cycle.

(** Lines 901-922. *)
Definition sync_maps : proc globals unit :=
  if decide (cfg.(sync_cov) = 1) then
    modify (λ g, set_fuzz_time ((g.(fuzz_time) + 1) mod sync_cycle) g) ;;
    t ← gets fuzz_time;
    if decide (t = 0) then
      f ← gets files;
      if decide (f !! file_lock = None) then exit_ (-1) else
      shared ← from_option sync_cov_ptr;
      n ← gets runs;
      g ← gets id;
      let '(v, c) := sync_coverage g.(virginMap) (peers n shared.1) in
      let '(vb, cb) := sync_coverage g.(virginMapForBranchTraceBit) (peers n shared.2) in
      modify (set_virginMap v) ;;
      modify (set_virginMapForBranchTraceBit vb) ;;
      modify (set_sync_cov_ptr (Some (c, cb)))
    else mret tt
  else mret tt.

(** The length is an [u64] here and an [u32] in the functions it is given to. *)
Definition FuzzUnit (filemap : list Z) (error_list : option (list Z)) : proc globals Z :=
  let mem := take (Z.to_nat (u32 (zlen filemap))) filemap in
  sync_maps ;;
  match error_list with
  | Some l => count_up total_error_seq ;; modify (set_errorList l)
  | None => count_up total_input
  end ;;
  WriteToTestcase mem ;;
  tmout ← gets exec_tmout;
  run_status ← ExecuteCase tmout;
  _ ← AddInterestingSeed mem run_status;
  mret 0.
End execution.

(** ** Numbers in file names *)

Lemma num2str_Some num : 0 <= num < 10 ^ 9 → is_Some (num2str_Keep6bit num).
Proof.
  intros Hn. unfold num2str_Keep6bit. rewrite decide_True; [by eexists|].
  rewrite length_zeros. destruct (dec_printed 19 num EmptyString) as [k [Hr Hl Hlen _ _]];
    [split; [lia|]; etrans; [apply Hn|]; cbn; lia|].
  unfold to_string. rewrite Hlen. cbn [String.length].
  assert (k < 10)%nat; [|lia]. destruct Hl as [[_ ->]|Hl]; [lia|].
  apply Nat.nle_gt. intros Hk.
  assert (10 ^ 9 <= 10 ^ (Z.of_nat k - 1)) by (apply Z.pow_le_mono_r; lia). lia.
Qed.

(** The six-digit numbers of the file names can be read back: a scan of the
    name of number [num] with a width of nine or more yields [num], whatever text
    without a digit in front follows, so that different numbers have different
    names; but the width 6 that [SychronizeFuzzer] asks of [sscanf] cuts off the
    last digits from 10^6 on. *)
Theorem num2str_scan num s t : 0 <= num < 2 ^ 32 → num2str_Keep6bit num = Some s → no_digit t →
  num < 10 ^ 9 ∧ scan_digits 9 (s +:+ t) 0 = num ∧
  (num < 10 ^ 6 → scan_digits 6 (s +:+ t) 0 = num) ∧
  (10 ^ 6 <= num → scan_digits 6 (s +:+ t) 0 < num).
Proof.
  intros Hn Hs Ht. unfold num2str_Keep6bit in Hs. case_decide as Hlen; [|done].
  injection Hs as <-. rewrite length_zeros in Hlen.
  assert (0 <= num < 10 ^ (Z.of_nat 19 + 1)) as Hn' by (split; [lia|]; etrans; [apply Hn|]; cbn; lia).
  destruct (dec_printed 19 num EmptyString Hn') as [k [Hr Hl Hk _ _]].
  destruct (dec_printed 19 num t Hn') as [k' [Hr' Hl' Hk' Hw Hc]].
  assert (k' = k) as ->.
  { change t with (EmptyString +:+ t) in Hk' at 1. rewrite <-dec_app in Hk'.
    rewrite length_append in Hk'. rewrite Hk in Hk'. cbn [String.length] in Hk'. lia. }
  rewrite zeros_app. unfold to_string in *. rewrite Hk in *. cbn [String.length] in *.
  rewrite dec_app. change (EmptyString +:+ t) with t.
  assert (∀ m, num < 10 ^ Z.of_nat m → (1 <= m)%nat → (k <= m)%nat) as Hle.
  { intros m Hm H1. destruct Hl as [[_ ->]|Hl]; [done|]. apply Nat.nlt_ge. intros Hlt.
    assert (10 ^ Z.of_nat m <= 10 ^ (Z.of_nat k - 1)) by (apply Z.pow_le_mono_r; lia). lia. }
  rewrite !scan_zeros by lia. repeat split.
  - assert (10 ^ Z.of_nat k <= 10 ^ 9) by (apply Z.pow_le_mono_r; lia). lia.
  - rewrite Hw by lia. rewrite scan_no_digit by done. lia.
  - intros H6. specialize (Hle 6%nat H6 ltac:(lia)).
    rewrite Hw by lia. rewrite scan_no_digit by done. lia.
  - intros H6. assert (6 < k)%nat as Hk6.
    { apply Nat.nle_gt. intros Hk6. assert (10 ^ Z.of_nat k <= 10 ^ 6) by (apply Z.pow_le_mono_r; lia). lia. }
    rewrite Hc by lia. replace (6 - (6 - (k + 0)))%nat with 6%nat by lia. rewrite Z.mul_0_l, Z.add_0_l.
    apply Z.div_lt; [lia|]. apply Z.pow_gt_1; lia.
Qed.

Lemma num2str_scan_witness :
  10 ^ 6 <= 1234567 ∧ scan_digits 9 ("1234567" +:+ "+cov") 0 = 1234567 ∧
  scan_digits 6 ("1234567" +:+ "+cov") 0 < 1234567.
Proof.
  destruct (num2str_scan 1234567 "1234567" "+cov") as (_&H9&_&H6); [lia|reflexivity..|].
  split; [lia|]. split; [exact H9|]. apply H6. lia.
Defined.
