(* ===== verification/Keeping.v ===== *)
(** * What the fuzzer keeps

    Theorems about [TestRunning.cpp] as modelled in [Execution]: the invariant of
    the globals and that [FuzzUnit] keeps it, the inputs that are kept as seeds,
    as crashes and as hangs, and the calibration of the seeds. *)

From S2P Require Import Prelude.
From S2P Require Import Decimal.
From S2P Require Import TraceMap.
From S2P Require Import Queue.
From S2P Require Import Faults.
From S2P Require Import Execution.

Definition bytes (n : Z) (l : list Z) : Prop := zlen l = n ∧ Forall is_u8 l.

(** ** What is expected of the surroundings

    The maps have the size of the shared memory; the disk refuses to hold more
    than 2^29 files, and files of 2^28 bytes or more; the other fuzzers keep the
    shape of the shared maps. *)
Class EnvOK `{!Env} (map_size list_size : Z) := {
  run_target_ok : ∀ n f l k t c, run_target n f l k t = Some c →
    bytes map_size c.(c_trace) ∧ bytes map_size c.(c_branch) ∧ bytes list_size c.(c_errors);
  disk_room : ∀ f name b, disk f name b = true → Z.of_nat (size f) < 2 ^ 29 ∧ zlen b < 2 ^ 28;
  peers_ok : ∀ n m k, bytes k m → bytes k (peers n m);
  clock_ok : ∀ n, is_u64 (clock n);
  rand_at_ok : ∀ n, 0 <= rand_at n < 2 ^ 31;
}.

(** The test file is not one of the files the fuzzer keeps. *)
Definition names_ok (cfg : config) : Prop :=
  (∀ x, cfg.(testfile) ≠ cfg.(outputDir) +:+ x) ∧ cfg.(testfile) ≠ file_lock.

(** ** The invariant *)

(** The counters that number the files of crashes and hangs. *)
Definition numbering : list counter :=
  [total_crash_count; unique_hang_count; unique_ex_hang_count; unique_ex_crash_count].
Definition numbered (c : counter → Z) : Z :=
  c total_crash_count + c unique_hang_count + c unique_ex_hang_count + c unique_ex_crash_count.

(** Every seed and every number that was given out has its file, up to [d] files
    that are still to be written. *)
Record room (d : Z) (n : Z) (c : counter → Z) (f : fs) : Prop := Room {
  rm_size : Z.of_nat (size f) <= 2 ^ 29;
  rm_range : ∀ k, 0 <= c k;
  rm_unique : c unique_crash_count <= c total_crash_count;
  rm_files : n + numbered c <= Z.of_nat (size f) + d;
}.

Record maps_ok (map_size list_size : Z) (g : globals) : Prop := MapsOK {
  mo_trace : bytes map_size g.(globalTraceBit);
  mo_branch : bytes map_size g.(branchTraceBit);
  mo_traced : bytes list_size g.(errorTraced);
  mo_virgin : bytes map_size g.(virginMap);
  mo_vbranch : bytes map_size g.(virginMapForBranchTraceBit);
  mo_errors : bytes list_size g.(errorList);
  mo_crash : zlen g.(crashTrace) = map_size;
  mo_timeout : zlen g.(timeoutTrace) = map_size;
}.

(** The file of a seed holds its input. *)
Definition stored (cfg : config) (f : fs) (e : seed) : Prop :=
  e.(fileName) ≠ cfg.(testfile) ∧
  ∃ b, f !! e.(fileName) = Some b ∧ zlen b = e.(fileLen) ∧ zlen b < 2 ^ 28.

Record files_ok (cfg : config) (f : fs) (l : list seed) : Prop := FilesOK {
  fo_bytes : map_Forall (λ _, Forall is_u8) f;
  fo_stored : Forall (stored cfg f) l;
}.

(** The shared maps are there whenever they are used. *)
Definition sync_ok (cfg : config) (map_size : Z) (g : globals) : Prop :=
  cfg.(sync_cov) = 1 → is_Some (g.(files) !! file_lock) ∧
    ∃ c cb, g.(sync_cov_ptr) = Some (c, cb) ∧ bytes map_size c ∧ bytes map_size cb.

Record g_inv (cfg : config) (map_size list_size : Z) (g : globals) : Prop := GInv {
  gi_queue : queue_inv map_size g.(qs);
  gi_maps : maps_ok map_size list_size g;
  gi_files : files_ok cfg g.(files) g.(qs).(queue);
  gi_room : room 0 (zlen g.(qs).(queue)) g.(counts) g.(files);
  gi_sync : sync_ok cfg map_size g;
  gi_units : minimal_units g.(fu_list);
}.

(** ** Counters *)

(** Which counters are among the numbers of files is decided by evaluation. *)
Ltac numbers :=
  lazymatch goal with
  | |- _ ∨ _ => first [left; numbers|right; reflexivity]
  | |- _ => apply (bool_decide_unpack _); vm_compute; exact I
  end.

Lemma counts_add_same c n g : counts (add_count c n g) c = (g.(counts) c + n) mod 2 ^ width c.
Proof. cbn. by rewrite decide_True. Qed.

Lemma counts_add_other c c' n g : c' ≠ c → counts (add_count c n g) c' = g.(counts) c'.
Proof. intros. cbn. by rewrite decide_False. Qed.

Lemma room_range d n c f k : room d n c f → 0 <= n → 0 <= d <= 2 ^ 10 →
  k ∈ numbering ∨ k = unique_crash_count → 0 <= c k <= 2 ^ 29 + 2 ^ 10.
Proof.
  intros [Hs Hr Hu Hf] Hn Hd Hk. unfold numbered in Hf.
  pose proof (Hr total_crash_count). pose proof (Hr unique_hang_count).
  pose proof (Hr unique_ex_hang_count). pose proof (Hr unique_ex_crash_count).
  pose proof (Hr unique_crash_count). unfold numbering in Hk.
  destruct Hk as [Hk| ->]; [|lia]. set_unfold in Hk. destruct_or! Hk; subst k; lia.
Qed.

(** Giving out a number leaves a file to be written. *)
Lemma room_number d n g k : room d n g.(counts) g.(files) → 0 <= n → 0 <= d < 2 ^ 10 →
  k ∈ numbering → room (d + 1) n (counts (add_count k 1 g)) g.(files).
Proof.
  intros Hroom Hn Hd Hk. assert (0 <= counts g k <= 2 ^ 29 + 2 ^ 10) as Hkr
    by (eapply room_range; [done..|lia|by left]).
  assert (width k = 32) as Hw by (unfold numbering in Hk; set_unfold in Hk; by destruct_or! Hk; subst k).
  assert (counts (add_count k 1 g) k = counts g k + 1) as Hk1
    by (rewrite counts_add_same, Hw; apply Z.mod_small; lia).
  destruct Hroom as [Hs Hr Hu Hf]. split; [done|..].
  - intros j. destruct (decide (j = k)) as [->|Hne]; [lia|]. by rewrite counts_add_other.
  - unfold numbering in Hk. set_unfold in Hk. destruct_or! Hk; subst k;
      rewrite ?Hk1, ?(counts_add_other _ unique_crash_count), ?(counts_add_other _ total_crash_count)
        by done; lia.
  - unfold numbered in *. unfold numbering in Hk. set_unfold in Hk.
    destruct_or! Hk; subst k; rewrite Hk1, !counts_add_other by done; lia.
Qed.

(** The other counters do not number files. *)
Lemma room_count d n g k x : room d n g.(counts) g.(files) →
  k ∉ numbering → k ≠ unique_crash_count → room d n (counts (add_count k x g)) g.(files).
Proof.
  intros [Hs Hr Hu Hf] Hk Hk'. split; [done|..].
  - intros j. destruct (decide (j = k)) as [->|Hne]; [|by rewrite counts_add_other].
    rewrite counts_add_same. apply Z.mod_pos_bound. destruct k; cbn; lia.
  - rewrite !counts_add_other; [done| |]; intros <-; [|done]. apply Hk. numbers.
  - unfold numbered in *. rewrite !counts_add_other; [done|..]; intros <-; apply Hk; numbers.
Qed.

Lemma room_unique d n g : room d n g.(counts) g.(files) → 0 <= n → 0 <= d < 2 ^ 10 →
  g.(counts) unique_crash_count < g.(counts) total_crash_count →
  room d n (counts (add_count unique_crash_count 1 g)) g.(files).
Proof.
  intros Hroom Hn Hd Hlt.
  assert (0 <= counts g unique_crash_count <= 2 ^ 29 + 2 ^ 10) as Hkr
    by (eapply room_range; [done..|lia|by right]).
  assert (counts (add_count unique_crash_count 1 g) unique_crash_count =
    counts g unique_crash_count + 1) as Hk1 by (rewrite counts_add_same; apply Z.mod_small; cbn; lia).
  destruct Hroom as [Hs Hr Hu Hf]. split; [done|..].
  - intros j. destruct (decide (j = unique_crash_count)) as [->|Hne]; [lia|].
    by rewrite counts_add_other.
  - rewrite Hk1, counts_add_other by done. lia.
  - unfold numbered in *. by rewrite !counts_add_other.
Qed.

Lemma room_write d n c f name b : room (d + 1) n c f → Z.of_nat (size f) < 2 ^ 29 →
  f !! name = None → room d n c (<[name := b]> f).
Proof.
  intros [Hs Hr Hu Hf] Hsz Hno. split; try done; rewrite map_size_insert_None by done; lia.
Qed.

(** ** Steps of the handlers *)

(** What the handlers leave alone; the test file is theirs. *)
Record handled (cfg : config) (g g' : globals) : Prop := Handled {
  hd_qs : g'.(qs) = g.(qs);
  hd_virgin : g'.(virginMap) = g.(virginMap);
  hd_vbranch : g'.(virginMapForBranchTraceBit) = g.(virginMapForBranchTraceBit);
  hd_errors : g'.(errorList) = g.(errorList);
  hd_cycle : g'.(queueCycle) = g.(queueCycle);
  hd_tmout : g'.(exec_tmout) = g.(exec_tmout);
  hd_hang : g'.(hang_tmout) = g.(hang_tmout);
  hd_files : ∀ k b, k ≠ cfg.(testfile) → g.(files) !! k = Some b → g'.(files) !! k = Some b;
}.

#[export] Instance handled_preorder cfg : PreOrder (handled cfg).
Proof.
  split; [by intros g; split|]. intros g1 g2 g3 [] []. split; try congruence. naive_solver.
Qed.

(** What one run of the target makes of the globals. *)
Definition fault_of (c : child) : Z :=
  match c.(c_status) with
  | Exited _ => FAULT_NONE
  | Signaled sig =>
      if decide (c.(c_alarm) = true ∧ u8 sig = SIGKILL) then FAULT_TMOUT else FAULT_CRASH
  end.
Definition after_run (map_size : Z) (c : child) (g : globals) : globals :=
  let g := set_runs (S g.(runs)) (set_child_timed_out c.(c_alarm) (store_maps c g)) in
  let g := add_count exec_count 1
    (set_globalTraceBit (classify_counts map_size c.(c_trace)) g) in
  match c.(c_status) with Exited _ => g | Signaled sig => set_killSignal (u8 sig) g end.

Section keeping.
Context `{!Env} {cfg : config} {map_size list_size : Z} `{!EnvOK map_size list_size}.
Hypothesis Hcfg : names_ok cfg.
Hypothesis Hsize : 0 <= map_size < 2 ^ 32 ∧ map_size mod 8 = 0.
Implicit Types g : globals.
Abbreviation inv := (g_inv cfg map_size list_size).

Lemma wp_num2str n Q R E g : 0 <= n < 10 ^ 9 →
  (∀ s, num2str_Keep6bit n = Some s → Q s g) → wp (num2str n) Q R E g.
Proof. intros Hn HQ. destruct (num2str_Some n Hn) as [s Hs]. eapply wp_from_option; eauto. Qed.

Lemma wp_clock Q R E g : Q (clock g.(ticks)) (set_ticks (S g.(ticks)) g) →
  wp GetCurTimeUs Q R E g.
Proof. done. Qed.

Lemma wp_create name mem Q R g :
  (g.(files) !! name = None → Z.of_nat (size g.(files)) < 2 ^ 29 → zlen mem < 2 ^ 28 →
     Q tt (set_files (<[name := mem]> g.(files)) g)) →
  wp (create name mem) Q R (λ _ _, True) g.
Proof.
  intros HQ. unfold create. wp_steps; [|done..]. edestruct disk_room; [done|]. by apply HQ.
Qed.

(** The injector of strace reads the first counter as an [int]: it starts at 0 in every
    run, although the upper half is never reset. *)
Lemma cleared_index k : s32 (clear_counters k).(variableStateChangeCount) = 0.
Proof.
  unfold s32. cbn. rewrite Z.shiftl_mul_pow2, Z.add_comm, Z.mod_add by lia. done.
Qed.

(** [ExecuteCase] as a function. *)
Lemma ExecuteCase_run timeout g :
  match run_target g.(runs) g.(files) g.(errorList) (clear_counters g.(shared)) timeout with
  | None => ∃ g', ExecuteCase map_size list_size timeout g = (Exit (-1), g')
  | Some c => ExecuteCase map_size list_size timeout g = (Norm (fault_of c), after_run map_size c g)
  end.
Proof.
  unfold ExecuteCase, mbind, proc_bind, modify, gets. cbn [id].
  set (g1 := clear_maps _ _ _). change (runs g1) with g.(runs). change (files g1) with g.(files).
  change (errorList g1) with g.(errorList). change (shared g1) with (clear_counters g.(shared)). subst g1.
  destruct (run_target _ _ _ _ _) as [c|]; [|by eexists]. unfold fault_of, after_run.
  destruct (c_status c); [done|]. cbn. by case_decide.
Qed.

Lemma files_ok_write f l name b : files_ok cfg f l → f !! name = None → Forall is_u8 b →
  files_ok cfg (<[name := b]> f) l.
Proof.
  intros [Hb Hs] Hno Hu. split; [by apply map_Forall_insert_2|].
  eapply Forall_impl; [|exact Hs]. intros e [Hne (x&Hx&?)]. split; [done|].
  exists x. split; [|done]. rewrite lookup_insert_ne; [done|]. intros ->. congruence.
Qed.

Lemma sync_ok_files g g' : sync_ok cfg map_size g → g'.(sync_cov_ptr) = g.(sync_cov_ptr) →
  (is_Some (g.(files) !! file_lock) → is_Some (g'.(files) !! file_lock)) →
  sync_ok cfg map_size g'.
Proof. intros Hs Hp Hf Hc. rewrite Hp. destruct (Hs Hc). auto. Qed.

Lemma classify_bytes m : bytes map_size m → bytes map_size (classify_counts map_size m).
Proof.
  intros [Hl Hb]. assert (classify_counts map_size m = bucket <$> m) as ->.
  { apply classify_words_bytes; [done|].
    apply (words_of_map map_size m 3); [lia|apply Hsize|done]. }
  split; [unfold zlen in *; by rewrite length_fmap|].
  apply Forall_fmap. eapply Forall_impl; [|exact Hb]. intros x Hx. by apply bucket_u8.
Qed.

Lemma after_run_inv c t g : inv g → run_target g.(runs) g.(files) g.(errorList) (clear_counters g.(shared)) t = Some c →
  inv (after_run map_size c g) ∧ handled cfg g (after_run map_size c g).
Proof.
  intros [Hq Hm Hf Hr Hs Hun] Hrun. apply run_target_ok in Hrun as (Ht&Hb&He).
  apply (room_count _ _ _ exec_count 1) in Hr; [|numbers|done].
  unfold after_run. destruct Hm, (c_status c); (split; [split|split]); try done;
    split; try done; by apply classify_bytes.
Qed.

Lemma wp_ExecuteCase t Q R g : inv g →
  (∀ c, run_target g.(runs) g.(files) g.(errorList) (clear_counters g.(shared)) t = Some c →
     inv (after_run map_size c g) → handled cfg g (after_run map_size c g) →
     Q (fault_of c) (after_run map_size c g)) →
  wp (ExecuteCase map_size list_size t) Q R (λ _ _, True) g.
Proof.
  intros Hg HQ. pose proof (ExecuteCase_run t g) as Hrun.
  destruct (run_target _ _ _ _ _) as [c|] eqn:Hc; unfold wp.
  - rewrite Hrun. destruct (after_run_inv c t g Hg Hc). by apply HQ.
  - by destruct Hrun as [g' ->].
Qed.

(** The new test file, in place of the old one. *)
Definition with_testcase (mem : list Z) g : globals :=
  set_files (<[cfg.(testfile) := mem]> (delete cfg.(testfile) g.(files))) g.

Lemma with_testcase_inv mem g : inv g → Forall is_u8 mem →
  Z.of_nat (size (delete cfg.(testfile) g.(files))) < 2 ^ 29 →
  inv (with_testcase mem g) ∧ handled cfg g (with_testcase mem g).
Proof.
  intros [Hq Hm [Hb Hst] [Hs Hr Hu Hf] Hsy Hun] Hmem Hsz.
  assert (Z.of_nat (size g.(files)) <=
    Z.of_nat (size (<[cfg.(testfile) := mem]> (delete cfg.(testfile) g.(files))))) as Hle.
  { rewrite map_size_insert_None, map_size_delete by apply lookup_delete_eq.
    destruct (g.(files) !! cfg.(testfile)); cbn; lia. }
  assert (∀ k b, k ≠ cfg.(testfile) → g.(files) !! k = Some b →
    files (with_testcase mem g) !! k = Some b) as Hkeep.
  { intros k b Hk Hkb. cbn. by rewrite lookup_insert_ne, lookup_delete_ne. }
  split; [|by split]. split; [done|by destruct Hm; split|..].
  - split.
    + apply map_Forall_insert_2; [done|]. by apply map_Forall_delete.
    + eapply Forall_impl; [|exact Hst]. intros e [Hne (b&Hbf&?)]. split; [done|].
      exists b. split; [|done]. by apply Hkeep.
  - split; [|done..|cbn in *; lia]. cbn. rewrite map_size_insert_None by apply lookup_delete_eq. lia.
  - eapply sync_ok_files; [exact Hsy|done|]. intros [b Hl]. exists b. apply Hkeep; [|done].
    intros E. by apply (proj2 Hcfg).
  - done.
Qed.

Lemma wp_WriteToTestcase mem Q R g : inv g → Forall is_u8 mem →
  (zlen mem < 2 ^ 28 → inv (with_testcase mem g) → handled cfg g (with_testcase mem g) →
     Q tt (with_testcase mem g)) →
  wp (WriteToTestcase cfg mem) Q R (λ _ _, True) g.
Proof.
  intros Hg Hmem HQ. unfold WriteToTestcase. wp_steps.
  apply wp_create. intros Hno Hsz Hlen. cbn [files set_files] in *.
  change (set_files _ (set_files _ g)) with (with_testcase mem g).
  destruct (with_testcase_inv mem g Hg Hmem Hsz). by apply HQ.
Qed.

(** A file that is written once the number in its name is given out. *)
Lemma inv_write g g' name b :
  inv g → g'.(qs) = g.(qs) → maps_ok map_size list_size g' →
  g'.(sync_cov_ptr) = g.(sync_cov_ptr) → g'.(files) = g.(files) → g'.(fu_list) = g.(fu_list) →
  room 1 (zlen g.(qs).(queue)) g'.(counts) g'.(files) →
  g'.(files) !! name = None → Z.of_nat (size g'.(files)) < 2 ^ 29 → Forall is_u8 b →
  inv (set_files (<[name := b]> g'.(files)) g').
Proof.
  intros [Hq Hm Hf Hr Hs Hun] Eq Hm' Es Ef Eu Hr' Hno Hsz Hb. split.
  - cbn. by rewrite Eq.
  - by destruct Hm'; split.
  - cbn. rewrite Eq, Ef in *. by apply files_ok_write.
  - cbn. rewrite Eq. by apply room_write.
  - eapply sync_ok_files; [exact Hs|done|]. cbn. intros [x Hx].
    destruct (decide (name = file_lock)) as [->|Hne]; [by rewrite lookup_insert_eq|].
    rewrite lookup_insert_ne, Ef by done. by exists x.
  - cbn. by rewrite Eu.
Qed.

(** *** Bit sets *)

Lemma zlen_bits_or a b : zlen a = map_size → zlen b = map_size → zlen (bits_or a b) = map_size.
Proof. unfold zlen, bits_or. rewrite length_zip_with. lia. Qed.

Lemma zlen_MinimizeBit m : bytes map_size m → zlen (MinimizeBit m) = map_size.
Proof. intros [<- _]. unfold zlen, MinimizeBit. by rewrite length_fmap. Qed.

(** *** Crashes *)

(** What [crash_handler] makes of the crash statistics. *)
Record crash_result (keeping : Z) g (r : Z) g' : Prop := CrashResult {
  cr_total : counts g' total_crash_count = counts g total_crash_count + 1;
  cr_same : counts g' unique_hang_count = counts g unique_hang_count ∧
            timeoutTrace g' = timeoutTrace g;
  cr_new : if new_bits (MinimizeBit g.(globalTraceBit)) g.(crashTrace)
    then r = 1 ∧ crashTrace g' = bits_or g.(crashTrace) (MinimizeBit g.(globalTraceBit)) ∧
         counts g' unique_crash_count = counts g unique_crash_count + 1
    else r = keeping ∧ crashTrace g' = crashTrace g ∧
         counts g' unique_crash_count = counts g unique_crash_count;
}.

Lemma inv_count g k x : inv g → k ∉ numbering → k ≠ unique_crash_count → inv (add_count k x g).
Proof. intros [Hq Hm Hf Hr Hs Hun] H1 H2. split; [done|by destruct Hm; split|done|exact (room_count _ _ g k x Hr H1 H2)|done..]. Qed.

Lemma room_weaken n c f : room 0 n c f → room 1 n c f.
Proof. intros []. split; try done. lia. Qed.

Lemma handled_write g g' name b : handled cfg g g' → g'.(files) !! name = None →
  handled cfg g (set_files (<[name := b]> g'.(files)) g').
Proof.
  intros [] Hno. split; try done. intros k x Hk Hx. cbn.
  rewrite lookup_insert_ne; [auto|]. intros ->. apply hd_files0 in Hx; congruence.
Qed.

Lemma handled_count g g' k x : handled cfg g g' → handled cfg g (add_count k x g').
Proof. intros []. by split. Qed.

Lemma crash_handler_ok keeping mem g : inv g → is_u8 keeping → Forall is_u8 mem →
  wp (crash_handler cfg keeping mem)
    (λ r g', is_u8 r ∧ inv g' ∧ handled cfg g g' ∧ crash_result keeping g r g')
    (λ _ _, False) (λ _ _, True) g.
Proof.
  intros Hg Hk Hmem. pose proof Hg as [Hq Hm Hf Hr Hs Hun]. pose proof (zlen_nonneg g.(qs).(queue)) as Hn.
  pose proof (room_range _ _ _ _ total_crash_count Hr Hn ltac:(lia) ltac:(numbers)) as Ht.
  pose proof (room_range _ _ _ _ unique_crash_count Hr Hn ltac:(lia) ltac:(numbers)) as Hu.
  assert (counts (add_count total_crash_count 1 g) total_crash_count =
    counts g total_crash_count + 1) as Ht1 by (rewrite counts_add_same; apply Z.mod_small; cbn; lia).
  pose proof (room_number 0 _ _ total_crash_count Hr Hn ltac:(lia) ltac:(numbers)) as Hr1.
  unfold crash_handler, count_up. wp_steps. rewrite Ht1. apply wp_num2str; [lia|]. intros n _.
  wp_steps. apply wp_clock. wp_steps. apply wp_create. intros Hno Hsz Hlen.
  set (g1 := set_ticks _ _) in *.
  assert (inv (set_files (<[cfg.(outputDir) +:+ "total_crash/" +:+ n +:+ "-" +:+
    to_string (clock g.(ticks)) := mem]> g1.(files)) g1)) as Hg1.
  { apply (inv_write g); try done. by destruct Hm; split. }
  set (name := cfg.(outputDir) +:+ "total_crash/" +:+ _) in *.
  set (g2 := set_files _ g1) in *.
  assert (handled cfg g g2) as Hh2 by (apply handled_write; [|done]; by split).
  assert (counts g2 total_crash_count = counts g total_crash_count + 1) as Ht2 by exact Ht1.
  assert (counts g2 unique_crash_count = counts g unique_crash_count) as Hu2 by done.
  wp_steps; rename H0 into Hnew;
    change (new_bits (MinimizeBit (globalTraceBit g2)) (crashTrace g2))
      with (new_bits (MinimizeBit (globalTraceBit g)) (crashTrace g)) in Hnew.
  - set (g3 := add_count unique_crash_count 1 _).
    assert (counts g3 unique_crash_count = counts g unique_crash_count + 1) as Hu3
      by (subst g3; rewrite counts_add_same; apply Z.mod_small; cbn; lia).
    assert (counts g3 total_crash_count = counts g total_crash_count + 1) as Ht3 by exact Ht1.
    rewrite Hu3. apply wp_num2str; [lia|]. intros u _. wp_steps. apply wp_num2str; [lia|].
    intros n' _. wp_steps. apply wp_clock. wp_steps. apply wp_create. intros Hno' Hsz' _.
    match goal with |- context [set_files ?f (set_ticks ?t g3)] => set (g4 := set_files f (set_ticks t g3)) end.
    assert (inv g4) as Hg4.
    { apply (inv_write g2); try done.
      - destruct Hg1 as [_ [] _ _ _ _]. split; try done. cbn.
        apply zlen_bits_or; [apply Hm|by apply zlen_MinimizeBit, Hm].
      - pose proof (rm_unique _ _ _ _ Hr) as Hle.
        apply room_weaken, (room_unique 0 _ g2); [apply Hg1|done|lia|by rewrite Ht2, Hu2; lia]. }
    assert (handled cfg g g4) as Hh4 by (apply handled_write; [|done]; by destruct Hh2; split).
    assert (crash_result keeping g 1 g4) as Hres by (split; [done..|by rewrite Hnew]).
    wp_steps; (split; [unfold is_u8; lia|split; [|split; [|]]]); try done;
      [by apply inv_count; [|numbers|]|by apply handled_count|by destruct Hres; split].
  - split; [done|]. split; [done|]. split; [done|]. split; [done|done|by rewrite Hnew].
Qed.

(** *** Files with a number *)

(** Only counters, files and the clock differ. *)
Record filed g g' : Prop := Filed {
  fl_handled : handled cfg g g';
  fl_trace : g'.(globalTraceBit) = g.(globalTraceBit);
  fl_traced : g'.(errorTraced) = g.(errorTraced);
  fl_crash : g'.(crashTrace) = g.(crashTrace);
  fl_timeout : g'.(timeoutTrace) = g.(timeoutTrace);
  fl_units : g'.(fu_list) = g.(fu_list);
}.

Lemma wp_numbered_file {A} k (name : string → Z → string) mem (K : string → Z → proc globals A)
    Q R g : inv g → Forall is_u8 mem → k ∈ numbering →
  (∀ u t g', inv g' → filed g g' → counts g' k = counts g k + 1 →
     (∀ j, j ≠ k → counts g' j = counts g j) → wp (K u t) Q R (λ _ _, True) g') →
  wp (count_up k ;; n ← gets (λ g, g.(counts) k); u ← num2str n; t ← GetCurTimeUs;
      WriteMem2File (name u t) mem ;; K u t) Q R (λ _ _, True) g.
Proof.
  intros Hg Hmem Hk HK. pose proof Hg as [Hq Hm Hf Hr Hs Hun]. pose proof (zlen_nonneg g.(qs).(queue)) as Hn.
  pose proof (room_range _ _ _ _ k Hr Hn ltac:(lia) ltac:(by left)) as Hrk.
  assert (width k = 32) as Hw by (unfold numbering in Hk; set_unfold in Hk; by destruct_or! Hk; subst k).
  assert (counts (add_count k 1 g) k = counts g k + 1) as Hk1
    by (rewrite counts_add_same, Hw; apply Z.mod_small; cbn; lia).
  pose proof (room_number 0 _ _ k Hr Hn ltac:(lia) Hk) as Hr1.
  unfold count_up. wp_steps. rewrite Hk1. apply wp_num2str; [lia|]. intros u _.
  wp_steps. apply wp_clock. wp_steps. apply wp_create. intros Hno Hsz _. apply HK.
  - apply (inv_write g); try done. by destruct Hm; split.
  - split; try done. apply handled_write; [|done]. by split.
  - exact Hk1.
  - intros j Hj. by apply (counts_add_other k j 1 g).
Qed.

Lemma wp_extra_file name mem (Q : unit → globals → Prop) R g : inv g → Forall is_u8 mem →
  (∀ g', inv g' → filed g g' → counts g' = counts g → Q tt g') →
  wp (WriteMem2File name mem) Q R (λ _ _, True) g.
Proof.
  intros Hg Hmem HQ. apply wp_create. intros Hno Hsz _. apply HQ; [|split; try done|done].
  - apply (inv_write g); try done; [apply Hg|apply room_weaken, Hg].
  - apply handled_write; [|done]. by split.
Qed.

(** *** Hangs *)

(** The run that [confirm_hang] makes: none when the limit is not larger. *)
Definition rerun (mem : list Z) g g' : Prop :=
  g.(hang_tmout) <= g.(exec_tmout) ∧ g' = g ∨
  ∃ c, g.(exec_tmout) < g.(hang_tmout) ∧ g' = after_run map_size c (with_testcase mem g) ∧
    run_target g.(runs) (with_testcase mem g).(files) g.(errorList) (clear_counters g.(shared)) g.(hang_tmout) = Some c ∧
    fault_of c = FAULT_TMOUT.

Lemma confirm_hang_ok on_crash keeping mem g : inv g → is_u8 keeping → Forall is_u8 mem →
  (∀ g, inv g → wp (on_crash keeping mem) (λ r g', is_u8 r ∧ inv g' ∧ handled cfg g g')
     (λ _ _, False) (λ _ _, True) g) →
  wp (confirm_hang cfg map_size list_size on_crash keeping mem)
    (λ o g', inv g' ∧ handled cfg g g' ∧
       match o with Some r => is_u8 r ∧ g.(exec_tmout) < g.(hang_tmout) | None => rerun mem g g' end)
    (λ _ _, False) (λ _ _, True) g.
Proof.
  intros Hg Hk Hmem Hcrash. unfold confirm_hang. wp_steps.
  2: { split; [done|]. split; [done|]. left. split; [lia|done]. }
  apply wp_WriteToTestcase; [done..|]. intros _ Hg1 Hh1. wp_steps.
  apply wp_ExecuteCase; [done|]. intros c Hc Hg2 Hh2.
  assert (handled cfg g (after_run map_size c (with_testcase mem g))) as Hh by (by etrans).
  wp_steps.
  - eapply wp_conseq; [by apply Hcrash|]. intros r g3 (?&?&?). wp_steps.
    split; [done|]. split; [by etrans|done].
  - split; [done|]. by split.
  - split; [done|]. split; [done|]. right. exists c.
    split; [done|]. split; [done|]. split; [exact Hc|]. by apply dec_stable.
Qed.

Lemma inv_timeoutTrace g l : inv g → zlen l = map_size → inv (set_timeoutTrace l g).
Proof. intros [Hq Hm Hf Hr Hs Hun] Hl. split; [done|by destruct Hm; split|done..]. Qed.

Lemma inv_crashTrace g l : inv g → zlen l = map_size → inv (set_crashTrace l g).
Proof. intros [Hq Hm Hf Hr Hs Hun] Hl. split; [done|by destruct Hm; split|done..]. Qed.

(** What [hang_handler] makes of the hang statistics. *)
Definition hang_result (keeping : Z) (mem : list Z) g (r : Z) g' : Prop :=
  if new_bits (MinimizeBit g.(globalTraceBit)) g.(timeoutTrace) then
    is_u8 r ∧
    ((∃ g1, rerun mem (add_count total_timeout_count 1 g) g1 ∧ r = 1 ∧
       timeoutTrace g' = bits_or g.(timeoutTrace) (MinimizeBit g.(globalTraceBit)) ∧
       counts g' unique_hang_count = counts g unique_hang_count + 1) ∨
     g.(exec_tmout) < g.(hang_tmout))
  else r = keeping ∧ timeoutTrace g' = timeoutTrace g ∧
       counts g' unique_hang_count = counts g unique_hang_count ∧ crashTrace g' = crashTrace g.

Lemma rerun_same mem g g' : rerun mem g g' →
  timeoutTrace g' = timeoutTrace g ∧ (∀ k, k ≠ exec_count → counts g' k = counts g k).
Proof.
  intros [[_ ->]|(c&_&->&_)]; [done|]. unfold after_run.
  destruct (c_status c); split; try done; intros k Hk; exact (counts_add_other exec_count k 1 g Hk).
Qed.

Lemma hang_handler_ok keeping mem g : inv g → is_u8 keeping → Forall is_u8 mem →
  wp (hang_handler cfg map_size list_size keeping mem)
    (λ r g', is_u8 r ∧ inv g' ∧ handled cfg g g' ∧ hang_result keeping mem g r g')
    (λ _ _, False) (λ _ _, True) g.
Proof.
  intros Hg Hk Hmem. unfold hang_handler. apply wp_bind, wp_modify.
  set (g1 := add_count total_timeout_count 1 g) in *.
  assert (inv g1) as Hg1 by (apply inv_count; [done|numbers|done]).
  assert (handled cfg g g1) as Hh1 by (by split).
  wp_steps; unfold hang_result; change (globalTraceBit g1) with (globalTraceBit g) in *;
    change (timeoutTrace g1) with (timeoutTrace g) in *; rename H0 into Hnew; rewrite Hnew.
  2: { done. }
  eapply wp_conseq; [apply confirm_hang_ok; try done|].
  { intros g2 Hg2. eapply wp_conseq; [by apply crash_handler_ok|]. naive_solver. }
  intros [r|] g2 (Hg2&Hh2&Ho); wp_steps.
  { destruct Ho. split; [done|]. split; [done|]. split; [by etrans|]. split; [done|]. by right. }
  destruct (rerun_same _ _ _ Ho) as [Ht2 Hc2].
  apply (wp_numbered_file unique_hang_count
    (λ u t, cfg.(outputDir) +:+ "hang/" +:+ u +:+ "-" +:+ to_string t));
    [|done|numbers|].
  { apply inv_timeoutTrace; [done|]. rewrite Ht2. apply zlen_bits_or; [apply Hg|].
    by apply zlen_MinimizeBit, Hg. }
  intros u t g3 Hg3 Hfl Hc3 Hc4.
  assert (handled cfg g g3) as Hh3 
    by (do 2 (etrans; [done|]); by destruct (fl_handled _ _ Hfl); split).
  assert (timeoutTrace g3 = bits_or g.(timeoutTrace) (MinimizeBit g.(globalTraceBit))) as Ht3
    by (by rewrite (fl_timeout _ _ Hfl); cbn; rewrite Ht2).
  assert (counts g3 unique_hang_count = counts g unique_hang_count + 1) as Hc5
    by (rewrite Hc3; cbn; by rewrite Hc2).
  wp_steps; (split; [unfold is_u8; lia|]).
  - split; [apply inv_count; [done|numbers|done]|]. split; [by apply handled_count|].
    split; [unfold is_u8; lia|]. left. by exists g2.
  - split; [done|]. split; [done|]. split; [unfold is_u8; lia|]. left. by exists g2.
Qed.

(** *** With injected errors *)

(** The error list that is saved next to the input. *)
Lemma wp_errorlist {A} name (K : proc globals A) Q R g : inv g →
  (∀ g', inv g' → filed g g' → counts g' = counts g → wp K Q R (λ _ _, True) g') →
  wp (triggered ← gets (λ g, are_errors_triggered g.(errorList) g.(errorTraced));
      (if triggered : bool then errors ← gets errorList; WriteMem2File name errors
       else mret tt) ;; K) Q R (λ _ _, True) g.
Proof.
  intros Hg HQ. wp_steps; [|by apply HQ]. apply wp_extra_file; [done|apply Hg|done].
Qed.

Lemma ex_crash_handler_ok keeping mem g : inv g → is_u8 keeping → Forall is_u8 mem →
  wp (ex_crash_handler cfg keeping mem) (λ r g', is_u8 r ∧ inv g' ∧ handled cfg g g')
    (λ _ _, False) (λ _ _, True) g.
Proof.
  intros Hg Hk Hmem. unfold ex_crash_handler. do 3 (apply wp_bind, wp_gets).
  set (unique := is_unique_fault _ _). set (bits := new_bits _ _).
  apply wp_if; intros Hif; [by apply wp_mret|]. apply wp_bind.
  set (g1 := if unique then set_fu_list (save_crashed_fu g.(fu_list) g.(errorList)) g else g).
  set (g2 := if bits then set_crashTrace (bits_or g.(crashTrace) (MinimizeBit g.(globalTraceBit))) g1
             else g1).
  assert (inv g1) as Hg1.
  { subst g1. destruct unique eqn:Hu; [|done]. destruct Hg as [Hq Hm Hf Hr Hs Hun].
    split; [done|by destruct Hm; split|done..|]. by apply minimal_units_save. }
  assert (inv g2) as Hg2.
  { subst g2. destruct bits; [|done]. apply inv_crashTrace; [done|].
    apply zlen_bits_or; [apply Hg|by apply zlen_MinimizeBit, Hg]. }
  assert (handled cfg g g2) as Hh2.
  { subst g2 g1. destruct bits, unique; by split. }
  apply (wp_conseq _ (λ _ g', g' = g1)); [subst g1; by destruct unique|]. intros [] ? ->.
  apply wp_bind, (wp_conseq _ (λ _ g', g' = g2)); [subst g2; by destruct bits|]. intros [] ? ->.
  apply (wp_numbered_file unique_ex_crash_count
    (λ u t, cfg.(outputDir) +:+ "ex_crash/files/" +:+ (u +:+ "-" +:+ to_string t)));
    [done|done|numbers|].
  intros u t g3 Hg3 Hf3 _ _. apply wp_errorlist; [done|]. intros g4 Hg4 Hf4 _.
  assert (handled cfg g g4) as Hh4 by (etrans; [exact Hh2|]; etrans; [apply Hf3|apply Hf4]).
  wp_steps; (split; [unfold is_u8; lia|]); [|by split].
  split; [apply inv_count; [done|numbers|done]|by apply handled_count].
Qed.

Lemma ex_hang_handler_ok keeping mem g : inv g → is_u8 keeping → Forall is_u8 mem →
  wp (ex_hang_handler cfg map_size list_size keeping mem)
    (λ r g', is_u8 r ∧ inv g' ∧ handled cfg g g') (λ _ _, False) (λ _ _, True) g.
Proof.
  intros Hg Hk Hmem. unfold ex_hang_handler. apply wp_bind, wp_modify.
  set (g1 := add_count total_ex_timeout_count 1 g).
  assert (inv g1) as Hg1 by (apply inv_count; [done|numbers|done]).
  assert (handled cfg g g1) as Hh1 by (by split).
  do 2 (apply wp_bind, wp_gets). apply wp_if; intros Hif; [|by apply wp_mret]. apply wp_bind.
  eapply wp_conseq; [apply confirm_hang_ok; [done..|]; intros g2 Hg2; by apply ex_crash_handler_ok|].
  intros [r|] g2 (Hg2&Hh2&Ho).
  { apply wp_mret. destruct Ho. split; [done|]. split; [done|]. by etrans. }
  destruct (rerun_same _ _ _ Ho) as [Ht2 _]. apply wp_bind, wp_modify.
  apply (wp_numbered_file unique_ex_hang_count
    (λ u t, cfg.(outputDir) +:+ "ex_hang/files/" +:+ (u +:+ "-" +:+ to_string t)));
    [|done|numbers|].
  { apply inv_timeoutTrace; [done|]. rewrite Ht2. apply zlen_bits_or; [apply Hg|].
    by apply zlen_MinimizeBit, Hg. }
  intros u t g3 Hg3 Hf3 _ _. apply wp_errorlist; [done|]. intros g4 Hg4 Hf4 _.
  assert (handled cfg g g4) as Hh4.
  { do 2 (etrans; [done|]). etrans; [|apply Hf4]. by destruct (fl_handled _ _ Hf3); split. }
  wp_steps; (split; [unfold is_u8; lia|]); [|by split].
  split; [apply inv_count; [done|numbers|done]|by apply handled_count].
Qed.

(** *** Seeds *)

(** The flag of an input and the maps after it was computed. *)
Definition flag_of g : Z :=
  if cfg.(isBranchCoverage) then
    if decide ((has_new_bits map_size g.(branchTraceBit) g.(virginMapForBranchTraceBit)).1 = 2)
    then 2 else 0
  else (has_new_bits map_size g.(globalTraceBit) g.(virginMap)).1.
Definition after_flag g : globals :=
  set_virginMap (has_new_bits map_size g.(globalTraceBit) g.(virginMap)).2
    (set_virginMapForBranchTraceBit
      (has_new_bits map_size g.(branchTraceBit) g.(virginMapForBranchTraceBit)).2 g).

Lemma new_bit_flag_run g : new_bit_flag cfg map_size g = (Norm (flag_of g), after_flag g).
Proof.
  unfold new_bit_flag, mbind, proc_bind, gets, modify, flag_of, after_flag. cbn [id].
  by destruct (has_new_bits map_size (branchTraceBit g) _),
    (has_new_bits map_size (globalTraceBit g) _).
Qed.

Lemma has_new_bits_map cur vir : bytes map_size cur → bytes map_size vir →
  bytes map_size (has_new_bits map_size cur vir).2 ∧ 0 <= (has_new_bits map_size cur vir).1 <= 2.
Proof.
  intros [Hc Hcb] [Hv Hvb]. rewrite has_new_bits_bytes by (try done; apply Hsize). cbn.
  split; [|apply max_flags_range]. split; [|by apply zip_clear_u8].
  unfold zlen in *. rewrite length_zip_with. lia.
Qed.

Lemma after_flag_inv g : inv g → inv (after_flag g) ∧ 0 <= flag_of g <= 2.
Proof.
  intros [Hq Hm Hf Hr Hs Hun]. destruct Hm.
  destruct (has_new_bits_map g.(branchTraceBit) g.(virginMapForBranchTraceBit)) as [Hb Hb2]; [done..|].
  destruct (has_new_bits_map g.(globalTraceBit) g.(virginMap)) as [Ht Ht2]; [done..|]. split.
  - split; [done| |done..]. by split.
  - unfold flag_of. destruct (isBranchCoverage cfg); [case_decide; lia|done].
Qed.

(** The seed that is added for the input [mem]. *)
Definition found_seed (filename : string) (mem : list Z) (elist : option string) g : seed :=
  set_execTime 1 (set_cksum (hash32 g.(globalTraceBit) map_size HASH_CONST)
    (new_seed filename (zlen mem) elist None)).
Definition with_seed (e : seed) (mem : list Z) g : globals :=
  set_files (<[e.(fileName) := mem]> g.(files))
    (set_qs (set_queue (g.(qs).(queue) ++ [e]) g.(qs)) g).

Lemma wp_upd_last n f (l : list seed) e (Q : unit → globals → Prop) R E g :
  g.(qs).(queue) = l ++ [e] → n = length l →
  Q tt (set_qs (set_queue (l ++ [f e]) g.(qs)) g) → wp (queue_op (upd_seed n f)) Q R E g.
Proof.
  intros Hq -> HQ. apply wp_zoom, (wp_upd_seed _ _ e).
  - rewrite Hq, lookup_app_r, Nat.sub_diag by done. done.
  - rewrite Hq. replace (length l) with (length l + 0)%nat at 1 by lia. by rewrite insert_app_r.
Qed.

Lemma with_seed_inv e mem g : inv g → Forall is_u8 mem → zlen mem < 2 ^ 28 →
  Z.of_nat (size g.(files)) < 2 ^ 29 → g.(files) !! e.(fileName) = None →
  e.(fileName) ≠ cfg.(testfile) → e.(fileLen) = zlen mem → e.(topCount) = 0 → e.(trace) = None →
  inv (with_seed e mem g).
Proof.
  intros [Hq Hm Hf Hr Hs Hun] Hmem Hlen Hsz Hno Hne Hl Hc Ht. split.
  - apply queue_inv_grow; [|done]. intros [|t] x; cbn; [by intros [= <-]|done].
  - by destruct Hm; split.
  - destruct (files_ok_write _ _ e.(fileName) mem Hf Hno Hmem) as [Hb Hst]. split; [done|].
    apply Forall_app_2; [done|]. constructor; [|done]. split; [done|]. exists mem.
    split; [apply lookup_insert_eq|done].
  - destruct Hr as [H1 H2 H3 H4]. split; cbn; try done; rewrite map_size_insert_None by done; [lia|].
    rewrite zlen_app. unfold zlen in *. cbn [length]. lia.
  - eapply sync_ok_files; [exact Hs|done|]. intros [x Hx]. cbn.
    destruct (decide (e.(fileName) = file_lock)) as [->|Hfl]; [by rewrite lookup_insert_eq|].
    rewrite lookup_insert_ne by done. by exists x.
  - done.
Qed.

(** Lines 844-855: from [AddToQueue] on. *)
Lemma wp_append_seed filename mem elist (Q : unit → globals → Prop) R g :
  inv g → Forall is_u8 mem → filename ≠ cfg.(testfile) →
  (let e := found_seed filename mem elist g in
   inv (with_seed e mem g) → g.(files) !! filename = None → Q tt (with_seed e mem g)) →
  wp (queue_op (AddToQueue filename (zlen mem) elist None) ;;
      WriteMem2File filename mem ;;
      q ← gets (λ g, pred (length g.(qs).(queue)));
      tr ← gets globalTraceBit;
      queue_op (upd_seed q (set_cksum (hash32 tr map_size HASH_CONST))) ;;
      queue_op (upd_seed q (set_execTime 1))) Q R (λ _ _, True) g.
Proof.
  intros Hg Hmem Hne HQ. apply wp_bind. unfold queue_op at 1. apply wp_zoom, wp_modify.
  apply wp_bind, wp_create. intros Hno Hsz Hlen. do 2 (apply wp_bind, wp_gets).
  assert (pred (length (g.(qs).(queue) ++ [new_seed filename (zlen mem) elist None])) =
    length g.(qs).(queue)) as Hn by (rewrite length_app; cbn; lia).
  apply wp_bind. eapply wp_upd_last; [done|exact Hn|]. eapply wp_upd_last; [done|exact Hn|].
  apply HQ; [|done]. by apply with_seed_inv.
Qed.

(** What [keep_seed] does: one seed more, whose file holds the input; the slots
    of the queue, the maps and the statistics of crashes and hangs stay. *)
Record seed_kept (flag : Z) (mem : list Z) g g' : Prop := SeedKept {
  sk_inv : inv g';
  sk_seed : ∃ n elist, num2str_Keep6bit (zlen g.(qs).(queue)) = Some n ∧
    let e := found_seed (cfg.(outputDir) +:+ "queue/" +:+ n +:+ suffix flag) mem elist g in
    qs g' = set_queue (g.(qs).(queue) ++ [e]) g.(qs) ∧ files g' !! e.(fileName) = Some mem;
  sk_virgin : virginMap g' = virginMap g ∧
    virginMapForBranchTraceBit g' = virginMapForBranchTraceBit g;
  sk_trace : globalTraceBit g' = globalTraceBit g ∧ errorTraced g' = errorTraced g ∧
    errorList g' = errorList g ∧ crashTrace g' = crashTrace g ∧ timeoutTrace g' = timeoutTrace g;
  sk_fixed : queueCycle g' = queueCycle g ∧ exec_tmout g' = exec_tmout g ∧
    hang_tmout g' = hang_tmout g;
  sk_counts : ∀ k, k ∈ unique_crash_count :: numbering → counts g' k = counts g k;
  sk_files : ∀ k b, k ≠ cfg.(testfile) → g.(files) !! k = Some b → g'.(files) !! k = Some b;
}.

Lemma keep_seed_ok flag eflag mem g : inv g → Forall is_u8 mem →
  wp (keep_seed cfg map_size flag eflag mem) (λ _, seed_kept flag mem g)
    (λ _ _, False) (λ _ _, True) g.
Proof.
  intros Hg Hmem. unfold keep_seed. apply wp_bind, wp_gets.
  pose proof (zlen_nonneg g.(qs).(queue)) as Hn.
  assert (zlen g.(qs).(queue) <= 2 ^ 29) as Hn'.
  { destruct (gi_room _ _ _ _ Hg) as [Hs Hr _ Hf]. unfold numbered in Hf.
    pose proof (Hr total_crash_count). pose proof (Hr unique_hang_count).
    pose proof (Hr unique_ex_hang_count). pose proof (Hr unique_ex_crash_count). lia. }
  rewrite u32_id by (unfold is_u32; lia).
  apply wp_bind, wp_num2str; [lia|]. intros n Hname.
  assert (cfg.(outputDir) +:+ "queue/" +:+ n +:+ suffix flag ≠ cfg.(testfile)) as Hne
    by (intros E; by apply (proj1 Hcfg ("queue/" +:+ n +:+ suffix flag))).
  set (filename := cfg.(outputDir) +:+ "queue/" +:+ _) in *. cbv zeta.
  set (same := λ g', inv g' ∧ filed g g' ∧
    ∀ k, k ∈ unique_crash_count :: numbering → counts g' k = counts g k).
  assert (∀ k x g', same g' → k = usefule_input ∨ k = useful_error_seq →
    same (add_count k x g')) as Hcount.
  { intros k x g' (Hi&Hf&Hc) Hk.
    assert (k ∉ unique_crash_count :: numbering) as Hnk by (destruct_or! Hk; subst k; numbers).
    split; [|split].
    - apply not_elem_of_cons in Hnk as [??]. by apply inv_count.
    - destruct Hf. split; try done. by apply handled_count.
    - intros j Hj. rewrite counts_add_other; [by apply Hc|]. intros ->. done. }
  assert (same g) as Hsame by (by split).
  apply wp_bind, (wp_conseq _ (λ _ g', same g')).
  { destruct eflag; [|done]. apply wp_bind, wp_gets, wp_bind, wp_extra_file; [done|apply Hg|].
    intros g1 Hg1 Hf1 Hc1. wp_steps. apply Hcount; [|by right]. split; [done|]. split; [done|].
    intros k _. by rewrite Hc1. }
  intros elist g1 Hs1. apply wp_bind, (wp_conseq _ (λ _ g', same g')).
  { destruct eflag; [done|]. apply Hcount; [done|by left]. }
  intros [] g2 (Hg2&Hf2&Hc2). apply wp_append_seed; [done..|]. intros e He Hno.
  destruct Hf2 as [[] fl_trace0 ????]. split; cbn; try done; try (split_and!; congruence).
  - exists n, elist. split; [done|]. split; [|by rewrite lookup_insert_eq].
    subst e. unfold found_seed. by rewrite hd_qs0, fl_trace0.
  - intros k b Hk Hb. rewrite lookup_insert_ne; [auto|]. intros <-. 
    specialize (hd_files0 _ _ Hk Hb). subst e. cbn in hd_files0. congruence.
Qed.

(** What [AddInterestingSeed] does with the input [mem] of the last run. *)
Record judged (mem : list Z) (run_status : Z) g (r : Z) g' : Prop := Judged {
  jd_inv : inv g';
  jd_virgin : virginMap g' = (has_new_bits map_size g.(globalTraceBit) g.(virginMap)).2;
  jd_vbranch : virginMapForBranchTraceBit g' =
    (has_new_bits map_size g.(branchTraceBit) g.(virginMapForBranchTraceBit)).2;
  jd_seeds : if decide (flag_of g = 0) then qs g' = qs g else
    ∃ n elist, num2str_Keep6bit (zlen g.(qs).(queue)) = Some n ∧
      let e := found_seed (cfg.(outputDir) +:+ "queue/" +:+ n +:+ suffix (flag_of g)) mem elist g in
      qs g' = set_queue (g.(qs).(queue) ++ [e]) g.(qs) ∧ files g' !! e.(fileName) = Some mem;
  jd_crash : run_status = FAULT_CRASH →
    cfg.(fuzzing_error) && are_errors_triggered g.(errorList) g.(errorTraced) = false →
    crash_result (if decide (flag_of g = 0) then 0 else 1) g r g';
  jd_none : run_status ∉ [FAULT_TMOUT; FAULT_CRASH] →
    (∀ k, k ∈ unique_crash_count :: numbering → counts g' k = counts g k) ∧
    crashTrace g' = crashTrace g ∧ timeoutTrace g' = timeoutTrace g;
  jd_fixed : queueCycle g' = queueCycle g ∧ exec_tmout g' = exec_tmout g;
  jd_files : ∀ k b, k ≠ cfg.(testfile) → g.(files) !! k = Some b → g'.(files) !! k = Some b;
}.

(** The state before the handlers. *)
Definition sorted_out (mem : list Z) g (keeping : Z) g' : Prop :=
  if decide (flag_of g = 0) then keeping = 0 ∧ g' = after_flag g
  else keeping = 1 ∧ seed_kept (flag_of g) mem (after_flag g) g'.

Lemma sorted_out_judged mem g keeping g' : inv g → sorted_out mem g keeping g' →
  is_u8 keeping ∧ judged mem FAULT_NONE g keeping g' ∧
  crashTrace g' = crashTrace g ∧ timeoutTrace g' = timeoutTrace g ∧
  globalTraceBit g' = globalTraceBit g ∧
  (∀ k, k ∈ unique_crash_count :: numbering → counts g' k = counts g k).
Proof.
  intros Hg Hs. unfold sorted_out in Hs. destruct (after_flag_inv g Hg) as [Hi _].
  case_decide as Hd.
  - destruct Hs as [-> ->]. split; [apply is_u8_0|]. split; [|done].
    split; try done. by rewrite decide_True.
  - destruct Hs as [-> [Hinv (n&el&Hn&Hq&Hfile) [Hv Hvb] (Ht&_&_&Hc&Hto) (Hcy&Hex&_) Hcnt Hfs]].
    split; [unfold is_u8; lia|]. split; [|done]. split; try done.
    rewrite decide_False by done. exists n, el. by split.
Qed.

Lemma judged_handled mem st g keeping g1 r g' :
  judged mem FAULT_NONE g keeping g1 → inv g' → handled cfg g1 g' →
  (st = FAULT_CRASH →
    cfg.(fuzzing_error) && are_errors_triggered g.(errorList) g.(errorTraced) = false →
    crash_result (if decide (flag_of g = 0) then 0 else 1) g r g') →
  st = FAULT_TMOUT ∨ st = FAULT_CRASH → judged mem st g r g'.
Proof.
  intros [Hi Hv Hvb Hs _ _ [Hcy Hex] Hf] Hi' [] Hcr Hst. split; try done; try congruence.
  - case_decide; [congruence|]. destruct Hs as (n&el&Hn&Hq&Hfile). exists n, el.
    split; [done|]. cbv zeta. split; [congruence|]. apply hd_files0; [|done].
    intros E. by apply (proj1 Hcfg ("queue/" +:+ n +:+ suffix (flag_of g))).
  - intros Hn. exfalso. apply Hn. destruct Hst as [-> | ->]; [left|right; left].
  - split; congruence.
  - intros k b Hk Hb. by apply hd_files0, Hf.
Qed.

Lemma AddInterestingSeed_ok mem st g : inv g → Forall is_u8 mem → st ∈ [FAULT_NONE; FAULT_TMOUT; FAULT_CRASH] →
  wp (AddInterestingSeed cfg map_size list_size mem st)
    (λ r g', is_u8 r ∧ judged mem st g r g') (λ _ _, False) (λ _ _, True) g.
Proof.
  intros Hg Hmem Hst. unfold AddInterestingSeed. apply wp_bind. unfold wp at 1.
  rewrite new_bit_flag_run. destruct (after_flag_inv g Hg) as [Hi _]. apply wp_bind, wp_gets.
  change (errorList (after_flag g)) with g.(errorList).
  change (errorTraced (after_flag g)) with g.(errorTraced).
  set (eflag := _ && _). apply wp_bind, (wp_conseq _ (sorted_out mem g)).
  { apply wp_ifd; intros Hd.
    - apply wp_bind. eapply wp_conseq; [by apply keep_seed_ok|]. intros [] g1 H1. apply wp_mret.
      unfold sorted_out. by rewrite decide_False.
    - apply wp_mret. unfold sorted_out. by rewrite decide_True by (by apply dec_stable). }
  intros keeping g1 H1. destruct (sorted_out_judged mem g keeping g1 Hg H1) as (Hk&Hj&Hc&Ht&Htr&Hn).
  assert (inv g1) as Hg1 by apply Hj.
  apply wp_ifd; intros Hs; [|apply wp_ifd; intros Hs2].
  - subst st. apply wp_if; intros He.
    + eapply wp_conseq; [by apply ex_hang_handler_ok|]. intros r g2 (Hr&Hg2&Hh). split; [done|].
      eapply judged_handled; try done. by left.
    + eapply wp_conseq; [by apply hang_handler_ok|]. intros r g2 (Hr&Hg2&Hh&_). split; [done|].
      eapply judged_handled; try done. by left.
  - subst st. apply wp_if; intros He.
    + eapply wp_conseq; [by apply ex_crash_handler_ok|]. intros r g2 (Hr&Hg2&Hh). split; [done|].
      eapply judged_handled; try done; [|by right]. intros _ E. fold eflag in E. congruence.
    + eapply wp_conseq; [by apply crash_handler_ok|]. intros r g2 (Hr&Hg2&Hh&Hres). split; [done|].
      eapply judged_handled; try done; [|by right]. intros _ _.
      assert (keeping = if decide (flag_of g = 0) then 0 else 1) as <-
        by (unfold sorted_out in H1; case_decide; apply H1).
      destruct Hres as [H2 H3 H4].
      rewrite (Hn total_crash_count) in H2 by numbers.
      rewrite Ht, (Hn unique_hang_count) in H3 by numbers.
      rewrite Htr, Hc, (Hn unique_crash_count) in H4 by numbers. by split.
  - apply wp_mret. split; [done|]. replace st with FAULT_NONE; [done|].
    repeat (apply elem_of_cons in Hst as [->|Hst]; [done|]). by apply elem_of_nil in Hst.
Qed.

(** *** [FuzzUnit] *)

Lemma bytes_sync l c : bytes map_size l → bytes map_size c →
  bytes map_size (sync_coverage l c).1 ∧ bytes map_size (sync_coverage l c).2.
Proof.
  intros [Hl Hlb] [Hc Hcb]. cbn. unfold bytes. split; split; try (by apply zip_land_u8);
    unfold zlen in *; rewrite length_zip_with; lia.
Qed.

(** A coverage map after a visit to the shared one. *)
Definition shrunk (v v' : list Z) : Prop :=
  v' = v ∨ ∃ c, bytes map_size c ∧ v' = zip_with Z.land c v.
Definition synced g g' : Prop :=
  ∃ t v vb p, g' = set_fuzz_time t (set_virginMap v (set_virginMapForBranchTraceBit vb
                     (set_sync_cov_ptr p g))) ∧
    shrunk g.(virginMap) v ∧ shrunk g.(virginMapForBranchTraceBit) vb.

Lemma sync_maps_ok g : inv g →
  wp (sync_maps cfg) (λ _ g', inv g' ∧ synced g g') (λ _ _, False) (λ _ _, True) g.
Proof.
  intros Hg. pose proof Hg as [Hq Hm Hf Hr Hs Hun].
  assert (∀ t, inv (set_fuzz_time t g) ∧ synced g (set_fuzz_time t g)) as Htime.
  { intros t. split; [split; [done|by destruct Hm; split|done..]|].
    exists t, g.(virginMap), g.(virginMapForBranchTraceBit), g.(sync_cov_ptr).
    split; [done|]. split; by left. }
  unfold sync_maps. apply wp_ifd; intros Hc;
    [|apply wp_mret; pose proof (Htime g.(fuzz_time)) as H0; by destruct g].
  destruct (Hs Hc) as [[lk Hlk] (c&cb&Hp&Hcb&Hcbb)]. apply wp_bind, wp_modify, wp_bind, wp_gets.
  apply wp_ifd; intros Ht; [|apply Htime].
  apply wp_bind, wp_gets, wp_ifd; intros Hl; [cbn in Hl; congruence|].
  apply wp_bind. eapply wp_from_option; [exact Hp|]. do 2 (apply wp_bind, wp_gets).
  cbn [sync_coverage fst snd id]. apply wp_bind, wp_modify, wp_bind, wp_modify, wp_modify.
  pose proof (peers_ok g.(runs) c map_size Hcb) as Hpc.
  pose proof (peers_ok g.(runs) cb map_size Hcbb) as Hpb. destruct Hm.
  destruct (bytes_sync g.(virginMap) (peers g.(runs) c)) as [Hv _]; [done..|].
  destruct (bytes_sync g.(virginMapForBranchTraceBit) (peers g.(runs) cb)) as [Hvb _]; [done..|].
  split.
  - split; [done|by split|done..| |done]. intros _. split; [by exists lk|]. by eexists _, _.
  - eexists ((g.(fuzz_time) + 1) mod sync_cycle cfg), _, _, _. split; [reflexivity|].
    split; right; [by exists (peers g.(runs) c)|by exists (peers g.(runs) cb)].
Qed.

(** The state in which [FuzzUnit] runs the target. *)
Definition prepared (mem : list Z) (error_list : option (list Z)) g g' : Prop :=
  ∃ g1, synced g g1 ∧ g' = with_testcase mem
    (match error_list with
     | Some l => set_errorList l (add_count total_error_seq 1 g1)
     | None => add_count total_input 1 g1
     end).

Definition input_of (filemap : list Z) : list Z :=
  take (Z.to_nat (u32 (zlen filemap))) filemap.

Lemma FuzzUnit_ok filemap error_list g : inv g → Forall is_u8 filemap →
  (∀ l, error_list = Some l → bytes list_size l) →
  wp (FuzzUnit cfg map_size list_size filemap error_list)
    (λ r g', r = 0 ∧ zlen (input_of filemap) < 2 ^ 28 ∧ ∃ g1 c k,
       prepared (input_of filemap) error_list g g1 ∧ inv g1 ∧
       run_target g1.(runs) g1.(files) g1.(errorList) (clear_counters g1.(shared)) g1.(exec_tmout) = Some c ∧
       judged (input_of filemap) (fault_of c) (after_run map_size c g1) k g')
    (λ _ _, False) (λ _ _, True) g.
Proof.
  intros Hg Hb He. unfold FuzzUnit. fold (input_of filemap). cbv zeta.
  assert (Forall is_u8 (input_of filemap)) as Hmem by (by apply Forall_take).
  apply wp_bind. eapply wp_conseq; [by apply sync_maps_ok|]. intros [] g1 [Hg1 Hs1]. apply wp_bind.
  eapply (wp_conseq _ (λ _ g', inv g' ∧ g' = match error_list with
     | Some l => set_errorList l (add_count total_error_seq 1 g1)
     | None => add_count total_input 1 g1
     end)).
  { destruct error_list as [l|]; [apply wp_bind, wp_modify, wp_modify|apply wp_modify];
      (split; [|done]).
    - destruct (inv_count g1 total_error_seq 1 Hg1) as [Hq Hm Hf Hr Hs Hun]; [numbers|done|].
      split; [done| |done..]. destruct Hm. split; try done. by apply He.
    - apply inv_count; [done|numbers|done]. }
  intros [] g2 [Hg2 E2]. apply wp_bind, wp_WriteToTestcase; [done..|]. intros Hlen Hg3 Hh3.
  apply wp_bind, wp_gets, wp_bind, wp_ExecuteCase; [done|]. intros c Hc Hg4 Hh4. apply wp_bind.
  eapply wp_conseq; [apply AddInterestingSeed_ok; [done..|]|].
  { unfold fault_of. destruct (c_status c); [left|]. case_decide; [right; left|right; right; left]. }
  intros k g5 [_ Hj]. apply wp_mret. split; [done|]. split; [done|].
  exists (with_testcase (input_of filemap) g2), c, k. split; [|done].
  exists g1. by rewrite E2.
Qed.
End keeping.
