(* ===== verification/Calibration.v ===== *)
(** * Calibration of the seeds

    [CalibrateCase] and [DryRunning] of [TestRunning.cpp], as modelled in
    [Execution], keep the invariant; [CalibrateCase] gives the seed its checksum and
    its time and offers it the slots of its trace. *)

From S2P Require Import Prelude.
From S2P Require Import TraceMap.
From S2P Require Import Queue.
From S2P Require Import Faults.
From S2P Require Import Execution.
From S2P Require Import Keeping.

Section calibration.
Context `{!Env} {cfg : config} {map_size list_size : Z} `{!EnvOK map_size list_size}.
Hypothesis Hcfg : names_ok cfg.
Hypothesis Hsize : 0 <= map_size < 2 ^ 32 ∧ map_size mod 8 = 0.
Implicit Types g : globals.
Abbreviation inv := (g_inv cfg map_size list_size).

Lemma set_qs_id g : set_qs g.(qs) g = g.
Proof. by destruct g. Qed.

(** What a seed has on disk. *)
Definition disk_key (e : seed) : string * Z := (e.(fileName), e.(fileLen)).

Lemma stored_key f (e e' : seed) : disk_key e' = disk_key e → stored cfg f e → stored cfg f e'.
Proof. unfold stored, disk_key. intros [= -> ->]. done. Qed.

Lemma Forall_stored f (l l' : list seed) : disk_key <$> l' = disk_key <$> l →
  Forall (stored cfg f) l → Forall (stored cfg f) l'.
Proof.
  revert l'. induction l as [|e l IH]; intros [|e' l'] E Hl; try done.
  injection E as E1 E2. apply Forall_cons_iff in Hl as [He Hl]. constructor; [|by apply IH].
  eapply stored_key; [|exact He]. unfold disk_key. congruence.
Qed.

Lemma inv_qs g q : inv g → queue_inv map_size q →
  disk_key <$> q.(queue) = disk_key <$> g.(qs).(queue) → inv (set_qs q g).
Proof.
  intros [Hq Hm [Hb Hst] Hr Hs Hun] Hq' E. split; [done|by destruct Hm; split|..|done|done].
  - split; [done|]. by eapply Forall_stored.
  - cbn. assert (zlen q.(queue) = zlen g.(qs).(queue)) as ->; [|done].
    apply (f_equal length) in E. rewrite !length_fmap in E. unfold zlen. by rewrite E.
Qed.

Lemma core_disk_key (l l' : list seed) : core <$> l' = core <$> l → disk_key <$> l' = disk_key <$> l.
Proof.
  intros E. assert (∀ l : list seed, disk_key <$> l = disk_key <$> (core <$> l)) as H'
    by (intros k; rewrite <-list_fmap_compose; by apply list_fmap_ext).
  by rewrite (H' l'), E, <-H'.
Qed.

Lemma insert_disk_key (l : list seed) t e e' : l !! t = Some e → disk_key e' = disk_key e →
  disk_key <$> <[t := e']> l = disk_key <$> l.
Proof.
  intros He E. rewrite list_fmap_insert, E. apply list_insert_id. by rewrite list_lookup_fmap, He.
Qed.

(** A change of one seed that keeps its slots and its file. *)
Lemma wp_upd_inv t f e (Q : unit → globals → Prop) R E g : inv g → g.(qs).(queue) !! t = Some e →
  topCount (f e) = topCount e → trace (f e) = trace e → disk_key (f e) = disk_key e →
  (let g' := set_qs (set_queue (<[t := f e]> g.(qs).(queue)) g.(qs)) g in
   inv g' → g'.(qs).(queue) !! t = Some (f e) → Q tt g') →
  wp (queue_op (upd_seed t f)) Q R E g.
Proof.
  intros Hg He Hc Ht Hk HQ. apply wp_zoom, (wp_upd_seed _ _ e); [done|]. apply HQ.
  - apply inv_qs; [done|apply queue_inv_upd; [apply Hg|done..]|]. by apply (insert_disk_key _ _ e).
  - cbn. apply list_lookup_insert_eq. by eapply lookup_lt_Some.
Qed.

(** What [CalibrateCase] does to the seed [q]: nothing when the run failed;
    otherwise it gets a checksum if it had none and the time of the run, and
    [UpdateQueueTop] offers it the slots of its trace. *)
Definition calibrated (tr : list Z) (time : Z) (e : seed) : seed :=
  set_execTime time
    (if decide (e.(cksum) = 0) then set_cksum (hash32 tr map_size HASH_CONST) e else e).
Definition calibrated_queue (q : nat) (tr : list Z) (time : Z) (s : qstate) : qstate :=
  match s.(queue) !! q with
  | Some e => set_queue (<[q := calibrated tr time e]> s.(queue)) s
  | None => s
  end.
Record calibration (q : nat) g (r : Z) g' : Prop := Calibration {
  cb_inv : inv g';
  cb_fail : r ≠ FAULT_NONE → g'.(qs) = g.(qs);
  cb_done : r = FAULT_NONE → ∃ time,
    let s := calibrated_queue q g'.(globalTraceBit) time g.(qs) in
    g'.(qs).(queueTop) = top_after s q g'.(globalTraceBit) ∧
    core <$> g'.(qs).(queue) = core <$> s.(queue);
  cb_keys : disk_key <$> g'.(qs).(queue) = disk_key <$> g.(qs).(queue);
  cb_files : ∀ k b, k ≠ cfg.(testfile) → g.(files) !! k = Some b → g'.(files) !! k = Some b;
  cb_same : g'.(virginMap) = g.(virginMap) ∧ g'.(queueCycle) = g.(queueCycle);
}.

(** Neither the clock nor the sums of the calibration matter. *)
Lemma inv_ticks g n : inv g → inv (set_ticks n g).
Proof. intros [Hq Hm Hf Hr Hs Hun]. split; [done|by destruct Hm; split|done..]. Qed.

Lemma inv_calibrated g n a b : inv g →
  inv (add_count total_cal_cycles b (add_count total_cal_us a (set_ticks n g))).
Proof.
  intros Hg. apply inv_count; [|numbers|done]. apply inv_count; [|numbers|done]. by apply inv_ticks.
Qed.

Definition with_cksum (tr : list Z) (e : seed) : seed :=
  if decide (e.(cksum) = 0) then set_cksum (hash32 tr map_size HASH_CONST) e else e.

Lemma calibrate_end_ok q e time_begin g g1 : inv g1 →
  g.(qs).(queue) !! q = Some e →
  g1.(qs) = set_queue (<[q := with_cksum g1.(globalTraceBit) e]> g.(qs).(queue)) g.(qs) →
  (∀ k b, k ≠ cfg.(testfile) → g.(files) !! k = Some b → g1.(files) !! k = Some b) →
  g1.(virginMap) = g.(virginMap) ∧ g1.(queueCycle) = g.(queueCycle) →
  wp (calibrate_end map_size q time_begin FAULT_NONE) (λ _ _, False)
    (calibration q g) (λ _ _, True) g1.
Proof.
  intros Hg1 He Hq1 Hf1 Hs1. unfold calibrate_end. apply wp_bind, wp_clock.
  do 2 apply wp_bind, wp_modify. set (time := u64 _).
  set (g2 := add_count _ _ _). assert (inv g2) as Hg2 by (by apply inv_calibrated).
  set (e1 := with_cksum g1.(globalTraceBit) e) in *.
  assert (disk_key e1 = disk_key e ∧ topCount e1 = topCount e ∧ trace e1 = trace e) as (Hk1&Hc1&Ht1)
    by (subst e1; unfold with_cksum; by case_decide).
  assert (q < length g.(qs).(queue))%nat as Hlt by (by eapply lookup_lt_Some).
  assert (g2.(qs).(queue) !! q = Some e1) as He2
    by (change g2.(qs) with g1.(qs); rewrite Hq1; by apply list_lookup_insert_eq).
  apply wp_bind, (wp_upd_inv _ _ e1); [done..|]. intros g3 Hg3 He3.
  assert (calibrated_queue q g1.(globalTraceBit) (time / CAL_CYCLES) g.(qs) = g3.(qs)) as Hq3.
  { unfold calibrated_queue. rewrite He. subst g3. change g2.(qs) with g1.(qs). rewrite Hq1.
    cbn. by rewrite list_insert_insert_eq. }
  apply wp_bind, wp_gets, wp_bind, wp_zoom.
  eapply wp_conseq; [apply (wp_UpdateQueueTop map_size g3.(qs) q (set_execTime (time / CAL_CYCLES) e1));
    [apply Hg3|lia|apply Hg3|done]|].
  intros [] q4 (Hi4&Ht4&Hc4&_). apply wp_return.
  assert (disk_key <$> q4.(queue) = disk_key <$> g3.(qs).(queue)) as Hkeys by (by apply core_disk_key).
  split; try done.
  - by apply inv_qs.
  - intros _. exists (time / CAL_CYCLES). cbn [globalTraceBit set_qs qs].
    change g3.(globalTraceBit) with g1.(globalTraceBit). by rewrite Hq3.
  - cbn [qs set_qs]. rewrite Hkeys. subst g3. change g2.(qs) with g1.(qs). rewrite Hq1. cbn.
    rewrite list_insert_insert_eq. by apply (insert_disk_key _ _ e).
Qed.

Lemma CalibrateCase_ok q e mem g : inv g → g.(qs).(queue) !! q = Some e →
  zlen mem = e.(fileLen) → Forall is_u8 mem →
  wp (CalibrateCase cfg map_size list_size q mem) (calibration q g)
    (λ _ _, False) (λ _ _, True) g.
Proof.
  intros Hg He Hl Hmem. unfold CalibrateCase. apply wp_call, wp_bind, wp_clock.
  set (g1 := set_ticks _ g). assert (inv g1) as Hg1 by (by apply inv_ticks).
  change (for_fold (Z.to_nat CAL_CYCLES) 0 1 ?b ?a) with (a' ← b 0 a; mret a'). apply wp_bind, wp_bind.
  unfold calibrate_cycle. apply wp_bind, wp_zoom. eapply wp_seed_at; [exact He|].
  assert (0 <= e.(fileLen) < 2 ^ 28) as Hlen.
  { apply list_elem_of_lookup_2 in He. destruct (gi_files _ _ _ _ Hg) as [_ Hst].
    apply (proj1 (list.Forall_forall _ _) Hst) in He as [_ (b&_&<-&?)]. split; [apply zlen_nonneg|done]. }
  apply wp_bind. eapply (wp_from_option _ mem).
  { rewrite u32_id by (unfold is_u32; lia). rewrite slice_is_Some, drop_0 by lia.
    rewrite take_ge; [done|]. unfold zlen in Hl. lia. }
  change (set_qs (qs g1) g1) with g1.
  apply wp_bind, wp_WriteToTestcase; [done..|]. intros _ Hg2 Hh2.
  apply wp_bind, wp_gets, wp_bind, (wp_ExecuteCase (cfg := cfg) Hsize); [done..|]. intros c Hc Hg3 Hh3.
  set (g3 := after_run map_size c _) in *. assert (handled cfg g g3) as Hh.
  { etrans; [|exact Hh3]. etrans; [|exact Hh2]. by split. }
  apply wp_ifd; intros Hst.
  - apply wp_bind, wp_clock. do 2 apply wp_bind, wp_modify. apply wp_return. destruct Hh.
    split; try done; [by apply inv_calibrated|cbn; congruence].
  - assert (fault_of c = FAULT_NONE) as -> by (by apply dec_stable).
    apply wp_bind, wp_zoom. eapply wp_seed_at; [by rewrite (hd_qs _ _ _ Hh)|].
    rewrite set_qs_id. apply wp_bind.
    destruct Hh as [Hd1 Hd2 _ _ Hd5 _ _ Hd8].
    assert (g3.(qs).(queue) !! q = Some e) as He3 by congruence.
    apply wp_ifd; intros Hck; [apply wp_bind, wp_gets, (wp_upd_inv _ _ e); [done..|]; intros g4 Hg4 _|apply wp_mret];
      do 2 apply wp_mret;
      (eapply wp_mono; [apply (calibrate_end_ok q e (clock g.(ticks)) g); try done|done|done|done]).
    + unfold with_cksum. rewrite decide_True by done. subst g4. by rewrite Hd1.
    + unfold with_cksum. rewrite decide_False by done. rewrite Hd1, list_insert_id by done.
      by destruct (qs g).
Qed.

Lemma stored_slice g t e : inv g → g.(qs).(queue) !! t = Some e →
  ∃ b, g.(files) !! e.(fileName) = Some b ∧ slice b 0 e.(fileLen) = Some b ∧
    zlen b = e.(fileLen) ∧ zlen b < 2 ^ 28 ∧ Forall is_u8 b.
Proof.
  intros Hg He. apply list_elem_of_lookup_2 in He. destruct (gi_files _ _ _ _ Hg) as [Hb Hst].
  apply (proj1 (list.Forall_forall _ _) Hst) in He as [_ (b&Hf&Hl&Hlt)].
  exists b. split; [done|]. split; [|by split_and!; [..|apply (Hb _ _ Hf)]].
  rewrite <-Hl. rewrite slice_is_Some, drop_0 by (pose proof (zlen_nonneg b); lia).
  rewrite take_ge; [done|]. unfold zlen. lia.
Qed.

(** *** [DryRunning] *)

Lemma DryRunning_ok g : inv g →
  wp (DryRunning cfg map_size list_size)
    (λ _ g', inv g' ∧ disk_key <$> g'.(qs).(queue) = disk_key <$> g.(qs).(queue) ∧
       g'.(queueCycle) = g.(queueCycle)) (λ _ _, False) (λ _ _, True) g.
Proof.
  intros Hg. unfold DryRunning. apply wp_bind, wp_gets.
  apply wp_for_each; [done|]. intros t g1 Ht (Hg1&Hk1&Hc1).
  apply elem_of_seq in Ht. apply (f_equal length) in Hk1 as Hl1. rewrite !length_fmap in Hl1.
  destruct (lookup_lt_is_Some_2 g1.(qs).(queue) t) as [e He]; [lia|].
  destruct (stored_slice g1 t e Hg1 He) as (b&Hf&Hsl&Hl&_&Hb).
  unfold dry_run. apply wp_bind, wp_zoom. eapply wp_seed_at; [exact He|]. rewrite set_qs_id.
  apply wp_bind, wp_gets. rewrite Hf. apply wp_bind. eapply wp_from_option; [exact Hsl|].
  apply wp_bind. eapply wp_conseq; [by eapply CalibrateCase_ok|]. intros r g2 [Hg2 _ _ Hk2 _ [_ Hc2]].
  apply wp_mret. split; [done|]. split; congruence.
Qed.

Lemma CullQueue_ok g : inv g →
  wp (call (queue_op (CullQueue map_size)))
    (λ _ g', inv g' ∧ disk_key <$> g'.(qs).(queue) = disk_key <$> g.(qs).(queue) ∧
       ∃ q, g' = set_qs q g) (λ _ _, False) (λ _ _, False) g.
Proof.
  intros Hg. apply wp_call, wp_zoom. unfold wp. destruct (g.(qs).(scoreChange)) eqn:Hch.
  - destruct (CullQueue_run map_size g.(qs)) as (q'&->&Hq&_&Hf&_); [lia|apply Hg|done|].
    assert (disk_key <$> q'.(queue) = disk_key <$> g.(qs).(queue)) as Hk.
    { assert (∀ l : list seed, disk_key <$> l = disk_key <$> (set_favored false <$> l)) as H'
        by (intros k; rewrite <-list_fmap_compose; by apply list_fmap_ext).
      by rewrite (H' q'.(queue)), Hf, <-H'. }
    split; [by apply inv_qs|]. split; [done|by exists q'].
  - unfold CullQueue, mbind, proc_bind, gets. rewrite Hch. cbn [return_]. rewrite set_qs_id.
    split; [done|]. split; [done|]. exists g.(qs). by rewrite set_qs_id.
Qed.
End calibration.
