(* ===== verification/Found.v ===== *)
(** * What is found, and how much of it there can be

    Consequences of the lemmas of [Keeping]: crashes are told apart by the slots
    of the trace map they hit, every seed is paid for with a bit of a coverage
    map, and a fuzzer that belongs to no group stops at its tenth input. *)

From S2P Require Import Prelude.
From S2P Require Import TraceMap.
From S2P Require Import Queue.
From S2P Require Import Faults.
From S2P Require Import Execution.
From S2P Require Import Keeping.

(** ** Counting bits *)

Definition popcount (b : Z) : Z := foldr (λ i n, Z.b2z (Z.testbit b i) + n) 0 (seqZ 0 8).
Definition bits_left (v : list Z) : Z := foldr (λ b n, popcount b + n) 0 v.

Lemma popcount_range b : 0 <= popcount b <= 8.
Proof.
  unfold popcount. change (seqZ 0 8) with [0; 1; 2; 3; 4; 5; 6; 7]. cbn [foldr].
  repeat (destruct (Z.testbit b _)); cbn; lia.
Qed.

Lemma bits_left_range v : 0 <= bits_left v <= 8 * zlen v.
Proof.
  unfold zlen, bits_left. induction v as [|b v IH]; [cbn; lia|]. cbn [foldr length].
  pose proof (popcount_range b). lia.
Qed.

Lemma popcount_land c v : popcount (Z.land c v) <= popcount v.
Proof.
  unfold popcount. induction (seqZ 0 8) as [|i l IH]; [done|]. cbn [foldr].
  rewrite Z.land_spec. destruct (Z.testbit c i), (Z.testbit v i); cbn in *; lia.
Qed.

Definition clears_a_bit (c v : Z) : bool :=
  (byte_flag c v =? 0) || (popcount (clear_bits c v) <? popcount v).

Lemma popcount_new c v : is_u8 c → is_u8 v → byte_flag c v ≠ 0 →
  popcount (clear_bits c v) < popcount v.
Proof.
  intros Hc Hv Hf. assert (clears_a_bit c v = true) as Hb.
  { revert v Hv Hf. assert (forallb (clears_a_bit c) (seqZ 0 256) = true) as H.
    { revert c Hc. apply u8_enum. vm_compute. reflexivity. }
    intros v Hv _. by apply u8_enum. }
  unfold clears_a_bit in Hb. destruct (Z.eqb_spec (byte_flag c v) 0); [done|].
  by apply Z.ltb_lt.
Qed.

Lemma bits_left_land c v : bits_left (zip_with Z.land c v) <= bits_left v.
Proof.
  unfold bits_left. revert v. induction c as [|x c IH]; intros [|y v]; cbn [zip_with foldr]; try lia.
  - by apply (bits_left_range (y :: v)).
  - pose proof (popcount_land x y). specialize (IH v). lia.
Qed.

Lemma bits_left_clear cur vir : bits_left (zip_with clear_bits cur vir) <= bits_left vir.
Proof.
  unfold bits_left. revert vir. induction cur as [|x cur IH]; intros [|y vir];
    cbn [zip_with foldr]; try lia; [by apply (bits_left_range (y :: vir))|].
  unfold clear_bits at 1.
  pose proof (popcount_land (u8 (Z.lnot x)) y) as Hp. rewrite Z.land_comm in Hp.
  specialize (IH vir). lia.
Qed.

Lemma bits_left_new cur vir : Forall is_u8 cur → Forall is_u8 vir →
  max_list (zip_with byte_flag cur vir) ≠ 0 →
  bits_left (zip_with clear_bits cur vir) < bits_left vir.
Proof.
  intros Hc. revert vir. induction Hc as [|x cur Hx Hc IH]; intros [|y vir] Hv;
    cbn [zip_with]; try done.
  apply Forall_cons_iff in Hv as [Hy Hv]. unfold max_list, bits_left in *. cbn [foldr]. intros Hm.
  destruct (decide (byte_flag x y = 0)) as [E|E].
  - specialize (IH vir Hv). pose proof (popcount_land (u8 (Z.lnot x)) y) as Hp.
    rewrite Z.land_comm in Hp. fold (clear_bits x y) in Hp. cbn [foldr] in *.
    rewrite E in Hm. pose proof (max_list_nonneg (zip_with byte_flag cur vir)) as Hnn.
    unfold max_list in Hnn. lia.
  - pose proof (popcount_new x y Hx Hy E). pose proof (bits_left_clear cur vir) as H1.
    unfold bits_left in H1. cbn [foldr]. lia.
Qed.

(** ** Seeds *)

(** The bits that a further seed can be paid with. *)
Definition potential (g : globals) : Z :=
  bits_left g.(virginMap) + bits_left g.(virginMapForBranchTraceBit).

Section found.
Context `{!Env} {cfg : config} {map_size list_size : Z} `{!EnvOK map_size list_size}.
Hypothesis Hcfg : names_ok cfg.
Hypothesis Hsize : 0 <= map_size < 2 ^ 32 ∧ map_size mod 8 = 0.
Implicit Types g : globals.

Lemma shrunk_potential v v' : shrunk (map_size := map_size) v v' → bits_left v' <= bits_left v.
Proof. intros [->|(c&_&->)]; [done|]. apply bits_left_land. Qed.

Lemma flag_pays g : maps_ok map_size list_size g →
  (if decide (flag_of (cfg := cfg) (map_size := map_size) g = 0) then 0 else 1) +
  bits_left (has_new_bits map_size g.(globalTraceBit) g.(virginMap)).2 +
  bits_left (has_new_bits map_size g.(branchTraceBit) g.(virginMapForBranchTraceBit)).2
  <= potential g.
Proof.
  intros [[Ht Htb] [Hb Hbb] _ [Hv Hvb] [Hw Hwb] _ _ _]. unfold potential, flag_of.
  rewrite !has_new_bits_bytes by (try done; apply Hsize). cbn [fst snd].
  pose proof (bits_left_clear g.(globalTraceBit) g.(virginMap)).
  pose proof (bits_left_clear g.(branchTraceBit) g.(virginMapForBranchTraceBit)).
  destruct (decide (max_list (zip_with byte_flag g.(globalTraceBit) g.(virginMap)) = 0)) as [E|E];
    [|pose proof (bits_left_new _ _ Htb Hvb E)].
  all: destruct (decide (max_list (zip_with byte_flag g.(branchTraceBit) g.(virginMapForBranchTraceBit)) = 0)) as [E'|E'];
    [|pose proof (bits_left_new _ _ Hbb Hwb E')].
  all: destruct (isBranchCoverage cfg); repeat case_decide; lia.
Qed.

Abbreviation inv := (g_inv cfg map_size list_size).

(** The run of the target keeps the queue and the coverage maps. *)
Lemma after_run_same c g :
  qs (after_run map_size c g) = qs g ∧ virginMap (after_run map_size c g) = virginMap g ∧
  virginMapForBranchTraceBit (after_run map_size c g) = virginMapForBranchTraceBit g ∧
  queueCycle (after_run map_size c g) = queueCycle g.
Proof. unfold after_run. by destruct (c_status c). Qed.

Lemma prepared_same mem el g g1 : prepared (cfg := cfg) (map_size := map_size) mem el g g1 →
  qs g1 = qs g ∧ queueCycle g1 = queueCycle g ∧ potential g1 <= potential g.
Proof.
  intros (g0&(t&v&vb&p&->&Hv&Hvb)&->). unfold potential.
  pose proof (shrunk_potential _ _ Hv). pose proof (shrunk_potential _ _ Hvb).
  destruct el; (split; [done|]; split; [done|]);
    change (bits_left v + bits_left vb <=
      bits_left g.(virginMap) + bits_left g.(virginMapForBranchTraceBit)); lia.
Qed.

(** The seeds of [FuzzUnit]: the old ones, and at most one more. *)
Definition grown (n : Z) g g' : Prop :=
  ∃ new, g'.(qs) = set_queue (g.(qs).(queue) ++ new) g.(qs) ∧ zlen new <= n.

Lemma judged_grown mem st g k g' :
  inv g → judged (cfg := cfg) (map_size := map_size) (list_size := list_size) mem st g k g' →
  grown 1 g g' ∧ zlen g'.(qs).(queue) + potential g' <= zlen g.(qs).(queue) + potential g.
Proof.
  intros Hg [Hi Hv Hvb Hs _ _ _ _]. pose proof (flag_pays g (gi_maps _ _ _ _ Hg)) as Hp.
  unfold potential at 1. rewrite Hv, Hvb. case_decide.
  - split; [|rewrite Hs; lia]. exists []. split; [|unfold zlen; cbn; lia].
    rewrite Hs, app_nil_r. by destruct (qs g).
  - destruct Hs as (n&el&_&Hq&_). rewrite Hq. 
    split; [|cbn [queue set_queue]; rewrite zlen_app; change (zlen [_]) with 1; lia].
    eexists. split; [exact Hq|done].
Qed.

Lemma FuzzUnit_grows filemap el g : inv g → Forall is_u8 filemap →
  (∀ l, el = Some l → bytes list_size l) →
  wp (FuzzUnit cfg map_size list_size filemap el)
    (λ r g', r = 0 ∧ inv g' ∧ grown 1 g g' ∧ queueCycle g' = queueCycle g ∧
       zlen g'.(qs).(queue) + potential g' <= zlen g.(qs).(queue) + potential g)
    (λ _ _, False) (λ _ _, True) g.
Proof.
  intros Hg Hb He. eapply wp_conseq; [by apply FuzzUnit_ok|].
  intros r g' (->&_&g1&c&k&Hp&Hi1&Hrun&Hj). split; [done|]. split; [apply Hj|].
  destruct (after_run_inv Hsize c _ g1 Hi1 Hrun) as [Hi2 _].
  destruct (prepared_same _ _ _ _ Hp) as (Hq1&Hc1&Hp1).
  destruct (after_run_same c g1) as (Hq2&Hv2&Hvb2&Hc2).
  destruct (judged_grown _ _ _ _ _ Hi2 Hj) as [Hgr Hle].
  unfold grown, potential in *. rewrite Hq2, Hq1 in *. rewrite Hv2, Hvb2 in Hle.
  split; [done|]. split; [|lia]. destruct (jd_fixed _ _ _ _ _ Hj). congruence.
Qed.

(** Any number of inputs. *)
Definition fuzz_all (inputs : list (list Z)) : proc globals unit :=
  for_each inputs (λ x, _ ← FuzzUnit cfg map_size list_size x None; mret tt).

Lemma fuzz_all_grows inputs g : inv g → Forall (Forall is_u8) inputs →
  wp (fuzz_all inputs) (λ _ g', inv g' ∧
      grown (zlen g'.(qs).(queue) - zlen g.(qs).(queue)) g g' ∧
      zlen g'.(qs).(queue) + potential g' <= zlen g.(qs).(queue) + potential g)
    (λ _ _, False) (λ _ _, True) g.
Proof.
  intros Hg Hin. unfold fuzz_all. revert g Hg.
  induction Hin as [|x inputs Hx Hin IH]; intros g Hg; cbn [for_each].
  - apply wp_mret. split; [done|]. split; [|done]. exists []. rewrite app_nil_r, Z.sub_diag.
    split; [by destruct (qs g)|done].
  - apply wp_bind, wp_bind. eapply wp_conseq; [by apply FuzzUnit_grows|].
    intros r g1 (_&Hg1&(new&Hq1&Hn1)&_&Hle). apply wp_mret.
    eapply wp_conseq; [by apply IH|]. intros [] g2 (Hg2&(new2&Hq2&_)&Hle2).
    split; [done|]. split; [|lia]. exists (new ++ new2). rewrite Hq2, Hq1. cbn [queue set_queue].
    split; [by rewrite app_assoc|]. rewrite !zlen_app. lia.
Qed.

(** C3. [FuzzUnit], whole: from a state that satisfies the invariant it is never
    undefined; unless the process exits it returns 0, and the target was run once
    on the (truncated) input, after the shared coverage was merged, the error list
    was set and the test file was written.  What it left was judged as [judged]
    says: the two virgin maps lose the bits of the trace; one seed is appended,
    with the checksum of the trace and a file that holds the input, exactly if the
    flag of [has_new_bits] asks for it; crashes are counted; every file but the
    test file is kept; and the invariant holds again. *)
Theorem FuzzUnit_judges filemap error_list g :
  inv g → Forall is_u8 filemap → (∀ l, error_list = Some l → bytes list_size l) →
  wp (FuzzUnit cfg map_size list_size filemap error_list)
    (λ r g', r = 0 ∧ zlen (input_of filemap) < 2 ^ 28 ∧ inv g' ∧ ∃ g1 c k,
       prepared (cfg := cfg) (map_size := map_size) (input_of filemap) error_list g g1 ∧
       run_target g1.(runs) g1.(files) g1.(errorList) (clear_counters g1.(shared)) g1.(exec_tmout) = Some c ∧
       judged (cfg := cfg) (map_size := map_size) (list_size := list_size)
         (input_of filemap) (fault_of c) (after_run map_size c g1) k g')
    (λ _ _, False) (λ _ _, True) g.
Proof.
  intros Hg Hb He. eapply wp_conseq; [by apply FuzzUnit_ok|].
  intros r g' (->&Hl&g1&c&k&Hp&_&Hrun&Hj). split; [done|]. split; [done|]. split; [apply Hj|].
  by exists g1, c, k.
Qed.

(** C16. The queue cannot grow for ever: each seed that is added clears a bit of
    one of the two virgin maps, so that any number of inputs adds at most as many
    seeds as there are bits left, 16 for each slot of the map; the seeds that were
    there stay in front, unchanged. *)
Theorem queue_bounded inputs g : inv g → Forall (Forall is_u8) inputs →
  wp (fuzz_all inputs) (λ _ g', inv g' ∧ ∃ new,
      g'.(qs).(queue) = g.(qs).(queue) ++ new ∧ zlen new <= potential g <= 16 * map_size)
    (λ _ _, False) (λ _ _, True) g.
Proof.
  intros Hg Hin. eapply wp_conseq; [by apply fuzz_all_grows|].
  intros [] g' (Hg'&(new&Hq&_)&Hle). split; [done|]. exists new. rewrite Hq in *.
  cbn [queue set_queue] in *. rewrite zlen_app in Hle. split; [done|].
  destruct (gi_maps _ _ _ _ Hg) as [_ _ _ [Hv _] [Hvb _] _ _ _]. unfold potential in *.
  pose proof (bits_left_range g.(virginMap)). pose proof (bits_left_range g.(virginMapForBranchTraceBit)).
  pose proof (bits_left_range g'.(virginMap)). pose proof (bits_left_range g'.(virginMapForBranchTraceBit)).
  lia.
Qed.

(** ** Crashes *)

Definition set_bits (l : list bool) : Z := zlen (filter (λ b, b = true) l).

Lemma new_bits_spec tr known : new_bits tr known = true ↔
  ∃ i, tr !! i = Some true ∧ known !! i = Some false.
Proof.
  unfold new_bits. rewrite existsb_exists. split.
  - intros (x&Hin&Hx). apply list_elem_of_In, list_elem_of_lookup_1 in Hin as [i Hi].
    apply lookup_zip_with_Some in Hi as (a&b&->&Ha&Hb). exists i.
    destruct a, b; try discriminate Hx. done.
  - intros (i&Ha&Hb). exists true. split; [|done]. apply list_elem_of_In, list_elem_of_lookup.
    exists i. apply lookup_zip_with_Some. by exists true, false.
Qed.

Lemma lookup_bits_or_true a b i : length a = length b →
  bits_or a b !! i = Some true ↔ a !! i = Some true ∨ b !! i = Some true.
Proof.
  intros Hl. unfold bits_or. rewrite lookup_zip_with_Some. split.
  - intros (x&y&E&Ha&Hb). destruct x, y; try done; rewrite Ha, Hb; auto.
  - intros [Hi|Hi].
    + destruct (lookup_lt_is_Some_2 b i) as [y Hy]; [rewrite <-Hl; by eapply lookup_lt_Some|].
      exists true, y. by destruct y.
    + destruct (lookup_lt_is_Some_2 a i) as [x Hx]; [rewrite Hl; by eapply lookup_lt_Some|].
      exists x, true. by destruct x.
Qed.

Lemma set_bits_or tr known : length known = length tr → new_bits tr known = true →
  set_bits known < set_bits (bits_or known tr).
Proof.
  unfold set_bits, new_bits, bits_or, zlen. revert tr.
  assert (∀ tr known : list bool, length known = length tr →
    (length (filter (λ b, b = true) known) <=
     length (filter (λ b, b = true) (zip_with orb known tr)))%nat) as Hle.
  { intros tr' k'. revert tr'. induction k' as [|k ks IH]; intros [|t tr'] Hl; try done.
    cbn [zip_with]. rewrite !filter_cons. injection Hl as Hl. specialize (IH _ Hl).
    destruct k, t; cbn [orb]; repeat case_decide; cbn [length]; try done; lia. }
  induction known as [|k known IH]; intros [|t tr] Hl Hn; try done.
  cbn [zip_with existsb] in *. rewrite !filter_cons. injection Hl as Hl.
  specialize (Hle tr known Hl). specialize (IH tr Hl).
  destruct k, t; cbn [orb andb negb id] in *; repeat case_decide; cbn [length]; try done; lia || (specialize (IH Hn); lia).
Qed.

End found.

(** ** What procedures leave alone *)

Lemma stable_queue Rel `{!PreOrder Rel} {A} (m : proc qstate A) :
  (∀ g q, Rel g (set_qs q g)) → stable Rel (queue_op m).
Proof. intros Hq. by apply stable_zoom. Qed.

(** [side] proves that a write keeps the relation. *)
Ltac stable_steps side := repeat first
  [stable_step side|apply stable_queue; [exact _|side]|progress unfold count_up].

(** ** A fuzzer without a group *)

Definition same_sync (g g' : globals) : Prop :=
  g'.(fuzz_time) = g.(fuzz_time) ∧ g'.(sync_cov_ptr) = g.(sync_cov_ptr) ∧
  g'.(synced_ids) = g.(synced_ids).
#[export] Instance same_sync_preorder : PreOrder same_sync.
Proof. split; [done|]. intros g1 g2 g3 (?&?&?) (?&?&?). repeat split; congruence. Qed.

Section unsynced.
Context `{!Env} (cfg : config) (map_size list_size : Z).
Abbreviation unsynced := (stable same_sync).
Ltac same := intros; repeat split; reflexivity.

Lemma unsynced_add mem st : unsynced (AddInterestingSeed cfg map_size list_size mem st).
Proof.
  unfold AddInterestingSeed, new_bit_flag, keep_seed, crash_handler, ex_crash_handler,
    hang_handler, ex_hang_handler, confirm_hang, WriteMem2File, GetCurTimeUs, num2str.
  stable_steps same.
Qed.

Lemma unsynced_run t : unsynced (ExecuteCase map_size list_size t).
Proof. unfold ExecuteCase. stable_steps same. Qed.

Lemma unsynced_testcase mem : unsynced (WriteToTestcase cfg mem).
Proof. unfold WriteToTestcase. stable_steps same. Qed.

(** One input of a fuzzer that never set up the shared maps. *)
Lemma FuzzUnit_alone x g r g' :
  cfg.(sync_cov) = 1 → g.(sync_cov_ptr) = None →
  FuzzUnit cfg map_size list_size x None g = (Norm r, g') →
  (g.(fuzz_time) + 1) mod sync_cycle cfg ≠ 0 ∧
  g'.(fuzz_time) = (g.(fuzz_time) + 1) mod sync_cycle cfg ∧ g'.(sync_cov_ptr) = None.
Proof.
  intros Hc Hp. set (rest := λ mem, count_up total_input ;; WriteToTestcase cfg mem ;;
    tmout ← gets exec_tmout; run_status ← ExecuteCase map_size list_size tmout;
    _ ← AddInterestingSeed cfg map_size list_size mem run_status; mret 0).
  assert (∀ mem, unsynced (rest mem)) as Hrest.
  { intros mem. apply stable_bind; [exact _|by apply stable_modify|intros _].
    apply stable_bind; [exact _|apply unsynced_testcase|intros _].
    apply stable_bind; [exact _|apply stable_gets; exact _|intros t].
    apply stable_bind; [exact _|apply unsynced_run|intros st].
    apply stable_bind; [exact _|apply unsynced_add|intros _]. apply stable_ret; exact _. }
  change (FuzzUnit cfg map_size list_size x None g) with
    ((sync_maps cfg ;; rest (take (Z.to_nat (u32 (zlen x))) x)) g).
  generalize (take (Z.to_nat (u32 (zlen x))) x). intros mem.
  unfold sync_maps, mbind, proc_bind, modify, gets. rewrite decide_True by done. cbn [fuzz_time set_fuzz_time].
  case_decide as Ht.
  - cbn [files set_fuzz_time]. case_decide; [done|]. unfold from_option. cbn [sync_cov_ptr set_fuzz_time].
    by rewrite Hp.
  - intros Hr. destruct (Hrest _ _ _ _ Hr) as (->&->&_). done.
Qed.

(** C40. A fuzzer that is started without [-M] or [-S] cannot try ten inputs:
    [sync_cov] is 1 all the same, while [main] set up neither the shared maps nor
    the lock; the tenth call of [FuzzUnit] exits because there is no lock file, or
    is undefined because it merges with the maps at null. *)
Theorem alone_stops inputs g :
  cfg.(sync_cov) = 1 → cfg.(sync_state) ≠ "MASTER" →
  g.(fuzz_time) = 0 → g.(sync_cov_ptr) = None → (10 <= length inputs)%nat →
  ∀ g', fuzz_all (cfg := cfg) (map_size := map_size) (list_size := list_size) inputs g
        ≠ (Norm tt, g').
Proof.
  intros Hc Hst Ht Hp Hl.
  assert (∀ k inputs g, (k + length inputs >= 10)%nat → g.(fuzz_time) = Z.of_nat k → (k < 10)%nat →
    g.(sync_cov_ptr) = None → ∀ g', fuzz_all (cfg := cfg) (map_size := map_size)
      (list_size := list_size) inputs g ≠ (Norm tt, g')) as Hgen;
    [|apply (Hgen 0%nat); [lia|done|lia|done]].
  assert (sync_cycle cfg = 10) as Hcy by (unfold sync_cycle; by rewrite decide_False).
  clear inputs g Ht Hp Hl. intros k inputs. revert k.
  induction inputs as [|x inputs IH]; intros k g Hl Ht Hk Hp g'; [cbn in Hl; lia|].
  unfold fuzz_all. cbn [for_each]. unfold mbind, proc_bind.
  destruct (FuzzUnit cfg map_size list_size x None g) as [[r|v|c| |] g1] eqn:E; try done.
  destruct (FuzzUnit_alone x g r g1 Hc Hp E) as (Hne&Ht1&Hp1). rewrite Hcy, Ht in *.
  cbn [length] in Hl. destruct (decide (k = 9%nat)) as [->|Hk9]; [done|].
  rewrite Z.mod_small in Ht1 by lia. apply (IH (S k)); [lia|lia|lia|done].
Qed.
End unsynced.

(** ** A small fuzzer

    Maps of eight slots; the target hits the slot 0 as often as the first byte of
    its input says, and dies of signal 11 on the byte 66. *)
Definition demo_env : Env := {|
  run_target := λ _ f _ k _,
    let b := u8 (nthZ (default [] (f !! "t")) 0) in
    Some (Child [b; 0; 0; 0; 0; 0; 0; 0] [0; 1; 0; 0; 0; 0; 0; 0] [0; 0; 0; 0; 0; 0; 0; 0] k
      (if b =? 66 then Signaled 11 else Exited 0) false);
  clock := λ n, u64 (Z.of_nat n);
  disk := λ f _ b, bool_decide (Z.of_nat (size f) < 2 ^ 29 ∧ zlen b < 2 ^ 28);
  peers := λ _ m, m;
  rand_at := λ n, Z.of_nat n mod 2 ^ 31;
|}.

Lemma demo_env_ok : @EnvOK demo_env 8 8.
Proof.
  split.
  - intros n f l k t c [= <-]. cbn [c_trace c_branch c_errors].
    split_and!; (split; [done|]); [|by apply (bool_decide_unpack _); vm_compute..].
    constructor; [apply u8_range|]. by apply (bool_decide_unpack _); vm_compute.
  - intros f name b Hd. by apply (bool_decide_eq_true_1 _ Hd).
  - done.
  - intros n. apply u64_range.
  - intros n. apply Z.mod_pos_bound. lia.
Qed.

Definition demo_cfg : config := Config "out/" "t" false 1 "MASTER" false "me".
Definition demo_queue : qstate := fresh_queue 8 [new_seed "in/a" 1 None None].
Definition demo_files : fs := {["in/a" := [65]; file_lock := []]}.
Definition demo_globals : globals :=
  let zeros := replicate 8 0 in
  let virgin := replicate 8 255 in
  let none := replicate 8 false in
  Globals demo_queue zeros zeros zeros virgin virgin zeros none none [] (λ _, 0) false 0
    EXEC_TIMEOUT EXEC_TIMEOUT 1 1 0 0 (Some (virgin, virgin)) demo_files 0 0 0 ∅ (ShmCounters 0 0 0).

Lemma demo_cfg_ok : names_ok demo_cfg.
Proof. split; [intros x; cbn; discriminate|discriminate]. Qed.

Lemma demo_size : 0 <= 8 < 2 ^ 32 ∧ 8 mod 8 = 0.
Proof. split; [lia|done]. Qed.

Lemma demo_inv : g_inv demo_cfg 8 8 demo_globals.
Proof.
  assert (∀ l, bool_decide (zlen l = 8 ∧ Forall is_u8 l) = true → bytes 8 l) as Hb
    by (intros l Hl; by apply bool_decide_eq_true_1 in Hl).
  split.
  - apply fresh_queue_inv; [lia|]. intros [|t] e; cbn; [by intros [= <-]|done].
  - split; try done; by apply Hb; vm_compute.
  - split.
    + apply (bool_decide_unpack _). vm_compute. exact I.
    + constructor; [|constructor]. split; [discriminate|]. exists [65]. by split; [vm_compute|].
  - split; [vm_compute; discriminate|done|done|vm_compute; discriminate].
  - intros _. split; [by eexists; vm_compute|]. eexists _, _. split; [reflexivity|].
    split; by apply Hb; vm_compute.
  - intros i j a b Hij Hi. done.
Qed.

Definition demo_unit (x : list Z) : proc globals Z := @FuzzUnit demo_env demo_cfg 8 8 x None.

Lemma FuzzUnit_judges_witness :
  wp (demo_unit [65; 1])
    (λ r g', r = 0 ∧ zlen (input_of [65; 1]) < 2 ^ 28 ∧ g_inv demo_cfg 8 8 g' ∧ ∃ g1 c k,
       prepared (cfg := demo_cfg) (map_size := 8) (input_of [65; 1]) None demo_globals g1 ∧
       @run_target demo_env g1.(runs) g1.(files) g1.(errorList) (clear_counters g1.(shared)) g1.(exec_tmout) = Some c ∧
       judged (cfg := demo_cfg) (map_size := 8) (list_size := 8)
         (input_of [65; 1]) (fault_of c) (after_run 8 c g1) k g')
    (λ _ _, False) (λ _ _, True) demo_globals ∧
  (λ o, map fileLen (o.2).(qs).(queue)) (demo_unit [65; 1] demo_globals) = [1; 2].
Proof.
  split; [|vm_compute; reflexivity].
  apply (@FuzzUnit_judges demo_env demo_cfg 8 8 demo_env_ok demo_cfg_ok demo_size [65; 1] None
    demo_globals demo_inv); [|done].
  apply (bool_decide_unpack _). vm_compute. exact I.
Defined.

Lemma queue_bounded_witness :
  wp (@fuzz_all demo_env demo_cfg 8 8 [[65]; [65]; [70]])
    (λ _ g', g_inv demo_cfg 8 8 g' ∧ ∃ new,
      g'.(qs).(queue) = demo_globals.(qs).(queue) ++ new ∧
      zlen new <= potential demo_globals <= 16 * 8)
    (λ _ _, False) (λ _ _, True) demo_globals.
Proof.
  apply (@queue_bounded demo_env demo_cfg 8 8 demo_env_ok demo_cfg_ok demo_size
    [[65]; [65]; [70]] demo_globals demo_inv).
  apply (bool_decide_unpack _). vm_compute. exact I.
Defined.

(** The state after a run that crashed in the slot 0. *)
Definition demo_crash : globals := set_globalTraceBit [1; 0; 0; 0; 0; 0; 0; 0] demo_globals.

Lemma demo_crash_inv : g_inv demo_cfg 8 8 demo_crash.
Proof.
  destruct demo_inv as [Hq Hm Hf Hr Hs Hun]. split; try done. destruct Hm. split; try done.
  split; [done|]. apply (bool_decide_unpack _). vm_compute. exact I.
Qed.


(** The same fuzzer, started without a group. *)
Definition alone_cfg : config := Config "out/" "t" false 1 EmptyString false EmptyString.
Definition alone_globals : globals := set_sync_cov_ptr None demo_globals.

Lemma alone_stops_witness :
  (@fuzz_all demo_env alone_cfg 8 8 (replicate 10 [65]) alone_globals).1 = UB ∧
  ∀ g', @fuzz_all demo_env alone_cfg 8 8 (replicate 10 [65]) alone_globals ≠ (Norm tt, g').
Proof.
  split; [vm_compute; reflexivity|].
  apply (@alone_stops demo_env alone_cfg 8 8 (replicate 10 [65]) alone_globals);
    [done|discriminate|done|done|done].
Defined.
