(* ===== verification/Sync.v ===== *)
(** * Exchanging seeds with the other fuzzers of a group

    Models [Synchronize.cpp] ([SychronizeFuzzer], [fix_up_sync]): how the seeds of
    the other fuzzers are imported, and what the files in [.synced/] record about
    them.  The directories of the other fuzzers are the class [Group]. *)

From Stdlib Require Import Ascii.
From S2P Require Import Prelude.
From S2P Require Import Decimal.
From S2P Require Import TraceMap.
From S2P Require Import Queue.
From S2P Require Import Faults.
From S2P Require Import Execution.
From S2P Require Import Keeping.
From S2P Require Import Found.

Definition SYNC_MAX_FILE_LEN : Z := 1 * 1024 * 1024.

(** ** Reading the number of a seed *)

(** [sscanf(s, "%06u", &id)]: white space, a sign, and digits; the sign counts
    among the six characters. *)
Definition sscanf_06u (s : string) : option Z :=
  match skip_spaces s with
  | String "-"%char t => (λ v, u32 (- v)) <$> scan_number 5 t
  | String "+"%char t => scan_number 5 t
  | t => scan_number 6 t
  end.

(** ** The directories of the group

    All of them as they are at the [n]-th run of the target.  [group_dir] lists
    [sync_dir]; [group_queue] is the outer [None] when [queue/] of a fuzzer cannot
    be opened, the inner one when [scandir] fails; [Broken] is a file that is
    opened and for which [fstat] or [mmap] fails.  [synced_open] and
    [synced_write] say whether a file of [.synced/] is opened and written. *)
Inductive opened := NoFile | Broken | File (content : list Z).

Class Group := {
  group_dir : nat → option (list string);
  group_queue : nat → string → option (option (list string));
  group_file : nat → string → string → opened;
  group_errors : nat → string → string → option (list Z);
  synced_open : fs → string → bool;
  synced_write : fs → string → bool;
}.

Definition hidden (name : string) : bool :=
  match name with String "."%char _ => true | _ => false end.

Section sync.
Context `{!Env} `{!Group} (cfg : config) (map_size list_size : Z).

(** Lines 92-119: one input of another fuzzer. *)
Definition import (peer name : string) (mem : list Z) : proc globals unit :=
  n ← gets runs;
  match group_errors n peer name with
  | Some b =>
      if decide (list_size <= zlen b)
      then modify (set_errorList (take (Z.to_nat list_size) b)) else exit_ (-1)
  | None => modify (set_errorList (replicate (Z.to_nat list_size) 0))
  end ;;
  WriteToTestcase cfg mem ;;
  tmout ← gets exec_tmout;
  fault ← ExecuteCase map_size list_size tmout;
  _ ← AddInterestingSeed cfg map_size list_size mem fault;
  mret tt.

(** Lines 67-70. *)
Definition accepted (min_accept : Z) (name : string) : option Z :=
  if hidden name then None else
  match sscanf_06u name with
  | Some syncing_id => if decide (syncing_id < min_accept) then None else Some syncing_id
  | None => None
  end.

(** Lines 58-121, with [next_min_accept] as the result. *)
Fixpoint sync_files (peer : string) (min_accept : Z) (namelist : list string)
    (next_min_accept : Z) : proc globals Z :=
  match namelist with
  | [] => mret next_min_accept
  | name :: rest =>
      match accepted min_accept name with
      | None => sync_files peer min_accept rest next_min_accept
      | Some syncing_id =>
          let next := if decide (next_min_accept <= syncing_id) then u32 (syncing_id + 1)
                      else next_min_accept in
          n ← gets runs;
          match group_file n peer name with
          | NoFile => mret tt
          | Broken => exit_ (-1)
          | File mem =>
              if decide (0 < zlen mem <= SYNC_MAX_FILE_LEN) then import peer name mem else mret tt
          end ;;
          sync_files peer min_accept rest next
      end
  end.

(** Lines 18-131: one entry of the directory of the group. *)
Definition sync_peer (syncid peer : string) : proc globals unit :=
  if hidden peer || bool_decide (peer = syncid) then mret tt else
  n ← gets runs;
  match group_queue n peer with
  | None => mret tt
  | Some listing =>
      s ← gets synced_ids;
      if synced_open s peer then
        let old := default [] (s !! peer) in
        let min_accept := le_load (take 4 old) in
        namelist ← from_option (λ _, listing);
        next ← sync_files peer min_accept namelist min_accept;
        s ← gets synced_ids;
        if synced_write s peer
        then modify (set_synced_ids (<[peer := le_bytes 4 next ++ drop 4 old]> s))
        else exit_ (-1)
      else exit_ (-1)
  end.

Definition SychronizeFuzzer (syncid : string) : proc globals unit :=
  n ← gets runs;
  match group_dir n with
  | None => exit_ (-1)
  | Some entries => for_each entries (sync_peer syncid)
  end.
End sync.

(** [std::string::back]: undefined on the empty string. *)
Definition back (s : string) : option ascii :=
  match s with EmptyString => None | _ => String.get (String.length s - 1) s end.

(** A directory name with its slash. *)
Definition with_slash (s : string) : option string :=
  c ← back s; Some (if decide (c = "/"%char) then s else s +:+ "/").

(** The directory of the group and the one of this fuzzer inside of it; the
    assignment to [skip_deterministic] stores the value it has. *)
Definition fix_up_sync (sync_id outputDir : string) : option (string * string) :=
  outputDir ← with_slash outputDir;
  Some (outputDir, (outputDir +:+ sync_id) +:+ "/").

(** ** Imports happen once *)

(** What is expected of the directories: [scandir] lists a directory that could
    be opened, files hold bytes, and no name reads as the largest [u32], for which
    [syncing_id + 1] wraps around. *)
Class GroupOK `{!Group} := {
  group_listed : ∀ n peer listing, group_queue n peer = Some listing → is_Some listing;
  group_bytes : ∀ n peer name b, group_file n peer name = File b → Forall is_u8 b;
  group_error_bytes : ∀ n peer name b, group_errors n peer name = Some b → Forall is_u8 b;
  group_names : ∀ n peer namelist, group_queue n peer = Some (Some namelist) →
    Forall (λ name, ∀ id, sscanf_06u name = Some id → 0 <= id < 2 ^ 32 - 1) namelist;
}.

(** The files of [.synced/] are left alone, and runs are never undone. *)
Definition more_runs (g g' : globals) : Prop :=
  g'.(synced_ids) = g.(synced_ids) ∧ (g.(runs) <= g'.(runs))%nat.
#[export] Instance more_runs_preorder : PreOrder more_runs.
Proof. split; [done|]. intros g1 g2 g3 [] []. split; [congruence|lia]. Qed.

Lemma wp_stable {A} Rel (m : proc globals A) Q R E g :
  stable Rel m → wp m Q R E g → wp m (λ a g', Q a g' ∧ Rel g g') R E g.
Proof.
  intros Hm. unfold wp. destruct (m g) as [[a|v|c| |] g'] eqn:Er; try done.
  intros HQ. split; [done|]. by eapply Hm.
Qed.

Section importing.
Context `{!Env} `{!Group} `{!GroupOK} {cfg : config} {map_size list_size : Z}.
Context `{!EnvOK map_size list_size}.
Hypothesis Hcfg : names_ok cfg.
Hypothesis Hsize : 0 <= map_size < 2 ^ 32 ∧ map_size mod 8 = 0.
Hypothesis Hlist : 0 <= list_size.
Implicit Types g : globals.
Abbreviation inv := (g_inv cfg map_size list_size).
Abbreviation import' := (import cfg map_size list_size).
Abbreviation sync_files' := (sync_files cfg map_size list_size).
Abbreviation sync_peer' := (sync_peer cfg map_size list_size).
Ltac more := intros; split; [reflexivity|cbn; lia].

Lemma more_runs_run t : stable more_runs (ExecuteCase map_size list_size t).
Proof.
  intros g st g' Hr. pose proof (ExecuteCase_run (map_size := map_size) (list_size := list_size) t g)
    as Hrun. destruct (run_target _ _ _ _ _) as [c|].
  - rewrite Hrun in Hr. injection Hr as _ <-. unfold after_run. destruct (c_status c); more.
  - destruct Hrun as [g1 Hrun]. by rewrite Hrun in Hr.
Qed.

#[local] Opaque ExecuteCase.

Lemma more_runs_add mem st : stable more_runs (AddInterestingSeed cfg map_size list_size mem st).
Proof.
  unfold AddInterestingSeed, new_bit_flag, keep_seed, crash_handler, ex_crash_handler,
    hang_handler, ex_hang_handler, confirm_hang, WriteMem2File, GetCurTimeUs, num2str, WriteToTestcase,
    create.
  stable_steps more; by repeat (apply more_runs_run || stable_steps more).
Qed.

(** The queue only grows. *)
Definition more_seeds g g' : Prop :=
  (∃ new, g'.(qs).(queue) = g.(qs).(queue) ++ new) ∧ g'.(queueCycle) = g.(queueCycle).

Lemma judged_more_seeds mem st g r g' :
  judged (cfg := cfg) (map_size := map_size) (list_size := list_size) mem st g r g' →
  more_seeds g g'.
Proof.
  intros Hj. split; [|apply Hj]. pose proof (jd_seeds _ _ _ _ _ Hj) as Hs. case_decide.
  - exists []. by rewrite Hs, app_nil_r.
  - destruct Hs as (n&elist&_&Hq&_). eexists. rewrite Hq. done.
Qed.

Lemma import_ok peer name mem g : inv g → Forall is_u8 mem →
  wp (import' peer name mem)
    (λ _ g', (inv g' ∧ more_seeds g g') ∧
       g'.(synced_ids) = g.(synced_ids) ∧ (g.(runs) < g'.(runs))%nat)
    (λ _ _, False) (λ _ _, True) g.
Proof.
  intros Hg Hmem. unfold import. apply wp_bind, wp_gets, wp_bind.
  eapply (wp_conseq _ (λ _ g', inv g' ∧ ∃ l, g' = set_errorList l g)).
  { assert (∀ l, bytes list_size l → inv (set_errorList l g)) as Hset.
    { intros l Hl. destruct Hg as [Hq Hm Hf Hr Hs Hun].
      split; [done|by destruct Hm; split|done..]. }
    destruct (group_errors _ _ _) as [b|] eqn:Eb; [apply wp_ifd; intros Hb; [|done]|];
      apply wp_modify; (split; [apply Hset|by eexists]).
    - apply group_error_bytes in Eb. split; [|by apply Forall_take].
      unfold zlen in *. rewrite length_take. lia.
    - split; [unfold zlen; rewrite length_replicate; lia|by apply Forall_replicate]. }
  intros [] g1 [Hg1 [l ->]]. apply wp_bind, wp_WriteToTestcase; [done..|]. intros _ Hg2 _.
  apply wp_bind, wp_gets, wp_bind, (wp_ExecuteCase (cfg := cfg)); [done..|]. intros c _ Hg3 _. apply wp_bind.
  eapply wp_conseq; [apply wp_stable; [apply more_runs_add|apply AddInterestingSeed_ok; [done..|]]|].
  { unfold fault_of. destruct (c_status c); [left|]. case_decide; [right; left|right; right; left]. }
  intros k g4 [[_ Hj] [Hs4 Hr4]]. apply wp_mret. pose proof (judged_more_seeds _ _ _ _ _ Hj) as Hms.
  split; [split; [apply Hj|]|]; [|rewrite Hs4]; unfold after_run in *;
    destruct (c_status c); cbn in *; done || (split; [done|lia]).
Qed.

Lemma more_seeds_trans g1 g2 g3 : more_seeds g1 g2 → more_seeds g2 g3 → more_seeds g1 g3.
Proof.
  intros [[n1 Hq1] C1] [[n2 Hq2] C2]. split; [|congruence]. exists (n1 ++ n2).
  by rewrite Hq2, Hq1, app_assoc.
Qed.
Lemma more_seeds_refl g : more_seeds g g.
Proof. split; [|done]. exists []. by rewrite app_nil_r. Qed.

(** *** Safety, whatever the directories hold *)

Lemma sync_files_safe peer min namelist next g0 g : inv g → more_seeds g0 g →
  wp (sync_files' peer min namelist next) (λ _ g', inv g' ∧ more_seeds g0 g')
    (λ _ _, False) (λ _ _, True) g.
Proof.
  revert next g. induction namelist as [|name rest IH]; intros next g Hg Hm; cbn [sync_files]; [done|].
  destruct (accepted min name) as [id|]; [|by apply IH]. cbv zeta.
  apply wp_bind, wp_gets, wp_bind, (wp_conseq _ (λ _ g1, inv g1 ∧ more_seeds g0 g1)).
  { destruct (group_file _ _ _) as [| |mem] eqn:Ef; [done..|]. apply wp_ifd; intros _; [|done].
    eapply wp_conseq; [apply import_ok; [done|by eapply group_bytes]|]. intros _ g1 [[Hg1 Hm1] _].
    split; [done|]. by eapply more_seeds_trans. }
  intros [] g1 [Hg1 Hm1]. by apply IH.
Qed.

Lemma SychronizeFuzzer_safe syncid g : inv g →
  wp (SychronizeFuzzer cfg map_size list_size syncid) (λ _ g', inv g' ∧ more_seeds g g')
    (λ _ _, False) (λ _ _, True) g.
Proof.
  intros Hg. unfold SychronizeFuzzer. apply wp_bind, wp_gets.
  destruct (group_dir _) as [entries|]; [|done].
  apply wp_for_each; [split; [done|apply more_seeds_refl]|]. intros peer g1 _ [Hg1 Hm1].
  unfold sync_peer. apply wp_if; intros _; [done|]. apply wp_bind, wp_gets.
  destruct (group_queue _ _) as [listing|] eqn:El; [|done].
  destruct (group_listed _ _ _ El) as [namelist ->].
  apply wp_bind, wp_gets. apply wp_if; intros _; [|done]. cbv zeta.
  apply wp_bind. eapply wp_from_option; [done|]. apply wp_bind.
  eapply wp_conseq; [by apply sync_files_safe|]. intros next g2 [Hg2 Hm2].
  apply wp_bind, wp_gets. apply wp_if; intros _; [|done]. apply wp_modify.
  split; [|done]. by destruct Hg2 as [? [] ????]; split.
Qed.

(** The directories do not change while the seeds are exchanged. *)
Hypothesis Hdir : ∀ n, group_dir n = group_dir 0.
Hypothesis Hqueue : ∀ n peer, group_queue n peer = group_queue 0 peer.
Hypothesis Hfile : ∀ n peer name, group_file n peer name = group_file 0 peer name.

(** A file that is to be run. *)
Definition wanted (peer : string) (min : Z) (name : string) : bool :=
  match accepted min name, group_file 0 peer name with
  | Some _, File mem => bool_decide (0 < zlen mem <= SYNC_MAX_FILE_LEN)
  | _, _ => false
  end.
Definition wanted_files (peer : string) (min : Z) (namelist : list string) : nat :=
  sum_list_with (λ name, Nat.b2n (wanted peer min name)) namelist.

Lemma accepted_up min min' name : min <= min' → accepted min name = None → accepted min' name = None.
Proof.
  intros Hle. unfold accepted. destruct (hidden name), (sscanf_06u name); try done.
  do 2 case_decide; done || lia.
Qed.

Lemma accepted_Some min name id : accepted min name = Some id →
  sscanf_06u name = Some id ∧ ∀ min', id < min' → accepted min' name = None.
Proof.
  unfold accepted. destruct (hidden name), (sscanf_06u name) as [z|]; try done.
  case_decide; [done|]. intros [= ->]. split; [done|]. intros min' Hlt. by rewrite decide_True.
Qed.

(** Every wanted file is run, and no file of [namelist] is accepted a second
    time. *)
Lemma sync_files_ok peer min namelist next g : inv g → min <= next → is_u32 next →
  Forall (λ name, ∀ id, sscanf_06u name = Some id → 0 <= id < 2 ^ 32 - 1) namelist →
  wp (sync_files' peer min namelist next)
    (λ r g', inv g' ∧ g'.(synced_ids) = g.(synced_ids) ∧ is_u32 r ∧ next <= r ∧
       Forall (λ name, accepted r name = None) namelist ∧
       (g.(runs) + wanted_files peer min namelist <= g'.(runs))%nat)
    (λ _ _, False) (λ _ _, True) g.
Proof.
  intros Hg Hmn Hn Hnames. revert next g Hg Hmn Hn.
  induction Hnames as [|name rest Hname Hrest IH]; intros next g Hg Hmn Hn; cbn [sync_files].
  { apply wp_mret. split; [done|]. split; [done|]. split; [done|]. split; [lia|].
    split; [done|]. unfold wanted_files. cbn. lia. }
  unfold wanted_files. cbn [sum_list_with]. fold (wanted_files peer min rest).
  destruct (accepted min name) as [id|] eqn:Ea.
  - pose proof (accepted_Some _ _ _ Ea) as [Hid Hnext]. specialize (Hname id Hid). cbv zeta.
    set (next' := if decide _ then _ else _).
    assert (is_u32 next' ∧ id < next' ∧ next <= next') as (Hn'&Hlt&Hle).
    { subst next'. unfold is_u32 in *. case_decide; [rewrite u32_id; unfold is_u32|]; lia. }
    apply wp_bind, wp_gets, wp_bind. rewrite Hfile.
    eapply (wp_conseq _ (λ _ g1, inv g1 ∧ g1.(synced_ids) = g.(synced_ids) ∧
      (g.(runs) + Nat.b2n (wanted peer min name) <= g1.(runs))%nat)).
    { unfold wanted. rewrite Ea. destruct (group_file 0 peer name) as [| |mem] eqn:Ef; [|done|].
      - apply wp_mret. split; [done|]. split; [done|]. cbn. lia.
      - apply wp_ifd; intros Hm; [|apply wp_mret; rewrite bool_decide_false by done; cbn; auto with lia].
        rewrite bool_decide_true by done.
        eapply wp_conseq; [apply import_ok; [done|by eapply group_bytes]|].
        intros _ g1 ([Hg1 _]&Hs1&Hr1). split; [done|]. split; [done|]. cbn. lia. }
    intros [] g1 (Hg1&Hs1&Hr1). eapply wp_conseq; [apply IH; [done|lia|done]|].
    intros r g2 (Hg2&Hs2&Hr&Hle2&Hf&Hr2). rewrite Hs2.
    split; [done|]. split; [done|]. split; [done|]. split; [lia|]. split; [|lia].
    constructor; [|done]. apply Hnext. lia.
  - eapply wp_conseq; [by apply IH|]. intros r g1 (Hg1&Hs1&Hr&Hle&Hf&Hr1).
    split; [done|]. split; [done|]. split; [done|]. split; [done|].
    split; [constructor; [|done]; eapply accepted_up; [|exact Ea]; lia|].
    unfold wanted. rewrite Ea. cbn. lia.
Qed.

Lemma sync_files_idle peer min namelist g :
  Forall (λ name, accepted min name = None) namelist →
  sync_files' peer min namelist min g = (Norm min, g).
Proof. induction 1 as [|name rest Hn _ IH]; [done|]. cbn [sync_files]. by rewrite Hn. Qed.

(** *** One fuzzer of the group *)

Definition skipped (syncid peer : string) : bool := hidden peer || bool_decide (peer = syncid).

(** What [.synced/] says about a fuzzer. *)
Definition seen g (peer : string) : Z := le_load (take 4 (default [] (g.(synced_ids) !! peer))).

Definition ids_ok g : Prop := map_Forall (λ _, Forall is_u8) g.(synced_ids).

(** Nothing is left to be imported from a fuzzer. *)
Definition caught_up g (peer : string) : Prop := ∀ namelist, group_queue 0 peer = Some (Some namelist) →
  (∃ old, g.(synced_ids) !! peer = Some old ∧ (4 <= length old)%nat) ∧
  Forall (λ name, accepted (seen g peer) name = None) namelist.

(** The files that are to be run. *)
Definition due (syncid : string) g (peer : string) : nat :=
  if skipped syncid peer then 0%nat else
  match group_queue 0 peer with
  | Some (Some namelist) => wanted_files peer (seen g peer) namelist
  | _ => 0%nat
  end.

Lemma sync_peer_ok syncid peer g : inv g → ids_ok g →
  wp (sync_peer' syncid peer)
    (λ _ g', inv g' ∧ ids_ok g' ∧
       (∀ q, q ≠ peer → g'.(synced_ids) !! q = g.(synced_ids) !! q) ∧
       (skipped syncid peer = false → caught_up g' peer) ∧
       (g.(runs) + due syncid g peer <= g'.(runs))%nat)
    (λ _ _, False) (λ _ _, True) g.
Proof.
  intros Hg Hids. unfold sync_peer. fold (skipped syncid peer). unfold due.
  apply wp_if; intros Hsk; rewrite Hsk.
  { apply wp_mret. split; [done|]. split; [done|]. split; [done|]. split; [done|lia]. }
  apply wp_bind, wp_gets. rewrite Hqueue. destruct (group_queue 0 peer) as [listing|] eqn:Eq.
  2: { apply wp_mret. split; [done|]. split; [done|]. split; [done|].
       split; [|lia]. intros _ namelist. by rewrite Eq. }
  destruct (group_listed _ _ _ Eq) as [namelist ->].
  apply wp_bind, wp_gets. apply wp_if; intros _; [|done]. cbv zeta.
  apply wp_bind. eapply wp_from_option; [done|]. fold (seen g peer).
  set (old := default [] _).
  assert (Forall is_u8 old) as Hold.
  { subst old. destruct (_ !! _) eqn:E; [by eapply Hids|constructor]. }
  assert (is_u32 (seen g peer)) as Hseen.
  { unfold seen, is_u32. pose proof (le_load_range (take 4 old) (Forall_take _ _ _ Hold)) as Hr.
    fold old. split; [lia|]. eapply Z.lt_le_trans; [apply Hr|]. apply Z.pow_le_mono_r; [lia|].
    unfold zlen. rewrite length_take. lia. }
  apply wp_bind. eapply wp_conseq; [apply sync_files_ok; [done|lia|done|by eapply group_names]|].
  intros r g1 (Hg1&Hs1&Hr&Hle&Hf&Hr1). apply wp_bind, wp_gets. apply wp_if; intros _; [|done].
  apply wp_modify. set (new := le_bytes 4 r ++ drop 4 old).
  assert (take 4 new = le_bytes 4 r) as Hnew.
  { subst new. rewrite take_app_length'; [done|]. pose proof (length_le_bytes 4 r). unfold zlen in *. lia. }
  split; [by destruct Hg1 as [? [] ????]; split|]. rewrite Hs1.
  split; [apply map_Forall_insert_2; [apply Forall_app; split; [by apply le_bytes_u8|by apply Forall_drop]|done]|].
  split; [intros q Hq; cbn; by rewrite lookup_insert_ne|]. split; [|done].
  intros _ namelist'. rewrite Eq. intros [= <-]. unfold seen. cbn [synced_ids set_synced_ids].
  rewrite lookup_insert_eq. cbn. rewrite Hnew, le_load_bytes, Z.mod_small by (done || lia). split.
  - exists new. split; [done|]. subst new. rewrite length_app.
    pose proof (length_le_bytes 4 r). unfold zlen in *. lia.
  - done.
Qed.

Lemma sync_peer_idle syncid peer g : ids_ok g → (skipped syncid peer = false → caught_up g peer) →
  wp (sync_peer' syncid peer) (λ _ g', g' = g) (λ _ _, False) (λ _ _, True) g.
Proof.
  intros Hids Hup. unfold sync_peer. fold (skipped syncid peer).
  apply wp_if; intros Hsk; [done|]. apply wp_bind, wp_gets. rewrite Hqueue.
  destruct (group_queue 0 peer) as [listing|] eqn:Eq; [|done].
  destruct (group_listed _ _ _ Eq) as [namelist ->].
  destruct (Hup Hsk namelist Eq) as [(old&Hold&Hlen) Hnames].
  apply wp_bind, wp_gets. apply wp_if; intros _; [|done]. cbv zeta.
  apply wp_bind. eapply wp_from_option; [done|]. fold (seen g peer). apply wp_bind. unfold wp at 1.
  rewrite sync_files_idle by done. apply wp_bind, wp_gets. apply wp_if; intros _; [|done].
  apply wp_modify. unfold seen. rewrite Hold. change (default [] (Some old)) with old.
  assert (Forall is_u8 (take 4 old)) as Hb by (apply Forall_take; by eapply Hids).
  pose proof (le_bytes_load _ Hb) as Hl.
  replace (zlen (take 4 old)) with 4 in Hl by (unfold zlen; rewrite length_take; lia).
  rewrite Hl, take_drop, insert_id by done. by destruct g.
Qed.

(** *** The whole group *)

Lemma sync_peers_ok syncid entries g : NoDup entries → inv g → ids_ok g →
  wp (for_each entries (sync_peer' syncid))
    (λ _ g', inv g' ∧ ids_ok g' ∧
       (∀ q, q ∉ entries → g'.(synced_ids) !! q = g.(synced_ids) !! q) ∧
       (∀ q, q ∈ entries → skipped syncid q = false → caught_up g' q) ∧
       (g.(runs) + sum_list_with (due syncid g) entries <= g'.(runs))%nat)
    (λ _ _, False) (λ _ _, True) g.
Proof.
  intros Hnd. revert g. induction Hnd as [|p entries Hp Hnd IH]; intros g Hg Hids; cbn [for_each].
  { apply wp_mret. cbn. split; [done|]. split; [done|]. split; [done|]. split; [|lia].
    intros q Hq. by apply elem_of_nil in Hq. }
  apply wp_bind. eapply wp_conseq; [by apply sync_peer_ok|].
  intros [] g1 (Hg1&Hids1&Hsame1&Hup1&Hr1). eapply wp_conseq; [by apply IH|].
  intros [] g2 (Hg2&Hids2&Hsame2&Hup2&Hr2).
  assert (sum_list_with (due syncid g1) entries = sum_list_with (due syncid g) entries) as Hdue.
  { clear -Hp Hsame1. induction entries as [|q l IHl]; [done|]. apply not_elem_of_cons in Hp as [Hpq Hp].
    cbn. rewrite IHl by done. f_equal. unfold due, seen. by rewrite Hsame1. }
  split; [done|]. split; [done|]. split; [|split].
  - intros q Hq. apply not_elem_of_cons in Hq as [Hqp Hq]. by rewrite Hsame2, Hsame1.
  - intros q Hq Hsk. apply elem_of_cons in Hq as [->|Hq]; [|by apply Hup2].
    intros namelist Hn. unfold seen. rewrite Hsame2 by done. by apply Hup1.
  - cbn. lia.
Qed.

End importing.

(** ** A group of two

    The other fuzzer has two seeds, one of which is not a seed file. *)
Definition demo_group : Group := {|
  group_dir := λ _, Some ["."; ".."; "me"; "other"];
  group_queue := λ _ p, if decide (p = "other") then Some (Some ["."; ".."; "000000+cov"; "notes"]) else None;
  group_file := λ _ _ name, if decide (name = "000000+cov") then File [70; 1] else NoFile;
  group_errors := λ _ _ _, None;
  synced_open := λ _ _, true;
  synced_write := λ _ _, true;
|}.

Lemma demo_group_ok : @GroupOK demo_group.
Proof.
  split.
  - intros n p l. cbn. case_decide; [|done]. intros [= <-]. done.
  - intros n p name b. cbn. case_decide; [|done]. intros [= <-].
    apply (bool_decide_unpack _). vm_compute. exact I.
  - done.
  - intros n p l. cbn. case_decide; [|done]. intros [= <-].
    assert (∀ name, match sscanf_06u name with Some id => 0 <= id < 2 ^ 32 - 1 | None => True end →
      ∀ id, sscanf_06u name = Some id → 0 <= id < 2 ^ 32 - 1) as Hs
      by (intros name Hn id E; by rewrite E in Hn).
    repeat (constructor; [by apply Hs; vm_compute|]). constructor.
Qed.

