(* ===== verification/Trim.v ===== *)
(** * Trimming of a seed

    Models [Trim.cpp]: [TrimCase] removes pieces of the file of a seed as long as
    the trace of the target keeps its checksum.  The theorems show that it ends,
    what it leaves of the file, and that the invariant holds again once the
    shorter file is written. *)

From S2P Require Import Prelude.
From S2P Require Import TraceMap.
From S2P Require Import Queue.
From S2P Require Import Faults.
From S2P Require Import Execution.
From S2P Require Import Keeping.
From S2P Require Import Calibration.
From S2P Require Import Found.

Definition TRIM_MIN_BYTES : Z := 4.
Definition TRIM_START_STEP : Z := 16.
Definition TRIM_END_STEP : Z := 1024.

(** [while (len > ret) ret <<= 1], [None] when the loop has not ended after [fuel]
    turns. *)
Fixpoint double_until (fuel : nat) (len ret : Z) : option Z :=
  if decide (len > ret) then
    match fuel with
    | O => None
    | S fuel' => double_until fuel' len (u64 (Z.shiftl ret 1))
    end
  else Some ret.

(** After 64 turns [ret] is 0 and stays 0. *)
Definition min_pow2 {S} (len : Z) : proc S Z := λ s,
  match double_until 64 len 1 with Some ret => (Norm ret, s) | None => (Diverge, s) end.

Section trim.
Context `{!Env} (cfg : config) (map_size list_size : Z).

(** The content of the test file: [mem] without the [skip_len] bytes at
    [skip_at]. *)
Definition gap_content (mem : list Z) (len skip_at skip_len : Z) : option (list Z) :=
  let tail := u32 (len - skip_at - skip_len) in
  a ← (if decide (skip_at ≠ 0) then slice mem 0 skip_at else Some []);
  b ← (if decide (skip_len ≠ 0) then slice mem (skip_at + skip_len) tail else Some []);
  Some (a ++ b).

Definition WriteGapTestcase (mem : list Z) (len skip_at skip_len : Z) : proc globals unit :=
  modify (λ g, set_files (delete cfg.(testfile) g.(files)) g) ;;
  content ← from_option (λ _, gap_content mem len skip_at skip_len);
  create cfg.(testfile) content.

(** The local variables of [TrimCase]. *)
Record trimming := Trimming {
  inBuf : list Z;
  trim_pos : Z;
  min_pow2_of_file_size : Z;
  should_be_write : bool;
  TrimTrace : list Z;
}.

Definition fileLen_of (q : nat) (g : globals) : Z := default 0 (fileLen <$> g.(qs).(queue) !! q).

(** Lines 71-97. *)
Definition trim_step (q : nat) (trim_size : Z) (t : trimming) : proc globals trimming :=
  e ← queue_op (seed_at q);
  let trim_avail_size := Z.min trim_size (u64 (e.(fileLen) - t.(trim_pos))) in
  WriteGapTestcase t.(inBuf) (u32 e.(fileLen)) (u32 t.(trim_pos)) (u32 trim_avail_size) ;;
  tmout ← gets exec_tmout;
  fault ← ExecuteCase map_size list_size tmout;
  if decide (fault = FAULT_ERROR) then return_ fault else
  tr ← gets globalTraceBit;
  if decide (hash32 tr map_size HASH_CONST = e.(cksum)) then
    let move_tail := u32 (e.(fileLen) - t.(trim_pos) - trim_avail_size) in
    let fileLen' := u64 (e.(fileLen) - trim_avail_size) in
    queue_op (upd_seed q (set_fileLen fileLen')) ;;
    pow2 ← min_pow2 fileLen';
    inBuf' ← from_option (λ _, moved ← slice t.(inBuf) (t.(trim_pos) + trim_avail_size) move_tail;
                               blit t.(inBuf) t.(trim_pos) moved);
    mret (Trimming inBuf' t.(trim_pos) pow2 true
            (if t.(should_be_write) then t.(TrimTrace) else tr))
  else
    mret (Trimming t.(inBuf) (u64 (t.(trim_pos) + trim_size)) t.(min_pow2_of_file_size)
            t.(should_be_write) t.(TrimTrace)).

Definition trim_round (fuel : nat) (q : nat) (a : Z * trimming) : proc globals (Z * trimming) :=
  let '(trim_size, t) := a in
  t ← while_fold fuel (λ t g, bool_decide (t.(trim_pos) < fileLen_of q g)) (trim_step q trim_size)
        (Trimming t.(inBuf) trim_size t.(min_pow2_of_file_size) t.(should_be_write) t.(TrimTrace));
  mret (Z.shiftr trim_size 1, t).

(** Lines 102-126. *)
Definition write_trimmed (q : nat) (t : trimming) : proc globals unit :=
  if t.(should_be_write) then
    e ← queue_op (seed_at q);
    modify (λ g, set_files (delete e.(fileName) g.(files)) g) ;;
    content ← from_option (λ _, slice t.(inBuf) 0 e.(fileLen));
    create e.(fileName) content ;;
    modify (set_globalTraceBit t.(TrimTrace)) ;;
    queue_op (UpdateQueueTop map_size q t.(TrimTrace))
  else mret tt.

(** [trim_size] is halved at most 64 times; [fuel] bounds the steps of one round. *)
Definition TrimCase (fuel : nat) (q : nat) (buf : list Z) : proc globals unit :=
  e ← queue_op (seed_at q);
  if decide (e.(fileLen) < 5) then return_ 0 else
  pow2 ← min_pow2 e.(fileLen);
  a ← while_fold 64
        (λ a _, bool_decide
           (a.1 >= Z.max (a.2.(min_pow2_of_file_size) / TRIM_END_STEP) TRIM_MIN_BYTES))
        (trim_round fuel q)
        (Z.max (pow2 / TRIM_START_STEP) TRIM_MIN_BYTES, Trimming buf 0 pow2 false []);
  write_trimmed q a.2 ;;
  return_ 0.
End trim.

(** ** [min_pow2] *)

Lemma shiftl_pow2 k : 0 <= k < 63 → u64 (Z.shiftl (2 ^ k) 1) = 2 ^ (k + 1).
Proof.
  intros Hk. rewrite Z.shiftl_mul_pow2, <-Z.pow_add_r by lia. apply u64_id. unfold is_u64.
  split; [lia|]. apply Z.pow_lt_mono_r; lia.
Qed.

Lemma double_until_pow2 fuel len k : 0 <= k <= 63 → 63 <= k + Z.of_nat fuel → len <= 2 ^ 63 →
  ∃ j, k <= j <= 63 ∧ double_until fuel len (2 ^ k) = Some (2 ^ j) ∧
    len <= 2 ^ j ∧ (k < j → 2 ^ (j - 1) < len).
Proof.
  revert k. induction fuel as [|fuel IH]; intros k Hk Hf Hlen; cbn [double_until].
  - replace k with 63 by lia. exists 63. rewrite decide_False by lia. split_and!; [lia..|done|lia|lia].
  - case_decide as Hd; [|exists k; split_and!; [lia|lia|done|lia|lia]].
    destruct (decide (k = 63)) as [->|Hne]; [lia|]. rewrite shiftl_pow2 by lia.
    destruct (IH (k + 1)) as (j&Hj&He&Hle&Hlt); [lia|lia|done|].
    exists j. split; [lia|]. split; [done|]. split; [done|]. intros _.
    destruct (decide (j = k + 1)) as [->|]; [replace (k + 1 - 1) with k by lia; lia|apply Hlt; lia].
Qed.

(** For larger lengths the loop never ends. *)
Lemma double_until_forever fuel len : 2 ^ 63 < len → double_until fuel len 0 = None.
Proof.
  intros Hlen. induction fuel as [|fuel IH]; cbn [double_until]; rewrite decide_True by lia; [done|].
  exact IH.
Qed.

(** [min_pow2] returns the least power of two that is not below its argument,
    up to 2^63; for every larger [u64] its loop runs for ever, however long one
    waits. *)
Theorem min_pow2_least len : is_u64 len →
  if decide (len <= 2 ^ 63) then
    ∃ j, 0 <= j <= 63 ∧ ∀ S (s : S), min_pow2 len s = (Norm (2 ^ j), s) ∧
      len <= 2 ^ j ∧ ∀ i, 0 <= i → len <= 2 ^ i → j <= i
  else ∀ fuel, double_until fuel len 1 = None.
Proof.
  intros Hlen. case_decide as Hd.
  - destruct (double_until_pow2 64 len 0) as (j&Hj&He&Hle&Hlt); [lia|lia|done|].
    exists j. split; [lia|]. intros S s. unfold min_pow2. change 1 with (2 ^ 0). rewrite He.
    split; [done|]. split; [done|]. intros i Hi Hli.
    destruct (decide (i < j)) as [Hij|]; [|lia]. assert (2 ^ i <= 2 ^ (j - 1)); [|lia].
    apply Z.pow_le_mono_r; lia.
  - assert (∀ n k, 0 <= k <= 63 → n = Z.to_nat (63 - k) → ∀ fuel, double_until fuel len (2 ^ k) = None) as Hgen;
      [|intros fuel; by apply (Hgen 63%nat 0)].
    intros n. induction n as [|n IH]; intros k Hk Hn [|fuel]; cbn [double_until];
      (rewrite decide_True; [|assert (2 ^ k <= 2 ^ 63) by (apply Z.pow_le_mono_r; lia); lia]); try done.
    + replace k with 63 by lia. change (u64 (Z.shiftl (2 ^ 63) 1)) with 0.
      apply double_until_forever. lia.
    + rewrite shiftl_pow2 by lia. apply IH; lia.
Qed.

(** ** What is left of the file *)

Lemma wp_min_pow2 {S} len (Q : Z → S → Prop) R E s : 1 <= len <= 2 ^ 28 →
  (∀ p, len <= p <= 2 ^ 28 → Q p s) → wp (min_pow2 len) Q R E s.
Proof.
  intros Hlen HQ. destruct (double_until_pow2 64 len 0) as (j&Hj&He&Hle&Hlt); [lia|lia|lia|].
  unfold wp, min_pow2. change 1 with (2 ^ 0) at 1. rewrite He. apply HQ. split; [done|].
  destruct (decide (j <= 28)); [apply Z.pow_le_mono_r; lia|].
  assert (2 ^ 28 <= 2 ^ (j - 1)) by (apply Z.pow_le_mono_r; lia). lia.
Qed.

(** The file without a piece. *)
Definition cut (b : list Z) (pos n : Z) : list Z :=
  take (Z.to_nat pos) b ++ drop (Z.to_nat (pos + n)) b.

Lemma cut_sublist b pos n : 0 <= pos → 0 <= n → cut b pos n `sublist_of` b.
Proof.
  intros Hp Hn. unfold cut. rewrite <-(take_drop (Z.to_nat pos) b) at 3. apply sublist_app; [done|].
  replace (Z.to_nat (pos + n)) with (Z.to_nat pos + Z.to_nat n)%nat by lia.
  rewrite <-drop_drop. apply sublist_drop.
Qed.

Lemma zlen_cut b pos n : 0 <= pos → 0 <= n → pos + n <= zlen b → zlen (cut b pos n) = zlen b - n.
Proof. unfold cut, zlen. intros. rewrite length_app, length_take, length_drop. lia. Qed.

Lemma gap_content_cut b rest pos n : 0 < pos → 0 < n → pos + n <= zlen b → zlen b < 2 ^ 28 →
  gap_content (b ++ rest) (u32 (zlen b)) (u32 pos) (u32 n) = Some (cut b pos n).
Proof.
  intros Hp Hn Hl Hb. rewrite !u32_id by (unfold is_u32; lia). unfold gap_content.
  rewrite !decide_True by lia. rewrite u32_id by (unfold is_u32; lia).
  pose proof (zlen_app b rest) as Hla. pose proof (zlen_nonneg rest).
  rewrite !slice_is_Some by lia. cbn [mbind option_bind]. unfold cut. do 2 f_equal.
  - rewrite drop_0, take_app_le; [done|]. unfold zlen in *. lia.
  - rewrite drop_app_le by (unfold zlen in *; lia). rewrite take_app_le, take_ge; [done|..];
      unfold zlen in *; rewrite length_drop; lia.
Qed.

(** [memmove] of the tail. *)
Lemma move_cut b rest pos n : 0 <= pos → 0 < n → pos + n <= zlen b →
  ∃ rest', (moved ← slice (b ++ rest) (pos + n) (zlen b - pos - n);
            blit (b ++ rest) pos moved) = Some (cut b pos n ++ rest') ∧
    zlen (cut b pos n ++ rest') = zlen (b ++ rest) ∧
    (Forall is_u8 (b ++ rest) → Forall is_u8 rest').
Proof.
  intros Hp Hn Hl. pose proof (zlen_app b rest) as Hla. pose proof (zlen_nonneg rest).
  rewrite slice_is_Some by lia. cbn [mbind option_bind].
  set (moved := take _ _).
  assert (moved = drop (Z.to_nat (pos + n)) b) as Hm.
  { subst moved. rewrite drop_app_le by (unfold zlen in *; lia).
    rewrite take_app_le, take_ge; [done|..]; unfold zlen in *; rewrite length_drop; lia. }
  assert (zlen moved = zlen b - pos - n) as Hzm
    by (rewrite Hm; unfold zlen in *; rewrite length_drop; lia).
  rewrite blit_is_Some by lia. rewrite take_app_le by (unfold zlen in *; lia).
  exists (drop (Z.to_nat pos + length moved) (b ++ rest)). unfold cut. rewrite <-Hm, <-app_assoc.
  split; [done|]. split; [|by apply Forall_drop].
  unfold zlen in *. rewrite !length_app, length_take, length_drop, length_app. lia.
Qed.

(** ** [TrimCase] *)

Section trimming.
Context `{!Env} {cfg : config} {map_size list_size : Z} `{!EnvOK map_size list_size}.
Hypothesis Hcfg : names_ok cfg.
Hypothesis Hsize : 0 <= map_size < 2 ^ 32 ∧ map_size mod 8 = 0.
Implicit Types g : globals.
Abbreviation inv := (g_inv cfg map_size list_size).
Abbreviation trim_step' := (trim_step cfg map_size list_size).

(** The seed [q] and its file, before anything is trimmed. *)
Context (g0 : globals) (q : nat) (e0 : seed) (b0 : list Z).
Hypothesis Hg0 : inv g0.
Hypothesis He0 : g0.(qs).(queue) !! q = Some e0.
Hypothesis Hb0 : g0.(files) !! e0.(fileName) = Some b0.

(** A run of the target on [b] gave the checksum of the seed. *)
Definition reproduces (b : list Z) : Prop := ∃ n f k c,
  run_target n f g0.(errorList) k g0.(exec_tmout) = Some c ∧ f !! cfg.(testfile) = Some b ∧
  hash32 (classify_counts map_size c.(c_trace)) map_size HASH_CONST = e0.(cksum).

(** What [b] has of the file. *)
Definition trimmed (b : list Z) : Prop :=
  b `sublist_of` b0 ∧ take 4 b = take 4 b0 ∧ (b = b0 ∨ reproduces b).

(** While the file is trimmed the queue says [zlen b] and the disk still has
    [b0]: the invariant holds of the state with the old queue. *)
Record trim_inv (b : list Z) (t : trimming) g : Prop := TrimInv {
  ti_qs : g.(qs) = set_queue (<[q := set_fileLen (zlen b) e0]> g0.(qs).(queue)) g0.(qs);
  ti_inv : inv (set_qs g0.(qs) g);
  ti_same : g.(errorList) = g0.(errorList) ∧ g.(exec_tmout) = g0.(exec_tmout);
  ti_files : ∀ k x, k ≠ cfg.(testfile) → g0.(files) !! k = Some x → g.(files) !! k = Some x;
  ti_buf : ∃ rest, t.(inBuf) = b ++ rest;
  ti_u8 : Forall is_u8 t.(inBuf);
  ti_len : 4 <= zlen b <= zlen b0;
  ti_trimmed : trimmed b;
  ti_write : if t.(should_be_write) then bytes map_size t.(TrimTrace) else b = b0;
}.

Lemma e0_stored : zlen b0 = e0.(fileLen) ∧ zlen b0 < 2 ^ 28 ∧ Forall is_u8 b0 ∧
  e0.(fileName) ≠ cfg.(testfile).
Proof.
  destruct (stored_slice g0 q e0 Hg0 He0) as (b&Hf&_&Hl&Hlt&Hb). assert (b = b0) as -> by congruence.
  do 3 (split; [done|]). apply list_elem_of_lookup_2 in He0.
  destruct (gi_files _ _ _ _ Hg0) as [_ Hst].
  by apply (proj1 (list.Forall_forall _ _) Hst) in He0 as [? _].
Qed.

Lemma trim_lookup b t g : trim_inv b t g → g.(qs).(queue) !! q = Some (set_fileLen (zlen b) e0).
Proof.
  intros Ht. rewrite (ti_qs _ _ _ Ht). cbn. apply list_lookup_insert_eq. by eapply lookup_lt_Some.
Qed.

Lemma trim_fileLen b t g : trim_inv b t g → fileLen_of q g = zlen b.
Proof. intros Ht. unfold fileLen_of. by rewrite (trim_lookup b t g Ht). Qed.

(** The bytes before the gap stay. *)
Lemma trimmed_cut b pos n : trimmed b → 4 <= pos → 0 < n → pos + n <= zlen b →
  reproduces (cut b pos n) → trimmed (cut b pos n).
Proof.
  intros (Hs&Hh&_) Hp Hn Hl Hr. split; [|split; [|by right]].
  - etrans; [apply cut_sublist; lia|done].
  - rewrite <-Hh. unfold cut, zlen in *. rewrite take_app_le by (rewrite length_take; lia).
    rewrite take_take. f_equal. lia.
Qed.

(** The test file with the gap, and the run on it. *)
Lemma trim_run b t g pos n : trim_inv b t g → 0 < pos → 0 < n → pos + n <= zlen b →
  wp (WriteGapTestcase cfg t.(inBuf) (u32 (zlen b)) (u32 pos) (u32 n) ;;
      tmout ← gets exec_tmout; ExecuteCase map_size list_size tmout)
    (λ fault g', fault ≠ FAULT_ERROR ∧ trim_inv b t g' ∧ bytes map_size g'.(globalTraceBit) ∧
       (hash32 g'.(globalTraceBit) map_size HASH_CONST = e0.(cksum) → reproduces (cut b pos n)))
    (λ _ _, False) (λ _ _, True) g.
Proof.
  intros [Hq Hi [Hse Hst] Hf [rest Hbuf] Hu Hl Ht Hw] Hp Hn Hpn. pose proof e0_stored as (_&H28&_&_).
  unfold WriteGapTestcase. apply wp_bind, wp_bind, wp_modify, wp_bind.
  eapply wp_from_option; [rewrite Hbuf; apply gap_content_cut; lia|].
  set (c := cut b pos n). assert (Forall is_u8 c) as Hc.
  { rewrite Hbuf in Hu. apply Forall_app in Hu as [Hub _].
    apply Forall_app; split; [by apply Forall_take|by apply Forall_drop]. }
  apply wp_create. intros Hno Hsz Hlen. cbn [files set_files] in *.
  change (set_files _ (set_files _ g)) with (with_testcase (cfg := cfg) c g).
  destruct (with_testcase_inv Hcfg c (set_qs g0.(qs) g) Hi Hc Hsz) as [Hi1 Hh1].
  set (g1 := with_testcase c g). apply wp_bind, wp_gets.
  pose proof (ExecuteCase_run (map_size := map_size) (list_size := list_size) g1.(exec_tmout) g1) as Hrun.
  destruct (run_target _ _ _ _ _) as [r|] eqn:Er; unfold wp; [|by destruct Hrun as [g' ->]].
  rewrite Hrun. destruct (after_run_inv Hsize r g1.(exec_tmout) (with_testcase c (set_qs g0.(qs) g)) Hi1 Er)
    as [Hi2 Hh2].
  assert (globalTraceBit (after_run map_size r g1) = classify_counts map_size r.(c_trace)) as Htr
    by (unfold after_run; by destruct (c_status r)).
  split; [unfold fault_of; destruct (c_status r); [done|by case_decide]|]. split; [|split].
  - unfold after_run in *. destruct (c_status r); (split; [done|exact Hi2|done| |by exists rest|done..]);
      intros k x Hk Hx; cbn; rewrite lookup_insert_ne, lookup_delete_ne by done; by apply Hf.
  - rewrite Htr. pose proof (mo_trace _ _ _ (gi_maps _ _ _ _ Hi2)) as Hb.
    unfold after_run in Hb. by destruct (c_status r).
  - rewrite Htr. intros Hh. eexists _, _, _, r. cbn [errorList exec_tmout with_testcase set_files g1] in Er.
    rewrite Hse, Hst in Er. split; [exact Er|]. split; [apply lookup_insert_eq|done].
Qed.

(** One step either shortens the file or moves on. *)
Lemma trim_step_ok b t g size : trim_inv b t g → 4 <= size <= 2 ^ 28 →
  size <= t.(trim_pos) < zlen b →
  wp (trim_step' q size t)
    (λ t' g', (∃ b', trim_inv b' t' g') ∧ size <= t'.(trim_pos) ∧
       fileLen_of q g' - t'.(trim_pos) < zlen b - t.(trim_pos))
    (λ _ _, False) (λ _ _, True) g.
Proof.
  intros Ht Hs Hpos. pose proof e0_stored as (_&H28&_&_). pose proof (ti_len _ _ _ Ht) as Hlen.
  unfold trim_step. apply wp_bind, wp_zoom. eapply wp_seed_at; [by eapply trim_lookup|].
  rewrite set_qs_id. cbn [fileLen set_fileLen cksum]. set (pos := t.(trim_pos)) in *.
  rewrite (u64_id (zlen b - pos)) by (unfold is_u64; lia). set (n := Z.min size (zlen b - pos)).
  cbv zeta. assert (0 < n ∧ pos + n <= zlen b) as [Hn Hpn] by lia.
  pose proof (trim_run b t g pos n Ht ltac:(lia) Hn Hpn) as Hrun.
  apply wp_bind. unfold wp in Hrun. revert Hrun. unfold mbind at 1, proc_bind at 1. unfold wp at 1.
  destruct (WriteGapTestcase _ _ _ _ _ g) as [[[]|v|c| |] g1]; try done. cbn [gets mbind proc_bind].
  unfold mbind at 1, proc_bind at 1, gets at 1. intros Hrun. apply wp_bind, wp_gets, wp_bind.
  unfold wp at 1. destruct (ExecuteCase _ _ _ g1) as [[fault|v|c| |] g2]; try done.
  destruct Hrun as (Hne&Ht2&Htr&Hrep). rewrite decide_False by done. apply wp_bind, wp_gets.
  apply wp_ifd; intros Hck.
  2: { apply wp_mret. cbn [trim_pos]. rewrite u64_id by (unfold is_u64; lia).
       split; [exists b; by destruct Ht2|]. split; [lia|]. rewrite (trim_fileLen b t g2 Ht2). lia. }
  specialize (Hrep Hck). pose proof (trimmed_cut b pos n (ti_trimmed _ _ _ Ht2) ltac:(lia) Hn Hpn Hrep) as Htc.
  rewrite (u64_id (zlen b - n)) by (unfold is_u64; lia).
  rewrite (u32_id (zlen b - pos - n)) by (unfold is_u32; lia).
  apply wp_bind, wp_zoom, (wp_upd_seed _ _ _ _ _ _ _ (trim_lookup b t g2 Ht2)).
  apply wp_bind, wp_min_pow2; [lia|]. intros p Hp.
  destruct (ti_buf _ _ _ Ht2) as [rest Hbuf].
  destruct (move_cut b rest pos n) as (rest'&Hmv&_&Hu'); [lia..|].
  apply wp_bind. eapply wp_from_option; [rewrite Hbuf; exact Hmv|]. apply wp_mret.
  assert (zlen (cut b pos n) = zlen b - n) as Hzc by (apply zlen_cut; lia).
  assert (fileLen_of q (set_qs (set_queue (<[q := set_fileLen (zlen b - n) (set_fileLen (zlen b) e0)]>
    (queue (qs g2))) (qs g2)) g2) = zlen b - n) as Hfl.
  { unfold fileLen_of. cbn. rewrite list_lookup_insert_eq; [done|].
    eapply lookup_lt_Some, trim_lookup, Ht2. }
  split; [|cbn [trim_pos]; split; [lia|rewrite Hfl; lia]].
  exists (cut b pos n). destruct Ht2 as [Hq Hi Hsame Hf _ Hu Hl _ Hw].
  split; try done; cbn [inBuf should_be_write TrimTrace].
  - cbn [qs set_qs]. rewrite Hq, Hzc. cbn. by rewrite list_insert_insert_eq.
  - by exists rest'.
  - rewrite Hbuf in Hu. specialize (Hu' Hu). apply Forall_app in Hu as [Hub _].
    apply Forall_app; split; [|done]. apply Forall_app; split; [by apply Forall_take|by apply Forall_drop].
  - split; lia.
  - destruct (should_be_write t); [exact Hw|exact Htr].
Qed.

Lemma trim_round_ok fuel size t g : (∃ b, trim_inv b t g) → 4 <= size <= 2 ^ 28 →
  (Z.to_nat (zlen b0) <= fuel)%nat →
  wp (trim_round cfg map_size list_size fuel q (size, t))
    (λ a g', a.1 = Z.shiftr size 1 ∧ ∃ b, trim_inv b a.2 g') (λ _ _, False) (λ _ _, True) g.
Proof.
  intros [b Ht] Hs Hfuel. unfold trim_round. apply wp_bind.
  pose proof (ti_len _ _ _ Ht) as Hlen.
  eapply wp_conseq; [apply (wp_while_fold _ _ _
    (λ t' g', (∃ b', trim_inv b' t' g') ∧ size <= t'.(trim_pos))
    (λ t' g', Z.to_nat (fileLen_of q g' - t'.(trim_pos))))|].
  - cbn [trim_pos]. rewrite (trim_fileLen b t g Ht). lia.
  - split; [|cbn; lia]. exists b. by destruct Ht.
  - intros t1 g1 [[b1 Ht1] Hp1] Hc%bool_decide_eq_true_1.
    rewrite (trim_fileLen b1 t1 g1 Ht1) in *.
    eapply wp_conseq; [by apply (trim_step_ok b1)|]. intros t2 g2 (Hex&Hp2&Hm). split; [done|]. lia.
  - intros t1 g1 [[[b1 Ht1] _] _]. apply wp_mret. split; [done|]. by exists b1.
Qed.

(** No other seed has the file. *)
Hypothesis Hother : ∀ t e, g0.(qs).(queue) !! t = Some e → e.(fileName) = e0.(fileName) → t = q.

(** The shorter file in place of the old one. *)
Lemma trimmed_inv b t g : trim_inv b t g → t.(should_be_write) = true →
  inv (set_globalTraceBit t.(TrimTrace)
    (set_files (<[e0.(fileName) := b]> (delete e0.(fileName) g.(files))) g)).
Proof.
  intros [Hq [_ Hm [Hb Hst] [Hsz Hr Hu Hf] Hsy Hun] _ Hfiles [rest Hbuf] Hu8 Hlen _ Hw] Hwr.
  rewrite Hwr in Hw. pose proof e0_stored as (Hl0&H28&_&Hne).
  assert (g.(files) !! e0.(fileName) = Some b0) as Hold by (by apply Hfiles).
  assert (size (<[e0.(fileName) := b]> (delete e0.(fileName) g.(files))) = size g.(files)) as Hsize'.
  { rewrite insert_delete_eq, map_size_insert. by rewrite Hold. }
  assert (q < length g0.(qs).(queue))%nat as Hlt by (by eapply lookup_lt_Some).
  split; cbn [qs files set_globalTraceBit set_files counts fu_list].
  - rewrite Hq. by apply (queue_inv_upd _ _ _ e0 (set_fileLen (zlen b))); [apply Hg0|..].
  - destruct Hm. by split.
  - rewrite Hq. cbn. split.
    + apply map_Forall_insert_2; [|by apply map_Forall_delete]. rewrite Hbuf in Hu8.
      by apply Forall_app in Hu8 as [? _].
    + apply list.Forall_forall. intros e He.
      apply list_elem_of_lookup_1 in He as [i Hi].
      destruct (decide (i = q)) as [->|Hiq].
      * rewrite list_lookup_insert_eq in Hi by done. injection Hi as <-. split; [done|].
        exists b. cbn. split; [by rewrite lookup_insert_eq|]. split; [done|lia].
      * rewrite list_lookup_insert_ne in Hi by done.
        apply list_elem_of_lookup_2 in Hi as Hin.
        apply (proj1 (list.Forall_forall _ _) Hst) in Hin as [Hnt (x&Hx&Hxl)]. split; [done|].
        exists x. split; [|done]. rewrite lookup_insert_ne, lookup_delete_ne; [done|..];
          intros E; apply Hiq; eapply Hother; eauto.
  - rewrite Hq. cbn. unfold zlen in *. rewrite length_insert. split; rewrite ?Hsize'; done.
  - eapply sync_ok_files; [exact Hsy|done|]. cbn. intros [x Hx].
    destruct (decide (e0.(fileName) = file_lock)) as [->|Hl]; [by rewrite lookup_insert_eq|].
    rewrite lookup_insert_ne, lookup_delete_ne by done. by exists x.
  - done.
Qed.

(** What [TrimCase] makes of the seed. *)
Definition trim_result g : Prop := inv g ∧ ∃ b e, trimmed b ∧
  g.(files) !! e0.(fileName) = Some b ∧ g.(qs).(queue) !! q = Some e ∧
  e.(fileName) = e0.(fileName) ∧ e.(fileLen) = zlen b.

Lemma write_trimmed_ok b t g : trim_inv b t g →
  wp (write_trimmed map_size q t) (λ _, trim_result) (λ _ _, False) (λ _ _, True) g.
Proof.
  intros Ht. pose proof e0_stored as (Hl0&H28&_&Hne). unfold write_trimmed. apply wp_if; intros Hw.
  2: { apply wp_mret. destruct Ht as [Hq Hi _ Hf _ _ _ Htr Hwr]. rewrite Hw in Hwr. subst b.
       assert (g.(qs) = g0.(qs)) as Eq.
       { rewrite Hq, Hl0, list_insert_id; [by destruct (qs g0)|]. rewrite He0. by destruct e0. }
       rewrite <-Eq, set_qs_id in Hi. split; [done|]. exists b0, e0. split; [done|]. rewrite Eq.
       split; [by apply Hf|]. split; [done|]. by split. }
  pose proof (trimmed_inv b t g Ht Hw) as Hi. pose proof (trim_lookup b t g Ht) as Hlk.
  apply wp_bind, wp_zoom. eapply wp_seed_at; [exact Hlk|]. rewrite set_qs_id.
  cbn [fileName fileLen set_fileLen].
  apply wp_bind, wp_modify, wp_bind. destruct (ti_buf _ _ _ Ht) as [rest Hbuf].
  eapply (wp_from_option _ b).
  { rewrite Hbuf, slice_is_Some, drop_0; [|done|apply zlen_nonneg|rewrite zlen_app; pose proof (zlen_nonneg rest); lia].
    rewrite take_app_length'; [done|]. unfold zlen. lia. }
  apply wp_bind, wp_create. intros _ _ _. apply wp_bind, wp_modify, wp_zoom.
  change (set_files _ (set_files _ g)) with
    (set_files (<[e0.(fileName) := b]> (delete e0.(fileName) g.(files))) g).
  set (g1 := set_globalTraceBit _ _) in *. change (qs _) with (qs g1).
  eapply wp_conseq; [apply (wp_UpdateQueueTop map_size g1.(qs) q (set_fileLen (zlen b) e0));
    [apply Hi|lia|apply Hi|done]|].
  intros [] q4 (Hi4&_&Hc4&_).
  assert (disk_key <$> q4.(queue) = disk_key <$> g1.(qs).(queue)) as Hk by (by apply core_disk_key).
  split; [by apply inv_qs|].
  assert (is_Some (q4.(queue) !! q)) as [e He].
  { apply lookup_lt_is_Some_2. apply (f_equal length) in Hk. rewrite !length_fmap in Hk. rewrite Hk.
    by eapply lookup_lt_Some. }
  apply (f_equal (lookup q)) in Hk. change (qs g1) with (qs g) in Hk.
  rewrite !list_lookup_fmap, He, Hlk in Hk. injection Hk as Hn Hl.
  exists b, e. split; [apply Ht|]. split; [by cbn; rewrite lookup_insert_eq|]. done.
Qed.

(** C34. [TrimCase] ends, and what it leaves of the file of a seed is part of it:
    bytes of the old file in their order, with the first four among them, and
    unless it is the whole file, the target was run on exactly these bytes and its
    trace had the checksum of the seed.  The queue knows the new length, and the
    invariant holds again. *)
Theorem TrimCase_keeps fuel : (Z.to_nat (zlen b0) <= fuel)%nat →
  wp (TrimCase cfg map_size list_size fuel q b0) (λ _ _, False)
    (λ r g, r = 0 ∧ trim_result g) (λ _ _, True) g0.
Proof.
  intros Hfuel. pose proof e0_stored as (Hl0&H28&Hu&Hne).
  assert (trimmed b0) as Ht0 by (split; [done|]; split; [done|by left]).
  unfold TrimCase. apply wp_bind, wp_zoom. eapply wp_seed_at; [exact He0|]. rewrite set_qs_id.
  apply wp_ifd; intros Hlen.
  { apply wp_return. split; [done|]. split; [done|]. by exists b0, e0. }
  apply wp_bind, wp_min_pow2; [lia|]. intros p Hp. apply wp_bind.
  eapply (wp_mono _ _ _ (λ _ _, False) _ (λ _ _, True)); [|..|done|done].
  - apply (wp_while_fold _ _ _ (λ a g, 0 <= a.1 <= 2 ^ 28 ∧ ∃ b, trim_inv b a.2 g)
      (λ a _, Z.to_nat (Z.log2 a.1))).
    + cbn [fst]. assert (Z.log2 (Z.max (p / TRIM_START_STEP) TRIM_MIN_BYTES) <= Z.log2 (2 ^ 28)) as Hlog.
      { apply Z.log2_le_mono. unfold TRIM_START_STEP, TRIM_MIN_BYTES.
        assert (p / 16 <= p) by (apply Z.div_le_upper_bound; lia). lia. }
      rewrite Z.log2_pow2 in Hlog by lia. lia.
    + cbn [fst snd]. unfold TRIM_START_STEP, TRIM_MIN_BYTES.
      assert (p / 16 <= p) by (apply Z.div_le_upper_bound; lia). split; [lia|].
      exists b0. split; try done; cbn.
      * rewrite Hl0, list_insert_id; [by destruct (qs g0)|]. rewrite He0. by destruct e0.
      * by rewrite set_qs_id.
      * exists []. by rewrite app_nil_r.
      * lia.
    + intros [size t] g [Hs Hex] Hc%bool_decide_eq_true_1. cbn [fst snd] in *.
      unfold TRIM_MIN_BYTES in Hc. eapply wp_conseq; [apply trim_round_ok; [done|lia|done]|].
      intros [size' t'] g' [Hs' Hex']. cbn [fst snd] in *. subst size'.
      assert (2 <= Z.log2 size) as H2 by (change 2 with (Z.log2 4); apply Z.log2_le_mono; lia).
      rewrite Z.log2_shiftr by lia. split; [|lia]. split; [|done].
      rewrite Z.shiftr_div_pow2 by lia. change (2 ^ 1) with 2.
      split; [apply Z.div_pos; lia|]. apply Z.div_le_upper_bound; lia.
  - intros [size t] g [[_ [b Hb]] _]. cbn [snd]. apply wp_bind.
    eapply wp_mono; [by eapply write_trimmed_ok| |done|done]. intros [] g' Hr. by apply wp_return.
Qed.
End trimming.

(** A seed of twelve bytes, of which the target looks at the first. *)
Definition long_input : list Z := [65; 1; 2; 3; 4; 5; 6; 7; 8; 9; 10; 11].
Definition trim_globals : globals :=
  let e := set_cksum (hash32 [64; 0; 0; 0; 0; 0; 0; 0] 8 HASH_CONST)
    (new_seed "in/a" 12 None None) in
  set_files {["in/a" := long_input; file_lock := []]}
    (set_qs (fresh_queue 8 [e]) demo_globals).

Lemma trim_globals_inv : g_inv demo_cfg 8 8 trim_globals.
Proof.
  destruct demo_inv as [_ Hm _ _ Hs _]. split.
  - apply fresh_queue_inv; [lia|]. intros [|t] e; cbn; [by intros [= <-]|done].
  - by destruct Hm; split.
  - split.
    + apply (bool_decide_unpack _). vm_compute. exact I.
    + constructor; [|constructor]. split; [discriminate|]. exists long_input. by split; [vm_compute|].
  - split; [vm_compute; discriminate|by intros k|by vm_compute|by vm_compute].
  - intros _. destruct (Hs eq_refl) as [_ Hp]. split; [by eexists|exact Hp].
  - intros i j a b _ Hi. done.
Qed.

Lemma TrimCase_keeps_witness :
  (λ o, (o.2).(files) !! "in/a") (@TrimCase demo_env demo_cfg 8 8 12 0 long_input trim_globals)
    = Some [65; 1; 2; 3] ∧
  wp (@TrimCase demo_env demo_cfg 8 8 12 0 long_input) (λ _ _, False)
    (λ r g, r = 0 ∧ @trim_result demo_env demo_cfg 8 8 trim_globals 0
       (default (new_seed "x" 0 None None) (trim_globals.(qs).(queue) !! 0%nat)) long_input g)
    (λ _ _, True) trim_globals.
Proof.
  split; [vm_compute; reflexivity|].
  apply (@TrimCase_keeps demo_env demo_cfg 8 8 demo_env_ok demo_cfg_ok demo_size trim_globals 0 _
    long_input trim_globals_inv).
  - done.
  - vm_compute. reflexivity.
  - intros [|t] e; done.
  - vm_compute. lia.
Defined.

Lemma min_pow2_least_witness :
  (∃ j, 0 <= j <= 63 ∧ ∀ S (s : S), min_pow2 5 s = (Norm (2 ^ j), s) ∧
    5 <= 2 ^ j ∧ ∀ i, 0 <= i → 5 <= 2 ^ i → j <= i) ∧
  double_until 1000 (2 ^ 63 + 1) 1 = None.
Proof.
  split; [|vm_compute; reflexivity].
  apply (min_pow2_least 5). unfold is_u64. lia.
Defined.
