(* ===== verification/FaultInjection.v ===== *)
(** * Fault injection

    [ErrorListMutate] of [fuzz/fuzzer/old/FaultInjectionEngin.cpp]: the target is
    run once; then, for each error site it passed, once more with the site
    switched, unless the switched sites contain a unit that already crashed. *)

From S2P Require Import Prelude.
From S2P Require Import TraceMap.
From S2P Require Import Queue.
From S2P Require Import Faults.
From S2P Require Import Execution.
From S2P Require Import Keeping.
From S2P Require Import Found.

Section injection.
Context `{!Env} (cfg : config) (map_size list_size : Z).

(** The body of the loop: the error list is changed in place and put back. *)
Definition inject_site (filemap tmp_trace : list Z) (i : Z) (acc : list Z * Z)
    : proc globals (list Z * Z) :=
  let '(error_list, test_time) := acc in
  if decide (show_bit tmp_trace i = 0) then mret acc else
  let error_list := flip_bit error_list i in
  units ← gets fu_list;
  test_time ←
    (if is_unique_fault units error_list then
       r ← FuzzUnit cfg map_size list_size filemap (Some error_list);
       if decide (r ≠ 0) then return_ 1 else mret (u32 (test_time + 1))
     else mret test_time);
  mret (flip_bit error_list i, test_time).

(** Its result is the buffer [error_list] after the call and [test_time]; the
    function returns 1 instead when a run does. *)
Definition ErrorListMutate (filemap error_list : list Z) : proc globals (list Z * Z) :=
  r ← FuzzUnit cfg map_size list_size filemap (Some error_list);
  if decide (r ≠ 0) then return_ 1 else
  tmp_trace ← gets errorTraced;
  for_fold (Z.to_nat list_size) 0 1 (inject_site filemap tmp_trace) (error_list, 0).
End injection.

Lemma length_flip_bit l i : length (flip_bit l i) = length l.
Proof. unfold flip_bit. apply length_insert. Qed.

Lemma flip_bit_bytes n l i : bytes n l → bytes n (flip_bit l i).
Proof.
  intros [Hl Hb]. split; [unfold zlen in *; by rewrite length_flip_bit|].
  unfold flip_bit. apply Forall_insert; [done|apply u8_range].
Qed.

(** Switching a site twice restores it. *)
Lemma flip_bit_twice l i : Forall is_u8 l → flip_bit (flip_bit l i) i = l.
Proof.
  intros Hb. unfold flip_bit. rewrite list_insert_insert_eq.
  destruct (l !! Z.to_nat i) as [x|] eqn:Hx.
  - apply list_insert_id. unfold nthZ. rewrite list_lookup_insert_eq by (by eapply lookup_lt_Some).
    rewrite Hx. cbn. f_equal. apply (proj1 (list.Forall_lookup _ _) Hb) in Hx.
    unfold u8, is_u8 in *. pose proof (Z.mod_pos_bound (1 - x) (2 ^ 8)) as Hm.
    rewrite Zminus_mod_idemp_r. replace (1 - (1 - x)) with x by lia. symmetry. by apply Z.mod_small.
  - apply list_insert_ge. by apply lookup_ge_None in Hx.
Qed.

Section inject.
Context `{!Env} {cfg : config} {map_size list_size : Z} `{!EnvOK map_size list_size}.
Hypothesis Hcfg : names_ok cfg.
Hypothesis Hsize : 0 <= map_size < 2 ^ 32 ∧ map_size mod 8 = 0.
Abbreviation inv := (g_inv cfg map_size list_size).

Lemma inject_site_ok filemap tr i l n g : inv g → Forall is_u8 filemap → bytes list_size l →
  0 <= n →
  wp (inject_site cfg map_size list_size filemap tr i (l, n))
    (λ a g', a.1 = l ∧ 0 <= a.2 <= n + 1 ∧ inv g' ∧ grown 1 g g' ∧
       g'.(queueCycle) = g.(queueCycle)) (λ _ _, False) (λ _ _, True) g.
Proof.
  intros Hg Hb Hl Hn. unfold inject_site.
  assert (grown 1 g g) as Hgr.
  { exists []. rewrite app_nil_r. split; [by destruct (qs g)|unfold zlen; cbn; lia]. }
  apply wp_ifd; intros Ht; [apply wp_mret; cbn [fst snd]; split; [done|]; split; [lia|done]|].
  apply wp_bind, wp_gets. rewrite (flip_bit_twice l i) by apply Hl.
  apply wp_bind, wp_if; intros Hu; [|do 2 apply wp_mret; cbn [fst snd]; split; [done|]; split; [lia|done]].
  apply wp_bind. eapply wp_conseq; [apply FuzzUnit_grows; [done..|]|].
  { intros l' [= <-]. by apply flip_bit_bytes. }
  intros r g1 (->&Hg1&Hgr1&Hc1&_). apply wp_ifd; intros Hr; [done|]. do 2 apply wp_mret.
  cbn [fst snd]. split; [done|]. split; [|done]. pose proof (u32_range (n + 1)) as [? _].
  unfold u32. split; [done|]. apply Z.mod_le; lia.
Qed.

Lemma grown_trans n m g1 g2 g3 : grown n g1 g2 → grown m g2 g3 → grown (n + m) g1 g3.
Proof.
  intros (l&Hq&Hl) (k&Hq'&Hk). exists (l ++ k). rewrite Hq', Hq. cbn [queue set_queue].
  split; [by rewrite app_assoc|]. rewrite zlen_app. lia.
Qed.

Lemma ErrorListMutate_ok filemap error_list g : inv g → Forall is_u8 filemap →
  bytes list_size error_list →
  wp (ErrorListMutate cfg map_size list_size filemap error_list)
    (λ a g', a.1 = error_list ∧ 0 <= a.2 <= list_size ∧ inv g' ∧ grown (list_size + 1) g g' ∧
       g'.(queueCycle) = g.(queueCycle)) (λ _ _, False) (λ _ _, True) g.
Proof.
  intros Hg Hb Hl. unfold ErrorListMutate. apply wp_bind.
  eapply wp_conseq; [apply FuzzUnit_grows; [done..|by intros l' [= <-]]|].
  intros r g1 (->&Hg1&Hgr1&Hc1&_). apply wp_ifd; intros Hr; [done|]. apply wp_bind, wp_gets.
  assert (0 <= list_size) as Hls by (destruct Hl as [<- _]; apply zlen_nonneg).
  eapply wp_conseq; [apply (wp_for_fold _ _ _ _ _ (λ i (a : list Z * Z) g',
    a.1 = error_list ∧ 0 <= a.2 <= i ∧ inv g' ∧ grown (i + 1) g g' ∧
    g'.(queueCycle) = g.(queueCycle)))|].
  - cbn [fst snd]. split; [done|]. split; [lia|]. done.
  - intros i [l n] g2 Hi (El&Hn&Hg2&Hgr2&Hc2). cbn [fst snd] in *. subst l.
    rewrite Z.add_0_l, !Z.mul_1_r in *.
    eapply wp_conseq; [by apply inject_site_ok; [..|lia]|]. intros a g3 (?&?&?&?&?).
    split; [done|]. split; [lia|]. split; [done|]. split; [|congruence].
    replace (i + 1 + 1) with ((i + 1) + 1) by lia. by eapply grown_trans.
  - intros a g2 (?&?&?&Hgr&?). rewrite Z.mul_1_r, Z.add_0_l, Z2Nat.id in * by done. done.
Qed.


End inject.

(** A fault is new exactly if every saved unit has a site at which the error
    list injects nothing; once its unit is saved, neither it nor any list that
    injects at least at the same sites is new. *)
Theorem is_unique_fault_minimal (fus : list (list Z)) (l l' : list Z) :
  (is_unique_fault fus l = true ↔
   ∀ u, u ∈ fus → ∃ i, i ∈ u ∧ ¬ (0 <= i < zlen l ∧ nthZ l i = 1)) ∧
  ((∀ i, nthZ l i = 1 → 0 <= i < zlen l → nthZ l' i = 1 ∧ i < zlen l') →
   is_unique_fault (save_crashed_fu fus l) l' = false).
Proof.
  split.
  - unfold is_unique_fault. rewrite unique_among_spec. split.
    + intros Hu u Hin. specialize (Hu u Hin).
      destruct (decide (Exists (λ i, i ∉ fault_unit l) u)) as [He|He].
      * apply list.Exists_exists in He as (i&Hi&Hn). exists i. split; [done|].
        by rewrite <-elem_of_fault_unit.
      * exfalso. apply Hu. intros i Hi. apply dec_stable. intros Hn. apply He.
        apply list.Exists_exists. by exists i.
    + intros Hu u Hin Hsub. destruct (Hu u Hin) as (i&Hi&Hn). apply Hn, elem_of_fault_unit. set_solver.
  - intros Hle. apply not_true_is_false. unfold is_unique_fault, save_crashed_fu.
    rewrite unique_among_spec. intros Hu. apply (Hu (fault_unit l)); [set_solver|].
    intros i Hi. apply elem_of_fault_unit in Hi as [Hr Hi]. apply elem_of_fault_unit.
    destruct (Hle i Hi Hr). split; [lia|done].
Qed.



Lemma is_unique_fault_minimal_witness :
  is_unique_fault [[0; 2]] [1; 0; 0; 1] = true ∧
  is_unique_fault (save_crashed_fu [[0; 2]] [1; 0; 0; 1]) [1; 1; 0; 1] = false.
Proof.
  split; [by vm_compute|]. apply (is_unique_fault_minimal [[0; 2]] [1; 0; 0; 1] [1; 1; 0; 1]).
  intros i Hi Hr. change (zlen [1; 0; 0; 1]) with 4 in Hr. change (zlen [1; 1; 0; 1]) with 4.
  assert (i = 0 ∨ i = 1 ∨ i = 2 ∨ i = 3) as [->|[->|[->| ->]]] by lia; by vm_compute in Hi |- *.
Defined.
