(* ===== verification/FuzzLoop.v ===== *)
(** * The main loop

    [FuzzMain] of [FuzzOne.cpp], [init_stats] of [Setup.cpp], [ReadTestcases] of
    [TestcasesProcess.cpp] and the loop of [main] of [Main.cpp].

    Here the mutation stages meet the fuzzer they were verified apart from: the
    globals of [Execution] are an instance of the class [Target] of [Stages], and
    their invariant proves its laws. *)

From S2P Require Import Prelude.
From S2P Require Import TraceMap.
From S2P Require Import Queue.
From S2P Require Import Bits.
From S2P Require Import Stages.
From S2P Require Import Havoc.
From S2P Require Import Faults.
From S2P Require Import Execution.
From S2P Require Import Keeping.
From S2P Require Import Calibration.
From S2P Require Import Found.
From S2P Require Import Sync.
From S2P Require Import FaultInjection.

Definition FUZZING_SKIP : Z := 1.
Definition FUZZING_ERROR : Z := 2.
Definition SKIP_TO_NEW_PROB : Z := 99.
Definition SKIP_NFAV_OLD_PROB : Z := 95.
Definition SKIP_NFAV_NEW_PROB : Z := 75.
Definition MIN_FILE_LEN_FOR_USEFUL : Z := 128.
Definition EXEC_TM_ROUND : Z := 20.
Definition SIGFPE_STATUS : Z := 136.

(** [skip_deterministic] is initialised to [true] and only ever set to [true]. *)
Definition skip_deterministic : bool := true.

(** ** The fuzzer as a target of the mutation stages *)

Definition fuzzer_target `{!Env} (cfg : config) (map_size list_size : Z) : Target globals := {|
  Stages.FuzzUnit := λ buf, FuzzUnit cfg map_size list_size buf None;
  Stages.globalTraceBit := globalTraceBit;
  Stages.seeds := λ g, g.(qs).(queue);
  Stages.queueCycle := queueCycle;
  Stages.rand := λ g, (Norm (rand_at g.(draws)), set_draws (S g.(draws)) g);
  Stages.read_file := λ name, gets (λ g, g.(files) !! name);
|}.

Definition fuzzer_ok `{!Env} (cfg : config) (map_size list_size : Z) `{!EnvOK map_size list_size}
    (Hcfg : names_ok cfg) (Hsize : 0 <= map_size < 2 ^ 32 ∧ map_size mod 8 = 0) :
  @TargetOK globals (fuzzer_target cfg map_size list_size).
Proof.
  refine (@Build_TargetOK globals (fuzzer_target cfg map_size list_size)
    (g_inv cfg map_size list_size) _ _ _ _ _).
  - intros buf g Hg Hb. unfold Stages.FuzzUnit, seeds, Stages.queueCycle, fuzzer_target.
    eapply wp_conseq; [apply (FuzzUnit_grows Hcfg Hsize buf None g Hg Hb); by intros l|].
    intros r g' (->&Hg'&(new&Hq&_)&Hc&_). split; [apply is_u8_0|]. split; [done|]. split; [|done].
    unfold grows. cbn. rewrite Hq. cbn. rewrite fmap_app. by apply prefix_app_r.
  - intros g [Hq Hm Hf Hr Hs Hun]. split; [apply rand_at_ok|]. split; [|done].
    split; [done|by destruct Hm; split|done..].
  - intros name g Hg. apply wp_gets. split; [done|]. split; [done|]. split; [done|].
    intros b Hb. by apply (fo_bytes _ _ _ (gi_files _ _ _ _ Hg) name).
  - intros g Hg. eapply Forall_impl; [|apply (fo_stored _ _ _ (gi_files _ _ _ _ Hg))].
    intros e (_&b&_&<-&?). split; [apply zlen_nonneg|done].
  - intros g Hg. destruct (gi_room _ _ _ _ Hg) as [Hs Hr _ Hf]. unfold numbered in Hf. cbn.
    pose proof (Hr total_crash_count). pose proof (Hr unique_hang_count).
    pose proof (Hr unique_ex_hang_count). pose proof (Hr unique_ex_crash_count). lia.
Defined.

(** ** [FuzzMain] *)

Section fuzzing.
Context `{!Env} `{!Group} (cfg : config) (map_size list_size : Z).
Context (sort : (list Z * Z → list Z * Z → bool) → list (list Z * Z) → list (list Z * Z)).
Context (fuel : nat).
#[local] Instance the_target : Target globals := fuzzer_target cfg map_size list_size.

Definition in_globals {A} (m : proc globals A) : proc (fuzz globals) A := zoom world set_world m.

(** Lines 1255-1274: is the seed skipped this time? *)
Definition skips (qCur : nat) : proc (fuzz globals) bool :=
  q ← from_option (λ s : fuzz globals, s.(world).(qs).(queue) !! qCur);
  pend ← gets (λ s : fuzz globals, s.(world).(qs).(pendFavor));
  cycle ← gets (λ s : fuzz globals, s.(world).(queueCycle));
  if pend : bool then
    if q.(wasFuzzed) || negb q.(favored)
    then r ← randNum 100; mret (bool_decide (r < SKIP_TO_NEW_PROB)) else mret false
  else if negb q.(favored) then
    r ← randNum 100;
    mret (bool_decide
      (r < if bool_decide (cycle > 1) && negb q.(wasFuzzed)
           then SKIP_NFAV_NEW_PROB else SKIP_NFAV_OLD_PROB))
  else mret false.

(** A stage between two readings of the clock; the average speed that is printed
    divides by their difference, and the division by zero is a trap that ends the
    process. *)
Definition timed (stage : proc (fuzz globals) unit) : proc (fuzz globals) unit :=
  time_start ← in_globals GetCurTimeUs;
  r ← call stage;
  if decide (r ≠ 0) then return_ FUZZING_ERROR else
  time_end ← in_globals GetCurTimeUs;
  if decide (u64 (time_end - time_start) = 0) then exit_ SIGFPE_STATUS else mret tt.

(** A chain of stages joined by [||]. *)
Fixpoint any_of (stages : list (proc (fuzz globals) unit)) : proc (fuzz globals) unit :=
  match stages with
  | [] => return_ 0
  | m :: rest => r ← call m; if decide (r ≠ 0) then return_ 1 else any_of rest
  end.

(** Lines 1405-1482; the buffer of [DictionaryInsert] is allocated there. *)
Definition deterministic_stages (qCur : nat) (len : Z) : proc (fuzz globals) unit :=
  timed (any_of ((λ p, BitFlip map_size len p.1 p.2 qCur) <$>
    [(1, 1); (2, 1); (4, 1); (8, 8); (16, 8); (32, 8)])) ;;
  timed (any_of [Arithmetic8 len; Arithmetic16 len; Arithmetic32 len]) ;;
  timed (any_of [InterestingReplace8 len; InterestingReplace16 len; InterestingReplace32 len]) ;;
  timed (Dictionary sort len (replicate (Z.to_nat (len + MAX_TOKEN_SIZE)) 0)).

(** Lines 1297-1311: the error list of the seed. *)
Definition load_errors (q : seed) : proc globals (list Z) :=
  error_list ←
    (if decide (q.(elistFileName) = EmptyString)
     then mret (replicate (Z.to_nat list_size) 0)
     else ReadFile2Mem q.(elistFileName) list_size);
  modify (set_errorList error_list) ;;
  mret error_list.

(** Lines 1360-1377. *)
Definition error_stage (outBuf error_list : list Z) : proc (fuzz globals) unit :=
  timed (in_globals (ErrorListMutate cfg map_size list_size outBuf error_list) ;; return_ 0) ;;
  in_globals (modify (set_errorList error_list)).

(** Lines 1359-1528. *)
Definition FuzzMain_stages (qCur : nat) (len : Z) (outBuf error_list : list Z)
    : proc (fuzz globals) unit :=
  when cfg.(fuzzing_error) (error_stage outBuf error_list) ;;
  when (negb skip_deterministic) (deterministic_stages qCur len) ;;
  timed (Havoc len HAVOC_CYCLES_INIT) ;;
  r ← call (Splice fuel len qCur);
  if decide (r ≠ 0) then return_ FUZZING_ERROR else
  in_globals (queue_op (upd_seed qCur (set_wasFuzzed true))) ;;
  return_ 0.

Definition FuzzMain (qCur : nat) : proc (fuzz globals) unit :=
  skip ← skips qCur;
  if skip : bool then return_ FUZZING_SKIP else
  q ← from_option (λ s : fuzz globals, s.(world).(qs).(queue) !! qCur);
  f ← gets (λ s : fuzz globals, s.(world).(files));
  match f !! q.(fileName) with
  | None => exit_ (-1)
  | Some content =>
      let len := q.(fileLen) in
      if decide (len = 0) then exit_ (-1) else
      inBuf ← from_option (λ _, slice content 0 len);
      error_list ← (if cfg.(fuzzing_error) then in_globals (load_errors q) else mret []);
      modify (set_filemap inBuf) ;;
      modify (set_useful_byte
        (replicate (Z.to_nat len) (bool_decide (len < MIN_FILE_LEN_FOR_USEFUL)))) ;;
      FuzzMain_stages qCur len inBuf error_list
  end.

(** ** [init_stats] *)

(** The time limit that [init_stats] derives from the calibration. *)
Definition derived_tmout (avg_us max_us : Z) : Z :=
  let exec :=
    if decide (avg_us > 50000) then u32 (u64 (avg_us * 2) / 1000)
    else if decide (avg_us > 10000) then u32 (u64 (avg_us * 3) / 1000)
    else u32 (u64 (avg_us * 5) / 1000) in
  let exec := if decide (max_us / 1000 > exec) then u32 (max_us / 1000) else exec in
  let exec := u32 (u32 (exec + EXEC_TM_ROUND) / EXEC_TM_ROUND * EXEC_TM_ROUND) in
  if decide (exec > EXEC_TIMEOUT) then EXEC_TIMEOUT else exec.

Definition max_us (l : list seed) : Z :=
  foldl (λ m q, if decide (q.(execTime) > m) then q.(execTime) else m) 0 l.

Definition init_stats : proc globals unit :=
  cycles ← gets (λ g, g.(counts) total_cal_cycles);
  us ← gets (λ g, g.(counts) total_cal_us);
  let avg_us := if decide (cycles ≠ 0) then us / cycles else 0 in
  max ← gets (λ g, max_us g.(qs).(queue));
  (if decide (avg_us > 50000) then modify (set_havoc_div 10)
   else if decide (avg_us > 20000) then modify (set_havoc_div 5)
   else if decide (avg_us > 10000) then modify (set_havoc_div 2)
   else mret tt) ;;
  given ← gets timeout_given;
  (if decide (given = 0) then
     modify (set_exec_tmout (derived_tmout avg_us max)) ;; modify (set_timeout_given 1)
   else mret tt) ;;
  exec ← gets exec_tmout;
  modify (set_hang_tmout
    (if decide (EXEC_TIMEOUT < u32 (u32 (exec * 2) + 100)) then EXEC_TIMEOUT
     else u32 (u32 (exec * 2) + 100))).

(** ** [ReadTestcases] *)

(** [names] is what [readdir] enumerates in the directory. *)
Definition read_testcase (dirOfCases name : string) : proc globals unit :=
  if decide (name = "." ∨ name = "..") then mret tt else
  f ← gets files;
  match f !! (dirOfCases +:+ name) with
  | None => exit_ (-1)
  | Some b => queue_op (AddToQueue (dirOfCases +:+ name) (zlen b) None None)
  end.
Definition ReadTestcases (dirOfCases : string) (names : list string) : proc globals unit :=
  for_each names (read_testcase dirOfCases).

(** ** [main] *)

Definition SYNC_CYCLE : Z := 1.

(** [queue.begin()]; iterators into the queue are indices, and [None] is
    [queue.end()]. *)
Definition queue_begin : proc (fuzz globals) (option nat) :=
  gets (λ s : fuzz globals, match s.(world).(qs).(queue) with [] => None | _ => Some 0%nat end).

Definition deref (q : option nat) : proc (fuzz globals) nat := from_option (λ _, q).

(** Lines 520-531. *)
Definition exchange (stateFuzz sync_cycle_cnt : Z) : proc (fuzz globals) Z :=
  if decide (cfg.(sync_cov) ≠ 1 ∧ cfg.(sync_id) ≠ EmptyString ∧ stateFuzz = 0) then
    (if decide (sync_cycle_cnt mod SYNC_CYCLE = 0)
     then in_globals (SychronizeFuzzer cfg map_size list_size cfg.(sync_id)) else mret tt) ;;
    mret (u32 (sync_cycle_cnt + 1))
  else mret sync_cycle_cnt.

(** One turn of the loop, on [queueCur] and [sync_cycle_cnt]. *)
Definition turn (vars : option nat * Z) : proc (fuzz globals) (option nat * Z) :=
  _ ← call (in_globals (queue_op (CullQueue map_size)));
  queueCur ←
    (match vars.1 with
     | None =>
         in_globals (modify (λ g, set_queueCycle (u64 (g.(queueCycle) + 1)) g)) ;; queue_begin
     | Some q => mret (Some q)
     end);
  q ← deref queueCur;
  stateFuzz ← call (FuzzMain q);
  n ← gets (λ s : fuzz globals, length s.(world).(qs).(queue));
  sync_cycle_cnt ← exchange stateFuzz vars.2;
  mret (if decide (S q < n)%nat then Some (S q) else None, sync_cycle_cnt).

Fixpoint turns (n : nat) (vars : option nat * Z) : proc (fuzz globals) (option nat * Z) :=
  match n with
  | O => mret vars
  | S n' => vars ← turn vars; turns n' vars
  end.

(** [main] after the set-up of the shared coverage (lines 492-532), for [n] turns of
    its loop. *)
Definition main_loop (n : nat) : proc (fuzz globals) (option nat * Z) :=
  queueCur ← queue_begin;
  in_globals (queue_op (modify (set_queueTop (replicate (Z.to_nat map_size) None)))) ;;
  in_globals (DryRunning cfg map_size list_size) ;;
  _ ← call (in_globals (queue_op (CullQueue map_size)));
  in_globals init_stats ;;
  turns n (queueCur, 0).

(** [main] from [ReadTestcases] on; the shared coverage is there. *)
Definition main (inputDir : string) (names : list string) (n : nat)
    : proc (fuzz globals) (option nat * Z) :=
  in_globals (ReadTestcases inputDir names) ;; main_loop n.
End fuzzing.

(** ** The loop is safe *)

Section loop.
Context `{!Env} `{!Group} `{!GroupOK} {cfg : config} {map_size list_size : Z}.
Context `{!EnvOK map_size list_size}.
Context {sort : (list Z * Z → list Z * Z → bool) → list (list Z * Z) → list (list Z * Z)}.
Context {fuel : nat}.
Hypothesis Hcfg : names_ok cfg.
Hypothesis Hsize : 0 <= map_size < 2 ^ 32 ∧ map_size mod 8 = 0.
Abbreviation inv := (g_inv cfg map_size list_size).
#[local] Instance a_target : Target globals := fuzzer_target cfg map_size list_size.
Implicit Types s : fuzz globals.

(** A few draws of [rand] do not all give one index. *)
Hypothesis Hfair : ∀ g n q, inv g → 2 <= n < 2 ^ 32 → draws_other fuel n q g.

Record loop_inv s : Prop := LoopInv {
  li_inv : inv s.(world);
  li_auto : Forall token_ok s.(autoToken) ∧ zlen s.(autoToken) < 2 ^ 32;
  li_pointed : Forall token_ok s.(pointedToken) ∧ zlen s.(pointedToken) < 2 ^ 32;
}.

(** The seeds stay in front, with their files. *)
Definition longer s s' : Prop :=
  (disk_key <$> s.(world).(qs).(queue)) `prefix_of` (disk_key <$> s'.(world).(qs).(queue)).

Lemma longer_trans s1 s2 s3 : longer s1 s2 → longer s2 s3 → longer s1 s3.
Proof. unfold longer. apply transitivity. Qed.

Lemma longer_length s s' : longer s s' →
  (length s.(world).(qs).(queue) <= length s'.(world).(qs).(queue))%nat.
Proof. unfold longer. intros H'%prefix_length. by rewrite !length_fmap in H'. Qed.

Lemma grows_longer s s' : grows s.(world).(qs).(queue) s'.(world).(qs).(queue) → longer s s'.
Proof.
  unfold grows, longer. intros [k Hk].
  assert (∀ l : list seed, disk_key <$> l = (λ p : Z * string * Z, (p.1.2, p.2)) <$> (seed_key <$> l))
    as Hd by (intros l; rewrite <-list_fmap_compose; by apply list_fmap_ext).
  rewrite !Hd, Hk, fmap_app. by apply prefix_app_r.
Qed.

Lemma loop_inv_world s w : loop_inv s → inv w → loop_inv (set_world w s).
Proof. intros [] Hw. by split. Qed.

Lemma inv_draws g n : inv g → inv (set_draws n g).
Proof. intros [Hq Hm Hf Hr Hs Hun]. split; [done|by destruct Hm; split|done..]. Qed.

Lemma wp_randNum_100 Q R E s :
  (∀ r n, 0 <= r < 100 → Q r (set_world (set_draws n s.(world)) s)) → wp (randNum 100) Q R E s.
Proof.
  intros HQ. unfold randNum. change (u32 100) with 100. rewrite decide_False by done.
  apply wp_bind, wp_zoom. unfold wp, rand. cbn. apply HQ. apply Z.mod_pos_bound. lia.
Qed.

(** Only [draws] changes. *)
Lemma skips_ok qCur s : loop_inv s → (qCur < length s.(world).(qs).(queue))%nat →
  wp (skips cfg map_size list_size qCur) (λ _ s', loop_inv s' ∧ s'.(world).(qs) = s.(world).(qs) ∧
      s'.(world).(queueCycle) = s.(world).(queueCycle) ∧ s'.(submitted) = s.(submitted))
    (λ _ _, False) (λ _ _, False) s.
Proof.
  intros Hs Hq. unfold skips. apply lookup_lt_is_Some_2 in Hq as [q Hq].
  apply wp_bind. eapply wp_from_option; [exact Hq|]. do 2 apply wp_bind, wp_gets.
  assert (∀ n, loop_inv (set_world (set_draws n s.(world)) s)) as Hd
    by (intros n; apply loop_inv_world; [done|apply inv_draws, Hs]).
  repeat (apply wp_if; intros ?); try (by apply wp_mret);
    apply wp_bind, wp_randNum_100; intros r n _; apply wp_mret; by split; [apply Hd|].
Qed.

Definition tick_world s : fuzz globals :=
  set_world (set_ticks (S s.(world).(ticks)) s.(world)) s.

Lemma timed_ok stage s (P A : fuzz globals → Prop) :
  wp stage (λ _ _, False) (λ r s', r = 0 ∧ P s' ∨ r ≠ 0 ∧ A s') (λ _ _, True) (tick_world s) →
  wp (timed stage) (λ _ s', ∃ s1, P s1 ∧ s' = tick_world s1)
    (λ r s', r = FUZZING_ERROR ∧ A s') (λ _ _, True) s.
Proof.
  intros Hst. unfold timed, in_globals. apply wp_bind, wp_zoom, wp_clock, wp_bind, wp_call.
  eapply wp_mono; [exact Hst|done| |done]. intros r s1 [[-> HP]|[Hr HA]].
  - apply wp_ifd; intros Hr0; [done|]. apply wp_bind, wp_zoom, wp_clock.
    apply wp_ifd; intros Hz; [done|]. apply wp_mret. by exists s1.
  - apply wp_ifd; intros Hr0; [by apply wp_return|by exfalso; apply Hr0].
Qed.

(** Between the stages: the buffer starts with the file of [len] bytes. *)
Definition staged len s s' : Prop :=
  loop_inv s' ∧ longer s s' ∧ len <= zlen s'.(filemap) ∧ Forall is_u8 s'.(filemap) ∧
  s'.(world).(queueCycle) = s.(world).(queueCycle).
Definition gave_up s s' : Prop :=
  loop_inv s' ∧ longer s s' ∧ s'.(world).(queueCycle) = s.(world).(queueCycle).

Lemma staged_ready len s s' : staged len s s' → 1 <= len < 2 ^ 28 →
  havoc_ready (TargetOK0 := fuzzer_ok cfg map_size list_size Hcfg Hsize) len s'.
Proof. intros ([]&_&Hl&Hb&_) Hlen. by split. Qed.

Lemma staged_tick len s s' : staged len s s' → staged len s (tick_world s').
Proof.
  intros ([]&?&?&?&?). split; [|done]. split; [|done..]. by apply inv_ticks.
Qed.

Lemma aborted_gave_up s s1 s2 : gave_up s s1 →
  aborted (TargetOK0 := fuzzer_ok cfg map_size list_size Hcfg Hsize) s1 s2 → gave_up s s2.
Proof.
  intros ([]&Hl&Hc) [Hi _ Ha Hp Hg Hcy]. split; [by split; rewrite ?Ha, ?Hp|].
  apply grows_longer in Hg. split; [by eapply longer_trans|]. cbn in Hcy. congruence.
Qed.

Lemma havoc_stage_ok len s s1 : staged len s s1 → 1 <= len < 2 ^ 28 →
  wp (timed (Havoc len HAVOC_CYCLES_INIT)) (λ _, staged len s)
    (λ r s', r = FUZZING_ERROR ∧ gave_up s s') (λ _ _, True) s1.
Proof.
  intros Hs Hlen. pose proof (staged_tick len s s1 Hs) as Hst.
  eapply wp_conseq; [apply (timed_ok _ _ (staged len s) (gave_up s))|].
  2: { intros [] s' (s2&Hs2&->). by apply staged_tick. }
  eapply wp_mono; [apply (Havoc_ok (TargetOK0 := fuzzer_ok cfg map_size list_size Hcfg Hsize));
    [by apply (staged_ready len s)|left]|done| |done].
  destruct Hst as (Hli&Hlo&_&_&Hcy).
  intros r s2 (xs&_&_&_&[(->&[Hi Hb _ Hcap _ _ Ha Hp Hg Hc]&_)|[-> Hab]]).
  - left. split; [done|]. apply grows_longer in Hg.
    split; [destruct Hli; by split; rewrite ?Ha, ?Hp|]. split; [by eapply longer_trans|].
    split; [done|]. split; [done|]. cbn in *. congruence.
  - right. split; [done|]. by eapply aborted_gave_up.
Qed.

Lemma splice_stage_ok len qCur s s1 : staged len s s1 → 1 <= len < 2 ^ 28 →
  wp (call (Splice fuel len qCur)) (λ _ s', gave_up s s') (λ _ _, False) (λ _ _, True) s1.
Proof.
  intros Hs Hlen. apply wp_call. pose proof Hs as (Hli&Hlo&Hcap&Hb&Hcy).
  destruct (decide (1 < zlen (seeds s1.(world)))) as [Hn|Hn].
  - eapply wp_mono; [apply (Splice_ok (TargetOK0 := fuzzer_ok cfg map_size list_size Hcfg Hsize));
      [by apply (staged_ready len s)|done|]|done| |done].
    { intros w n Hw H2. by apply Hfair. }
    intros r s2 [_ [[-> []]|[-> Hab]]]; (eapply aborted_gave_up; [|done || by split]); by split.
  - unfold Splice. apply wp_bind, wp_gets. rewrite decide_True by lia. apply wp_return. by split.
Qed.

Lemma inv_errorList g l : inv g → bytes list_size l → inv (set_errorList l g).
Proof. intros [Hq Hm Hf Hr Hs Hun] Hl. split; [done|by destruct Hm; split|done..]. Qed.

Lemma load_errors_ok q g : inv g → 0 <= list_size →
  wp (load_errors list_size q)
    (λ l g', bytes list_size l ∧ g' = set_errorList l g ∧ inv g') (λ _ _, False) (λ _ _, True) g.
Proof.
  intros Hg Hls. unfold load_errors. apply wp_bind.
  eapply (wp_conseq _ (λ l g', bytes list_size l ∧ g' = g)).
  - apply wp_ifd; intros He.
    + apply wp_mret. split; [|done]. split; [unfold zlen; rewrite length_replicate; lia|].
      apply Forall_replicate, is_u8_0.
    + unfold ReadFile2Mem. apply wp_bind, wp_gets. destruct (_ !! _) as [b|] eqn:Hb; [|done].
      apply wp_ifd; intros Hl; [|done]. apply wp_mret. split; [|done]. split.
      * unfold zlen in *. rewrite length_take. lia.
      * apply Forall_take. by apply (fo_bytes _ _ _ (gi_files _ _ _ _ Hg) _ _ Hb).
  - intros l g' [Hl ->]. apply wp_bind, wp_modify, wp_mret. split; [done|]. split; [done|].
    by apply inv_errorList.
Qed.

Lemma error_stage_ok len s s1 l : staged len s s1 → bytes list_size l →
  wp (error_stage cfg map_size list_size s1.(filemap) l) (λ _, staged len s)
    (λ r s', r = FUZZING_ERROR ∧ gave_up s s') (λ _ _, True) s1.
Proof.
  intros Hs Hl. unfold error_stage. apply wp_bind.
  eapply wp_conseq; [apply (timed_ok _ _ (staged len s) (gave_up s))|].
  - apply wp_bind, wp_zoom. pose proof (staged_tick len s s1 Hs) as (Hli&Hlo&Hcap&Hb&Hcy).
    eapply wp_mono; [apply ErrorListMutate_ok; [done|done|apply Hli|done|done]| |done|done].
    intros a g' (_&_&Hg'&(new&Hq&_)&Hc). apply wp_return. left.
    split; [done|]. split; [by apply loop_inv_world|]. split; [|split; [done|split; [done|]]].
    + eapply longer_trans; [exact Hlo|]. unfold longer. cbn [world set_world]. rewrite Hq.
      cbn [queue set_queue]. rewrite fmap_app. by apply prefix_app_r.
    + cbn in *. congruence.
  - intros [] s' (s2&Hs2&->). apply staged_tick in Hs2 as (Hli&Hlo&Hcap&Hb&Hcy).
    apply wp_zoom, wp_modify. split; [|done]. apply loop_inv_world; [done|].
    apply inv_errorList; [apply Hli|done].
Qed.

Definition marked (qCur : nat) s : Prop :=
  ∃ q, s.(world).(qs).(queue) !! qCur = Some q ∧ q.(wasFuzzed) = true.

(** From the first stage on. *)
Lemma FuzzMain_stages_ok len qCur s s1 l : staged len s s1 →
  (cfg.(fuzzing_error) = true → bytes list_size l) → 1 <= len < 2 ^ 28 →
  (qCur < length s.(world).(qs).(queue))%nat →
  wp (FuzzMain_stages cfg map_size list_size sort fuel qCur len s1.(filemap) l) (λ _ _, False)
    (λ r s', gave_up s s' ∧ (r = 0 ∧ marked qCur s' ∨ r = FUZZING_ERROR)) (λ _ _, True) s1.
Proof.
  intros Hs Hl Hlen Hq. unfold FuzzMain_stages. apply wp_bind.
  eapply wp_mono; [apply wp_when; intros Hfe; [by apply error_stage_ok, Hl|exact Hs]| | |done].
  2: { intros r s' [-> ?]. by split; [|right]. }
  intros [] s2 Hs2. apply wp_bind, wp_mret, wp_bind.
  eapply wp_mono; [by apply havoc_stage_ok| | |done].
  2: { intros r s' [-> ?]. by split; [|right]. }
  intros [] s3 Hs3. apply wp_bind. eapply wp_mono; [by apply splice_stage_ok| |done|done].
  intros r s4 Hs4. apply wp_ifd; intros Hr; [apply wp_return; by split; [|right]|].
  destruct Hs4 as (Hli&Hlo&Hcy).
  assert (qCur < length s4.(world).(qs).(queue))%nat as [q Hq4]%lookup_lt_is_Some_2
    by (apply longer_length in Hlo; lia).
  apply wp_bind, wp_zoom. eapply wp_upd_inv; [apply Hli|exact Hq4|done..|]. intros g' Hg' Hq'.
  apply wp_return. split; [|left; split; [done|by eexists]].
  split; [by apply loop_inv_world|]. split; [|done]. eapply longer_trans; [exact Hlo|].
  unfold longer. cbn. by rewrite (insert_disk_key _ _ q) by done.
Qed.

Lemma FuzzMain_ok qCur s : loop_inv s → (qCur < length s.(world).(qs).(queue))%nat →
  0 <= list_size →
  wp (FuzzMain cfg map_size list_size sort fuel qCur) (λ _ _, False)
    (λ r s', gave_up s s' ∧
       (r = 0 ∧ marked qCur s' ∨ r = FUZZING_ERROR ∨
        r = FUZZING_SKIP ∧ s'.(world).(qs) = s.(world).(qs) ∧ s'.(submitted) = s.(submitted)))
    (λ _ _, True) s.
Proof.
  intros Hs Hq Hls. unfold FuzzMain. apply wp_bind.
  eapply wp_mono; [by apply skips_ok| |done|done]. intros skip s1 (Hs1&Eq&Ec&Esub).
  assert (gave_up s s1) as Hg1.
  { split; [done|]. unfold longer. by rewrite Eq. }
  apply wp_if; intros _; [apply wp_return; split; [done|right; right; done]|].
  destruct (lookup_lt_is_Some_2 _ _ Hq) as [q Hqq]. rewrite <-Eq in Hqq.
  apply wp_bind. eapply wp_from_option; [exact Hqq|]. apply wp_bind, wp_gets.
  destruct (stored_slice s1.(world) qCur q (li_inv _ Hs1) Hqq) as (b&Hf&Hsl&Hbl&Hb28&Hb).
  rewrite Hf. apply wp_ifd; intros Hl0; [done|]. apply wp_bind. eapply wp_from_option; [exact Hsl|].
  pose proof (zlen_nonneg b) as Hb0. apply wp_bind.
  eapply (wp_mono _ (λ l s', (cfg.(fuzzing_error) = true → bytes list_size l) ∧ gave_up s s') _
    (λ _ _, False) _ (λ _ _, True)); [|..|done|done].
  - apply wp_if; intros Hfe; [|apply wp_mret; split; [congruence|done]]. apply wp_zoom.
    eapply wp_conseq; [apply load_errors_ok; [apply Hs1|done]|]. intros l g' (Hl&->&Hg'). split; [done|].
    split; [by apply loop_inv_world|apply Hg1].
  - intros l s2 [Hl (Hs2&Hlo&Hcy)]. do 2 apply wp_bind, wp_modify.
    eapply wp_mono; [apply (FuzzMain_stages_ok _ _ s
      (set_useful_byte _ (set_filemap b s2)))| |intros r s' [? ?]; tauto|done]; try done; [|lia].
    split; [destruct Hs2; by split|]. split; [done|]. cbn [filemap set_useful_byte set_filemap].
    split; [lia|]. by split.
Qed.

Lemma cull_ok s : loop_inv s →
  wp (call (in_globals (queue_op (CullQueue map_size)))) (λ _ s', loop_inv s' ∧
    disk_key <$> s'.(world).(qs).(queue) = disk_key <$> s.(world).(qs).(queue))
    (λ _ _, False) (λ _ _, True) s.
Proof.
  intros Hs. pose proof (CullQueue_ok Hsize s.(world) (li_inv _ Hs)) as Hc.
  unfold wp, call, in_globals, zoom in Hc |- *.
  destruct (queue_op (CullQueue map_size) s.(world)) as [[] w]; try done;
    destruct Hc as (Hw&Hk&_); (split; [by apply loop_inv_world|done]).
Qed.

(** A valid iterator. *)
Definition iterates s (queueCur : option nat) : Prop :=
  match queueCur with None => True | Some q => (q < length s.(world).(qs).(queue))%nat end.

Lemma exchange_ok st cnt s : loop_inv s → 0 <= list_size →
  wp (exchange cfg map_size list_size st cnt) (λ _ s', loop_inv s' ∧ longer s s')
    (λ _ _, False) (λ _ _, True) s.
Proof.
  intros Hs Hls. assert (longer s s) as Hl by (by unfold longer).
  unfold exchange. apply wp_ifd; intros _; [|done]. apply wp_bind.
  apply wp_ifd; intros _; [|by apply wp_mret, wp_mret]. apply wp_zoom.
  eapply wp_conseq; [by apply SychronizeFuzzer_safe, Hs|].
  intros [] g [Hg [[new Hq] _]]. apply wp_mret. split; [by apply loop_inv_world|].
  unfold longer. cbn. rewrite Hq, fmap_app. by eexists.
Qed.

Lemma turn_ok vars s : loop_inv s → 0 <= list_size →
  iterates s vars.1 → s.(world).(qs).(queue) ≠ [] →
  wp (turn cfg map_size list_size sort fuel vars)
    (λ vars' s', loop_inv s' ∧ longer s s' ∧ iterates s' vars'.1)
    (λ _ _, False) (λ _ _, True) s.
Proof.
  intros Hs Hls Hcur Hne. unfold turn. apply wp_bind.
  eapply wp_mono; [by apply cull_ok| |done|done]. intros _ s1 [Hs1 Hk1]. apply wp_bind.
  assert (length s1.(world).(qs).(queue) = length s.(world).(qs).(queue)) as Hl1
    by (apply (f_equal length) in Hk1; by rewrite !length_fmap in Hk1).
  assert (longer s s1) as Hlo by (unfold longer; by rewrite Hk1).
  eapply (wp_conseq _ (λ q s', loop_inv s' ∧ longer s s' ∧
    ∃ i, q = Some i ∧ (i < length s'.(world).(qs).(queue))%nat)).
  { destruct vars as [[i|] cnt]; cbn [fst] in *.
    - apply wp_mret. split; [done|]. split; [done|]. exists i. cbn in Hcur. split; [done|lia].
    - apply wp_bind, wp_zoom, wp_modify, wp_gets. split; [|split; [done|]].
      + apply loop_inv_world; [done|]. destruct Hs1 as [[Hq Hm Hf Hr Hsy Hun] _ _].
        split; [done|by destruct Hm; split|done..].
      + cbn. destruct (queue (qs (world s))); [done|].
        destruct (queue (qs (world s1))); [done|]. exists 0%nat. split; [done|cbn; lia]. }
  intros q s2 (Hs2&Hl2&i&->&Hq2). apply wp_bind. eapply wp_from_option; [done|]. apply wp_bind, wp_call.
  eapply wp_mono; [by apply FuzzMain_ok|done| |done].
  intros r s3 [(Hs3&Hlo3&_) _]. apply wp_bind, wp_gets, wp_bind.
  eapply wp_conseq; [by apply exchange_ok|]. intros cnt' s4 [Hs4 Hl4]. apply wp_mret.
  split; [done|]. split; [do 2 (eapply longer_trans; [done|]); done|].
  apply longer_length in Hl4. cbn [fst]. case_decide; cbn; [lia|done].
Qed.

Lemma turns_ok n vars s : loop_inv s → 0 <= list_size →
  iterates s vars.1 → s.(world).(qs).(queue) ≠ [] →
  wp (turns cfg map_size list_size sort fuel n vars) (λ _ s', loop_inv s' ∧ longer s s')
    (λ _ _, False) (λ _ _, True) s.
Proof.
  intros Hs Hls. revert vars s Hs. induction n as [|n IH]; intros q s Hs Hq Hne; cbn [turns].
  { apply wp_mret. split; [done|]. by unfold longer. }
  apply wp_bind. eapply wp_conseq; [by apply turn_ok|]. intros q1 s1 (Hs1&Hl1&Hq1).
  assert (s1.(world).(qs).(queue) ≠ []) as Hne1.
  { apply longer_length in Hl1. intros E. rewrite E in Hl1.
    destruct (queue (qs (world s))); [done|cbn in Hl1; lia]. }
  eapply wp_conseq; [by apply IH|]. intros q2 s2 [Hs2 Hl2]. split; [done|]. by eapply longer_trans.
Qed.

(** *** Starting up *)

(** What [init_stats] leaves of the time limits. *)
Definition limits_ok g : Prop :=
  0 <= g.(hang_tmout) <= EXEC_TIMEOUT ∧ g.(timeout_given) ≠ 0.

Lemma init_stats_ok g : inv g →
  wp init_stats (λ _ g', inv g' ∧ limits_ok g' ∧ g'.(qs) = g.(qs) ∧ g'.(files) = g.(files) ∧
      (g.(timeout_given) ≠ 0 → g'.(exec_tmout) = g.(exec_tmout)) ∧
      (g.(timeout_given) = 0 → ∃ a m, g'.(exec_tmout) = derived_tmout a m) ∧
      g'.(hang_tmout) = Z.min EXEC_TIMEOUT (u32 (u32 (g'.(exec_tmout) * 2) + 100)))
    (λ _ _, False) (λ _ _, False) g.
Proof.
  intros Hg. unfold init_stats. do 3 apply wp_bind, wp_gets.
  set (avg := if decide _ then _ else _). apply wp_bind.
  eapply (wp_conseq _ (λ _ g', ∃ d, g' = set_havoc_div d g)).
  { assert (g = set_havoc_div g.(havoc_div) g) as Eg by (by destruct g).
    repeat (apply wp_ifd; intros ?); [eapply wp_modify; eauto..|apply wp_mret; by exists g.(havoc_div)]. }
  intros [] ? [d ->]. apply wp_bind, wp_gets, wp_bind.
  assert (∀ e h t, inv (set_hang_tmout h (set_timeout_given t (set_exec_tmout e (set_havoc_div d g))))) as Hset.
  { intros e h t. destruct Hg as [Hq Hm Hf Hr Hs Hun]. split; [done|by destruct Hm; split|done..]. }
  assert (∀ e, (if decide (EXEC_TIMEOUT < u32 (u32 (e * 2) + 100)) then EXEC_TIMEOUT
    else u32 (u32 (e * 2) + 100)) = Z.min EXEC_TIMEOUT (u32 (u32 (e * 2) + 100))) as Hmin
    by (intros e; case_decide; lia).
  assert (∀ e, 0 <= Z.min EXEC_TIMEOUT (u32 (u32 (e * 2) + 100)) <= EXEC_TIMEOUT) as Hr
    by (intros e; pose proof (u32_range (u32 (e * 2) + 100)) as [? _]; unfold EXEC_TIMEOUT in *; lia).
  apply wp_ifd; intros Hgiven.
  - do 1 apply wp_bind. do 2 apply wp_modify. apply wp_bind, wp_gets, wp_modify. rewrite Hmin. cbn in Hgiven.
    split; [by destruct g; apply Hset|]. split; [by split; [apply Hr|]|]. do 2 (split; [done|]).
    split; [done|]. split; [|done]. intros _. by eexists _, _.
  - apply wp_mret, wp_bind, wp_gets, wp_modify. rewrite Hmin. cbn in Hgiven.
    split; [pose proof (Hset g.(exec_tmout) (Z.min EXEC_TIMEOUT (u32 (u32 (g.(exec_tmout) * 2) + 100))) g.(timeout_given)) as Hi;
      by destruct g|].
    split; [by split; [apply Hr|]|]. do 2 (split; [done|]). done.
Qed.

(** The seeds that [ReadTestcases] makes of the names it has seen. *)
Definition is_case (name : string) : Prop := name ≠ "." ∧ name ≠ "..".
#[export] Instance is_case_dec name : Decision (is_case name).
Proof. unfold is_case. apply _. Defined.

Definition read_seed (f : fs) (e : seed) : Prop :=
  ∃ b, f !! e.(fileName) = Some b ∧ e = new_seed e.(fileName) (zlen b) None None.

Lemma ReadTestcases_ok dir names g : g.(qs).(queue) = [] →
  wp (ReadTestcases dir names)
    (λ _ g', ∃ l, g' = set_qs (set_queue l g.(qs)) g ∧ Forall (read_seed g.(files)) l ∧
       fileName <$> l = String.append dir <$> filter is_case names)
    (λ _ _, False) (λ _ _, True) g.
Proof.
  intros Hq. unfold ReadTestcases.
  eapply wp_conseq; [apply (wp_for_each_done names [] _ (λ d g', ∃ l,
    g' = set_qs (set_queue l g.(qs)) g ∧ Forall (read_seed g.(files)) l ∧
    fileName <$> l = String.append dir <$> filter is_case d))|].
  - exists []. split; [|done]. rewrite <-Hq. destruct g as [[] ]. done.
  - intros d name g1 _ (l&->&Hl&En). unfold read_testcase.
    assert (filter is_case (d ++ [name]) = filter is_case d ++ filter is_case [name]) as Ef
      by apply list.filter_app.
    apply wp_ifd; intros Hd.
    + apply wp_mret. exists l. split; [done|]. split; [done|]. rewrite Ef, filter_cons, decide_False.
      * by rewrite app_nil_r.
      * unfold is_case. tauto.
    + apply wp_bind, wp_gets. cbn [files set_qs]. destruct (_ !! _) as [b|] eqn:Hb; [|done].
      apply wp_zoom, wp_modify. eexists. split; [reflexivity|]. split.
      * apply Forall_app_2; [done|]. constructor; [|done]. by exists b.
      * rewrite Ef, filter_cons, decide_True by (unfold is_case; tauto).
        rewrite !fmap_app. cbn [qs set_qs queue set_queue]. by rewrite En.
  - done.
Qed.

Lemma distinct_files (f : fs) (l : list seed) : NoDup (fileName <$> l) →
  Forall (λ e, is_Some (f !! e.(fileName))) l → zlen l <= Z.of_nat (size f).
Proof.
  intros Hnd Hl. unfold zlen. apply inj_le.
  assert (list_to_set (fileName <$> l) ⊆ dom f) as Hsub.
  { intros k. rewrite elem_of_list_to_set, list_elem_of_fmap. intros (e&->&He).
    apply elem_of_dom. by apply (proj1 (list.Forall_forall _ _) Hl). }
  apply subseteq_size in Hsub. rewrite size_list_to_set in Hsub by done.
  rewrite size_dom, length_fmap in Hsub. done.
Qed.

(** The state in which [main] calls [ReadTestcases]: nothing was counted yet, the
    maps were allocated, and the input files are distinct, small and none of them
    is the test file. *)
Record started (dir : string) (names : list string) s : Prop := Started {
  st_queue : s.(world).(qs).(queue) = [];
  st_maps : maps_ok map_size list_size s.(world);
  st_counts : ∀ k, counts s.(world) k = 0;
  st_sync : sync_ok cfg map_size s.(world);
  st_units : fu_list s.(world) = [];
  st_size : Z.of_nat (size s.(world).(files)) <= 2 ^ 29;
  st_bytes : map_Forall (λ _ b, Forall is_u8 b) s.(world).(files);
  st_small : ∀ name b, s.(world).(files) !! (dir +:+ name) = Some b → zlen b < 2 ^ 28;
  st_names : NoDup names ∧ ∃ name, name ∈ names ∧ is_case name;
  st_testfile : ∀ name, cfg.(testfile) ≠ dir +:+ name;
  st_tokens : s.(autoToken) = [] ∧ s.(pointedToken) = [];
}.

Lemma started_inv dir names s l : started dir names s →
  Forall (read_seed s.(world).(files)) l →
  fileName <$> l = String.append dir <$> filter is_case names →
  inv (set_qs (QState l (replicate (Z.to_nat map_size) None) s.(world).(qs).(pendFavor)
    s.(world).(qs).(scoreChange) s.(world).(qs).(traceRecord)) s.(world)).
Proof.
  intros [Hq Hm Hc Hsy Hu Hsz Hb Hsm [Hnd _] Htf _] Hl En.
  assert (∀ e, e ∈ l → ∃ name b, e.(fileName) = dir +:+ name ∧
    s.(world).(files) !! e.(fileName) = Some b ∧ e = new_seed e.(fileName) (zlen b) None None) as He.
  { intros e He. pose proof (proj1 (list.Forall_forall _ _) Hl e He) as (b&Hf&Ee).
    assert (e.(fileName) ∈ String.append dir <$> filter is_case names) as Hin
      by (rewrite <-En; by apply list_elem_of_fmap_2).
    apply list_elem_of_fmap in Hin as (name&Hn&_). by exists name, b. }
  split.
  - destruct (fresh_queue_inv map_size l) as [Hq1 Hq2 Hq3 Hq4 Hq5]; [lia| |by split].
    intros t e Ht%list_elem_of_lookup_2. destruct (He e Ht) as (name&b&_&_&->). done.
  - by destruct Hm; split.
  - split; [done|]. apply list.Forall_forall. intros e Hin. destruct (He e Hin) as (name&b&Hn&Hf&Ee).
    split; [rewrite Hn; intros E; by apply (Htf name)|]. exists b. split; [done|].
    split; [by rewrite Ee|]. apply (Hsm name). by rewrite <-Hn.
  - split; cbn; try done; [by intros k; rewrite Hc|by rewrite !Hc|].
    unfold numbered. rewrite !Hc. cbn.
    assert (zlen l <= Z.of_nat (size s.(world).(files))); [|lia]. apply distinct_files.
    + rewrite En. apply NoDup_fmap_2; [apply _|]. by apply list.NoDup_filter.
    + apply list.Forall_forall. intros e Hin. destruct (He e Hin) as (_&b&_&Hf&_). by exists b.
  - done.
  - cbn. rewrite Hu. intros i j a b _ Hi. done.
Qed.

(** The loop on a queue that satisfies the invariant once its slots are empty. *)
Lemma main_loop_ok n s : 0 <= list_size →
  inv (set_qs (set_queueTop (replicate (Z.to_nat map_size) None) s.(world).(qs)) s.(world)) →
  s.(autoToken) = [] → s.(pointedToken) = [] → s.(world).(qs).(queue) ≠ [] →
  wp (main_loop cfg map_size list_size sort fuel n)
    (λ _ s', loop_inv s' ∧ ∃ found, fileName <$> s'.(world).(qs).(queue) =
       (fileName <$> s.(world).(qs).(queue)) ++ found)
    (λ _ _, False) (λ _ _, True) s.
Proof.
  intros Hls Hinv Ha Hp Hne. unfold main_loop. apply wp_bind, wp_gets.
  apply wp_bind, wp_zoom, wp_zoom, wp_modify. set (g1 := set_qs (set_queueTop _ _) _) in Hinv.
  apply wp_bind, wp_zoom.
  eapply wp_mono; [apply (DryRunning_ok Hcfg Hsize g1 Hinv)| |done|done]. intros [] g2 (Hg2&Hk2&_).
  apply wp_bind. set (s2 := set_world g2 _).
  assert (loop_inv s2) as Hs2.
  { split; [done|..]; subst s2; cbn; rewrite ?Ha, ?Hp; by split. }
  eapply wp_mono; [by apply cull_ok| |done|done]. intros _ s3 [Hs3 Hk3].
  apply wp_bind, wp_zoom.
  eapply wp_mono; [apply init_stats_ok, Hs3| |done|done]. intros [] g4 (Hg4&_&Hq4&_).
  set (s4 := set_world g4 s3). assert (loop_inv s4) as Hs4 by (by apply loop_inv_world).
  set (l := s.(world).(qs).(queue)) in *.
  assert (disk_key <$> s4.(world).(qs).(queue) = disk_key <$> l) as Hk4.
  { subst s4. cbn [world set_world]. rewrite Hq4, Hk3. exact Hk2. }
  assert (∀ k : list seed, fileName <$> k = fst <$> (disk_key <$> k)) as Hfst
    by (intros k; rewrite <-list_fmap_compose; by apply list_fmap_ext).
  assert (0 < length s4.(world).(qs).(queue))%nat as Hpos.
  { apply (f_equal length) in Hk4. rewrite !length_fmap in Hk4.
    rewrite Hk4. destruct l; [done|cbn; lia]. }
  eapply wp_conseq; [apply turns_ok; [done|done| |]|].
  - cbn. destruct l; [done|]. exact Hpos.
  - intros E. rewrite E in Hpos. cbn in Hpos. lia.
  - intros _ s5 [Hs5 [k Hk5]]. split; [done|]. exists (fst <$> k).
    rewrite Hfst, Hk5, Hk4, fmap_app, <-Hfst. done.
Qed.

(** At least one seed is read. *)
Lemma seeds_found names dir (l : list seed) : (∃ name, name ∈ names ∧ is_case name) →
  fileName <$> l = String.append dir <$> filter is_case names → l ≠ [].
Proof.
  intros (name&Hin&Hcase) En ->.
  assert (name ∈ filter is_case names) as Hf by (by apply list_elem_of_filter).
  destruct (filter is_case names); [by apply elem_of_nil in Hf|done].
Qed.

(** The fuzzer, from [ReadTestcases] to any number of turns of the loop of [main], on
    any target: it is never undefined and none of its loops runs for ever; as long as
    it does not exit, every file that [ReadTestcases] found is a seed, in order, and
    the invariant holds: the slots of the queue belong to the seeds they name, the file
    of each seed holds its input, and every number that was given to a crash or a hang
    has its file.  This assumes a group ([sync_ok]), at least one input file, and a
    [rand] that does not give one index [fuel] times in a row. *)
Theorem main_safe dir names n s : started dir names s → 0 <= list_size →
  wp (main cfg map_size list_size sort fuel dir names n)
    (λ _ s', loop_inv s' ∧ ∃ found, fileName <$> s'.(world).(qs).(queue) =
       (String.append dir <$> filter is_case names) ++ found)
    (λ _ _, False) (λ _ _, True) s.
Proof.
  intros Hst Hls. unfold main. apply wp_bind, wp_zoom.
  eapply wp_mono; [apply ReadTestcases_ok, Hst| |done|done]. intros [] ? (l&->&Hl&En).
  destruct (st_tokens _ _ _ Hst) as [Ha Hp].
  eapply wp_conseq; [apply main_loop_ok; [done| |done|done|]|].
  - exact (started_inv dir names s l Hst Hl En).
  - eapply seeds_found; [apply (st_names _ _ _ Hst)|exact En].
  - cbn. rewrite En. done.
Qed.
End loop.

(** ** The demonstration fuzzer *)

Lemma demo_fair cfg g n q : 2 <= n < 2 ^ 32 →
  @draws_other globals (@fuzzer_target demo_env cfg 8 8) 3 n q g.
Proof.
  intros Hn.
  assert (∀ fuel d g, g.(draws) = d →
    draws_other fuel n q (Ticking (Z.of_nat d mod 2 ^ 31) []) →
    @draws_other globals (@fuzzer_target demo_env cfg 8 8) fuel n q g) as Hsame.
  { intros fuel. induction fuel as [|fuel IH]; intros d g' Hd; [done|].
    cbn [draws_other Stages.rand fuzzer_target ticking_target rand_at demo_env tick].
    rewrite Hd. intros [Hr|Hr]; [by left|right]. apply (IH (S d)); [by rewrite <-Hd|].
    rewrite Nat2Z.inj_succ, <-Z.add_1_r, <-Zplus_mod_idemp_l. exact Hr. }
  apply (Hsame 3%nat g.(draws)); [done|]. apply ticking_fair; [|done].
  split; [apply Z.mod_pos_bound; lia|]. by split; [constructor|].
Qed.

Definition demo_start : fuzz globals :=
  Fuzz [] 0 [] [] [] [] (set_qs (fresh_queue 8 []) demo_globals).

Lemma demo_started : @started demo_cfg 8 8 "in/" ["."; "a"; ".."] demo_start.
Proof.
  destruct demo_inv as [_ Hm _ _ Hs _]. split.
  - done.
  - by destruct Hm; split.
  - done.
  - exact Hs.
  - done.
  - vm_compute. discriminate.
  - apply (bool_decide_unpack _). vm_compute. exact I.
  - intros name b Hb.
    assert (map_Forall (λ _ b, zlen b < 2 ^ 28) demo_files) as Hall
      by (apply (bool_decide_unpack _); vm_compute; exact I).
    exact (Hall _ _ Hb).
  - split; [apply (bool_decide_unpack _); vm_compute; exact I|].
    exists "a". split; [|by split]. by apply list_elem_of_further, list_elem_of_here.
  - intros name. cbn. discriminate.
  - done.
Qed.

Lemma main_safe_witness :
  wp (@main demo_env demo_group demo_cfg 8 8 (λ _ l, l) 3 "in/" ["."; "a"; ".."] 2)
    (λ _ s', @loop_inv demo_cfg 8 8 s' ∧ ∃ found, fileName <$> s'.(world).(qs).(queue) =
       (String.append "in/" <$> filter is_case ["."; "a"; ".."]) ++ found)
    (λ _ _, False) (λ _ _, True) demo_start.
Proof.
  apply (@main_safe demo_env demo_group demo_group_ok demo_cfg 8 8 demo_env_ok (λ _ l, l) 3
    demo_cfg_ok demo_size).
  - intros g n q _ Hn. by apply demo_fair.
  - apply demo_started.
  - lia.
Defined.
