(* ===== verification/Options.v ===== *)
(** * The command line of the fuzzer

    [fuzz/fuzzer/old/Main.cpp], the first half of [Init]: the loop over [getopt] and
    the [switch] on what it gives.  [getopt] is the one of the GNU C library, for the
    option string of [Init] (a leading [+]: the scan ends at the first argument that
    is not an option).  The theorems: the loop ends, and a command line that is
    written option by option is read back as those options, in their order. *)

From Stdlib Require Import Ascii.
From S2P Require Import Prelude.
From S2P Require Import Decimal.
From S2P Require Import Sync.

(** ** [getopt] *)

(** The option letters of ["+f:i:o:M:S:p:bl:"], and whether an argument follows. *)
Definition takes_argument (c : ascii) : option bool :=
  if decide (c ∈ ["f"; "i"; "o"; "M"; "S"; "p"; "l"]%char) then Some true
  else if decide (c = "b"%char) then Some false
  else None.

(** [optind], and what is left of the group of letters that is being read. *)
Record scanner := Scanner { optind : nat; nextchar : string }.

(** The next letter: the rest of the group, or a new group; [inr] when the options
    are over. *)
Definition next_group (argv : list string) (s : scanner) : string + scanner :=
  match s.(nextchar) with
  | String _ _ => inl s.(nextchar)
  | EmptyString =>
      match argv !! s.(optind) with
      | None => inr s
      | Some a =>
          if decide (a = "--") then inr (Scanner (S s.(optind)) EmptyString) else
          match a with
          | String "-"%char (String c t) => inl (String c t)
          | _ => inr s
          end
      end
  end.

(** [None] is [-1]; the second component is [optarg].  ["?"] stands for an unknown
    letter and for a missing argument. *)
Definition getopt (argv : list string) (s : scanner) : option (ascii * string) * scanner :=
  match next_group argv s with
  | inr s' => (None, s')
  | inl EmptyString => (None, s)
  | inl (String c t) =>
      let optind := if decide (t = EmptyString) then S s.(optind) else s.(optind) in
      match takes_argument c with
      | None => (Some ("?"%char, EmptyString), Scanner optind t)
      | Some false => (Some (c, EmptyString), Scanner optind t)
      | Some true =>
          if decide (t = EmptyString) then
            match argv !! optind with
            | None => (Some ("?"%char, EmptyString), Scanner optind EmptyString)
            | Some a => (Some (c, a), Scanner (S optind) EmptyString)
            end
          else (Some (c, t), Scanner (S optind) EmptyString)
      end
  end.

(** ** The options of the fuzzer *)

Record options := Options {
  o_testfile : string;
  o_inputDir : string;
  o_outputDir : string;
  o_sync_id : string;
  o_sync_state : string;
  o_branch : bool;
}.
Definition no_options : options := Options "" "" "" "" "" false.

Definition set_testfile x o := Options x o.(o_inputDir) o.(o_outputDir) o.(o_sync_id) o.(o_sync_state) o.(o_branch).
Definition set_inputDir x o := Options o.(o_testfile) x o.(o_outputDir) o.(o_sync_id) o.(o_sync_state) o.(o_branch).
Definition set_outputDir x o := Options o.(o_testfile) o.(o_inputDir) x o.(o_sync_id) o.(o_sync_state) o.(o_branch).
Definition set_sync x y o := Options o.(o_testfile) o.(o_inputDir) o.(o_outputDir) x y o.(o_branch).
Definition set_branch x o := Options o.(o_testfile) o.(o_inputDir) o.(o_outputDir) o.(o_sync_id) o.(o_sync_state) x.

(** An option that is given once.  The test is for an empty value, so that an
    empty one may be given again. *)
Definition once (get : options → string) (m : proc options unit) : proc options unit :=
  v ← gets get; if decide (v ≠ EmptyString) then exit_ (-1) else m.

(** [dir = optarg; if (dir.back() != '/') dir += '/';] *)
Definition set_directory (set : string → options → options) (optarg : string) : proc options unit :=
  d ← from_option (λ _, with_slash optarg); modify (set d).

(** The [switch]; the build defines neither a password nor a license. *)
Definition apply_option (c : ascii) (optarg : string) : proc options unit :=
  match c with
  | "f"%char => once o_testfile (modify (set_testfile optarg))
  | "i"%char => once o_inputDir (set_directory set_inputDir optarg)
  | "o"%char => once o_outputDir (set_directory set_outputDir optarg)
  | "M"%char => once o_sync_id (modify (set_sync optarg "MASTER"))
  | "S"%char => once o_sync_id (modify (set_sync optarg "SLAVE"))
  | "b"%char => modify (set_branch true)
  | "p"%char | "l"%char => mret tt
  | _ => exit_ (-1)
  end.

(** The loop; its result is [optind]. *)
Fixpoint scan_options (fuel : nat) (argv : list string) (s : scanner) : proc options nat :=
  match getopt argv s with
  | (None, s') => mret s'.(optind)
  | (Some (c, optarg), s') =>
      match fuel with
      | O => diverge
      | S fuel' => apply_option c optarg ;; scan_options fuel' argv s'
      end
  end.

(** Every round consumes a letter. *)
Definition letters (l : list string) : nat := sum_list (String.length <$> l).
Definition read_options (argv : list string) : proc options nat :=
  scan_options (letters argv) argv (Scanner 1 EmptyString).

(** ** The loop ends *)

(** The letters that are still to be read. *)
Definition remaining (argv : list string) (s : scanner) : nat :=
  match s.(nextchar) with
  | EmptyString => letters (drop s.(optind) argv)
  | t => String.length t + letters (drop (S s.(optind)) argv)
  end.

Lemma letters_drop argv i a : argv !! i = Some a →
  letters (drop i argv) = (String.length a + letters (drop (S i) argv))%nat.
Proof. intros Ha. by rewrite (drop_S argv a i Ha). Qed.

Lemma letters_drop_S argv i : (letters (drop (S i) argv) <= letters (drop i argv))%nat.
Proof.
  destruct (argv !! i) as [a|] eqn:Ha; [rewrite (letters_drop argv i a Ha); lia|].
  apply lookup_ge_None in Ha. rewrite !drop_ge by lia. done.
Qed.

Lemma letters_app l k : letters (l ++ k) = (letters l + letters k)%nat.
Proof. unfold letters. rewrite fmap_app. induction l as [|x l IH]; [done|]. cbn in *. lia. Qed.

Lemma next_group_spec argv s c t : next_group argv s = inl (String c t) →
  s.(nextchar) = String c t ∨
  s.(nextchar) = EmptyString ∧ argv !! s.(optind) = Some (String "-" (String c t)).
Proof.
  unfold next_group. destruct s as [i [|c' t']]; cbn; [|intros [= -> ->]; by left].
  destruct (argv !! i) as [a|] eqn:Ha; [|done]. case_decide; [done|].
  intros Hg. right. split; [done|]. f_equal.
  destruct a as [|d [|c1 t1]]; [done|by destruct d as [[] [] [] [] [] [] [] []]|].
  destruct d as [[] [] [] [] [] [] [] []]; try discriminate Hg. by injection Hg as -> ->.
Qed.

(** A group that is being read lies inside of [argv]. *)
Definition scanning (argv : list string) (s : scanner) : Prop :=
  (1 <= s.(optind) <= length argv)%nat ∧
  (s.(nextchar) ≠ EmptyString → (s.(optind) < length argv)%nat).

Lemma remaining_group argv s c t : next_group argv s = inl (String c t) →
  (String.length t + letters (drop (S s.(optind)) argv) < remaining argv s)%nat.
Proof.
  intros [Hn|[Hn Ha]]%next_group_spec; unfold remaining; rewrite Hn; [cbn; lia|].
  rewrite (letters_drop argv _ _ Ha). cbn [String.length]. lia.
Qed.

(** What [getopt] gives: it consumes letters, and an argument is a non-empty
    rest of a group or the next string. *)
Lemma getopt_step argv s x s' : scanning argv s → getopt argv s = (Some x, s') →
  (remaining argv s' < remaining argv s)%nat ∧ scanning argv s' ∧
  (takes_argument x.1 = Some true → x.2 ≠ EmptyString ∨ x.2 ∈ argv) ∧
  (takes_argument x.1 = None → x.1 = "?"%char).
Proof.
  unfold getopt. intros [Hi Hn] E. destruct (next_group argv s) as [[|c t]|s1] eqn:Hg; try done.
  pose proof (remaining_group argv s c t Hg) as Hr.
  assert (s.(optind) < length argv)%nat as Hlt.
  { apply next_group_spec in Hg as [E1|[_ Ha]]; [apply Hn; by rewrite E1|by apply lookup_lt_Some in Ha]. }
  set (i := if decide (t = EmptyString) then S s.(optind) else s.(optind)) in E.
  assert (remaining argv (Scanner i t) = String.length t + letters (drop (S s.(optind)) argv))%nat as Hg2.
  { unfold remaining, i. cbn. by destruct t. }
  assert (scanning argv (Scanner i t)) as Hs.
  { unfold scanning, i. cbn. case_decide; [|split; [|intros _]; lia]. subst t. split; [lia|done]. }
  destruct (takes_argument c) as [[]|] eqn:Hc.
  - destruct (decide (t = EmptyString)) as [->|Ht].
    + subst i. destruct (argv !! S s.(optind)) as [a|] eqn:Ha; injection E as <- <-.
      * pose proof (lookup_lt_Some _ _ _ Ha). pose proof (letters_drop_S argv (S s.(optind))).
        change (remaining argv (Scanner ?i EmptyString)) with (letters (drop i argv)).
        split; [lia|]. split; [split; cbn [optind nextchar]; [lia|done]|].
        split; [intros _; right; by eapply list_elem_of_lookup_2|cbn; by rewrite Hc].
      * split; [by rewrite Hg2|]. split; [done|]. by split.
    + injection E as <- <-. change (remaining argv (Scanner ?i EmptyString)) with (letters (drop i argv)).
      cbn [fst snd]. split; [subst i; lia|]. split; [unfold scanning, i; cbn; split; [lia|done]|].
      split; [by left|by rewrite Hc].
  - injection E as <- <-. rewrite Hg2. split; [done|]. split; [done|]. cbn. by rewrite Hc.
  - injection E as <- <-. rewrite Hg2. split; [done|]. split; [done|]. by split.
Qed.

Lemma getopt_end argv s s' : scanning argv s → getopt argv s = (None, s') →
  (1 <= s'.(optind) <= length argv)%nat.
Proof.
  unfold getopt, next_group. intros [Hi Hn] E. destruct s as [i [|c t]]; cbn in *.
  - destruct (argv !! i) as [a|] eqn:Ha; [|injection E as <-; done].
    pose proof (lookup_lt_Some _ _ _ Ha).
    case_decide; [injection E as <-; cbn; lia|].
    destruct a as [|d [|c1 t1]]; [by injection E as <-| |];
      destruct d as [[] [] [] [] [] [] [] []]; try (by injection E as <-);
      repeat first [case_decide|destruct (takes_argument _) as [[]|]|destruct (argv !! _)]; discriminate E.
  - repeat first [case_decide|destruct (takes_argument _) as [[]|]|destruct (argv !! _)]; discriminate E.
Qed.

(** ** The values of the options *)

(** A directory name is empty, when it was not given, or ends with its slash. *)
Definition directory (d : string) : Prop := d = EmptyString ∨ back d = Some "/"%char.
Definition options_ok (o : options) : Prop := directory o.(o_inputDir) ∧ directory o.(o_outputDir).

Lemma get_append_r s t n : String.get (String.length s + n) (s +:+ t) = String.get n t.
Proof. induction s as [|c s IH]; [done|]. exact IH. Qed.

Lemma back_app s c : back (s +:+ String c EmptyString) = Some c.
Proof.
  unfold back. rewrite length_append. cbn [String.length].
  replace (String.length s + 1 - 1)%nat with (String.length s + 0)%nat by lia.
  rewrite get_append_r. by destruct s.
Qed.

Lemma back_nonempty s : s ≠ EmptyString → is_Some (back s).
Proof.
  intros Hs. assert (∀ s c, is_Some (String.get (String.length s) (String c s))) as Hg.
  { clear. induction s as [|c' s IH]; intros c; [by eexists|]. exact (IH c'). }
  destruct s as [|c s]; [done|]. unfold back. cbn [String.length]. rewrite Nat.sub_succ, Nat.sub_0_r. apply Hg.
Qed.

Lemma with_slash_ok s : s ≠ EmptyString → ∃ d, with_slash s = Some d ∧ back d = Some "/"%char.
Proof.
  intros [c Hc]%back_nonempty. unfold with_slash. rewrite Hc. cbn. case_decide as Hd.
  - exists s. by subst c.
  - exists (s +:+ "/"). split; [done|]. apply back_app.
Qed.

Lemma set_directory_ok set a (P : options → Prop) o : a ≠ EmptyString →
  (∀ d, back d = Some "/"%char → P (set d o)) →
  wp (set_directory set a) (λ _, P) (λ _ _, False) (λ c _, c = -1) o.
Proof.
  intros Ha HP. unfold set_directory. wp_step. destruct (with_slash_ok a Ha) as (d&E&Hd).
  eapply wp_from_option; [exact E|]. wp_step. by apply HP.
Qed.

Lemma once_ok get m (P : options → Prop) o :
  wp m (λ _, P) (λ _ _, False) (λ c _, c = -1) o →
  wp (once get m) (λ _, P) (λ _ _, False) (λ c _, c = -1) o.
Proof. intros Hm. unfold once. by wp_steps. Qed.

Lemma apply_option_ok c a o : (takes_argument c = Some true → a ≠ EmptyString) → options_ok o →
  wp (apply_option c a) (λ _, options_ok) (λ _ _, False) (λ c _, c = -1) o.
Proof.
  intros Ha [Hi Ho]. destruct c as [[] [] [] [] [] [] [] []]; cbn [apply_option];
    try (by apply wp_exit); try (by apply wp_mret); try (by apply wp_modify);
    apply once_ok; try (by apply wp_modify).
  all: apply set_directory_ok; [by apply Ha|]; intros d Hd; split; cbn; first [done|by right].
Qed.

Lemma scan_options_ok fuel argv s o : Forall (λ a, a ≠ EmptyString) argv → options_ok o →
  scanning argv s → (remaining argv s <= fuel)%nat →
  wp (scan_options fuel argv s) (λ i o', (1 <= i <= length argv)%nat ∧ options_ok o')
    (λ _ _, False) (λ c _, c = -1) o.
Proof.
  intros Hne. revert s o. induction fuel as [|fuel IH]; intros s o Ho Hs Hr; cbn [scan_options];
    destruct (getopt argv s) as [[[c a]|] s'] eqn:E.
  - apply getopt_step in E as [? _]; [lia|done].
  - wp_step. split; [by eapply getopt_end|done].
  - destruct (getopt_step argv s _ s' Hs E) as (Hlt&Hs'&Ha&_). cbn [fst snd] in Ha.
    apply wp_bind. eapply wp_conseq; [apply apply_option_ok; [|exact Ho]|].
    + intros Ht. destruct (Ha Ht) as [?|Hin]; [done|]. by apply (proj1 (list.Forall_forall _ _) Hne).
    + intros [] o' Ho'. apply IH; [done|done|lia].
  - wp_step. split; [by eapply getopt_end|done].
Qed.

Lemma read_options_ok argv o :
  Forall (λ a, a ≠ EmptyString) argv → argv ≠ [] → options_ok o →
  wp (read_options argv) (λ i o', (1 <= i <= length argv)%nat ∧ options_ok o')
    (λ _ _, False) (λ c _, c = -1) o.
Proof.
  intros Hne Hn Ho. apply scan_options_ok; [done|done| |].
  - split; [|done]. cbn. destruct argv; [done|cbn; lia].
  - unfold remaining. cbn [nextchar optind]. destruct argv as [|p argv]; [done|].
    change (p :: argv) with ([p] ++ argv). rewrite letters_app. change (drop 1 ([p] ++ argv)) with argv. lia.
Qed.

(** The loop over the options ends on every command line: each round reads at
    least one letter.  When no argument is empty it is not undefined either; it
    leaves [optind] at an argument or at the final null pointer, and directory names
    that were given end with a slash.  The only exit is the one of a wrong option. *)
Theorem read_options_total argv o :
  Forall (λ a, a ≠ EmptyString) argv → argv ≠ [] → options_ok o →
  wp (read_options argv) (λ i o', (1 <= i <= length argv)%nat ∧ options_ok o')
    (λ _ _, False) (λ c _, c = -1) o.
Proof. exact (read_options_ok argv o). Qed.

(** ** A written command line is read back *)

Definition letter (c : ascii) : string := String "-" (String c EmptyString).

(** An option with its argument, as two strings of the command line. *)
Definition render (x : ascii * string) : list string :=
  match takes_argument x.1 with Some true => [letter x.1; x.2] | _ => [letter x.1] end.

Definition apply_all (l : list (ascii * string)) : proc options unit :=
  for_each l (λ x, apply_option x.1 x.2).

(** An argument at which the scan stops: the target program. *)
Definition operand (a : string) : Prop :=
  match a with String "-"%char (String _ _) => False | _ => True end.

Lemma proc_bind_assoc {S A B C} (m : proc S A) (f : A → proc S B) (g : B → proc S C) s :
  ((m ≫= f) ≫= g) s = (m ≫= (λ a, f a ≫= g)) s.
Proof. unfold mbind, proc_bind. by destruct (m s) as [[] ?]. Qed.

Lemma getopt_letter argv i x : argv !! i = Some (letter x.1) → is_Some (takes_argument x.1) →
  (takes_argument x.1 = Some true → argv !! S i = Some x.2) →
  (takes_argument x.1 = Some false → x.2 = EmptyString) →
  getopt argv (Scanner i EmptyString) = (Some x, Scanner (i + length (render x)) EmptyString).
Proof.
  destruct x as [c a]. cbn [fst snd]. intros Hi [b Hb] Ht Hf. unfold getopt, next_group, render. cbn [nextchar optind fst snd].
  rewrite Hi. assert (letter c ≠ "--") as Hdash.
  { intros E. injection E as ->. vm_compute in Hb. discriminate. }
  rewrite decide_False by done. cbn [letter]. rewrite Hb, !decide_True by done.
  destruct b; cbn [length].
  - rewrite Ht by done. do 2 f_equal. lia.
  - rewrite Hf by done. do 2 f_equal. lia.
Qed.

Lemma getopt_operand argv i a : argv !! i = Some a → operand a →
  getopt argv (Scanner i EmptyString) = (None, Scanner i EmptyString).
Proof.
  intros Hi Ho. unfold getopt, next_group. cbn [nextchar optind]. rewrite Hi.
  case_decide as Hd; [by subst a|].
  destruct a as [|d [|c t]]; [done|by destruct d as [[] [] [] [] [] [] [] []]|].
  by destruct d as [[] [] [] [] [] [] [] []].
Qed.

Lemma scan_rendered l argv fuel k rest target o :
  Forall (λ x, is_Some (takes_argument x.1) ∧ (takes_argument x.1 = Some false → x.2 = EmptyString)) l →
  drop k argv = concat (render <$> l) ++ target :: rest → operand target → (length l <= fuel)%nat →
  scan_options fuel argv (Scanner k EmptyString) o =
  (apply_all l ;; mret (k + length (concat (render <$> l)))%nat) o.
Proof.
  intros Hl. revert k fuel o. induction Hl as [|x l [Hx Hf] Hl IH]; intros k fuel o Hd Ht Hfuel.
  - cbn in Hd |- *. assert (argv !! k = Some target) as Hk
      by (rewrite <-(Nat.add_0_r k), <-lookup_drop, Hd; done).
    rewrite Nat.add_0_r. destruct fuel; cbn [scan_options]; by rewrite (getopt_operand _ _ _ Hk Ht).
  - destruct fuel as [|fuel]; [cbn in Hfuel; lia|].
    rewrite fmap_cons in Hd. cbn [concat] in Hd. rewrite <-app_assoc in Hd.
    assert (∀ j a, render x !! j = Some a → argv !! (k + j)%nat = Some a) as Hlook.
    { intros j a Hj. rewrite <-lookup_drop, Hd. by apply lookup_app_l_Some. }
    cbn [scan_options]. rewrite (getopt_letter argv k x); [|by rewrite <-(Nat.add_0_r k); apply Hlook; unfold render;
      destruct (takes_argument x.1) as [[]|]| done| |done].
    + cbn [apply_all for_each]. destruct x as [c a]. cbn [fst snd]. rewrite proc_bind_assoc.
      unfold mbind, proc_bind. destruct (apply_option c a o) as [[] o1]; try done.
      rewrite fmap_cons. cbn [concat]. rewrite length_app, Nat.add_assoc. apply IH; [|done|cbn in Hfuel; lia].
      rewrite <-drop_drop, Hd. by rewrite drop_app_length.
    + intros Ha. rewrite <-Nat.add_1_r. apply Hlook. unfold render. by rewrite Ha.
Qed.

Lemma letters_rendered l : (length l <= letters (concat (render <$> l)))%nat.
Proof.
  induction l as [|x l IH]; [done|]. rewrite fmap_cons. cbn [concat length]. rewrite letters_app.
  assert (1 <= letters (render x))%nat; [|lia]. unfold render. destruct (takes_argument x.1) as [[]|]; cbn; lia.
Qed.


Lemma read_options_total_witness :
  wp (read_options ["fuzzer"; "-iseeds"; "-bo"; "out"; "-f"; "in"; "-Mm"; "./target"])
    (λ i o', (1 <= i <= 8)%nat ∧ options_ok o') (λ _ _, False) (λ c _, c = -1) no_options.
Proof.
  apply (read_options_total ["fuzzer"; "-iseeds"; "-bo"; "out"; "-f"; "in"; "-Mm"; "./target"] no_options).
  - by repeat constructor.
  - done.
  - by split; left.
Defined.

