(* ===== verification/Startup.v ===== *)
(** * The start of the fuzzer

    [fuzz/fuzzer/old/Main.cpp] ([MakeDirectory], [Init] and [main] up to its loop) and
    [fuzz/fuzzer/old/ShmMapping.cpp] (the segments of shared memory), composed with the
    loop of [FuzzLoop]: from the command line to the fuzzing of the queue.

    The kernel is the class [Kernel]: whether [mkdir], [shmget], [setenv], [shmat] and
    [open] succeed, and what [system] does to the files.  The build defines
    [NO_CONCURRENCY_FUZZ], so the three matrices are not allocated. *)

From Stdlib Require Import Ascii.
From S2P Require Import Prelude.
From S2P Require Import Decimal.
From S2P Require Import TraceMap.
From S2P Require Import Queue.
From S2P Require Import Faults.
From S2P Require Import Stages.
From S2P Require Import Havoc.
From S2P Require Import Execution.
From S2P Require Import Keeping.
From S2P Require Import Calibration.
From S2P Require Import Found.
From S2P Require Import Sync.
From S2P Require Import FuzzLoop.
From S2P Require Import Options.

(** ** The machine *)

(** Directories by their names without the final slash, files by their names,
    segments of shared memory by their identifiers, and the environment. *)
Record machine := Machine {
  m_dirs : gset string;
  m_files : fs;
  m_segments : gmap Z (list Z);
  m_environ : gmap string string;
}.
Definition set_dirs x m := Machine x m.(m_files) m.(m_segments) m.(m_environ).
Definition set_m_files x m := Machine m.(m_dirs) x m.(m_segments) m.(m_environ).
Definition set_segments x m := Machine m.(m_dirs) m.(m_files) x m.(m_environ).
Definition set_environ x m := Machine m.(m_dirs) m.(m_files) m.(m_segments) x.

(** [system] of a command, the identifier that [shmget] gives ([-1] when it fails),
    the descriptor of [/dev/null], the bytes of an initialised mutex, and whether the
    other calls succeed. *)
Class Kernel := {
  system : string → machine → machine;
  may_mkdir : machine → string → bool;
  may_setenv : machine → string → bool;
  may_attach : machine → Z → bool;
  may_open : machine → string → bool;
  new_segment : machine → Z → Z;
  dev_null_fd : Z;
  pshared_status : Z;
  mutex_image : list Z;
}.

(** A name without its final slashes. *)
Fixpoint strip (s : string) : string :=
  match s with
  | EmptyString => EmptyString
  | String c t =>
      match strip t with
      | EmptyString => if decide (c = "/"%char) then EmptyString else String c EmptyString
      | t' => String c t'
      end
  end.

Section kernel.
Context `{!Kernel}.

(** [stat(name) == 0]; the name that is all slashes is the root. *)
Definition stat (name : string) (m : machine) : bool :=
  bool_decide (name ≠ EmptyString ∧ (strip name = EmptyString ∨ strip name ∈ m.(m_dirs)) ∨
               is_Some (m.(m_files) !! name)).

(** [true] when [mkdir] returns 0. *)
Definition mkdir (name : string) : proc machine bool := λ m,
  if decide (strip name = EmptyString ∨ strip name ∈ m.(m_dirs) ∨
             is_Some (m.(m_files) !! strip name) ∨ may_mkdir m name = false)
  then (Norm false, m)
  else (Norm true, set_dirs ({[strip name]} ∪ m.(m_dirs)) m).

Definition make_folder (folder : string) : proc machine unit :=
  ok ← mkdir folder; if ok : bool then mret tt else exit_ (-1).

Definition subfolders : list string :=
  [""; "queue/"; "hang/"; "crash/"; "errorList/"; "delayList/"; "total_crash/";
   "ex_crash/"; "ex_crash/files"; "ex_crash/errorlists"; "ex_crash/delaylists";
   "ex_hang/"; "ex_hang/files"; "ex_hang/errorlists"; "ex_hang/delaylists"].

(** The folders of a run, in the order they are made. *)
Definition folders (sync_id outputDir : string) : list string :=
  String.append outputDir <$>
    subfolders ++ (if decide (sync_id = EmptyString) then [] else [".synced/"]).

Definition MakeDirectory (sync_id sync_dir outputDir : string) : proc machine unit :=
  there ← gets (stat sync_dir);
  (if decide (sync_id ≠ EmptyString ∧ there = false) then make_folder sync_dir else mret tt) ;;
  there ← gets (stat outputDir);
  when there (modify (system ("rm " +:+ outputDir +:+ " -r"))) ;;
  for_each (folders sync_id outputDir) make_folder.

(** ** Shared memory *)

(** The static identifiers; the last three are never assigned in this build. *)
Record shm := Shm {
  shmId : Z; global_state_shmid : Z; variable_count_shmid : Z; branch_trace_shmid : Z;
  concurrent_function_shmid : Z; concurrent_mutex_shmid : Z; tick_num_shmid : Z;
  error_list_shmId : Z; error_traced_shmId : Z;
  control_matrix_shmid : Z; adjacency_matrix_shmid : Z; travel_matrix_shmid : Z;
}.

Definition shm_fill (id : Z) (content : list Z) : proc machine unit :=
  modify (λ m, set_segments (<[id := content]> m.(m_segments)) m).

(** [shmget]: Linux fills a new segment with zeros. *)
Definition shm_create (mem_size : Z) : proc machine Z :=
  shm_id ← gets (λ m, new_segment m mem_size);
  if decide (shm_id < 0) then exit_ (-1) else
  shm_fill shm_id (replicate (Z.to_nat mem_size) 0) ;; mret shm_id.

(** [shmat] and [memset].  A failure of [shmat] is [(void * )-1], which the test for a
    null pointer does not see: the [memset] goes through it. *)
Definition shm_init (shm_id mem_size byte : Z) : proc machine unit :=
  ok ← gets (λ m, may_attach m shm_id);
  if ok : bool then shm_fill shm_id (replicate (Z.to_nat mem_size) byte) else ub.

(** The pointer that is stored is the segment itself. *)
Definition SingleShmSetup (mem_size : Z) (env_var : string) : proc machine Z :=
  shm_id ← shm_create mem_size;
  ok ← gets (λ m, may_setenv m env_var);
  if negb ok then exit_ (-1) else
  modify (λ m, set_environ (<[env_var := to_string shm_id]> m.(m_environ)) m) ;;
  shm_init shm_id mem_size 0 ;;
  mret shm_id.

Definition SIZEOF_U64 : Z := 8.
Definition SIZEOF_MUTEX : Z := 40.
Definition SHM_ENV_VAR : string := "AFLCplusplus_SHM_ID".
Definition GLOBAL_STATE_ENV_VAR : string := "AFLCplusplus_GLOBAL_STATE_SHM_ID".
Definition VARIABLE_COUNT_SHM_ENV_VAR : string := "AFLCplusplus_VARIABLE_COUNT_SHMD_ID".
Definition BRANCH_TRACE_SHM_ENV_VAR : string := "AFLCplusplus_BRANCH_TRACE_SHM_ID".
Definition CONCURRENT_FUNCTION_SHM_ENV_VAR : string := "AFLCplusplus_CONCURRENT_FUNCTION_SHMD_ID".
Definition CONCURRENT_MUTEX_SHM_ENV_VAR : string := "AFLCplusplus_CONCURRENT_MUTEX_SHMD_ID".
Definition TICK_NUM_SHM_ENV_VAR : string := "AFLCplusplus_TICK_NUM_SHMD_ID".
Definition ERROR_LIST_SHM_ENV_VAR : string := "AFLCplusplus_ERROR_LIST_SHM_ID".
Definition ERROR_TRACED_SHM_ENV_VAR : string := "AFLCplusplus_ERROR_TRACED_SHM_ID".

Definition ShmSetup (map_size list_size : Z) : proc machine shm :=
  trace ← SingleShmSetup map_size SHM_ENV_VAR;
  state ← SingleShmSetup map_size GLOBAL_STATE_ENV_VAR;
  variable ← SingleShmSetup SIZEOF_U64 VARIABLE_COUNT_SHM_ENV_VAR;
  branch ← SingleShmSetup map_size BRANCH_TRACE_SHM_ENV_VAR;
  functions ← SingleShmSetup SIZEOF_U64 CONCURRENT_FUNCTION_SHM_ENV_VAR;
  mutex ← SingleShmSetup SIZEOF_MUTEX CONCURRENT_MUTEX_SHM_ENV_VAR;
  if decide (pshared_status ≠ 0) then exit_ (-1) else
  shm_fill mutex mutex_image ;;
  tick ← SingleShmSetup SIZEOF_U64 TICK_NUM_SHM_ENV_VAR;
  errors ← SingleShmSetup list_size ERROR_LIST_SHM_ENV_VAR;
  traced ← SingleShmSetup list_size ERROR_TRACED_SHM_ENV_VAR;
  mret (Shm trace state variable branch functions mutex tick errors traced 0 0 0).

(** [shmctl(id, IPC_RMID, nullptr)]; its result is ignored. *)
Definition shm_remove (id : Z) : proc machine unit :=
  modify (λ m, set_segments (delete id m.(m_segments)) m).
Definition ShmRemove (s : shm) : proc machine unit :=
  for_each [s.(shmId); s.(error_list_shmId); s.(error_traced_shmId);
            s.(control_matrix_shmid); s.(adjacency_matrix_shmid); s.(travel_matrix_shmid);
            s.(global_state_shmid); s.(variable_count_shmid); s.(branch_trace_shmid);
            s.(concurrent_function_shmid); s.(tick_num_shmid); s.(concurrent_mutex_shmid)]
    shm_remove.

(** A file that is written through an [ofstream]: nothing happens when it cannot be
    opened. *)
Definition write_text (name text : string) : proc machine unit :=
  ok ← gets (λ m, may_open m name);
  when ok (modify (λ m, set_m_files (<[name := bytes_of_string text]> m.(m_files)) m)).

Definition multi_proc_shm_create (shm_file : string) (mem_size : Z) : proc machine Z :=
  shm_id ← shm_create mem_size;
  write_text shm_file (to_string shm_id) ;;
  shm_init shm_id mem_size 255 ;;
  mret shm_id.

(** [infile >> shm_str]: the first word. *)
Fixpoint until_space (s : string) : string :=
  match s with
  | String c t => if is_space c then EmptyString else String c (until_space t)
  | EmptyString => EmptyString
  end.
Definition first_word (s : string) : string := until_space (skip_spaces s).

(** [None]: [shmat] has failed, and its result is used without a test. *)
Definition multi_proc_shm_get (shm_file : string) : proc machine (option Z) :=
  content ← gets (λ m, default [] (m.(m_files) !! shm_file));
  match stoi (first_word (string_of_bytes content)) with
  | None => exit_ ABORTED
  | Some shm_id =>
      gets (λ m, if decide (is_Some (m.(m_segments) !! shm_id) ∧ may_attach m shm_id = true)
                 then Some shm_id else None)
  end.

(** ** [Init] *)

(** The globals that [Init] assigns, and the machine. *)
Record process := Process {
  p_options : options;
  sync_dir : string;
  target_path : string;
  p_machine : machine;
}.
Definition set_p_options x p := Process x p.(sync_dir) p.(target_path) p.(p_machine).
Definition set_sync_dir x p := Process p.(p_options) x p.(target_path) p.(p_machine).
Definition set_target x p := Process p.(p_options) p.(sync_dir) x p.(p_machine).
Definition set_machine x p := Process p.(p_options) p.(sync_dir) p.(target_path) x.
Definition on_machine {A} (m : proc machine A) : proc process A := zoom p_machine set_machine m.

Definition fix_up : proc process unit :=
  o ← gets p_options;
  if decide (o.(o_sync_id) = EmptyString) then mret tt else
  d ← from_option (λ _, fix_up_sync o.(o_sync_id) o.(o_outputDir));
  modify (set_sync_dir d.1) ;;
  modify (λ p, set_p_options (set_outputDir d.2 p.(p_options)) p).

(** [string(NULL)], when there is no argument left for the target, is undefined. *)
Definition Init (argv : list string) : proc process nat :=
  if decide (zlen argv < 8) then exit_ (-1) else
  optind ← zoom p_options set_p_options (read_options argv);
  target ← from_option (λ _, argv !! optind);
  modify (set_target target) ;;
  fix_up ;;
  if decide (dev_null_fd < 0) then exit_ (-1) else
  p ← gets id;
  on_machine (MakeDirectory p.(p_options).(o_sync_id) p.(sync_dir) p.(p_options).(o_outputDir)) ;;
  mret optind.

(** ** [main] *)

Definition sync_file_name : string := "sync_file".
Definition sync_branch_cov_file_name : string := "sync_branch_cov_file".

(** The two shared coverage maps of a group, lines 471-490; [sync_cov] is 1. *)
Definition share_coverage (o : options) (sync_cov_length : Z)
    : proc machine (option Z * option Z) :=
  if decide (o.(o_sync_id) = EmptyString) then mret (None, None) else
  p ← (if decide (o.(o_sync_state) = "MASTER") then
         a ← multi_proc_shm_create sync_file_name sync_cov_length;
         b ← multi_proc_shm_create sync_branch_cov_file_name sync_cov_length;
         mret (Some a, Some b)
       else
         a ← multi_proc_shm_get sync_file_name;
         b ← multi_proc_shm_get sync_branch_cov_file_name;
         mret (a, b));
  there ← gets (λ m, bool_decide (is_Some (m.(m_files) !! file_lock)));
  when (negb there) (write_text file_lock "file_lock") ;;
  mret p.
End kernel.

Definition segment (m : machine) (id : Z) : list Z := default [] (m.(m_segments) !! id).

(** The globals after [Init] and [ShmSetup]: the initial values of the source, the
    maps that [Init] fills with 255, and the shared memory. *)
Definition boot (map_size : Z) (ids : shm) (m : machine) : globals :=
  Globals (fresh_queue map_size []) (segment m ids.(shmId)) (segment m ids.(branch_trace_shmid))
    (segment m ids.(error_traced_shmId)) (replicate (Z.to_nat map_size) 255)
    (replicate (Z.to_nat map_size) 255) (segment m ids.(error_list_shmId))
    (replicate (Z.to_nat map_size) false) (replicate (Z.to_nat map_size) false) []
    (λ _, 0) false 0 EXEC_TIMEOUT EXEC_TIMEOUT 1 1 0 0 None m.(m_files) 0 0 0 ∅
    (ShmCounters (le_load (segment m ids.(variable_count_shmid)))
      (le_load (segment m ids.(concurrent_function_shmid))) (le_load (segment m ids.(tick_num_shmid)))).

Definition config_of (fuzzing_error : bool) (o : options) : config :=
  Config o.(o_outputDir) o.(o_testfile) o.(o_branch) 1 o.(o_sync_state) fuzzing_error o.(o_sync_id).

(** The pointers to the shared maps; none of them is valid unless both are. *)
Definition shared_maps (m : machine) (p : option Z * option Z) : option (list Z * list Z) :=
  a ← p.1; b ← p.2; c ← m.(m_segments) !! a; d ← m.(m_segments) !! b; Some (c, d).

(** The process, and the part of it that the loop works on. *)
Record program := Program { p_process : process; p_fuzz : fuzz globals }.
Definition set_process x (p : program) := Program x p.(p_fuzz).
Definition set_fuzz x (p : program) := Program p.(p_process) x.

(** The whole [main], for [n] turns of its loop; [names] is what [readdir] enumerates
    in the input directory.  Both parts see one file system: the start hands its files
    over before [ReadTestcases], which only reads, and again before the loop. *)
Definition fuzzer_main `{!Kernel} `{!Env} `{!Group} (fuzzing_error : bool) (map_size list_size : Z)
    (sort : (list Z * Z → list Z * Z → bool) → list (list Z * Z) → list (list Z * Z)) (fuel : nat)
    (argv names : list string) (n : nat) : proc program (option nat * Z) :=
  _ ← zoom p_process set_process (Init argv);
  ids ← zoom p_process set_process (on_machine (ShmSetup map_size list_size));
  o ← gets (λ p, p.(p_process).(p_options));
  let cfg := config_of fuzzing_error o in
  modify (λ p, set_fuzz (Fuzz [] 0 [] [] [] [] (boot map_size ids p.(p_process).(p_machine))) p) ;;
  zoom p_fuzz set_fuzz (in_globals (ReadTestcases o.(o_inputDir) names)) ;;
  ptrs ← zoom p_process set_process (on_machine (share_coverage o map_size));
  modify (λ p, let m := p.(p_process).(p_machine) in
    set_fuzz (set_world (set_sync_cov_ptr (shared_maps m ptrs)
      (set_files m.(m_files) p.(p_fuzz).(world))) p.(p_fuzz)) p) ;;
  zoom p_fuzz set_fuzz (main_loop cfg map_size list_size sort fuel n).

(** ** What is expected of the kernel *)

(** The directory of a file exists. *)
Definition tree_ok (m : machine) : Prop := ∀ name p r, is_Some (m.(m_files) !! name) →
  name = p +:+ "/" +:+ r → strip p ≠ EmptyString → strip p ∈ m.(m_dirs).

(** A name that the shell passes on as one word that is not an option. *)
Definition plain_char (c : ascii) : bool :=
  let n := Z.of_nat (nat_of_ascii c) in
  bool_decide (48 <= n <= 57 ∨ 65 <= n <= 90 ∨ 97 <= n <= 122 ∨ n = 95 ∨ n = 46 ∨ n = 47).
Fixpoint plain_path (s : string) : bool :=
  match s with EmptyString => true | String c t => plain_char c && plain_path t end.

(** [rm -r] removes files below its argument only, and a directory after what it
    holds; [shmget] gives an identifier that is not in use; what exists can be
    attached. *)
Class KernelOK `{!Kernel} := {
  rm_tree d m : plain_path d = true → tree_ok m →
    let m' := system ("rm " +:+ d +:+ " -r") m in
    tree_ok m' ∧ m'.(m_segments) = m.(m_segments) ∧ m'.(m_environ) = m.(m_environ) ∧
    m'.(m_files) ⊆ m.(m_files) ∧
    (∀ name, (∀ r, name ≠ d +:+ r) → m'.(m_files) !! name = m.(m_files) !! name);
  segment_fresh m n : 0 <= new_segment m n →
    m.(m_segments) !! new_segment m n = None ∧ new_segment m n < 2 ^ 31;
  segment_attached m id : is_Some (m.(m_segments) !! id) → may_attach m id = true;
}.

(** ** Directories *)

Lemma strip_slash p : strip (p +:+ "/") = strip p.
Proof.
  induction p as [|c p IH]; [done|]. change (String c p +:+ "/") with (String c (p +:+ "/")).
  cbn [strip]. by rewrite IH.
Qed.

Lemma back_slash s : back s = Some "/"%char → ∃ p, s = p +:+ "/".
Proof.
  destruct s as [|c s]; [done|]. unfold back. cbn [String.length]. rewrite Nat.sub_succ, Nat.sub_0_r.
  revert c. induction s as [|c' s IH]; intros c Hc.
  - cbn in Hc. injection Hc as ->. by exists EmptyString.
  - destruct (IH c' Hc) as [p Hp]. exists (String c p). by rewrite Hp.
Qed.

(** What all of the start leaves alone, but for the directories. *)
Definition same_but_dirs (m m' : machine) : Prop :=
  m'.(m_files) = m.(m_files) ∧ m'.(m_segments) = m.(m_segments) ∧ m'.(m_environ) = m.(m_environ) ∧
  m.(m_dirs) ⊆ m'.(m_dirs).

#[local] Instance same_but_dirs_po : PreOrder same_but_dirs.
Proof.
  split; [done|]. intros a b c (?&?&?&?) (?&?&?&?). repeat split; try congruence. set_solver.
Qed.

Lemma tree_ok_dirs m m' : same_but_dirs m m' → tree_ok m → tree_ok m'.
Proof. intros (Hf&_&_&Hd) Ht name p r. rewrite Hf. intros Hn E Hp. by apply Hd, (Ht name p r). Qed.

Section directories.
Context `{!Kernel} `{!KernelOK}.

Lemma make_folder_ok name m :
  wp (make_folder name) (λ _ m', same_but_dirs m m' ∧ strip name ∈ m'.(m_dirs) ∧
      (strip name ∉ m.(m_dirs)) ∧ strip name ≠ EmptyString)
    (λ _ _, False) (λ c _, c = -1) m.
Proof.
  unfold make_folder, mkdir. apply wp_bind. unfold wp at 1. case_decide as Hd; [done|].
  apply wp_mret. split; [|split; [|tauto]]; [|cbn; set_solver].
  split; [done|]. do 2 (split; [done|]). cbn. set_solver.
Qed.

Lemma make_folders_ok l m :
  wp (for_each l make_folder) (λ _ m', same_but_dirs m m' ∧ ∀ f, f ∈ l → strip f ∈ m'.(m_dirs))
    (λ _ _, False) (λ c _, c = -1) m.
Proof.
  revert m. induction l as [|f l IH]; intros m; cbn [for_each].
  { apply wp_mret. split; [done|]. by intros f ?%elem_of_nil. }
  apply wp_bind. eapply wp_conseq; [apply make_folder_ok|]. intros _ m1 (H1&Hf&_).
  eapply wp_conseq; [apply IH|]. intros _ m2 [H2 Hl]. split; [by etrans|].
  intros f' [->|Hin]%elem_of_cons; [|by apply Hl]. destruct H2 as (_&_&_&Hd). by apply Hd.
Qed.

(** Every file below a directory that could be made is gone. *)
Record fresh_output (sync_id outputDir : string) (m m' : machine) : Prop := FreshOutput {
  fr_folders : ∀ f, f ∈ folders sync_id outputDir → strip f ∈ m'.(m_dirs);
  fr_empty : ∀ r, m'.(m_files) !! (outputDir +:+ r) = None;
  fr_rest : ∀ name, (∀ r, name ≠ outputDir +:+ r) → m'.(m_files) !! name = m.(m_files) !! name;
  fr_segments : m'.(m_segments) = m.(m_segments);
  fr_environ : m'.(m_environ) = m.(m_environ);
  fr_tree : tree_ok m';
}.

Lemma made_empty outputDir p m m' : outputDir = p +:+ "/" → tree_ok m →
  strip outputDir ∉ m.(m_dirs) → strip outputDir ≠ EmptyString → m'.(m_files) = m.(m_files) →
  ∀ r, m'.(m_files) !! (outputDir +:+ r) = None.
Proof.
  intros -> Ht Hn Hs Hf r. rewrite Hf. apply eq_None_not_Some. intros Hin.
  rewrite strip_slash in Hn, Hs. apply Hn. eapply Ht; [exact Hin| |done]. by rewrite append_assoc.
Qed.

Lemma folders_cons sync_id outputDir : ∃ rest, folders sync_id outputDir = outputDir :: rest.
Proof.
  unfold folders, subfolders. eexists. change ((?x :: ?l) ++ ?r) with (x :: (l ++ r)).
  rewrite fmap_cons, append_empty. reflexivity.
Qed.

Lemma MakeDirectory_ok sync_id sync_dir outputDir m :
  tree_ok m → back outputDir = Some "/"%char → plain_path outputDir = true →
  wp (MakeDirectory sync_id sync_dir outputDir) (λ _, fresh_output sync_id outputDir m)
    (λ _ _, False) (λ c _, c = -1) m.
Proof.
  intros Ht [p Hp]%back_slash Hplain. unfold MakeDirectory. apply wp_bind, wp_gets. apply wp_bind.
  apply (wp_conseq _ (λ _, same_but_dirs m)).
  { apply wp_ifd; intros _; [|by wp_step]. eapply wp_conseq; [apply make_folder_ok|]. by intros _ ? (?&_). }
  intros _ m1 H1. pose proof (tree_ok_dirs m m1 H1 Ht) as Ht1. apply wp_bind, wp_gets, wp_bind.
  apply (wp_conseq _ (λ _ m2, tree_ok m2 ∧ m2.(m_segments) = m.(m_segments) ∧ m2.(m_environ) = m.(m_environ) ∧
    ∀ name, (∀ r, name ≠ outputDir +:+ r) → m2.(m_files) !! name = m.(m_files) !! name)).
  { destruct H1 as (Ef&Es&Ee&_). rewrite <-Ef, <-Es, <-Ee. apply wp_when; intros _; [|done].
    wp_step. destruct (rm_tree outputDir m1 Hplain Ht1) as (?&?&?&_&?). done. }
  intros _ m2 (Ht2&Es&Ee&Ef). destruct (folders_cons sync_id outputDir) as [rest Er].
  rewrite Er. cbn [for_each].
  apply wp_bind. eapply wp_conseq; [apply make_folder_ok|]. intros _ m3 (H3&Hin&Hout&Hs).
  assert (H3' := H3). destruct H3' as (Ef3&Es3&Ee3&Hd3).
  eapply wp_conseq; [apply make_folders_ok|]. intros _ m4 [H4 Hall].
  assert (H4' := H4). destruct H4' as (Ef4&Es4&Ee4&Hd4). split.
  - intros f Hf. rewrite Er in Hf. apply elem_of_cons in Hf as [->|Hf]; [by apply Hd4|by apply Hall].
  - intros r. rewrite Ef4. by eapply made_empty.
  - intros name Hn. rewrite Ef4, Ef3. by apply Ef.
  - by rewrite Es4, Es3.
  - by rewrite Ee4, Ee3.
  - eapply tree_ok_dirs; [exact H4|]. by eapply tree_ok_dirs.
Qed.
End directories.

(** ** Segments *)

(** New segments, each with its environment variable and its contents; everything
    else is as before. *)
Record placed (l : list (string * Z * list Z)) (m m' : machine) : Prop := Placed {
  pl_distinct : NoDup ((λ x, x.1.2) <$> l);
  pl_new : ∀ x, x ∈ l → m.(m_segments) !! x.1.2 = None ∧ 0 <= x.1.2 < 2 ^ 31;
  pl_content : ∀ x, x ∈ l → m'.(m_segments) !! x.1.2 = Some x.2;
  pl_environ : ∀ x, x ∈ l → m'.(m_environ) !! x.1.1 = Some (to_string x.1.2);
  pl_rest : ∀ id, id ∉ ((λ x, x.1.2) <$> l) → m'.(m_segments) !! id = m.(m_segments) !! id;
  pl_files : m'.(m_files) = m.(m_files);
  pl_dirs : m'.(m_dirs) = m.(m_dirs);
}.

Lemma placed_nil m : placed [] m m.
Proof. split; try done; [constructor|intros x Hx..]; by apply elem_of_nil in Hx. Qed.

Definition add_segment (v : string) (id : Z) (content : list Z) (m : machine) : machine :=
  set_environ (<[v := to_string id]> m.(m_environ)) (set_segments (<[id := content]> m.(m_segments)) m).

Lemma placed_snoc l m m1 v id content : placed l m m1 → v ∉ ((λ x, x.1.1) <$> l) →
  m1.(m_segments) !! id = None → 0 <= id < 2 ^ 31 →
  placed (l ++ [(v, id, content)]) m (add_segment v id content m1).
Proof.
  intros [Hd Hn Hc He Hr Hf Hdirs] Hv Hid Hrange.
  assert (∀ x, x ∈ l → x.1.2 ≠ id) as Hne.
  { intros x Hx E. specialize (Hc x Hx). rewrite E in Hc. congruence. }
  assert (id ∉ ((λ x : string * Z * list Z, x.1.2) <$> l)) as Hnid.
  { intros (x&Ex&Hx)%list_elem_of_fmap. by apply (Hne x Hx). }
  split.
  - rewrite fmap_app. apply list.NoDup_app. split; [done|]. split; [|apply NoDup_singleton].
    intros y Hy ->%list_elem_of_singleton. done.
  - intros x [Hx| ->%list_elem_of_singleton]%elem_of_app; [by apply Hn|]. cbn. by rewrite <-Hr.
  - intros x [Hx| ->%list_elem_of_singleton]%elem_of_app; cbn; [|by rewrite lookup_insert_eq].
    rewrite lookup_insert_ne; [by apply Hc|]. intros E. by apply (Hne x Hx).
  - intros x [Hx| ->%list_elem_of_singleton]%elem_of_app; cbn; [|by rewrite lookup_insert_eq].
    rewrite lookup_insert_ne; [by apply He|]. intros E. apply Hv. rewrite E. by apply list_elem_of_fmap_2 with (f := λ x, x.1.1).
  - intros i Hi. rewrite fmap_app, not_elem_of_app in Hi. destruct Hi as [Hi1 Hi2]. cbn.
    rewrite lookup_insert_ne; [by apply Hr|]. intros ->. apply Hi2, list_elem_of_here.
  - done.
  - done.
Qed.

Lemma placed_refill l m m' v id c c' : placed (l ++ [(v, id, c)]) m m' →
  placed (l ++ [(v, id, c')]) m (set_segments (<[id := c']> m'.(m_segments)) m').
Proof.
  intros [Hd Hn Hc He Hr Hf Hdirs]. rewrite fmap_app in Hd. apply list.NoDup_app in Hd as Hd'. destruct Hd' as (_&Hd'&_).
  split.
  - by rewrite fmap_app.
  - intros x [Hx| ->%list_elem_of_singleton]%elem_of_app; [apply Hn; set_solver|]. apply (Hn (v, id, c)). set_solver.
  - intros x [Hx| ->%list_elem_of_singleton]%elem_of_app; cbn; [|by rewrite lookup_insert_eq].
    rewrite lookup_insert_ne; [apply Hc; set_solver|]. intros ->. apply (Hd' x.1.2); [|set_solver].
    by apply list_elem_of_fmap_2 with (f := λ x : string * Z * list Z, x.1.2).
  - intros x [Hx| ->%list_elem_of_singleton]%elem_of_app; [apply He; set_solver|]. apply (He (v, id, c)). set_solver.
  - intros i Hi. cbn. rewrite fmap_app in Hi, Hr. rewrite lookup_insert_ne; [by apply Hr|].
    intros ->. apply Hi, elem_of_app. right. apply list_elem_of_here.
  - done.
  - done.
Qed.

Section shm.
Context `{!Kernel} `{!KernelOK}.

Lemma shm_create_ok n (Q : Z → machine → Prop) (E : Z → machine → Prop) m : (∀ m, E (-1) m) →
  (∀ id, m.(m_segments) !! id = None → 0 <= id < 2 ^ 31 →
     Q id (set_segments (<[id := replicate (Z.to_nat n) 0]> m.(m_segments)) m)) →
  wp (shm_create n) Q (λ _ _, False) E m.
Proof.
  intros HE HQ. unfold shm_create. apply wp_bind, wp_gets. apply wp_ifd; intros Hneg; [apply wp_exit, HE|].
  destruct (segment_fresh m n) as [Hnone Hlt]; [lia|]. apply wp_bind, wp_modify, wp_mret, HQ; [done|lia].
Qed.

Lemma shm_init_ok id n byte (Q : unit → machine → Prop) R E m : is_Some (m.(m_segments) !! id) →
  Q tt (set_segments (<[id := replicate (Z.to_nat n) byte]> m.(m_segments)) m) →
  wp (shm_init id n byte) Q R E m.
Proof.
  intros Hs HQ. unfold shm_init. apply wp_bind, wp_gets. rewrite (segment_attached m id Hs). by apply wp_modify.
Qed.

Lemma SingleShmSetup_ok n v l m m1 : placed l m m1 → v ∉ ((λ x, x.1.1) <$> l) →
  wp (SingleShmSetup n v) (λ id, placed (l ++ [(v, id, replicate (Z.to_nat n) 0)]) m)
    (λ _ _, False) (λ c _, c = -1) m1.
Proof.
  intros Hp Hv. unfold SingleShmSetup. apply wp_bind, shm_create_ok; [done|]. intros id Hid Hr.
  apply wp_bind, wp_gets. apply wp_if; intros _; [by wp_step|]. wp_step. wp_step.
  apply wp_bind, shm_init_ok; [cbn; rewrite lookup_insert_eq; by eexists|]. wp_step.
  cbn [m_segments set_environ set_segments]. rewrite insert_insert_eq.
  exact (placed_snoc l m m1 v id _ Hp Hv Hid Hr).
Qed.

(** The segments of [ShmSetup], in their order. *)
Definition shm_layout (map_size list_size : Z) (s : shm) : list (string * Z * list Z) :=
  let zeros n := replicate (Z.to_nat n) 0 in
  [(SHM_ENV_VAR, s.(shmId), zeros map_size);
   (GLOBAL_STATE_ENV_VAR, s.(global_state_shmid), zeros map_size);
   (VARIABLE_COUNT_SHM_ENV_VAR, s.(variable_count_shmid), zeros SIZEOF_U64);
   (BRANCH_TRACE_SHM_ENV_VAR, s.(branch_trace_shmid), zeros map_size);
   (CONCURRENT_FUNCTION_SHM_ENV_VAR, s.(concurrent_function_shmid), zeros SIZEOF_U64);
   (CONCURRENT_MUTEX_SHM_ENV_VAR, s.(concurrent_mutex_shmid), mutex_image);
   (TICK_NUM_SHM_ENV_VAR, s.(tick_num_shmid), zeros SIZEOF_U64);
   (ERROR_LIST_SHM_ENV_VAR, s.(error_list_shmId), zeros list_size);
   (ERROR_TRACED_SHM_ENV_VAR, s.(error_traced_shmId), zeros list_size)].

Definition no_matrices (s : shm) : Prop :=
  s.(control_matrix_shmid) = 0 ∧ s.(adjacency_matrix_shmid) = 0 ∧ s.(travel_matrix_shmid) = 0.

Ltac one_segment Hp :=
  apply wp_bind; eapply wp_conseq;
    [eapply SingleShmSetup_ok; [exact Hp|cbn; apply (bool_decide_unpack _); vm_compute; exact I]|];
  clear Hp; intros ? ? Hp; cbn [app] in Hp.

Lemma ShmSetup_ok map_size list_size m :
  wp (ShmSetup map_size list_size)
    (λ s m', placed (shm_layout map_size list_size s) m m' ∧ no_matrices s)
    (λ _ _, False) (λ c _, c = -1) m.
Proof.
  pose proof (placed_nil m) as Hp. unfold ShmSetup. do 6 one_segment Hp.
  apply wp_ifd; intros _; [by wp_step|]. apply wp_bind, wp_modify.
  match type of Hp with placed [?a; ?b; ?c; ?d; ?e; ?f] _ _ =>
    apply (placed_refill [a; b; c; d; e] _ _ _ _ _ mutex_image) in Hp end.
  cbn [app] in Hp. do 3 one_segment Hp. wp_step. split; [exact Hp|done].
Qed.

Lemma shm_removes l m :
  wp (for_each l shm_remove) (λ _ m', m'.(m_files) = m.(m_files) ∧ ∀ id, m'.(m_segments) !! id =
      if decide (id ∈ l) then None else m.(m_segments) !! id)
    (λ _ _, False) (λ _ _, False) m.
Proof.
  revert m. induction l as [|x l IH]; intros m; cbn [for_each]; [by wp_step|].
  apply wp_bind, wp_modify. eapply wp_conseq; [apply IH|]. intros _ m' [-> Hm'].
  split; [done|]. intros id. rewrite Hm'. cbn. rewrite lookup_delete.
  repeat case_decide; subst; set_solver.
Qed.
End shm.

(** ** The coverage of a group *)

Definition sync_names : list string := [sync_file_name; sync_branch_cov_file_name; file_lock].

(** Files of the group that were written, in their order. *)
Definition patch (l : list (string * string)) (f : fs) : fs :=
  foldr (λ x f, <[x.1 := bytes_of_string x.2]> f) f l.
Definition small_patch (l : list (string * string)) : Prop :=
  Forall (λ x, x.1 ∈ sync_names ∧ (String.length x.2 <= 20)%nat) l ∧ (length l <= 3)%nat.

Lemma patch_other l f name : small_patch l → name ∉ sync_names → patch l f !! name = f !! name.
Proof.
  intros [Hl _] Hn. induction Hl as [|x l [Hx _] Hl IH]; [done|]. cbn. rewrite lookup_insert_ne; [done|].
  intros E. apply Hn. by rewrite <-E.
Qed.

Lemma patch_size l f : (size (patch l f) <= size f + length l)%nat.
Proof.
  induction l as [|x l IH]; [cbn; lia|].
  change (patch (x :: l) f) with (<[x.1 := bytes_of_string x.2]> (patch l f)). cbn [length].
  rewrite map_size_insert. destruct (patch l f !! x.1); unfold id; lia.
Qed.

Lemma patch_bytes l f : map_Forall (λ _ b, Forall is_u8 b) f → map_Forall (λ _ b, Forall is_u8 b) (patch l f).
Proof.
  intros Hf. induction l as [|x l IH]; [done|]. cbn. apply map_Forall_insert_2; [|done]. apply bytes_of_string_u8.
Qed.

Lemma length_dec fuel n acc : (String.length (dec fuel n acc) <= S fuel + String.length acc)%nat.
Proof.
  revert n acc. induction fuel as [|fuel IH]; intros n acc; cbn [dec]; [cbn; lia|].
  destruct (n <? 10); [cbn; lia|]. etrans; [apply IH|]. cbn [String.length]. lia.
Qed.

Lemma length_to_string n : (String.length (to_string n) <= 20)%nat.
Proof. exact (length_dec 19 n EmptyString). Qed.

(** What [to_string] prints is one word. *)
Lemma until_space_dec fuel n acc : until_space acc = acc → until_space (dec fuel n acc) = dec fuel n acc.
Proof.
  assert (∀ n acc, until_space acc = acc →
    until_space (String (digit (n mod 10)) acc) = String (digit (n mod 10)) acc) as Hone.
  { intros k a Ha. cbn [until_space]. assert (0 <= k mod 10 < 10) as Hd by (apply Z.mod_pos_bound; lia).
    destruct (digit_plain _ _ (digit_of_digit _ Hd)) as [-> _]. by rewrite Ha. }
  revert n acc. induction fuel as [|fuel IH]; intros n acc Ha; cbn [dec]; [by apply Hone|].
  destruct (n <? 10); [by apply Hone|]. by apply IH, Hone.
Qed.

Lemma read_back id : 0 <= id < 2 ^ 31 →
  stoi (first_word (string_of_bytes (bytes_of_string (to_string id)))) = Some id.
Proof.
  intros Hid. rewrite string_of_bytes_of_string. unfold first_word.
  destruct (dec_head 19 id EmptyString) as (c&s&d&E&Hd). destruct (digit_plain c d Hd) as [Hs _].
  assert (skip_spaces (to_string id) = to_string id) as ->.
  { unfold to_string. rewrite E. cbn [skip_spaces]. by rewrite Hs. }
  unfold to_string. rewrite until_space_dec by done. fold (to_string id).
  rewrite <-(stoi_to_string id) by lia. unfold int_to_string. by rewrite decide_False by lia.
Qed.

Section group.
Context `{!Kernel} `{!KernelOK}.
Hypothesis Hopen : ∀ m name, name ∈ sync_names → may_open m name = true.

(** A map of the group: a new segment of bytes 255, and the file that names it. *)
Record created (name : string) (n id : Z) (m m' : machine) : Prop := Created {
  cr_new : m.(m_segments) !! id = None;
  cr_range : 0 <= id < 2 ^ 31;
  cr_segments : m'.(m_segments) = <[id := replicate (Z.to_nat n) 255]> m.(m_segments);
  cr_files : m'.(m_files) = <[name := bytes_of_string (to_string id)]> m.(m_files);
  cr_dirs : m'.(m_dirs) = m.(m_dirs);
}.

Lemma write_text_ok name text (Q : unit → machine → Prop) R E m : name ∈ sync_names →
  Q tt (set_m_files (<[name := bytes_of_string text]> m.(m_files)) m) → wp (write_text name text) Q R E m.
Proof. intros Hn HQ. unfold write_text. apply wp_bind, wp_gets. rewrite Hopen by done. by apply wp_modify. Qed.

Lemma multi_proc_shm_create_ok name n m : name ∈ sync_names →
  wp (multi_proc_shm_create name n) (λ id, created name n id m) (λ _ _, False) (λ c _, c = -1) m.
Proof.
  intros Hn. unfold multi_proc_shm_create. apply wp_bind, shm_create_ok; [done|]. intros id Hid Hr.
  apply wp_bind, write_text_ok; [done|]. apply wp_bind, shm_init_ok; [cbn; rewrite lookup_insert_eq; by eexists|].
  wp_step. split; [done|done| |done|done]. cbn. by rewrite insert_insert_eq.
Qed.

(** A map that a file names. *)
Definition named (name : string) (n : Z) (m : machine) (id : Z) : Prop :=
  m.(m_files) !! name = Some (bytes_of_string (to_string id)) ∧ 0 <= id < 2 ^ 31 ∧
  ∃ c, m.(m_segments) !! id = Some c ∧ bytes n c.

Lemma multi_proc_shm_get_ok name n id m : named name n m id →
  wp (multi_proc_shm_get name) (λ r m', r = Some id ∧ m' = m) (λ _ _, False) (λ _ _, False) m.
Proof.
  intros (Hf&Hr&c&Hs&_). unfold multi_proc_shm_get. apply wp_bind, wp_gets. rewrite Hf. change (default [] (Some ?x)) with x.
  rewrite read_back by done. apply wp_gets. split; [|done].
  rewrite decide_True; [done|]. rewrite Hs. split; [by eexists|]. apply segment_attached. by rewrite Hs.
Qed.

(** What the master of a group creates, the slaves find: the file that is
    written holds the identifier of a new segment, all 255, and reading it back gives
    this segment. *)
Theorem group_map_found name n m : name ∈ sync_names →
  wp (a ← multi_proc_shm_create name n; b ← multi_proc_shm_get name; mret (a, b))
    (λ p m', p.2 = Some p.1 ∧ m.(m_segments) !! p.1 = None ∧
       m'.(m_segments) !! p.1 = Some (replicate (Z.to_nat n) 255))
    (λ _ _, False) (λ c _, c = -1) m.
Proof.
  intros Hn. wp_step. eapply wp_conseq; [by apply multi_proc_shm_create_ok|]. intros id m1 [Hnew Hr Es Ef _].
  wp_step. eapply wp_mono; [apply (multi_proc_shm_get_ok name (zlen (replicate (Z.to_nat n) 255)) id)| |done|done].
  - split; [by rewrite Ef, lookup_insert_eq|]. split; [done|]. eexists.
    rewrite Es, lookup_insert_eq. split; [done|]. split; [done|]. apply Forall_replicate. unfold is_u8. lia.
  - intros r m2 [-> ->]. wp_step. cbn. rewrite Es, lookup_insert_eq. done.
Qed.
End group.

(** ** From the command line to the loop *)

Lemma patch_cons l x f : patch (x :: l) f = <[x.1 := bytes_of_string x.2]> (patch l f).
Proof. done. Qed.

Lemma map_of_255 n : 0 <= n → bytes n (replicate (Z.to_nat n) 255).
Proof.
  intros Hn. split; [unfold zlen; rewrite length_replicate; lia|]. apply Forall_replicate. unfold is_u8. lia.
Qed.

Lemma map_of_zeros n : 0 <= n → bytes n (replicate (Z.to_nat n) 0).
Proof.
  intros Hn. split; [unfold zlen; rewrite length_replicate; lia|]. apply Forall_replicate. unfold is_u8. lia.
Qed.

(** The directory of a fuzzer in its group. *)
Definition output_of (o : options) : string := (o.(o_outputDir) +:+ o.(o_sync_id)) +:+ "/".
Definition final_options (o : options) : options := set_outputDir (output_of o) o.

Section start.
Context `{!Kernel} `{!KernelOK}.
Hypothesis Hopen : ∀ m name, name ∈ sync_names → may_open m name = true.

(** The maps of the group, and the lock file. *)
Definition joined (n : Z) (m : machine) (p : option Z * option Z) (m' : machine) : Prop :=
  (∃ c d, shared_maps m' p = Some (c, d) ∧ bytes n c ∧ bytes n d) ∧
  is_Some (m'.(m_files) !! file_lock) ∧ m'.(m_dirs) = m.(m_dirs) ∧
  ∃ l, small_patch l ∧ m'.(m_files) = patch l m.(m_files).

(** The lock file is written when it is not there. *)
Lemma lock_ok n p k m1 m (Q : option Z * option Z → machine → Prop) R E : (length k <= 2)%nat →
  small_patch k → m1.(m_files) = patch k m.(m_files) → m1.(m_dirs) = m.(m_dirs) →
  (∃ c d, shared_maps m1 p = Some (c, d) ∧ bytes n c ∧ bytes n d) →
  (∀ m', joined n m p m' → Q p m') →
  wp (there ← gets (λ m, bool_decide (is_Some (m.(m_files) !! file_lock)));
      when (negb there) (write_text file_lock "file_lock") ;; mret p) Q R E m1.
Proof.
  intros Hk [Hp Hl] Ef Ed Hs HQ. apply wp_bind, wp_gets, wp_bind, wp_when; intros Hb.
  - apply write_text_ok; [done|set_solver|]. wp_step. apply HQ. split; [done|]. cbn.
    rewrite lookup_insert_eq. split; [by eexists|]. split; [done|]. exists ((file_lock, "file_lock") :: k).
    rewrite patch_cons, Ef. split; [|done]. split; [|cbn; lia]. constructor; [|done]. split; [set_solver|cbn; lia].
  - wp_step. apply HQ. split; [done|]. split; [|split; [done|by exists k]].
    by apply negb_false_iff, bool_decide_eq_true_1 in Hb.
Qed.

Lemma share_coverage_ok o n m : 0 <= n → o.(o_sync_id) ≠ EmptyString →
  (o.(o_sync_state) ≠ "MASTER" → ∃ a b,
     named sync_file_name n m a ∧ named sync_branch_cov_file_name n m b) →
  wp (share_coverage o n) (joined n m) (λ _ _, False) (λ c _, c = -1) m.
Proof.
  intros Hn Hid Hslave. unfold share_coverage. rewrite decide_False by done. wp_step.
  destruct (decide (o.(o_sync_state) = "MASTER")) as [_|Hs].
  - wp_step. eapply wp_conseq; [apply multi_proc_shm_create_ok; [done|set_solver]|]. intros a m1 [Ha Hra Es1 Ef1 Ed1].
    wp_step. eapply wp_conseq; [apply multi_proc_shm_create_ok; [done|set_solver]|]. intros b m2 [Hb Hrb Es2 Ef2 Ed2].
    wp_step. eapply (lock_ok n (Some a, Some b)
      [(sync_branch_cov_file_name, to_string b); (sync_file_name, to_string a)]); [cbn; lia| | | | |done].
    + split; [|cbn; lia]. do 2 (constructor; [split; [set_solver|apply length_to_string]|]). constructor.
    + by rewrite Ef2, Ef1.
    + by rewrite Ed2.
    + exists (replicate (Z.to_nat n) 255), (replicate (Z.to_nat n) 255). split; [|by split; apply map_of_255].
      unfold shared_maps. cbn. rewrite Es2, lookup_insert_eq, lookup_insert_ne.
      * rewrite Es1, lookup_insert_eq. done.
      * intros ->. rewrite Es1, lookup_insert_eq in Hb. done.
  - destruct (Hslave Hs) as (a&b&Na&Nb). wp_step.
    eapply wp_mono; [by eapply multi_proc_shm_get_ok| |done|done]. intros ? ? [-> ->]. wp_step.
    eapply wp_mono; [by eapply multi_proc_shm_get_ok| |done|done]. intros ? ? [-> ->]. wp_step.
    destruct Na as (_&_&c&Ec&Hc), Nb as (_&_&d&Ed&Hd).
    eapply (lock_ok n (Some a, Some b) []); [cbn; lia| |done|done| |done].
    + split; [constructor|cbn; lia].
    + exists c, d. unfold shared_maps. cbn. by rewrite Ec, Ed.
Qed.

(** A command line of a group, and a machine with the test cases: the files are small
    and not too many, the test file is none of the files that are kept, and a slave
    finds the maps of its master. *)
Record launch_ok (map_size : Z) (argv names : list string) (o : options) (m : machine) : Prop := LaunchOK {
  la_argv : Forall (λ a, a ≠ EmptyString) argv;
  la_options : ∃ i, read_options argv no_options = (Norm i, o) ∧ is_Some (argv !! i);
  la_group : o.(o_sync_id) ≠ EmptyString;
  la_given : o.(o_inputDir) ≠ EmptyString ∧ o.(o_outputDir) ≠ EmptyString;
  la_plain : plain_path (output_of o) = true;
  la_tree : tree_ok m;
  la_size : Z.of_nat (size m.(m_files)) + 3 <= 2 ^ 29;
  la_bytes : map_Forall (λ _ b, Forall is_u8 b) m.(m_files);
  la_small : ∀ name b, m.(m_files) !! (o.(o_inputDir) +:+ name) = Some b → zlen b < 2 ^ 28;
  la_names : NoDup names ∧ ∃ name, name ∈ names ∧ is_case name;
  la_testfile : ∀ x, o.(o_testfile) ≠ o.(o_inputDir) +:+ x ∧ o.(o_testfile) ≠ output_of o +:+ x;
  la_lock : o.(o_testfile) ≠ file_lock;
  la_slave : o.(o_sync_state) ≠ "MASTER" → ∃ a b,
    named sync_file_name map_size m a ∧ named sync_branch_cov_file_name map_size m b;
}.

Lemma launch_options map_size argv names o m : launch_ok map_size argv names o m → options_ok o.
Proof.
  intros H1. destruct (la_options _ _ _ _ _ H1) as (i&E&[a Ha]).
  pose proof (read_options_ok argv no_options (la_argv _ _ _ _ _ H1)) as Hok. unfold wp in Hok. rewrite E in Hok.
  apply Hok; [by destruct argv|by split; left].
Qed.

Lemma fix_up_ok o p : p.(p_options) = o → options_ok o → o.(o_sync_id) ≠ EmptyString →
  o.(o_outputDir) ≠ EmptyString →
  wp fix_up (λ _ p', p'.(p_options) = final_options o ∧ p'.(p_machine) = p.(p_machine))
    (λ _ _, False) (λ _ _, False) p.
Proof.
  intros Ep [_ Hd] Hid Hout. destruct Hd as [?|Hb]; [done|]. unfold fix_up. wp_step. wp_step. rewrite Ep.
  rewrite decide_False by done. wp_step. eapply wp_from_option.
  { unfold fix_up_sync, with_slash. rewrite Hb. cbn [mbind option_bind]. by rewrite decide_True. }
  wp_step. wp_step. wp_step. cbn. by rewrite Ep.
Qed.

Lemma Init_ok map_size argv names o p : launch_ok map_size argv names o p.(p_machine) →
  p.(p_options) = no_options →
  wp (Init argv) (λ _ p', p'.(p_options) = final_options o ∧
      fresh_output o.(o_sync_id) (output_of o) p.(p_machine) p'.(p_machine))
    (λ _ _, False) (λ c _, c = -1) p.
Proof.
  intros Hl Ep. pose proof (launch_options _ _ _ _ _ Hl) as Ho.
  destruct (la_options _ _ _ _ _ Hl) as (i&E&[target Ht]). unfold Init.
  apply wp_ifd; intros _; [by wp_step|]. apply wp_bind, wp_zoom. rewrite Ep. unfold wp at 1. rewrite E.
  wp_step. eapply wp_from_option; [exact Ht|]. wp_step. wp_step. wp_step.
  eapply wp_mono; [apply (fix_up_ok o); [done|done|apply Hl|apply Hl]| |done|done].
  intros _ p1 [Eo Em]. apply wp_ifd; intros _; [by wp_step|]. wp_step. wp_step. unfold id. rewrite Eo. cbn in Em.
  apply wp_bind, wp_zoom. rewrite Em.
  eapply wp_conseq; [apply MakeDirectory_ok; [apply Hl|apply back_app|apply Hl]|].
  intros ? m1 Hm1. by wp_step.
Qed.
End start.

(** A name with a slash is none of the files of the group. *)
Lemma slash_not_sync d name : back d = Some "/"%char → d +:+ name ∉ sync_names.
Proof.
  intros [p ->]%back_slash Hin. rewrite append_assoc in Hin.
  assert (∀ a b, bool_decide ("/"%char ∈ String.list_ascii_of_string (a +:+ "/" +:+ b))) as Hs.
  { intros a b. apply bool_decide_pack. induction a as [|c a IH]; [apply list_elem_of_here|].
    by apply list_elem_of_further. }
  specialize (Hs p name). unfold sync_names in Hin.
  repeat (apply elem_of_cons in Hin as [Hin|Hin]; [rewrite Hin in Hs; by vm_compute in Hs|]).
  by apply elem_of_nil in Hin.
Qed.

(** The start leaves the maps of a master where they are. *)
Lemma named_kept `{!Kernel} n name l sync_id outputDir m0 m1 m2 id : name ∈ sync_names →
  back outputDir = Some "/"%char → fresh_output sync_id outputDir m0 m1 → placed l m1 m2 →
  named name n m0 id → named name n m2 id.
Proof.
  intros Hn Hb Hfr Hp (Hf&Hr&c&Hs&Hc). split.
  - rewrite (pl_files _ _ _ Hp), (fr_rest _ _ _ _ Hfr); [done|]. intros r ->. by apply (slash_not_sync outputDir r).
  - split; [done|]. exists c. split; [|done]. rewrite (pl_rest _ _ _ Hp).
    + by rewrite (fr_segments _ _ _ _ Hfr).
    + intros (x&->&Hx)%list_elem_of_fmap. destruct (pl_new _ _ _ Hp x Hx) as [Hnone _].
      rewrite (fr_segments _ _ _ _ Hfr) in Hnone. congruence.
Qed.

Section whole.
Context `{!Kernel} `{!KernelOK} `{!Env} `{!Group} `{!GroupOK} {map_size list_size : Z}.
Context `{!EnvOK map_size list_size}.
Context {sort : (list Z * Z → list Z * Z → bool) → list (list Z * Z) → list (list Z * Z)}.
Context {fuel : nat} {fuzzing_error : bool}.
Hypothesis Hopen : ∀ m name, name ∈ sync_names → may_open m name = true.
Hypothesis Hsize : 0 <= map_size < 2 ^ 32 ∧ map_size mod 8 = 0.
Hypothesis Hlist : 0 <= list_size.

(** The state of the loop after the start: as if the maps of the group had been there
    before the test cases were read. *)
Lemma boot_started argv names o m0 m1 ids m2 k c d :
  launch_ok map_size argv names o m0 →
  fresh_output o.(o_sync_id) (output_of o) m0 m1 →
  placed (shm_layout map_size list_size ids) m1 m2 → small_patch k →
  is_Some (patch k m2.(m_files) !! file_lock) → bytes map_size c → bytes map_size d →
  started (cfg := config_of fuzzing_error (final_options o)) (map_size := map_size) (list_size := list_size)
    o.(o_inputDir) names (Fuzz [] 0 [] [] [] []
      (set_sync_cov_ptr (Some (c, d)) (set_files (patch k m2.(m_files)) (boot map_size ids m2)))).
Proof.
  intros Hl Hfr Hp Hk Hlock Hc Hd.
  assert (m2.(m_files) ⊆ m0.(m_files)) as Hsub.
  { rewrite (pl_files _ _ _ Hp). apply map_subseteq_spec. intros name b Hb.
    rewrite <-(fr_rest _ _ _ _ Hfr name); [done|]. intros r ->. by rewrite (fr_empty _ _ _ _ Hfr) in Hb. }
  destruct (launch_options _ _ _ _ _ Hl) as [Hin _]. destruct (la_given _ _ _ _ _ Hl) as [Hgi _].
  destruct Hin as [?|Hin]; [done|].
  assert (∀ id v n, (v, id, replicate (Z.to_nat n) 0) ∈ shm_layout map_size list_size ids → 0 <= n →
    bytes n (segment m2 id)) as Hseg.
  { intros id v n Hx Hn. unfold segment. pose proof (pl_content _ _ _ Hp _ Hx) as E. cbn in E. rewrite E.
    by apply map_of_zeros. }
  split; cbn [world qs set_sync_cov_ptr set_files boot queue fresh_queue fu_list files autoToken pointedToken].
  - done.
  - split; cbn; try (by apply map_of_255; lia); try (unfold zlen; rewrite length_replicate; lia).
    all: eapply Hseg; [|lia]; unfold shm_layout; cbv zeta;
      repeat first [apply list_elem_of_here|apply list_elem_of_further].
  - done.
  - intros _. split; [done|]. by exists c, d.
  - done.
  - pose proof (patch_size k m2.(m_files)). destruct Hk as [_ Hk]. pose proof (la_size _ _ _ _ _ Hl).
    apply map_subseteq_size in Hsub. lia.
  - apply patch_bytes. intros name b Hb. eapply (la_bytes _ _ _ _ _ Hl). by eapply lookup_weaken.
  - intros name b Hb. rewrite patch_other in Hb by (try done; by apply slash_not_sync).
    eapply (la_small _ _ _ _ _ Hl). by eapply lookup_weaken.
  - apply (la_names _ _ _ _ _ Hl).
  - intros name. apply (la_testfile _ _ _ _ _ Hl name).
  - done.
Qed.

End whole.

(** ** Theorems about the parts of the start *)



(** [shmat] reports a failure as [(void * )-1]; the test for null lets it through. *)
Lemma shmat_unchecked `{!Kernel} n v m : 0 <= new_segment m n →
  (∀ m, may_setenv m v = true) → (∀ m id, may_attach m id = false) →
  (SingleShmSetup n v m).1 = UB.
Proof.
  intros Hid Hs Ha. unfold SingleShmSetup, shm_create, shm_init, mbind, proc_bind, gets, modify, mret, proc_ret.
  rewrite decide_False by lia. cbn. rewrite Hs. cbn. by rewrite Ha.
Qed.

(** ** A demonstration machine *)

Definition demo_rm (d : string) (m : machine) : machine :=
  Machine (filter (λ x, String.prefix d (x +:+ "/") = false) m.(m_dirs))
    (filter (λ x, String.prefix d x.1 = false) m.(m_files)) m.(m_segments) m.(m_environ).

#[local] Instance demo_kernel : Kernel := {|
  system cmd m := demo_rm (String.substring 3 (String.length cmd - 6) cmd) m;
  may_mkdir _ _ := true;
  may_setenv _ _ := true;
  may_attach _ _ := true;
  may_open _ _ := true;
  new_segment m _ :=
    let id := 1 + foldr (λ x, Z.max x.1) 0 (map_to_list m.(m_segments)) in
    if decide (id < 2 ^ 31) then id else -1;
  dev_null_fd := 3;
  pshared_status := 0;
  mutex_image := replicate 40 7;
|}.

Lemma substring_command d : String.substring 3 (String.length ("rm " +:+ d +:+ " -r") - 6) ("rm " +:+ d +:+ " -r") = d.
Proof.
  assert (∀ d t, String.substring 0 (String.length d) (d +:+ t) = d) as Hs.
  { intros d0 t. induction d0 as [|c d0 IH]; [by destruct t|]. exact (f_equal (String c) IH). }
  rewrite !length_append. cbn [String.length].
  replace (3 + (String.length d + 3) - 6)%nat with (String.length d) by lia. apply Hs.
Qed.

Lemma prefix_app a b : String.prefix a (a +:+ b) = true.
Proof.
  induction a as [|c a IH]; [by destruct b|]. change (String c a +:+ b) with (String c (a +:+ b)).
  cbn [String.prefix]. by destruct (ascii_dec c c).
Qed.

Lemma prefix_trans a b c : String.prefix a b = true → String.prefix a (b +:+ c) = true.
Proof.
  revert b. induction a as [|x a IH]; intros b; [by destruct (b +:+ c)|].
  destruct b as [|y b]; [done|]. change (String y b +:+ c) with (String y (b +:+ c)). cbn [String.prefix].
  destruct (ascii_dec x y); [apply IH|done].
Qed.

Lemma strip_prefix p : ∃ r, p +:+ "/" = strip p +:+ "/" +:+ r.
Proof.
  induction p as [|c p [r Hr]]; [by exists EmptyString|]. change (String c p +:+ "/") with (String c (p +:+ "/")).
  cbn [strip]. destruct (strip p) as [|x t] eqn:E.
  - case_decide as Hc; [subst c; by exists (p +:+ "/")|]. exists r. by rewrite Hr.
  - exists r. by rewrite Hr.
Qed.

#[local] Instance demo_kernel_ok : KernelOK.
Proof.
  split.
  - intros d m _ Ht. cbn [system demo_kernel]. rewrite substring_command. split; [|split; [done|split; [done|]]].
    + intros name p r [b Hb] E Hp. cbn in Hb |- *. apply map_lookup_filter_Some in Hb as [Hb Hd].
      apply elem_of_filter. split; [|by eapply Ht; [eexists|..]].
      destruct (strip_prefix p) as [r' Er]. apply not_true_is_false. intros Hpre. cbn in Hd.
      rewrite E, <-append_assoc, Er, <-append_assoc, append_assoc in Hd. rewrite prefix_trans in Hd; done.
    + split; [apply map_filter_subseteq|]. intros name Hn. cbn.
      destruct (m.(m_files) !! name) as [b|] eqn:Hb; [|by apply map_lookup_filter_None; left].
      apply map_lookup_filter_Some. split; [done|]. cbn. apply not_true_is_false. intros Hpre.
      assert (∀ a c, String.prefix a c = true → ∃ r, c = a +:+ r) as Hex.
      { clear. induction a as [|x a IH]; intros c Hc; [by exists c|]. destruct c as [|y c]; [done|].
        cbn in Hc. destruct (ascii_dec x y) as [->|]; [|done]. destruct (IH c Hc) as [r ->]. by exists r. }
      destruct (Hex _ _ Hpre) as [r ->]. by apply (Hn r).
  - intros m n. cbn [new_segment demo_kernel]. case_decide as Hlt; [|lia]. intros Hpos. split; [|done].
    apply eq_None_not_Some. intros [c Hc%elem_of_map_to_list].
    assert (∀ (l : list (Z * list Z)) x, x ∈ l → x.1 <= foldr (λ x, Z.max x.1) 0 l) as Hmax.
    { clear. induction l as [|y l IH]; intros x Hx; [by apply elem_of_nil in Hx|]. cbn.
      apply elem_of_cons in Hx as [->|Hx]; [lia|]. specialize (IH x Hx). lia. }
    specialize (Hmax _ _ Hc). cbn in Hmax. lia.
  - done.
Qed.

(** The command line [fuzzer -i in -o out -f cur -M m ./t]. *)
Definition demo_argv : list string := ["fuzzer"; "-i"; "in"; "-o"; "out"; "-f"; "cur"; "-M"; "m"; "./t"].
Definition demo_options : options := Options "cur" "in/" "out/" "m" "MASTER" false.
Definition demo_machine : machine :=
  Machine {["in"]} (<["in/a" := [65; 66; 67]]> ∅) ∅ ∅.
Definition demo_process : process := Process no_options "" "" demo_machine.

(** Without a target, [string(NULL)]. *)
Lemma no_target :
  (Init ["fuzzer"; "-i"; "in"; "-o"; "out"; "-f"; "cur"; "-b"] demo_process).1 = UB.
Proof. by vm_compute. Qed.

Lemma demo_tree : tree_ok demo_machine.
Proof.
  intros name p r [b Hb] E Hp. unfold demo_machine in Hb. cbn in Hb.
  apply lookup_insert_Some in Hb as [[<- _]|[_ Hb]]; [|by rewrite lookup_empty in Hb].
  assert (p = "in") as ->; [|cbn; set_solver].
  destruct p as [|c1 [|c2 [|c3 [|c4 [|c5 p]]]]]; vm_compute in E; try discriminate E.
  by injection E as <- <- _.
Qed.

Lemma demo_launch : launch_ok 8 demo_argv ["."; "a"; ".."] demo_options demo_machine.
Proof.
  split.
  - by repeat constructor.
  - exists 9%nat. split; [by vm_compute|by eexists].
  - done.
  - done.
  - by vm_compute.
  - apply demo_tree.
  - by vm_compute.
  - apply (bool_decide_unpack _). by vm_compute.
  - intros name b Hb.
    assert (map_Forall (λ _ b, zlen b < 2 ^ 28) demo_machine.(m_files)) as Hall
      by (apply (bool_decide_unpack _); by vm_compute).
    exact (Hall _ _ Hb).
  - split; [apply (bool_decide_unpack _); by vm_compute|]. exists "a".
    split; [|by split]. by apply list_elem_of_further, list_elem_of_here.
  - intros x. split; intros E; vm_compute in E; discriminate E.
  - done.
  - done.
Qed.




Lemma group_map_found_witness :
  wp (a ← multi_proc_shm_create "sync_file" 16; b ← multi_proc_shm_get "sync_file"; mret (a, b))
    (λ p m', p.2 = Some p.1 ∧ demo_machine.(m_segments) !! p.1 = None ∧
       m'.(m_segments) !! p.1 = Some (replicate (Z.to_nat 16) 255))
    (λ _ _, False) (λ c _, c = -1) demo_machine.
Proof. apply (@group_map_found demo_kernel demo_kernel_ok (λ _ _ _, eq_refl) "sync_file" 16 demo_machine). by apply list_elem_of_here. Defined.
