(* ===== verification/RandomFile.v ===== *)
(** * The file that stands for randomness

    Models [core/src/dst_default_random.c], from which the test driver, the clients
    and the fault injectors take every decision, and [split_files] of
    [core/src/dst_test_main.cpp], which deals the input of the fuzzer out to the
    processes.  The readers take turns by a lock; their interleavings are a step
    relation. *)

From S2P Require Import Prelude.
From S2P Require Import Decimal.

(** ** The reader *)

Record reader := Reader {
  fuzz_file_index : Z;
  fuzz_file_length : Z;
  fuzz_file_array : option (list Z);
}.
Definition set_index (x : Z) (r : reader) : reader :=
  Reader x r.(fuzz_file_length) r.(fuzz_file_array).

(** The static variables at the start of the process. *)
Definition fresh_reader : reader := Reader 0 0 None.

Definition read_byte : proc reader Z :=
  i ← gets fuzz_file_index;
  len ← gets fuzz_file_length;
  if decide (i >= len) then mret 0 else
  t ← from_option (λ r, a ← r.(fuzz_file_array); a !! Z.to_nat i);
  modify (set_index (u32 (i + 1))) ;;
  mret t.

(** The names start with two underscores in the source. *)
Definition dst_get_random_uint8_t : proc reader Z := read_byte.

Definition dst_get_random_uint16_t : proc reader Z :=
  result ← read_byte;
  let result := u16 (Z.shiftl result 8) in
  b ← read_byte;
  mret (Z.lor result b).

Definition dst_get_random_uint32_t : proc reader Z :=
  result ← read_byte;
  let result := u32 (Z.shiftl result 8) in
  b ← read_byte;
  let result := Z.lor result b in
  let result := u32 (Z.shiftl result 8) in
  b ← read_byte;
  let result := Z.lor result b in
  let result := u32 (Z.shiftl result 8) in
  b ← read_byte;
  mret (Z.lor result b).

Fixpoint read_bytes (n : nat) : proc reader (list Z) :=
  match n with
  | O => mret []
  | S n' => b ← read_byte; bs ← read_bytes n'; mret (b :: bs)
  end.
Definition dst_get_random_string (length : Z) : proc reader (list Z) :=
  read_bytes (Z.to_nat length).

(** ** Opening the file *)

Definition file_to_string (f : fs) (filename : string) : proc reader unit :=
  match f !! filename with
  | Some content =>
      modify (λ r, Reader r.(fuzz_file_index) (zlen content) (Some content))
  | None => exit_ (-1)
  end.

(** [env] is the value of [__DST_ENV_RANDOM_FILE__]. *)
Definition init_random_file (f : fs) (env : option string) : proc reader unit :=
  match env with Some name => file_to_string f name | None => mret tt end.

Definition dst_reinit_random (f : fs) (file_name : option string) : proc reader unit :=
  match file_name with Some name => file_to_string f name | None => mret tt end.

(** ** [split_files] *)

Definition node_file (i : Z) : string := "random_node" +:+ to_string i.
Definition write_files (node_count : Z) : list string :=
  "random.txt" :: (node_file <$> seqZ 0 node_count).

(** The piece of the file [f_index]. *)
Definition piece_of (content : list Z) (average_length : Z) (f_index : nat) : option (list Z) :=
  slice content (average_length * Z.of_nat f_index)
    (average_length * Z.of_nat (S f_index) - average_length * Z.of_nat f_index).

Fixpoint write_pieces (content : list Z) (average_length : Z) (f_index : nat)
    (names : list string) : proc fs unit :=
  match names with
  | [] => mret tt
  | name :: rest =>
      piece ← from_option (λ _, piece_of content average_length f_index);
      modify (λ f, <[name := piece]> f) ;;
      write_pieces content average_length (S f_index) rest
  end.

Definition split_files (initial_file : string) (node_count : Z) : proc (fs * reader) unit :=
  f ← gets fst;
  match f !! initial_file with
  | None => exit_ (-1)
  | Some content =>
      let names := write_files node_count in
      zoom fst (λ f s, (f, s.2)) (write_pieces content (zlen content / zlen names) 0 names) ;;
      f ← gets fst;
      zoom snd (λ r s, (s.1, r)) (dst_reinit_random f (Some "random.txt"))
  end.

(** ** The bytes that are left

    The reader is a stream: the rest of the file, then zeros. *)

Record reader_ok (r : reader) : Prop := ReaderOK {
  ro_index : 0 <= r.(fuzz_file_index) < 2 ^ 32;
  ro_length : 0 <= r.(fuzz_file_length) < 2 ^ 32;
  ro_array : ∃ a, r.(fuzz_file_length) = 0 ∧ a = [] ∨
    r.(fuzz_file_array) = Some a ∧ zlen a = r.(fuzz_file_length) ∧ Forall is_u8 a;
}.

Definition bytes_of (r : reader) : list Z :=
  if decide (r.(fuzz_file_length) = 0) then [] else default [] r.(fuzz_file_array).
Definition left_of (r : reader) : list Z := drop (Z.to_nat r.(fuzz_file_index)) (bytes_of r).

(** The abstract reader. *)
Definition next (l : list Z) : Z * list Z :=
  match l with [] => (0, []) | b :: l' => (b, l') end.
Fixpoint next_n (n : nat) (l : list Z) : list Z * list Z :=
  match n with
  | O => ([], l)
  | S n' => let '(b, l1) := next l in let '(bs, l2) := next_n n' l1 in (b :: bs, l2)
  end.

Lemma next_n_spec n l :
  next_n n l = (take n l ++ replicate (n - length l) 0, drop n l).
Proof.
  revert l. induction n as [|n IH]; intros l; [done|]. cbn [next_n].
  destruct l as [|b l]; cbn [next]; rewrite IH.
  - by rewrite !take_nil, !drop_nil, !Nat.sub_0_r.
  - done.
Qed.

Lemma read_byte_run r : reader_ok r →
  ∃ r', read_byte r = (Norm (next (left_of r)).1, r') ∧ reader_ok r' ∧
    left_of r' = (next (left_of r)).2 ∧ is_u8 (next (left_of r)).1.
Proof.
  intros [Hi Hl [a Ha]]. unfold read_byte, mbind, proc_bind, gets.
  case_decide as Hd.
  - assert (left_of r = []) as ->.
    { unfold left_of, bytes_of. case_decide; [apply drop_nil|].
      destruct Ha as [[? _]|(->&Hla&_)]; [done|]. apply drop_ge. cbn. unfold zlen in Hla. lia. }
    exists r. split; [done|]. split; [by split; [..|exists a]|].
    split; [|apply is_u8_0]. unfold left_of, bytes_of. case_decide; [apply drop_nil|].
    destruct Ha as [[? _]|(->&Hla&_)]; [done|]. apply drop_ge. cbn. unfold zlen in Hla. lia.
  - destruct Ha as [[? _]|(Ea&Hla&Hb)]; [lia|]. unfold from_option. rewrite Ea. cbn [mbind option_bind].
    destruct (lookup_lt_is_Some_2 a (Z.to_nat r.(fuzz_file_index))) as [b Hb1]; [unfold zlen in Hla; lia|].
    rewrite Hb1. assert (left_of r = b :: drop (S (Z.to_nat r.(fuzz_file_index))) a) as ->.
    { unfold left_of, bytes_of. rewrite decide_False by lia. rewrite Ea. cbn. by apply drop_S. }
    cbn [next fst snd]. eexists. split; [reflexivity|]. rewrite u32_id by (unfold is_u32; lia).
    split; [split; cbn; [lia|lia|exists a; right; done]|]. split.
    + unfold left_of, bytes_of. cbn. rewrite decide_False by lia. rewrite Ea. cbn. f_equal. lia.
    + by apply (proj1 (Forall_lookup _ _) Hb (Z.to_nat r.(fuzz_file_index))).
Qed.

(** ** Sequences of requests *)

Inductive request := U8 | U16 | U32 | Str (length : Z).

Definition size_of (q : request) : nat :=
  match q with U8 => 1 | U16 => 2 | U32 => 4 | Str n => Z.to_nat n end.

(** What the four functions return; the integers are read big end first. *)
Definition serve (q : request) : proc reader (Z + list Z) :=
  match q with
  | U8 => v ← dst_get_random_uint8_t; mret (inl v)
  | U16 => v ← dst_get_random_uint16_t; mret (inl v)
  | U32 => v ← dst_get_random_uint32_t; mret (inl v)
  | Str n => l ← dst_get_random_string n; mret (inr l)
  end.
Fixpoint serve_all (qs : list request) : proc reader (list (Z + list Z)) :=
  match qs with
  | [] => mret []
  | q :: qs' => a ← serve q; l ← serve_all qs'; mret (a :: l)
  end.

Definition be_value (bs : list Z) : Z := foldl (λ v b, v * 2 ^ 8 + b) 0 bs.
Definition answer (q : request) (bs : list Z) : Z + list Z :=
  match q with Str _ => inr bs | _ => inl (be_value bs) end.
Fixpoint answers (qs : list request) (l : list Z) : list (Z + list Z) * list Z :=
  match qs with
  | [] => ([], l)
  | q :: qs' =>
      let '(bs, l1) := next_n (size_of q) l in
      let '(rest, l2) := answers qs' l1 in (answer q bs :: rest, l2)
  end.

(** A byte is appended to a number. *)
Lemma append_byte v b : 0 <= v → is_u8 b → Z.lor (Z.shiftl v 8) b = v * 2 ^ 8 + b.
Proof.
  intros Hv Hb. rewrite <-Z.add_nocarry_lor; [rewrite Z.shiftl_mul_pow2; lia|].
  apply Z.bits_inj'. intros i Hi. rewrite Z.land_spec, Z.bits_0, Z.shiftl_spec by done.
  destruct (decide (i < 8)).
  - by rewrite Z.testbit_neg_r by lia.
  - rewrite (testbit_high b 8) by (unfold is_u8 in Hb; lia). apply andb_false_r.
Qed.

Lemma append_u16 v b : is_u8 v → is_u8 b → Z.lor (u16 (Z.shiftl v 8)) b = v * 2 ^ 8 + b.
Proof.
  intros Hv Hb. unfold u16, is_u8 in *. rewrite Z.mod_small; [apply append_byte; unfold is_u8; lia|].
  rewrite Z.shiftl_mul_pow2; lia.
Qed.

Lemma append_u32 v b : 0 <= v < 2 ^ 24 → is_u8 b →
  Z.lor (u32 (Z.shiftl v 8)) b = v * 2 ^ 8 + b ∧ 0 <= v * 2 ^ 8 + b < 2 ^ 32.
Proof.
  intros Hv Hb. unfold u32, is_u8 in *. rewrite Z.mod_small; [|rewrite Z.shiftl_mul_pow2; lia].
  split; [apply append_byte; unfold is_u8; lia|lia].
Qed.

(** Reading [n] bytes. *)
Lemma read_bytes_run n r : reader_ok r →
  ∃ r', read_bytes n r = (Norm (next_n n (left_of r)).1, r') ∧ reader_ok r' ∧
    left_of r' = (next_n n (left_of r)).2.
Proof.
  revert r. induction n as [|n IH]; intros r Hr; [by exists r|].
  destruct (read_byte_run r Hr) as (r1&E1&Hr1&Hl1&_). destruct (IH r1 Hr1) as (r2&E2&Hr2&Hl2).
  exists r2. cbn [read_bytes next_n]. unfold mbind at 1, proc_bind. rewrite E1.
  unfold mbind, proc_bind. rewrite E2, Hl2, Hl1. destruct (next (left_of r)) as [b l].
  cbn [fst snd]. by destruct (next_n n l).
Qed.

Ltac read_one r := let r' := fresh "r" in let E := fresh "E" in let Hr := fresh "Hr" in
  let Hl := fresh "Hl" in let Hb := fresh "Hb" in
  destruct (read_byte_run r) as (r'&E&Hr&Hl&Hb); [done|].

Lemma serve_run q r : reader_ok r →
  ∃ r', serve q r = (Norm (answer q (next_n (size_of q) (left_of r)).1), r') ∧ reader_ok r' ∧
    left_of r' = (next_n (size_of q) (left_of r)).2.
Proof.
  intros Hr. destruct q as [| | |n]; cbn [serve size_of].
  - read_one r. exists r0. unfold mbind, proc_bind, dst_get_random_uint8_t. rewrite E, Hl.
    cbn [next_n]. by destruct (next (left_of r)).
  - read_one r. read_one r0. exists r1. unfold mbind at 1, proc_bind at 1, dst_get_random_uint16_t.
    unfold mbind, proc_bind. rewrite E, E0. cbv beta iota. rewrite append_u16 by done.
    rewrite Hl0, Hl. rewrite Hl in *. cbn [next_n]. destruct (next (left_of r)) as [b l]. cbn [fst snd] in *.
    by destruct (next l).
  - read_one r. read_one r0. read_one r1. read_one r2. exists r3.
    unfold mbind at 1, proc_bind at 1, dst_get_random_uint32_t.
    unfold mbind, proc_bind. rewrite E, E0, E1, E2. cbv beta iota zeta.
    rewrite Hl2, Hl1, Hl0, Hl in *. cbn [next_n]. destruct (next (left_of r)) as [b0 l0].
    cbn [fst snd] in *. destruct (next l0) as [b1 l1]. cbn [fst snd] in *.
    destruct (next l1) as [b2 l2]. cbn [fst snd] in *. destruct (next l2) as [b3 l3]. cbn [fst snd] in *.
    unfold is_u8 in *.
    destruct (append_u32 b0 b1) as [-> ?]; [lia|done|].
    destruct (append_u32 (b0 * 2 ^ 8 + b1) b2) as [-> ?]; [lia|done|].
    destruct (append_u32 ((b0 * 2 ^ 8 + b1) * 2 ^ 8 + b2) b3) as [-> ?]; [lia|done|]. done.
  - destruct (read_bytes_run (Z.to_nat n) r Hr) as (r'&E&Hr'&Hl). exists r'.
    unfold mbind, proc_bind, dst_get_random_string. by rewrite E.
Qed.

Lemma serve_all_run qs r : reader_ok r →
  ∃ r', serve_all qs r = (Norm (answers qs (left_of r)).1, r') ∧ reader_ok r' ∧
    left_of r' = (answers qs (left_of r)).2 ∧
    left_of r' = drop (sum_list_with size_of qs) (left_of r).
Proof.
  revert r. induction qs as [|q qs IH]; intros r Hr; [exists r; by rewrite drop_0|].
  destruct (serve_run q r Hr) as (r1&E1&Hr1&Hl1). destruct (IH r1 Hr1) as (r2&E2&Hr2&Hl2&Hd2).
  rewrite Hl1 in *. pose proof (next_n_spec (size_of q) (left_of r)) as Hn.
  exists r2. cbn [serve_all answers sum_list_with]. unfold mbind at 1, proc_bind at 1. rewrite E1.
  unfold mbind, proc_bind. rewrite E2. rewrite Hn in *. cbn [fst snd] in *. rewrite drop_drop in Hd2.
  split; [|split; [done|split; [|by rewrite Hd2; f_equal; lia]]];
    [|rewrite Hl2]; by destruct (answers qs (drop (size_of q) (left_of r))).
Qed.

(** C18. The four random functions are one stream: any sequence of calls returns
    consecutive pieces of the file, each byte once and in order, integers with the
    first byte as the highest, and zeros when the file is used up; the reader
    refines the list of the bytes that are left.  No call is undefined. *)
Theorem random_stream qs r : reader_ok r →
  ∃ r', serve_all qs r = (Norm (answers qs (left_of r)).1, r') ∧ reader_ok r' ∧
    left_of r' = (answers qs (left_of r)).2 ∧
    left_of r' = drop (sum_list_with size_of qs) (left_of r).
Proof. apply serve_all_run. Qed.

Lemma random_stream_witness :
  ∃ r', serve_all [U8; U16; U32; Str 2] (Reader 0 8 (Some [1; 2; 3; 4; 5; 6; 7; 8])) =
      (Norm [inl 1; inl 515; inl 67438087; inr [8; 0]], r') ∧ reader_ok r' ∧
    left_of r' = [] ∧ left_of r' = drop 9 [1; 2; 3; 4; 5; 6; 7; 8].
Proof.
  apply (random_stream [U8; U16; U32; Str 2] (Reader 0 8 (Some [1; 2; 3; 4; 5; 6; 7; 8]))).
  split; cbn; [lia|lia|]. exists [1; 2; 3; 4; 5; 6; 7; 8]. right.
  split; [done|]. split; [done|]. apply (bool_decide_unpack _). vm_compute. exact I.
Defined.

(** ** Dealing out the input *)

Lemma node_file_inj i j : is_u64 i → is_u64 j → node_file i = node_file j → i = j.
Proof. intros Hi Hj E. apply to_string_inj; [done..|]. by injection E. Qed.

Lemma write_files_nodup n : 0 <= n < 2 ^ 32 → NoDup (write_files n).
Proof.
  intros Hn. unfold write_files. constructor.
  - intros Hin. by apply list_elem_of_fmap in Hin as (i&E&_).
  - assert (∀ l, NoDup l → (∀ i, i ∈ l → is_u64 i) → NoDup (node_file <$> l)) as Hinj.
    { induction 1 as [|i l Hi Hl IH]; intros Hr; [constructor|]. cbn. constructor.
      - intros Hin. apply list_elem_of_fmap in Hin as (j&E&Hj). apply node_file_inj in E as ->; [done|..];
          apply Hr; [left|by right].
      - apply IH. intros j Hj. apply Hr. by right. }
    apply Hinj; [apply NoDup_seqZ|]. intros i Hi. apply elem_of_seqZ in Hi. unfold is_u64. lia.
Qed.

Lemma zlen_write_files n : 0 <= n → zlen (write_files n) = n + 1.
Proof. intros Hn. unfold zlen, write_files. cbn [length]. rewrite length_fmap, length_seqZ. lia. Qed.

Lemma piece_of_run content a i : 0 <= a → a * Z.of_nat (S i) <= zlen content →
  piece_of content a i = Some (take (Z.to_nat a) (drop (Z.to_nat a * i) content)).
Proof.
  intros Ha Hl. unfold piece_of. rewrite slice_is_Some by nia.
  f_equal. f_equal; [lia|]. f_equal. nia.
Qed.

(** The pieces are written one after the other. *)
Lemma write_pieces_run content a k names f : 0 <= a →
  a * Z.of_nat (k + length names) <= zlen content → NoDup names →
  ∃ f', write_pieces content a k names f = (Norm tt, f') ∧
    (∀ i name, names !! i = Some name →
       f' !! name = Some (take (Z.to_nat a) (drop (Z.to_nat a * (k + i)) content))) ∧
    (∀ name, name ∉ names → f' !! name = f !! name).
Proof.
  intros Ha. revert k f. induction names as [|name names IH]; intros k f Hl Hnd; [by exists f|].
  pose proof (NoDup_cons_1_1 _ _ Hnd) as Hin. apply NoDup_cons_1_2 in Hnd. cbn [length] in Hl.
  destruct (IH (S k) (<[name := take (Z.to_nat a) (drop (Z.to_nat a * k) content)]> f)) as (f'&E&Hf&Hother);
    [replace (S k + length names)%nat with (k + S (length names))%nat by lia; lia|done|].
  exists f'. cbn [write_pieces]. unfold mbind, proc_bind, from_option, modify.
  rewrite piece_of_run by nia. rewrite E. split; [done|]. split.
  - intros [|i] x Hx; cbn in Hx.
    + injection Hx as <-. rewrite Hother by done. rewrite lookup_insert_eq. by rewrite Nat.add_0_r.
    + rewrite (Hf i x Hx). do 3 f_equal. lia.
  - intros x Hx. apply not_elem_of_cons in Hx as [Hne Hx]. rewrite Hother by done.
    by rewrite lookup_insert_ne.
Qed.

(** The first [n] pieces of [a] bytes are the first [n * a] bytes. *)
Lemma concat_pieces (content : list Z) a n :
  concat ((λ i, take a (drop (a * i) content)) <$> seq 0 n) = take (a * n) content.
Proof.
  induction n as [|n IH]; [by rewrite Nat.mul_0_r|].
  rewrite seq_S, fmap_app, concat_app, IH. cbn. rewrite app_nil_r.
  rewrite take_take_drop. f_equal. lia.
Qed.

(** The [k]-th piece of the input when it is dealt out to [n] nodes and the driver. *)
Definition share (content : list Z) (n : Z) (k : nat) : list Z :=
  let a := Z.to_nat (zlen content / (n + 1)) in take a (drop (a * k) content).

Lemma zlen_share content n k : 0 <= n → Z.of_nat k <= n → zlen (share content n k) = zlen content / (n + 1).
Proof.
  intros Hn Hk. pose proof (zlen_nonneg content). unfold share.
  pose proof (Z.div_pos (zlen content) (n + 1) ltac:(lia) ltac:(lia)).
  pose proof (Z.mul_div_le (zlen content) (n + 1) ltac:(lia)).
  unfold zlen in *. rewrite length_take, length_drop. nia.
Qed.

Lemma share_u8 content n k : Forall is_u8 content → Forall is_u8 (share content n k).
Proof. intros H. by apply Forall_take, Forall_drop. Qed.

(** The shares are the input but for its last bytes. *)
Lemma shares_concat content n : 0 <= n →
  ∃ rest, content = concat (share content n <$> seq 0 (S (Z.to_nat n))) ++ rest ∧ zlen rest <= n.
Proof.
  intros Hn. set (a := Z.to_nat (zlen content / (n + 1))). exists (drop (a * S (Z.to_nat n)) content).
  unfold share. rewrite (concat_pieces content a), take_drop. split; [done|].
  pose proof (zlen_nonneg content). pose proof (Z.mul_succ_div_gt (zlen content) (n + 1) ltac:(lia)) as Hgt.
  pose proof (Z.div_pos (zlen content) (n + 1) ltac:(lia) ltac:(lia)).
  unfold zlen in *. rewrite length_drop. subst a. nia.
Qed.

(** The file of each process after [split_files]. *)
Lemma split_files_shares name content n f r :
  f !! name = Some content → 0 <= n < 2 ^ 32 →
  ∃ f', split_files name n (f, r) =
      (Norm tt, (f', Reader r.(fuzz_file_index) (zlen (share content n 0)) (Some (share content n 0)))) ∧
    (∀ k x, write_files n !! k = Some x → f' !! x = Some (share content n k)) ∧
    (∀ x, x ∉ write_files n → f' !! x = f !! x).
Proof.
  intros Hf Hn. pose proof (zlen_nonneg content) as Hc0.
  pose proof (zlen_write_files n ltac:(lia)) as Hz.
  destruct (write_pieces_run content (zlen content / (n + 1)) 0 (write_files n) f) as (f'&E&Hp&Ho);
    [apply Z.div_pos; lia| |by apply write_files_nodup|].
  { rewrite Nat.add_0_l. unfold zlen in Hz at 1. rewrite Hz, Z.mul_comm. apply Z.mul_div_le. lia. }
  exists f'. split; [|by split].
  unfold split_files, mbind, proc_bind, gets. cbn [fst]. rewrite Hf. unfold zoom. cbn [fst].
  rewrite Hz, E. cbn [fst snd]. unfold dst_reinit_random, file_to_string.
  by rewrite (Hp 0%nat "random.txt" eq_refl).
Qed.

(** A reader that has just been given a file. *)
Lemma opened_reader_ok i l : 0 <= i < 2 ^ 32 → zlen l < 2 ^ 32 → Forall is_u8 l →
  reader_ok (Reader i (zlen l) (Some l)) ∧ bytes_of (Reader i (zlen l) (Some l)) = l.
Proof.
  intros Hi Hl Hb. pose proof (zlen_nonneg l). split.
  - split; cbn; [lia|lia|]. exists l. by right.
  - unfold bytes_of. cbn [fuzz_file_length fuzz_file_array]. case_decide as E; [|done].
    destruct l; [done|]. unfold zlen in E. cbn in E. lia.
Qed.

Lemma split_files_run name content n f r :
  f !! name = Some content → 0 <= n < 2 ^ 32 → zlen content < 2 ^ 32 → Forall is_u8 content →
  0 <= r.(fuzz_file_index) < 2 ^ 32 →
  let names := write_files n in
  ∃ f' r', split_files name n (f, r) = (Norm tt, (f', r')) ∧
    (∃ pieces, Forall2 (λ name piece, f' !! name = Some piece) names pieces ∧
       Forall (λ piece, zlen piece = zlen content / (n + 1)) pieces ∧
       ∃ rest, content = concat pieces ++ rest ∧ zlen rest <= n) ∧
    (∀ x, x ∉ names → f' !! x = f !! x) ∧
    reader_ok r' ∧ Some (bytes_of r') = f' !! "random.txt" ∧ r'.(fuzz_file_index) = r.(fuzz_file_index).
Proof.
  intros Hf Hn Hc Hb Hr names. pose proof (zlen_nonneg content) as Hc0.
  pose proof (zlen_write_files n ltac:(lia)) as Hz. fold names in Hz.
  destruct (split_files_shares name content n f r Hf Hn) as (f'&E&Hp&Ho). fold names in Hp, Ho.
  pose proof (zlen_share content n 0 ltac:(lia) ltac:(lia)) as Hs.
  pose proof (Z.div_le_upper_bound (zlen content) (n + 1) (zlen content) ltac:(lia) ltac:(nia)) as Hle.
  destruct (opened_reader_ok r.(fuzz_file_index) (share content n 0)) as [Hok Hby];
    [done|lia|by apply share_u8|].
  eexists f', _. split; [exact E|].
  split; [|split; [done|split; [done|split; [by rewrite Hby, (Hp 0%nat "random.txt")|done]]]].
  exists (share content n <$> seq 0 (length names)). split; [|split].
  - apply Forall2_fmap_r. apply Forall2_same_length_lookup_2; [by rewrite length_seq|].
    intros i x j Hx Hj. apply lookup_seq in Hj as [-> _]. by apply Hp.
  - apply Forall_fmap, Forall_forall. intros i Hi. apply in_seq in Hi. apply zlen_share; unfold zlen in Hz; lia.
  - replace (length names) with (S (Z.to_nat n)) by (unfold zlen in Hz; lia). apply shares_concat. lia.
Qed.

(** [split_files] deals the input of the fuzzer out: the driver's file and the
    file of every node hold consecutive pieces of the same length, no byte is given
    to two processes, fewer bytes than there are files are left over, no other file
    is touched, and the driver goes on reading from its piece. *)
Theorem split_files_deals name content n f r :
  f !! name = Some content → 0 <= n < 2 ^ 32 → zlen content < 2 ^ 32 → Forall is_u8 content →
  0 <= r.(fuzz_file_index) < 2 ^ 32 →
  let names := write_files n in
  ∃ f' r', split_files name n (f, r) = (Norm tt, (f', r')) ∧
    (∃ pieces, Forall2 (λ name piece, f' !! name = Some piece) names pieces ∧
       Forall (λ piece, zlen piece = zlen content / (n + 1)) pieces ∧
       ∃ rest, content = concat pieces ++ rest ∧ zlen rest <= n) ∧
    (∀ x, x ∉ names → f' !! x = f !! x) ∧
    reader_ok r' ∧ Some (bytes_of r') = f' !! "random.txt" ∧ r'.(fuzz_file_index) = r.(fuzz_file_index).
Proof. apply split_files_run. Qed.

Lemma split_files_deals_witness :
  let names := write_files 2 in
  let content := [1; 2; 3; 4; 5; 6; 7] in
  ∃ f' r', split_files "input" 2 ({["input" := content]}, fresh_reader) = (Norm tt, (f', r')) ∧
    (∃ pieces, Forall2 (λ name piece, f' !! name = Some piece) names pieces ∧
       Forall (λ piece, zlen piece = 2) pieces ∧
       ∃ rest, content = concat pieces ++ rest ∧ zlen rest <= 2) ∧
    (∀ x, x ∉ names → f' !! x = ({["input" := content]} : fs) !! x) ∧
    reader_ok r' ∧ Some (bytes_of r') = f' !! "random.txt" ∧ r'.(fuzz_file_index) = 0.
Proof.
  apply (split_files_deals "input" [1; 2; 3; 4; 5; 6; 7] 2 {["input" := [1; 2; 3; 4; 5; 6; 7]]} fresh_reader);
    [done|lia|done| |cbn; lia].
  apply (bool_decide_unpack _). vm_compute. exact I.
Defined.
