(* ===== verification/RandomLock.v ===== *)
(** * Threads that draw random bytes

    The functions of [core/src/dst_default_random.c] are called from every thread of
    a process: the operators of the driver, the clients, the threads of a server.
    They take the static mutex [lock], read their bytes one at a time and release
    it.  This file models the interleavings of those three actions as a step
    relation and shows that the calls are atomic and that none is starved by a
    deadlock. *)

From S2P Require Import Prelude.
From S2P Require Import RandomFile.

(** ** Threads and steps *)

(** A thread is outside of the library, waits in [pthread_mutex_lock], or is between
    the lock and the unlock with the bytes it has got. *)
Inductive thread := Idle | Waiting (q : request) | Holding (q : request) (got : list Z).

(** [served] lists the calls that have returned, in the order of their unlocks. *)
Record system := System {
  file : reader;
  lock : option nat;
  threads : list thread;
  served : list (nat * request * (Z + list Z));
}.

(** Entering one of the functions. *)
Definition enter (i : nat) (q : request) (s : system) : system :=
  System s.(file) s.(lock) (<[i := Waiting q]> s.(threads)) s.(served).

(** The actions of a call.  Reading a byte does not look at the lock. *)
Inductive work (s : system) : system → Prop :=
  | work_lock i q :
      s.(threads) !! i = Some (Waiting q) → s.(lock) = None →
      work s (System s.(file) (Some i) (<[i := Holding q []]> s.(threads)) s.(served))
  | work_read i q got b file' :
      s.(threads) !! i = Some (Holding q got) → (length got < size_of q)%nat →
      read_byte s.(file) = (Norm b, file') →
      work s (System file' s.(lock) (<[i := Holding q (got ++ [b])]> s.(threads)) s.(served))
  | work_unlock i q got :
      s.(threads) !! i = Some (Holding q got) → length got = size_of q →
      work s (System s.(file) None (<[i := Idle]> s.(threads)) (s.(served) ++ [(i, q, answer q got)])).

Inductive step (s : system) : system → Prop :=
  | step_enter i q : s.(threads) !! i = Some Idle → step s (enter i q s)
  | step_work s' : work s s' → step s s'.

(** [n] threads, none of them in a call. *)
Definition at_rest (r : reader) (n : nat) : system := System r None (replicate n Idle) [].

(** ** Atomicity *)

Definition served_requests (s : system) : list request := (λ x, x.1.2) <$> s.(served).
Definition served_answers (s : system) : list (Z + list Z) := snd <$> s.(served).

Lemma next_n_snoc n l got l1 b l2 :
  next_n n l = (got, l1) → next l1 = (b, l2) → next_n (S n) l = (got ++ [b], l2).
Proof.
  revert l got. induction n as [|n IH]; intros l got.
  - intros [= <- ->] E. cbn [next_n]. by rewrite E.
  - cbn [next_n]. destruct (next l) as [b0 l0]. destruct (next_n n l0) as [bs l3] eqn:E1.
    intros [= <- ->] E. specialize (IH l0 bs E1 E). cbn [next_n] in IH. destruct (next l0) as [b3 l3].
    destruct (next_n n l3) as [bs' l4]. by injection IH as -> ->.
Qed.

Lemma answers_snoc qs q l :
  answers (qs ++ [q]) l =
  let '(vs, l1) := answers qs l in
  let '(bs, l2) := next_n (size_of q) l1 in (vs ++ [answer q bs], l2).
Proof.
  revert l. induction qs as [|q0 qs IH]; intros l; cbn [answers app].
  - by destruct (next_n (size_of q) l).
  - destruct (next_n (size_of q0) l) as [bs l1]. rewrite IH. destruct (answers qs l1) as [vs l2].
    by destruct (next_n (size_of q) l2).
Qed.

(** What holds between two actions: only the thread that has the lock has begun to
    read, its bytes are the next ones after those of the calls that have returned. *)
Record lock_inv (l0 : list Z) (s : system) : Prop := LockInv {
  li_file : reader_ok s.(file);
  li_owner : ∀ i q got, s.(threads) !! i = Some (Holding q got) → s.(lock) = Some i;
  li_free : s.(lock) = None → left_of s.(file) = (answers (served_requests s) l0).2;
  li_held : ∀ i, s.(lock) = Some i → ∃ q got,
    s.(threads) !! i = Some (Holding q got) ∧ (length got ≤ size_of q)%nat ∧
    next_n (length got) (answers (served_requests s) l0).2 = (got, left_of s.(file));
  li_answers : served_answers s = (answers (served_requests s) l0).1;
}.

Lemma at_rest_inv r n : reader_ok r → lock_inv (left_of r) (at_rest r n).
Proof.
  intros Hr. split; cbn; try done. intros i q got Hi. by apply lookup_replicate in Hi as [? _].
Qed.

Lemma enter_inv l0 i q s : s.(threads) !! i = Some Idle → lock_inv l0 s → lock_inv l0 (enter i q s).
Proof.
  intros Hi [Hf Ho Hn Hh Ha]. split; cbn; [done| |done| |done].
  - intros j q' got. rewrite list_lookup_insert_Some. naive_solver.
  - intros j Hj. destruct (Hh j Hj) as (q'&got&E&Hg). exists q', got.
    rewrite list_lookup_insert_ne by congruence. done.
Qed.

Lemma work_inv l0 s s' : work s s' → lock_inv l0 s → lock_inv l0 s'.
Proof.
  destruct s as [r lk ths sv]. intros Hw [Hf Ho Hn Hh Ha]. cbn in *.
  destruct Hw as [i q Hi Hl|i q got b r' Hi Hlt E|i q got Hi Hl]; cbn in *.
  - subst lk. split; cbn; [done| |done| |done].
    + intros j q' got. rewrite list_lookup_insert_Some. intros [(->&_)|(_&Hj)]; [done|].
      by specialize (Ho _ _ _ Hj).
    + intros j [= <-]. exists q, []. rewrite list_lookup_insert_eq by by eapply lookup_lt_Some.
      split; [done|]. split; [cbn; lia|]. cbn [next_n length]. by rewrite Hn.
  - pose proof (Ho _ _ _ Hi) as ->. destruct (Hh i eq_refl) as (q1&got1&E1&Hle&Hgot).
    assert (q1 = q ∧ got1 = got) as [-> ->] by naive_solver.
    destruct (read_byte_run r Hf) as (r1&Er&Hr1&Hl1&_). rewrite Er in E. injection E as <- <-.
    split; cbn; [done| |done| |done].
    + intros j q' got'. rewrite list_lookup_insert_Some. naive_solver.
    + intros j [= <-]. eexists q, _. rewrite list_lookup_insert_eq by by eapply lookup_lt_Some.
      split; [done|]. rewrite length_app. cbn [length]. split; [lia|].
      rewrite Nat.add_1_r. eapply next_n_snoc; [exact Hgot|]. rewrite Hl1. apply surjective_pairing.
  - pose proof (Ho _ _ _ Hi) as ->. destruct (Hh i eq_refl) as (q1&got1&E1&Hle&Hgot).
    assert (q1 = q ∧ got1 = got) as [-> ->] by naive_solver. rewrite Hl in Hgot.
    unfold served_requests, served_answers in *. cbn in *.
    split; unfold served_requests, served_answers; cbn; [done| | |done|].
    + intros j q' got'. rewrite list_lookup_insert_Some. intros [(?&?&?)|(Hne&Hj)]; [done|].
      specialize (Ho _ _ _ Hj). congruence.
    + intros _. rewrite fmap_app. cbn. rewrite answers_snoc.
      destruct (answers _ l0) as [vs l1]. cbn in Hgot. by rewrite Hgot.
    + rewrite !fmap_app. cbn. rewrite answers_snoc, Ha.
      destruct (answers _ l0) as [vs l1]. cbn in Hgot. by rewrite Hgot.
Qed.

Lemma step_inv l0 s s' : step s s' → lock_inv l0 s → lock_inv l0 s'.
Proof. intros [i q Hi|s1 Hw]; [by apply enter_inv|by apply work_inv]. Qed.

Lemma steps_inv l0 s s' : rtc step s s' → lock_inv l0 s → lock_inv l0 s'.
Proof. induction 1; eauto using step_inv. Qed.

(** C23. However the threads are interleaved, the calls that have returned got what
    the same calls would have got one after the other, in the order in which they
    released the lock; no two threads are ever between lock and unlock. *)
Theorem random_atomic r n s : reader_ok r → rtc step (at_rest r n) s →
  (∃ r', serve_all (served_requests s) r = (Norm (served_answers s), r')) ∧
  (∀ i j q q' got got', s.(threads) !! i = Some (Holding q got) →
     s.(threads) !! j = Some (Holding q' got') → i = j).
Proof.
  intros Hr Hs. pose proof (steps_inv _ _ _ Hs (at_rest_inv r n Hr)) as [_ Ho _ _ Ha]. split.
  - rewrite Ha. destruct (serve_all_run (served_requests s) r Hr) as (r'&E&_). eauto.
  - intros i j q q' got got' Hi%Ho Hj%Ho. congruence.
Qed.

(** ** Progress *)

(** The actions a thread still has to do. *)
Definition todo (t : thread) : nat :=
  match t with
  | Idle => 0
  | Waiting q => 2 + size_of q
  | Holding q got => 1 + (size_of q - length got)
  end.
Definition work_left (s : system) : nat := sum_list_with todo s.(threads).

Lemma sum_insert (l : list thread) i t t' : l !! i = Some t →
  (sum_list_with todo (<[i := t']> l) + todo t = sum_list_with todo l + todo t')%nat.
Proof.
  revert i. induction l as [|x l IH]; intros [|i] E; try done.
  - injection E as ->. cbn. lia.
  - specialize (IH i E). change (<[S i := t']> (x :: l)) with (x :: <[i := t']> l).
    cbn [sum_list_with]. lia.
Qed.

Lemma work_decreases s s' : work s s' → work_left s = S (work_left s').
Proof.
  intros [i q Hi Hl|i q got b f Hi Hlt E|i q got Hi Hl]; unfold work_left; cbn [threads];
    match goal with |- context [<[i := ?t]> _] => pose proof (sum_insert _ i _ t Hi) as H end;
    cbn [todo] in H; rewrite ?length_app in H; cbn [length] in H; lia.
Qed.

Lemma some_todo (l : list thread) : sum_list_with todo l ≠ 0%nat →
  ∃ i t, l !! i = Some t ∧ todo t ≠ 0%nat.
Proof.
  induction l as [|t l IH]; intros Hw; [done|]. cbn [sum_list_with] in Hw.
  destruct (decide (todo t = 0%nat)) as [E|]; [|by exists 0%nat, t].
  destruct IH as (i&t'&?&?); [lia|]. by exists (S i), t'.
Qed.

Lemma all_idle (l : list thread) : sum_list_with todo l = 0%nat → Forall (λ t, t = Idle) l.
Proof.
  induction l as [|t l IH]; intros E; cbn [sum_list_with] in E; constructor.
  - destruct t; cbn [todo] in E; [done|lia..].
  - apply IH. lia.
Qed.

Lemma work_exists l0 s : lock_inv l0 s → work_left s ≠ 0%nat → ∃ s', work s s'.
Proof.
  intros [Hf Ho _ Hh _] Hw. destruct s.(lock) as [i|] eqn:El.
  - destruct (Hh i eq_refl) as (q&got&Hi&Hle&_). destruct (decide (length got = size_of q)).
    + eexists. by eapply work_unlock.
    + destruct (read_byte_run s.(file) Hf) as (r'&E&_). eexists. eapply work_read; [done|lia|done].
  - assert (∃ i t, s.(threads) !! i = Some t ∧ todo t ≠ 0%nat) as (i&t&Hi&Ht).
    { by apply some_todo. }
    destruct t as [|q|q got]; [done| |by apply Ho in Hi; congruence].
    eexists. by eapply work_lock.
Qed.

(** C29. No deadlock and no starvation by the lock: when no new call is made, the
    calls that are under way can always go on, every schedule of them ends after the
    same number of actions, [work_left], and then all of them have returned. *)
Theorem random_progress r n s k s' : reader_ok r → rtc step (at_rest r n) s →
  nsteps work k s s' →
  (k + work_left s' = work_left s)%nat ∧
  ((∃ s'', work s' s'') ∨ k = work_left s ∧ Forall (λ t, t = Idle) s'.(threads)).
Proof.
  intros Hr Hs Hk. pose proof (steps_inv _ _ _ Hs (at_rest_inv r n Hr)) as Hi. clear Hs.
  induction Hk as [s|k s s1 s2 Hw Hk IH].
  - split; [done|]. destruct (decide (work_left s = 0%nat)) as [E|E].
    + right. split; [by rewrite E|by apply all_idle].
    + left. by eapply work_exists.
  - pose proof (work_decreases _ _ Hw) as Hd. destruct (IH (work_inv _ _ _ Hw Hi)) as [E Ho].
    split; [lia|]. destruct Ho as [Ho|[-> Ho]]; [by left|right; split; [lia|done]].
Qed.

(** Two threads: the second call comes while the first one holds the lock. *)
Definition demo_reader : reader := Reader 0 3 (Some [7; 8; 9]).
Definition demo_two : system :=
  System (Reader 1 3 (Some [7; 8; 9])) (Some 0%nat) [Holding U16 [7]; Waiting U8] [].
Definition demo_served : system :=
  System (Reader 2 3 (Some [7; 8; 9])) None [Idle; Waiting U8] [(0%nat, U16, inl 1800)].

Lemma demo_reader_ok : reader_ok demo_reader.
Proof.
  split; cbn; [lia|lia|]. exists [7; 8; 9]. right. split; [done|]. split; [done|].
  apply (bool_decide_unpack _). vm_compute. exact I.
Qed.

Lemma demo_two_reached : rtc step (at_rest demo_reader 2) demo_two.
Proof.
  eapply rtc_l; [by apply (step_enter _ 0 U16)|].
  eapply rtc_l; [apply step_work; by apply (work_lock _ 0 U16)|].
  eapply rtc_l; [by apply (step_enter _ 1 U8)|].
  eapply rtc_l; [|apply rtc_refl].
  apply step_work.
  apply (work_read (System demo_reader (Some 0%nat) [Holding U16 []; Waiting U8] [])
    0 U16 [] 7 (Reader 1 3 (Some [7; 8; 9]))); cbn; [done|lia|done].
Qed.

Lemma demo_work : nsteps work 2 demo_two demo_served.
Proof.
  eapply nsteps_l.
  - apply (work_read demo_two 0 U16 [7] 8 (Reader 2 3 (Some [7; 8; 9]))); cbn; [done|lia|done].
  - eapply nsteps_l; [by apply (work_unlock _ 0 U16 [7; 8])|apply nsteps_O].
Qed.

Lemma demo_served_reached : rtc step (at_rest demo_reader 2) demo_served.
Proof.
  etrans; [apply demo_two_reached|]. eapply rtc_subrel; [intros x y; apply step_work|].
  apply rtc_nsteps. exists 2%nat. apply demo_work.
Qed.

Lemma random_atomic_witness :
  (∃ r', serve_all [U16] demo_reader = (Norm [inl 1800], r')) ∧
  (∀ i j q q' got got', demo_served.(threads) !! i = Some (Holding q got) →
     demo_served.(threads) !! j = Some (Holding q' got') → i = j).
Proof. apply (random_atomic demo_reader 2 demo_served demo_reader_ok demo_served_reached). Defined.

Lemma random_progress_witness :
  (2 + 3 = 5)%nat ∧
  ((∃ s'', work demo_served s'') ∨ 2%nat = 5%nat ∧ Forall (λ t, t = Idle) demo_served.(threads)).
Proof.
  apply (random_progress demo_reader 2 demo_two 2 demo_served demo_reader_ok demo_two_reached demo_work).
Defined.
