(* ===== verification/Nodes.v ===== *)
(** * The servers under test

    Models [core/include/dst_node_manager.hpp], the [NodeManager] that starts, stops
    and watches the server processes, and the critical operators of
    [core/src/operator] and [core/include/operator] that work on it: [RandomKill],
    [RandomStart] and [StartNewNode].  Processes are those of [boost::process]: an
    interface with the laws its documentation gives. *)

From S2P Require Import Prelude.
From S2P Require Import Decimal.
From S2P Require Import RandomFile.

(** ** The interfaces *)

(** What a child process is started with. *)
Record launch := Launch {
  l_command : string;
  l_out : string;
  l_err : string;
  l_env : list (string * string);
}.

(** [boost::process] and [kill].  [spawn] is [None] when the constructor throws;
    [term_wait] sends [SIGTERM] and waits; [destroy] is the destructor. *)
Class Host (os child : Type) := {
  spawn : launch → os → option child * os;
  running : child → os → bool * os;
  terminate : child → os → os;
  term_wait : child → os → os;
  destroy : child → os → os;
  search_path : string → string;
}.

(** A process that was terminated, or waited for, has ended for good. *)
Class HostOK (os child : Type) `{!Host os child} := {
  dead : child → os → Prop;
  terminate_dead c s : dead c (terminate c s);
  term_wait_dead c s : dead c (term_wait c s);
  dead_running c s : dead c s → (running c s).1 = false;
  spawn_keeps c l s : dead c s → dead c (spawn l s).2;
  running_keeps c c' s : dead c s → dead c (running c' s).2;
  terminate_keeps c c' s : dead c s → dead c (terminate c' s);
  term_wait_keeps c c' s : dead c s → dead c (term_wait c' s);
  destroy_keeps c c' s : dead c s → dead c (destroy c' s);
}.

(** The virtual functions of [ServerConfigurationGenerator]. *)
Class Generator := {
  get_configure_string : Z → Z → string;
  get_data_folder : Z → string;
}.

Definition DEFAULT_NODE_COUNT : Z := 3.
Definition WAIT_PROCESS_START_MAX_COUNT : nat := Z.to_nat 100000.

Section nodes.
Context {os child : Type} `{!Host os child} `{!Generator}.

(** ** The state *)

Record NodeInfo := Node {
  node_id : Z;
  should_alive : bool;
  log_index : Z;
  start_command : string;
  process : option child;
}.
Definition set_process (c : option child) (ni : NodeInfo) : NodeInfo :=
  Node ni.(node_id) ni.(should_alive) ni.(log_index) ni.(start_command) c.
Definition set_alive (b : bool) (ni : NodeInfo) : NodeInfo :=
  Node ni.(node_id) b ni.(log_index) ni.(start_command) ni.(process).
Definition next_log (ni : NodeInfo) : NodeInfo :=
  Node ni.(node_id) ni.(should_alive) (u32 (ni.(log_index) + 1)) ni.(start_command) ni.(process).

(** The manager, the processes, the file of random bytes and the disk; [launches]
    lists the processes that were started. *)
Record cluster := Cluster {
  node_count : Z;
  start_with_ebpf : bool;
  start_with_rr : bool;
  start_with_criu : bool;
  node_processes : list NodeInfo;
  host : os;
  launches : list launch;
  random : reader;
  disk : fs;
}.
Definition set_nodes (l : list NodeInfo) (w : cluster) : cluster :=
  Cluster w.(node_count) w.(start_with_ebpf) w.(start_with_rr) w.(start_with_criu) l
    w.(host) w.(launches) w.(random) w.(disk).
Definition set_node_count (n : Z) (w : cluster) : cluster :=
  Cluster n w.(start_with_ebpf) w.(start_with_rr) w.(start_with_criu) w.(node_processes)
    w.(host) w.(launches) w.(random) w.(disk).
Definition set_host (s : os) (w : cluster) : cluster :=
  Cluster w.(node_count) w.(start_with_ebpf) w.(start_with_rr) w.(start_with_criu) w.(node_processes)
    s w.(launches) w.(random) w.(disk).
Definition set_launches (l : list launch) (w : cluster) : cluster :=
  Cluster w.(node_count) w.(start_with_ebpf) w.(start_with_rr) w.(start_with_criu) w.(node_processes)
    w.(host) l w.(random) w.(disk).
Definition set_random (r : reader) (w : cluster) : cluster :=
  Cluster w.(node_count) w.(start_with_ebpf) w.(start_with_rr) w.(start_with_criu) w.(node_processes)
    w.(host) w.(launches) r w.(disk).
Definition set_disk (f : fs) (w : cluster) : cluster :=
  Cluster w.(node_count) w.(start_with_ebpf) w.(start_with_rr) w.(start_with_criu) w.(node_processes)
    w.(host) w.(launches) w.(random) f.

Definition node_at (i : nat) : proc cluster NodeInfo := from_option (λ w, w.(node_processes) !! i).
Definition upd_node (i : nat) (f : NodeInfo → NodeInfo) : proc cluster unit :=
  modify (λ w, set_nodes (alter f i w.(node_processes)) w).

(** [ni.process->]: undefined for the null pointer. *)
Definition child_of (i : nat) : proc cluster child :=
  from_option (λ w, ni ← w.(node_processes) !! i; ni.(process)).

Definition is_running (c : child) : proc cluster bool := λ w,
  let '(b, s) := running c w.(host) in (Norm b, set_host s w).

(** ** [start_process] *)

Definition log_name (id k : Z) : string := "log_app_" +:+ to_string id +:+ "_" +:+ to_string k.
Definition err_name (id k : Z) : string := "log_app_err" +:+ to_string id +:+ "_" +:+ to_string k.

Definition command_of (w : cluster) (ni : NodeInfo) : string :=
  let id := to_string ni.(node_id) in
  if w.(start_with_ebpf) then search_path "dst_fuzz_fault" +:+ " " +:+ ni.(start_command)
  else if w.(start_with_rr) then
    search_path "rr" +:+ " record -n -o rr_rec_" +:+ id +:+ "_" +:+ to_string ni.(log_index) +:+
    " " +:+ ni.(start_command)
  else if w.(start_with_criu) then search_path "criu" +:+ " dump -t " +:+ ni.(start_command)
  else search_path "strace" +:+ " -f -o strace_log_" +:+ id +:+ " " +:+ ni.(start_command).

Definition launch_of (w : cluster) (ni : NodeInfo) : launch :=
  let id := to_string ni.(node_id) in
  Launch (command_of w ni) (log_name ni.(node_id) ni.(log_index)) (err_name ni.(node_id) ni.(log_index))
    [("DATA_DIR", get_data_folder ni.(node_id)); ("__DST_ENV_RANDOM_FILE__", "random_node" +:+ id);
     ("NODE_NAME", "node" +:+ id); ("NODE_ID", id); ("DST_FUZZ", "1")].

(** [new boost::process::child] *)
Definition new_child (l : launch) : proc cluster child := λ w,
  match spawn l w.(host) with
  | (Some c, s) => (Norm c, set_launches (w.(launches) ++ [l]) (set_host s w))
  | (None, s) => (Exit ABORTED, set_host s w)
  end.

(** [while (!running() && ++wait_count < MAX)]: [n] is the number of polls left. *)
Fixpoint wait_started (n : nat) (c : child) : proc cluster unit :=
  match n with
  | O => mret tt
  | S n' => b ← is_running c; if (b : bool) then mret tt else wait_started n' c
  end.

Definition start_process (i : nat) : proc cluster bool :=
  ni ← node_at i;
  match ni.(process) with
  | Some c => modify (λ w, set_host (destroy c w.(host)) w) ;; upd_node i (set_process None)
  | None => mret tt
  end ;;
  l ← gets (λ w, launch_of w ni);
  c ← new_child l;
  upd_node i (set_process (Some c)) ;;
  wait_started WAIT_PROCESS_START_MAX_COUNT c ;;
  upd_node i next_log ;;
  mret true.

(** ** [NodeManager] *)

Fixpoint check_from (n i : nat) : proc cluster bool :=
  match n with
  | O => mret true
  | S n' =>
      ni ← node_at i;
      c ← child_of i;
      b ← is_running c;
      if (ni.(should_alive) : bool) then (if (b : bool) then check_from n' (S i) else mret false)
      else (if (b : bool) then mret false else check_from n' (S i))
  end.
Definition check : proc cluster bool :=
  n ← gets (λ w, length w.(node_processes)); check_from n 0.

Fixpoint push_nodes (n : nat) (i : Z) : proc cluster unit :=
  match n with
  | O => mret tt
  | S n' =>
      modify (λ w, set_nodes (w.(node_processes) ++
        [Node i true 0 (get_configure_string i w.(node_count)) None]) w) ;;
      push_nodes n' (i + 1)
  end.

Definition start_all : proc cluster bool :=
  n ← gets node_count;
  push_nodes (Z.to_nat n) 0 ;;
  l ← gets (λ w, length w.(node_processes));
  for_each (seq 0 l) (λ i, start_process i ;; mret tt) ;;
  check.

(** The end of a process by [stop_all] and [stop_node]. *)
Definition halt (i : nat) : proc cluster unit :=
  rr ← gets start_with_rr;
  c ← child_of i;
  modify (λ w, set_host ((if (rr : bool) then term_wait c else terminate c) w.(host)) w) ;;
  upd_node i (set_alive false).

Definition stop_all : proc cluster bool :=
  l ← gets (λ w, length w.(node_processes));
  for_each (seq 0 l) halt ;;
  mret true.

Definition start_node (i : Z) : proc cluster bool :=
  n ← gets node_count;
  if decide (i > u32 (n - 1)) then mret false else
  ni ← node_at (Z.to_nat i);
  if (ni.(should_alive) : bool) then mret true else
  b ← start_process (Z.to_nat i);
  if (b : bool) then upd_node (Z.to_nat i) (set_alive true) ;; mret true else mret false.

Definition stop_node (i : Z) : proc cluster bool :=
  n ← gets node_count;
  if decide (i > u32 (n - 1)) then mret false else
  ni ← node_at (Z.to_nat i);
  if negb ni.(should_alive) then mret true else
  halt (Z.to_nat i) ;; mret true.

(** ** The operators *)

Definition random_byte : proc cluster Z := zoom random set_random dst_get_random_uint8_t.

(** The identifiers of the nodes that are, or are not, meant to be alive. *)
Definition nodes_with (b : bool) (w : cluster) : list Z :=
  node_id <$> filter (λ ni, ni.(should_alive) = b) w.(node_processes).

(** One of them by a random byte; nothing to choose from is not an error. *)
Definition RandomKill : proc cluster bool :=
  alive_nodes ← gets (nodes_with true);
  if decide (alive_nodes = []) then mret true else
  b ← random_byte;
  i ← from_option (λ _, alive_nodes !! Z.to_nat (b mod zlen alive_nodes));
  stop_node i.

Definition RandomStart : proc cluster bool :=
  stopped_nodes ← gets (nodes_with false);
  if decide (stopped_nodes = []) then mret true else
  b ← random_byte;
  i ← from_option (λ _, stopped_nodes !! Z.to_nat (b mod zlen stopped_nodes));
  start_node i.

Definition StartNewNode : proc cluster bool :=
  n ← gets node_count;
  modify (set_node_count (u32 (n + 1))) ;;
  n ← gets node_count;
  let id := u32 (n - 1) in
  modify (λ w, set_nodes (w.(node_processes) ++
    [Node id false 0 (get_configure_string id n) None]) w) ;;
  modify (λ w, set_disk (<[node_file id := []]> w.(disk)) w) ;;
  start_node id.

(** What the operators of a test do to the nodes, one after the other. *)
Inductive node_operator := OpKill | OpStart | OpNew | OpCheck.
Definition run_operator (o : node_operator) : proc cluster bool :=
  match o with
  | OpKill => RandomKill
  | OpStart => RandomStart
  | OpNew => StartNewNode
  | OpCheck => check
  end.

(** ** The names of the logs *)

Lemma cut_number i j s t : is_u64 i → is_u64 j → no_digit s → no_digit t →
  to_string i +:+ s = to_string j +:+ t → i = j ∧ s = t.
Proof.
  intros Hi Hj Hs Ht E.
  set (w := (String.length (to_string i) + String.length (to_string j))%nat).
  pose proof (to_string_scan i s w Hi Hs ltac:(lia)) as E1.
  pose proof (to_string_scan j t w Hj Ht ltac:(lia)) as E2.
  rewrite E in E1. assert (i = j) as <- by congruence. split; [done|]. by apply (inj (String.append _)) in E.
Qed.

Lemma numbered_inj i j k m : is_u64 i → is_u64 j → is_u64 k → is_u64 m →
  to_string i +:+ "_" +:+ to_string k = to_string j +:+ "_" +:+ to_string m → i = j ∧ k = m.
Proof.
  intros Hi Hj Hk Hm E. apply cut_number in E as [-> E]; [|done..]. split; [done|].
  apply (inj (String.append "_")) in E. by apply to_string_inj.
Qed.

Lemma log_name_inj i j k m : is_u64 i → is_u64 j → is_u64 k → is_u64 m →
  log_name i k = log_name j m → i = j ∧ k = m.
Proof. intros ???? E. apply (inj (String.append "log_app_")) in E. by apply numbered_inj. Qed.

Lemma err_name_inj i j k m : is_u64 i → is_u64 j → is_u64 k → is_u64 m →
  err_name i k = err_name j m → i = j ∧ k = m.
Proof. intros ???? E. apply (inj (String.append "log_app_err")) in E. by apply numbered_inj. Qed.

(** ** Starting and stopping *)

#[local] Opaque WAIT_PROCESS_START_MAX_COUNT.

Context `{!HostOK os child}.

(** The processes that have ended stay so. *)
Definition keeps (s s' : os) : Prop := ∀ c : child, dead c s → dead c s'.

#[global] Instance keeps_preorder : PreOrder keeps.
Proof. split; [intros x c Hc; exact Hc|intros x y z Hxy Hyz c Hc; by apply Hyz, Hxy]. Qed.

Lemma is_running_spec c (w : cluster) :
  ∃ s, is_running c w = (Norm (running c w.(host)).1, set_host s w) ∧ keeps w.(host) s.
Proof.
  unfold is_running. destruct (running c (host w)) as [b s] eqn:E. exists s. split; [done|].
  intros c' Hc. pose proof (running_keeps c' c _ Hc) as Hk. by rewrite E in Hk.
Qed.

Lemma wait_started_spec n c (w : cluster) :
  ∃ s, wait_started n c w = (Norm tt, set_host s w) ∧ keeps w.(host) s.
Proof.
  revert w. induction n as [|n IH]; intros w.
  - exists w.(host). split; [by destruct w|done].
  - cbn [wait_started]. unfold mbind, proc_bind. destruct (is_running_spec c w) as (s&->&Hs).
    destruct (running c (host w)).1; [by exists s|].
    destruct (IH (set_host s w)) as (s'&->&Hs'). exists s'. split; [by destruct w|]. by transitivity s.
Qed.

(** A new process [c] for the node [i]. *)
Definition restart (c : child) (ni : NodeInfo) : NodeInfo := next_log (set_process (Some c) ni).
Definition restarted (w : cluster) (i : nat) (ni : NodeInfo) (c : child) (s : os) : cluster :=
  set_nodes (<[i := restart c ni]> w.(node_processes))
    (set_launches (w.(launches) ++ [launch_of w ni]) (set_host s w)).

Lemma alter_insert {A} (l : list A) i x f : l !! i = Some x → alter f i l = <[i := f x]> l.
Proof.
  intros E. apply list_eq. intros j. destruct (decide (i = j)) as [<-|].
  - rewrite list_lookup_alter_eq, E, list_lookup_insert_eq; [done|by eapply lookup_lt_Some].
  - by rewrite list_lookup_alter_ne, list_lookup_insert_ne.
Qed.

Lemma replaced_eq (w : cluster) i ni c ls s s1 s2 : w.(node_processes) !! i = Some ni →
  let w1 := set_launches ls (set_host s1 (set_nodes (<[i := set_process None ni]> w.(node_processes)) (set_host s w))) in
  let w2 := set_nodes (alter (set_process (Some c)) i w1.(node_processes)) w1 in
  set_nodes (alter next_log i (set_host s2 w2).(node_processes)) (set_host s2 w2) =
  set_nodes (<[i := restart c ni]> w.(node_processes)) (set_launches ls (set_host s2 w)).
Proof.
  destruct w as [n eb rr cr l s0 l0 r f].
  cbv beta iota zeta delta [node_processes node_count host launches random disk start_with_ebpf
    start_with_rr start_with_criu set_nodes set_launches set_host]. intros Hi.
  f_equal. assert (i < length l)%nat by by eapply lookup_lt_Some.
  rewrite (alter_insert (<[i := _]> _) _ (set_process None ni)) by by rewrite list_lookup_insert_eq.
  rewrite list_insert_insert_eq, (alter_insert _ _ (set_process (Some c) ni)) by by rewrite list_lookup_insert_eq.
  by rewrite list_insert_insert_eq.
Qed.

Lemma start_process_spec i ni (w : cluster) Q R (E : Z → cluster → Prop) :
  w.(node_processes) !! i = Some ni → (∀ w', E ABORTED w') →
  (∀ c s, keeps w.(host) s → Q true (restarted w i ni c s)) →
  wp (start_process i) Q R E w.
Proof.
  intros Hi HE HQ. unfold start_process. apply wp_bind. eapply wp_from_option; [exact Hi|].
  apply wp_bind.
  apply (wp_conseq _ (λ _ w1, ∃ s, keeps w.(host) s ∧
    w1 = set_nodes (<[i := set_process None ni]> w.(node_processes)) (set_host s w))).
  { destruct (process ni) as [c|] eqn:Ep.
    - unfold upd_node. wp_steps. exists (destroy c w.(host)). split; [intros c' Hc; by apply destroy_keeps|].
      destruct w; cbn in *. by rewrite (alter_insert _ _ ni).
    - wp_step. exists w.(host). split; [done|]. destruct w, ni; cbn in *. subst. by rewrite list_insert_id. }
  intros [] w1 (s&Hs&->). wp_step. wp_step. unfold wp, mbind, proc_bind, new_child. cbn [host set_host set_nodes].
  change (launch_of _ ni) with (launch_of w ni). destruct (spawn (launch_of w ni) s) as [[c|] s1] eqn:El; [|apply HE].
  assert (keeps s s1) as Hs1.
  { intros c' Hc. pose proof (spawn_keeps c' (launch_of w ni) s Hc) as Hk. by rewrite El in Hk. }
  unfold upd_node at 1, modify at 1. set (w2 := set_nodes _ _).
  destruct (wait_started_spec WAIT_PROCESS_START_MAX_COUNT c w2) as (s2&->&Hs2).
  change (Q true (set_nodes (alter next_log i (node_processes (set_host s2 w2))) (set_host s2 w2))).
  subst w2. rewrite replaced_eq by done. apply HQ. by do 2 (etrans; [eassumption|]).
Qed.

(** *** The invariant *)

Definition node_ok (w : cluster) (i : nat) (ni : NodeInfo) : Prop :=
  ni.(node_id) = Z.of_nat i ∧ 0 <= ni.(log_index) <= zlen w.(launches) ∧
  (ni.(should_alive) = false → ∀ c, ni.(process) = Some c → dead c w.(host)).

(** Every process that was started has a log of its own: the index of a node is
    above those of the logs it has written. *)
Definition logged (w : cluster) (l : launch) : Prop :=
  ∃ i ni k, w.(node_processes) !! i = Some ni ∧ 0 <= k < ni.(log_index) ∧
    l.(l_out) = log_name (Z.of_nat i) k ∧ l.(l_err) = err_name (Z.of_nat i) k.

Record cluster_ok (w : cluster) : Prop := ClusterOK {
  co_count : zlen w.(node_processes) = w.(node_count) ∧ is_u32 w.(node_count);
  co_nodes : ∀ i ni, w.(node_processes) !! i = Some ni → node_ok w i ni;
  co_logged : Forall (logged w) w.(launches);
  co_distinct : NoDup (l_out <$> w.(launches)) ∧ NoDup (l_err <$> w.(launches));
  co_launches : is_u32 (zlen w.(launches));
  co_random : reader_ok w.(random);
}.
Definition all_started (w : cluster) : Prop :=
  ∀ i ni, w.(node_processes) !! i = Some ni → is_Some ni.(process).

(** The node [i] after a start, and after a stop. *)
Definition up (w : cluster) (i : nat) (ni : NodeInfo) (c : child) (s : os) : cluster :=
  set_nodes (<[i := set_alive true (restart c ni)]> w.(node_processes))
    (set_launches (w.(launches) ++ [launch_of w ni]) (set_host s w)).
Definition down (w : cluster) (i : nat) (ni : NodeInfo) (s : os) : cluster :=
  set_nodes (<[i := set_alive false ni]> w.(node_processes)) (set_host s w).

Lemma fresh_log (w : cluster) i ni l : cluster_ok w → w.(node_processes) !! i = Some ni →
  l ∈ w.(launches) →
  l.(l_out) ≠ log_name ni.(node_id) ni.(log_index) ∧ l.(l_err) ≠ err_name ni.(node_id) ni.(log_index).
Proof.
  intros [Hc Hn Hl _ Hz _] Hi Hin. pose proof (Hn i ni Hi) as (->&Hlog&_).
  rewrite Forall_forall in Hl. apply list_elem_of_In in Hin.
  destruct (Hl l Hin) as (j&nj&k&Hj&Hk&->&->). destruct (Hn j nj Hj) as (_&Hlogj&_).
  assert (is_u64 (Z.of_nat i) ∧ is_u64 (Z.of_nat j)) as [? ?].
  { apply lookup_lt_Some in Hi, Hj. unfold is_u64, is_u32, zlen in *. lia. }
  assert (is_u64 k ∧ is_u64 ni.(log_index)) as [? ?] by (unfold is_u64, is_u32 in *; lia).
  split; intros E; [apply log_name_inj in E as [E ->]|apply err_name_inj in E as [E ->]]; try done;
    apply Nat2Z.inj in E as ->; assert (nj = ni) as -> by congruence; lia.
Qed.

Lemma up_ok (w : cluster) i ni c s : cluster_ok w → w.(node_processes) !! i = Some ni →
  keeps w.(host) s → zlen w.(launches) + 1 < 2 ^ 32 → cluster_ok (up w i ni c s).
Proof.
  intros Hok Hi Hs Hz. pose proof (λ l, fresh_log w i ni l Hok Hi) as Hfresh.
  pose proof Hok as [Hc Hn Hl [Hd1 Hd2] Hz1 Hr]. pose proof (Hn i ni Hi) as (Hid&Hlog&_).
  assert (zlen (w.(launches) ++ [launch_of w ni]) = zlen w.(launches) + 1) as Hz2
    by (rewrite zlen_app; unfold zlen; cbn; lia).
  assert (u32 (log_index ni + 1) = log_index ni + 1) as Hu by (apply u32_id; unfold is_u32 in *; lia).
  assert (i < length w.(node_processes))%nat as Hlt by by eapply lookup_lt_Some.
  split; cbn [up set_nodes set_launches set_host node_processes node_count launches random host].
  - unfold zlen. rewrite length_insert. apply Hc.
  - intros j nj. rewrite list_lookup_insert_Some. unfold node_ok. cbn [launches up set_nodes set_launches host set_host].
    rewrite Hz2. intros [(<-&<-&_)|(Hne&Hj)].
    + cbn. rewrite Hu. split; [done|]. split; [lia|done].
    + destruct (Hn j nj Hj) as (?&?&Hdead). split; [done|]. split; [lia|]. intros Ha c' Hc'. apply Hs. by apply Hdead.
  - apply Forall_app. split; [|constructor; [|constructor]].
    + eapply Forall_impl; [|exact Hl]. intros l (j&nj&k&Hj&Hk&Eo&Ee). destruct (decide (i = j)) as [<-|Hne].
      * exists i, (set_alive true (restart c ni)), k. cbn [up set_nodes node_processes].
        rewrite list_lookup_insert_eq by done. split; [done|]. assert (nj = ni) as -> by congruence.
        cbn. rewrite Hu. split; [lia|done].
      * exists j, nj, k. cbn [up set_nodes node_processes]. by rewrite list_lookup_insert_ne.
    + exists i, (set_alive true (restart c ni)), ni.(log_index). cbn [up set_nodes node_processes].
      rewrite list_lookup_insert_eq by done. split; [done|]. cbn [log_index set_alive restart next_log set_process].
      rewrite Hu. split; [lia|]. by rewrite <-Hid.
  - rewrite !fmap_app. split; apply list.NoDup_app; (split; [done|]); (split; [|apply NoDup_singleton]);
      intros x Hx; apply list_elem_of_fmap in Hx as (l&->&Hin); intros Hx%list_elem_of_singleton;
      by apply (Hfresh l) in Hx.
  - rewrite Hz2. unfold is_u32 in *. lia.
  - done.
Qed.

Lemma down_ok (w : cluster) i ni s : cluster_ok w → w.(node_processes) !! i = Some ni →
  keeps w.(host) s → (∀ c, ni.(process) = Some c → dead c s) → cluster_ok (down w i ni s).
Proof.
  intros [Hc Hn Hl Hd Hz Hr] Hi Hs Hdead.
  assert (i < length w.(node_processes))%nat as Hlt by by eapply lookup_lt_Some.
  split; cbn [down set_nodes set_launches set_host node_processes node_count launches random host]; try done.
  - unfold zlen. rewrite length_insert. apply Hc.
  - intros j nj. rewrite list_lookup_insert_Some. intros [(<-&<-&_)|(Hne&Hj)].
    + destruct (Hn i ni Hi) as (?&?&_). done.
    + destruct (Hn j nj Hj) as (?&?&Hdj). split; [done|]. split; [done|]. intros Ha c' Hc'. apply Hs. by apply Hdj.
  - eapply Forall_impl; [|exact Hl]. intros l (j&nj&k&Hj&Hk&Eo&Ee). destruct (decide (i = j)) as [<-|Hne].
    + exists i, (set_alive false ni), k. cbn [down set_nodes node_processes].
      rewrite list_lookup_insert_eq by done. split; [done|]. assert (nj = ni) as -> by congruence. done.
    + exists j, nj, k. cbn [down set_nodes node_processes]. by rewrite list_lookup_insert_ne.
Qed.

(** *** The operations *)

Lemma start_node_spec (i : nat) ni (w : cluster) Q R (E : Z → cluster → Prop) :
  zlen w.(node_processes) = w.(node_count) → is_u32 w.(node_count) →
  w.(node_processes) !! i = Some ni → (∀ w', E ABORTED w') →
  (ni.(should_alive) = true → Q true w) →
  (ni.(should_alive) = false → ∀ c s, keeps w.(host) s → Q true (up w i ni c s)) →
  wp (start_node (Z.of_nat i)) Q R E w.
Proof.
  intros Hz Hc Hi HE Ht Hf. pose proof (lookup_lt_Some _ _ _ Hi) as Hlt. unfold zlen in Hz.
  unfold start_node. wp_step. wp_step. wp_step; [exfalso|].
  { revert H0. rewrite u32_id; unfold is_u32 in *; lia. }
  rewrite Nat2Z.id. apply wp_bind. eapply wp_from_option; [exact Hi|].
  wp_step; [wp_step; auto|]. apply wp_bind. eapply (start_process_spec _ ni); [done|done|].
  intros c s Hs. cbn iota. unfold upd_node. wp_steps. specialize (Hf H1 c s Hs).
  unfold restarted, up in *. cbn [node_processes set_nodes]. erewrite alter_insert by by apply list_lookup_insert_eq.
  by rewrite list_insert_insert_eq.
Qed.

(** With no node the bound [node_count - 1] wraps around, the guard does not fire and
    the vector is read out of range. *)
Lemma start_node_none (w : cluster) : w.(node_count) = 0 → w.(node_processes) = [] →
  (start_node 0 w).1 = UB.
Proof.
  intros Hc Hn. unfold start_node, mbind, proc_bind, gets, node_at, from_option. rewrite Hc.
  rewrite decide_False by (vm_compute; discriminate). by rewrite Hn.
Qed.

Lemma halt_spec i ni c (w : cluster) (Q : unit → cluster → Prop) R E :
  w.(node_processes) !! i = Some ni → ni.(process) = Some c →
  (∀ s, keeps w.(host) s → dead c s → Q tt (down w i ni s)) → wp (halt i) Q R E w.
Proof.
  intros Hi Hp HQ. unfold halt, upd_node. wp_step. wp_step. apply wp_bind.
  eapply wp_from_option; [by rewrite Hi; cbn|]. wp_steps. cbn [node_processes set_host].
  rewrite (alter_insert _ _ ni) by done.
  assert (∀ s, keeps w.(host) s → dead c s → Q tt (set_nodes (<[i := set_alive false ni]> w.(node_processes)) (set_host s w)))
    as HQ' by done.
  apply HQ'; destruct (start_with_rr w).
  - intros c' Hc'. by apply term_wait_keeps.
  - intros c' Hc'. by apply terminate_keeps.
  - apply term_wait_dead.
  - apply terminate_dead.
Qed.

Lemma stop_node_spec (i : nat) ni c (w : cluster) Q R E :
  zlen w.(node_processes) = w.(node_count) → is_u32 w.(node_count) →
  w.(node_processes) !! i = Some ni → ni.(process) = Some c →
  (ni.(should_alive) = false → Q true w) →
  (ni.(should_alive) = true → ∀ s, keeps w.(host) s → dead c s → Q true (down w i ni s)) →
  wp (stop_node (Z.of_nat i)) Q R E w.
Proof.
  intros Hz Hc Hi Hp Hf Ht. pose proof (lookup_lt_Some _ _ _ Hi) as Hlt. unfold zlen in Hz.
  unfold stop_node. wp_step. wp_step. wp_step; [exfalso|].
  { revert H0. rewrite u32_id; unfold is_u32 in *; lia. }
  rewrite Nat2Z.id. apply wp_bind. eapply wp_from_option; [exact Hi|].
  wp_step; [wp_step; apply Hf; by destruct (should_alive ni)|]. apply wp_bind. eapply halt_spec; [done..|].
  intros s Hs Hd. wp_step. apply Ht; [by destruct (should_alive ni)|done..].
Qed.

Lemma random_byte_spec (w : cluster) Q R E : reader_ok w.(random) →
  (∀ b r, is_u8 b → reader_ok r → Q b (set_random r w)) → wp random_byte Q R E w.
Proof.
  intros Hr HQ. apply wp_zoom. destruct (read_byte_run w.(random) Hr) as (r'&E1&Hr'&_&Hb).
  unfold wp, dst_get_random_uint8_t. rewrite E1. by apply HQ.
Qed.

Lemma nodes_with_lookup b (w : cluster) k id : cluster_ok w → nodes_with b w !! k = Some id →
  ∃ i ni, w.(node_processes) !! i = Some ni ∧ ni.(should_alive) = b ∧ id = Z.of_nat i.
Proof.
  intros Hok Hk. apply list_elem_of_lookup_2, list_elem_of_fmap in Hk as (ni&->&Hin).
  apply list_elem_of_filter in Hin as [Hb Hin]. apply list_elem_of_lookup in Hin as [i Hi].
  exists i, ni. destruct (co_nodes w Hok i ni Hi) as (Hid&_). done.
Qed.

(** A random element of a list that is not empty. *)
Lemma pick_spec {A} (l : list A) b : l ≠ [] → is_Some (l !! Z.to_nat (b mod zlen l)).
Proof.
  intros Hl. apply lookup_lt_is_Some. assert (0 < zlen l) by (destruct l; [done|unfold zlen; cbn; lia]).
  pose proof (Z.mod_pos_bound b (zlen l)). unfold zlen in *. lia.
Qed.

Lemma set_random_ok r (w : cluster) : reader_ok r → cluster_ok w → cluster_ok (set_random r w).
Proof. intros Hr [Hc Hn Hl Hd Hz _]. by split. Qed.

Lemma up_started (w : cluster) i ni c s :
  (∀ j nj, j ≠ i → w.(node_processes) !! j = Some nj → is_Some nj.(process)) →
  all_started (up w i ni c s).
Proof.
  intros Hs j nj. cbn [up set_nodes node_processes]. rewrite list_lookup_insert_Some.
  intros [(<-&<-&_)|(Hne&Hj)]; [done|]. by apply (Hs j).
Qed.

Lemma down_started (w : cluster) i ni s : w.(node_processes) !! i = Some ni → all_started w →
  all_started (down w i ni s).
Proof.
  intros Hi Hs j nj. cbn [down set_nodes node_processes]. rewrite list_lookup_insert_Some.
  intros [(<-&<-&_)|(Hne&Hj)]; [exact (Hs i ni Hi)|by apply (Hs j)].
Qed.

(** A node that is not started yet. *)
Definition push (w : cluster) (b : bool) : cluster :=
  let n := w.(node_count) in
  set_nodes (w.(node_processes) ++ [Node n b 0 (get_configure_string n (n + 1)) None])
    (set_node_count (n + 1) w).

Lemma push_ok (w : cluster) b : cluster_ok w → w.(node_count) + 1 < 2 ^ 32 → cluster_ok (push w b).
Proof.
  intros [[Hc Hu] Hn Hl Hd Hz Hr] Hlt. unfold is_u32 in Hu.
  split; cbn [push set_nodes set_node_count node_processes node_count launches random]; try done.
  - rewrite zlen_app. unfold is_u32, zlen in *. cbn. lia.
  - intros i ni [Hi|[Hge Hi]]%lookup_app_Some; [by apply (Hn i ni Hi)|].
    apply list_lookup_singleton_Some in Hi as [Hi <-]. unfold node_ok. cbn.
    pose proof (zlen_nonneg w.(launches)). unfold zlen in *. split; [lia|]. split; [lia|done].
  - eapply Forall_impl; [|exact Hl]. intros l (j&nj&k&Hj&Hk&E). exists j, nj, k.
    cbn [push set_nodes node_processes]. split; [by apply lookup_app_l_Some|done].
Qed.

(** *** [check] *)

(** The processes after [check] has asked for the first [i] nodes. *)
Fixpoint polled_host (l : list NodeInfo) (s : os) : os :=
  match l with
  | [] => s
  | ni :: l' => polled_host l' (if ni.(process) is Some c then (running c s).2 else s)
  end.

(** What [check] looks for, from the node [i] on. *)
Definition as_expected (b : bool) (ni : NodeInfo) (s : os) : Prop :=
  ∀ c, ni.(process) = Some c → (running c s).1 = b.

Lemma polled_app l k s : polled_host (l ++ k) s = polled_host k (polled_host l s).
Proof. revert s. induction l as [|ni l IH]; intros s; [done|]. cbn. apply IH. Qed.

Lemma polled_keeps l s : keeps s (polled_host l s).
Proof.
  revert s. induction l as [|ni l IH]; intros s; [done|]. cbn. etrans; [|apply IH].
  destruct (process ni) as [c|]; [|done]. intros c' Hc'. by apply running_keeps.
Qed.

Lemma check_from_spec n i (w : cluster) :
  cluster_ok w → all_started w → (i + n)%nat = length w.(node_processes) →
  ∃ b s, check_from n i (set_host (polled_host (take i w.(node_processes)) w.(host)) w) = (Norm b, set_host s w) ∧
    keeps w.(host) s ∧
    (b = true ↔ ∀ j ni, (i <= j)%nat → w.(node_processes) !! j = Some ni → ni.(should_alive) = true →
       as_expected true ni (polled_host (take j w.(node_processes)) w.(host))).
Proof.
  intros Hok Hs. revert i. induction n as [|n IH]; intros i Hlen.
  - exists true, (polled_host (take i w.(node_processes)) w.(host)). split; [done|].
    split; [apply polled_keeps|]. split; [|done]. intros _ j ni Hij Hj%lookup_lt_Some. lia.
  - destruct (lookup_lt_is_Some_2 w.(node_processes) i) as [ni Hi]; [lia|]. destruct (Hs i ni Hi) as [c Hp].
    set (s := polled_host (take i w.(node_processes)) w.(host)).
    assert (polled_host (take (S i) w.(node_processes)) w.(host) = (running c s).2) as Enext.
    { rewrite (take_S_r _ _ _ Hi), polled_app. cbn. by rewrite Hp. }
    destruct (IH (S i)) as (b&s'&E&Hk&Hb); [lia|]. rewrite Enext in E.
    assert (node_at i (set_host s w) = (Norm ni, set_host s w)) as En.
    { unfold node_at, from_option. cbn [node_processes set_host]. by rewrite Hi. }
    assert (child_of i (set_host s w) = (Norm c, set_host s w)) as Ec.
    { unfold child_of, from_option. cbn [node_processes set_host]. rewrite Hi. cbn. by rewrite Hp. }
    cbn [check_from]. unfold mbind, proc_bind. rewrite En, Ec. unfold is_running. cbn [host set_host].
    assert (running c s = ((running c s).1, (running c s).2)) as Er by apply surjective_pairing.
    assert (∀ s1, set_host s1 (set_host s w) = set_host s1 w) as Hset by done.
    assert (keeps w.(host) (running c s).2) as Hks.
    { intros c' Hc'. apply running_keeps, polled_keeps, Hc'. }
    destruct (should_alive ni) eqn:Ha.
    + destruct (running c s) as [[] s1] eqn:Er1; cbn [fst snd] in *.
      * exists b, s'. rewrite Hset. split; [done|]. split; [done|]. rewrite Hb. split.
        -- intros Hall j nj Hij Hj Haj. destruct (decide (i = j)) as [<-|]; [|apply Hall; [lia|done..]].
           assert (nj = ni) as -> by congruence. intros c' Hc'. assert (c' = c) as -> by congruence.
           fold s. by rewrite Er1.
        -- intros Hall j nj Hij. apply Hall. lia.
      * exists false, s1. split; [done|]. split; [done|]. split; [done|]. intros Hall.
        specialize (Hall i ni ltac:(lia) Hi Ha c Hp). fold s in Hall. by rewrite Er1 in Hall.
    + assert ((running c s).1 = false) as Hfalse.
      { apply dead_running, polled_keeps. by apply (co_nodes w Hok i ni Hi). }
      destruct (running c s) as [b1 s1] eqn:Er1. cbn [fst snd] in *. subst b1.
      exists b, s'. rewrite Hset. split; [done|]. split; [done|]. rewrite Hb. split.
      * intros Hall j nj Hij Hj Haj. destruct (decide (i = j)) as [<-|]; [congruence|apply Hall; [lia|done..]].
      * intros Hall j nj Hij. apply Hall. lia.
Qed.

Lemma set_host_ok s (w : cluster) : keeps w.(host) s → cluster_ok w → cluster_ok (set_host s w).
Proof.
  intros Hs [Hc Hn Hl Hd Hz Hr]. split; try done. intros i ni Hi. destruct (Hn i ni Hi) as (?&?&Hdead).
  split; [done|]. split; [done|]. intros Ha c Hp. by apply Hs, Hdead.
Qed.

Lemma check_run (w : cluster) : cluster_ok w → all_started w →
  ∃ b s, check w = (Norm b, set_host s w) ∧ keeps w.(host) s ∧
    (b = true ↔ ∀ i ni, w.(node_processes) !! i = Some ni → ni.(should_alive) = true →
       as_expected true ni (polled_host (take i w.(node_processes)) w.(host))).
Proof.
  intros Hok Hs. destruct (check_from_spec (length w.(node_processes)) 0 w Hok Hs eq_refl) as (b&s&E&Hk&Hb).
  exists b, s. split; [unfold check, mbind, proc_bind, gets; cbn [take polled_host] in E; by destruct w|].
  split; [done|]. rewrite Hb. split; intros Hall i ni; [apply Hall; lia|intros _; apply Hall].
Qed.

(** *** Sequences of operators *)

(** [k] more starts and nodes are possible. *)
Definition room (k : Z) (w : cluster) : Prop :=
  zlen w.(launches) + k < 2 ^ 32 ∧ w.(node_count) + k < 2 ^ 32.

(** An operator leaves a sound cluster, or the driver is aborted. *)
Definition sound (m : proc cluster bool) : Prop := ∀ (w : cluster) k,
  cluster_ok w → all_started w → room (k + 1) w → 0 <= k →
  wp m (λ _ w', cluster_ok w' ∧ all_started w' ∧ room k w') (λ _ _, False) (λ c _, c = ABORTED) w.

Lemma kill_sound : sound RandomKill.
Proof.
  intros w k Hok Hs [Hk1 Hk2] Hk0. pose proof (co_count w Hok) as [Hz Hc].
  unfold RandomKill. wp_step. wp_step. wp_step; [wp_step; split; [done|split; [done|split; lia]]|].
  apply wp_bind, random_byte_spec; [apply Hok|]. intros b r Hb Hr. set (l := nodes_with true w).
  destruct (pick_spec l b) as [id Hid]; [done|]. apply wp_bind. eapply wp_from_option; [exact Hid|].
  destruct (nodes_with_lookup _ _ _ _ Hok Hid) as (i&ni&Hi&Ha&->). destruct (Hs i ni Hi) as [c Hp].
  eapply stop_node_spec; [done|done|exact Hi|exact Hp|congruence|]. intros _ s Hks Hd.
  assert (cluster_ok (set_random r w)) as Hokr by by apply set_random_ok.
  split; [|split; [|split; cbn; lia]].
  - apply down_ok; [done|done|done|]. intros c' Hc'. by simplify_eq.
  - by apply down_started.
Qed.

Lemma start_sound : sound RandomStart.
Proof.
  intros w k Hok Hs [Hk1 Hk2] Hk0. pose proof (co_count w Hok) as [Hz Hc].
  unfold RandomStart. wp_step. wp_step. wp_step; [wp_step; split; [done|split; [done|split; lia]]|].
  apply wp_bind, random_byte_spec; [apply Hok|]. intros b r Hb Hr. set (l := nodes_with false w).
  destruct (pick_spec l b) as [id Hid]; [done|]. apply wp_bind. eapply wp_from_option; [exact Hid|].
  destruct (nodes_with_lookup _ _ _ _ Hok Hid) as (i&ni&Hi&Ha&->).
  eapply start_node_spec; [done|done|exact Hi|done|congruence|]. intros _ c s Hks.
  assert (cluster_ok (set_random r w)) as Hokr by by apply set_random_ok.
  split; [|split; [|split]].
  - apply up_ok; [done|done|done|cbn; lia].
  - apply up_started. intros j nj _. apply Hs.
  - cbn. rewrite zlen_app. change (zlen [_]) with 1. lia.
  - cbn. lia.
Qed.

Lemma new_sound : sound StartNewNode.
Proof.
  intros w k Hok Hs [Hk1 Hk2] Hk0. pose proof (co_count w Hok) as [Hz Hc].
  unfold StartNewNode. unfold is_u32 in Hc. wp_steps.
  cbn [set_node_count node_count node_processes set_nodes disk launches host random].
  rewrite (u32_id (w.(node_count) + 1)) by (unfold is_u32; lia).
  rewrite (u32_id (w.(node_count) + 1 - 1)) by (unfold is_u32; lia).
  replace (w.(node_count) + 1 - 1) with (Z.of_nat (length w.(node_processes))) by (unfold zlen in Hz; lia).
  set (w1 := set_disk _ _).
  assert (∃ f, w1 = set_disk f (push w false)) as [f Ew1].
  { eexists. unfold w1, push. unfold zlen in Hz. rewrite Hz. reflexivity. }
  assert (cluster_ok w1) as Hok1.
  { rewrite Ew1. assert (cluster_ok (push w false)) as [? ? ? ? ? ?] by (apply push_ok; [done|lia]). by split. }
  eapply start_node_spec; [apply Hok1|apply Hok1| |done|..].
  { rewrite Ew1. cbn [set_disk push set_nodes node_processes]. by apply list_lookup_middle. }
  { done. }
  intros _ c s Hks. split; [|split; [|split]].
  - apply up_ok; [done| |done|rewrite Ew1; cbn; lia]. rewrite Ew1. by apply list_lookup_middle.
  - apply up_started. rewrite Ew1. intros j nj Hne Hj. cbn [set_disk push set_nodes node_processes] in Hj.
    apply lookup_app_Some in Hj as [Hj|[Hge Hj]]; [by apply (Hs j)|].
    apply list_lookup_singleton_Some in Hj as [Hj _]. lia.
  - cbn [up set_nodes set_launches launches]. rewrite zlen_app. change (zlen [_]) with 1. rewrite Ew1. cbn. lia.
  - rewrite Ew1. cbn. lia.
Qed.

Lemma check_sound : sound check.
Proof.
  intros w k Hok Hs [Hk1 Hk2] Hk0. pose proof (co_count w Hok) as [Hz Hc].
  destruct (check_run w Hok Hs) as (b&s&E&Hks&_). unfold wp. rewrite E.
  split; [by apply set_host_ok|]. split; [exact Hs|]. split; cbn; lia.
Qed.

Lemma operator_ok o : sound (run_operator o).
Proof. destruct o; [apply kill_sound|apply start_sound|apply new_sound|apply check_sound]. Qed.

Lemma operators_ok os' (w : cluster) : cluster_ok w → all_started w → room (zlen os') w →
  wp (for_each os' (λ o, run_operator o ;; mret tt)) (λ _ w', cluster_ok w' ∧ all_started w')
    (λ _ _, False) (λ c _, c = ABORTED) w.
Proof.
  revert w. induction os' as [|o os' IH]; intros w Hok Hs Hroom; [done|].
  cbn [for_each]. apply wp_bind, wp_bind. pose proof (zlen_nonneg os').
  eapply wp_conseq; [apply (operator_ok o w (zlen os')); [done|done| |done]|].
  { replace (zlen os' + 1) with (zlen (o :: os')) by (unfold zlen; cbn [length]; lia). done. }
  intros _ w1 (Hok1&Hs1&Hr1). wp_step. by apply IH.
Qed.

(** *** The start of the cluster *)

Definition new_node (n : Z) (i : Z) : NodeInfo := Node i true 0 (get_configure_string i n) None.

Lemma push_nodes_run n i (w : cluster) :
  push_nodes n i w =
  (Norm tt, set_nodes (w.(node_processes) ++ (new_node w.(node_count) <$> seqZ i (Z.of_nat n))) w).
Proof.
  revert i w. induction n as [|n IH]; intros i w.
  - cbn. rewrite app_nil_r. by destruct w.
  - cbn [push_nodes]. unfold mbind, proc_bind, modify. rewrite IH. f_equal.
    rewrite (seqZ_cons i) by lia. replace (Z.pred (Z.of_nat (S n))) with (Z.of_nat n) by lia.
    destruct w. unfold set_nodes. cbn. by rewrite <-app_assoc.
Qed.

(** A manager that has not started a process yet. *)
Record unstarted (w : cluster) : Prop := Unstarted {
  un_nodes : w.(node_processes) = [];
  un_launches : w.(launches) = [];
  un_count : is_u32 w.(node_count);
  un_random : reader_ok w.(random);
}.

Lemma pushed_ok (w : cluster) : unstarted w →
  let w1 := set_nodes (new_node w.(node_count) <$> seqZ 0 w.(node_count)) w in
  cluster_ok w1 ∧ (∀ i ni, w1.(node_processes) !! i = Some ni → ni.(should_alive) = true).
Proof.
  intros [_ Hl Hc Hr] w1. unfold is_u32 in Hc.
  assert (∀ i ni, w1.(node_processes) !! i = Some ni → ni = new_node w.(node_count) (Z.of_nat i)) as Hi.
  { intros i ni Hi. apply list_lookup_fmap_Some in Hi as (x&->&Hx). apply lookup_seqZ in Hx as [-> _]. done. }
  split; [|by intros i ni ->%Hi]. split.
  - unfold w1, zlen. cbn [set_nodes node_processes node_count]. rewrite length_fmap, length_seqZ.
    unfold is_u32. lia.
  - intros i ni ->%Hi. unfold node_ok. cbn. rewrite Hl. split; [done|]. split; [unfold zlen; cbn; lia|done].
  - cbn. rewrite Hl. constructor.
  - cbn. rewrite Hl. split; constructor.
  - cbn. rewrite Hl. unfold is_u32, zlen. cbn. lia.
  - done.
Qed.

Lemma start_each n k (w : cluster) : (k + n)%nat = length w.(node_processes) → cluster_ok w →
  (∀ i ni, w.(node_processes) !! i = Some ni → ni.(should_alive) = true ∧ ((i < k)%nat → is_Some ni.(process))) →
  zlen w.(launches) + Z.of_nat n < 2 ^ 32 →
  wp (for_each (seq k n) (λ i, start_process i ;; mret tt))
    (λ _ w', cluster_ok w' ∧ all_started w' ∧ w'.(node_count) = w.(node_count) ∧
       zlen w'.(launches) = zlen w.(launches) + Z.of_nat n)
    (λ _ _, False) (λ c _, c = ABORTED) w.
Proof.
  revert k w. induction n as [|n IH]; intros k w Hlen Hok Hs Hz.
  - cbn [for_each seq]. wp_step. split; [done|]. split; [|split; [done|lia]].
    intros i ni Hi. apply (Hs i ni Hi). apply lookup_lt_Some in Hi. lia.
  - cbn [for_each seq]. destruct (lookup_lt_is_Some_2 w.(node_processes) k) as [ni Hi]; [lia|].
    apply wp_bind, wp_bind. apply (start_process_spec _ ni); [done|done|]. intros c s Hks.
    assert (restarted w k ni c s = up w k ni c s) as ->.
    { destruct (Hs k ni Hi) as [Ha _]. unfold restarted, up. destruct ni. cbn in Ha. by subst. }
    wp_step. assert (zlen (launches (up w k ni c s)) = zlen w.(launches) + 1) as El.
    { cbn [up set_nodes set_launches launches]. by rewrite zlen_app. }
    eapply wp_conseq; [apply (IH (S k))|].
    + cbn [up set_nodes node_processes]. rewrite length_insert. lia.
    + apply up_ok; [done|done|done|lia].
    + intros j nj. cbn [up set_nodes node_processes]. rewrite list_lookup_insert_Some.
      intros [(<-&<-&_)|(Hne&Hj)]; [done|]. destruct (Hs j nj Hj) as [? Hp]. split; [done|].
      intros Hlt. apply Hp. lia.
    + rewrite El. lia.
    + intros _ w' (?&?&->&->). rewrite El. split; [done|]. split; [done|]. split; [done|lia].
Qed.

Lemma start_all_ok (w : cluster) : unstarted w →
  wp start_all (λ _ w', cluster_ok w' ∧ all_started w' ∧ w'.(node_count) = w.(node_count) ∧
      zlen w'.(launches) = w.(node_count)) (λ _ _, False) (λ c _, c = ABORTED) w.
Proof.
  intros Hu. destruct (pushed_ok w Hu) as [Hok Ha]. destruct Hu as [Hn Hl Hc Hr]. unfold is_u32 in Hc.
  unfold start_all. wp_step. wp_step. apply wp_bind. unfold wp. rewrite push_nodes_run, Hn.
  rewrite Z2Nat.id by lia. cbn [app]. set (w1 := set_nodes _ w) in *.
  change (wp (l ← gets (λ w, length w.(node_processes));
    for_each (seq 0 l) (λ i, start_process i ;; mret tt) ;; check)
    (λ _ w', cluster_ok w' ∧ all_started w' ∧ w'.(node_count) = w.(node_count) ∧
      zlen w'.(launches) = w.(node_count)) (λ _ _, False) (λ c _, c = ABORTED) w1).
  assert (Z.of_nat (length w1.(node_processes)) = w.(node_count)) as Hlen by apply (co_count w1 Hok).
  assert (zlen w1.(launches) = 0) as Hl1 by (unfold w1; cbn; by rewrite Hl).
  wp_step. wp_step. wp_step. eapply wp_conseq; [apply start_each; [done|done| |lia]|].
  { intros i ni Hi. split; [by apply (Ha i)|lia]. }
  intros _ w2 (Hok2&Hs2&Hc2&Hl2). destruct (check_run w2 Hok2 Hs2) as (b&s&E&Hks&_). unfold wp. rewrite E.
  split; [by apply set_host_ok|]. split; [exact Hs2|]. cbn. rewrite Hc2, Hl2. split; [done|lia].
Qed.

(** *** The end of the cluster *)

Lemma halt_each n k (w : cluster) : (k + n)%nat = length w.(node_processes) → cluster_ok w → all_started w →
  (∀ i ni, w.(node_processes) !! i = Some ni → (i < k)%nat → ni.(should_alive) = false) →
  wp (for_each (seq k n) halt)
    (λ _ w', cluster_ok w' ∧ all_started w' ∧
       (∀ i ni, w'.(node_processes) !! i = Some ni → ni.(should_alive) = false) ∧
       w'.(random) = w.(random) ∧ w'.(disk) = w.(disk))
    (λ _ _, False) (λ _ _, False) w.
Proof.
  revert k w. induction n as [|n IH]; intros k w Hlen Hok Hs Ha.
  - cbn [for_each seq]. wp_step. split; [done|]. split; [done|]. split; [|done].
    intros i ni Hi. apply (Ha i ni Hi). apply lookup_lt_Some in Hi. lia.
  - cbn [for_each seq]. destruct (lookup_lt_is_Some_2 w.(node_processes) k) as [ni Hi]; [lia|].
    destruct (Hs k ni Hi) as [c Hp]. apply wp_bind. eapply halt_spec; [done..|]. intros s Hks Hd.
    apply (IH (S k) (down w k ni s)).
    + cbn [down set_nodes node_processes]. rewrite length_insert. lia.
    + apply down_ok; [done|done|done|]. intros c' Hc'. by simplify_eq.
    + by apply down_started.
    + intros j nj. cbn [down set_nodes node_processes]. rewrite list_lookup_insert_Some.
      intros [(<-&<-&_)|(Hne&Hj)]; [done|]. intros Hlt. apply (Ha j nj Hj). lia.
Qed.

Lemma stop_all_ok (w : cluster) : cluster_ok w → all_started w →
  wp stop_all (λ _ w', cluster_ok w' ∧ all_started w' ∧
       (∀ i ni, w'.(node_processes) !! i = Some ni → ni.(should_alive) = false) ∧
       w'.(random) = w.(random) ∧ w'.(disk) = w.(disk))
    (λ _ _, False) (λ _ _, False) w.
Proof.
  intros Hok Hs. unfold stop_all. wp_step. wp_step. wp_step.
  eapply wp_conseq; [apply halt_each; [done|done|done|lia]|]. intros a w' Hw'. by wp_step.
Qed.

(** ** Theorems *)

(** C12. From [start_all] on, any sequence of the operators that kill, restart, add
    and check nodes keeps the manager sound: no null process and no index out of
    range is used, the node at each place carries its own number, a node that is
    recorded as stopped has ended for good, and no two processes that were ever
    started write to the same output log or error log.  Only an exception of a start
    ends the driver. *)
Theorem nodes_run ops (w : cluster) : unstarted w → w.(node_count) + zlen ops < 2 ^ 32 →
  wp (start_all ;; for_each ops (λ o, run_operator o ;; mret tt))
    (λ _ w', zlen w'.(node_processes) = w'.(node_count) ∧
       (∀ i ni, w'.(node_processes) !! i = Some ni → ni.(node_id) = Z.of_nat i ∧
          ∃ c, ni.(process) = Some c ∧ (ni.(should_alive) = false → dead c w'.(host))) ∧
       NoDup (l_out <$> w'.(launches)) ∧ NoDup (l_err <$> w'.(launches)))
    (λ _ _, False) (λ c _, c = ABORTED) w.
Proof.
  intros Hu Hb. apply wp_bind. eapply wp_conseq; [by apply start_all_ok|].
  intros _ w1 (Hok&Hs&Hc&Hl). eapply wp_conseq; [apply operators_ok; [done|done|split; lia]|].
  intros _ w2 (Hok2&Hs2). split; [apply Hok2|]. split; [|apply Hok2].
  intros i ni Hi. destruct (co_nodes w2 Hok2 i ni Hi) as (?&_&Hd). destruct (Hs2 i ni Hi) as [c Hp].
  split; [done|]. exists c. split; [done|]. intros Ha. by apply Hd.
Qed.

(** [check] reports a failure exactly when a server that the driver did not stop
    is found not to be running: a node that was killed on purpose is never blamed. *)
Theorem check_exact (w : cluster) : cluster_ok w → all_started w →
  ∃ b s, check w = (Norm b, set_host s w) ∧
    (b = true ↔ ∀ i ni, w.(node_processes) !! i = Some ni → ni.(should_alive) = true →
       as_expected true ni (polled_host (take i w.(node_processes)) w.(host))).
Proof. intros Hok Hs. destruct (check_run w Hok Hs) as (b&s&?&_&?). eauto. Qed.

(** [stop_all] ends every server, so that a [check] after it succeeds. *)
Theorem stop_all_quiet (w : cluster) : cluster_ok w → all_started w →
  wp (stop_all ;; check) (λ b w', b = true ∧ nodes_with true w' = [] ∧
      Forall (λ ni : NodeInfo, ∃ c, ni.(process) = Some c ∧ dead c w'.(host)) w'.(node_processes))
    (λ _ _, False) (λ _ _, False) w.
Proof.
  intros Hok Hs. apply wp_bind. eapply wp_conseq; [by apply stop_all_ok|].
  intros _ w1 (Hok1&Hs1&Ha&_). destruct (check_run w1 Hok1 Hs1) as (b&s&E&Hks&Hb). unfold wp. rewrite E.
  split; [apply Hb; intros i ni Hi Ht; rewrite (Ha i ni Hi) in Ht; congruence|].
  cbn [set_host node_processes host]. split.
  - unfold nodes_with. cbn [set_host node_processes].
    destruct (filter _ _) as [|ni l] eqn:Ef; [done|]. exfalso.
    assert (ni ∈ filter (λ ni : NodeInfo, ni.(should_alive) = true) w1.(node_processes)) as Hin by (rewrite Ef; left).
    apply list_elem_of_filter in Hin as [Ht Hin]. apply list_elem_of_lookup in Hin as [i Hi].
    rewrite (Ha i ni Hi) in Ht. congruence.
  - apply Forall_lookup. intros i ni Hi. destruct (Hs1 i ni Hi) as [c Hp]. exists c. split; [done|].
    apply Hks. apply (co_nodes w1 Hok1 i ni Hi); [by apply (Ha i)|done].
Qed.
End nodes.

(** ** A host that satisfies the laws

    Children are numbers; the second component is the set of those that ended. *)

#[global] Instance demo_host : Host (nat * gset nat) nat := {
  spawn _ s := (Some s.1, (S s.1, s.2));
  running c s := (bool_decide (c ∉ s.2), s);
  terminate c s := (s.1, {[c]} ∪ s.2);
  term_wait c s := (s.1, {[c]} ∪ s.2);
  destroy c s := s;
  search_path x := "/usr/bin/" +:+ x;
}.
#[global] Instance demo_host_ok : HostOK (nat * gset nat) nat.
Proof.
  refine {| dead := λ c (s : nat * gset nat), c ∈ s.2 |}; cbn; try done; try set_solver.
  intros c s Hc. apply bool_decide_eq_false_2. intros Hn. by apply Hn.
Defined.
#[global] Instance demo_generator : Generator := {
  get_configure_string i n := "server " +:+ to_string i;
  get_data_folder i := "data" +:+ to_string i;
}.

Definition demo_cluster : cluster (os := nat * gset nat) (child := nat) :=
  Cluster 3 false false false [] (0%nat, ∅) [] (Reader 0 3 (Some [1; 0; 1])) ∅.

Lemma demo_unstarted : unstarted demo_cluster.
Proof.
  split; [done|done|unfold is_u32; cbn; lia|]. split; cbn; [lia|lia|]. exists [1; 0; 1]. right.
  split; [done|]. split; [done|]. apply (bool_decide_unpack _). vm_compute. exact I.
Qed.

(** Three nodes, the second of them killed. *)
Definition demo_killed : cluster (os := nat * gset nat) (child := nat) :=
  ((start_all ;; RandomKill) demo_cluster).2.

Lemma demo_killed_ok : cluster_ok demo_killed ∧ all_started demo_killed.
Proof.
  assert (wp (start_all ;; RandomKill) (λ _ w', cluster_ok w' ∧ all_started w') (λ _ _, False)
    (λ c _, c = ABORTED) demo_cluster) as Hw.
  { apply wp_bind. eapply wp_conseq; [apply start_all_ok, demo_unstarted|].
    intros _ w1 (Hok&Hs&Hc&Hl). eapply wp_conseq; [apply (kill_sound w1 0); [done|done| |done]|].
    - rewrite <-Hc in Hl. split; rewrite ?Hl, Hc; done.
    - by intros _ w2 (?&?&_). }
  assert (((start_all ;; RandomKill) demo_cluster).1 = Norm true) as E by (vm_compute; reflexivity).
  unfold wp, demo_killed in *. destruct ((start_all ;; RandomKill) demo_cluster) as [o w].
  cbn in E. by rewrite E in Hw.
Qed.

Lemma nodes_run_witness :
  wp (start_all ;; for_each [OpKill; OpStart; OpKill; OpNew] (λ o, run_operator o ;; mret tt))
    (λ _ w', zlen w'.(node_processes) = w'.(node_count) ∧
       (∀ i ni, w'.(node_processes) !! i = Some ni → ni.(node_id) = Z.of_nat i ∧
          ∃ c, ni.(process) = Some c ∧ (ni.(should_alive) = false → dead c w'.(host))) ∧
       NoDup (l_out <$> w'.(launches)) ∧ NoDup (l_err <$> w'.(launches)))
    (λ _ _, False) (λ c _, c = ABORTED) demo_cluster.
Proof. apply (nodes_run _ demo_cluster demo_unstarted). done. Defined.

Lemma check_exact_witness :
  ∃ b s, check demo_killed = (Norm b, set_host s demo_killed) ∧
    (b = true ↔ ∀ i ni, demo_killed.(node_processes) !! i = Some ni → ni.(should_alive) = true →
       as_expected true ni (polled_host (take i demo_killed.(node_processes)) demo_killed.(host))).
Proof. apply (check_exact demo_killed (proj1 demo_killed_ok) (proj2 demo_killed_ok)). Defined.

Lemma stop_all_quiet_witness :
  wp (stop_all ;; check) (λ b w', b = true ∧ nodes_with true w' = [] ∧
      Forall (λ ni : NodeInfo, ∃ c, ni.(process) = Some c ∧ dead c w'.(host)) w'.(node_processes))
    (λ _ _, False) (λ _ _, False) demo_killed.
Proof. apply (stop_all_quiet demo_killed (proj1 demo_killed_ok) (proj2 demo_killed_ok)). Defined.
