(* ===== verification/Events.v ===== *)
(** * The operation log

    Models how the clients of a test write its history: [__dst_event_trigger] and
    [__dst_event_record] of [core/src/dst_default_event.cpp], the collector of
    [event_control/src/main.cpp] that turns the messages into [operation_log], and the
    client and init operators ([core/src/operator/dst_default_client_operator.cpp],
    [core/include/operator/dst_default_init_operator.hpp]) that record the invocation
    and the completion of each request.  The message queue is that of
    [boost::interprocess]. *)

From Stdlib Require Import Ascii.
From S2P Require Import Prelude.
From S2P Require Import Decimal.
From S2P Require Import RandomFile.

(** ** The queue *)

Definition MAX_QUEUE_NUMBER : Z := 1000.
Definition MAX_QUEUE_MESSAGE_SIZE : Z := 1000.
Definition NEED_RECORD_MESSAGE_PREFIX : string := "NEED_RECORD: ".

(** [mq_create] is the queue the collector creates; [mq_send] is [None] when an
    [interprocess_exception] is thrown; [try_receive] is [None] when it returns
    false. *)
Class Mailbox (q : Type) := {
  mq_create : Z → Z → q;
  mq_send : string → q → option q;
  try_receive : q → option (string * q);
}.

(** A queue of messages, in the order in which they were sent. *)
Class MailboxOK (q : Type) `{!Mailbox q} := {
  waiting : q → list string;
  max_size : q → Z;
  max_number : q → Z;
  create_waiting n m : waiting (mq_create n m) = [] ∧ max_number (mq_create n m) = n ∧
    max_size (mq_create n m) = m;
  send_waiting s x : Z.of_nat (String.length s) <= max_size x → zlen (waiting x) < max_number x →
    ∃ x', mq_send s x = Some x' ∧ waiting x' = waiting x ++ [s] ∧
      max_size x' = max_size x ∧ max_number x' = max_number x;
  send_long s x : max_size x < Z.of_nat (String.length s) → mq_send s x = None;
  receive_empty x : waiting x = [] → try_receive x = None;
  receive_head s l x : waiting x = s :: l →
    ∃ x', try_receive x = Some (s, x') ∧ waiting x' = l ∧
      max_size x' = max_size x ∧ max_number x' = max_number x;
}.

(** A text up to its first NUL, as [strlen] and the constructor of [std::string] see it. *)
Fixpoint c_str (s : string) : string :=
  match s with
  | EmptyString => EmptyString
  | String c t => if decide (c = "000"%char) then EmptyString else String c (c_str t)
  end.

(** The names start with two underscores in the source. *)
Definition dst_event_trigger `{!Mailbox q} (s : string) : proc q Z := λ x,
  match mq_send (c_str s) x with Some x' => (Norm 0, x') | None => (Norm 1, x) end.
Definition dst_event_record `{!Mailbox q} (s : string) : proc q Z :=
  dst_event_trigger (NEED_RECORD_MESSAGE_PREFIX +:+ c_str s).

(** ** The collector *)

(** [s.find(prefix)] and the rest of the message after the first occurrence. *)
Definition record_of (s : string) : option string :=
  match String.index 0 NEED_RECORD_MESSAGE_PREFIX s with
  | Some n =>
      let k := (n + String.length NEED_RECORD_MESSAGE_PREFIX)%nat in
      Some (String.substring k (String.length s - k) s)
  | None => None
  end.

Record control (q : Type) := Control { mq : q; out : string }.
Arguments Control {q} mq out.
Arguments mq {q} c.
Arguments out {q} c.

Definition newline : string := String "010"%char EmptyString.

Section control.
Context {q : Type} `{!Mailbox q}.

(** [main] up to the loop, one turn of the loop, and what follows the loop, which
    ends when a signal sets [running]. *)
Definition control_start : control q :=
  Control (mq_create MAX_QUEUE_NUMBER MAX_QUEUE_MESSAGE_SIZE) "[".
Definition control_turn : proc (control q) unit := λ st,
  match try_receive st.(mq) with
  | None => (Norm tt, st)
  | Some (s, x) =>
      match record_of s with
      | Some content => (Norm tt, Control x (st.(out) +:+ content +:+ "," +:+ newline))
      | None => (Norm tt, Control x st.(out))
      end
  end.
Definition control_end (st : control q) : string := st.(out) +:+ "]".

(** The processes of a test and the collector, interleaved; a send waits while the
    queue is full. *)
Inductive action := Trigger (s : string) | Rec (s : string) | Turn.

Context `{!MailboxOK q}.

Definition on_queue (m : proc q Z) (st : control q) : control q := Control (m st.(mq)).2 st.(out).
Inductive events : control q → list action → control q → Prop :=
  | events_nil st : events st [] st
  | events_trigger st s l st' :
      zlen (waiting st.(mq)) < max_number st.(mq) →
      events (on_queue (dst_event_trigger s) st) l st' → events st (Trigger s :: l) st'
  | events_record st s l st' :
      zlen (waiting st.(mq)) < max_number st.(mq) →
      events (on_queue (dst_event_record s) st) l st' → events st (Rec s :: l) st'
  | events_turn st l st' :
      events (control_turn st).2 l st' → events st (Turn :: l) st'.

(** ** What the log holds *)

(** The lines of the log. *)
Fixpoint lines (l : list string) : string :=
  match l with [] => EmptyString | s :: l' => s +:+ "," +:+ newline +:+ lines l' end.

(** A message of the usual kind: no NUL and short enough. *)
Definition room_for (s : string) : Prop :=
  c_str s = s ∧ Z.of_nat (String.length s) <= MAX_QUEUE_MESSAGE_SIZE - 13.
Definition plain (a : action) : Prop :=
  match a with
  | Trigger s => record_of (c_str s) = None ∧ Z.of_nat (String.length s) <= MAX_QUEUE_MESSAGE_SIZE
  | Rec s => room_for s
  | Turn => True
  end.
Definition recorded (l : list action) : list string :=
  omap (λ a, match a with Rec s => Some s | _ => None end) l.

Lemma substring_all s : String.substring 0 (String.length s) s = s.
Proof. induction s as [|c s IH]; [done|]. cbn. by rewrite IH. Qed.

(** The record comes back from its message. *)
Lemma record_of_message s : record_of (NEED_RECORD_MESSAGE_PREFIX +:+ s) = Some s.
Proof.
  unfold record_of. assert (String.index 0 NEED_RECORD_MESSAGE_PREFIX (NEED_RECORD_MESSAGE_PREFIX +:+ s) = Some 0%nat) as ->.
  { cbn. by destruct s. }
  f_equal. rewrite length_append.
  replace (String.length NEED_RECORD_MESSAGE_PREFIX + String.length s -
    (0 + String.length NEED_RECORD_MESSAGE_PREFIX))%nat with (String.length s) by lia.
  exact (substring_all s).
Qed.

Lemma length_c_str s : (String.length (c_str s) <= String.length s)%nat.
Proof. induction s as [|c s IH]; cbn; [lia|]. case_decide; cbn; lia. Qed.

Lemma c_str_prefix s : c_str (NEED_RECORD_MESSAGE_PREFIX +:+ s) = NEED_RECORD_MESSAGE_PREFIX +:+ c_str s.
Proof. done. Qed.

Lemma c_str_twice s : c_str (c_str s) = c_str s.
Proof. induction s as [|c s IH]; [done|]. cbn. case_decide; [done|]. cbn. rewrite decide_False by done. by rewrite IH. Qed.

Lemma lines_app l k : lines (l ++ k) = lines l +:+ lines k.
Proof.
  induction l as [|s l IH]; [done|].
  change (s +:+ ("," +:+ (newline +:+ lines (l ++ k))) = (s +:+ ("," +:+ (newline +:+ lines l))) +:+ lines k).
  by rewrite IH, !append_assoc.
Qed.

(** The records that wait in the queue. *)
Definition pending (st : control q) : list string := omap record_of (waiting st.(mq)).

Record log_inv (rs : list string) (st : control q) : Prop := LogInv {
  lo_sizes : max_size st.(mq) = MAX_QUEUE_MESSAGE_SIZE ∧ max_number st.(mq) = MAX_QUEUE_NUMBER;
  lo_log : ∃ written, rs = written ++ pending st ∧ st.(out) = "[" +:+ lines written;
}.

Lemma send_inv rs st s : log_inv rs st → zlen (waiting st.(mq)) < max_number st.(mq) →
  Z.of_nat (String.length s) <= MAX_QUEUE_MESSAGE_SIZE →
  log_inv (rs ++ option_list (record_of (c_str s))) (on_queue (dst_event_trigger s) st).
Proof.
  intros [[Hs Hn] (wr&->&Ho)] Hroom Hlen. pose proof (length_c_str s) as Hc.
  destruct (send_waiting (c_str s) st.(mq)) as (x&E&Hw&Hs'&Hn'); [rewrite Hs; lia|done|].
  unfold on_queue, dst_event_trigger. rewrite E. split; cbn [mq out snd]; [by rewrite Hs', Hn'|].
  exists wr. split; [|done]. unfold pending. cbn [mq]. by rewrite Hw, omap_app, app_assoc.
Qed.

Lemma turn_inv rs st : log_inv rs st → log_inv rs (control_turn st).2.
Proof.
  intros [[Hs Hn] (wr&->&Ho)]. unfold control_turn, pending.
  destruct (waiting st.(mq)) as [|s l] eqn:Ew.
  - rewrite receive_empty by done. split; [done|]. exists wr. unfold pending. cbn [snd]. by rewrite Ew.
  - destruct (receive_head s l st.(mq) Ew) as (x&->&Hw&Hs'&Hn'). cbn.
    destruct (record_of s) as [c|] eqn:Er; (split; cbn [mq out snd]; [by rewrite Hs', Hn'|]).
    + exists (wr ++ [c]). unfold pending. cbn [mq]. rewrite Hw, <-app_assoc. split; [done|].
      by rewrite Ho, lines_app, append_assoc.
    + exists wr. unfold pending. cbn [mq]. by rewrite Hw.
Qed.

Lemma events_inv rs st l st' : events st l st' → Forall plain l → log_inv rs st →
  log_inv (rs ++ recorded l) st'.
Proof.
  intros Hev. revert rs. induction Hev as [st|st s l st' Hroom Hev IH|st s l st' Hroom Hev IH|st l st' Hev IH];
    intros rs Hp Hinv; [by rewrite app_nil_r|..]; apply Forall_cons_iff in Hp as [Ha Hp].
  - destruct Ha as [Hr Hl]. apply IH; [done|]. pose proof (send_inv rs st s Hinv Hroom Hl) as Hi.
    rewrite Hr in Hi. by rewrite app_nil_r in Hi.
  - destruct Ha as [Hc Hl]. change (recorded (Rec s :: l)) with (s :: recorded l).
    change (s :: recorded l) with ([s] ++ recorded l). rewrite app_assoc. apply IH; [done|].
    unfold dst_event_record. rewrite Hc.
    pose proof (send_inv rs st (NEED_RECORD_MESSAGE_PREFIX +:+ s) Hinv Hroom) as Hi.
    rewrite c_str_prefix, Hc, record_of_message in Hi. apply Hi. rewrite length_append.
    change (String.length NEED_RECORD_MESSAGE_PREFIX) with 13%nat. unfold MAX_QUEUE_MESSAGE_SIZE in *. lia.
  - apply IH; [done|]. by apply turn_inv.
Qed.

End control.

(** ** A queue that satisfies the laws *)

#[global] Instance demo_mailbox : Mailbox (list string * Z * Z) := {
  mq_create n m := ([], n, m);
  mq_send s x := if decide (Z.of_nat (String.length s) <= x.2) then Some (x.1.1 ++ [s], x.1.2, x.2) else None;
  try_receive x := match x.1.1 with [] => None | s :: l => Some (s, (l, x.1.2, x.2)) end;
}.
#[global] Instance demo_mailbox_ok : MailboxOK (list string * Z * Z).
Proof.
  refine {| waiting := λ x : list string * Z * Z, x.1.1; max_size := λ x, x.2; max_number := λ x, x.1.2 |}.
  - done.
  - intros s x Hs Hn. cbn. rewrite decide_True by done. by eexists.
  - intros s x Hs. cbn. by rewrite decide_False by lia.
  - intros x Hx. cbn. by rewrite Hx.
  - intros s l x Hx. cbn. rewrite Hx. by eexists.
Defined.

(** Two events and another message; the collector has read the first two of them. *)
Definition demo_actions : list action := [Rec "{:f :read}"; Trigger "hello"; Turn; Rec "{:f :write}"; Turn].

