(* ===== verification/Clients.v ===== *)
(** * The clients of a test

    Models [DefaultClientOperator::_do] ([core/src/operator/dst_default_client_operator.cpp])
    and [DefaultInitOperator::_do] ([core/include/operator/dst_default_init_operator.hpp]
    with [retry_command] of [core/include/utils/dst_common_util.hpp]): a request to the
    system under test, recorded before it is made and again when it has succeeded.
    The command lines and the processes that run them are an interface. *)

From Stdlib Require Import Ascii.
From S2P Require Import Prelude.
From S2P Require Import Decimal.
From S2P Require Import RandomFile.
From S2P Require Import Events.

Inductive OP_NAME := OP_WRITE | OP_READ | OP_CAS.
#[global] Instance OP_NAME_dec : EqDecision OP_NAME.
Proof. solve_decision. Defined.
Definition OP_NAME_STR (o : OP_NAME) : string :=
  match o with OP_WRITE => "write" | OP_READ => "read" | OP_CAS => "cas" end.

(** [client_command] is the [get_configure_string] of a system; [random_number] is
    [random()] of the C library; [run_client] runs a command and gives its exit code
    and the lines of its output, or [None] when an exception is thrown; [pause] is
    [usleep]. *)
Class ClientHost (W : Type) := {
  client_command : OP_NAME → Z → list Z → string;
  write_zero_command : string;
  random_number : W → Z * W;
  run_client : string → W → option (Z * list string) * W;
  pause : Z → W → W;
}.

Record client (q W : Type) := Client { c_random : reader; c_queue : q; c_world : W }.
Arguments Client {q W}.
Arguments c_random {q W}.
Arguments c_queue {q W}.
Arguments c_world {q W}.

Definition INT_MAX : Z := 2 ^ 31 - 1.

(** [std::stoll]: [None] stands for its exceptions. *)
Definition stoll (s : string) : option Z :=
  v ← scan_int s; if decide (-2 ^ 63 <= v < 2 ^ 63) then Some v else None.

(** The last line before the first empty one. *)
Fixpoint get_last_output (l : list string) (last_output : string) : string :=
  match l with
  | [] => last_output
  | tmp :: l' => if decide (tmp = EmptyString) then last_output else get_last_output l' tmp
  end.
Definition parse_read_result (l : list string) : option Z := stoll (get_last_output l EmptyString).

Section clients.
Context {q W : Type} `{!Mailbox q} `{!ClientHost W}.

Definition draw32 : proc (client q W) Z :=
  zoom c_random (λ r s, Client r s.(c_queue) s.(c_world)) dst_get_random_uint32_t.
Definition draw_id : proc (client q W) Z := λ s,
  let '(n, w) := random_number s.(c_world) in
  (Norm (n mod INT_MAX), Client s.(c_random) s.(c_queue) w).
Definition record_event (r : string) : proc (client q W) unit :=
  zoom c_queue (λ x s, Client s.(c_random) x s.(c_world)) (dst_event_record r) ;; mret tt.
Definition run_command (command : string) : proc (client q W) (option (Z * list string)) := λ s,
  let '(r, w) := run_client command s.(c_world) in
  (Norm r, Client s.(c_random) s.(c_queue) w).

(** The random numbers of a request, its command and the value it is recorded with. *)
Definition prepare (op : OP_NAME) (node_count : Z) : proc (client q W) (string * string * list Z) :=
  match op with
  | OP_READ => mret (client_command OP_READ node_count [], "nil", [])
  | OP_WRITE =>
      n1 ← draw32;
      mret (client_command OP_WRITE node_count [n1], to_string n1, [n1])
  | OP_CAS =>
      n1 ← draw32;
      n2 ← draw32;
      mret (client_command OP_CAS node_count [n1; n2],
        "[" +:+ to_string n1 +:+ " " +:+ to_string n2 +:+ "]", [n1; n2])
  end.

(** The value of the record of success; the output of a write is only printed. *)
Definition result_value (op : OP_NAME) (nums : list Z) (output : list string) : option string :=
  match op, nums with
  | OP_READ, _ => int_to_string <$> parse_read_result output
  | OP_WRITE, [n1] => Some (to_string n1)
  | OP_CAS, [n1; n2] => Some ("[" +:+ to_string n1 +:+ " " +:+ to_string n2 +:+ "]")
  | _, _ => None
  end.

Definition invoke_record (id : Z) (op : OP_NAME) (value : string) : string :=
  "{:process " +:+ int_to_string id +:+ ", :type :invoke, :f :" +:+ OP_NAME_STR op +:+
  ", :value " +:+ value +:+ "}".
Definition result_record (id : Z) (op : OP_NAME) (value : string) : string :=
  "{:process " +:+ int_to_string id +:+ ", :type " +:+ ":ok" +:+ ", :f :" +:+ OP_NAME_STR op +:+
  ", :value " +:+ value +:+ "}".

Definition client_do (op : OP_NAME) (node_count : Z) : proc (client q W) bool :=
  id ← draw_id;
  p ← prepare op node_count;
  let '(command, value, nums) := p in
  if decide (command = EmptyString) then mret false else
  record_event (invoke_record id op value) ;;
  r ← run_command command;
  match r with
  | None => mret false
  | Some (result, output) =>
      if decide (result ≠ 0) then mret false else
      match result_value op nums output with
      | None => mret false
      | Some v => record_event (result_record id op v) ;; mret true
      end
  end.

(** ** The init operator *)

(** [count] attempts are left; an exception of the process is not caught. *)
Fixpoint retry_command (command : string) (count : nat) : proc (client q W) bool :=
  match count with
  | O => mret false
  | S count' =>
      r ← run_command command;
      match r with
      | None => exit_ 134
      | Some (code, _) =>
          if decide (code = 0) then mret true else
          modify (λ s, Client s.(c_random) s.(c_queue) (pause 500000 s.(c_world))) ;;
          retry_command command count'
      end
  end.

(** The two records of the first write. *)
Definition zero_invoke (id : Z) : string := "{:process " +:+ int_to_string id +:+ ", :type :invoke, :f :write, :value 0}".
Definition zero_ok (id : Z) : string := "{:process " +:+ int_to_string id +:+ ", :type :ok, :f :write, :value 0}".
Definition record_zero : proc (client q W) unit :=
  id ← draw_id; record_event (zero_invoke id) ;; record_event (zero_ok id).

Definition init_do (MAX_TRY_COUNT : Z) : proc (client q W) bool :=
  b ← retry_command write_zero_command (Z.to_nat MAX_TRY_COUNT);
  if (b : bool) then
    record_zero ;; mret true
  else mret false.

(** ** The history of a client *)

(** Texts that reach the queue whole. *)
Definition whole (n : nat) (s : string) : Prop := c_str s = s ∧ (String.length s <= n)%nat.

Lemma whole_app n m s t : whole n s → whole m t → whole (n + m) (s +:+ t).
Proof.
  intros [Hs Hn] [Ht Hm]. split; [|rewrite length_append; lia]. clear Hn Hm. revert Hs.
  induction s as [|c s IH]; intros Hs; [done|].
  change (c_str (String c (s +:+ t)) = String c (s +:+ t)).
  cbn in Hs |- *. case_decide; [done|]. injection Hs as Hs. by rewrite IH.
Qed.

Lemma whole_dec fuel n acc k : whole k acc → whole (fuel + 1 + k) (dec fuel n acc).
Proof.
  assert (∀ d acc k, whole k acc → whole (1 + k) (String (digit (d mod 10)) acc)) as Hd.
  { intros d acc' k' [Hc Hl]. split; [|cbn; lia]. cbn. rewrite decide_False; [by rewrite Hc|].
    intros E. apply (f_equal digit_of) in E. pose proof (Z.mod_pos_bound d 10).
    rewrite digit_of_digit in E by lia. done. }
  revert n acc k. induction fuel as [|fuel IH]; intros n acc k Hw; cbn [dec]; [by apply Hd|].
  destruct (n <? 10).
  - destruct (Hd n acc k Hw) as [? ?]. split; [done|lia].
  - replace (S fuel + 1 + k)%nat with (fuel + 1 + (1 + k))%nat by lia. by apply IH, Hd.
Qed.

Lemma whole_to_string n : whole 20 (to_string n).
Proof. apply (whole_dec 19 n EmptyString 0). by split. Qed.

Lemma whole_int n : whole 21 (int_to_string n).
Proof.
  unfold int_to_string. case_decide.
  - apply (whole_app 1 20); [by split|apply whole_to_string].
  - destruct (whole_to_string n). split; [done|lia].
Qed.

Context `{!MailboxOK q}.

Definition message (r : string) : string := NEED_RECORD_MESSAGE_PREFIX +:+ r.

(** The queue takes [k] more messages. *)
Definition takes (k : Z) (x : q) : Prop :=
  max_size x = MAX_QUEUE_MESSAGE_SIZE ∧ zlen (waiting x) + k <= max_number x.

Lemma record_event_spec r n (s : client q W) Q R E k : whole n r → (n <= 987)%nat →
  takes k s.(c_queue) → 1 <= k →
  (∀ x, waiting x = waiting s.(c_queue) ++ [message r] → takes (k - 1) x →
     Q tt (Client s.(c_random) x s.(c_world))) →
  wp (record_event r) Q R E s.
Proof.
  intros [Hc Hl] Hn [Hs Hk] Hk1 HQ. unfold record_event. apply wp_bind, wp_zoom.
  unfold wp, dst_event_record, dst_event_trigger. rewrite Hc, c_str_prefix, Hc. fold (message r).
  destruct (send_waiting (message r) s.(c_queue)) as (x&E1&Hw&Hs'&Hn').
  - unfold message. rewrite length_append, Hs. change (String.length NEED_RECORD_MESSAGE_PREFIX) with 13%nat.
    unfold MAX_QUEUE_MESSAGE_SIZE. lia.
  - lia.
  - rewrite E1. apply HQ; [done|]. split; [congruence|]. rewrite Hw, zlen_app, Hn'. change (zlen [_]) with 1. lia.
Qed.

Lemma draw32_spec (s : client q W) Q R E : reader_ok s.(c_random) →
  (∀ n r, reader_ok r → Q n (Client r s.(c_queue) s.(c_world))) → wp draw32 Q R E s.
Proof.
  intros Hr HQ. apply wp_zoom. destruct (serve_run U32 s.(c_random) Hr) as (r'&E1&Hr'&_).
  cbn [serve] in E1. unfold mbind, proc_bind in E1. unfold wp.
  destruct (dst_get_random_uint32_t (c_random s)) as [[] ?]; try done. injection E1 as _ ->. by apply HQ.
Qed.

(** The values that are recorded of a request. *)
Definition request_value (op : OP_NAME) (nums : list Z) (value : string) : Prop :=
  match op, nums with
  | OP_READ, _ => value = "nil"
  | _, _ => ∀ output, result_value op nums output = Some value
  end.

Lemma prepare_spec op n (s : client q W) R E : reader_ok s.(c_random) →
  wp (prepare op n) (λ p s', reader_ok s'.(c_random) ∧ s'.(c_queue) = s.(c_queue) ∧
    whole 50 p.1.2 ∧ request_value op p.2 p.1.2) R E s.
Proof.
  intros Hr. assert (∀ k m t, whole k t → (k <= m)%nat → whole m t) as Hmono by (intros ??? [] ?; split; [done|lia]).
  destruct op; cbn [prepare].
  - apply wp_bind, draw32_spec; [done|]. intros n1 r Hr1. wp_step. cbn. split; [done|]. split; [done|].
    split; [|done]. eapply Hmono; [apply whole_to_string|lia].
  - wp_step. cbn. split; [done|]. split; [done|]. split; [|done]. by split; [|cbn; lia].
  - apply wp_bind, draw32_spec; [done|]. intros n1 r Hr1. apply wp_bind, draw32_spec; [done|]. intros n2 r2 Hr2.
    wp_step. cbn. split; [done|]. split; [done|]. split; [|done].
    eapply Hmono; [apply (whole_app 1 (20 + (1 + (20 + 1))))|lia]; [by split|].
    repeat (apply whole_app; [first [apply whole_to_string|by split]|]). by split.
Qed.

Lemma whole_record (pre mid op sep value : string) id :
  whole 11 pre → whole 22 mid → whole 5 op → whole 9 sep → whole 50 value →
  whole 119 (pre +:+ int_to_string id +:+ mid +:+ op +:+ sep +:+ value +:+ "}").
Proof.
  intros H1 H2 H3 H4 H5. apply (whole_app 11 108); [done|]. apply (whole_app 21 87); [apply whole_int|].
  apply (whole_app 22 65); [done|]. apply (whole_app 5 60); [done|]. apply (whole_app 9 51); [done|].
  apply (whole_app 50 1); [done|]. by split.
Qed.

Lemma whole_op op : whole 5 (OP_NAME_STR op).
Proof. destruct op; (split; [done|cbn; lia]). Qed.

Lemma whole_invoke id op value : whole 50 value → whole 119 (invoke_record id op value).
Proof.
  intros Hv. apply (whole_record "{:process " ", :type :invoke, :f :" (OP_NAME_STR op) ", :value ");
    [by split; [|cbn; lia]..|apply whole_op|by split; [|cbn; lia]|done].
Qed.

Lemma whole_result id op value : whole 50 value → whole 119 (result_record id op value).
Proof.
  intros Hv. apply (whole_record "{:process " ", :type :ok, :f :" (OP_NAME_STR op) ", :value ");
    [by split; [|cbn; lia]..|apply whole_op|by split; [|cbn; lia]|done].
Qed.

Lemma whole_result_value op nums value output v : request_value op nums value → whole 50 value →
  result_value op nums output = Some v →
  whole 50 v ∧ match op with
               | OP_READ => ∃ z, v = int_to_string z ∧ parse_read_result output = Some z
               | _ => v = value
               end.
Proof.
  intros Hr Hw Hv. destruct op; cbn [request_value] in Hr.
  - rewrite Hr in Hv. by simplify_eq.
  - cbn [result_value] in Hv. destruct (parse_read_result output) as [z|]; [|done]. injection Hv as <-. split; [|by exists z].
    destruct (whole_int z). split; [done|lia].
  - rewrite Hr in Hv. by simplify_eq.
Qed.

End clients.

(** A client host whose reads answer a number. *)
#[global] Instance demo_client_host : ClientHost unit := {
  client_command o n l := "client " +:+ OP_NAME_STR o;
  write_zero_command := "client write 0";
  random_number w := (7, w);
  run_client c w := (Some (0, ["ok"; "42"]), w);
  pause n w := w;
}.

