(* ===== verification/Systems.v ===== *)
(** * The systems under test

    The configuration generators of the [*_test] directories: the command line of each
    server ([get_configure_string], [get_data_folder], [get_no_fault_files]), of each
    client request, and of the first write of a test.  They implement the interface
    [Generator] of [Nodes] and the commands of the interface [ClientHost] of [Clients].

    A generator that writes a configuration file, runs a shell command or draws a
    random byte is a procedure on a workspace; the pauses of the clients are left out,
    as are the XML parser of the keeper's and the child process of the general
    generator. *)

From Stdlib Require Import Ascii.
From S2P Require Import Prelude.
From S2P Require Import Decimal.
From S2P Require Import RandomFile.
From S2P Require Import Nodes.
From S2P Require Import Events.
From S2P Require Import Clients.

(** ** Texts *)

(** [std::to_string(base + i)], an [int] plus an [uint32_t]. *)
Definition number (base i : Z) : string := to_string (u32 (base + i)).

(** [for (uint32_t i = 0; i < node_count; i++) s += f(i);] *)
Definition each (node_count : Z) (f : Z → string) : string :=
  String.concat EmptyString (f <$> seqZ 0 node_count).

(** The same with a comma after each but the last; [node_count - 1] is unsigned. *)
Definition comma_list (node_count : Z) (f : Z → string) : string :=
  each node_count (λ i, f i +:+ (if decide (i < u32 (node_count - 1)) then "," else EmptyString)).

Definition newline : string := String (ascii_of_nat 10) EmptyString.
Definition tab : string := String (ascii_of_nat 9) EmptyString.
Definition quote : string := String (ascii_of_nat 34) EmptyString.
Definition IP : string := "127.0.1.1".

(** ** The workspace *)

Record workspace := Workspace {
  ws_random : reader;
  ws_files : gmap string string;
  ws_commands : list string;
}.
Definition next_byte : proc workspace Z :=
  zoom ws_random (λ r w, Workspace r w.(ws_files) w.(ws_commands)) dst_get_random_uint8_t.
Definition write_file (name text : string) : proc workspace unit :=
  modify (λ w, Workspace w.(ws_random) (<[name := text]> w.(ws_files)) w.(ws_commands)).
Definition shell (command : string) : proc workspace unit :=
  modify (λ w, Workspace w.(ws_random) w.(ws_files) (w.(ws_commands) ++ [command])).

(** ** braft *)

Module Braft.
Definition SERVER_BIN_PATH : string := "/home/zyh/braft/example/atomic/atomic_server".
Definition CLIENT_BIN_PATH : string := "/home/zyh/braft/example/atomic/atomic_test".
Definition BASE_PORT : Z := 8300.

Definition peers (node_count : Z) : string :=
  each node_count (λ i, IP +:+ ":" +:+ number BASE_PORT i +:+ ":0,").

Definition server (node_id node_count : Z) : string :=
  SERVER_BIN_PATH +:+ " -reuse_addr -ip=" +:+ IP +:+ " -reuse_port -election_timeout_ms=150 " +:+
  "-port=" +:+ number BASE_PORT node_id +:+ " " +:+
  "-conf=" +:+ peers node_count +:+ " " +:+
  "-data_path=./data" +:+ to_string node_id.

Definition client (op_name : OP_NAME) (node_count : Z) (nums : list Z) : string :=
  "timeout 1 " +:+ CLIENT_BIN_PATH +:+ " -conf=" +:+ peers node_count +:+ " -atomic_op=" +:+
  match op_name, nums with
  | OP_READ, _ => "get"
  | OP_WRITE, [value] => "set -atomic_val=" +:+ to_string value
  | OP_CAS, [old_value; new_value] =>
      "cas -atomic_val=" +:+ to_string old_value +:+ " -atomic_new_val=" +:+ to_string new_value
  | _, _ => EmptyString
  end.

Definition write_zero (node_count : Z) : string :=
  "timeout 1 " +:+ CLIENT_BIN_PATH +:+ " -conf=" +:+ peers node_count +:+ " -atomic_op=set -atomic_val=0".
End Braft.

(** ** etcd *)

Module Etcd.
Definition BIN_PATH : string := "/home/zyh/etcd/etcd".
Definition BASE_ETCD_PORT : Z := 2380.
Definition BASE_CLIENT_PORT : Z := 2480.

Definition peer (i : Z) : string := IP +:+ ":" +:+ number BASE_ETCD_PORT i.

Definition server (node_id node_count : Z) : string :=
  BIN_PATH +:+ " --name node" +:+ to_string node_id +:+
  " --data-dir ./data" +:+ to_string node_id +:+
  " --heartbeat-interval 30" +:+
  " --election-timeout 150" +:+
  " --socket-reuse-port" +:+
  " --socket-reuse-address" +:+
  " --initial-cluster-token etcd-cluster" +:+
  " --initial-cluster-state new" +:+
  " --initial-advertise-peer-urls http://" +:+ peer node_id +:+
  " --listen-peer-urls http://" +:+ peer node_id +:+
  " --listen-client-urls http://" +:+ IP +:+ ":" +:+ number BASE_CLIENT_PORT node_id +:+
  " --advertise-client-urls http://" +:+ IP +:+ ":" +:+ number BASE_CLIENT_PORT node_id +:+
  " --initial-cluster " +:+
  each node_count (λ i, "node" +:+ to_string i +:+ "=http://" +:+ peer i +:+
    (if decide (i ≠ u32 (node_count - 1)) then "," else EmptyString)).

Definition data_folder (node_id : Z) : string := "data" +:+ to_string node_id.

Definition client (op_name : OP_NAME) (node_count : Z) (nums : list Z) : string :=
  "timeout 3 /home/zyh/etcd/etcdctl --endpoints=" +:+ comma_list node_count peer +:+ " " +:+
  match op_name, nums with
  | OP_READ, _ => "get a"
  | OP_WRITE, [value] => "put a " +:+ to_string value
  | _, _ => EmptyString
  end.

Definition write_zero (node_count : Z) : string :=
  "timeout 3 /home/zyh/etcd/etcdctl --endpoints=" +:+ comma_list node_count peer +:+ " put a 0".
End Etcd.

(** ** ZooKeeper *)

Module ZooKeeper.
Definition BIN_PATH : string :=
  "java -cp /home/zyh/zookeeper/lib/zookeeper.jar:/home/zyh/zookeeper/lib/*:/home/zyh/zookeeper/conf " +:+
  "org.apache.zookeeper.server.quorum.QuorumPeerMain ".
Definition BASE_ZK_PORT : Z := 2181.
Definition BASE_QUORUM_PORT : Z := 2888.
Definition BASE_ELECTION_PORT : Z := 3888.

(** The two forms of the configuration file, chosen by a random byte. *)
Definition ensemble (node_count : Z) : string :=
  "4lw.commands.whitelist=*" +:+ newline +:+
  each node_count (λ i, "server." +:+ number i 1 +:+ "=" +:+ IP +:+ ":" +:+ number BASE_QUORUM_PORT i +:+
    ":" +:+ number BASE_ELECTION_PORT i +:+ newline).
Definition observers (node_id : Z) : string :=
  "standaloneEnabled=false" +:+ newline +:+
  "server.1=" +:+ IP +:+ ":" +:+ to_string BASE_QUORUM_PORT +:+ ":" +:+ to_string BASE_ELECTION_PORT +:+
  ":participant;" +:+ to_string BASE_ZK_PORT +:+ newline +:+
  (if decide (node_id > 0) then
     "server." +:+ number node_id 1 +:+ "=" +:+ IP +:+ ":" +:+ number BASE_QUORUM_PORT node_id +:+
     ":" +:+ number BASE_ELECTION_PORT node_id +:+ ":observer;" +:+ number BASE_ZK_PORT node_id +:+ newline
   else EmptyString).
Definition conf_text (node_id node_count byte : Z) : string :=
  "tickTime=150" +:+ newline +:+ "initLimit=5" +:+ newline +:+ "syncLimit=2" +:+ newline +:+
  "admin.enableServer=false" +:+ newline +:+
  "dataDir=data" +:+ number node_id 1 +:+ newline +:+
  "clientPort=" +:+ number BASE_ZK_PORT node_id +:+ newline +:+
  (if decide (byte < 200) then ensemble node_count else observers node_id).

Definition init_conf_file (node_id node_count : Z) : proc workspace unit :=
  byte ← next_byte;
  write_file ("zoo" +:+ number node_id 1) (conf_text node_id node_count byte).
Definition init_data_folder (node_id : Z) : proc workspace unit :=
  shell ("mkdir data" +:+ number node_id 1) ;;
  shell ("bash -c " +:+ quote +:+ "echo " +:+ number node_id 1 +:+ " > data" +:+ number node_id 1 +:+
         "/myid" +:+ quote).

Definition server (node_id node_count : Z) : string := BIN_PATH +:+ "zoo" +:+ number node_id 1.
Definition get_configure_string (node_id node_count : Z) : proc workspace string :=
  init_conf_file node_id node_count ;;
  init_data_folder node_id ;;
  mret (server node_id node_count).
Definition data_folder (node_id : Z) : string := "data" +:+ number node_id 1.
Definition no_fault_files (node_id : Z) : string :=
  "zoo" +:+ number node_id 1 +:+ "," +:+ "myid" +:+ "," +:+ "version-2/snapshot".

Definition address (i : Z) : string := IP +:+ ":" +:+ number BASE_ZK_PORT i.
Definition zkCli (node_count : Z) : string :=
  "timeout 3 /usr/share/zookeeper/bin/zkCli.sh -server " +:+ comma_list node_count address +:+ " ".

Definition client (op_name : OP_NAME) (node_count : Z) (nums : list Z) : string :=
  zkCli node_count +:+
  match op_name, nums with
  | OP_READ, _ => "get /a"
  | OP_WRITE, [value] => "set /a " +:+ to_string value
  | _, _ => EmptyString
  end.

(** A write of a version that is drawn when the command is made. *)
Definition client_with_version (op_name : OP_NAME) (node_count : Z) (nums : list Z) : proc workspace string :=
  match op_name, nums with
  | OP_WRITE, [value] =>
      byte ← next_byte;
      mret (zkCli node_count +:+ "set /a " +:+ to_string value +:+ " " +:+ to_string (byte mod 3))
  | _, _ => mret (zkCli node_count)
  end.

Definition write_zero (node_count : Z) : string :=
  "timeout 2 /usr/share/zookeeper/bin/zkCli.sh -server " +:+ comma_list node_count address +:+ " create /a 0".
End ZooKeeper.

(** ** ClickHouse Keeper *)

Module Keeper.
Definition BIN_PATH : string := "/usr/bin/clickhouse keeper".
Definition BASE_ZK_PORT : Z := 9181.
Definition BASE_INNER_PORT : Z := 44444.

(** What is put into the tree that was read from the template, path by path. *)
Definition settings (node_id : Z) : list (string * string) :=
  [("yandex.logger.log", "run/run_log" +:+ to_string node_id);
   ("yandex.logger.errorlog", "run/err_log" +:+ to_string node_id);
   ("yandex.keeper_server.tcp_port", number BASE_ZK_PORT node_id);
   ("yandex.keeper_server.server_id", to_string node_id);
   ("yandex.keeper_server.log_storage_path", "run/log" +:+ to_string node_id);
   ("yandex.keeper_server.snapshot_storage_path", "run/snapshot" +:+ to_string node_id)].
(** The children of [raft_configuration]. *)
Definition raft_servers (node_count : Z) : list (list (string * string)) :=
  (λ i, [("id", to_string i); ("hostname", IP); ("port", number BASE_INNER_PORT i);
         ("can_become_leader", "true"); ("priority", "1")]) <$> seqZ 0 node_count.

Definition server (node_id node_count : Z) : string :=
  BIN_PATH +:+ " --config enable_keeper" +:+ to_string node_id +:+ ".xml".
Definition no_fault_files (node_id : Z) : string := ".xml,run/log,run/err_log".

Definition address (i : Z) : string := IP +:+ ":" +:+ number BASE_ZK_PORT i.
Definition zkCli (node_count : Z) : string :=
  "timeout 3 /usr/share/zookeeper/bin/zkCli.sh -server " +:+ comma_list node_count address +:+ " ".

Definition client (op_name : OP_NAME) (node_count : Z) (nums : list Z) : string :=
  zkCli node_count +:+
  match op_name, nums with
  | OP_READ, _ => "get /a"
  | OP_WRITE, [value] => "set /a " +:+ to_string value
  | _, _ => EmptyString
  end.
Definition client_with_version (op_name : OP_NAME) (node_count : Z) (nums : list Z) : proc workspace string :=
  match op_name, nums with
  | OP_WRITE, [value] =>
      byte ← next_byte;
      mret (zkCli node_count +:+ "set /a " +:+ to_string value +:+ " " +:+ to_string (byte mod 3 + 1))
  | _, _ => mret (zkCli node_count)
  end.
Definition write_zero (node_count : Z) : string :=
  "timeout 2 /usr/share/zookeeper/bin/zkCli.sh -server " +:+ comma_list node_count address +:+ " create /a 0".
End Keeper.

(** ** Aerospike *)

Module Aerospike.
Definition BIN_PATH : string := "/home/zyh/aerospike-server/target/Linux-x86_64/bin/asd".
Definition SERVICE_BASE_PORT : Z := 2000.
Definition HEARTBEAT_BASE_PORT : Z := 5000.
Definition FABRIC_BASE_PORT : Z := 4000.
Definition INFO_BASE_PORT : Z := 3000.

Definition service_part (id : string) : string :=
  "service {" +:+ newline +:+ tab +:+ "user zyh" +:+ newline +:+ tab +:+ "group zyh" +:+ newline +:+
  tab +:+ "paxos-single-replica-limit 0" +:+ newline +:+
  tab +:+ "pidfile /home/zyh/DistFuzz/aerospike_test/bin/run/asd_pid" +:+ id +:+ newline +:+
  tab +:+ "work-directory run/work" +:+ id +:+ newline +:+
  newline +:+ tab +:+ "proto-fd-max 1500" +:+ newline +:+ tab +:+ "run-as-daemon false" +:+ newline +:+ "}" +:+ newline.
Definition mod_part (id : string) : string :=
  newline +:+ "mod-lua {" +:+ newline +:+ tab +:+ "user-path run/work" +:+ id +:+ "/usr/udf/lua" +:+ newline +:+
  "}" +:+ newline.
Definition logging_part (id : string) : string :=
  newline +:+ "logging {" +:+ newline +:+
  tab +:+ "file /home/zyh/DistFuzz/aerospike_test/bin/run/log" +:+ id +:+
  " {" +:+ newline +:+ tab +:+ tab +:+ "context any info" +:+ newline +:+ tab +:+ "}" +:+ newline +:+ "}" +:+ newline.
Definition port_line (base i : Z) : string := tab +:+ tab +:+ "port " +:+ number base i +:+ newline.

(** The heartbeat addresses of the other nodes. *)
Definition mesh (node_id node_count : Z) : string :=
  each node_count (λ i, if decide (i = node_id) then EmptyString else
    tab +:+ tab +:+ "mesh-seed-address-port 127.0.1.1 " +:+ number HEARTBEAT_BASE_PORT i +:+ newline).
Definition network_part (node_id node_count : Z) : string :=
  newline +:+ "network {" +:+ newline +:+ tab +:+ "service {" +:+ newline +:+ tab +:+ tab +:+ "address 127.0.1.1" +:+
  newline +:+ tab +:+ "access-address 127.0.1.1" +:+ newline +:+
  port_line SERVICE_BASE_PORT node_id +:+ tab +:+ "}" +:+ newline +:+
  newline +:+ tab +:+ "heartbeat {" +:+ newline +:+ tab +:+ tab +:+ "mode mesh" +:+ newline +:+
  tab +:+ tab +:+ "address 127.0.1.1" +:+ newline +:+
  port_line HEARTBEAT_BASE_PORT node_id +:+ mesh node_id node_count +:+
  newline +:+ tab +:+ tab +:+ "interval 100" +:+ newline +:+ tab +:+ tab +:+ "timeout 3" +:+ newline +:+
  tab +:+ tab +:+ "connect-timeout-ms 150" +:+ newline +:+ tab +:+ "}" +:+ newline +:+
  newline +:+ tab +:+ "fabric {" +:+ newline +:+ tab +:+ tab +:+ "address 127.0.1.1" +:+ newline +:+
  port_line FABRIC_BASE_PORT node_id +:+ tab +:+ "}" +:+ newline +:+
  tab +:+ "info {" +:+ newline +:+ port_line INFO_BASE_PORT node_id +:+
  newline +:+ tab +:+ "}" +:+ newline +:+ "}" +:+ newline.
Definition namespace_part (id : string) : string :=
  newline +:+ "namespace test {" +:+ newline +:+ tab +:+ "replication-factor 2" +:+ newline +:+
  tab +:+ "memory-size 1G" +:+ newline +:+ newline +:+ tab +:+ "storage-engine device {" +:+ newline +:+
  tab +:+ tab +:+ "file run/data" +:+ id +:+ newline +:+
  tab +:+ tab +:+ "filesize 10M" +:+ newline +:+ tab +:+ tab +:+ "data-in-memory true" +:+ newline +:+
  tab +:+ "}" +:+ newline +:+ "}" +:+ newline.

Definition init_config_file (node_id node_count : Z) : proc workspace unit :=
  let id := to_string node_id in
  write_file ("aerospike_conf" +:+ id)
    (service_part id +:+ mod_part id +:+ logging_part id +:+ network_part node_id node_count +:+
     namespace_part id).
Definition init_working_dir (node_id : Z) : proc workspace unit :=
  shell ("mkdir -p run/work" +:+ to_string node_id +:+ "/smd") ;;
  shell ("mkdir -p run/work" +:+ to_string node_id +:+ "/sys/udf/lua") ;;
  shell ("mkdir -p run/work" +:+ to_string node_id +:+ "/usr/udf/lua").

Definition server (node_id node_count : Z) : string :=
  BIN_PATH +:+ " --config-file aerospike_conf" +:+ to_string node_id.
Definition get_configure_string (node_id node_count : Z) : proc workspace string :=
  init_config_file node_id node_count ;;
  init_working_dir node_id ;;
  mret (server node_id node_count).
Definition no_fault_files (node_id : Z) : string := "aerospike_conf,log".
End Aerospike.

(** ** RedisRaft *)

Module Redisraft.
Definition BIN_PATH : string := "/home/zyh/redis-test/redis/src/redis-server".
Definition LIB_PATH : string := "/home/zyh/redis-test/redisraft/redisraft.so".
Definition BASE_PORT : Z := 5001.

Definition server (node_id node_count : Z) : string :=
  BIN_PATH +:+ " --bind " +:+ IP +:+ " " +:+
  "--port " +:+ number BASE_PORT node_id +:+ " " +:+
  "--dbfilename raft" +:+ to_string node_id +:+ ".rdb " +:+
  "--loadmodule " +:+ LIB_PATH +:+ " raft-log-filename raftlog" +:+ to_string node_id +:+ ".db " +:+
  "addr " +:+ IP +:+ ":" +:+ number BASE_PORT node_id.

Definition run_client : string := "timeout 3 bash /home/zyh/DistFuzz/redisraft_test/bin/run_client.sh ".
Definition client (op_name : OP_NAME) (node_count : Z) (nums : list Z) : string :=
  match op_name, nums with
  | OP_READ, _ => run_client +:+ "get"
  | OP_WRITE, [value] => run_client +:+ "set " +:+ to_string value
  | _, _ => EmptyString
  end.

(** The commands of [RedisraftInitOperator]: the first node, then the others. *)
Definition cluster_init : string :=
  "timeout 2 redis-cli -h " +:+ IP +:+ " -p " +:+ to_string BASE_PORT +:+ " raft.cluster init".
Definition cluster_join (i : Z) : string :=
  "timeout 2 redis-cli -h " +:+ IP +:+ " -p " +:+ number BASE_PORT i +:+
  " RAFT.CLUSTER JOIN " +:+ IP +:+ ":" +:+ to_string BASE_PORT.
End Redisraft.

(** ** NuRaft *)

Module Nuraft.
Definition SERVER_BIN_PATH : string := "/home/zyh/NuRaft/build/examples/calc_server".
Definition BASE_PORT : Z := 10001.

Definition server (node_id node_count : Z) : string :=
  SERVER_BIN_PATH +:+ " " +:+ number node_id 1 +:+ " " +:+ IP +:+ ":" +:+ number BASE_PORT node_id.

Definition run_client : string := "timeout 2 bash /home/zyh/DistFuzz/nuraft_test/bin/run_client.sh ".
Definition client (op_name : OP_NAME) (node_count : Z) (nums : list Z) : string :=
  match op_name, nums with
  | OP_READ, _ => run_client +:+ "get"
  | OP_WRITE, [value] => run_client +:+ "set " +:+ to_string value
  | _, _ => EmptyString
  end.

(** [NuraftInitOperator] *)
Definition add_node (i : Z) : string :=
  "echo add " +:+ number i 1 +:+ " " +:+ IP +:+ ":" +:+ number BASE_PORT i +:+ " > calc1.pipe".
Definition init_operator (node_count : Z) : proc workspace unit :=
  for_each (seqZ 1 (node_count - 1)) (λ i, shell (add_node i)).
End Nuraft.

(** ** C-Raft *)

Module Craft.
Definition BIN_PATH : string := "/home/zyh/raft/example/server".
Definition BASE_PORT : Z := 9000.

Definition server (node_id node_count : Z) : string :=
  BIN_PATH +:+ " ./c-raft_data" +:+ to_string node_id +:+ " " +:+ number node_id 1 +:+ " " +:+
  number BASE_PORT node_id +:+ " " +:+ each node_count (λ i, number BASE_PORT i +:+ " ").
Definition init_data_dir (node_id : Z) : proc workspace unit :=
  shell ("mkdir -p ./c-raft_data" +:+ to_string node_id).
Definition get_configure_string (node_id node_count : Z) : proc workspace string :=
  init_data_dir node_id ;; mret (server node_id node_count).
Definition no_fault_files (node_id : Z) : string := ".probe".
End Craft.

(** ** dqlite *)

Module Dqlite.
Definition BIN_PATH : string := "/home/zyh/go/bin/dqlite-demo".
Definition BASE_API_PORT : Z := 3000.
Definition BASE_DB_PORT : Z := 4000.

Definition server (node_id node_count : Z) : string :=
  BIN_PATH +:+ " -D ./dqlite_data" +:+ to_string node_id +:+ " " +:+
  "-a 127.0.0.1:" +:+ number BASE_API_PORT node_id +:+ " " +:+
  "-d 127.0.0.1:" +:+ number BASE_DB_PORT node_id +:+ " " +:+
  (if decide (node_id > 0) then "-j 127.0.0.1:" +:+ to_string BASE_DB_PORT else EmptyString).
Definition init_data_dir (node_id : Z) : proc workspace unit :=
  shell ("mkdir -p ./dqlite_data" +:+ to_string node_id).
Definition get_configure_string (node_id node_count : Z) : proc workspace string :=
  init_data_dir node_id ;; mret (server node_id node_count).

(** A request to a random node: a remainder, undefined for no node. *)
Definition random_node (node_count : Z) : proc workspace Z :=
  byte ← next_byte;
  if decide (node_count = 0) then ub else mret (u32 (byte mod node_count + BASE_API_PORT)).
Definition url (node : Z) : string := "http://127.0.0.1:" +:+ to_string node +:+ "/my-key".
Definition client (op_name : OP_NAME) (node_count : Z) (nums : list Z) : proc workspace string :=
  node ← random_node node_count;
  mret ("timeout 3 curl " +:+
    match op_name, nums with
    | OP_READ, _ => url node
    | OP_WRITE, [value] => "-X PUT -d " +:+ to_string value +:+ " " +:+ url node
    | _, _ => EmptyString
    end).
Definition write_zero (node_count : Z) : proc workspace string :=
  node ← random_node node_count;
  mret ("timeout 3 curl " +:+ "-X PUT -d 0 " +:+ url node).
End Dqlite.

(** ** HDFS *)

Module Hdfs.
Definition HADOOP_PATH : string := "/home/zyh/hadoop".
Definition BIN_PATH : string :=
  "java -cp " +:+ HADOOP_PATH +:+ ":" +:+ HADOOP_PATH +:+ "/share/hadoop/common/*:" +:+ HADOOP_PATH +:+
  "/share/hadoop/common/lib/*:" +:+ HADOOP_PATH +:+ "/share/hadoop/hdfs/*:" +:+ HADOOP_PATH +:+
  "/share/hadoop/hdfs/lib/*:./datanode".

Definition server (node_id node_count : Z) : string :=
  BIN_PATH +:+ number node_id 1 +:+ " org.apache.hadoop.hdfs.server.datanode.DataNode".
Definition data_folder (node_id : Z) : string := "hadoop/datanode" +:+ number node_id 1.
Definition no_fault_files (node_id : Z) : string := "".

Definition namenode (byte : Z) : string :=
  if decide (byte > 128) then "-fs hdfs://127.0.0.1:9001 " else "-fs hdfs://127.0.0.1:9000 ".
Definition client (op_name : OP_NAME) (node_count : Z) (nums : list Z) : proc workspace string :=
  byte ← next_byte;
  let configure_string := "timeout 3 " +:+ HADOOP_PATH +:+ "/bin/hdfs dfs " +:+ namenode byte in
  match op_name, nums with
  | OP_READ, _ => mret (configure_string +:+ "-cat /a")
  | OP_WRITE, [value] => write_file "./a" (to_string value) ;; mret (configure_string +:+ "-put ./a /a")
  | _, _ => mret configure_string
  end.
Definition write_zero : proc workspace string :=
  write_file "./a" "0" ;;
  byte ← next_byte;
  mret ("timeout 3 /home/zyh/hadoop/bin/hdfs dfs " +:+ namenode byte +:+ " -put ./a /a").
End Hdfs.

(** ** RethinkDB *)

Module Rethinkdb.
Definition BIN_PATH : string := "/home/zyh/rethinkdb/build/release_clang_system/rethinkdb".
Definition BASE_PORT : Z := 5000.
Definition BASE_DRIVER_PORT : Z := 4000.
Definition BASE_HTTP_PORT : Z := 8080.

Definition server (node_id node_count : Z) : string :=
  BIN_PATH +:+ " --bind " +:+ IP +:+ " " +:+
  "--cluster-port " +:+ number BASE_PORT node_id +:+ " " +:+
  "--driver-port " +:+ number BASE_DRIVER_PORT node_id +:+ " " +:+
  "--http-port " +:+ number BASE_HTTP_PORT node_id +:+ " " +:+
  "-d ./rethinkdb_data" +:+ to_string node_id +:+ " " +:+
  each node_count (λ i, if decide (i = node_id) then EmptyString else
    "-j " +:+ IP +:+ ":" +:+ number BASE_PORT i +:+ " ").

Definition client_jar (node_count : Z) : string :=
  "timeout 3 /usr/bin/java -jar " +:+ "/home/zyh/DistFuzz/rethinkdb_test/client/target/" +:+
  "rethinkdb-test-client-1.0-SNAPSHOT-jar-with-dependencies.jar " +:+ to_string node_count +:+ " ".
Definition client (op_name : OP_NAME) (node_count : Z) (nums : list Z) : string :=
  client_jar node_count +:+
  match op_name, nums with
  | OP_WRITE, [value] => "set " +:+ to_string value
  | OP_READ, _ => "get"
  | OP_CAS, [old_value; new_value] => "cas " +:+ to_string old_value +:+ " " +:+ to_string new_value
  | _, _ => EmptyString
  end.
Definition write_zero (node_count : Z) : string := client_jar node_count +:+ "set 0".
End Rethinkdb.

(** ** A system that is described by shell scripts *)

Module General.
Definition client (op_name : OP_NAME) (node_count : Z) (nums : list Z) : string :=
  "sh -c " +:+ quote +:+ "./client.sh " +:+
  match op_name, nums with
  | OP_READ, _ => "get"
  | OP_WRITE, [value] => "set " +:+ to_string value
  | OP_CAS, _ => "cas "
  | _, _ => EmptyString
  end +:+ quote.
Definition write_zero : string := "sh -c ./client.sh init".
End General.

(** ** A graceful stop

    [grace_stop_node] of the node managers of C-Raft and dqlite, and their operator
    [GraceRandomKill]: [SIGTERM], then a wait of at most 200 milliseconds whose result
    is not looked at.  [grace] is the two calls. *)
Section grace.
Context {os child : Type} `{!Host os child} `{!Generator} (grace : child → os → os).

Definition grace_stop_node (i : Z) : proc (cluster (os := os) (child := child)) bool :=
  n ← gets node_count;
  if decide (i > u32 (n - 1)) then mret false else
  ni ← node_at (Z.to_nat i);
  if negb ni.(should_alive) then mret true else
  c ← child_of (Z.to_nat i);
  modify (λ w, set_host (grace c w.(host)) w) ;;
  upd_node (Z.to_nat i) (set_alive false) ;;
  mret true.

Definition GraceRandomKill : proc (cluster (os := os) (child := child)) bool :=
  alive_nodes ← gets (nodes_with true);
  if decide (alive_nodes = []) then mret true else
  b ← random_byte;
  i ← from_option (λ _, alive_nodes !! Z.to_nat (b mod zlen alive_nodes));
  grace_stop_node i.

(** The node is recorded as stopped whether or not its process has ended. *)
Lemma grace_stop_recorded i ni c w : 0 <= i <= u32 (w.(node_count) - 1) →
  w.(node_processes) !! Z.to_nat i = Some ni → ni.(should_alive) = true → ni.(process) = Some c →
  ∃ w', grace_stop_node i w = (Norm true, w') ∧ w'.(host) = grace c w.(host) ∧
    w'.(node_processes) !! Z.to_nat i = Some (set_alive false ni).
Proof.
  intros Hi Hn Ha Hp. eexists. split; [|split].
  - unfold grace_stop_node, node_at, child_of, upd_node, mbind, proc_bind, gets, modify, from_option, mret, proc_ret.
    rewrite decide_False by lia. rewrite Hn, Ha. cbn [negb]. rewrite Hn. cbn [option_bind mbind]. rewrite Hp. reflexivity.
  - done.
  - cbn. by rewrite list_lookup_alter_eq, Hn.
Qed.
End grace.

(** ** Lists of addresses *)

(** The parts of a text between the characters [c]. *)
Fixpoint split_at (c : ascii) (s : string) : list string :=
  match s with
  | EmptyString => [EmptyString]
  | String d t =>
      if decide (d = c) then EmptyString :: split_at c t
      else match split_at c t with
           | w :: ws => String d w :: ws
           | [] => [String d EmptyString]
           end
  end.

Fixpoint free_of (c : ascii) (s : string) : Prop :=
  match s with EmptyString => True | String d t => d ≠ c ∧ free_of c t end.

Lemma split_free c s : free_of c s → split_at c s = [s].
Proof.
  induction s as [|d s IH]; [done|]. intros [Hd Hs]. cbn [split_at]. by rewrite decide_False, (IH Hs).
Qed.

Lemma split_sep c s t : free_of c s → split_at c (s +:+ String c t) = s :: split_at c t.
Proof.
  induction s as [|d s IH]; intros Hs.
  { change (EmptyString +:+ ?x) with x. cbn [split_at]. by rewrite decide_True. }
  destruct Hs as [Hd Hs].
  change (String d s +:+ String c t) with (String d (s +:+ String c t)). cbn [split_at].
  by rewrite decide_False, (IH Hs).
Qed.

Lemma free_of_app c s t : free_of c s → free_of c t → free_of c (s +:+ t).
Proof.
  induction s as [|d s IH]; [done|]. intros [Hd Hs] Ht.
  change (String d s +:+ t) with (String d (s +:+ t)). split; [done|by apply IH].
Qed.

(** A number has digits only. *)
Lemma to_string_free c n : digit_of c = None → free_of c (to_string n).
Proof.
  intros Hc. unfold to_string.
  assert (∀ k acc, free_of c acc → free_of c (String (digit (k mod 10)) acc)) as Hone.
  { intros k acc Ha. split; [|done]. intros <-. rewrite digit_of_digit in Hc; [done|]. apply Z.mod_pos_bound. lia. }
  assert (∀ fuel n acc, free_of c acc → free_of c (dec fuel n acc)) as Hdec; [|by apply Hdec].
  induction fuel as [|fuel IH]; intros k acc Ha; cbn [dec]; [by apply Hone|].
  destruct (k <? 10); [by apply Hone|]. by apply IH, Hone.
Qed.

Lemma concat_cons x l : String.concat EmptyString (x :: l) = x +:+ String.concat EmptyString l.
Proof. destruct l; [by rewrite append_empty|done]. Qed.

Lemma comma_list_split n f : 0 < n < 2 ^ 32 → (∀ i, free_of "," (f i)) →
  split_at "," (comma_list n f) = f <$> seqZ 0 n.
Proof.
  intros Hn Hf. unfold comma_list, each. rewrite (u32_id (n - 1)) by (unfold is_u32; lia).
  set (g := λ i, f i +:+ (if decide (i < n - 1) then "," else EmptyString)).
  assert (∀ k m, (0 < m)%nat → k + Z.of_nat m = n →
    split_at "," (String.concat EmptyString (g <$> seqZ k (Z.of_nat m))) = f <$> seqZ k (Z.of_nat m)) as Hall.
  { intros k m. revert k. induction m as [|m IH]; intros k Hm Hk; [lia|].
    rewrite seqZ_cons by lia. replace (Z.pred (Z.of_nat (S m))) with (Z.of_nat m) by lia. rewrite !fmap_cons.
    destruct m as [|m].
    - change (seqZ (Z.succ k) (Z.of_nat 0)) with (@nil Z). cbn [fmap list_fmap String.concat].
      unfold g. rewrite decide_False by lia. rewrite append_empty. by apply split_free.
    - rewrite <-(IH (Z.succ k)) by lia. rewrite concat_cons. unfold g at 1. rewrite decide_True by lia.
      rewrite append_assoc. by apply split_sep. }
  specialize (Hall 0 (Z.to_nat n)). rewrite Z2Nat.id in Hall by lia. apply Hall; lia.
Qed.

(** ** Servers do not share a command line *)

Lemma append_cancel a b c : a +:+ b = a +:+ c → b = c.
Proof. induction a as [|x a IH]; [done|]. intros E. injection E as E. by apply IH. Qed.

Lemma number_follow i j s t : is_u64 i → is_u64 j → no_digit s → no_digit t →
  to_string i +:+ s = to_string j +:+ t → i = j.
Proof.
  intros Hi Hj Hs Ht E. pose proof (scan_int_to_string i s Hi Hs) as E1.
  pose proof (scan_int_to_string j t Hj Ht) as E2. rewrite E in E1. congruence.
Qed.

(** The identifiers of the nodes, far below the width of the integers. *)
Definition node_ids (i : Z) : Prop := 0 <= i < 2 ^ 31.

Lemma node_u64 i : node_ids i → is_u64 i.
Proof. unfold node_ids, is_u64. lia. Qed.

Lemma number_inj base i j s t : 0 <= base < 2 ^ 16 → node_ids i → node_ids j → no_digit s → no_digit t →
  number base i +:+ s = number base j +:+ t → i = j.
Proof.
  unfold number, node_ids. intros Hb Hi Hj Hs Ht E.
  rewrite !u32_id in E by (unfold is_u32; lia).
  apply number_follow in E; [lia|unfold is_u64; lia..|done|done].
Qed.

Lemma successor_inj i j s t : node_ids i → node_ids j → no_digit s → no_digit t →
  number i 1 +:+ s = number j 1 +:+ t → i = j.
Proof.
  unfold number. rewrite (Z.add_comm i), (Z.add_comm j). apply (number_inj 1). lia.
Qed.

(** The servers of every system of this file. *)
Definition servers : list (Z → Z → string) :=
  [Braft.server; Etcd.server; ZooKeeper.server; Keeper.server; Aerospike.server; Redisraft.server;
   Nuraft.server; Craft.server; Dqlite.server; Hdfs.server; Rethinkdb.server].

(** Strip what the two command lines have in common, up to the first number. *)
Ltac same_prefix E := repeat apply append_cancel in E.

Lemma servers_inj server i j n : server ∈ servers → node_ids i → node_ids j →
  server i n = server j n → i = j.
Proof.
  intros Hin Hi Hj E. unfold servers in Hin. pose proof (node_u64 i Hi). pose proof (node_u64 j Hj).
  repeat (apply elem_of_cons in Hin as [->|Hin]); [..|by apply elem_of_nil in Hin].
  - unfold Braft.server in E. same_prefix E. by apply number_inj in E.
  - unfold Etcd.server in E. same_prefix E. by apply number_follow in E.
  - unfold ZooKeeper.server in E. same_prefix E. rewrite <-(append_empty (number i 1)), <-(append_empty (number j 1)) in E.
    by apply successor_inj in E.
  - unfold Keeper.server in E. same_prefix E. by apply number_follow in E.
  - unfold Aerospike.server in E. same_prefix E. by apply to_string_inj.
  - unfold Redisraft.server in E. same_prefix E. by apply number_inj in E.
  - unfold Nuraft.server in E. same_prefix E. by apply successor_inj in E.
  - unfold Craft.server in E. same_prefix E. by apply number_follow in E.
  - unfold Dqlite.server in E. same_prefix E. by apply number_follow in E.
  - unfold Hdfs.server in E. same_prefix E. by apply successor_inj in E.
  - unfold Rethinkdb.server in E. same_prefix E. by apply number_inj in E.
Qed.

(** ** Ports *)

(** The base ports at which a node of each system listens. *)
Definition listening : list (list Z) :=
  [[Braft.BASE_PORT]; [Etcd.BASE_ETCD_PORT; Etcd.BASE_CLIENT_PORT];
   [ZooKeeper.BASE_ZK_PORT; ZooKeeper.BASE_QUORUM_PORT; ZooKeeper.BASE_ELECTION_PORT];
   [Keeper.BASE_ZK_PORT; Keeper.BASE_INNER_PORT];
   [Aerospike.SERVICE_BASE_PORT; Aerospike.HEARTBEAT_BASE_PORT; Aerospike.FABRIC_BASE_PORT; Aerospike.INFO_BASE_PORT];
   [Redisraft.BASE_PORT]; [Nuraft.BASE_PORT]; [Craft.BASE_PORT]; [Dqlite.BASE_API_PORT; Dqlite.BASE_DB_PORT];
   [Rethinkdb.BASE_PORT; Rethinkdb.BASE_DRIVER_PORT; Rethinkdb.BASE_HTTP_PORT]].

Definition ports (bases : list Z) (node_count : Z) : list Z :=
  b ← bases; (λ i, b + i) <$> seqZ 0 node_count.

(** Bases that are [n] apart. *)
Definition apart (n : Z) (bases : list Z) : bool :=
  forallb (λ x, forallb (λ y, bool_decide (x = y ∨ n <= Z.abs (x - y))) bases) bases.

Lemma ports_nodup n bases : 0 <= n → NoDup bases → apart n bases = true → NoDup (ports bases n).
Proof.
  intros Hn Hnd Ha. unfold apart in Ha. rewrite forallb_forall in Ha.
  assert (∀ x y, x ∈ bases → y ∈ bases → x = y ∨ n <= Z.abs (x - y)) as Hd.
  { intros x y Hx%list_elem_of_In Hy%list_elem_of_In. specialize (Ha x Hx). rewrite forallb_forall in Ha.
    specialize (Ha y Hy). by apply bool_decide_eq_true_1 in Ha. }
  clear Ha. unfold ports. induction bases as [|b bases IH]; [constructor|].
  apply list.NoDup_cons in Hnd as [Hb Hnd]. cbn [mbind list_bind]. apply list.NoDup_app. split; [|split].
  - apply NoDup_fmap_2; [intros x y ?; lia|apply NoDup_seqZ].
  - intros p (i&->&Hi)%list_elem_of_fmap (c&Hc&Hcin)%list_elem_of_bind.
    apply list_elem_of_fmap in Hc as (j&E&Hj). apply elem_of_seqZ in Hi, Hj.
    destruct (Hd b c) as [->|Hfar]; [left|by right|done|lia].
  - apply IH; [done|]. intros x y Hx Hy. apply Hd; by right.
Qed.

(** ** Theorems *)


(** A client of etcd, ZooKeeper or the keeper is given all nodes, each once: the
    list of its endpoints, taken apart at the commas, is the addresses of the nodes in
    their order, without an empty entry, and the addresses differ. *)
Theorem endpoints_split address n : address ∈ [Etcd.peer; ZooKeeper.address; Keeper.address] →
  0 < n < 2 ^ 31 →
  split_at "," (comma_list n address) = address <$> seqZ 0 n ∧ NoDup (address <$> seqZ 0 n).
Proof.
  intros Ha Hn. assert (∃ base, 0 <= base < 2 ^ 16 ∧ address = λ i, IP +:+ ":" +:+ number base i) as (base&Hb&->).
  { repeat (apply elem_of_cons in Ha as [->|Ha]); [..|by apply elem_of_nil in Ha].
    - by exists Etcd.BASE_ETCD_PORT.
    - by exists ZooKeeper.BASE_ZK_PORT.
    - by exists Keeper.BASE_ZK_PORT. }
  split.
  - apply comma_list_split; [lia|]. intros i. apply free_of_app; [by vm_compute; repeat split|].
    apply free_of_app; [by vm_compute; repeat split|]. by apply to_string_free.
  - apply list.NoDup_fmap_2_strong; [|apply NoDup_seqZ]. intros i j Hi%elem_of_seqZ Hj%elem_of_seqZ E.
    same_prefix E. rewrite <-(append_empty (number base i)), <-(append_empty (number base j)) in E.
    apply number_inj in E; [done|done|unfold node_ids; lia..|done|done].
Qed.

(** In a cluster of at most 100 nodes, no two ports that the nodes of a system
    listen at are the same, and all are ports.  With one node more, the peer port of
    the last node of etcd is the client port of the first. *)
Theorem ports_distinct bases n : bases ∈ listening → 0 <= n <= 100 →
  NoDup (ports bases n) ∧ Forall (λ p, 0 < p < 2 ^ 16) (ports bases n) ∧
  Etcd.BASE_ETCD_PORT + 100 = Etcd.BASE_CLIENT_PORT + 0.
Proof.
  intros Hin Hn.
  assert (forallb (λ bases, apart 100 bases && bool_decide (NoDup bases) &&
    forallb (λ b, bool_decide (0 < b < 2 ^ 16 - 100)) bases) listening = true) as Hall by (by vm_compute).
  rewrite forallb_forall in Hall. specialize (Hall bases (proj1 (list_elem_of_In _ _) Hin)).
  apply andb_true_iff in Hall as [[Ha Hd%bool_decide_eq_true_1]%andb_true_iff Hr]. split; [|split; [|done]].
  - apply ports_nodup; [lia|done|]. unfold apart in *. rewrite forallb_forall in Ha |- *. intros x Hx.
    specialize (Ha x Hx). rewrite forallb_forall in Ha |- *. intros y Hy. specialize (Ha y Hy).
    apply bool_decide_eq_true_1 in Ha. apply bool_decide_eq_true_2. lia.
  - apply list.Forall_forall. intros p (b&Hp&Hb)%list_elem_of_bind. apply list_elem_of_fmap in Hp as (i&->&Hi%elem_of_seqZ).
    rewrite forallb_forall in Hr. apply list_elem_of_In, Hr, bool_decide_eq_true_1 in Hb. lia.
Qed.

(** The compare-and-set of the general client does not pass its two numbers on. *)
Lemma general_cas_ignores n nums nums' : General.client OP_CAS n nums = General.client OP_CAS n nums'.
Proof. done. Qed.

(** The clients of etcd are sent to the ports at which the nodes listen for each other. *)
Lemma etcd_client_peer_ports n : 0 < n < 2 ^ 31 →
  comma_list n Etcd.peer ≠ comma_list n (λ i, IP +:+ ":" +:+ number Etcd.BASE_CLIENT_PORT i).
Proof.
  intros Hn E. apply (f_equal (split_at ",")) in E.
  assert (∀ base i, free_of "," (IP +:+ ":" +:+ number base i)) as Hf.
  { intros base i. apply free_of_app; [by vm_compute; repeat split|].
    apply free_of_app; [by vm_compute; repeat split|]. by apply to_string_free. }
  rewrite !comma_list_split in E by (lia || apply Hf). rewrite seqZ_cons in E by lia. rewrite !fmap_cons in E.
  apply (f_equal (hd EmptyString)) in E.
  change (Etcd.peer 0 = IP +:+ ":" +:+ number Etcd.BASE_CLIENT_PORT 0) in E. vm_compute in E. discriminate E.
Qed.

(** ** Witnesses *)


Lemma endpoints_split_witness :
  split_at "," (comma_list 2 Etcd.peer) = ["127.0.1.1:2380"; "127.0.1.1:2381"].
Proof.
  destruct (endpoints_split Etcd.peer 2) as [E _]; [apply list_elem_of_here|lia|].
  etrans; [exact E|]. by vm_compute.
Defined.

Lemma ports_distinct_witness : NoDup (ports [2380; 2480] 100).
Proof.
  apply (ports_distinct [2380; 2480] 100); [|lia]. apply list_elem_of_further, list_elem_of_here.
Defined.
