(* ===== verification/Managers.v ===== *)
(** * What single systems do differently

    The node manager of NuRaft ([nuraft_test/src/node_manager.cpp]) overrides [start_process];
    the init operator of RedisRaft ([redisraft_test/src/operators/redisraft_client.cpp]) makes
    the cluster before the first write; the general configuration generator
    ([general_test/include/general_configuration_generator.hpp]) asks a script; and
    [core/src/operator/dst_default_operator.cpp] has the operators that run one command. *)

From S2P Require Import Prelude.
From S2P Require Import Decimal.
From S2P Require Import RandomFile.
From S2P Require Import Nodes.
From S2P Require Import Events.
From S2P Require Import Clients.
From S2P Require Import Systems.

(** ** NuRaft *)

Section nuraft.
Context {os process : Type} `{!Host os process} `{!Generator} (process_id : process → Z).

Definition nuraft_env (id : string) : list (string * string) :=
  [("__DST_ENV_RANDOM_FILE__", "random_node" +:+ id); ("NODE_NAME", "node" +:+ id); ("NODE_ID", id); ("DST_FUZZ", "1")].

(** The server; its input is the pipe [calc<n>.pipe]. *)
Definition nuraft_launch (ni : NodeInfo (child := process)) : launch :=
  let id := to_string ni.(node_id) in
  Launch ni.(start_command) ("log" +:+ id +:+ "_" +:+ to_string ni.(log_index))
    ("log_err" +:+ id +:+ "_" +:+ to_string ni.(log_index)) (nuraft_env id).

(** strace, which attaches to the server and inherits the output of the driver. *)
Definition nuraft_strace (ni : NodeInfo (child := process)) (c : process) : launch :=
  let id := to_string ni.(node_id) in
  Launch ("/home/zyh/DistFuzz/strace/src/strace -f -o strace_log_" +:+ id +:+ " -p " +:+ to_string (process_id c))
    EmptyString EmptyString (nuraft_env id).

(** [strace_process] is only written. *)
Definition nuraft_start_process (i : nat) : proc (cluster (os := os) (child := process)) bool :=
  ni ← node_at i;
  match ni.(Nodes.process) with
  | Some c => modify (λ w, set_host (destroy c w.(host)) w) ;; upd_node i (set_process None)
  | None => mret tt
  end ;;
  c ← new_child (nuraft_launch ni);
  upd_node i (set_process (Some c)) ;;
  _ ← new_child (nuraft_strace ni c);
  mret true.

(** A start that does not throw runs the server and then strace, and keeps the number of the
    log: what the server writes after a restart replaces its log. *)
Lemma nuraft_start_run i ni w : w.(node_processes) !! i = Some ni →
  wp (nuraft_start_process i)
    (λ b w', b = true ∧ ∃ c, w'.(node_processes) !! i = Some (set_process (Some c) ni) ∧
       w'.(launches) = w.(launches) ++ [nuraft_launch ni; nuraft_strace ni c])
    (λ _ _, False) (λ code _, code = ABORTED) w.
Proof.
  intros Hi. unfold nuraft_start_process, node_at. apply wp_bind. eapply wp_from_option; [exact Hi|].
  assert (∀ w1, w1.(launches) = w.(launches) → (∃ x, w1.(node_processes) !! i = Some (set_process x ni)) →
    wp (c ← new_child (nuraft_launch ni); upd_node i (set_process (Some c)) ;;
        _ ← new_child (nuraft_strace ni c); mret true)
      (λ b w', b = true ∧ ∃ c, w'.(node_processes) !! i = Some (set_process (Some c) ni) ∧
         w'.(launches) = w.(launches) ++ [nuraft_launch ni; nuraft_strace ni c])
      (λ _ _, False) (λ code _, code = ABORTED) w1) as Hrest.
  { intros w1 Hl [x Hx]. apply wp_bind. unfold wp at 1, new_child. destruct (spawn _ _) as [[c|] s1]; [|done].
    apply wp_bind. unfold upd_node. wp_step. apply wp_bind. unfold wp at 1. cbn [host set_host set_launches set_nodes].
    destruct (spawn (nuraft_strace ni c) s1) as [[c'|] s2]; [|done]. wp_step. split; [done|]. exists c. cbn. split.
    - by rewrite list_lookup_alter_eq, Hx.
    - by rewrite Hl, <-app_assoc. }
  apply wp_bind. destruct (Nodes.process ni) as [c|] eqn:Ep.
  - apply wp_bind, wp_modify. unfold upd_node. wp_step. apply Hrest; [done|]. exists None. cbn.
    by rewrite list_lookup_alter_eq, Hi.
  - wp_step. apply Hrest; [done|]. exists None. rewrite Hi. f_equal. destruct ni. cbn in *. by rewrite Ep.
Qed.

(** In contrast to [nodes_run] of [Nodes], a node that is started again writes to the log it
    has written to before. *)
Lemma nuraft_restart_overwrites i ni w : w.(node_processes) !! i = Some ni →
  wp (nuraft_start_process i ;; nuraft_start_process i) (λ _ w', ¬ NoDup (l_out <$> w'.(launches)))
    (λ _ _, False) (λ code _, code = ABORTED) w.
Proof.
  intros Hi. apply wp_bind. eapply wp_conseq; [by apply nuraft_start_run|]. intros b w1 (_&c&Hi1&Hl1).
  eapply wp_conseq; [by apply nuraft_start_run|]. intros b' w2 (_&c'&_&Hl2). rewrite Hl2, Hl1, !fmap_app. cbn.
  intros Hnd. apply list.NoDup_app in Hnd as (_&Hdis&_). eapply Hdis; [|apply list_elem_of_here].
  apply elem_of_app. right. apply list_elem_of_here.
Qed.
End nuraft.

(** ** RedisRaft *)

Section redisraft.
Context {q W : Type} `{!Mailbox q} `{!ClientHost W}.

Definition rest (usec : Z) : proc (client q W) unit :=
  modify (λ s, Client s.(c_random) s.(c_queue) (pause usec s.(c_world))).

(** [sleep(1)]; the results of [system] and of the joins are not looked at. *)
Definition redisraft_init_do (node_count : Z) : proc (client q W) bool :=
  rest 1000000 ;;
  _ ← run_command Redisraft.cluster_init;
  for_each (seqZ 1 (node_count - 1)) (λ i, retry_command (Redisraft.cluster_join i) 5 ;; mret tt) ;;
  b ← retry_command (Redisraft.run_client +:+ "set 0") 5;
  when b record_zero ;;
  mret true.

(** ** Operators of one command *)

(** [SimpleCommandOperator], and [NoopOperator] with its command. *)
Definition simple_do (command : string) : proc (client q W) bool :=
  r ← run_command command; mret (bool_decide (fst <$> r = Some 0)).
Definition noop_do : proc (client q W) bool := simple_do "echo do nothing".

(** ** The history of the first write *)

Context `{!MailboxOK q}.

(** What the init operators leave in the queue: nothing, or both records of one write. *)
Definition zero_history (b : bool) (s s' : client q W) : Prop :=
  s'.(c_random) = s.(c_random) ∧
  if b then ∃ id, waiting s'.(c_queue) = waiting s.(c_queue) ++ [message (zero_invoke id); message (zero_ok id)]
  else waiting s'.(c_queue) = waiting s.(c_queue).

Lemma retry_quiet command n (s : client q W) :
  wp (retry_command command n) (λ _ s', s'.(c_random) = s.(c_random) ∧ s'.(c_queue) = s.(c_queue))
    (λ _ _, False) (λ code _, code = 134) s.
Proof.
  revert s. induction n as [|n IH]; intros s; cbn [retry_command]; [by wp_step|].
  apply wp_bind. unfold wp at 1, run_command. destruct (run_client command _) as [[[code out]|] w]; [|done].
  case_decide; [by wp_step|]. apply wp_bind, wp_modify. exact (IH _).
Qed.

Lemma whole_zero id : whole 119 (zero_invoke id) ∧ whole 119 (zero_ok id).
Proof.
  split; unfold zero_invoke, zero_ok; (apply (whole_app 10 109); [by split|]); apply (whole_app 21 88); try apply whole_int;
    by split; [|cbn; lia].
Qed.

Lemma record_zero_ok (s : client q W) : takes 2 s.(c_queue) →
  wp record_zero (λ _ s', zero_history true s s') (λ _ _, False) (λ _ _, False) s.
Proof.
  intros Ht. unfold record_zero. apply wp_bind. unfold wp at 1, draw_id. destruct (random_number _) as [n w].
  set (id := n mod INT_MAX). destruct (whole_zero id) as [H1 H2]. apply wp_bind.
  eapply (record_event_spec _ 119 _ _ _ _ 2); [done|lia|done|lia|]. intros x Hx Htx.
  eapply (record_event_spec _ 119 _ _ _ _ 1); [done|lia|done|lia|]. intros y Hy _. cbn in Hx, Hy.
  unfold zero_history. cbn [c_random c_queue]. split; [done|]. exists id. rewrite Hy, Hx. by rewrite <-app_assoc.
Qed.

(** The first write is in the history when it was made, with its invocation before its
    completion, and is not there at all otherwise; the init operator of a system that needs
    no cluster to be made says which of the two it was. *)
Theorem init_history count n (s : client q W) : takes 2 s.(c_queue) →
  wp (init_do count) (λ b s', zero_history b s s') (λ _ _, False) (λ code _, code = 134) s ∧
  wp (redisraft_init_do n) (λ b s', b = true ∧ ∃ made, zero_history made s s') (λ _ _, False) (λ code _, code = 134) s.
Proof.
  intros Ht.
  assert (∀ s1 b, s1.(c_random) = s.(c_random) ∧ s1.(c_queue) = s.(c_queue) →
    wp (when b record_zero) (λ _ s', zero_history b s s') (λ _ _, False) (λ code _, code = 134) s1) as Hrec.
  { intros s1 b [Hr Hq]. destruct b; [|split; [exact Hr|cbn; by rewrite Hq]]. eapply wp_mono; [apply record_zero_ok; by rewrite Hq| |done|done].
    intros _ s2 [Hr2 [id Hid]]. split; [congruence|]. exists id. by rewrite Hid, Hq. }
  split.
  - unfold init_do. apply wp_bind. eapply wp_conseq; [apply retry_quiet|]. intros b s1 Hs1. specialize (Hrec s1 b Hs1).
    destruct b; [|exact Hrec]. apply wp_bind. eapply wp_conseq; [exact Hrec|]. intros ? s2 Hs2. by wp_step.
  - unfold redisraft_init_do, rest. apply wp_bind, wp_modify. apply wp_bind. unfold wp at 1, run_command.
    destruct (run_client _ _) as [r w]. apply wp_bind.
    eapply (wp_conseq _ (λ _ s1, s1.(c_random) = s.(c_random) ∧ s1.(c_queue) = s.(c_queue))).
    { apply wp_for_each; [done|]. intros i s1 _ [Hr1 Hq1]. apply wp_bind. eapply wp_conseq; [apply retry_quiet|].
      intros _ s2 [? ?]. wp_step. split; congruence. }
    intros _ s1 [Hr1 Hq1]. apply wp_bind. eapply wp_conseq; [apply retry_quiet|]. intros b s2 [Hr2 Hq2].
    apply wp_bind. eapply wp_conseq; [apply Hrec; split; congruence|]. intros ? s3 Hs3. wp_step. split; [done|]. by exists b.
Qed.
End redisraft.

(** ** A system that is described by scripts *)

(** [get_configure_string] of the general generator: for each line of the output of
    [./get_configure.sh], whether the script was still running when the loop has asked;
    the lines are put together without their ends. *)
Fixpoint read_config (l : list (bool * string)) : string :=
  match l with
  | [] => EmptyString
  | (running, line) :: l' => if running then line +:+ read_config l' else EmptyString
  end.

Definition joined (l : list string) : string := foldr (λ x y, x +:+ y) EmptyString l.

(** The command of a node is made of the first lines of the output: all of them when the
    script outlives the loop, and none when it has ended before the loop begins. *)
Lemma read_config_prefix l :
  ∃ k, read_config l = joined (take k l.*2) ∧ (Forall (λ x, x.1 = true) l ↔ k = length l) ∧ (k <= length l)%nat ∧
    (∀ x, l !! k = Some x → x.1 = false).
Proof.
  induction l as [|[[] line] l (k&E&Hall&Hk&Hnext)]; [exists O| |exists O].
  - by split; [|split; [|split]].
  - exists (S k). cbn. rewrite E. split; [done|]. split; [|split; [lia|done]]. rewrite list.Forall_cons, Hall. cbn.
    split; [intros [_ ->]; done|]. intros [= ->]. done.
  - cbn. split; [done|]. split; [|split; [lia|by intros x [= <-]]]. rewrite list.Forall_cons. split; [by intros [? _]|done].
Qed.

(** ** A client of the first write *)

(** Both operators at a queue with room for two messages. *)
Lemma init_history_witness :
  let s : client (list string * Z * Z) unit := Client fresh_reader ([], 10, MAX_QUEUE_MESSAGE_SIZE) tt in
  wp (init_do 5) (λ b s', zero_history b s s') (λ _ _, False) (λ code _, code = 134) s ∧
  wp (redisraft_init_do 3) (λ b s', b = true ∧ ∃ made, zero_history made s s') (λ _ _, False) (λ code _, code = 134) s.
Proof. intros s. apply (init_history 5 3 s). split; [done|vm_compute; congruence]. Defined.
