(* ===== verification/AerospikeClient.v ===== *)
(** * The client of Aerospike

    Models [aerospike_test/include/aerospike_client.hpp]: operators that talk to the servers
    through the library of the vendor, which is an interface here, and record what they do as
    the operators of [Clients] do. *)

From S2P Require Import Prelude.
From S2P Require Import Decimal.
From S2P Require Import RandomFile.
From S2P Require Import Events.
From S2P Require Import Clients.
From S2P Require Import Systems.
From S2P Require Import Managers.

(** [aerospike_connect], [aerospike_key_select] with the text of the value of the bin, and
    [aerospike_key_put] of an integer: whether they return [AEROSPIKE_OK], and with a record. *)
Class Vendor (W : Type) := {
  aerospike_connect : W → bool * W;
  aerospike_key_select : W → option string * W;
  aerospike_key_put : Z → W → bool * W;
}.

(** The bin is an integer: its text is short and has no null character. *)
Class VendorOK (W : Type) `{!Vendor W} := {
  selected_text w v : (aerospike_key_select w).1 = Some v → whole 50 v;
}.

(** [as_hosts] are the ports of the configuration, [None] while [is_initialized] is false. *)
Record as_client (q W : Type) := AsClient { as_hosts : option (list Z); as_base : client q W }.
Arguments AsClient {q W}.
Arguments as_hosts {q W}.
Arguments as_base {q W}.

Section aerospike.
Context {q W : Type} `{!Mailbox q} `{!ClientHost W} `{!Vendor W}.

Definition on_base {A} (m : proc (client q W) A) : proc (as_client q W) A :=
  zoom as_base (λ c s, AsClient s.(as_hosts) c) m.
Definition library {A} (f : W → A * W) : proc (as_client q W) A :=
  on_base (λ s, let '(r, w) := f s.(c_world) in (Norm r, Client s.(c_random) s.(c_queue) w)).

(** [if (!is_initialized) init();] *)
Definition aerospike_init (node_count : Z) : proc (as_client q W) unit :=
  modify (λ s, match s.(as_hosts) with
               | Some _ => s
               | None => AsClient (Some ((λ i, Aerospike.SERVICE_BASE_PORT + i) <$> seqZ 0 node_count)) s.(as_base)
               end).

Definition aerospike_do (op : OP_NAME) (node_count : Z) : proc (as_client q W) bool :=
  aerospike_init node_count ;;
  id ← on_base draw_id;
  connected ← library aerospike_connect;
  if negb connected then mret false else
  match op with
  | OP_READ =>
      on_base (record_event (invoke_record id OP_READ "nil")) ;;
      r ← library aerospike_key_select;
      match r with
      | None => mret false
      | Some val_as_str =>
          on_base (record_event (result_record id OP_READ val_as_str)) ;; on_base (rest 1000000) ;; mret true
      end
  | OP_WRITE =>
      random ← on_base draw32;
      on_base (record_event (invoke_record id OP_WRITE (to_string random))) ;;
      ok ← library (aerospike_key_put random);
      if negb ok then mret false else
      on_base (record_event (result_record id OP_WRITE (to_string random))) ;; on_base (rest 1000000) ;; mret true
  | OP_CAS => on_base (rest 1000000) ;; mret true
  end.

(** The loop of [AerospikeInitOperator] with [count] attempts left. *)
Fixpoint zero_attempts (count : nat) : proc (as_client q W) bool :=
  match count with
  | O => mret false
  | S count' =>
      connected ← library aerospike_connect;
      success ← (if (connected : bool) then library (aerospike_key_put 0) else mret false);
      if (success : bool) then mret true else on_base (rest 500000) ;; zero_attempts count'
  end.

Definition aerospike_init_do (node_count : Z) : proc (as_client q W) bool :=
  aerospike_init node_count ;;
  on_base (record_event (invoke_record 0 OP_WRITE "0")) ;;
  b ← zero_attempts 5;
  if negb b then mret false else
  on_base (record_event (result_record 0 OP_WRITE "0")) ;;
  mret true.

(** ** Histories *)

Context `{!MailboxOK q} `{!VendorOK W}.

Lemma wp_library {A} (f : W → A * W) Q R E (s : as_client q W) :
  (∀ w, (f s.(as_base).(c_world)).2 = w →
     Q (f s.(as_base).(c_world)).1 (AsClient s.(as_hosts) (Client s.(as_base).(c_random) s.(as_base).(c_queue) w))) →
  wp (library f) Q R E s.
Proof. unfold library, on_base, wp, zoom. destruct (f _) as [r w]. cbn. intros HQ. by apply HQ. Qed.

(** A record while the queue still takes [k] messages. *)
Lemma wp_record r (s : as_client q W) Q R E k : whole 119 r → takes k s.(as_base).(c_queue) → 1 <= k →
  (∀ x, waiting x = waiting s.(as_base).(c_queue) ++ [message r] → takes (k - 1) x →
     Q tt (AsClient s.(as_hosts) (Client s.(as_base).(c_random) x s.(as_base).(c_world)))) →
  wp (on_base (record_event r)) Q R E s.
Proof.
  intros Hr Ht Hk HQ. apply wp_zoom. eapply (record_event_spec r 119 _ _ _ _ k); [done|lia|done|done|]. exact HQ.
Qed.

Lemma wp_rest n (s : as_client q W) Q R E :
  (∀ w, Q tt (AsClient s.(as_hosts) (Client s.(as_base).(c_random) s.(as_base).(c_queue) w))) → wp (on_base (rest n)) Q R E s.
Proof. intros HQ. apply wp_zoom. unfold rest. apply wp_modify, HQ. Qed.

Lemma attempts_quiet n (s : as_client q W) :
  wp (zero_attempts n) (λ _ s', s'.(as_hosts) = s.(as_hosts) ∧ s'.(as_base).(c_queue) = s.(as_base).(c_queue))
    (λ _ _, False) (λ _ _, False) s.
Proof.
  revert s. induction n as [|n IH]; intros s; cbn [zero_attempts]; [by wp_step|].
  apply wp_bind, wp_library. intros w _. apply wp_bind.
  assert (∀ s1, s1.(as_hosts) = s.(as_hosts) ∧ s1.(as_base).(c_queue) = s.(as_base).(c_queue) →
    ∀ b : bool, wp (if b then mret true else on_base (rest 500000) ;; zero_attempts n)
      (λ _ s', s'.(as_hosts) = s.(as_hosts) ∧ s'.(as_base).(c_queue) = s.(as_base).(c_queue))
      (λ _ _, False) (λ _ _, False) s1) as Hnext.
  { intros s1 [Hh Hq] b. destruct b; [by wp_step|]. apply wp_bind, wp_rest. intros w1.
    eapply wp_conseq; [apply IH|]. intros _ s2 [? ?]. cbn in *. split; congruence. }
  destruct (aerospike_connect _).1; [apply wp_library; intros w1 _; by apply Hnext|].
  exact (Hnext (AsClient _ (Client _ _ w)) (conj eq_refl eq_refl) false).
Qed.

(** What a request leaves in the queue. *)
Definition request_history (op : OP_NAME) (b : bool) (s s' : as_client q W) : Prop :=
  let before := waiting s.(as_base).(c_queue) in
  let after := waiting s'.(as_base).(c_queue) in
  after = before ∧ (b = true → op = OP_CAS) ∨
  ∃ id value, op ≠ OP_CAS ∧ (op = OP_READ → value = "nil") ∧
    if b then ∃ v, after = before ++ [message (invoke_record id op value); message (result_record id op v)] ∧
                   (op = OP_WRITE → v = value)
    else after = before ++ [message (invoke_record id op value)].

Lemma aerospike_init_run n (s : as_client q W) :
  ∃ hosts, aerospike_init n s = (Norm tt, AsClient (Some hosts) s.(as_base)).
Proof. unfold aerospike_init, modify. destruct s as [[hosts|] base]; by eexists. Qed.

Lemma aerospike_do_ok op n (s : as_client q W) : reader_ok s.(as_base).(c_random) → takes 2 s.(as_base).(c_queue) →
  wp (aerospike_do op n) (λ b s', is_Some s'.(as_hosts) ∧ request_history op b s s') (λ _ _, False) (λ _ _, False) s.
Proof.
  intros Hr Ht. destruct (aerospike_init_run n s) as [hosts Hinit].
  unfold aerospike_do. apply wp_bind. unfold wp at 1. rewrite Hinit. apply wp_bind, wp_zoom. unfold wp at 1, draw_id.
  destruct (random_number _) as [m w]. set (id := m mod INT_MAX). cbn [as_base as_hosts].
  apply wp_bind, wp_library. intros w1 _. cbn [as_base as_hosts c_random c_queue c_world].
  destruct (aerospike_connect w).1; cbn [negb]; [|wp_step; split; [by eexists|by left]].
  destruct op.
  + apply wp_bind, wp_zoom. apply draw32_spec; [done|]. intros v r Hr1. cbn [as_base c_queue c_world]. apply wp_bind.
    assert (whole 50 (to_string v)) as Hv by (destruct (whole_to_string v); split; [done|lia]).
    eapply (wp_record _ _ _ _ _ 2); [by apply whole_invoke|done|lia|]. intros x Hx Htx. cbn [as_base c_queue] in Hx.
    apply wp_bind, wp_library. intros w2 _. cbn [as_base c_world].
    destruct (aerospike_key_put v _).1; cbn [negb]; [|wp_step; split; [by eexists|right; exists id, (to_string v); done]].
    apply wp_bind. eapply (wp_record _ _ _ _ _ 1); [by apply whole_result|done|lia|]. intros y Hy _.
    apply wp_bind, wp_rest. intros w3. wp_step. split; [by eexists|]. right. exists id, (to_string v). do 2 (split; [done|]).
    exists (to_string v). cbn in *. by rewrite Hy, Hx, <-app_assoc.
  + apply wp_bind. eapply (wp_record _ _ _ _ _ 2); [apply whole_invoke; by split; [|cbn; lia]|done|lia|]. intros x Hx Htx.
    cbn [as_base c_queue] in Hx. apply wp_bind, wp_library. intros w2 _. cbn [as_base c_world].
    destruct (aerospike_key_select w1).1 as [v|] eqn:Ev; [|wp_step; split; [by eexists|right; exists id, "nil"; done]].
    apply wp_bind. eapply (wp_record _ _ _ _ _ 1); [apply whole_result; by eapply selected_text|done|lia|]. intros y Hy _.
    apply wp_bind, wp_rest. intros w3. wp_step. split; [by eexists|]. right. exists id, "nil". do 2 (split; [done|]).
    exists v. cbn in *. by rewrite Hy, Hx, <-app_assoc.
  + apply wp_bind, wp_rest. intros w3. wp_step. split; [by eexists|by left].
Qed.

Lemma aerospike_init_do_ok n (s : as_client q W) : takes 2 s.(as_base).(c_queue) →
  wp (aerospike_init_do n)
    (λ b s', is_Some s'.(as_hosts) ∧ waiting s'.(as_base).(c_queue) = waiting s.(as_base).(c_queue) ++
       message (invoke_record 0 OP_WRITE "0") :: (if (b : bool) then [message (result_record 0 OP_WRITE "0")] else []))
    (λ _ _, False) (λ _ _, False) s.
Proof.
  intros Ht. destruct (aerospike_init_run n s) as [hosts Hinit].
  unfold aerospike_init_do. apply wp_bind. unfold wp at 1. rewrite Hinit. apply wp_bind.
  eapply (wp_record _ _ _ _ _ 2); [apply whole_invoke; by split; [|cbn; lia]|done|lia|]. intros x Hx Htx.
  apply wp_bind. eapply wp_conseq; [apply attempts_quiet|]. intros b s1 [Hh Hq]. cbn [as_base as_hosts c_queue] in *.
  destruct b; cbn [negb]; [|wp_step; split; [by eexists|by rewrite Hq]].
  apply wp_bind. eapply (wp_record _ _ _ _ _ 1); [apply whole_result; by split; [|cbn; lia]|by rewrite Hq|lia|].
  intros y Hy _. wp_step. cbn [as_base as_hosts c_queue]. split; [by eexists|]. by rewrite Hy, Hq, Hx, <-app_assoc.
Qed.

(** The client of Aerospike leaves the histories that the other clients leave: nothing when it
    does not reach a server, the invocation alone when the request fails, and otherwise both
    records under one process.  Its first write is invoked once, however often it is tried, and
    completed when one of the tries has succeeded.  Compare-and-set is not implemented: it
    succeeds and leaves nothing. *)
Theorem aerospike_history op n (s : as_client q W) : reader_ok s.(as_base).(c_random) → takes 2 s.(as_base).(c_queue) →
  wp (aerospike_do op n) (λ b s', is_Some s'.(as_hosts) ∧ request_history op b s s') (λ _ _, False) (λ _ _, False) s ∧
  wp (aerospike_init_do n)
    (λ b s', is_Some s'.(as_hosts) ∧ waiting s'.(as_base).(c_queue) = waiting s.(as_base).(c_queue) ++
       message (invoke_record 0 OP_WRITE "0") :: (if (b : bool) then [message (result_record 0 OP_WRITE "0")] else []))
    (λ _ _, False) (λ _ _, False) s.
Proof. intros Hr Ht. split; [by apply aerospike_do_ok|by apply aerospike_init_do_ok]. Qed.
End aerospike.

(** ** A server that answers *)

#[global] Instance demo_vendor : Vendor unit := {
  aerospike_connect w := (true, w);
  aerospike_key_select w := (Some "42", w);
  aerospike_key_put n w := (true, w);
}.
#[global] Instance demo_vendor_ok : VendorOK unit.
Proof. split. intros w v [= <-]. split; [done|cbn; lia]. Qed.

Lemma aerospike_history_witness :
  let s : as_client (list string * Z * Z) unit :=
    AsClient None (Client fresh_reader ([], 10, MAX_QUEUE_MESSAGE_SIZE) tt) in
  wp (aerospike_do OP_READ 3) (λ b s', is_Some s'.(as_hosts) ∧ request_history OP_READ b s s')
    (λ _ _, False) (λ _ _, False) s.
Proof.
  intros s. destruct (aerospike_history OP_READ 3 s) as [H _]; [| |exact H].
  - split; cbn; [lia|lia|]. exists []. by left.
  - split; [done|vm_compute; congruence].
Defined.
