(* ===== verification/Store.v ===== *)
(** * The state that a test shares

    Models the small stores of [core]: the key-value store of
    [core/src/dst_default_in_memory_kv_store.cpp], the registries of
    [core/include/dst_registry.hpp] in which operators and node managers are found,
    and the flag of [core/src/utils/share_mem_util.cpp] by which the driver tells the
    servers whether they are being fuzzed. *)

From S2P Require Import Prelude.
From S2P Require Import Decimal.

(** ** The key-value store *)

Abbreviation kv_store := (gmap string string).

Definition dst_set_bool (key : string) (value : Z) (kv : kv_store) : kv_store :=
  <[key := int_to_string value]> kv.
Definition dst_exist (key : string) (kv : kv_store) : bool := bool_decide (is_Some (kv !! key)).
Definition dst_set (key value : string) (kv : kv_store) : kv_store := <[key := value]> kv.

(** [None]: [std::stoi] throws. *)
Definition dst_get_bool_or_not_exist (key : string) (kv : kv_store) : option bool :=
  if dst_exist key kv then
    v ← stoi (default EmptyString (kv !! key)); Some (bool_decide (v = 1))
  else Some false.
Definition dst_get (key : string) (kv : kv_store) : string :=
  if dst_exist key kv then default EmptyString (kv !! key) else EmptyString.
Definition dst_clear_kv_all (kv : kv_store) : kv_store := ∅.

(** A flag reads back as it was set, when it was set to 0 or 1, and the other keys do
    not change. *)
Lemma dst_bool_roundtrip key value kv : -2 ^ 31 <= value < 2 ^ 31 →
  dst_get_bool_or_not_exist key (dst_set_bool key value kv) = Some (bool_decide (value = 1)) ∧
  (∀ k, k ≠ key → dst_get k (dst_set_bool key value kv) = dst_get k kv) ∧
  dst_get_bool_or_not_exist key (dst_clear_kv_all (dst_set_bool key value kv)) = Some false.
Proof.
  intros Hv. unfold dst_get_bool_or_not_exist, dst_set_bool, dst_exist, dst_get, dst_exist. split; [|split].
  - rewrite lookup_insert_eq, bool_decide_eq_true_2 by eauto. cbn. by rewrite stoi_to_string.
  - intros k Hk. by rewrite lookup_insert_ne.
  - unfold dst_clear_kv_all. by rewrite lookup_empty.
Qed.

(** ** Registries *)

Record registry (T : Type) := Registry { item_map : gmap string T; item_vector : list (string * T) }.
Arguments Registry {T}.
Arguments item_map {T}.
Arguments item_vector {T}.

Definition registry_add {T} (name : string) (target : T) (r : registry T) : bool * registry T :=
  if decide (is_Some (r.(item_map) !! name)) then (false, r)
  else (true, Registry (<[name := target]> r.(item_map)) (r.(item_vector) ++ [(name, target)])).

(** The loop and the two [erase] of [run_init_operator]. *)
Fixpoint erase_first {T} (name : string) (l : list (string * T)) : option (T * list (string * T)) :=
  match l with
  | [] => None
  | (n, t) :: l' =>
      if decide (n = name) then Some (t, l')
      else match erase_first name l' with Some (x, r) => Some (x, (n, t) :: r) | None => None end
  end.

(** The map and the vector hold the same items, each name once. *)
Definition registry_ok {T} (r : registry T) : Prop :=
  NoDup (r.(item_vector).*1) ∧ ∀ n t, r.(item_map) !! n = Some t ↔ (n, t) ∈ r.(item_vector).

Lemma registry_add_ok {T} name (t : T) r : registry_ok r → registry_ok (registry_add name t r).2.
Proof.
  intros [Hd He]. unfold registry_add. case_decide as Hs; [done|]. split; cbn.
  - rewrite fmap_app. apply list.NoDup_app. split; [done|]. split; [|apply NoDup_singleton].
    intros n Hn Hin. apply list_elem_of_singleton in Hin. cbn in Hin. subst n. apply list_elem_of_fmap in Hn as ([n x]&->&Hn).
    apply Hs. exists x. by apply He.
  - intros n x. rewrite lookup_insert_Some, elem_of_app, list_elem_of_singleton, <-He. split.
    + intros [[-> ->]|[_ H]]; [by right|by left].
    + intros [H|[= -> ->]]; [|by left]. right. split; [|done]. intros ->. by apply Hs; eexists.
Qed.

(** ** The fuzzing flag *)

(** A pointer to a byte: null, the error value of [shmat], an attached segment, or
    memory of the process itself. *)
Inductive pointer := Null | Invalid | Segment (id : Z) | Own (v : Z).

(** The static variables and the environment variable of one process, and the shared
    segments of the machine. *)
Record flags := Flags {
  init_done : bool;
  is_fuzzing : pointer;
  share_mem_id : Z;
  shm_env : option string;
  segments : gmap Z Z;
}.

Section flag.
(** The identifier [shmget] gives to a new segment, negative when it fails. *)
Context (shmget : gmap Z Z → Z).

Definition shmat (id : Z) (m : gmap Z Z) : pointer :=
  if decide (is_Some (m !! id)) then Segment id else Invalid.

(** Reading and writing through [is_fuzzing]. *)
Definition load_flag : proc flags Z :=
  from_option (λ s, match s.(is_fuzzing) with
    | Segment id => s.(segments) !! id
    | Own v => Some v
    | _ => None
    end).
Definition store_flag (v : Z) : proc flags unit :=
  update (λ s, match s.(is_fuzzing) with
    | Segment id =>
        if decide (is_Some (s.(segments) !! id)) then
          Some (Flags s.(init_done) s.(is_fuzzing) s.(share_mem_id) s.(shm_env) (<[id := v]> s.(segments)))
        else None
    | Own _ => Some (Flags s.(init_done) (Own v) s.(share_mem_id) s.(shm_env) s.(segments))
    | _ => None
    end).

(** A new segment is zero. *)
Definition init_is_fuzzing : proc flags bool :=
  m ← gets segments;
  let id := shmget m in
  modify (λ s, Flags s.(init_done) s.(is_fuzzing) id s.(shm_env) s.(segments)) ;;
  if decide (id < 0) then exit_ (-1) else
  modify (λ s, Flags s.(init_done) s.(is_fuzzing) id (Some (int_to_string id)) (<[id := 0]> s.(segments))) ;;
  modify (λ s, Flags s.(init_done) (shmat id s.(segments)) s.(share_mem_id) s.(shm_env) s.(segments)) ;;
  p ← gets is_fuzzing;
  match p with
  | Null => exit_ (-1)
  | _ => store_flag 1 ;; mret true
  end.

(** [int shmId = strtol(is_fuzzing_env, nullptr, 0)] *)
Definition get_is_fuzzing : proc flags bool :=
  d ← gets init_done;
  (if (d : bool) then mret tt else
   modify (λ s, Flags true
     match s.(shm_env) with
     | None => Own 1
     | Some t => shmat (s32 (strtol t)) s.(segments)
     end s.(share_mem_id) s.(shm_env) s.(segments))) ;;
  v ← load_flag;
  mret (bool_decide (v = 1)).

Definition set_is_fuzzing (should_fuzzing : bool) : proc flags bool :=
  get_is_fuzzing ;;
  store_flag (if should_fuzzing then 1 else 0) ;;
  mret true.

Definition remove_is_fuzzing : proc flags bool :=
  id ← gets share_mem_id;
  if decide (id ≠ 0) then
    m ← gets segments;
    modify (λ s, Flags s.(init_done) s.(is_fuzzing) s.(share_mem_id) s.(shm_env) (delete id s.(segments))) ;;
    mret (bool_decide (is_Some (m !! id)))
  else mret true.

(** A process as it starts, with the environment of its parent. *)
Definition child_flags (s : flags) : flags := Flags false Null 0 s.(shm_env) s.(segments).

(** ** One flag for all processes *)

(** The process has attached the segment [id], or will do so. *)
Record flag_ok (id : Z) (s : flags) : Prop := FlagOK {
  fo_id : 0 <= id < 2 ^ 31;
  fo_env : s.(shm_env) = Some (int_to_string id);
  fo_seg : is_Some (s.(segments) !! id);
  fo_ptr : s.(init_done) = true → s.(is_fuzzing) = Segment id;
}.
Definition flag_value (id : Z) (s : flags) : Z := default 0 (s.(segments) !! id).

Lemma env_id id : 0 <= id < 2 ^ 31 → s32 (strtol (int_to_string id)) = id.
Proof. intros Hid. unfold int_to_string. rewrite decide_False by lia. by apply strtol_to_string. Qed.

Lemma get_is_fuzzing_run id s : flag_ok id s →
  ∃ s', get_is_fuzzing s = (Norm (bool_decide (flag_value id s = 1)), s') ∧ flag_ok id s' ∧
    s'.(is_fuzzing) = Segment id ∧ s'.(segments) = s.(segments) ∧ s'.(share_mem_id) = s.(share_mem_id).
Proof.
  intros [Hid He [v Hv] Hp]. unfold get_is_fuzzing, mbind, proc_bind, gets, flag_value.
  destruct s as [[] p i e m]; cbn in *.
  - rewrite Hp by done. unfold load_flag, from_option. cbn. rewrite Hv. eexists. split; [done|].
    split; [|done]. by split; cbn.
  - subst e. unfold modify. cbn. rewrite env_id by done. unfold shmat. rewrite decide_True by eauto.
    unfold load_flag, from_option. cbn. rewrite Hv. eexists. split; [done|]. split; [|done]. by split; cbn.
Qed.

Lemma set_is_fuzzing_run id b s : flag_ok id s →
  ∃ s', set_is_fuzzing b s = (Norm true, s') ∧ flag_ok id s' ∧ s'.(share_mem_id) = s.(share_mem_id) ∧
    flag_value id s' = (if (b : bool) then 1 else 0) ∧
    ∀ j, j ≠ id → s'.(segments) !! j = s.(segments) !! j.
Proof.
  intros Hok. destruct (get_is_fuzzing_run id s Hok) as (s1&E&[Hid He Hs Hp]&Hptr&Hseg&Hi).
  unfold set_is_fuzzing. unfold mbind at 1, proc_bind at 1. rewrite E.
  unfold mbind, proc_bind, store_flag, update. rewrite Hptr, decide_True by done. eexists. split; [done|].
  unfold flag_value. cbn. rewrite lookup_insert_eq. split; [|split; [done|split; [done|]]].
  - split; cbn; [done|done| |done]. rewrite lookup_insert_eq. by eexists.
  - intros j Hj. rewrite lookup_insert_ne by done. by rewrite Hseg.
Qed.

Lemma init_is_fuzzing_run s : s.(init_done) = false → 0 <= shmget s.(segments) < 2 ^ 31 →
  let id := shmget s.(segments) in
  ∃ s', init_is_fuzzing s = (Norm true, s') ∧ flag_ok id s' ∧ s'.(share_mem_id) = id ∧ flag_value id s' = 1.
Proof.
  intros Hd Hid id. unfold init_is_fuzzing, mbind, proc_bind, gets, modify. fold id.
  destruct s as [dn p i e m]. cbn in *. rewrite decide_False by lia. unfold shmat. cbn.
  rewrite lookup_insert_eq, decide_True by eauto. unfold store_flag, update. cbn.
  rewrite lookup_insert_eq, decide_True by eauto. eexists. split; [done|]. unfold flag_value. cbn.
  rewrite insert_insert_eq, lookup_insert_eq. split; [|done]. split; cbn; [lia|done| |congruence].
  rewrite lookup_insert_eq. by eexists.
Qed.

Lemma last_shift (b d : bool) bs : last (b :: bs) d = last bs b.
Proof.
  revert b d. induction bs as [|b' bs IH]; intros b d; [done|].
  change (last (b' :: bs) d = last (b' :: bs) b). by rewrite !IH.
Qed.

Lemma set_all_run id bs s : flag_ok id s →
  ∃ s', for_each bs (λ b, set_is_fuzzing b ;; mret tt) s = (Norm tt, s') ∧ flag_ok id s' ∧
    (bool_decide (flag_value id s' = 1) = last bs (bool_decide (flag_value id s = 1))).
Proof.
  revert s. induction bs as [|b bs IH]; intros s Hok; [by exists s|].
  destruct (set_is_fuzzing_run id b s Hok) as (s1&E1&Hok1&_&Hv1&_). destruct (IH s1 Hok1) as (s2&E2&Hok2&Hv2).
  exists s2. cbn [for_each]. unfold mbind, proc_bind. rewrite E1. split; [exact E2|]. split; [done|].
  rewrite Hv2, Hv1, last_shift. by destruct b.
Qed.

(** C38. The servers read the flag as the driver set it last: a process that inherits
    the environment of the driver, whether it has looked at the flag before or not,
    gets the last value that [set_is_fuzzing] stored, and true when there was none. *)
Theorem flag_shared bs s : s.(init_done) = false → 0 <= shmget s.(segments) < 2 ^ 31 →
  ∃ s', (init_is_fuzzing ;; for_each bs (λ b, set_is_fuzzing b ;; mret tt)) s = (Norm tt, s') ∧
    ∀ c, c.(shm_env) = s'.(shm_env) → c.(segments) = s'.(segments) →
      (c.(init_done) = true → c.(is_fuzzing) = Segment (shmget s.(segments))) →
      (get_is_fuzzing c).1 = Norm (last bs true).
Proof.
  intros Hd Hid. destruct (init_is_fuzzing_run s Hd Hid) as (s1&E1&Hok1&_&Hv1).
  destruct (set_all_run _ bs s1 Hok1) as (s2&E2&Hok2&Hv2). exists s2.
  unfold mbind, proc_bind. rewrite E1. split; [exact E2|]. intros c He Hs Hp.
  assert (flag_ok (shmget s.(segments)) c) as Hc.
  { destruct Hok2 as [? ? ? ?]. split; [done|congruence|by rewrite Hs|done]. }
  destruct (get_is_fuzzing_run _ c Hc) as (c'&->&_). cbn [fst]. f_equal.
  unfold flag_value in *. rewrite Hs, Hv2, Hv1. done.
Qed.

(** The segment with the identifier 0 is never removed. *)
Lemma remove_zero s : s.(share_mem_id) = 0 → remove_is_fuzzing s = (Norm true, s).
Proof. intros E. unfold remove_is_fuzzing, mbind, proc_bind, gets. rewrite E. by rewrite decide_False by lia. Qed.
End flag.

Definition demo_flags : flags := Flags false Null 0 None {[ 4 := 9 ]}.

Lemma flag_shared_witness :
  ∃ s', (init_is_fuzzing (λ _, 5) ;; for_each [false; true; false] (λ b, set_is_fuzzing b ;; mret tt)) demo_flags =
      (Norm tt, s') ∧
    ∀ c, c.(shm_env) = s'.(shm_env) → c.(segments) = s'.(segments) →
      (c.(init_done) = true → c.(is_fuzzing) = Segment 5) → (get_is_fuzzing c).1 = Norm false.
Proof. apply (flag_shared (λ _, 5) [false; true; false] demo_flags); [done|lia]. Defined.
