(* ===== verification/TestMain.v ===== *)
(** * The driver of a test

    Models [core/src/dst_test_main.cpp]: the options, the schedule of normal and
    critical operators with its random pauses, the check of the servers and of their
    recovery, and the clean-up.  Operators that talk to the system under test, and the
    shell scripts, are an interface; the node manager, the random file, the fuzzing
    flag and the stores are the models of the other files. *)

From Stdlib Require Import Ascii.
From S2P Require Import Prelude.
From S2P Require Import Decimal.
From S2P Require Import RandomFile.
From S2P Require Import Nodes.
From S2P Require Import Store.

(** ** Options *)

Definition option_names : list string :=
  ["help"; "fuzz_before_init"; "node_count"; "normal_sleep_ms"; "normal_count"; "critic_sleep_ms";
   "critic_count"; "no_fuzz_normal_events"; "no_fuzz_time"; "no_reduction"; "check_after_fuzz";
   "random_file"; "start_with_strace"; "start_with_ebpf"; "start_with_rr"; "use_checkpoint";
   "sleep_ms"; "sleep_granularity"].

(** The text before the first equals sign and the text after it. *)
Fixpoint split_eq (s : string) : string * option string :=
  match s with
  | EmptyString => (EmptyString, None)
  | String c t =>
      if decide (c = "="%char) then (EmptyString, Some t)
      else let '(a, b) := split_eq t in (String c a, b)
  end.

(** The dot of the regular expression does not match a carriage return. *)
Fixpoint has_cr (s : string) : bool :=
  match s with
  | EmptyString => false
  | String c t => if decide (c = "013"%char) then true else has_cr t
  end.

Definition parse_option (s : string) : option (string * string) :=
  match s with
  | String "-"%char (String "-"%char t) =>
      let '(name, value) := split_eq t in
      if decide (name ∈ option_names) then
        match value with
        | None => Some (name, EmptyString)
        | Some v => if has_cr v then None else Some (name, v)
        end
      else None
  | _ => None
  end.

Definition parse_options (argv : list string) : gmap string string :=
  foldl (λ o s, match parse_option s with
    | Some (name, value) => <[name := value]> o
    | None => <["help" := EmptyString]> o
    end) ∅ argv.

Definition RUN_NORMAL_OPERATOR_COUNT : Z := 2.
Definition RUN_CRITICAL_OPERATOR_COUNT : Z := 2.

Record settings := Settings {
  opt_node_count : Z;
  check_after_fuzz : bool;
  random_file : string;
  run_normal_operator_count : Z;
  run_critic_operator_count : Z;
  sleep_ms : Z;
  sleep_granularity : Z;
  fuzz_before_init : bool;
  with_ebpf : bool;
  with_rr : bool;
  use_checkpoint : bool;
  fuzz_normal_events : bool;
  fuzz_time : bool;
  no_reduction : bool;
}.

Definition settings_of (o : gmap string string) : settings :=
  let number name d := match o !! name with Some v => atoi v | None => d end in
  let given name := bool_decide (is_Some (o !! name)) in
  let ms := match o !! "sleep_ms", o !! "critic_sleep_ms", o !! "normal_sleep_ms" with
            | Some v, _, _ | None, Some v, _ | None, None, Some v => u32 (atoi v)
            | None, None, None => 200
            end in
  Settings (number "node_count" DEFAULT_NODE_COUNT)
    (bool_decide (o !! "check_after_fuzz" = Some "true"))
    (default "init_random.txt" (o !! "random_file"))
    (number "normal_count" RUN_NORMAL_OPERATOR_COUNT)
    (number "critic_count" RUN_CRITICAL_OPERATOR_COUNT)
    ms
    (match o !! "sleep_granularity" with Some v => u32 (atoi v) | None => 10 end)
    (negb (bool_decide (o !! "fuzz_before_init" = Some "false")))
    (given "start_with_ebpf") (given "start_with_rr") (given "use_checkpoint")
    (negb (given "no_fuzz_normal_events")) (negb (given "no_fuzz_time")) (given "no_reduction").

(** ** The world of a test *)

(** A normal operator is a number; [start_operator] runs it in a thread and
    [join_operator] waits for it, [do_operator] runs it in place.  They draw random
    bytes like the driver does.  [shell] is [system] for the scripts. *)
Class TestHost (X : Type) := {
  shell : string → fs * X → fs * X;
  sleep : Z → X → X;
  start_operator : nat → reader * X → nat * (reader * X);
  join_operator : nat → reader * X → reader * X;
  do_operator : nat → reader * X → bool * (reader * X);
}.

(** What the driver does, with the value of the fuzzing flag where it runs an
    operator. *)
Inductive entry :=
  | Slept (ms : Z)
  | Normal (name : string) (fuzzing : Z)
  | Critical (name : string) (fuzzing : Z)
  | Recovery (name : string) (fuzzing : Z)
  | Shell (command : string)
  | Setenv (name value : string)
  | CheckFailed.
#[global] Instance entry_dec : EqDecision entry.
Proof. solve_decision. Defined.

Section driver.
Context {os child : Type} `{!Host os child} `{!Generator}.
Context {X : Type} `{!TestHost X}.
Context (shmget : gmap Z Z → Z).

(** [registered] tells whether a node manager was registered. *)
Record world := World {
  registered : bool;
  w_cluster : cluster (os := os) (child := child);
  w_flags : flags;
  w_kv : kv_store;
  w_normal : list (string * nat);
  w_ext : X;
  trace : list entry;
}.
Definition set_cluster (c : cluster) (w : world) : world :=
  World w.(registered) c w.(w_flags) w.(w_kv) w.(w_normal) w.(w_ext) w.(trace).
Definition set_flags (f : flags) (w : world) : world :=
  World w.(registered) w.(w_cluster) f w.(w_kv) w.(w_normal) w.(w_ext) w.(trace).
Definition set_kv (kv : kv_store) (w : world) : world :=
  World w.(registered) w.(w_cluster) w.(w_flags) kv w.(w_normal) w.(w_ext) w.(trace).
Definition set_normal (l : list (string * nat)) (w : world) : world :=
  World w.(registered) w.(w_cluster) w.(w_flags) w.(w_kv) l w.(w_ext) w.(trace).
Definition set_ext (x : X) (w : world) : world :=
  World w.(registered) w.(w_cluster) w.(w_flags) w.(w_kv) w.(w_normal) x w.(trace).
Definition emit (e : entry) : proc world unit :=
  modify (λ w, World w.(registered) w.(w_cluster) w.(w_flags) w.(w_kv) w.(w_normal) w.(w_ext) (w.(trace) ++ [e])).

Definition on_cluster {A} (m : proc cluster A) : proc world A := zoom w_cluster set_cluster m.
Definition on_flags {A} (m : proc flags A) : proc world A := zoom w_flags set_flags m.

(** The random bytes and the outside world, which the operators work on. *)
Definition on_clients {A} (f : reader * X → A * (reader * X)) : proc world A := λ w,
  let '(a, (r, x)) := f (w.(w_cluster).(random), w.(w_ext)) in
  (Norm a, set_ext x (set_cluster (set_random r w.(w_cluster)) w)).
Definition run_shell (command : string) : proc world unit := λ w,
  let '(f, x) := shell command (w.(w_cluster).(disk), w.(w_ext)) in
  emit (Shell command) (set_ext x (set_cluster (set_disk f w.(w_cluster)) w)).
Definition sleep_for (ms : Z) : proc world unit :=
  modify (λ w, set_ext (sleep ms w.(w_ext)) w) ;; emit (Slept ms).
Definition next_byte : proc world Z := on_cluster random_byte.
Definition flag_now (w : world) : Z := flag_value w.(w_flags).(share_mem_id) w.(w_flags).

(** ** Pauses and operators *)

(** Division and remainder by zero are undefined. *)
Definition sleep_between (o : settings) : proc world unit :=
  if o.(fuzz_time) then
    b ← next_byte;
    if decide (o.(sleep_granularity) = 0 ∨ o.(sleep_ms) / o.(sleep_granularity) = 0) then ub else
    sleep_for (u32 (o.(sleep_granularity) * (b mod (o.(sleep_ms) / o.(sleep_granularity)))))
  else sleep_for o.(sleep_ms).

Definition sleep_byte (o : settings) : proc world unit :=
  when o.(fuzz_time) (b ← next_byte; sleep_for b).

Definition run_init_operator : proc world unit :=
  l ← gets w_normal;
  match erase_first "Init" l with
  | Some (i, l') => on_clients (do_operator i) ;; modify (set_normal l')
  | None => mret tt
  end.

Definition start_normal (index : Z) : proc world nat :=
  x ← from_option (λ w, w.(w_normal) !! Z.to_nat index);
  f ← gets flag_now;
  emit (Normal x.1 f) ;;
  on_clients (start_operator x.2).
Definition join (h : nat) : proc world unit := on_clients (λ s, (tt, join_operator h s)).

(** One turn: the index drawn for the first operator is not used. *)
Definition normal_turn (o : settings) (operator_size : Z) : proc world unit :=
  sleep_between o ;;
  when o.(fuzz_normal_events) (next_byte ;; mret tt) ;;
  t1 ← start_normal 0;
  b ← next_byte;
  (if decide (b < 150) then
     b ← next_byte;
     t2 ← start_normal (b mod operator_size);
     join t2
   else mret tt) ;;
  join t1.

Definition run_some_normal_operators (o : settings) (number : Z) : proc world unit :=
  operator_size ← gets (λ w, zlen w.(w_normal));
  when (bool_decide (operator_size > 0)) (for_each (seqZ 0 number) (λ _, normal_turn o operator_size)) ;;
  sleep_byte o.

(** [critical]: the registered critical operators. *)
Context (critical : list (string * proc (cluster (os := os) (child := child)) bool)).

Definition critical_turn (o : settings) : proc world unit :=
  sleep_between o ;;
  b ← next_byte;
  x ← from_option (λ _, critical !! Z.to_nat (b mod zlen critical));
  f ← gets flag_now;
  emit (Critical x.1 f) ;;
  on_cluster x.2 ;;
  run_some_normal_operators o o.(run_normal_operator_count).

(** The operators of the recovery check; the result tells whether all have failed. *)
Fixpoint recovery_turns (n : nat) (operator_size : Z) (all_failed : bool) : proc world bool :=
  match n with
  | O => mret all_failed
  | S n' =>
      b ← next_byte;
      x ← from_option (λ w, w.(w_normal) !! Z.to_nat (b mod operator_size));
      f ← gets flag_now;
      emit (Recovery x.1 f) ;;
      r ← on_clients (do_operator x.2);
      recovery_turns n' operator_size (if (r : bool) then false else all_failed)
  end.

Definition recovery (o : settings) (normal_operator_size : Z) : proc world bool :=
  on_flags (set_is_fuzzing false) ;;
  sleep_for 1000 ;;
  if decide (normal_operator_size > 0)
  then recovery_turns (Z.to_nat o.(run_normal_operator_count)) normal_operator_size true
  else mret true.

(** ** [main] *)

(** From the start of the nodes to the label [STOP]; the result is [check_failed]. *)
Definition run_test (o : settings) : proc world bool :=
  on_cluster (modify (λ c, Cluster (u32 o.(opt_node_count))
    (o.(with_ebpf) || c.(start_with_ebpf)) (o.(with_rr) || c.(start_with_rr))
    (o.(use_checkpoint) || c.(start_with_criu)) c.(node_processes) c.(host) c.(launches) c.(random) c.(disk))) ;;
  started ← on_cluster start_all;
  if negb started then emit CheckFailed ;; mret true else
  sleep_byte o ;;
  run_init_operator ;;
  on_flags (set_is_fuzzing true) ;;
  normal_operator_size ← gets (λ w, zlen w.(w_normal));
  run_some_normal_operators o o.(run_normal_operator_count) ;;
  when (bool_decide (zlen critical > 0))
    (for_each (seqZ 0 o.(run_critic_operator_count)) (λ _, critical_turn o)) ;;
  ok ← on_cluster Nodes.check;
  if negb ok then emit CheckFailed ;; mret true else
  failed ← (if o.(check_after_fuzz) then recovery o normal_operator_size else mret false);
  when failed (emit CheckFailed) ;;
  on_flags (set_is_fuzzing false) ;;
  run_shell "sh check_before_stop.sh" ;;
  mret failed.

(** [file >> test_case_count] *)
Definition read_count (f : fs) : Z :=
  match f !! "test_case_count" with
  | None => 0
  | Some content =>
      match scan_int (string_of_bytes content) with
      | None => 0
      | Some v => if decide (Z.abs v < 2 ^ 32) then u32 v else 2 ^ 32 - 1
      end
  end.

(** What comes before the nodes are started, and what follows the label [STOP]. *)
Definition prologue (o : settings) : proc world unit :=
  run_shell ("sh env_init.sh " +:+ int_to_string o.(opt_node_count)) ;;
  on_cluster (zoom (λ c, (c.(disk), c.(random))) (λ p c, set_random p.2 (set_disk p.1 c))
    (split_files o.(random_file) (u32 o.(opt_node_count)))) ;;
  on_flags (init_is_fuzzing shmget) ;;
  when (negb o.(fuzz_before_init)) (on_flags (set_is_fuzzing false) ;; mret tt).

Definition epilogue (test_case_count : Z) (check_failed : bool) : proc world unit :=
  on_cluster stop_all ;;
  on_flags remove_is_fuzzing ;;
  run_shell "sh stop.sh" ;;
  modify (λ w, set_kv (dst_clear_kv_all w.(w_kv)) w) ;;
  when check_failed (emit CheckFailed) ;;
  run_shell ("sh ./backup_test_case.sh " +:+ to_string test_case_count) ;;
  let test_case_count := u32 (test_case_count + 1) in
  on_cluster (modify (λ c, set_disk (<["test_case_count" := bytes_of_string (to_string test_case_count)]> c.(disk)) c)) ;;
  if check_failed then exit_ ABORTED else mret tt.

(** Without a node manager the code jumps to [STOP] and calls [stop_all] through the
    null pointer. *)
Definition test_main (argv : list string) : proc world unit :=
  let opts := parse_options argv in
  if decide (is_Some (opts !! "help")) then return_ 0 else
  let o := settings_of opts in
  when o.(no_reduction) (emit (Setenv "NO_REDUCTION" "1")) ;;
  test_case_count ← gets (λ w, read_count w.(w_cluster).(disk));
  prologue o ;;
  nm ← gets registered;
  if (nm : bool) then
    check_failed ← run_test o;
    epilogue test_case_count check_failed
  else ub.
End driver.

(** ** The laws of the interface *)

Definition file_ok (content : list Z) : Prop := Forall is_u8 content ∧ zlen content < 2 ^ 32.
Definition disk_ok (f : fs) : Prop := map_Forall (λ _, file_ok) f.

Class TestHostOK (X : Type) `{!TestHost X} := {
  shell_disk c f x : disk_ok f → disk_ok (shell c (f, x)).1;
  start_reader i r x : reader_ok r → reader_ok (start_operator i (r, x)).2.1;
  join_reader h r x : reader_ok r → reader_ok (join_operator h (r, x)).1;
  do_reader i r x : reader_ok r → reader_ok (do_operator i (r, x)).2.1;
}.

(** ** The schedule *)

(** Pauses are bounded; normal and critical operators run while the servers are
    fuzzed, the recovery is checked while they are not. *)
Definition entry_ok (o : settings) (e : entry) : Prop :=
  match e with
  | Slept ms => 0 <= ms <= Z.max 1000 o.(sleep_ms)
  | Normal _ f | Critical _ f => f = 1
  | Recovery _ f => f = 0
  | _ => True
  end.

Section schedule.
Context {os child : Type} `{!Host os child} `{!Generator} `{!HostOK os child}.
Context {X : Type} `{!TestHost X} `{!TestHostOK X}.
Context (o : settings).
Abbreviation world := (world (os := os) (child := child) (X := X)).

(** [k] more critical operators, the flag [v], the normal operators [l]. *)
Record steady (k v : Z) (l : list (string * nat)) (w : world) : Prop := Steady {
  sd_cluster : cluster_ok w.(w_cluster);
  sd_started : all_started w.(w_cluster);
  sd_room : room k w.(w_cluster);
  sd_flag : flag_ok w.(w_flags).(share_mem_id) w.(w_flags);
  sd_value : flag_now w = v;
  sd_normal : w.(w_normal) = l;
  sd_trace : Forall (entry_ok o) w.(trace);
  sd_failed : CheckFailed ∉ w.(trace);
}.

(** The exception of a process that could not be started has ended the driver, before
    any check was made. *)
Definition threw (c : Z) (w : world) : Prop := c = ABORTED ∧ CheckFailed ∉ w.(trace).

(** A step of the schedule; only a failed start of a process ends the driver. *)
Definition safe {A} (m : proc world A) (P : A → Prop) (k v : Z) l (k' v' : Z) l' : Prop :=
  ∀ w, steady k v l w →
    wp m (λ a w', P a ∧ steady k' v' l' w') (λ _ _, False) threw w.

Lemma safe_bind {A B} (m : proc world A) (f : A → proc world B) P Q k v l k1 v1 l1 k2 v2 l2 :
  safe m P k v l k1 v1 l1 → (∀ a, P a → safe (f a) Q k1 v1 l1 k2 v2 l2) →
  safe (m ≫= f) Q k v l k2 v2 l2.
Proof.
  intros Hm Hf w Hw. apply wp_bind. eapply wp_conseq; [by apply Hm|]. intros a w' [Ha Hw']. by apply Hf.
Qed.

Lemma safe_ret {A} (a : A) (P : A → Prop) k v l : P a → safe (mret a) P k v l k v l.
Proof. intros Ha w Hw. by wp_step. Qed.

Lemma safe_weaken {A} (m : proc world A) (P Q : A → Prop) k v l k' v' l' :
  safe m P k v l k' v' l' → (∀ a, P a → Q a) → safe m Q k v l k' v' l'.
Proof. intros Hm HPQ w Hw. eapply wp_conseq; [by apply Hm|]. intros a w' [? ?]. auto. Qed.

Lemma safe_emit e k v l : entry_ok o e → e ≠ CheckFailed → safe (emit e) (λ _, True) k v l k v l.
Proof.
  intros He Hne w [? ? ? ? ? ? Ht Hf]. unfold emit. wp_step. split; [done|]. split; try done; cbn.
  - apply Forall_app. split; [done|by constructor].
  - intros [?|Hin%list_elem_of_singleton]%elem_of_app; [done|congruence].
Qed.

Lemma steady_random r k v l w : reader_ok r → steady k v l w →
  steady k v l (set_cluster (set_random r w.(w_cluster)) w).
Proof.
  intros Hr [Hc Hs Hroom Hf Hv Hn Ht Hcf]. split; try done. by apply set_random_ok.
Qed.

Lemma safe_byte k v l : safe next_byte is_u8 k v l k v l.
Proof.
  intros w Hw. unfold next_byte, on_cluster. apply wp_zoom. apply random_byte_spec; [apply Hw|].
  intros b r Hb Hr. split; [done|]. by apply steady_random.
Qed.

Lemma safe_clients {A} (f : reader * X → A * (reader * X)) k v l :
  (∀ r x, reader_ok r → reader_ok (f (r, x)).2.1) → safe (on_clients f) (λ _, True) k v l k v l.
Proof.
  intros Hf w Hw. unfold wp, on_clients. specialize (Hf w.(w_cluster).(random) w.(w_ext)).
  destruct (f _) as [a [r x]]. cbn in Hf. split; [done|].
  destruct (steady_random r k v l w) as [? ? ? ? ? ? ? ?]; [apply Hf; apply Hw|done|]. by split.
Qed.

Lemma safe_sleep ms k v l : 0 <= ms <= Z.max 1000 o.(sleep_ms) →
  safe (sleep_for ms) (λ _, True) k v l k v l.
Proof.
  intros Hms. unfold sleep_for. eapply (safe_bind _ _ (λ _, True)); [|intros ? _; by apply safe_emit].
  intros w [? ? ? ? ? ? ? ?]. wp_step. split; [exact I|]. by split.
Qed.

(** The settings with which the pauses are defined. *)
Definition pauses_ok : Prop := 0 <= o.(sleep_ms) < 2 ^ 32 ∧ 0 < o.(sleep_granularity) <= o.(sleep_ms).

Lemma safe_between k v l : pauses_ok → safe (sleep_between o) (λ _, True) k v l k v l.
Proof.
  intros [Hms Hg]. unfold sleep_between. destruct (fuzz_time o); [|apply safe_sleep; lia].
  eapply safe_bind; [apply safe_byte|]. intros b Hb. cbv beta.
  assert (0 < o.(sleep_ms) / o.(sleep_granularity)) as Hq by (apply Z.div_str_pos; lia).
  rewrite decide_False by lia. apply safe_sleep.
  pose proof (Z.mod_pos_bound b (o.(sleep_ms) / o.(sleep_granularity)) Hq).
  pose proof (Z.mul_div_le o.(sleep_ms) o.(sleep_granularity)). rewrite u32_id; unfold is_u32; nia.
Qed.

Lemma safe_sleep_byte k v l : safe (sleep_byte o) (λ _, True) k v l k v l.
Proof.
  unfold sleep_byte. destruct (fuzz_time o); cbn [when]; [|by apply safe_ret].
  eapply safe_bind; [apply safe_byte|]. intros b Hb. apply safe_sleep. unfold is_u8 in Hb. lia.
Qed.

(** A step that does not change what is steady, in a sequence. *)
Lemma safe_then {A B} (m : proc world A) (m' : proc world B) P Q k v l k' v' l' :
  safe m P k v l k v l → safe m' Q k v l k' v' l' → safe (m ;; m') Q k v l k' v' l'.
Proof. intros Hm Hm'. eapply safe_bind; [exact Hm|]. by intros. Qed.

Lemma safe_gets {A} (f : world → A) (P : A → Prop) k v l :
  (∀ w, steady k v l w → P (f w)) → safe (gets f) P k v l k v l.
Proof. intros Hf w Hw. wp_step. split; [by apply Hf|done]. Qed.

Lemma safe_item i k v l : 0 <= i < zlen l →
  safe (from_option (λ w : world, w.(w_normal) !! Z.to_nat i)) (λ x, x ∈ l) k v l k v l.
Proof.
  intros Hi w Hw. destruct (lookup_lt_is_Some_2 l (Z.to_nat i)) as [x Hx]; [unfold zlen in Hi; lia|].
  eapply wp_from_option; [by rewrite (sd_normal _ _ _ w Hw)|]. split; [|done]. by eapply list_elem_of_lookup_2.
Qed.

Lemma safe_start_normal i k l : 0 <= i < zlen l → safe (start_normal i) (λ _, True) k 1 l k 1 l.
Proof.
  intros Hi. unfold start_normal. eapply safe_bind; [by apply safe_item|]. intros x _. cbv beta.
  eapply (safe_bind _ _ (λ f, f = 1)); [apply safe_gets; intros w Hw; apply Hw|]. intros f ->.
  eapply safe_then; [by apply safe_emit|]. apply safe_clients. intros r y. apply start_reader.
Qed.

Lemma safe_join h k v l : safe (join h) (λ _, True) k v l k v l.
Proof. apply safe_clients. intros r x Hr. cbn. by apply join_reader. Qed.

Lemma safe_normal_turn k l : pauses_ok → 0 < zlen l →
  safe (normal_turn o (zlen l)) (λ _, True) k 1 l k 1 l.
Proof.
  intros Hp Hl. unfold normal_turn. eapply safe_then; [by apply safe_between|].
  eapply (safe_then _ _ (λ _, True)).
  { destruct (fuzz_normal_events o); cbn [when]; [|by apply safe_ret].
    eapply safe_then; [apply safe_byte|by apply safe_ret]. }
  eapply safe_bind; [apply safe_start_normal; lia|]. intros t1 _. cbv beta.
  eapply safe_bind; [apply safe_byte|]. intros b Hb. cbv beta.
  eapply (safe_then _ _ (λ _, True)); [|apply safe_join].
  case_decide; [|by apply safe_ret]. eapply safe_bind; [apply safe_byte|]. intros b2 Hb2. cbv beta.
  eapply safe_bind; [apply safe_start_normal, Z.mod_pos_bound, Hl|]. intros t2 _. apply safe_join.
Qed.

Lemma safe_for_each {A} (xs : list A) (body : proc world unit) k v l :
  safe body (λ _, True) k v l k v l → safe (for_each xs (λ _, body)) (λ _, True) k v l k v l.
Proof.
  intros Hb. induction xs as [|x xs IH]; [by apply safe_ret|]. cbn [for_each]. by eapply safe_then.
Qed.

Lemma safe_run_some n k l : pauses_ok →
  safe (run_some_normal_operators o n) (λ _, True) k 1 l k 1 l.
Proof.
  intros Hp. unfold run_some_normal_operators.
  eapply (safe_bind _ _ (λ z, z = zlen l)).
  { apply safe_gets. intros w Hw. by rewrite (sd_normal _ _ _ w Hw). }
  intros z ->. eapply (safe_then _ _ (λ _, True)); [|apply safe_sleep_byte].
  destruct (bool_decide_reflect (zlen l > 0)) as [Hz|Hz]; cbn [when]; [|by apply safe_ret].
  apply safe_for_each, safe_normal_turn; [done|lia].
Qed.

Context (critical : list (string * proc (cluster (os := os) (child := child)) bool)).
Hypothesis critical_sound : Forall (λ x, sound x.2) critical.

Lemma safe_critical_turn k l : pauses_ok → 0 < zlen critical → 0 <= k →
  safe (critical_turn critical o) (λ _, True) (k + 1) 1 l k 1 l.
Proof.
  intros Hp Hc Hk. unfold critical_turn. eapply safe_then; [by apply safe_between|].
  eapply safe_bind; [apply safe_byte|]. intros b Hb. cbv beta.
  eapply (safe_bind _ _ (λ x, sound x.2)).
  { intros w Hw. destruct (pick_spec critical b) as [x Hx]; [by intros ->|].
    eapply wp_from_option; [done|]. split; [|done]. by eapply (proj1 (Forall_lookup _ _) critical_sound). }
  intros [name m] Hm. cbn [fst snd] in *.
  eapply (safe_bind _ _ (λ f, f = 1)); [apply safe_gets; intros w Hw; apply Hw|]. intros f ->.
  eapply safe_then; [by apply safe_emit|].
  eapply (safe_bind _ _ (λ _, True)); [|intros ? _; by apply safe_run_some].
  intros w [Hok Hs Hroom ? ? ? ? ?]. apply wp_zoom.
  eapply wp_mono; [by apply (Hm w.(w_cluster) k)| |done|by intros c w' ->].
  intros b' c (Hok'&Hs'&Hr'). split; [done|]. by split.
Qed.

Lemma safe_criticals {A} (xs : list A) l : pauses_ok → 0 < zlen critical →
  safe (for_each xs (λ _, critical_turn critical o)) (λ _, True) (zlen xs) 1 l 0 1 l.
Proof.
  intros Hp Hc. induction xs as [|x xs IH]; [by apply safe_ret|]. cbn [for_each].
  replace (zlen (x :: xs)) with (zlen xs + 1) by (unfold zlen; cbn [length]; lia).
  eapply safe_bind; [apply safe_critical_turn; [done|done|apply zlen_nonneg]|]. by intros.
Qed.

Lemma safe_recovery_turns n k l b : 0 < zlen l →
  safe (recovery_turns n (zlen l) b) (λ _, True) k 0 l k 0 l.
Proof.
  intros Hl. revert b. induction n as [|n IH]; intros b; [by apply safe_ret|]. cbn [recovery_turns].
  eapply safe_bind; [apply safe_byte|]. intros c Hc. cbv beta.
  eapply safe_bind; [by apply safe_item, Z.mod_pos_bound|]. intros x _. cbv beta.
  eapply (safe_bind _ _ (λ f, f = 0)); [apply safe_gets; intros w Hw; apply Hw|]. intros f ->.
  eapply safe_then; [by apply safe_emit|].
  eapply safe_bind; [apply safe_clients; intros r y; apply do_reader|]. intros r _. apply IH.
Qed.

Lemma safe_set_flag b k v l :
  safe (on_flags (set_is_fuzzing b)) (λ _, True) k v l k (if (b : bool) then 1 else 0) l.
Proof.
  intros w [? ? ? Hf Hv ? ? ?]. apply wp_zoom. destruct (set_is_fuzzing_run _ b _ Hf) as (s&E&Hok&Hid&Hval&_).
  unfold wp. rewrite E. split; [done|]. split; try done; unfold flag_now; cbn; by rewrite Hid.
Qed.

Lemma safe_recovery k v l : pauses_ok →
  safe (recovery o (zlen l)) (λ _, True) k v l k 0 l.
Proof.
  intros Hp. unfold recovery. eapply safe_bind; [apply (safe_set_flag false)|]. intros _ _. cbn iota.
  eapply safe_then; [apply safe_sleep; lia|]. case_decide; [|by apply safe_ret].
  apply safe_recovery_turns. lia.
Qed.

(** The normal operators that are left after the init operator. *)
Definition after_init (l : list (string * nat)) : list (string * nat) :=
  match erase_first "Init" l with Some (_, l') => l' | None => l end.

Lemma safe_init k v l : safe run_init_operator (λ _, True) k v l k v (after_init l).
Proof.
  unfold run_init_operator. eapply (safe_bind _ _ (λ x, x = l)); [apply safe_gets; intros w Hw; apply Hw|].
  intros x ->. unfold after_init. destruct (erase_first "Init" l) as [[i l']|]; [|by apply safe_ret].
  eapply safe_then; [apply safe_clients; intros r y; apply do_reader|].
  intros w [? ? ? ? ? ? ? ?]. wp_step. split; [done|]. by split.
Qed.

(** ** [run_test] *)

(** What holds at the label [STOP]. *)
Record stopping (failed : bool) (w : world) : Prop := Stopping {
  sp_cluster : cluster_ok w.(w_cluster);
  sp_started : all_started w.(w_cluster);
  sp_trace : Forall (entry_ok o) w.(trace);
  sp_failed : failed = false → CheckFailed ∉ w.(trace);
}.

Lemma fail_stopping k v l w R E : steady k v l w →
  wp (emit CheckFailed ;; mret true) stopping R E w.
Proof.
  intros [? ? ? ? ? ? Ht ?]. unfold emit. wp_steps. split; cbn; try done. apply Forall_app.
  split; [done|by repeat constructor].
Qed.

Lemma safe_shell c k v l : safe (run_shell c) (λ _, True) k v l k v l.
Proof.
  intros w Hw. unfold wp, run_shell. destruct (shell _ _) as [f x].
  assert (steady k v l (set_ext x (set_cluster (set_disk f (w_cluster w)) w))) as Hw'.
  { destruct Hw as [[? ? ? ? ? ?] ? ? ? ? ? ? ?]. split; try done. }
  by apply (safe_emit (Shell c) k v l I ltac:(done) _ Hw').
Qed.

Lemma safe_check k v l : safe (on_cluster Nodes.check) (λ _, True) k v l k v l.
Proof.
  intros w [Hok Hs [Hr1 Hr2] ? ? ? ? ?]. apply wp_zoom. destruct (check_run _ Hok Hs) as (b&s&E&Hks&_).
  unfold wp. rewrite E. split; [done|]. split; try done. by apply set_host_ok.
Qed.

(** The world before the nodes are started. *)
Record ready (w : world) : Prop := Ready {
  rd_nodes : w.(w_cluster).(node_processes) = [];
  rd_launches : w.(w_cluster).(launches) = [];
  rd_random : reader_ok w.(w_cluster).(random);
  rd_flag : flag_ok w.(w_flags).(share_mem_id) w.(w_flags);
  rd_trace : Forall (entry_ok o) w.(trace);
  rd_failed : CheckFailed ∉ w.(trace);
}.

(** The servers and the restarts fit into 32 bits. *)
Definition counts_ok : Prop :=
  u32 o.(opt_node_count) + Z.max 0 o.(run_critic_operator_count) < 2 ^ 32.

Lemma run_start w : counts_ok → ready w →
  wp (on_cluster (modify (λ c, Cluster (u32 o.(opt_node_count))
      (o.(with_ebpf) || c.(start_with_ebpf)) (o.(with_rr) || c.(start_with_rr))
      (o.(use_checkpoint) || c.(start_with_criu)) c.(node_processes) c.(host) c.(launches) c.(random) c.(disk))) ;;
    on_cluster start_all)
    (λ _ w', steady (Z.max 0 o.(run_critic_operator_count)) (flag_now w) w.(w_normal) w')
    (λ _ _, False) threw w.
Proof.
  intros Hc [Hn Hl Hr Hf Ht Hcf]. apply wp_bind, wp_zoom, wp_modify, wp_zoom.
  eapply wp_mono; [apply start_all_ok; split; cbn; [done|done|apply u32_range|done]| |done|by intros c w' ->].
  intros b c (Hok&Hs&Hcount&Hlaunch). cbn in Hcount, Hlaunch. split; try done. unfold room, counts_ok in *. cbn. lia.
Qed.

Lemma wp_assoc {A B C} (m : proc world A) (n : proc world B) (f : B → proc world C) Q R E w :
  wp (m ;; n) (λ b, wp (f b) Q R E) R E w → wp (m ;; (b ← n; f b)) Q R E w.
Proof.
  unfold wp, mbind, proc_bind. destruct (m w) as [[] w1]; try done. by destruct (n w1) as [[] w2].
Qed.

(** The end of a test that was not given up; [failed] is the result of the recovery. *)
Lemma run_tail failed k v l w : steady k v l w →
  wp (when failed (emit CheckFailed) ;; on_flags (set_is_fuzzing false) ;;
      run_shell "sh check_before_stop.sh" ;; mret failed) stopping (λ _ _, False) threw w.
Proof.
  intros Hw. destruct failed; cbn [when].
  - apply wp_bind. unfold emit at 1. wp_step. destruct Hw as [Hok Hs _ Hf _ _ Ht _].
    apply wp_bind, wp_zoom. cbn [w_flags]. destruct (set_is_fuzzing_run _ false _ Hf) as (s&E&_).
    unfold wp at 1. rewrite E. apply wp_bind. unfold wp at 1, run_shell. destruct (shell _ _) as [f x].
    unfold emit, modify. wp_step. destruct Hok as [? ? ? ? ? ?]. split; cbn; try done.
    rewrite !Forall_app. split; [split; [done|]|]; by repeat constructor.
  - apply wp_bind. wp_step. apply wp_bind.
    eapply wp_conseq; [exact (safe_set_flag false k v l w Hw)|]. intros _ w1 [_ Hw1].
    apply wp_bind. eapply wp_conseq; [exact (safe_shell _ _ _ _ w1 Hw1)|]. intros _ w2 [_ [? ? ? ? ? ? ? ?]].
    wp_step. by split.
Qed.

Lemma run_test_ok w : pauses_ok → counts_ok → ready w →
  wp (run_test critical o) stopping (λ _ _, False) threw w.
Proof.
  intros Hp Hc Hw. unfold run_test.
  apply wp_assoc. eapply wp_conseq; [by apply run_start|]. intros started w1 Hw1.
  destruct started; cbn [negb]; [|by eapply fail_stopping].
  set (l := after_init w.(w_normal)). set (k := Z.max 0 o.(run_critic_operator_count)) in *.
  apply wp_bind. eapply wp_conseq; [by apply safe_sleep_byte|]. intros _ w2 [_ Hw2].
  apply wp_bind. eapply wp_conseq; [by apply safe_init|]. intros _ w3 [_ Hw3]. fold l in Hw3.
  apply wp_bind. eapply wp_conseq; [exact (safe_set_flag true _ _ _ w3 Hw3)|]. intros _ w4 [_ Hw4]. cbn iota in Hw4.
  wp_step. wp_step. rewrite (sd_normal _ _ _ _ Hw4).
  apply wp_bind. eapply wp_conseq; [by apply safe_run_some|]. intros _ w5 [_ Hw5].
  apply wp_bind.
  apply (wp_conseq _ (λ _ w', ∃ k', steady k' 1 l w')).
  { destruct (bool_decide_reflect (zlen critical > 0)) as [Hz|Hz]; cbn [when]; [|wp_step; by exists k].
    eapply wp_conseq; [apply safe_criticals; [done|lia|]|intros _ w' [_ Hw']; by exists 0].
    replace (zlen (seqZ 0 o.(run_critic_operator_count))) with k; [done|].
    unfold zlen, k. rewrite length_seqZ. lia. }
  intros _ w6 [k' Hw6]. apply wp_bind. eapply wp_conseq; [by apply safe_check|]. intros ok w7 [_ Hw7].
  destruct ok; cbn [negb]; [|by eapply fail_stopping].
  apply wp_bind.
  apply (wp_conseq _ (λ _ w', ∃ v, steady k' v l w')).
  { destruct (check_after_fuzz o); [|wp_step; by exists 1].
    eapply wp_conseq; [exact (safe_recovery k' 1 l Hp w7 Hw7)|]. intros b w' [_ Hw']. by exists 0. }
  intros failed w8 [v Hw8]. by eapply run_tail.
Qed.
End schedule.

(** ** [main] *)

Section main.
Context {os child : Type} `{!Host os child} `{!Generator} `{!HostOK os child}.
Context {X : Type} `{!TestHost X} `{!TestHostOK X}.
Context (shmget : gmap Z Z → Z).
Context (critical : list (string * proc (cluster (os := os) (child := child)) bool)).
Abbreviation world := (world (os := os) (child := child) (X := X)).

(** The driver as it is started. *)
Record fresh_driver (w : world) : Prop := FreshDriver {
  fd_registered : w.(registered) = true;
  fd_nodes : w.(w_cluster).(node_processes) = [];
  fd_launches : w.(w_cluster).(launches) = [];
  fd_random : reader_ok w.(w_cluster).(random);
  fd_disk : disk_ok w.(w_cluster).(disk);
  fd_flags : w.(w_flags).(init_done) = false;
  fd_shm : 0 <= shmget w.(w_flags).(segments) < 2 ^ 31;
  fd_trace : w.(trace) = [];
}.

(** The end of a run: the servers are stopped, the stores are cleared, the number of
    the test case is written back increased. *)
Record finished (o : settings) (count : Z) (w : world) : Prop := Finished {
  fi_stopped : ∀ i ni, w.(w_cluster).(node_processes) !! i = Some ni → ni.(should_alive) = false;
  fi_kv : w.(w_kv) = ∅;
  fi_count : w.(w_cluster).(disk) !! "test_case_count" = Some (bytes_of_string (to_string (u32 (count + 1))));
  fi_trace : Forall (entry_ok o) w.(trace);
}.

Lemma run_shell_spec c (w : world) (Q : unit → world → Prop) R E :
  (∀ f x, (disk_ok w.(w_cluster).(disk) → disk_ok f) →
     Q tt (World w.(registered) (set_disk f w.(w_cluster)) w.(w_flags) w.(w_kv) w.(w_normal) x
       (w.(trace) ++ [Shell c]))) →
  wp (run_shell c) Q R E w.
Proof.
  intros HQ. unfold wp, run_shell. pose proof (shell_disk c w.(w_cluster).(disk) w.(w_ext)) as Hd.
  destruct (shell _ _) as [f x]. by apply HQ.
Qed.

Lemma split_spec name n f r (Q : unit → fs * reader → Prop) R (E : Z → fs * reader → Prop) :
  disk_ok f → reader_ok r → is_u32 n → (∀ s, E (-1) s) →
  (∀ f' r', reader_ok r' → Q tt (f', r')) → wp (split_files name n) Q R E (f, r).
Proof.
  intros Hd Hr Hn HE HQ. destruct (f !! name) as [content|] eqn:Ef.
  - destruct (Hd _ _ Ef) as [Hb Hl].
    destruct (split_files_run name content n f r Ef Hn Hl Hb (ro_index r Hr)) as (f'&r'&E1&_&_&Hr'&_).
    unfold wp. rewrite E1. by apply HQ.
  - unfold wp, split_files, mbind, proc_bind, gets. cbn [fst]. rewrite Ef. apply HE.
Qed.

(** The trace so far: nothing has failed. *)
Definition quiet (o : settings) (t : list entry) : Prop := Forall (entry_ok o) t ∧ CheckFailed ∉ t.

Lemma quiet_app o t e : quiet o t → entry_ok o e → e ≠ CheckFailed → quiet o (t ++ [e]).
Proof.
  intros [Ht Hc] He Hne. split; [apply Forall_app; split; [done|by constructor]|].
  intros [?|Hin%list_elem_of_singleton]%elem_of_app; [done|congruence].
Qed.

Lemma prologue_ok o (w : world) : w.(registered) = true →
  w.(w_cluster).(node_processes) = [] → w.(w_cluster).(launches) = [] → reader_ok w.(w_cluster).(random) →
  disk_ok w.(w_cluster).(disk) → w.(w_flags).(init_done) = false →
  0 <= shmget w.(w_flags).(segments) < 2 ^ 31 → quiet o w.(trace) →
  wp (prologue shmget o) (λ _ w', ready o w' ∧ w'.(registered) = true) (λ _ _, False) (λ c _, c = -1) w.
Proof.
  intros Hreg Hn Hl Hr Hd Hi Hs Hq. unfold prologue. apply wp_bind, run_shell_spec. intros f x Hf.
  apply wp_bind, wp_zoom, wp_zoom. apply split_spec; [by apply Hf|done|apply u32_range|done|].
  intros f' r' Hr'. cbn [set_cluster w_cluster]. apply wp_bind, wp_zoom. cbn [w_flags set_cluster].
  destruct (init_is_fuzzing_run shmget w.(w_flags) Hi Hs) as (s&E&Hok&Hid&_). unfold wp at 1. rewrite E.
  assert (quiet o (w.(trace) ++ [Shell ("sh env_init.sh " +:+ int_to_string o.(opt_node_count))])) as [Hq1 Hq2]
    by by apply quiet_app.
  apply wp_when; intros _.
  - apply wp_bind, wp_zoom. cbn [w_flags set_flags].
    destruct (set_is_fuzzing_run _ false s Hok) as (s'&E'&Hok'&Hid'&_). unfold wp at 1. rewrite E'. wp_step.
    split; [|done]. split; try done. cbn. by rewrite Hid', Hid.
  - split; [|done]. split; try done. cbn. by rewrite Hid.
Qed.

Lemma epilogue_ok o count failed (w : world) : stopping o failed w →
  wp (epilogue count failed)
    (λ _ w', failed = false ∧ finished o count w' ∧ CheckFailed ∉ w'.(trace)) (λ _ _, False)
    (λ c w', c = ABORTED ∧ failed = true ∧ finished o count w' ∧ CheckFailed ∈ w'.(trace)) w.
Proof.
  intros [Hok Hs Ht Hf]. unfold epilogue. apply wp_bind, wp_zoom.
  eapply wp_mono; [by apply stop_all_ok| |done|done]. intros _ c (Hok1&Hs1&Ha&Hr&Hd).
  apply wp_bind, wp_zoom. cbn [w_flags set_cluster].
  assert (∀ s : flags, ∃ b s', remove_is_fuzzing s = (Norm b, s')) as Hrm.
  { intros s. unfold remove_is_fuzzing, mbind, proc_bind, gets, modify. case_decide; by do 2 eexists. }
  destruct (Hrm w.(w_flags)) as (b&s&E). unfold wp at 1. rewrite E.
  apply wp_bind, run_shell_spec. intros f x _. cbn [w_cluster set_flags set_cluster w_flags w_kv w_normal trace registered].
  wp_step. wp_step. unfold set_kv. cbn [w_cluster w_flags w_kv w_normal trace registered w_ext].
  assert (Forall (entry_ok o) (w.(trace) ++ [Shell "sh stop.sh"])) as Ht1
    by (apply Forall_app; split; [done|by repeat constructor]).
  apply wp_bind, wp_when; intros Hfl; subst failed.
  - unfold emit. wp_step. cbn [w_cluster w_flags w_kv w_normal trace registered w_ext].
    apply wp_bind, run_shell_spec. intros f2 x2 _. cbv zeta. apply wp_bind, wp_zoom, wp_modify, wp_exit.
    split; [done|]. split; [done|]. split; [split; cbn; [done|done|by rewrite lookup_insert_eq|]|].
    + repeat (apply Forall_app; split); try done; by repeat constructor.
    + cbn. apply elem_of_app. left. apply elem_of_app. right. by apply list_elem_of_singleton.
  - apply wp_bind, run_shell_spec. intros f2 x2 _. cbv zeta. apply wp_bind, wp_zoom, wp_modify, wp_mret.
    split; [done|]. destruct (quiet_app o _ (Shell "sh stop.sh") (conj Ht (Hf eq_refl)) I ltac:(done)) as [Hq1 Hq2].
    destruct (quiet_app o _ (Shell ("sh ./backup_test_case.sh " +:+ to_string count)) (conj Hq1 Hq2) I ltac:(done)) as [? ?].
    split; [|done]. split; cbn; [done|done|by rewrite lookup_insert_eq|done].
Qed.

(** How a run ends that does not return: there is no input, a process could not be
    started before any check was made, or a check has failed and everything was stopped
    like in a run that returns. *)
Definition ended (o : settings) (count c : Z) (w : world) : Prop :=
  c = -1 ∨ threw c w ∨ c = ABORTED ∧ CheckFailed ∈ w.(trace) ∧ finished o count w.

Lemma test_main_ok argv (w : world) :
  let opts := parse_options argv in
  let o := settings_of opts in
  opts !! "help" = None → fresh_driver w → pauses_ok o → counts_ok o →
  Forall (λ x, sound x.2) critical →
  wp (test_main shmget critical argv)
    (λ _ w', finished o (read_count w.(w_cluster).(disk)) w' ∧ CheckFailed ∉ w'.(trace))
    (λ _ _, False) (ended o (read_count w.(w_cluster).(disk))) w.
Proof.
  intros opts o Hh [Hreg Hn Hl Hr Hd Hi Hs Ht] Hp Hc Hcrit. unfold test_main. fold opts. cbv zeta. fold o.
  rewrite decide_False by (rewrite Hh; intros [? ?]; done).
  set (count := read_count w.(w_cluster).(disk)).
  assert (quiet o []) as Hq by (split; [constructor|intros []%not_elem_of_nil]).
  apply wp_bind.
  apply (wp_conseq _ (λ _ w1, quiet o w1.(trace) ∧ registered w1 = true ∧ w_cluster w1 = w_cluster w ∧ w_flags w1 = w_flags w)).
  { apply wp_when; intros _; [unfold emit; wp_step|]; cbn; rewrite ?Ht; [|done].
    split; [|done]. by apply (quiet_app o []). }
  intros _ w1 (Hq1&Hreg1&Ec&Ef). wp_step. wp_step. rewrite Ec. fold count. apply wp_bind.
  eapply wp_mono; [apply prologue_ok; rewrite ?Ec, ?Ef; done| |done|intros c ? ->; by left].
  intros _ w2 [Hready Hreg2]. wp_step. wp_step. rewrite Hreg2. apply wp_bind.
  eapply wp_mono; [by apply run_test_ok| |done|intros c w3 Hc3; right; by left].
  intros failed w3 Hst. eapply wp_mono; [by apply (epilogue_ok o)| |done|].
  - intros _ w4 (_&Hfin&Hcf). done.
  - intros c w4 (->&_&Hfin&Hcf). right. by right.
Qed.


(** Without a registered node manager the run ends in a call through null. *)
Lemma test_main_null argv (w w1 : world) :
  let o := settings_of (parse_options argv) in
  parse_options argv !! "help" = None → o.(no_reduction) = false →
  prologue shmget o w = (Norm tt, w1) → registered w1 = false →
  (test_main shmget critical argv w).1 = UB.
Proof.
  intros o Hh Hno E Hreg. unfold test_main. cbv zeta. fold o.
  rewrite decide_False by (rewrite Hh; intros [? ?]; done). rewrite Hno. cbn [when].
  unfold mbind, proc_bind, mret, proc_ret, gets. by rewrite E, Hreg.
Qed.

(** A granularity above the pause divides by zero. *)
Lemma sleep_between_zero o (w : world) : o.(fuzz_time) = true → reader_ok w.(w_cluster).(random) →
  0 <= o.(sleep_ms) < o.(sleep_granularity) → (sleep_between o w).1 = UB.
Proof.
  intros Hf Hr Hs. unfold sleep_between. rewrite Hf. unfold mbind, proc_bind, next_byte, on_cluster, random_byte, zoom.
  destruct (read_byte_run _ Hr) as (r&E&_). unfold dst_get_random_uint8_t. rewrite E.
  rewrite decide_True; [done|]. right. apply Z.div_small. lia.
Qed.
End main.

(** ** A run *)

#[global] Instance demo_test_host : TestHost unit := {
  shell c s := s;
  sleep ms x := x;
  start_operator i s := (i, s);
  join_operator h s := s;
  do_operator i s := (true, s);
}.
#[global] Instance demo_test_host_ok : TestHostOK unit.
Proof. by split. Qed.

Definition demo_critical : list (string * proc (cluster (os := nat * gset nat) (child := nat)) bool) :=
  [("RandomKill", RandomKill); ("RandomStart", RandomStart)].
Definition demo_world : world (os := nat * gset nat) (child := nat) (X := unit) :=
  World true
    (Cluster 3 false false false [] (0%nat, ∅) [] fresh_reader
       {[ "init_random.txt" := [1; 2; 3; 4; 5; 6; 7; 8]; "test_case_count" := [52; 49] ]})
    (Flags false Null 0 None ∅) ∅ [("Init", 0%nat); ("Read", 1%nat)] tt [].
Definition demo_argv : list string := ["--node_count=3"; "--check_after_fuzz=true"].

