(* ===== verification/Strace.v ===== *)
(** * Fault injection into system calls, by strace

    Models [strace/src/dst_fuzz.c]: what the modified strace does when a server enters
    and leaves a system call that reads or writes.  The decisions come from the random
    file of the process; each event is recorded in one slot of the coverage map that
    the fuzzer reads.  The memory of the traced process, its registers, its open files
    and the environment are parameters. *)

From Stdlib Require Import Ascii.
From S2P Require Import Prelude.
From S2P Require Import Decimal.
From S2P Require Import RandomFile.
From S2P Require Import Store.

(** ** Constants *)

Definition MAX_DELAY_MILLSECONDS : Z := 1000.
Definition FUZZ_COVERAGE_MAP_SIZE : Z := 2 ^ 23.

Definition EPERM : Z := 1.
Definition EINTR : Z := 4.
Definition EIO : Z := 5.
Definition EBADF : Z := 9.
Definition EAGAIN : Z := 11.
Definition EWOULDBLOCK : Z := 11.
Definition EFAULT : Z := 14.
Definition EINVAL : Z := 22.
Definition EFBIG : Z := 27.
Definition ENOSPC : Z := 28.
Definition EPIPE : Z := 32.
Definition EDESTADDRREQ : Z := 89.
Definition EDQUOT : Z := 122.

Definition READ_ERROR_CODES : list Z := [0; EAGAIN; EWOULDBLOCK; EBADF; EFAULT; EINTR; EINVAL; EIO].
Definition WRITE_ERROR_CODES : list Z :=
  [EAGAIN; EWOULDBLOCK; EBADF; EDESTADDRREQ; EDQUOT; EFAULT; EFBIG; EINTR; EINVAL; EIO; ENOSPC; EPERM; EPIPE].

(** [enum INJECT_EVENT], and the array of the function with its four elements. *)
Inductive INJECT_EVENT := DELAY | FAIL | LOST | DUP | NETPART.
Definition NUM_INJECT_EVENTS : Z := 5.
Definition inject_events : list INJECT_EVENT := [DELAY; FAIL; LOST; DUP].

(** ** State *)

(** [struct user_regs_struct]: [regs_other] are the registers that are only compared,
    in the order of the comparisons. *)
Record user_regs := Regs {
  rax : Z;
  orig_rax : Z;
  rip : Z;
  regs_other : list Z;
}.

(** The entry of a system call in [inject_vec]. *)
Record inject_data := InjectData {
  d_delay_enter : bool;
  d_retval : bool;
  rval : option Z;
  delay_ns : option Z;
}.

(** The part of [struct tcb] that is used; [t_regs] are the registers of the process. *)
Record tcb := Tcb {
  scno : Z;
  u_arg : list Z;
  t_regs : user_regs;
  qual_inject : bool;
  flag_delay_enter : bool;
  flag_retval : bool;
  opts : option inject_data;
}.

(** The static variables, the shared maps and the flag of the driver; [produced] are the
    messages that were handed to Kafka. *)
Record injector := Injector {
  i_random : reader;
  i_flags : flags;
  stored_regs : option user_regs;
  last_injected : bool;
  net_partition : bool;
  event_index : Z;
  global_index : Z;
  fuzz_coverage_map : gmap Z Z;
  use_kafka : bool;
  produced : list Z;
}.

Record tracer := Tracer { i : injector; t : tcb }.

Definition set_i_random (r : reader) (s : tracer) : tracer :=
  Tracer (Injector r s.(i).(i_flags) s.(i).(stored_regs) s.(i).(last_injected) s.(i).(net_partition)
    s.(i).(event_index) s.(i).(global_index) s.(i).(fuzz_coverage_map) s.(i).(use_kafka)
    s.(i).(produced)) s.(t).
Definition set_i_flags (f : flags) (s : tracer) : tracer :=
  Tracer (Injector s.(i).(i_random) f s.(i).(stored_regs) s.(i).(last_injected) s.(i).(net_partition)
    s.(i).(event_index) s.(i).(global_index) s.(i).(fuzz_coverage_map) s.(i).(use_kafka)
    s.(i).(produced)) s.(t).
Definition set_stored (r : option user_regs) (s : tracer) : tracer :=
  Tracer (Injector s.(i).(i_random) s.(i).(i_flags) r s.(i).(last_injected) s.(i).(net_partition)
    s.(i).(event_index) s.(i).(global_index) s.(i).(fuzz_coverage_map) s.(i).(use_kafka)
    s.(i).(produced)) s.(t).
Definition set_last (b : bool) (s : tracer) : tracer :=
  Tracer (Injector s.(i).(i_random) s.(i).(i_flags) s.(i).(stored_regs) b s.(i).(net_partition)
    s.(i).(event_index) s.(i).(global_index) s.(i).(fuzz_coverage_map) s.(i).(use_kafka)
    s.(i).(produced)) s.(t).
Definition set_partition (b : bool) (s : tracer) : tracer :=
  Tracer (Injector s.(i).(i_random) s.(i).(i_flags) s.(i).(stored_regs) s.(i).(last_injected) b
    s.(i).(event_index) s.(i).(global_index) s.(i).(fuzz_coverage_map) s.(i).(use_kafka)
    s.(i).(produced)) s.(t).
Definition set_indices (e g : Z) (s : tracer) : tracer :=
  Tracer (Injector s.(i).(i_random) s.(i).(i_flags) s.(i).(stored_regs) s.(i).(last_injected) s.(i).(net_partition)
    e g s.(i).(fuzz_coverage_map) s.(i).(use_kafka)
    s.(i).(produced)) s.(t).
Definition set_map (m : gmap Z Z) (s : tracer) : tracer :=
  Tracer (Injector s.(i).(i_random) s.(i).(i_flags) s.(i).(stored_regs) s.(i).(last_injected) s.(i).(net_partition)
    s.(i).(event_index) s.(i).(global_index) m s.(i).(use_kafka) s.(i).(produced)) s.(t).
Definition set_produced (l : list Z) (s : tracer) : tracer :=
  Tracer (Injector s.(i).(i_random) s.(i).(i_flags) s.(i).(stored_regs) s.(i).(last_injected) s.(i).(net_partition)
    s.(i).(event_index) s.(i).(global_index) s.(i).(fuzz_coverage_map) s.(i).(use_kafka) l) s.(t).
Definition set_regs (r : user_regs) (s : tracer) : tracer :=
  Tracer s.(i) (Tcb s.(t).(scno) s.(t).(u_arg) r s.(t).(qual_inject) s.(t).(flag_delay_enter)
    s.(t).(flag_retval) s.(t).(opts)).
Definition set_opts (o : option inject_data) (s : tracer) : tracer :=
  Tracer s.(i) (Tcb s.(t).(scno) s.(t).(u_arg) s.(t).(t_regs) s.(t).(qual_inject) s.(t).(flag_delay_enter)
    s.(t).(flag_retval) o).

(** The environment variables and the links of [/proc/<pid>/fd], [None] when
    [readlink] fails; the memory of the process: the fields of the structures at an
    address; whether [rd_kafka_produce] takes one more message. *)
Class Tracee := {
  getenv : string → option string;
  readlink : Z → option string;
  iov_len : Z → Z;
  msg_iov : Z → Z;
  msg_iovlen : Z → Z;
  kafka_accepts : list Z → Z → bool;
}.

Section strace.
Context `{!Tracee}.

(** ** Coverage *)

(** [index] is an [int]; the sum is unsigned, of 32 bits up to [length] and of 64
    bits from there on.  Without [NODE_ID] [atoi] reads through null. *)
Definition get_hash_value (syscall_no length : Z) (fault_injected : bool) : proc tracer Z :=
  e ← gets (λ s, s.(i).(event_index));
  g ← gets (λ s, s.(i).(global_index));
  p ← (match getenv "NO_REDUCTION" with
       | None => mret (0, s32 e)
       | Some _ => n ← from_option (λ _, getenv "NODE_ID"); mret (atoi n, s32 g)
       end);
  let '(node_id, index) := p in
  let sum := u64 (u32 (index + u32 (syscall_no * 10)) + length + u64 (node_id * 100)) in
  modify (set_indices (u64 (e + 1)) (u64 (g + 1))) ;;
  mret (u64 (Z.shiftl sum (if fault_injected then 1 else 0)) mod FUZZ_COVERAGE_MAP_SIZE).

Definition bump (m : gmap Z Z) (h : Z) : gmap Z Z := <[h := u8 (default 0 (m !! h) + 1)]> m.

(** The event is sent to the collector or counted in the map. *)
Definition count_event (h : Z) : proc tracer unit :=
  kafka ← gets (λ s, s.(i).(use_kafka));
  if (kafka : bool) then
    sent ← gets (λ s, s.(i).(produced));
    when (kafka_accepts sent h) (modify (set_produced (sent ++ [h])))
  else modify (λ s, set_map (bump s.(i).(fuzz_coverage_map) h) s).

(** ** Which files are fuzzed *)

Definition strstr (s p : string) : bool := bool_decide (is_Some (String.index 0 p s)).

(** [strtok] with the comma. *)
Fixpoint tokens (s : string) (cur : string) : list string :=
  match s with
  | EmptyString => if decide (cur = EmptyString) then [] else [cur]
  | String c u =>
      if decide (c = ","%char)
      then (if decide (cur = EmptyString) then tokens u EmptyString else cur :: tokens u EmptyString)
      else tokens u (cur +:+ String c EmptyString)
  end.

Definition skipped_parts : list string :=
  [".o"; ".so"; ".cfg"; "lib"; "/sys"; "/usr"; "/proc"; "/dev"; "/etc"; ".properties"; ".jar"].

Inductive target := Skip | Socket | File (eventfd : bool).

(** The switch on the first character of the path. *)
Definition classify (file_path : string) : target :=
  match file_path with
  | String "s"%char _ => Socket
  | String "p"%char _ => Skip
  | _ =>
      if existsb (strstr file_path) skipped_parts then Skip else
      if existsb (strstr file_path)
           (match getenv "NO_FAULT_FILES" with Some f => tokens f EmptyString | None => [] end)
      then Skip else File (strstr file_path "[eventfd]")
  end.

(** ** [handle_random_event] *)

Definition draw8 : proc tracer Z := zoom (λ s, s.(i).(i_random)) set_i_random dst_get_random_uint8_t.
Definition draw16 : proc tracer Z := zoom (λ s, s.(i).(i_random)) set_i_random dst_get_random_uint16_t.
Definition fuzzing : proc tracer bool := zoom (λ s, s.(i).(i_flags)) set_i_flags get_is_fuzzing.

(** The result of the call is replaced; the call is not made. *)
Definition inject_retval (v : Z) : proc tracer unit :=
  modify (λ s, Tracer s.(i) (Tcb s.(t).(scno) s.(t).(u_arg) s.(t).(t_regs) true s.(t).(flag_delay_enter) true
    (Some (InjectData false true (Some v) None)))).
Definition inject_delay (ns : Z) : proc tracer unit :=
  modify (λ s, Tracer s.(i) (Tcb s.(t).(scno) s.(t).(u_arg) s.(t).(t_regs) true true s.(t).(flag_retval)
    (Some (InjectData true false None (Some ns))))).

(** The switch; the array is read at the drawn index. *)
Definition inject_event (is_send is_file is_eventfd : bool) (length : Z) (error_codes : list Z)
    : proc tracer unit :=
  let supported_event_size := if negb is_send || is_file then 2 else NUM_INJECT_EVENTS in
  b ← draw8;
  e ← from_option (λ _, inject_events !! Z.to_nat (b mod supported_event_size));
  match e with
  | DELAY =>
      r ← draw16;
      inject_delay (r mod MAX_DELAY_MILLSECONDS * 1000000)
  | FAIL =>
      if is_eventfd then inject_retval (- EAGAIN) else
      b ← draw8;
      c ← from_option (λ _, error_codes !! Z.to_nat (b mod zlen error_codes));
      inject_retval (- c)
  | LOST => inject_retval length
  | DUP => modify (λ s, set_stored (Some s.(t).(t_regs)) s)
  | NETPART => modify (set_partition true) ;; inject_retval (-1)
  end.

(** The decision, up to the label [EXIT]; the result is [fault_injected]. *)
Definition decide_event (is_send is_file is_eventfd : bool) (length : Z) (error_codes : list Z)
    : proc tracer bool :=
  match getenv "NO_FAULT" with
  | Some _ => mret false
  | None =>
      random ← draw8;
      if decide (random < 50) then mret false else
      modify (set_last true) ;;
      modify (set_opts (Some (InjectData false false None None))) ;;
      np ← gets (λ s, s.(i).(net_partition));
      (if np && negb is_file then
         b ← draw8;
         if decide (b mod 2 = 0) then
           modify (set_partition false) ;; inject_event is_send is_file is_eventfd length error_codes
         else inject_retval (-1)
       else inject_event is_send is_file is_eventfd length error_codes) ;;
      mret true
  end.

Definition handle_random_event (is_send : bool) (length : Z) (error_codes : list Z) : proc tracer unit :=
  stored ← gets (λ s, s.(i).(stored_regs));
  match stored with
  | Some _ => modify (set_stored None)
  | None =>
      f ← fuzzing;
      if negb f then mret tt else
      fd ← from_option (λ s, s.(t).(u_arg) !! 0%nat);
      if decide (fd < 3) then mret tt else
      match readlink (s32 fd) with
      | None => mret tt
      | Some file_path =>
          match classify file_path with
          | Skip => mret tt
          | k =>
              let is_file := if k is File _ then true else false in
              let is_eventfd := if k is File true then true else false in
              fault_injected ← decide_event is_send is_file is_eventfd length error_codes;
              n ← gets (λ s, s.(t).(scno));
              h ← get_hash_value (u32 n) length fault_injected;
              count_event h
          end
      end
  end.

(** ** Lengths *)

Definition sizeof_iovec : Z := 16.
Definition sizeof_mmsghdr : Z := 64.

Definition sum_iov (base stride n : Z) : Z :=
  foldl (λ length k, u64 (length + iov_len (u64 (base + stride * k)))) 0 (seqZ 0 n).

Definition get_length_from_iovec (args : list Z) (iov_pos iovcnt_pos : nat) : Z :=
  sum_iov (default 0 (args !! iov_pos)) sizeof_iovec (default 0 (args !! iovcnt_pos)).

(** [msg.msg_iov] is a pointer to [struct iovec]: adding [sizeof(struct iovec) * i]
    to it advances by that many structures. *)
Definition get_length_from_msg (args : list Z) (msg_pos : nat) : Z :=
  let msg := default 0 (args !! msg_pos) in
  sum_iov (msg_iov msg) (sizeof_iovec * sizeof_iovec) (msg_iovlen msg).

(** The inner loop reads with the index of the outer one. *)
Definition get_length_from_mmsg (args : list Z) (msgvec_pos vlen_pos : nat) : Z :=
  foldl (λ length k,
      let msg := u64 (default 0 (args !! msgvec_pos) + sizeof_mmsghdr * k) in
      foldl (λ length _, u64 (length + iov_len (u64 (msg_iov msg + sizeof_iovec * sizeof_iovec * k))))
        length (seqZ 0 (msg_iovlen msg)))
    0 (seqZ 0 (default 0 (args !! vlen_pos))).

(** ** Entering and leaving a system call *)

(** The numbers are those of x86-64. *)
Definition dst_fuzz_syscall_enter : proc tracer unit :=
  n ← gets (λ s, s.(t).(scno));
  a ← gets (λ s, s.(t).(u_arg));
  let arg2 := default 0 (a !! 2%nat) in
  if decide (n = 0) then handle_random_event false arg2 READ_ERROR_CODES else
  if decide (n = 1) then handle_random_event true arg2 WRITE_ERROR_CODES else
  if decide (n = 19 ∨ n = 295 ∨ n = 327) then
    handle_random_event false (get_length_from_iovec a 1 2) READ_ERROR_CODES else
  if decide (n = 20 ∨ n = 296 ∨ n = 328) then
    handle_random_event true (get_length_from_iovec a 1 2) WRITE_ERROR_CODES else
  if decide (n = 45) then handle_random_event false arg2 READ_ERROR_CODES else
  if decide (n = 44) then handle_random_event true arg2 WRITE_ERROR_CODES else
  if decide (n = 47) then handle_random_event false (get_length_from_msg a 1) READ_ERROR_CODES else
  if decide (n = 46) then handle_random_event true (get_length_from_msg a 1) WRITE_ERROR_CODES else
  if decide (n = 299) then handle_random_event false (get_length_from_mmsg a 1 2) READ_ERROR_CODES else
  if decide (n = 307) then handle_random_event true (get_length_from_mmsg a 1 2) WRITE_ERROR_CODES else
  mret tt.

Definition compare_and_warning_regs_differences (new old : user_regs) : Z :=
  Z.b2z (bool_decide (new.(rax) ≠ old.(rax))) + Z.b2z (bool_decide (new.(orig_rax) ≠ old.(orig_rax))) +
  Z.b2z (bool_decide (new.(rip) ≠ old.(rip))) +
  foldr (λ p n, Z.b2z (bool_decide (p.1 ≠ p.2)) + n) 0 (zip new.(regs_other) old.(regs_other)).

Definition dst_fuzz_syscall_exiting_finish : proc tracer unit :=
  stored ← gets (λ s, s.(i).(stored_regs));
  match stored with
  | None => mret tt
  | Some old =>
      new ← gets (λ s, s.(t).(t_regs));
      if decide (compare_and_warning_regs_differences new old < 2) then
        modify (set_regs (Regs old.(orig_rax) new.(orig_rax) (u64 (old.(rip) - 2)) new.(regs_other)))
      else mret tt
  end.

(** ** What an event does *)

Lemma draw8_spec (s : tracer) Q R E : reader_ok s.(i).(i_random) →
  (∀ b r, is_u8 b → reader_ok r → Q b (set_i_random r s)) → wp draw8 Q R E s.
Proof.
  intros Hr HQ. apply wp_zoom. destruct (read_byte_run _ Hr) as (r&E1&Hr1&_&Hb).
  unfold wp, dst_get_random_uint8_t. rewrite E1. by apply HQ.
Qed.

Lemma draw16_spec (s : tracer) Q R E : reader_ok s.(i).(i_random) →
  (∀ b r, 0 <= b → reader_ok r → Q b (set_i_random r s)) → wp draw16 Q R E s.
Proof.
  intros Hr HQ. apply wp_zoom. unfold dst_get_random_uint16_t.
  destruct (read_byte_run _ Hr) as (r&E1&Hr1&_&Hb1). destruct (read_byte_run r Hr1) as (r2&E2&Hr2&_&Hb2).
  unfold wp, mbind, proc_bind. rewrite E1, E2. cbn [mret proc_ret]. apply HQ; [|done].
  rewrite append_u16 by done. unfold is_u8 in *. lia.
Qed.

(** What was decided for the call: nothing, a delay below a second, or the negation of
    an error code as its result. *)
Definition injected (codes : list Z) (o : option inject_data) : Prop :=
  match o with
  | None => False
  | Some d => (∃ ns, d = InjectData true false None (Some ns) ∧ 0 <= ns < 10 ^ 9) ∨
              (∃ c, d = InjectData false true (Some (- c)) None ∧ c ∈ codes)
  end.

(** The steps of a decision leave the rest of the state alone. *)
Record decided (s s' : tracer) : Prop := Decided {
  de_random : reader_ok s'.(i).(i_random);
  de_flags : s'.(i).(i_flags) = s.(i).(i_flags);
  de_stored : s'.(i).(stored_regs) = s.(i).(stored_regs);
  de_indices : s'.(i).(event_index) = s.(i).(event_index) ∧ s'.(i).(global_index) = s.(i).(global_index);
  de_map : s'.(i).(fuzz_coverage_map) = s.(i).(fuzz_coverage_map);
  de_kafka : s'.(i).(use_kafka) = s.(i).(use_kafka) ∧ s'.(i).(produced) = s.(i).(produced);
  de_call : s'.(t).(scno) = s.(t).(scno) ∧ s'.(t).(t_regs) = s.(t).(t_regs);
}.

(** The error codes a call can be made to return: [1] stands for a partition. *)
Definition codes_of (codes : list Z) : list Z := 1 :: EAGAIN :: codes.

Lemma inject_retval_spec c codes (s0 s : tracer) (Q : unit → tracer → Prop) R E : decided s0 s →
  c ∈ codes_of codes →
  (∀ s', decided s0 s' → injected (codes_of codes) s'.(t).(opts) → Q tt s') →
  wp (inject_retval (- c)) Q R E s.
Proof.
  intros [? ? ? ? ? ?] Hc HQ. unfold inject_retval. wp_step. apply HQ; [by split|]. right. by exists c.
Qed.

Lemma inject_event_spec is_send is_file is_eventfd length codes (s0 s : tracer) (Q : unit → tracer → Prop) R E :
  negb is_send || is_file = true → codes ≠ [] → decided s0 s →
  (∀ s', decided s0 s' → injected (codes_of codes) s'.(t).(opts) → Q tt s') →
  wp (inject_event is_send is_file is_eventfd length codes) Q R E s.
Proof.
  intros Hk Hc Hd HQ. pose proof Hd as [Hr ? ? ? ? ?]. unfold inject_event. rewrite Hk. apply wp_bind, draw8_spec; [done|].
  intros b r Hb Hr1. assert (∃ e, inject_events !! Z.to_nat (b mod 2) = Some e ∧ (e = DELAY ∨ e = FAIL)) as (e&He&Hcase).
  { pose proof (Z.mod_pos_bound b 2 ltac:(lia)) as Hm. destruct (decide (b mod 2 = 0)) as [->|Hne].
    - exists DELAY. split; [done|by left].
    - replace (b mod 2) with 1 by lia. exists FAIL. split; [done|by right]. }
  apply wp_bind. eapply wp_from_option; [exact He|]. destruct Hcase as [-> | ->].
  - apply wp_bind, draw16_spec; [done|]. intros n r2 Hn Hr2. unfold inject_delay. wp_step. apply HQ; [by split|].
    left. eexists. split; [done|]. pose proof (Z.mod_pos_bound n MAX_DELAY_MILLSECONDS ltac:(unfold MAX_DELAY_MILLSECONDS; lia)).
    unfold MAX_DELAY_MILLSECONDS in *. lia.
  - wp_step; [eapply inject_retval_spec; [by split|by right; left|done]|].
    apply wp_bind, draw8_spec; [done|]. intros b2 r2 Hb2 Hr2.
    destruct (lookup_lt_is_Some_2 codes (Z.to_nat (b2 mod zlen codes))) as [c Hcd].
    { assert (0 < zlen codes) by (destruct codes; [done|unfold zlen; cbn; lia]).
      pose proof (Z.mod_pos_bound b2 (zlen codes)). unfold zlen in *. lia. }
    apply wp_bind. eapply wp_from_option; [exact Hcd|].
    eapply inject_retval_spec; [by split|right; right; by eapply list_elem_of_lookup_2|done].
Qed.

Lemma decide_event_spec is_send is_file is_eventfd length codes (s : tracer) (Q : bool → tracer → Prop) R E :
  negb is_send || is_file = true → codes ≠ [] → reader_ok s.(i).(i_random) →
  (∀ s', decided s s' → s'.(t) = s.(t) → Q false s') →
  (∀ s', decided s s' → injected (codes_of codes) s'.(t).(opts) → Q true s') →
  wp (decide_event is_send is_file is_eventfd length codes) Q R E s.
Proof.
  intros Hk Hc Hr HF HT. unfold decide_event. destruct (getenv "NO_FAULT"); [wp_step; apply HF; [by split|done]|].
  apply wp_bind, draw8_spec; [done|]. intros b r Hb Hr1. wp_step; [wp_step; apply HF; [by split|done]|].
  wp_step. wp_step. wp_step. wp_step. wp_step. wp_step. set (s1 := set_opts _ _).
  assert (decided s s1) as Hd1 by by split. apply wp_bind.
  apply (wp_conseq _ (λ _ s', decided s s' ∧ injected (codes_of codes) s'.(t).(opts)));
    [|intros _ s' [? ?]; wp_step; by apply HT].
  wp_step; [|by eapply inject_event_spec].
  apply wp_bind, draw8_spec; [done|]. intros b2 r2 Hb2 Hr2. assert (decided s (set_i_random r2 s1)) as Hd2 by by split.
  wp_step.
  - wp_step. wp_step. apply (inject_event_spec _ _ _ _ codes s); [done|done|by split|done].
  - apply (inject_retval_spec 1 codes s); [exact Hd2|by left|done].
Qed.

(** *** The whole handler *)

(** The events that count: the servers are fuzzed and the descriptor is a socket or a
    file that is not excluded. *)
Definition event_kind (id : Z) (s : tracer) : target :=
  if decide (flag_value id s.(i).(i_flags) = 1) then
    match s.(t).(u_arg) !! 0%nat with
    | Some fd =>
        if decide (fd < 3) then Skip
        else match readlink (s32 fd) with Some p => classify p | None => Skip end
    | None => Skip
    end
  else Skip.

Definition environment_ok : Prop := is_Some (getenv "NO_REDUCTION") → is_Some (getenv "NODE_ID").

Lemma get_hash_spec n length b (s : tracer) Q R E : environment_ok →
  (∀ h, 0 <= h < FUZZ_COVERAGE_MAP_SIZE →
     Q h (set_indices (u64 (s.(i).(event_index) + 1)) (u64 (s.(i).(global_index) + 1)) s)) →
  wp (get_hash_value n length b) Q R E s.
Proof.
  intros He HQ. unfold get_hash_value. wp_step. wp_step. wp_step. wp_step. apply wp_bind.
  apply (wp_conseq _ (λ _ s', s' = s)).
  { unfold environment_ok in He. destruct (getenv "NO_REDUCTION"); [|by wp_step].
    destruct He as [x Hx]; [done|]. apply wp_bind. eapply wp_from_option; [exact Hx|]. by wp_step. }
  intros [node_id index] s' ->. wp_step. wp_step. wp_step. apply HQ. apply Z.mod_pos_bound.
  unfold FUZZ_COVERAGE_MAP_SIZE. lia.
Qed.

(** What [count_event] leaves. *)
Definition counted (a : injector) (h : Z) (b : injector) : Prop :=
  if a.(use_kafka)
  then b.(fuzz_coverage_map) = a.(fuzz_coverage_map) ∧
       b.(produced) = a.(produced) ++ (if kafka_accepts a.(produced) h then [h] else [])
  else b.(fuzz_coverage_map) = bump a.(fuzz_coverage_map) h ∧ b.(produced) = a.(produced).

Lemma count_event_spec h s :
  wp (count_event h)
    (λ _ s', (s'.(t) = s.(t) ∧ s'.(i).(stored_regs) = s.(i).(stored_regs) ∧
       s'.(i).(event_index) = s.(i).(event_index)) ∧ counted s.(i) h s'.(i))
    (λ _ _, False) (λ _ _, False) s.
Proof.
  unfold count_event, counted. wp_step. wp_step. destruct (use_kafka (i s)); [|by wp_step].
  wp_step. wp_step. destruct (kafka_accepts _ _); wp_step; cbn; by rewrite ?app_nil_r.
Qed.


Definition same_partition (s s' : tracer) : Prop := s'.(i).(net_partition) = s.(i).(net_partition).
#[global] Instance same_partition_preorder : PreOrder same_partition.
Proof. split; [done|]. intros x y z Hx Hy. unfold same_partition in *. congruence. Qed.

Lemma stable_draw8 : stable same_partition draw8.
Proof. by apply stable_zoom. Qed.
Lemma stable_draw16 : stable same_partition draw16.
Proof. by apply stable_zoom. Qed.

Lemma inject_event_partition is_send is_file is_eventfd length codes :
  stable same_partition (inject_event is_send is_file is_eventfd length codes).
Proof.
  unfold inject_event, inject_delay, inject_retval. cbv zeta.
  apply stable_bind; [exact _|apply stable_draw8|intros b].
  set (n := if negb is_send || is_file then 2 else NUM_INJECT_EVENTS).
  intros s u s' E. unfold mbind at 1, proc_bind at 1, from_option at 1 in E.
  destruct (inject_events !! Z.to_nat (b mod n)) as [e|] eqn:He; [|done].
  revert s u s' E. change (stable same_partition (match e with
    | DELAY => r ← draw16; inject_delay (r mod MAX_DELAY_MILLSECONDS * 1000000)
    | FAIL => if is_eventfd then inject_retval (- EAGAIN) else
        b ← draw8; c ← from_option (λ _, codes !! Z.to_nat (b mod zlen codes)); inject_retval (- c)
    | LOST => inject_retval length
    | DUP => modify (λ s, set_stored (Some s.(t).(t_regs)) s)
    | NETPART => modify (set_partition true) ;; inject_retval (-1)
    end)).
  assert (e ≠ NETPART) as Hne by (intros ->; apply list_elem_of_lookup_2 in He; cbv in He; set_solver).
  destruct e; try done; unfold inject_delay, inject_retval;
    repeat first [apply stable_draw8|apply stable_draw16|stable_step done].
Qed.

(** Sending on a socket reads the array of four events at an index below five: the
    draw that stands for a partition is a read out of bounds.  No defined event starts
    a partition. *)
Theorem strace_partition_unread is_file is_eventfd length codes (s : tracer) :
  reader_ok s.(i).(i_random) →
  ((next (left_of s.(i).(i_random))).1 mod 5 = 4 → (inject_event true false is_eventfd length codes s).1 = UB) ∧
  ∀ is_send s', inject_event is_send is_file is_eventfd length codes s = (Norm tt, s') →
    s'.(i).(net_partition) = s.(i).(net_partition).
Proof.
  intros Hr. destruct (read_byte_run _ Hr) as (r&E&Hr1&_).
  assert (draw8 s = (Norm (next (left_of s.(i).(i_random))).1, set_i_random r s)) as Hd
    by (unfold draw8, zoom, dst_get_random_uint8_t; by rewrite E).
  split.
  - intros Hb. unfold inject_event. cbn [negb orb]. unfold mbind, proc_bind. rewrite Hd.
    unfold from_option, NUM_INJECT_EVENTS. by rewrite Hb.
  - intros is_send s' Es. by apply (inject_event_partition is_send is_file is_eventfd length codes s tt).
Qed.

(** ** A call that is made twice *)

(** The instruction [syscall] at [rip], and the kernel that writes the result. *)
Definition ENOSYS : Z := 38.
Definition trap (s : tracer) : tracer :=
  let r := s.(t).(t_regs) in
  set_regs (Regs (- ENOSYS) r.(rax) (u64 (r.(rip) + 2)) r.(regs_other)) s.
Definition kernel_result (v : Z) (s : tracer) : tracer :=
  let r := s.(t).(t_regs) in set_regs (Regs v r.(orig_rax) r.(rip) r.(regs_other)) s.

Lemma same_regs_diff l : foldr (λ (p : Z * Z) n, Z.b2z (bool_decide (p.1 ≠ p.2)) + n) 0 (zip l l) = 0.
Proof. induction l as [|x l IH]; [done|]. cbn [zip zip_with foldr fst snd]. rewrite IH. by rewrite bool_decide_eq_false_2 by auto. Qed.


(** *** Lengths *)

(** The length of a message with two parts takes the second one 256 bytes further,
    where the code means 16. *)
Lemma msg_stride args pos msg : args !! pos = Some msg → msg_iovlen msg = 2 →
  get_length_from_msg args pos = u64 (u64 (0 + iov_len (u64 (msg_iov msg))) + iov_len (u64 (msg_iov msg + 256))).
Proof.
  intros Ha Hn. unfold get_length_from_msg, sum_iov. rewrite Ha. cbn. rewrite Hn.
  change (seqZ 0 2) with [0; 1]. cbn [foldl]. change (sizeof_iovec * sizeof_iovec * 0) with 0.
  change (sizeof_iovec * sizeof_iovec * 1) with 256. by rewrite Z.add_0_r.
Qed.

(** Two parts of the second of several messages are read at one address. *)
Lemma mmsg_same_part args p q base : args !! p = Some base → args !! q = Some 2 →
  msg_iovlen (u64 base) = 0 → msg_iovlen (u64 (base + 64)) = 2 →
  let l := iov_len (u64 (msg_iov (u64 (base + 64)) + 256)) in
  get_length_from_mmsg args p q = u64 (u64 (0 + l) + l).
Proof.
  intros Hp Hq Hn1 Hn2. unfold get_length_from_mmsg. rewrite Hp, Hq. cbn. change (seqZ 0 2) with [0; 1]. cbn [foldl].
  change (sizeof_mmsghdr * 0) with 0. change (sizeof_mmsghdr * 1) with 64. cbv zeta.
  by rewrite (Z.add_0_r base), Hn1, Hn2.
Qed.
End strace.

(** ** Witnesses *)

#[local] Instance demo_tracee : Tracee := {
  getenv _ := None;
  readlink fd := if decide (fd = 5) then Some "socket:[42]" else Some "/data/raft.log";
  iov_len a := a;
  msg_iov a := a;
  msg_iovlen a := 1;
  kafka_accepts _ _ := true;
}.

Definition demo_tracer (fd : Z) (bytes : list Z) : tracer :=
  Tracer
    (Injector (Reader 0 (zlen bytes) (Some bytes)) (Flags false Null 0 (Some "7") {[ 7 := 1 ]}) None false false 3 9 ∅ false [])
    (Tcb 0 [fd; 4096; 100] (Regs (-38) 0 4198400 [1; 2; 3]) false false false None).

Lemma demo_tracer_ok bytes : Forall is_u8 bytes → 0 < zlen bytes < 2 ^ 32 →
  reader_ok (demo_tracer 6 bytes).(i).(i_random).
Proof. intros Hb Hl. split; cbn; [lia|lia|]. exists bytes. right. done. Qed.


Lemma strace_partition_unread_witness :
  (4 mod 5 = 4 → (inject_event true false false 100 WRITE_ERROR_CODES (demo_tracer 6 [4; 1])).1 = UB) ∧
  ∀ is_send s', inject_event is_send true false 100 WRITE_ERROR_CODES (demo_tracer 6 [4; 1]) = (Norm tt, s') →
    s'.(i).(net_partition) = false.
Proof.
  apply (strace_partition_unread true false 100 WRITE_ERROR_CODES (demo_tracer 6 [4; 1])).
  apply demo_tracer_ok; [apply (bool_decide_unpack _); vm_compute; exact I|vm_compute; split; congruence].
Defined.

