(* ===== verification/Bpf.v ===== *)
(** * Fault injection into system calls, in the kernel

    Models the eBPF programs of [bpf/dst_fuzz_fault.bpf.c] with the helpers of
    [bpf/utils.h], and what their loader [bpf/dst_fuzz_fault.c] fills in and copies out:
    the files and sockets of a server are recorded when they are opened, and its reads
    and writes on them are delayed or made to fail by the bits of [fuzz_bytes]. *)

From S2P Require Import Prelude.
From S2P Require Import RandomFile.

(** ** [utils.h] *)

Definition SHOULD_RECORD_SIZE : Z := 103.
Definition FD_SIZE : Z := 103.
Definition FUZZ_BYTES_SIZE : Z := 1024 * 1024.
Definition FUZZ_COVERAGE_MAP_SIZE : Z := 2 ^ 23.

Definition get_bit (array : list Z) (array_size bit_index : Z) : bool :=
  let char_index := bit_index / 8 in
  if decide (char_index < array_size)
  then Z.testbit (nthZ array char_index) (bit_index mod 8) else false.

(** [size] characters are compared, fewer when both texts end. *)
Fixpoint str_equal (cs ct : list Z) (size : nat) : bool :=
  match size with
  | O => true
  | S size' =>
      let c1 := nthZ cs 0 in
      let c2 := nthZ ct 0 in
      if decide (c1 ≠ c2) then false else
      if decide (c1 = 0) then true else str_equal (drop 1 cs) (drop 1 ct) size'
  end.

(** The loop over [index]; [n] turns are left. *)
Fixpoint contains_from (n : nat) (str pattern : list Z) (pattern_size : nat) : bool :=
  match n with
  | O => false
  | S n' =>
      if decide (nthZ str 0 = 0) then false else
      if str_equal str pattern pattern_size then true
      else contains_from n' (drop 1 str) pattern pattern_size
  end.
Definition str_contains (str pattern : list Z) (str_size pattern_size : Z) : bool :=
  contains_from (Z.to_nat (Z.land (str_size - pattern_size) 65535)) str pattern (Z.to_nat pattern_size).

(** ** The state of the programs *)

Record bpf := Bpf {
  should_record : list Z;
  record_fds : list Z;
  fuzz_bytes : list Z;
  fuzz_bit_index : Z;
  fuzz_coverage_map : gmap Z Z;
  node_id : Z;
  event_index : Z;
}.
Definition set_should (l : list Z) (s : bpf) : bpf :=
  Bpf l s.(record_fds) s.(fuzz_bytes) s.(fuzz_bit_index) s.(fuzz_coverage_map) s.(node_id) s.(event_index).
Definition set_fds (l : list Z) (s : bpf) : bpf :=
  Bpf s.(should_record) l s.(fuzz_bytes) s.(fuzz_bit_index) s.(fuzz_coverage_map) s.(node_id) s.(event_index).
Definition set_bit_index (n : Z) (s : bpf) : bpf :=
  Bpf s.(should_record) s.(record_fds) s.(fuzz_bytes) n s.(fuzz_coverage_map) s.(node_id) s.(event_index).
Definition set_coverage (m : gmap Z Z) (e : Z) (s : bpf) : bpf :=
  Bpf s.(should_record) s.(record_fds) s.(fuzz_bytes) s.(fuzz_bit_index) m s.(node_id) e.

(** The task that makes the call: its process as the namespace of the loader sees it,
    if it does, and the two halves of [bpf_get_current_pid_tgid]. *)
Record task := Task {
  ns_ids : option (Z * Z);
  current_pid : Z;
  current_tgid : Z;
}.
Definition is_current_pid_or_tgid (pid : Z) (k : task) : bool :=
  (if k.(ns_ids) is Some (p, g) then bool_decide (p = pid ∨ g = pid) else false) ||
  bool_decide (k.(current_pid) = pid ∨ k.(current_tgid) = pid).

(** ** Coverage *)

(** [length] is an [int], [fd] and [node_id] are unsigned of 32 bits; the sum has 64
    bits. *)
Definition hash_of (s : bpf) (is_send : bool) (length fd : Z) (fault_injected : bool) : Z :=
  let sum := u64 (s.(event_index) + length + u32 (fd * 97) + u32 (s.(node_id) * 100) +
                  (if is_send then 10 else 0)) in
  u64 (Z.shiftl sum (if fault_injected then 1 else 0)) mod FUZZ_COVERAGE_MAP_SIZE.

Definition hit (m : gmap Z Z) (n : Z) : bool :=
  bool_decide (n < FUZZ_COVERAGE_MAP_SIZE ∧ 0 < default 0 (m !! n)).

(** A neighbour that was hit before is taken instead; [hash_value - 1] is unsigned. *)
Definition settle (m : gmap Z Z) (h : Z) : Z :=
  let h := if hit m (u64 (h - 1)) then u64 (h - 1) mod FUZZ_COVERAGE_MAP_SIZE else h in
  if hit m (u64 (h + 1)) then u64 (h + 1) mod FUZZ_COVERAGE_MAP_SIZE else h.

Definition record_coverage (is_send : bool) (length fd : Z) (fault_injected : bool) (s : bpf) : bpf :=
  let h := settle s.(fuzz_coverage_map) (hash_of s is_send length fd fault_injected) in
  let m := if decide (h < FUZZ_COVERAGE_MAP_SIZE)
           then <[h := u8 (default 0 (s.(fuzz_coverage_map) !! h) + 1)]> s.(fuzz_coverage_map)
           else s.(fuzz_coverage_map) in
  set_coverage m (u64 (s.(event_index) + 1)) s.

(** ** Files and sockets *)

(** [".o"; ".so"; ".cfg"; "lib"; "/sys"; "/proc"; "/dev"; ".pro"; ".jar"; "/var"; "tmp"] *)
Definition excluded : list (list Z) :=
  [[46; 111]; [46; 115; 111]; [46; 99; 102; 103]; [108; 105; 98]; [47; 115; 121; 115];
   [47; 112; 114; 111; 99]; [47; 100; 101; 118]; [46; 112; 114; 111]; [46; 106; 97; 114];
   [47; 118; 97; 114]; [116; 109; 112]].

(** [fname]: the 256 bytes that are read at the name. *)
Definition filter_by_filename (k : task) (fname : list Z) (s : bpf) : bpf :=
  if existsb (λ p, str_contains fname p 256 (zlen p)) excluded then s else
  let a := k.(current_pid) mod SHOULD_RECORD_SIZE in
  if decide (nthZ fname 0 ≠ 0) then set_should (<[Z.to_nat a := 1]> s.(should_record)) s else s.

Definition mark_fd (ret : Z) (s : bpf) : bpf :=
  set_fds (<[Z.to_nat (u64 ret mod FD_SIZE) := 1]> s.(record_fds)) s.

Definition record_fd (k : task) (ret : Z) (s : bpf) : bpf :=
  let a := k.(current_pid) mod SHOULD_RECORD_SIZE in
  if decide (nthZ s.(should_record) a ≠ 0) then
    let s := set_should (<[Z.to_nat a := 0]> s.(should_record)) s in
    if decide (ret > 0) then mark_fd ret s else s
  else s.

(** The probes of [open], [openat] and [openat2], at entry and at return, and of
    [socket] at return. *)
Definition sys_open (pid : Z) (k : task) (fname : list Z) (s : bpf) : bpf :=
  if is_current_pid_or_tgid pid k then filter_by_filename k fname s else s.
Definition sys_open_exit (pid : Z) (k : task) (ret : Z) (s : bpf) : bpf :=
  if is_current_pid_or_tgid pid k then record_fd k ret s else s.
Definition sys_socket_exit (pid : Z) (k : task) (ret : Z) (s : bpf) : bpf :=
  if is_current_pid_or_tgid pid k then mark_fd ret s else s.

(** ** Reads and writes *)

(** What becomes of the call: it is made, its result is overridden, or it is delayed by
    a loop of that many turns. *)
Inductive effect := Pass | Override (result : Z) | Loop (turns : Z).

Definition next_bit (s : bpf) : bool * bpf :=
  (get_bit s.(fuzz_bytes) FUZZ_BYTES_SIZE s.(fuzz_bit_index), set_bit_index (u32 (s.(fuzz_bit_index) + 1)) s).

Definition handle_events (is_send : bool) (length fd : Z) (s : bpf) : effect * bpf :=
  if decide (fd < FD_SIZE ∧ nthZ s.(record_fds) fd ≠ 0) then
    let '(b, s) := next_bit s in
    if (b : bool) then
      let '(c, s) := next_bit s in
      (if (c : bool) then Override (-1) else Loop (4095 * 50), record_coverage is_send length fd true s)
    else (Pass, record_coverage is_send length fd false s)
  else (Pass, record_coverage is_send length fd false s).

(** The calls with a probe, each with what the probe reads of its arguments: a length,
    the lengths of the parts of a vector and their number, [msg_iter.count] of a message
    or [msg_len] of the first of several. *)
Inductive io_call :=
  | Write (count : Z) | Writev (iov : list Z) (iovcnt : Z)
  | Pwritev (iov : list Z) (iovcnt : Z) | Pwritev2 (iov : list Z) (iovcnt : Z)
  | Read (count : Z) | Readv (iov : list Z) (iovcnt : Z)
  | Preadv (iov : list Z) (iovcnt : Z) | Preadv2 (iov : list Z) (iovcnt : Z)
  | Recv (len : Z) | Recvfrom (len : Z) | Recvmsg (count : Z) | Recvmmsg (msg_len : Z)
  | Send (len : Z) | Sendto (len : Z) | Sendmsg (count : Z) | Sendmmsg (msg_len : Z).

(** Only the first part of a vector is read. *)
Definition get_length_from_iovec (iov : list Z) (iovcnt : Z) : Z := u64 (0 + default 0 (head iov)).

Definition io_is_send (c : io_call) : bool :=
  match c with
  | Write _ | Writev _ _ | Pwritev _ _ | Pwritev2 _ _ => true
  | Read _ | Readv _ _ | Preadv _ _ | Preadv2 _ _ => false
  | Recv _ | Recvfrom _ | Recvmsg _ | Recvmmsg _ => false
  | Send _ | Sendto _ | Sendmsg _ | Sendmmsg _ => true
  end.
Definition io_length (c : io_call) : Z :=
  match c with
  | Write n | Read n | Recv n | Recvfrom n | Send n | Sendto n => n
  | Writev iov k | Pwritev iov k | Pwritev2 iov k
  | Readv iov k | Preadv iov k | Preadv2 iov k => get_length_from_iovec iov k
  | Recvmsg n | Recvmmsg n | Sendmsg n | Sendmmsg n => n
  end.

(** The probe of a call; [handle_events] takes the length as an [int] and the
    descriptor as an unsigned number. *)
Definition sys_io (pid : Z) (k : task) (c : io_call) (fd : Z) (s : bpf) : effect * bpf :=
  if is_current_pid_or_tgid pid k
  then handle_events (io_is_send c) (s32 (io_length c)) (u32 fd) s
  else (Pass, s).

(** ** The loader *)

(** The bytes of the random file, one after the other. *)
Definition init_fuzz_bytes : proc reader (list Z) := read_bytes (Z.to_nat FUZZ_BYTES_SIZE).
Definition loaded (bytes : list Z) (node : Z) : bpf :=
  Bpf (replicate (Z.to_nat SHOULD_RECORD_SIZE) 0) (replicate (Z.to_nat FD_SIZE) 0) bytes 0 ∅ node 0.

(** ** Searching a name *)

Definition no_nul (l : list Z) : Prop := Forall (λ c, c ≠ 0) l.

Lemma str_equal_prefix cs ct : no_nul ct → str_equal cs ct (length ct) = true ↔ ct `prefix_of` cs.
Proof.
  intros Hct. revert cs. induction Hct as [|c ct Hc Hct IH]; intros cs; cbn [str_equal length].
  { split; [intros _; apply prefix_nil|done]. }
  change (nthZ (c :: ct) 0) with c. destruct cs as [|d cs]; cbn [drop].
  - change (nthZ [] 0) with 0. rewrite decide_True by done. split; [done|]. intros H. by apply prefix_nil_not in H.
  - change (nthZ (d :: cs) 0) with d. case_decide as Hd.
    + split; [done|]. intros H. apply prefix_cons_inv_1 in H. congruence.
    + assert (d = c) as -> by lia. rewrite decide_False by done. rewrite drop_0, IH.
      split; [by apply prefix_cons|by apply prefix_cons_inv_2].
Qed.

(** A pattern without a NUL does not reach over the end of a text. *)
Lemma prefix_text pat s junk : no_nul pat → pat `prefix_of` s ++ 0 :: junk ↔ pat `prefix_of` s.
Proof.
  intros Hp. split; [|intros H; by apply prefix_app_r].
  revert s. induction Hp as [|c pat Hc Hp IH]; intros s H; [apply prefix_nil|].
  destruct s as [|d s]; cbn in H; [apply prefix_cons_inv_1 in H; congruence|].
  pose proof (prefix_cons_inv_1 _ _ _ _ H) as ->. apply prefix_cons_inv_2 in H. by apply prefix_cons, IH.
Qed.

Lemma contains_from_spec n s junk pat : no_nul s → no_nul pat →
  contains_from n (s ++ 0 :: junk) pat (length pat) = true ↔
  ∃ i, (i < n)%nat ∧ (i < length s)%nat ∧ pat `prefix_of` drop i s.
Proof.
  intros Hs Hp. revert s Hs. induction n as [|n IH]; intros s Hs; cbn [contains_from].
  { split; [done|]. intros (i&?&_). lia. }
  destruct s as [|c s]; cbn [app].
  - change (nthZ (0 :: junk) 0) with 0. rewrite decide_True by done. split; [done|]. intros (i&_&Hi&_). cbn in Hi. lia.
  - apply Forall_cons_iff in Hs as [Hc Hs]. change (nthZ (c :: (s ++ 0 :: junk)) 0) with c.
    rewrite decide_False by done. cbn [drop]. rewrite drop_0.
    pose proof (str_equal_prefix (c :: (s ++ 0 :: junk)) pat Hp) as He.
    change (c :: (s ++ 0 :: junk)) with ((c :: s) ++ 0 :: junk) in He at 2. rewrite prefix_text in He by done.
    destruct (str_equal _ pat (length pat)).
    + split; [intros _|done]. exists 0%nat. cbn. split; [lia|]. split; [lia|]. by apply He.
    + rewrite (IH s Hs). split.
      * intros (j&?&?&?). exists (S j). cbn. split; [lia|]. split; [lia|done].
      * intros ([|j]&?&Hj&Hpre); [cbn in Hpre; by apply He in Hpre|]. cbn in Hj, Hpre. exists j. split; [lia|]. split; [lia|done].
Qed.


(** ** One slot for each event *)

Lemma hash_range s is_send length fd b : 0 <= hash_of s is_send length fd b < FUZZ_COVERAGE_MAP_SIZE.
Proof. apply Z.mod_pos_bound. unfold FUZZ_COVERAGE_MAP_SIZE. lia. Qed.

Lemma hit_pred m h : 0 <= h < FUZZ_COVERAGE_MAP_SIZE → hit m (u64 (h - 1)) = true →
  1 <= h ∧ u64 (h - 1) = h - 1.
Proof.
  unfold hit, FUZZ_COVERAGE_MAP_SIZE. intros Hh H. apply bool_decide_eq_true in H as [Hlt _].
  destruct (decide (h = 0)) as [->|]; [vm_compute in Hlt; discriminate|].
  split; [lia|]. apply u64_id. unfold is_u64. lia.
Qed.

Lemma settle_near m h : 0 <= h < FUZZ_COVERAGE_MAP_SIZE →
  0 <= settle m h < FUZZ_COVERAGE_MAP_SIZE ∧ Z.abs (settle m h - h) <= 1.
Proof.
  intros Hh. unfold settle.
  assert (∃ g, (if hit m (u64 (h - 1)) then u64 (h - 1) mod FUZZ_COVERAGE_MAP_SIZE else h) = g ∧
    0 <= g < FUZZ_COVERAGE_MAP_SIZE ∧ (g = h ∨ g = h - 1)) as (g&->&Hg&Hgh).
  { destruct (hit m (u64 (h - 1))) eqn:E; [|exists h; lia].
    destruct (hit_pred m h Hh E) as [? ->]. exists (h - 1). rewrite Z.mod_small by lia. lia. }
  assert (u64 (g + 1) = g + 1) as -> by (apply u64_id; unfold is_u64, FUZZ_COVERAGE_MAP_SIZE in *; lia).
  destruct (hit m (g + 1)) eqn:E; [|lia]. unfold hit in E. apply bool_decide_eq_true in E as [? _].
  rewrite Z.mod_small by lia. lia.
Qed.

(** The counters after an event. *)
Definition counted (s s' : bpf) : Prop :=
  s'.(event_index) = u64 (s.(event_index) + 1) ∧
  ∃ h, 0 <= h < FUZZ_COVERAGE_MAP_SIZE ∧
    s'.(fuzz_coverage_map) = <[h := u8 (default 0 (s.(fuzz_coverage_map) !! h) + 1)]> s.(fuzz_coverage_map).

Lemma record_coverage_counted is_send length fd b s : counted s (record_coverage is_send length fd b s).
Proof.
  unfold counted, record_coverage. cbn [set_coverage event_index fuzz_coverage_map]. split; [done|].
  destruct (settle_near s.(fuzz_coverage_map) _ (hash_range s is_send length fd b)) as [Hr _].
  eexists. split; [exact Hr|]. by rewrite decide_True by lia.
Qed.

(** The next bits of the input, and none when it is used up. *)
Definition bits_of (s : bpf) (i : Z) : bool := get_bit s.(fuzz_bytes) FUZZ_BYTES_SIZE (s.(fuzz_bit_index) + i).

(** One event of a server. *)
Lemma handle_events_ok is_send length fd s e s' :
  handle_events is_send length fd s = (e, s') → 0 <= s.(fuzz_bit_index) < 2 ^ 32 - 2 →
  let recorded := bool_decide (fd < FD_SIZE ∧ nthZ s.(record_fds) fd ≠ 0) in
  counted s s' ∧ s'.(record_fds) = s.(record_fds) ∧
  (e = match recorded && bits_of s 0, bits_of s 1 with
       | false, _ => Pass
       | true, true => Override (-1)
       | true, false => Loop 204750
       end) ∧
  (s'.(fuzz_bit_index) = s.(fuzz_bit_index) + if recorded then (if bits_of s 0 then 2 else 1) else 0) ∧
  (FUZZ_BYTES_SIZE * 8 <= s.(fuzz_bit_index) → e = Pass).
Proof.
  intros E Hi recorded. unfold handle_events in E.
  assert (∀ s1 b, s1.(event_index) = s.(event_index) → s1.(fuzz_coverage_map) = s.(fuzz_coverage_map) →
    counted s (record_coverage is_send length fd b s1)) as Hcount.
  { intros s1 b He Hm. destruct (record_coverage_counted is_send length fd b s1) as [H1 H2].
    unfold counted. by rewrite <-He, <-Hm. }
  assert (FUZZ_BYTES_SIZE * 8 <= s.(fuzz_bit_index) → bits_of s 0 = false) as Hend.
  { intros Hge. unfold bits_of, get_bit. rewrite Z.add_0_r, decide_False; [done|].
    pose proof (Z.div_le_lower_bound s.(fuzz_bit_index) 8 FUZZ_BYTES_SIZE). lia. }
  unfold recorded, bits_of. destruct (decide _) as [Hrec|Hrec];
    [rewrite bool_decide_eq_true_2 by done|rewrite bool_decide_eq_false_2 by done].
  - unfold next_bit in E. cbn [fuzz_bytes fuzz_bit_index set_bit_index] in E.
    unfold bits_of in Hend. rewrite Z.add_0_r in *. rewrite (u32_id (fuzz_bit_index s + 1)) in E by (unfold is_u32; lia).
    destruct (get_bit (fuzz_bytes s) FUZZ_BYTES_SIZE (fuzz_bit_index s)).
    + rewrite (u32_id (fuzz_bit_index s + 1 + 1)) in E by (unfold is_u32; lia).
      injection E as <- <-. split; [by apply Hcount|]. split; [done|]. cbn [andb].
      split; [by destruct (get_bit _ _ (fuzz_bit_index s + 1))|]. split; [cbn; lia|]. intros Hge. by apply Hend in Hge.
    + injection E as <- <-. split; [by apply Hcount|]. by split; [|split; [|split]].
  - injection E as <- <-. split; [by apply Hcount|]. split; [done|]. split; [done|]. split; [cbn; lia|done].
Qed.

(** C19. A read or a write, as the kernel programs handle it: one of a process that is
    not under test is left alone.  For a server, on a descriptor that was not recorded
    nothing is drawn and nothing is injected; on a recorded one the next bit of the
    input decides whether a fault is injected and the one after it which, a failure or
    a delay; once the bits are used up there are no more faults.  Every event of a
    server is counted in exactly one slot of the map. *)
Theorem bpf_event pid k c fd s e s' :
  sys_io pid k c fd s = (e, s') → 0 <= s.(fuzz_bit_index) < 2 ^ 32 - 2 →
  let recorded := bool_decide (u32 fd < FD_SIZE ∧ nthZ s.(record_fds) (u32 fd) ≠ 0) in
  if is_current_pid_or_tgid pid k then
    counted s s' ∧ s'.(record_fds) = s.(record_fds) ∧
    (e = match recorded && bits_of s 0, bits_of s 1 with
         | false, _ => Pass
         | true, true => Override (-1)
         | true, false => Loop 204750
         end) ∧
    (s'.(fuzz_bit_index) = s.(fuzz_bit_index) + if recorded then (if bits_of s 0 then 2 else 1) else 0) ∧
    (FUZZ_BYTES_SIZE * 8 <= s.(fuzz_bit_index) → e = Pass)
  else e = Pass ∧ s' = s.
Proof.
  intros E Hi recorded. unfold sys_io in E. destruct (is_current_pid_or_tgid pid k).
  - by apply (handle_events_ok (io_is_send c) (s32 (io_length c))).
  - by injection E as <- <-.
Qed.

(** ** Recording descriptors *)

(** The files that are fuzzed. *)
Definition wanted (fname : list Z) : bool :=
  negb (existsb (λ p, str_contains fname p 256 (zlen p)) excluded) && bool_decide (nthZ fname 0 ≠ 0).

Definition slot (k : task) : nat := Z.to_nat (k.(current_pid) mod SHOULD_RECORD_SIZE).

Lemma nthZ_insert (l : list Z) a b v : 0 <= a < zlen l → 0 <= b →
  nthZ (<[Z.to_nat a := v]> l) b = if decide (a = b) then v else nthZ l b.
Proof.
  intros Ha Hb. unfold nthZ, zlen in *. case_decide as E.
  - subst b. by rewrite list_lookup_insert_eq by lia.
  - by rewrite list_lookup_insert_ne by lia.
Qed.

Lemma nthZ_insert_eq (l : list Z) a v : 0 <= a < zlen l → nthZ (<[Z.to_nat a := v]> l) a = v.
Proof. intros Ha. rewrite nthZ_insert by lia. by rewrite decide_True. Qed.

Lemma sys_open_run pid k fname s : is_current_pid_or_tgid pid k = true →
  sys_open pid k fname s = if wanted fname then set_should (<[slot k := 1]> s.(should_record)) s else s.
Proof.
  intros Hc. unfold sys_open, filter_by_filename, wanted. rewrite Hc. destruct (existsb _ excluded); [done|].
  cbn [negb andb]. case_decide as Hn; [by rewrite bool_decide_eq_true_2 by exact Hn|by rewrite bool_decide_eq_false_2 by auto].
Qed.

Lemma sys_open_exit_run pid k ret s : is_current_pid_or_tgid pid k = true → ret > 0 →
  sys_open_exit pid k ret s =
  if decide (nthZ s.(should_record) (k.(current_pid) mod SHOULD_RECORD_SIZE) ≠ 0)
  then mark_fd ret (set_should (<[slot k := 0]> s.(should_record)) s) else s.
Proof. intros Hc Hr. unfold sys_open_exit, record_fd. rewrite Hc. case_decide; [|done]. by rewrite decide_True. Qed.

Lemma marked ret s fd : length s.(record_fds) = 103%nat → 0 < ret < FD_SIZE → 0 <= fd →
  nthZ (mark_fd ret s).(record_fds) fd ≠ 0 ↔ nthZ s.(record_fds) fd ≠ 0 ∨ fd = ret.
Proof.
  intros Hl Hr Hfd. unfold mark_fd, FD_SIZE in *. cbn [set_fds record_fds].
  rewrite u64_id by (unfold is_u64; lia). rewrite Z.mod_small by lia.
  rewrite nthZ_insert by (unfold zlen; lia). case_decide; [subst; split; [by right|done]|].
  split; [by left|]. intros [?|?]; [done|congruence].
Qed.


(** A descriptor above the table is recorded at its remainder: a file that gets the
    number 105 makes the standard error stream a target, and so does a socket that is
    refused with an error for the descriptor 2^64 - error modulo 103. *)
Lemma fd_wraps s : length s.(record_fds) = 103%nat → nthZ (mark_fd 105 s).(record_fds) 2 = 1.
Proof.
  intros Hl. unfold mark_fd, FD_SIZE, nthZ. cbn [set_fds record_fds].
  change (Z.to_nat (u64 105 mod 103)) with 2%nat. by rewrite list_lookup_insert_eq by lia.
Qed.
Lemma failed_socket_recorded pid k s : is_current_pid_or_tgid pid k = true → length s.(record_fds) = 103%nat →
  nthZ (sys_socket_exit pid k (-24) s).(record_fds) (u64 (-24) mod 103) = 1.
Proof.
  intros Hc Hl. unfold sys_socket_exit, mark_fd, FD_SIZE, nthZ. rewrite Hc. cbn [set_fds record_fds].
  rewrite list_lookup_insert_eq; [done|]. rewrite Hl. vm_compute. lia.
Qed.

(** ** Witnesses *)

(** The name [/a.so]. *)
Definition demo_name : list Z := [47; 97; 46; 115; 111].


Definition demo_bpf : bpf := Bpf (replicate 103 0) (<[5%nat := 1]> (replicate 103 0)) [1] 0 ∅ 2 0.
Definition demo_task : task := Task None 77 77.

Lemma bpf_event_witness :
  let s' := (sys_io 77 demo_task (Writev [10; 20] 2) 5 demo_bpf).2 in
  counted demo_bpf s' ∧ s'.(record_fds) = demo_bpf.(record_fds) ∧ Loop 204750 = Loop 204750 ∧
  s'.(fuzz_bit_index) = 0 + 2 ∧ (FUZZ_BYTES_SIZE * 8 <= 0 → Loop 204750 = Pass).
Proof. apply (bpf_event 77 demo_task (Writev [10; 20] 2) 5 demo_bpf (Loop 204750) _ eq_refl). cbn. lia. Defined.

