(* ===== verification/Rr.v ===== *)
(** * Fault injection into system calls, by rr

    Models [rr/src/dst_fuzz.cc], the counterpart of the strace injector for servers that
    are recorded by rr.  The selection of files is that of strace, text for text. *)

From S2P Require Import Prelude.
From S2P Require Import TraceMap.
From S2P Require Import RandomFile.
From S2P Require Import Store.
From S2P Require Import Strace.

(** ** Coverage *)

Record rr_state := RrState {
  r_random : reader;
  r_flags : flags;
  r_map : gmap Z Z;
  r_event : Z;
}.
Definition set_r_random (r : reader) (s : rr_state) : rr_state := RrState r s.(r_flags) s.(r_map) s.(r_event).
Definition set_r_flags (f : flags) (s : rr_state) : rr_state := RrState s.(r_random) f s.(r_map) s.(r_event).

(** Reading the map; the index is unsigned. *)
Definition read_map (n : Z) : proc rr_state Z :=
  from_option (λ s, if decide (0 <= n < FUZZ_COVERAGE_MAP_SIZE) then Some (default 0 (s.(r_map) !! n)) else None).

(** The number of the call is declared [bool]; [ignore_range] is 1, so that there is
    one turn of the loop. *)
Definition rr_hash (e syscall_no length : Z) (fault_injected : bool) : Z :=
  u64 (Z.shiftl (u64 (e + Z.b2z (bool_decide (syscall_no ≠ 0)) * 10 + length)) (if fault_injected then 1 else 0))
    mod FUZZ_COVERAGE_MAP_SIZE.
Definition rr_get_hash_value (syscall_no length : Z) (fault_injected : bool) : proc rr_state Z :=
  e ← gets r_event;
  let h := rr_hash e syscall_no length fault_injected in
  a ← read_map (u64 (h - 1));
  if decide (a > 0) then mret (u64 (h - 1)) else
  b ← read_map (u64 (h + 1));
  if decide (b > 0) then mret (u64 (h + 1)) else
  modify (λ s, RrState s.(r_random) s.(r_flags) s.(r_map) (u64 (s.(r_event) + 1))) ;;
  mret h.

(** ** The handler *)

(** What becomes of the call. *)
Inductive rr_effect := RrNone | RrDelay (us : Z) | RrFail (result : Z).

Definition r_draw8 : proc rr_state Z := zoom r_random set_r_random dst_get_random_uint8_t.
Definition r_draw16 : proc rr_state Z := zoom r_random set_r_random dst_get_random_uint16_t.

Section rr.
Context `{!Tracee}.

Definition rr_decide (is_eventfd : bool) (error_codes : list Z) : proc rr_state rr_effect :=
  match getenv "NO_FAULT" with
  | Some _ => mret RrNone
  | None =>
      random ← r_draw8;
      if decide (random < 50) then mret RrNone else
      k ← r_draw8;
      if decide (k mod 2 = 0) then
        n ← r_draw16;
        mret (RrDelay (n mod MAX_DELAY_MILLSECONDS * 1000))
      else if is_eventfd then mret (RrFail (- EAGAIN)) else
        b ← r_draw8;
        c ← from_option (λ _, error_codes !! Z.to_nat (b mod zlen error_codes));
        mret (RrFail (- c))
  end.

(** [fd] is the first argument of the call. *)
Definition rr_handle_random_event (syscall_no fd length : Z) (error_codes : list Z) : proc rr_state rr_effect :=
  f ← zoom r_flags set_r_flags get_is_fuzzing;
  if negb f then mret RrNone else
  if decide (fd < 3) then mret RrNone else
  match readlink fd with
  | None => mret RrNone
  | Some file_path =>
      match classify file_path with
      | Skip => mret RrNone
      | k =>
          e ← rr_decide (if k is File true then true else false) error_codes;
          h ← rr_get_hash_value syscall_no length (if e is RrNone then false else true);
          v ← read_map h;
          modify (λ s, RrState s.(r_random) s.(r_flags) (<[h := u8 (v + 1)]> s.(r_map)) s.(r_event)) ;;
          mret e
      end
  end.

(** A call of a recorded task: its number, its first and third argument, and what
    [read_mem] finds at the second: the lengths of the parts of a vector, the lengths
    of the parts of a message, or the lengths of several messages. *)
Record record_task := RecordTask {
  original_syscallno : Z;
  arg1 : Z;
  arg3 : Z;
  at_iovs : list Z;
  at_msg_iovs : list Z;
  at_mmsgs : list Z;
}.

(** [get_length_from_iovec], [get_length_from_msg] and [get_length_from_mmsg] on what was
    read. *)
Definition sum_lengths (l : list Z) : Z := foldl (λ length x, u64 (length + x)) 0 l.

(** The codes and the length with which a call is handled: [read] 0, [write] 1,
    [readv] 19, [preadv] 295, [preadv2] 327, [writev] 20, [pwritev] 296, [pwritev2] 328,
    [recvfrom] 45, [sendto] 44, [recvmsg] 47, [sendmsg] 46, [recvmmsg] 299 and
    [sendmmsg] 307. *)
Definition rr_handled (t : record_task) : option (list Z * Z) :=
  let n := t.(original_syscallno) in
  if decide (n = 0) then Some (READ_ERROR_CODES, u64 t.(arg3)) else
  if decide (n = 1) then Some (WRITE_ERROR_CODES, u64 t.(arg3)) else
  if decide (n ∈ [19; 295; 327]) then Some (READ_ERROR_CODES, sum_lengths t.(at_iovs)) else
  if decide (n ∈ [20; 296; 328]) then Some (WRITE_ERROR_CODES, sum_lengths t.(at_iovs)) else
  if decide (n = 45) then Some (READ_ERROR_CODES, u64 t.(arg3)) else
  if decide (n = 44) then Some (WRITE_ERROR_CODES, u64 t.(arg3)) else
  if decide (n = 47) then Some (READ_ERROR_CODES, sum_lengths t.(at_msg_iovs)) else
  if decide (n = 46) then Some (WRITE_ERROR_CODES, sum_lengths t.(at_msg_iovs)) else
  if decide (n = 299) then Some (READ_ERROR_CODES, sum_lengths t.(at_mmsgs)) else
  if decide (n = 307) then Some (WRITE_ERROR_CODES, sum_lengths t.(at_mmsgs)) else None.

(** A call, once the map is attached; the first slot is cleared at the end. *)
Definition dst_fuzz (t : record_task) : proc rr_state rr_effect :=
  e ← (match rr_handled t with
       | Some (codes, length) => rr_handle_random_event t.(original_syscallno) (s32 t.(arg1)) length codes
       | None => mret RrNone
       end);
  modify (λ s, RrState s.(r_random) s.(r_flags) (<[0 := 0]> s.(r_map)) s.(r_event)) ;;
  mret e.

(** ** The slot of an event *)

Lemma rr_hash_range e n length b : 0 <= rr_hash e n length b < FUZZ_COVERAGE_MAP_SIZE.
Proof. apply Z.mod_pos_bound. unfold FUZZ_COVERAGE_MAP_SIZE. lia. Qed.

(** The slot of an event under rr: at the first place of the map, and at the last one
    when its lower neighbour was not hit, the code reads outside of the map; everywhere
    else the slot is the hash or a neighbour of it that was hit before, and the events
    are numbered on only when it is the hash. *)
Theorem rr_slot n length b (s : rr_state) :
  let h := rr_hash s.(r_event) n length b in
  let seen i := 0 < default 0 (s.(r_map) !! i) in
  match rr_get_hash_value n length b s with
  | (Norm x, s') =>
      0 <= x < FUZZ_COVERAGE_MAP_SIZE ∧ s'.(r_map) = s.(r_map) ∧
      (x = h ∧ s'.(r_event) = u64 (s.(r_event) + 1) ∧ ¬ seen (h - 1) ∧ ¬ seen (h + 1) ∨
       (x = h - 1 ∨ x = h + 1) ∧ seen x ∧ s' = s)
  | (UB, _) => h = 0 ∨ h = FUZZ_COVERAGE_MAP_SIZE - 1 ∧ ¬ seen (h - 1)
  | _ => False
  end.
Proof.
  intros h seen. pose proof (rr_hash_range s.(r_event) n length b) as Hh. fold h in Hh.
  unfold FUZZ_COVERAGE_MAP_SIZE in *. unfold rr_get_hash_value, mbind, proc_bind, gets, read_map, from_option, FUZZ_COVERAGE_MAP_SIZE.
  fold h. destruct (decide (h = 0)) as [E|Hne].
  { rewrite E. change (u64 (0 - 1)) with (2 ^ 64 - 1). rewrite decide_False by lia. by left. }
  rewrite (u64_id (h - 1)), (u64_id (h + 1)) by (unfold is_u64; lia). rewrite decide_True by lia.
  unfold seen in *. destruct (decide (default 0 (r_map s !! (h - 1)) > 0)) as [Ha|Ha].
  { split; [lia|]. split; [done|]. right. split; [by left|]. split; [lia|done]. }
  destruct (decide (0 <= h + 1 < 2 ^ 23)) as [Hin|Hout]; [|right; split; lia].
  destruct (decide (default 0 (r_map s !! (h + 1)) > 0)) as [Hb|Hb]; cbn.
  - split; [lia|]. split; [done|]. right. split; [by right|]. split; [lia|done].
  - split; [lia|]. split; [done|]. left. split; [done|]. split; [done|]. split; lia.
Qed.
End rr.
