(* ===== verification/Cpu.v ===== *)
(** * Binding the fuzzer to a free processor

    [fuzz/fuzzer/old/Setup.cpp]: [GetCoreCount] and [BindFreeCPU], which look for a
    core that no process of [/proc] is pinned to.  [main] has the two calls in a
    comment.  [/proc] is a parameter: for each entry its name and, when its status can
    be opened, the lines that [fgets] reads from it.  The load average that
    [GetRunnableProcesses] computes is only printed and is left out. *)

From Stdlib Require Import Ascii.
From S2P Require Import Prelude.
From S2P Require Import Decimal.

(** [sysconf], [opendir("/proc")] with its entries ([None]: it failed), and the result
    of [sched_setaffinity] for a core. *)
Class Cores := {
  online : Z;
  proc_entries : option (list (string * option (list string)));
  set_affinity : Z → Z;
}.

Record cpus := Cpus { cpu_core_count : Z; cpu_aff : Z }.
Definition CPU_USED_SIZE : Z := 4096.

(** [strchr(tmp, c) != NULL] *)
Fixpoint has_char (c : ascii) (s : string) : bool :=
  match s with EmptyString => false | String d t => bool_decide (c = d) || has_char c t end.

(** [sscanf(s, "%u", &v)]; numbers that are too large are stored as the largest one. *)
Definition scan_u32 (s : string) : option Z :=
  v ← scan_int s; Some (if decide (Z.abs v < 2 ^ 64) then u32 v else 2 ^ 32 - 1).

Definition allowed_prefix : string := "Cpus_allowed_list:" +:+ String (ascii_of_nat 9) EmptyString.
Definition vmsize_prefix : string := "VmSize:" +:+ String (ascii_of_nat 9) EmptyString.

(** The condition on a line: one core, and not a list of them. *)
Definition pinned_line (tmp : string) : option Z :=
  if String.prefix allowed_prefix tmp && negb (has_char "-" tmp) && negb (has_char "," tmp)
  then v ← scan_u32 (String.substring 19 (String.length tmp - 19) tmp);
       if decide (v < CPU_USED_SIZE) then Some v else None
  else None.

(** The core that a process is pinned to; kernel threads have no [VmSize]. *)
Fixpoint pinned (lines : list string) (has_vmsize : bool) : option Z :=
  match lines with
  | [] => None
  | tmp :: lines =>
      let has_vmsize := String.prefix vmsize_prefix tmp || has_vmsize in
      match pinned_line tmp with
      | Some v => if has_vmsize then Some v else pinned lines has_vmsize
      | None => pinned lines has_vmsize
      end
  end.

Definition is_digit (s : string) : bool :=
  match s with String c _ => bool_decide (is_Some (digit_of c)) | EmptyString => false end.

(** The core that an entry of [/proc] occupies. *)
Definition occupied (e : string * option (list string)) : option Z :=
  if is_digit e.1 then lines ← e.2; pinned lines false else None.

Definition mark (cpu_used : list Z) (e : string * option (list string)) : list Z :=
  match occupied e with Some v => <[Z.to_nat v := 1]> cpu_used | None => cpu_used end.

(** [for (i = lo; ...; i++) if (!cpu_used[i]) break;] for [n] more cores; [None] is a
    read outside of the array. *)
Fixpoint first_free (cpu_used : list Z) (i : Z) (n : nat) : option Z :=
  match n with
  | O => Some i
  | S n' => v ← cpu_used !! Z.to_nat i; if decide (v = 0) then Some i else first_free cpu_used (i + 1) n'
  end.

Section cpu.
Context `{!Cores}.

Definition GetCoreCount : proc cpus unit :=
  modify (λ c, Cpus (if decide (online > 1) then online else 0) c.(cpu_aff)).

Definition BindFreeCPU : proc cpus unit :=
  n ← gets cpu_core_count;
  if decide (n < 2) then mret tt else
  match proc_entries with
  | None => exit_ (-1)
  | Some entries =>
      let cpu_used := foldl mark (replicate (Z.to_nat CPU_USED_SIZE) 0) entries in
      i ← from_option (λ _, first_free cpu_used 0 (Z.to_nat n));
      if decide (i = n) then exit_ (-1) else
      modify (λ c, Cpus c.(cpu_core_count) i) ;;
      if decide (set_affinity i ≠ 0) then exit_ (-1) else mret tt
  end.
End cpu.

(** ** The core is free *)

Lemma pinned_range lines b v : pinned lines b = Some v → 0 <= v < CPU_USED_SIZE.
Proof.
  revert b. induction lines as [|tmp lines IH]; intros b; [done|]. cbn [pinned].
  destruct (pinned_line tmp) as [w|] eqn:E; [|apply IH].
  destruct (_ || b); [|apply IH]. intros [= <-]. unfold pinned_line in E.
  destruct (_ && _); [|done]. destruct (scan_u32 _) as [u|] eqn:Hs; [|done]. cbn in E.
  case_decide; [|done]. injection E as ->. unfold scan_u32 in Hs. destruct (scan_int _); [|done]. cbn in Hs.
  injection Hs as <-. case_decide; [|unfold CPU_USED_SIZE in *; lia]. pose proof (u32_range z) as Hu. unfold is_u32 in Hu. lia.
Qed.

Lemma mark_spec used e i : zlen used = CPU_USED_SIZE → 0 <= i < CPU_USED_SIZE →
  zlen (mark used e) = CPU_USED_SIZE ∧
  (nthZ (mark used e) i ≠ 0 ↔ nthZ used i ≠ 0 ∨ occupied e = Some i).
Proof.
  intros Hl Hi. unfold mark. destruct (occupied e) as [v|] eqn:E; [|split; [done|]; split; [by left|by intros [?|?]]].
  assert (0 <= v < CPU_USED_SIZE) as Hv.
  { unfold occupied in E. destruct (is_digit e.1); [|done]. destruct e.2; [|done]. by eapply pinned_range. }
  split; [unfold zlen in *; by rewrite length_insert|]. unfold nthZ.
  destruct (decide (v = i)) as [->|Hne].
  - rewrite list_lookup_insert_eq by (unfold zlen in Hl; lia). split; [by right|done].
  - rewrite list_lookup_insert_ne by lia. split; [by left|]. intros [?|[=]]; done.
Qed.

Lemma marks_spec entries used i : zlen used = CPU_USED_SIZE → 0 <= i < CPU_USED_SIZE →
  zlen (foldl mark used entries) = CPU_USED_SIZE ∧
  (nthZ (foldl mark used entries) i ≠ 0 ↔ nthZ used i ≠ 0 ∨ ∃ e, e ∈ entries ∧ occupied e = Some i).
Proof.
  revert used. induction entries as [|e entries IH]; intros used Hl Hi.
  { cbn. split; [done|]. split; [by left|]. intros [?|(e&He&_)]; [done|by apply elem_of_nil in He]. }
  cbn [foldl]. destruct (mark_spec used e i Hl Hi) as [Hl' Hm]. destruct (IH (mark used e) Hl' Hi) as [? IH'].
  split; [done|]. rewrite IH', Hm. split.
  - intros [[?|?]|(e'&?&?)]; [by left|right..]; [exists e|exists e']; set_solver.
  - intros [?|(e'&[->|?]%elem_of_cons&?)]; [by left; left|left; by right|right; by exists e'].
Qed.

Lemma first_free_spec used n i : zlen used = CPU_USED_SIZE → 0 <= i → i + Z.of_nat n <= CPU_USED_SIZE →
  ∃ k, first_free used i n = Some k ∧ i <= k <= i + Z.of_nat n ∧
    (∀ j, i <= j < k → nthZ used j ≠ 0) ∧ (k < i + Z.of_nat n → nthZ used k = 0).
Proof.
  intros Hl. revert i. induction n as [|n IH]; intros i Hi Hn; cbn [first_free].
  { exists i. split; [done|]. split; [lia|]. split; [lia|]. lia. }
  destruct (used !! Z.to_nat i) as [v|] eqn:E; [|apply lookup_ge_None in E; unfold zlen in Hl; lia].
  cbn [mbind option_bind]. assert (nthZ used i = v) as Hv by (unfold nthZ; by rewrite E). case_decide as Hz.
  - exists i. split; [done|]. split; [lia|]. split; [lia|]. by rewrite Hv.
  - destruct (IH (i + 1)) as (k&->&Hk&Hused&Hfree); [lia..|]. exists k. split; [done|]. split; [lia|].
    split; [|intros; apply Hfree; lia]. intros j Hj. destruct (decide (j = i)) as [->|]; [by rewrite Hv|]. apply Hused. lia.
Qed.

(** On a machine of at most 4096 cores, [BindFreeCPU] binds to the first core that no
    process is pinned to; it exits when there is none. *)
Theorem BindFreeCPU_free `{!Cores} c : 2 <= c.(cpu_core_count) <= CPU_USED_SIZE →
  wp BindFreeCPU (λ _ c', c'.(cpu_core_count) = c.(cpu_core_count) ∧
      0 <= c'.(cpu_aff) < c.(cpu_core_count) ∧ set_affinity c'.(cpu_aff) = 0 ∧
      ∃ entries, proc_entries = Some entries ∧
        (∀ e, e ∈ entries → occupied e ≠ Some c'.(cpu_aff)) ∧
        ∀ j, 0 <= j < c'.(cpu_aff) → ∃ e, e ∈ entries ∧ occupied e = Some j)
    (λ _ _, False) (λ code _, code = -1) c.
Proof.
  intros Hn. unfold BindFreeCPU. wp_step. wp_step. rewrite decide_False by lia.
  destruct proc_entries as [entries|]; [|by wp_step]. cbv zeta. wp_step.
  set (used0 := replicate (Z.to_nat CPU_USED_SIZE) 0).
  assert (zlen used0 = CPU_USED_SIZE) as Hl0 by (unfold used0, zlen; by rewrite length_replicate).
  assert (∀ j, 0 <= j < CPU_USED_SIZE → nthZ (foldl mark used0 entries) j ≠ 0 ↔ ∃ e, e ∈ entries ∧ occupied e = Some j) as Hm.
  { intros j Hj. destruct (marks_spec entries used0 j Hl0 Hj) as [_ ->]. split; [|by right].
    intros [Hz|?]; [|done]. destruct Hz. unfold nthZ, used0. rewrite lookup_replicate_2; [done|lia]. }
  destruct (marks_spec entries used0 0 Hl0) as [Hl _]; [done|].
  destruct (first_free_spec (foldl mark used0 entries) (Z.to_nat c.(cpu_core_count)) 0 Hl) as (k&E&Hk&Hused&Hfree); [lia..|].
  eapply wp_from_option; [exact E|]. wp_step; [by wp_step|]. wp_step. wp_step. wp_step; [by wp_step|]. wp_step.
  cbn. split; [done|]. split; [lia|]. split; [by apply dec_stable|]. exists entries. split; [done|]. split.
  - intros e He Ho. apply (proj2 (Hm k ltac:(lia))); [by exists e|]. apply Hfree. lia.
  - intros j Hj. apply Hm; [lia|]. apply Hused. lia.
Qed.
