(* ===== verification/Concurrency.v ===== *)
(** * Fuzzing the interleavings

    [fuzz/fuzzer/old/DelayInsertionEngin.cpp], which the build leaves out with
    [NO_CONCURRENCY_FUZZ]: the fuzzer asks the target to run two accesses, named by
    their hashes, next to each other, and mutates this request along the accesses that
    a run has seen side by side.  What [FuzzUnit] does to the matrices is modelled here;
    everything else of it, the run of the target included, is the class [Race].

    A matrix is an array of pairs that ends at the first pair of zeros; its length is
    the capacity of the array. *)

From S2P Require Import Prelude.

Record matrix_element := Element { hash_1 : Z; hash_2 : Z }.

#[export] Instance matrix_element_eq_dec : EqDecision matrix_element.
Proof. solve_decision. Defined.

Definition zero : matrix_element := Element 0 0.
Definition is_zero (e : matrix_element) : bool := bool_decide (e.(hash_1) = 0 ∧ e.(hash_2) = 0).

Definition CONTROL_MATRIX_SIZE : Z := Z.shiftl 1 10.
Definition ADJACENCY_MATRIX_SIZE : Z := Z.shiftl 1 16.
Definition TRAVEL_MATRIX_SIZE : Z := Z.shiftl 1 24.

(** ** Hashing and comparing *)

(** [while (hash_sum != 0)]: sixteen shifts clear a word of 64 bits. *)
Fixpoint hash_from (fuel : nat) (hash_sum new_hash : Z) : option Z :=
  if decide (hash_sum = 0) then Some new_hash else
  match fuel with
  | O => None
  | S fuel' => hash_from fuel' (Z.shiftr hash_sum 4) (u64 (131 * new_hash + Z.lxor hash_sum 15))
  end.
Definition hashes2hash (h1 h2 : Z) : option Z := hash_from 16 (u64 (h1 + h2)) 0.
#[global] Arguments hashes2hash : simpl never.

Fixpoint num_of_matrix_elemet (matrix : list matrix_element) (len : nat) : option Z :=
  match len, matrix with
  | O, _ => Some 0
  | S _, [] => None
  | S len', e :: matrix' =>
      if is_zero e then Some 0 else n ← num_of_matrix_elemet matrix' len'; Some (u32 (n + 1))
  end.

Definition compare_matrix_element (a b : matrix_element) : bool :=
  bool_decide (a.(hash_1) = b.(hash_1) ∧ a.(hash_2) = b.(hash_2)) ||
  bool_decide (a.(hash_1) = b.(hash_2) ∧ a.(hash_2) = b.(hash_1)).

(** The pairs before the first pair of zeros. *)
Fixpoint used (m : list matrix_element) : list matrix_element :=
  match m with
  | [] => []
  | e :: m' => if is_zero e then [] else e :: used m'
  end.

(** The loop over the control matrix ends where the {i travel} matrix has a first hash
    of zero at the same index and the control matrix a second one.  [rest] is the travel
    matrix from that index on. *)
Fixpoint triggered_from (control rest travel : list matrix_element) : option bool :=
  match control, rest with
  | [], _ => Some false
  | _ :: _, [] => None
  | c :: control', t :: rest' =>
      if decide (t.(hash_1) = 0 ∧ c.(hash_2) = 0) then Some false else
      if existsb (compare_matrix_element c) (used travel) then Some true
      else triggered_from control' rest' travel
  end.
Definition is_control_matrix_triggered (control travel : list matrix_element) : option bool :=
  triggered_from control travel travel.

(** The control pairs that a run has followed, once for each time it did; the array
    for them has [size] places. *)
Definition enable_row (size : nat) (c : matrix_element) (acc : option (list matrix_element))
    (t : matrix_element) : option (list matrix_element) :=
  acc ← acc;
  if compare_matrix_element c t
  then if decide (length acc < size)%nat then Some (acc ++ [c]) else None
  else Some acc.
Fixpoint enabled_from (size : nat) (control rest travel acc : list matrix_element)
    : option (list matrix_element) :=
  match control, rest with
  | [], _ => Some acc
  | _ :: _, [] => None
  | c :: control', t :: rest' =>
      if decide (t.(hash_1) = 0 ∧ c.(hash_2) = 0) then Some acc else
      acc ← foldl (enable_row size c) (Some acc) (used travel);
      enabled_from size control' rest' travel acc
  end.

(** ** The state *)

(** [tested] records the pairs that were given to a run of the target. *)
Record racer (W : Type) := Racer {
  control_matrix : list matrix_element;
  adjacency_matrix : list matrix_element;
  travel_matrix : list matrix_element;
  new_control_matrix : list matrix_element;
  total_travel : gset Z;
  unreachable_control_matrix : gset Z;
  concurrency_test_time : Z;
  skip_since_travel : Z;
  skip_since_unreachable : Z;
  rest : W;
  tested : list matrix_element;
}.
Arguments Racer {W}.
Arguments control_matrix {W}.
Arguments adjacency_matrix {W}.
Arguments travel_matrix {W}.
Arguments new_control_matrix {W}.
Arguments total_travel {W}.
Arguments unreachable_control_matrix {W}.
Arguments concurrency_test_time {W}.
Arguments skip_since_travel {W}.
Arguments skip_since_unreachable {W}.
Arguments rest {W}.
Arguments tested {W}.

(** One run of the target under a control matrix, with all that [FuzzUnit] does besides
    the matrices: the adjacency and travel matrices that the run leaves, or nothing
    when the fuzzer exits. *)
Class Race (W : Type) := {
  race : list matrix_element → W → option (list matrix_element * list matrix_element * W);
}.

Section engine.
Context {W : Type} `{!Race W}.
Abbreviation S := (racer W).

Definition set_ran (c a t : list matrix_element) (w : W) (s : S) : S :=
  Racer c a t s.(new_control_matrix) s.(total_travel) s.(unreachable_control_matrix)
    s.(concurrency_test_time) s.(skip_since_travel) s.(skip_since_unreachable) w s.(tested).
Definition set_new_control (m : list matrix_element) (s : S) : S :=
  Racer s.(control_matrix) s.(adjacency_matrix) s.(travel_matrix) m s.(total_travel)
    s.(unreachable_control_matrix) s.(concurrency_test_time) s.(skip_since_travel)
    s.(skip_since_unreachable) s.(rest) s.(tested).
Definition set_known (travel unreachable : gset Z) (s : S) : S :=
  Racer s.(control_matrix) s.(adjacency_matrix) s.(travel_matrix) s.(new_control_matrix) travel
    unreachable s.(concurrency_test_time) s.(skip_since_travel) s.(skip_since_unreachable)
    s.(rest) s.(tested).
Definition set_stats (time travel unreachable : Z) (s : S) : S :=
  Racer s.(control_matrix) s.(adjacency_matrix) s.(travel_matrix) s.(new_control_matrix)
    s.(total_travel) s.(unreachable_control_matrix) time travel unreachable s.(rest) s.(tested).
Definition log_tested (e : matrix_element) (s : S) : S :=
  Racer s.(control_matrix) s.(adjacency_matrix) s.(travel_matrix) s.(new_control_matrix)
    s.(total_travel) s.(unreachable_control_matrix) s.(concurrency_test_time)
    s.(skip_since_travel) s.(skip_since_unreachable) s.(rest) (s.(tested) ++ [e]).

Definition hash_pair (h1 h2 : Z) : proc S Z := λ s,
  match hashes2hash h1 h2 with Some h => (Norm h, s) | None => (Diverge, s) end.

Fixpoint until_zero (m : list matrix_element) (body : matrix_element → proc S unit) : proc S unit :=
  match m with
  | [] => mret tt
  | e :: m' => if is_zero e then mret tt else body e ;; until_zero m' body
  end.

(** The flag of [has_new_travel_matrix_element]. *)
Fixpoint new_travel (m : list matrix_element) (flag : Z) : proc S Z :=
  match m with
  | [] => mret flag
  | e :: m' =>
      if is_zero e then mret flag else
      h ← hash_pair e.(hash_1) e.(hash_2);
      known ← gets total_travel;
      if decide (h ∈ known) then new_travel m' flag else
      modify (λ s, set_known ({[h]} ∪ s.(total_travel)) s.(unreachable_control_matrix) s) ;;
      new_travel m' 1
  end.
Definition has_new_travel_matrix_element : proc S Z :=
  m ← gets travel_matrix; new_travel m 0.

(** [FuzzUnit] with a control matrix, and the part of [AddInterestingSeed] that is left
    out by [NO_CONCURRENCY_FUZZ]. *)
Definition FuzzUnit_cm (tmp_cm : list matrix_element) : proc S Z :=
  w ← gets rest;
  match race tmp_cm w with
  | None => exit_ (-1)
  | Some (a, t, w') => modify (set_ran tmp_cm a t w') ;; has_new_travel_matrix_element ;; mret 0
  end.

Definition one_element_cm_test (h1 h2 : Z) : proc S unit :=
  hash_total ← hash_pair h1 h2;
  s ← gets id;
  if decide (hash_total ∈ s.(total_travel)) then
    modify (λ s, set_stats s.(concurrency_test_time) (s32 (s.(skip_since_travel) + 1))
      s.(skip_since_unreachable) s) ;;
    return_ 0
  else if decide (hash_total ∈ s.(unreachable_control_matrix)) then
    modify (λ s, set_stats s.(concurrency_test_time) s.(skip_since_travel)
      (s32 (s.(skip_since_unreachable) + 1)) s) ;;
    return_ 0
  else
    m ← from_option (λ s, blit s.(new_control_matrix) 0 [Element h1 h2]);
    modify (set_new_control m) ;;
    modify (log_tested (Element h1 h2)) ;;
    r ← FuzzUnit_cm m;
    if decide (r ≠ 0) then return_ 1 else
    b ← from_option (λ s, is_control_matrix_triggered s.(new_control_matrix) s.(travel_matrix));
    when (negb b)
      (modify (λ s, set_known s.(total_travel) ({[hash_total]} ∪ s.(unreachable_control_matrix)) s)) ;;
    modify (λ s, set_stats (s32 (s.(concurrency_test_time) + 1)) s.(skip_since_travel)
      s.(skip_since_unreachable) s) ;;
    return_ 0.

(** [if (cond && one_element_cm_test(...)) return 1;] *)
Definition test_if (cond : bool) (h1 h2 : Z) : proc S unit :=
  if cond then (r ← call (one_element_cm_test h1 h2); if decide (r ≠ 0) then return_ 1 else mret tt)
  else mret tt.

Definition mutate_based_on_adjacency (matrix : list matrix_element) (matrix_len : nat)
    (tmp_am : list matrix_element) : proc S unit :=
  until_zero (take matrix_len matrix) (λ cm,
    until_zero tmp_am (λ am,
      test_if (bool_decide (cm.(hash_1) = am.(hash_1))) cm.(hash_2) am.(hash_2) ;;
      test_if (bool_decide (cm.(hash_1) = am.(hash_2))) cm.(hash_2) am.(hash_1) ;;
      test_if (bool_decide (cm.(hash_2) = am.(hash_1))) cm.(hash_1) am.(hash_2) ;;
      test_if (bool_decide (cm.(hash_2) = am.(hash_2))) cm.(hash_1) am.(hash_1))) ;;
  return_ 0.

Definition control_matrix_mutate (size : nat) (tmp_control_matrix : list matrix_element) : proc S unit :=
  r ← FuzzUnit_cm tmp_control_matrix;
  if decide (r ≠ 0) then return_ 1 else
  tmp_adjacency_matrix ← gets adjacency_matrix;
  tmp_travel_matrix ← gets travel_matrix;
  enable ← from_option (λ _, enabled_from size tmp_control_matrix tmp_travel_matrix tmp_travel_matrix []);
  modify (set_new_control (replicate size zero)) ;;
  r ← (if decide (zlen enable > 0)
       then call (mutate_based_on_adjacency enable (length enable) tmp_adjacency_matrix)
       else mret 0);
  if decide (r ≠ 0) then return_ 1 else
  r ← call (mutate_based_on_adjacency tmp_travel_matrix (length tmp_travel_matrix) tmp_adjacency_matrix);
  if decide (r ≠ 0) then return_ 1 else return_ 0.
End engine.

(** ** Hashes *)

Lemma hash_from_total fuel hash_sum new_hash :
  0 <= hash_sum < 2 ^ (4 * Z.of_nat fuel) → is_u64 new_hash →
  ∃ h, hash_from fuel hash_sum new_hash = Some h ∧ is_u64 h.
Proof.
  revert hash_sum new_hash. induction fuel as [|fuel IH]; intros sum h Hs Hh; cbn [hash_from].
  - change (2 ^ (4 * Z.of_nat 0)) with 1 in Hs. rewrite decide_True by lia. by exists h.
  - case_decide; [by exists h|]. apply IH; [|apply u64_range].
    rewrite Z.shiftr_div_pow2 by lia. split; [apply Z.div_pos; lia|].
    apply Z.div_lt_upper_bound; [lia|]. rewrite <-Z.pow_add_r by lia.
    replace (4 + 4 * Z.of_nat fuel) with (4 * Z.of_nat (S fuel)) by lia. lia.
Qed.

(** The loop ends within its sixteen rounds, and the order of a pair does not matter. *)
Lemma hashes2hash_total h1 h2 : ∃ h, hashes2hash h1 h2 = Some h ∧ is_u64 h.
Proof. apply hash_from_total; [apply u64_range|]. unfold is_u64. lia. Qed.

Lemma hashes2hash_comm h1 h2 : hashes2hash h1 h2 = hashes2hash h2 h1.
Proof. unfold hashes2hash. by rewrite Z.add_comm. Qed.

(** Different pairs with the same sum are taken for one: the second is never tried. *)
Lemma hash_collision : hashes2hash 1 4 = hashes2hash 2 3.
Proof. vm_compute. reflexivity. Qed.

Definition pair_hash (e : matrix_element) : Z := default 0 (hashes2hash e.(hash_1) e.(hash_2)).
#[global] Arguments pair_hash : simpl never.
Definition hashes (l : list matrix_element) : gset Z := list_to_set (pair_hash <$> l).

Lemma hashes2hash_pair h1 h2 : hashes2hash h1 h2 = Some (pair_hash (Element h1 h2)).
Proof. unfold pair_hash. cbn [hash_1 hash_2]. by destruct (hashes2hash_total h1 h2) as (h&->&_). Qed.

Lemma compare_hash a b : compare_matrix_element a b = true → pair_hash a = pair_hash b.
Proof.
  unfold compare_matrix_element, pair_hash. rewrite orb_true_iff, !bool_decide_eq_true.
  intros [[-> ->]|[-> ->]]; [done|]. by rewrite hashes2hash_comm.
Qed.

Lemma elem_of_hashes h l : h ∈ hashes l ↔ ∃ e, e ∈ l ∧ h = pair_hash e.
Proof. unfold hashes. rewrite elem_of_list_to_set, list_elem_of_fmap. naive_solver. Qed.

(** ** The used part of a matrix *)

Lemma used_nonzero m e : e ∈ used m → is_zero e = false.
Proof.
  induction m as [|x m IH]; cbn; [by intros []%not_elem_of_nil|].
  destruct (is_zero x) eqn:E; [by intros []%not_elem_of_nil|]. by intros [->|?]%elem_of_cons; [|apply IH].
Qed.

Lemma used_length m : (length (used m) <= length m)%nat.
Proof. induction m as [|e m IH]; cbn; [done|]. destruct (is_zero e); cbn; lia. Qed.

(** [num_of_matrix_elemet] counts the used part. *)
Lemma num_of_used m : zlen m < 2 ^ 32 → num_of_matrix_elemet m (length m) = Some (zlen (used m)).
Proof.
  induction m as [|e m IH]; [done|]. intros Hl. cbn [length num_of_matrix_elemet used].
  destruct (is_zero e); [done|]. unfold zlen in *. cbn [length] in *. rewrite IH by lia. cbn.
  pose proof (used_length m). rewrite u32_id by (unfold is_u32; lia). f_equal. lia.
Qed.

Lemma compare_zero t : is_zero t = false → compare_matrix_element zero t = false.
Proof.
  unfold is_zero, compare_matrix_element, zero. cbn. rewrite bool_decide_eq_false, orb_false_iff, !bool_decide_eq_false.
  naive_solver.
Qed.

Lemma existsb_zero m : existsb (compare_matrix_element zero) (used m) = false.
Proof.
  apply not_true_iff_false. intros (t&Ht&Hc)%existsb_exists.
  apply list_elem_of_In, used_nonzero, compare_zero in Ht. congruence.
Qed.

(** Only the first place of the control matrix counts when the others are empty. *)
Lemma triggered_zeros n rest travel : (n <= length rest)%nat →
  triggered_from (replicate n zero) rest travel = Some false.
Proof.
  revert rest. induction n as [|n IH]; [done|]. intros [|t rest] Hn; cbn in Hn |- *; [lia|].
  case_decide; [done|]. rewrite existsb_zero. apply IH. lia.
Qed.

Lemma triggered_single e n travel : (S n <= length travel)%nat →
  ∃ b, is_control_matrix_triggered (e :: replicate n zero) travel = Some b ∧
    (b = true → pair_hash e ∈ hashes (used travel)).
Proof.
  unfold is_control_matrix_triggered. destruct travel as [|t travel]; cbn [length]; intros Hn; [lia|].
  cbn [triggered_from]. case_decide; [by exists false|].
  destruct (existsb _ _) eqn:Ex.
  - exists true. split; [done|]. intros _. apply existsb_exists in Ex as (u&Hu&Hc).
    apply elem_of_hashes. exists u. split; [by apply list_elem_of_In|]. by apply compare_hash.
  - exists false. split; [|done]. apply triggered_zeros. lia.
Qed.

(** ** The engine *)

(** The matrices have the sizes of the shared memory. *)
Class RaceOK (W : Type) `{!Race W} (size : nat) := {
  race_sizes m w a t w' : race m w = Some (a, t, w') → (size <= length t)%nat;
}.

Section proofs.
Context {W : Type} `{!Race W} (size : nat) `{!RaceOK W size}.
Abbreviation S := (racer W).

(** A pair is settled when a run has seen it, or has shown that it cannot be had. *)
Definition settled (s : S) (e : matrix_element) : Prop :=
  pair_hash e ∈ s.(total_travel) ∪ s.(unreachable_control_matrix).

(** What a part of the search does: nothing that is settled is tried, everything that is
    tried is settled in the end, and nothing is tried twice. *)
Record searched (s s' : S) (new : list matrix_element) : Prop := Searched {
  sd_tested : s'.(tested) = s.(tested) ++ new;
  sd_travel : s.(total_travel) ⊆ s'.(total_travel);
  sd_unreachable : s.(unreachable_control_matrix) ⊆ s'.(unreachable_control_matrix);
  sd_fresh : Forall (λ e, ¬ settled s e) new;
  sd_once : NoDup (pair_hash <$> new);
  sd_settled : Forall (settled s') new;
}.
Definition search (s s' : S) : Prop := ∃ new, searched s s' new.

Lemma settled_mono s s' e : search s s' → settled s e → settled s' e.
Proof. intros (new&[_ H1 H2 _ _ _]). unfold settled. set_solver. Qed.

#[export] Instance search_preorder : PreOrder search.
Proof.
  split.
  - intros s. exists []. split; try done; [by rewrite app_nil_r|constructor].
  - intros s1 s2 s3 H12 H23.
    pose proof (λ e, settled_mono s1 s2 e H12) as M1. pose proof (λ e, settled_mono s2 s3 e H23) as M2.
    destruct H12 as (n1&[T1 A1 B1 F1 O1 D1]), H23 as (n2&[T2 A2 B2 F2 O2 D2]). exists (n1 ++ n2).
    split; [by rewrite T2, T1, app_assoc|set_solver..| | |].
    + apply Forall_app. split; [done|]. eapply Forall_impl; [|exact F2]. cbn. intros e He Hs. by apply He, M1.
    + rewrite fmap_app. apply list.NoDup_app. split; [done|]. split; [|done].
      intros h (e&->&He)%list_elem_of_fmap (e'&Hh&He')%list_elem_of_fmap.
      rewrite list.Forall_forall in D1, F2. apply (F2 e' He'). unfold settled. rewrite <-Hh. by apply D1.
    + apply Forall_app. split; [|done]. eapply Forall_impl; [exact M2|exact D1].
Qed.

(** Where [new_control_matrix] has at most one pair. *)
Definition single (s : S) : Prop :=
  ∃ e n, s.(new_control_matrix) = e :: replicate n zero ∧ size = Datatypes.S n.

Lemma wp_hash_pair h1 h2 s (Q : Z → S → Prop) R E :
  Q (pair_hash (Element h1 h2)) s → wp (hash_pair h1 h2) Q R E s.
Proof. unfold wp, hash_pair. by rewrite hashes2hash_pair. Qed.

Lemma new_travel_ok m flag (s : S) R E :
  wp (new_travel m flag) (λ f s',
    s' = set_known (hashes (used m) ∪ s.(total_travel)) s.(unreachable_control_matrix) s ∧
    f = if decide (hashes (used m) ⊆ s.(total_travel)) then flag else 1) R E s.
Proof.
  revert flag s. induction m as [|e m IH]; intros flag s; cbn [new_travel used].
  - wp_step. rewrite decide_True by (unfold hashes; set_solver). split; [|done].
    unfold hashes. cbn. rewrite union_empty_l_L. by destruct s.
  - destruct (is_zero e).
    { wp_step. rewrite decide_True by (unfold hashes; set_solver). split; [|done].
      unfold hashes. cbn. rewrite union_empty_l_L. by destruct s. }
    wp_step. apply wp_hash_pair. wp_step. wp_step. destruct e as [h1 h2]. cbn [hash_1 hash_2].
    set (h := pair_hash (Element h1 h2)).
    assert (∀ l, hashes (Element h1 h2 :: l) = {[h]} ∪ hashes l) as Hc by done. rewrite !Hc.
    case_decide as Hin.
    + eapply wp_conseq; [apply IH|]. intros f s' [-> ->].
      replace ({[h]} ∪ hashes (used m) ∪ total_travel s) with (hashes (used m) ∪ total_travel s) by set_solver.
      split; [done|].
      destruct (decide (hashes (used m) ⊆ _)) as [?|?]; [rewrite decide_True by set_solver|rewrite decide_False by set_solver]; done.
    + wp_step. wp_step. eapply wp_conseq; [apply IH|]. intros f s' [-> ->]. cbn.
      replace ({[h]} ∪ hashes (used m) ∪ total_travel s) with (hashes (used m) ∪ ({[h]} ∪ total_travel s)) by set_solver.
      split; [done|]. rewrite (decide_False (P := {[h]} ∪ _ ⊆ _)) by set_solver. by destruct (decide _).
Qed.

Lemma FuzzUnit_cm_ok m (s : S) R :
  wp (FuzzUnit_cm m) (λ r s', r = 0 ∧ ∃ a t w', race m s.(rest) = Some (a, t, w') ∧
    s' = set_known (hashes (used t) ∪ s.(total_travel)) s.(unreachable_control_matrix) (set_ran m a t w' s))
    R (λ c _, c = -1) s.
Proof.
  unfold FuzzUnit_cm. wp_step. wp_step. destruct (race m s.(rest)) as [[[a t] w']|] eqn:Hr; [|by wp_step].
  wp_step. wp_step. wp_step. unfold has_new_travel_matrix_element. wp_step. wp_step.
  eapply wp_conseq; [apply new_travel_ok|]. intros f s' [-> _]. wp_step. split; [done|]. by exists a, t, w'.
Qed.

Lemma one_element_ok h1 h2 s : single s →
  wp (one_element_cm_test h1 h2) (λ _ _, False)
    (λ v s', v = 0 ∧ search s s' ∧ settled s' (Element h1 h2) ∧ single s') (λ c _, c = -1) s.
Proof.
  intros Hs. unfold one_element_cm_test. wp_step. apply wp_hash_pair. set (e := Element h1 h2).
  wp_step. wp_step. cbn [id]. wp_step.
  { wp_steps. split; [done|]. split; [exists []|split; [unfold settled; cbn; set_solver|done]].
    split; cbn; try done; [by rewrite app_nil_r|constructor]. }
  wp_step.
  { wp_steps. split; [done|]. split; [exists []|split; [unfold settled; cbn; set_solver|done]].
    split; cbn; try done; [by rewrite app_nil_r|constructor]. }
  destruct Hs as (e0&n&Hm&Hsize). wp_step. eapply (wp_from_option _ (e :: replicate n zero)).
  { rewrite Hm. unfold blit. rewrite decide_True by (unfold zlen; cbn; lia). done. }
  wp_steps. eapply wp_conseq; [apply FuzzUnit_cm_ok|]. cbn. intros r s' (->&a&t&w'&Hr&->).
  rewrite decide_False by (intros []; done). wp_step.
  destruct (triggered_single e n t) as (b&Hb&Htrue); [rewrite <-Hsize; by eapply race_sizes|].
  eapply (wp_from_option _ b); [done|]. wp_step.
  apply (wp_conseq _ (λ _ s2, tested s2 = tested s ++ [e] ∧ new_control_matrix s2 = e :: replicate n zero ∧
    total_travel s ⊆ total_travel s2 ∧ unreachable_control_matrix s ⊆ unreachable_control_matrix s2 ∧
    settled s2 e)).
  - apply wp_when; intros Eb.
    + wp_step. unfold settled. cbn. split; [done|]. split; [done|]. set_solver.
    + apply negb_false_iff in Eb. cbn. split; [done|]. split; [done|]. unfold settled; cbn.
      specialize (Htrue Eb). set_solver.
  - intros _ s2 (Ht&Hn&Ha&Hu&Hset). wp_steps. split; [done|]. split; [|split; [done|by exists e, n]].
    exists [e]. split; cbn; [done|done|done| | |by apply Forall_singleton].
    + apply Forall_singleton. unfold settled. set_solver.
    + apply NoDup_singleton.
Qed.

(** A loop over a matrix visits its used part. *)
Lemma wp_until_zero m body (I : list matrix_element → S → Prop) (done : list matrix_element) R E s :
  I done s →
  (∀ d x s', x ∈ used m → I d s' → wp (body x) (λ _, I (d ++ [x])) R E s') →
  wp (until_zero m body) (λ _, I (done ++ used m)) R E s.
Proof.
  revert done s. induction m as [|e m IH]; intros d s Hi Hb; cbn [until_zero used].
  { wp_step. by rewrite app_nil_r. }
  cbn [used] in Hb. destruct (is_zero e); [wp_step; by rewrite app_nil_r|].
  wp_step. eapply wp_conseq; [by apply (Hb d); [left|]|]. intros [] s1 H1.
  change (e :: used m) with ([e] ++ used m). rewrite (app_assoc d [e]). apply IH; [done|]. intros d' x s' Hx. apply Hb. by right.
Qed.

(** The pairs that the search derives from two pairs with a common access. *)
Definition neighbours (cm am : matrix_element) : list matrix_element :=
  (if decide (cm.(hash_1) = am.(hash_1)) then [Element cm.(hash_2) am.(hash_2)] else []) ++
  (if decide (cm.(hash_1) = am.(hash_2)) then [Element cm.(hash_2) am.(hash_1)] else []) ++
  (if decide (cm.(hash_2) = am.(hash_1)) then [Element cm.(hash_1) am.(hash_2)] else []) ++
  (if decide (cm.(hash_2) = am.(hash_2)) then [Element cm.(hash_1) am.(hash_1)] else []).
Definition all_neighbours (cms ams : list matrix_element) : list matrix_element :=
  cms ≫= λ cm, ams ≫= neighbours cm.

(** The search has settled [l], starting from [s]. *)
Definition progress (s : S) (l : list matrix_element) (s' : S) : Prop :=
  search s s' ∧ single s' ∧ Forall (settled s') l.

Lemma test_if_ok (P : Prop) `{!Decision P} h1 h2 s l s' R : progress s l s' →
  wp (test_if (bool_decide P) h1 h2)
    (λ _, progress s (l ++ if decide P then [Element h1 h2] else [])) R (λ c _, c = -1) s'.
Proof.
  intros (Hg&Hs&Hl). unfold test_if. destruct (decide P) as [HP|HP].
  - rewrite bool_decide_eq_true_2 by done. wp_step. apply wp_call.
    eapply wp_mono; [by apply one_element_ok|done| |done]. intros v s2 (->&Hg2&Hset&Hs2). cbn beta.
    rewrite decide_False by (intros []; done). wp_step. split; [by etrans|]. split; [done|].
    apply Forall_app. split; [|by apply Forall_singleton].
    eapply Forall_impl; [|exact Hl]. intros e. by apply settled_mono.
  - rewrite bool_decide_eq_false_2 by done. wp_step. by rewrite app_nil_r.
Qed.

Lemma mutate_ok matrix n am s : single s →
  wp (mutate_based_on_adjacency matrix n am) (λ _ _, False)
    (λ v s', v = 0 ∧ progress s (all_neighbours (used (take n matrix)) (used am)) s') (λ c _, c = -1) s.
Proof.
  intros Hs. unfold mutate_based_on_adjacency. wp_step.
  apply (wp_conseq _ (λ _, progress s (all_neighbours ([] ++ used (take n matrix)) (used am))));
    [|intros _ s' H; wp_step; by split].
  apply (wp_until_zero _ _ (λ d, progress s (all_neighbours d (used am)))).
  { by split; [|split; [|constructor]]. }
  intros d cm s1 _ H1.
  apply (wp_conseq _ (λ _, progress s (all_neighbours d (used am) ++ (([] ++ used am) ≫= neighbours cm)))).
  - apply (wp_until_zero _ _ (λ d2, progress s (all_neighbours d (used am) ++ (d2 ≫= neighbours cm)))).
    { by rewrite app_nil_r. }
    intros d2 x s2 _ H2. rewrite bind_app. cbn [mbind list_bind app]. rewrite app_nil_r. unfold neighbours at 2.
    rewrite !app_assoc. wp_step. eapply wp_conseq; [apply test_if_ok; exact H2|]. intros ? s3 H3.
    wp_step. eapply wp_conseq; [apply test_if_ok; exact H3|]. intros ? s4 H4.
    wp_step. eapply wp_conseq; [apply test_if_ok; exact H4|]. intros ? s5 H5.
    eapply wp_conseq; [apply test_if_ok; exact H5|]. done.
  - intros _ s2 H2. unfold all_neighbours. rewrite bind_app. cbn [mbind list_bind app] in *. by rewrite app_nil_r.
Qed.
(** The control pairs that are enabled fit into their array when there are not more of
    them than places. *)
Definition hits (control travel : list matrix_element) : nat :=
  sum_list ((λ c, length (filter (λ t, compare_matrix_element c t = true) (used travel))) <$> control).

Lemma enable_row_ok c l acc : (length acc + length (filter (λ t, compare_matrix_element c t = true) l) <= size)%nat →
  ∃ acc', foldl (enable_row size c) (Some acc) l = Some acc' ∧
    (length acc' = length acc + length (filter (λ t, compare_matrix_element c t = true) l))%nat.
Proof.
  revert acc. induction l as [|t l IH]; intros acc H; cbn [foldl]; [exists acc; split; [done|cbn; lia]|].
  unfold enable_row at 2. cbn [mbind option_bind]. revert H. rewrite !filter_cons.
  destruct (compare_matrix_element c t); [|by apply IH].
  rewrite !(decide_True (P := true = true)) by done. cbn [length]. intros H. rewrite decide_True by lia.
  destruct (IH (acc ++ [c])) as (acc'&E&Hl); [rewrite length_app; cbn [length]; lia|].
  exists acc'. split; [done|]. rewrite Hl, length_app. cbn [length]. lia.
Qed.

Lemma enabled_ok control rest travel acc : (length control <= length rest)%nat →
  (length acc + hits control travel <= size)%nat →
  is_Some (enabled_from size control rest travel acc).
Proof.
  revert rest acc. induction control as [|c control IH]; [by eexists|].
  intros [|t rest] acc Hl H; cbn [length enabled_from] in *; [lia|]. case_decide; [by eexists|].
  unfold hits in H. cbn in H. fold (hits control travel) in H.
  destruct (enable_row_ok c (used travel) acc) as (acc'&->&Hacc); [unfold hits in H; lia|].
  cbn [mbind option_bind]. apply IH; [lia|]. unfold hits in *. lia.
Qed.

Lemma control_matrix_mutate_ok cm s : (0 < size)%nat → length cm = size →
  (∀ a t w', race cm s.(rest) = Some (a, t, w') → (hits cm t <= size)%nat) →
  wp (control_matrix_mutate size cm) (λ _ _, False)
    (λ v s', v = 0 ∧ search s s' ∧ ∃ a t w', race cm s.(rest) = Some (a, t, w') ∧
       hashes (used t) ⊆ s'.(total_travel) ∧
       Forall (settled s') (all_neighbours (used t) (used a)))
    (λ c _, c = -1) s.
Proof.
  intros Hpos Hlen Hhits. unfold control_matrix_mutate. wp_step.
  eapply wp_conseq; [apply FuzzUnit_cm_ok|]. intros r s1 (->&a&t&w'&Hr&->).
  rewrite decide_False by (intros []; done). do 4 wp_step. cbn [adjacency_matrix travel_matrix set_known set_ran].
  destruct (enabled_ok cm t t []) as (enable&He); [rewrite Hlen; by eapply race_sizes|by apply (Hhits _ _ _ Hr)|].
  wp_step. apply (wp_from_option _ enable); [done|]. do 2 wp_step.
  match goal with |- wp _ _ _ _ ?x => set (s1 := x) end.
  assert (search s s1) as H01.
  { exists []. split; cbn; try done; [by rewrite app_nil_r|set_solver|constructor]. }
  assert (single s1) as Hs1.
  { exists zero, (Nat.pred size). split; [|lia].
    change (replicate size zero = replicate (Datatypes.S (Nat.pred size)) zero). f_equal. lia. }
  assert (hashes (used t) ⊆ total_travel s1) as Ht1 by (cbn; set_solver).
  clearbody s1. wp_step.
  apply (wp_conseq _ (λ r s2, r = 0 ∧ search s1 s2 ∧ single s2)).
  { wp_step; [|by wp_step]. apply wp_call.
    eapply wp_mono; [apply mutate_ok; assumption|done| |done]. by intros v s2 (->&Hg&Hs2&_). }
  intros r s2 (->&H12&Hs2). rewrite decide_False by (intros []; done). wp_step. apply wp_call.
  eapply wp_mono; [apply mutate_ok; assumption|done| |done]. intros v s3 (->&H23&Hs3&Hall). cbn beta.
  rewrite decide_False by (intros []; done). wp_step. rewrite firstn_all in Hall.
  split; [done|]. split; [by do 2 (etrans; [done|])|]. exists a, t, w'. split; [done|]. split; [|done].
  etrans; [exact Ht1|]. assert (search s1 s3) as (?&[]) by (by etrans). done.
Qed.
End proofs.

(** ** Theorems *)

(** C20. A round of the search for interleavings, on any target: it returns 0 or the
    fuzzer exits, and no access is outside of an array when the array of enabled pairs
    has room for the control pairs that the run followed.  No pair is tried that is
    settled already and none is tried twice, a pair that was tried is settled after it:
    seen by a run or recorded as unreachable.  In the end all pairs that the first run
    saw are known, and all pairs that follow from them along its adjacency matrix are
    settled. *)
Theorem concurrency_settles {W} `{!Race W} (size : nat) `{!RaceOK W size} cm (s : racer W) :
  (0 < size)%nat → length cm = size →
  (∀ a t w', race cm s.(rest) = Some (a, t, w') → (hits cm t <= size)%nat) →
  wp (control_matrix_mutate size cm) (λ _ _, False)
    (λ v s', v = 0 ∧
       (∃ new, s'.(tested) = s.(tested) ++ new ∧ NoDup (pair_hash <$> new) ∧
          Forall (λ e, ¬ settled s e ∧ settled s' e) new) ∧
       ∃ a t w', race cm s.(rest) = Some (a, t, w') ∧
         hashes (used t) ⊆ s'.(total_travel) ∧
         Forall (settled s') (all_neighbours (used t) (used a)))
    (λ c _, c = -1) s.
Proof.
  intros Hpos Hlen Hhits. eapply wp_mono; [by apply control_matrix_mutate_ok|done| |done].
  intros v s' (->&(new&[]) &Hex). split; [done|]. split; [|done]. exists new. split; [done|]. split; [done|].
  by apply Forall_and.
Qed.

(** A target that has two accesses side by side and sees no pair that it is asked for. *)
#[local] Instance demo_race : Race nat := {
  race m w := Some ([Element 1 2; Element 3 1; zero], [Element 1 5; zero; zero], S w);
}.
#[local] Instance demo_race_ok : RaceOK nat 2.
Proof. split. intros m w a t w' [= <- <- <-]. cbn. lia. Qed.
Definition demo_racer : racer nat := Racer [] [] [] [] ∅ ∅ 0 0 0 0%nat [].

Lemma concurrency_settles_witness :
  wp (control_matrix_mutate 2 [Element 1 5; zero]) (λ _ _, False)
    (λ v s', v = 0 ∧
       (∃ new, s'.(tested) = demo_racer.(tested) ++ new ∧ NoDup (pair_hash <$> new) ∧
          Forall (λ e, ¬ settled demo_racer e ∧ settled s' e) new) ∧
       ∃ a t w', race [Element 1 5; zero] demo_racer.(rest) = Some (a, t, w') ∧
         hashes (used t) ⊆ s'.(total_travel) ∧
         Forall (settled s') (all_neighbours (used t) (used a)))
    (λ c _, c = -1) demo_racer.
Proof.
  apply (concurrency_settles 2 [Element 1 5; zero] demo_racer); [lia|done|].
  intros a t w' [= <- <- <-]. vm_compute. lia.
Defined.

(** That run tries two pairs. *)
Lemma demo_race_tested :
  (control_matrix_mutate 2 [Element 1 5; zero] demo_racer).2.(tested) = [Element 5 2; Element 5 3].
Proof. vm_compute. reflexivity. Qed.

(** A run that follows a control pair more often than the array has places makes the
    fuzzer write behind it. *)
Lemma enable_overflow :
  let t := [Element 1 2; Element 1 2; Element 2 1; zero] in enabled_from 2 [Element 1 2; zero] t t [] = None.
Proof. vm_compute. reflexivity. Qed.

(** The loop over the control matrix looks at the travel matrix for its end: a pair with
    a second hash of zero that was seen the other way round is missed. *)
Lemma triggered_misses :
  compare_matrix_element (Element 7 0) (Element 0 7) = true ∧
  is_control_matrix_triggered [Element 7 0; zero] [Element 0 7; zero] = Some false.
Proof. vm_compute. done. Qed.
