(* ===== verification/Kafka.v ===== *)
(** * Coverage over Kafka

    Machines that share no memory with the fuzzer send the slots of their events to a
    topic of Kafka: [init_kafka_producer] of [strace/src/dst_fuzz.c] and the sending half of
    [handle_random_event], modelled in [Strace].  The collector of
    [fuzz/coverage_collector/coverage_collector.c] subscribes to the topic and adds the
    slots up. *)

From S2P Require Import Prelude.
From S2P Require Import TraceMap.
From S2P Require Import RandomFile.
From S2P Require Import Store.
From S2P Require Import Strace.

(** ** librdkafka

    Whether the calls of the library succeed: [rd_kafka_conf_set] for each name,
    [rd_kafka_topic_conf_set], [rd_kafka_new]; the error of [rd_kafka_subscribe], 0 for
    none.  [host_found] says whether [gethostname] returns 0. *)
Record rdkafka := RdKafka {
  host_found : bool;
  conf_set : string → bool;
  topic_conf_set : string → bool;
  handle_made : bool;
  subscribe_error : Z;
}.

Definition init_kafka_producer {S} (k : rdkafka) : proc S unit :=
  when (negb k.(host_found)) (exit_ 1) ;;
  when (negb (k.(conf_set) "client.id")) (exit_ 1) ;;
  when (negb (k.(conf_set) "bootstrap.servers")) (exit_ 1) ;;
  when (negb k.(handle_made)) (exit_ 1) ;;
  when (negb (k.(topic_conf_set) "acks")) (exit_ 1).

(** ** The collector *)

(** [reports]: the coverage counts that are printed. *)
Record collector := Collector {
  coverage_map : gmap Z Z;
  old_cov_count : Z;
  reports : list Z;
}.
Definition collector_start : collector := Collector ∅ 0 [].

(** The places of the map that are not zero. *)
Definition cov_count (m : gmap Z Z) : Z := Z.of_nat (size (filter (λ p, p.2 ≠ 0) m)).

(** One message with a payload. *)
Definition collect_payload (c : collector) (payload : Z) : collector :=
  let index := payload mod MAP_SIZE in
  let v := default 0 (c.(coverage_map) !! index) in
  if decide (v < 255) then
    let m := <[index := v + 1]> c.(coverage_map) in
    let n := cov_count m in
    if decide (n > c.(old_cov_count)) then Collector m n (c.(reports) ++ [n])
    else Collector m c.(old_cov_count) c.(reports)
  else c.

(** What a poll of the topic gives. *)
Inductive polled := NoMessage | PollError | NoPayload | Payload (index : Z).
Definition collect (c : collector) (m : polled) : collector :=
  match m with
  | NoMessage | PollError | NoPayload => c
  | Payload x => collect_payload c x
  end.

(** [main] of the collector up to its loop; a failed subscription is a [return]. *)
Definition open_consumer {S} (k : rdkafka) : proc S unit :=
  when (negb k.(host_found)) (exit_ 1) ;;
  when (negb (k.(conf_set) "client.id")) (exit_ 1) ;;
  when (negb (k.(conf_set) "group.id")) (exit_ 1) ;;
  when (negb (k.(conf_set) "bootstrap.servers")) (exit_ 1) ;;
  when (negb k.(handle_made)) (exit_ 1) ;;
  when (bool_decide (k.(subscribe_error) ≠ 0)) (return_ 1).

(** [main]: [polls] are the results of the polls until the handler of [SIGINT] has
    cleared [run]. *)
Definition collector_main (k : rdkafka) (polls : list polled) : proc collector Z :=
  call (open_consumer k ;; for_each polls (λ m, modify (λ c, collect c m))).

(** ** Sums *)

Definition payload_of (m : polled) : option Z := if m is Payload x then Some x else None.

(** How often an index was reported. *)
Definition times (l : list Z) (i : Z) : Z := zlen (filter (λ x, x mod MAP_SIZE = i) l).

Record collected (l : list Z) (c : collector) : Prop := Collected {
  cd_map : ∀ i, default 0 (c.(coverage_map) !! i) = Z.min 255 (times l i);
  cd_keys : ∀ i, is_Some (c.(coverage_map) !! i) ↔ 0 < times l i;
  cd_count : c.(old_cov_count) = cov_count c.(coverage_map);
  cd_reports : c.(reports) = seqZ 1 c.(old_cov_count);
}.

Lemma times_snoc l p i : times (l ++ [p]) i = times l i + (if decide (p mod MAP_SIZE = i) then 1 else 0).
Proof.
  unfold times. rewrite list.filter_app, zlen_app. f_equal. rewrite filter_cons, filter_nil.
  by case_decide.
Qed.

Lemma times_nonneg l i : 0 <= times l i.
Proof. apply zlen_nonneg. Qed.

(** No place holds zero, so that every place counts. *)
Lemma collected_count l c : collected l c → cov_count c.(coverage_map) = Z.of_nat (size c.(coverage_map)).
Proof.
  intros [Hm Hk _ _]. unfold cov_count. rewrite map_filter_id; [done|]. intros i x Hx. cbn.
  specialize (Hm i). rewrite Hx in Hm. cbn in Hm. assert (0 < times l i) by (apply Hk; by eexists). lia.
Qed.

Lemma collect_payload_map l c p i : collected l c →
  default 0 ((collect_payload c p).(coverage_map) !! i) = Z.min 255 (times (l ++ [p]) i) ∧
  (is_Some ((collect_payload c p).(coverage_map) !! i) ↔ 0 < times (l ++ [p]) i).
Proof.
  intros [Hm Hk _ _]. rewrite times_snoc. unfold collect_payload. set (j := p mod MAP_SIZE).
  pose proof (times_nonneg l i) as Hi. pose proof (Hm j) as Hmj.
  assert (∀ c', c'.(coverage_map) = (if decide (default 0 (c.(coverage_map) !! j) < 255)
      then <[j := default 0 (c.(coverage_map) !! j) + 1]> c.(coverage_map) else c.(coverage_map)) →
    default 0 (c'.(coverage_map) !! i) = Z.min 255 (times l i + (if decide (j = i) then 1 else 0)) ∧
    (is_Some (c'.(coverage_map) !! i) ↔ 0 < times l i + (if decide (j = i) then 1 else 0))) as Hc.
  { intros c' ->. destruct (decide (j = i)) as [<-|Hne]; case_decide as Hv.
    - rewrite lookup_insert_eq. cbn. split; [lia|]. split; [lia|by eexists].
    - rewrite Hmj. split; [lia|]. rewrite Hk. lia.
    - rewrite lookup_insert_ne by done. rewrite Z.add_0_r. by rewrite Hm, Hk.
    - rewrite Z.add_0_r. by rewrite Hm, Hk. }
  apply Hc. cbv zeta. destruct (decide (default 0 (coverage_map c !! j) < 255)); [|done].
  by destruct (decide (_ > _)).
Qed.

Lemma collect_payload_ok l c p : collected l c → collected (l ++ [p]) (collect_payload c p).
Proof.
  intros Hok. pose proof (λ i, proj1 (collect_payload_map l c p i Hok)) as Hm'.
  pose proof (λ i, proj2 (collect_payload_map l c p i Hok)) as Hk'.
  assert (cov_count (collect_payload c p).(coverage_map) = Z.of_nat (size (collect_payload c p).(coverage_map))) as Hsize.
  { unfold cov_count. rewrite map_filter_id; [done|]. intros i x Hx. cbn.
    specialize (Hm' i). rewrite Hx in Hm'. cbn in Hm'. assert (0 < times (l ++ [p]) i) by (apply Hk'; by eexists). lia. }
  pose proof (collected_count l c Hok) as Hold. destruct Hok as [Hm Hk Hc Hr].
  cut ((collect_payload c p).(old_cov_count) = cov_count (collect_payload c p).(coverage_map) ∧
    (collect_payload c p).(reports) = seqZ 1 (collect_payload c p).(old_cov_count)); [intros [? ?]; by split|]. clear Hm' Hk'.
  revert Hsize. unfold collect_payload. set (j := p mod MAP_SIZE). case_decide as Hv; [|done]. set (m := <[j := _]> _).
  assert (Z.of_nat (size m) = c.(old_cov_count) ∨ Z.of_nat (size m) = c.(old_cov_count) + 1) as Hgrow.
  { rewrite Hc, Hold. unfold m. destruct (decide (is_Some (c.(coverage_map) !! j))) as [Hs|Hs].
    - left. by rewrite map_size_insert_Some.
    - right. apply eq_None_not_Some in Hs. rewrite map_size_insert_None by done. lia. }
  case_decide as Hgt; cbn [coverage_map old_cov_count reports]; intros Hsize; rewrite Hsize in *.
  - split; [done|]. assert (0 <= c.(old_cov_count)) by (rewrite Hc; unfold cov_count; lia).
    replace (Z.of_nat (size m)) with (c.(old_cov_count) + 1) by lia.
    rewrite seqZ_app, <-Hr by lia. f_equal. rewrite seqZ_cons by lia. cbn. f_equal. lia.
  - split; [lia|done].
Qed.

Lemma collect_ok l c m :
  collected (omap payload_of l) c → collected (omap payload_of (l ++ [m])) (collect c m).
Proof.
  intros Hok. rewrite omap_app. destruct m; cbn; rewrite ?app_nil_r; [done..|]. by apply collect_payload_ok.
Qed.

(** The collector adds up what the machines report: after any polls of the topic,
    those that gave no message, an error or no payload among them, each place of the map
    holds the number of messages for it, up to 255, and the counts that were printed are
    1, 2, 3 and so on up to the number of places that were ever hit. *)
Lemma collector_sums l :
  let c := foldl collect collector_start l in
  (∀ i, default 0 (c.(coverage_map) !! i) = Z.min 255 (times (omap payload_of l) i)) ∧
  c.(reports) = seqZ 1 (Z.of_nat (size (dom c.(coverage_map)))).
Proof.
  intros c. assert (collected (omap payload_of l) c) as Hok.
  { unfold c. clear c. induction l as [|p l IH] using rev_ind; [|rewrite foldl_snoc; by apply collect_ok].
    split; try done. intros i. cbn. rewrite lookup_empty. split; [by intros [? ?]|done]. }
  split; [apply Hok|]. rewrite (cd_reports _ _ Hok), (cd_count _ _ Hok), (collected_count _ _ Hok).
  by rewrite size_dom.
Qed.

(** ** From the machines to the collector *)

Definition occurrences (h : Z) (l : list Z) : Z := zlen (filter (λ x, x = h) l).

Lemma sublist_forall {A} (P : A → Prop) l k : l `sublist_of` k → Forall P k → Forall P l.
Proof.
  intros Hs Hk. apply list.Forall_forall. intros x Hx. apply (proj1 (list.Forall_forall _ _) Hk).
  by eapply elem_of_submseteq, sublist_submseteq.
Qed.

Lemma occurrences_sublist h l k : l `sublist_of` k → occurrences h l <= occurrences h k.
Proof.
  unfold occurrences, zlen. intros H. apply inj_le. induction H as [|x l k H IH|x l k H IH]; [done|..];
    rewrite !filter_cons; destruct (decide (x = h)); cbn; lia.
Qed.

(** The slots are below the size of the map of the collector. *)
Lemma times_occurrences l h : Forall (λ x, 0 <= x < FUZZ_COVERAGE_MAP_SIZE) l → times l h = occurrences h l.
Proof.
  intros Hl. unfold times, occurrences. f_equal. induction Hl as [|x l Hx Hl IH]; [done|].
  rewrite !filter_cons, IH. rewrite Z.mod_small by exact Hx. done.
Qed.

Lemma collector_run k polls c : open_consumer k c = (Norm tt, c) →
  collector_main k polls c = (Norm 0, foldl collect c polls).
Proof.
  intros Hk. unfold collector_main, call, mbind, proc_bind. rewrite Hk. clear Hk.
  assert (for_each polls (λ m, modify (λ c, collect c m)) c = (Norm tt, foldl collect c polls)) as ->; [|done].
  revert c. induction polls as [|m polls IH]; intros c; [done|]. cbn. unfold mbind, proc_bind, modify. apply IH.
Qed.

Section machines.
Context `{!Tracee}.

(** What a machine has sent after the events [l]. *)
Definition sent (l : list Z) (s : tracer) : list Z := (for_each l count_event s).2.(i).(produced).

Lemma sent_run l s : s.(i).(use_kafka) = true →
  ∃ k, sent l s = s.(i).(produced) ++ k ∧ k `sublist_of` l ∧ ((∀ p h, kafka_accepts p h = true) → k = l).
Proof.
  revert s. induction l as [|h l IH]; intros s Hs.
  { exists []. unfold sent. cbn. by rewrite app_nil_r. }
  assert (∃ s', count_event h s = (Norm tt, s') ∧ s'.(i).(use_kafka) = true ∧
    s'.(i).(produced) = s.(i).(produced) ++ (if kafka_accepts s.(i).(produced) h then [h] else [])) as (s'&E&Hs'&Hp).
  { unfold count_event, mbind, proc_bind, gets. rewrite Hs. destruct (kafka_accepts _ _); eexists; (split; [reflexivity|]);
      by rewrite ?app_nil_r. }
  destruct (IH s' Hs') as (k&Hk&Hsub&Hall).
  assert (sent (h :: l) s = sent l s') as -> by (unfold sent; cbn; unfold mbind, proc_bind; by rewrite E).
  rewrite Hk, Hp, <-app_assoc. eexists. split; [reflexivity|]. split.
  - destruct (kafka_accepts _ _); cbn; [by apply sublist_skip|by apply sublist_cons].
  - intros Ha. rewrite Ha. cbn. by rewrite Hall.
Qed.

(** Machines that start with an empty outbox. *)
Definition reporting (m : list Z * tracer) : Prop :=
  Forall (λ h, 0 <= h < FUZZ_COVERAGE_MAP_SIZE) m.1 ∧ m.2.(i).(use_kafka) = true ∧ m.2.(i).(produced) = [].

Lemma sent_all ms : Forall reporting ms →
  let out := concat ((λ m, sent m.1 m.2) <$> ms) in
  out `sublist_of` concat ms.*1 ∧ ((∀ p h, kafka_accepts p h = true) → out = concat ms.*1).
Proof.
  induction 1 as [|[l s] ms (Hl&Hs&Hp) Hms IH]; [done|]. cbn in *.
  destruct (sent_run l s Hs) as (k&->&Hsub&Hall), IH as [IH1 IH2]. rewrite Hp. cbn. split.
  - by apply sublist_app.
  - intros Ha. by rewrite Hall, IH2.
Qed.

End machines.

Definition demo_kafka : rdkafka := RdKafka true (λ _, true) (λ _, true) true 0.

