(* ===== verification/Alarm.v ===== *)
(** * The alarm of a run

    [ExecuteCase] of [fuzz/fuzzer/old/TestRunning.cpp] starts the target, sets a timer and
    waits; the handler of [SIGALRM], [HandleTimeout], may run between any two of its steps.
    [Execution] has the result of a run as one value, the record [child].  This file has the
    run itself: a step relation of the fuzzer, the target and the timer, in which every
    interleaving is possible, and which yields such a value. *)

From S2P Require Import Prelude.
From S2P Require Import TraceMap.
From S2P Require Import Execution.
From S2P Require Import Keeping.

(** ** State *)

(** Where [ExecuteCase] is: before [fork], before the first [setitimer], at [waitpid], before
    [child_pid = 0], before the second [setitimer], before the judgement. *)
Inductive place := AtFork | AtArm | AtWait | AtClear | AtDisarm | AtJudge | Returned (fault : Z) | Gone.

(** The target: not started, running, with the time it still takes, ended, or waited for. *)
Inductive target_state := Absent | Runs (rest : option Z) | Zombie (st : wait_status) | Reaped.

(** Times are in microseconds.  [stray]: a signal was sent to a process that was already
    waited for; [delays]: how much longer the fuzzer can be kept from running. *)
Record timed_run := Timed {
  pc : place;
  child_pid : Z;
  timed_out : bool;
  status : option wait_status;
  timer : option Z;
  target : target_state;
  stray : bool;
  delays : Z;
}.

(** What is given: the number and the fate of the target, [None] when it never ends; the
    time limit; whether [fork] succeeds. *)
Record setting := Setting {
  pid : Z;
  duration : option Z;
  own : wait_status;
  limit : Z;
  forks : bool;
  slack : Z;
}.

Definition timed_start (c : setting) : timed_run :=
  Timed AtFork 0 false None None Absent false c.(slack).

(** ** Steps *)

Section alarm.
Context (c : setting).

(** [it_value] from milliseconds; zero disarms the timer. *)
Definition itimer (timeout : Z) : option Z :=
  let tv_sec := timeout / 1000 in
  let tv_usec := timeout mod 1000 * 1000 in
  if decide (tv_sec = 0 ∧ tv_usec = 0) then None else Some (tv_sec * 1000000 + tv_usec).

(** [kill(child_pid, SIGKILL)] *)
Definition kill_child (s : timed_run) : timed_run :=
  match s.(target) with
  | Runs _ => Timed s.(pc) s.(child_pid) s.(timed_out) s.(status) s.(timer) (Zombie (Signaled SIGKILL)) s.(stray) s.(delays)
  | Zombie _ => s
  | Absent | Reaped => Timed s.(pc) s.(child_pid) s.(timed_out) s.(status) s.(timer) s.(target) true s.(delays)
  end.

Definition HandleTimeout (s : timed_run) : timed_run :=
  if decide (s.(child_pid) > 0)
  then kill_child (Timed s.(pc) s.(child_pid) true s.(status) s.(timer) s.(target) s.(stray) s.(delays))
  else s.

Definition judge (st : wait_status) (alarm : bool) : Z :=
  match st with
  | Signaled sig => if decide (alarm = true ∧ u8 sig = SIGKILL) then FAULT_TMOUT else FAULT_CRASH
  | Exited _ => FAULT_NONE
  end.

(** The next step of [ExecuteCase]; [None] while it waits or when it has ended.  A child
    that is not there makes [waitpid] fail. *)
Definition main_step (s : timed_run) : option timed_run :=
  match s.(pc) with
  | AtFork =>
      if c.(forks)
      then Some (Timed AtArm c.(pid) s.(timed_out) s.(status) s.(timer) (Runs c.(duration)) s.(stray) s.(delays))
      else Some (Timed Gone (-1) s.(timed_out) s.(status) s.(timer) s.(target) s.(stray) s.(delays))
  | AtArm =>
      Some (Timed AtWait s.(child_pid) s.(timed_out) s.(status) (itimer c.(limit)) s.(target) s.(stray) s.(delays))
  | AtWait =>
      match s.(target) with
      | Runs _ => None
      | Zombie st => Some (Timed AtClear s.(child_pid) s.(timed_out) (Some st) s.(timer) Reaped s.(stray) s.(delays))
      | Absent | Reaped =>
          Some (Timed Gone s.(child_pid) s.(timed_out) s.(status) s.(timer) s.(target) s.(stray) s.(delays))
      end
  | AtClear => Some (Timed AtDisarm 0 s.(timed_out) s.(status) s.(timer) s.(target) s.(stray) s.(delays))
  | AtDisarm => Some (Timed AtJudge s.(child_pid) s.(timed_out) s.(status) None s.(target) s.(stray) s.(delays))
  | AtJudge =>
      st ← s.(status);
      Some (Timed (Returned (judge st s.(timed_out))) s.(child_pid) s.(timed_out) s.(status) s.(timer) s.(target)
        s.(stray) s.(delays))
  | Returned _ | Gone => None
  end.

Definition due (t : option Z) : Prop := t = Some 0.
Definition later (t : option Z) : option Z := (λ n, n - 1) <$> t.

(** A microsecond passes: something is running, and nothing is due.  While the fuzzer
    could go on, this uses up its delays. *)
Definition tick (s : timed_run) : timed_run :=
  Timed s.(pc) s.(child_pid) s.(timed_out) s.(status) (later s.(timer))
    (match s.(target) with Runs r => Runs (later r) | x => x end) s.(stray)
    (if main_step s is Some _ then s.(delays) - 1 else s.(delays)).

Definition can_tick (s : timed_run) : Prop :=
  (is_Some s.(timer) ∨ ∃ r, s.(target) = Runs r) ∧ ¬ due s.(timer) ∧ s.(target) ≠ Runs (Some 0) ∧
  (is_Some (main_step s) → 0 < s.(delays)).

Inductive timed_step : timed_run → timed_run → Prop :=
  | step_main s s' : main_step s = Some s' → timed_step s s'
  | step_end s : s.(target) = Runs (Some 0) →
      timed_step s (Timed s.(pc) s.(child_pid) s.(timed_out) s.(status) s.(timer) (Zombie c.(own)) s.(stray) s.(delays))
  | step_ring s : due s.(timer) →
      timed_step s (HandleTimeout (Timed s.(pc) s.(child_pid) s.(timed_out) s.(status) None s.(target) s.(stray) s.(delays)))
  | step_tick s : can_tick s → timed_step s (tick s).

(** ** The invariant *)

(** The settings that the code meets: [fork] gives a positive number. *)
Record setting_ok : Prop := SettingOK {
  so_pid : 0 < c.(pid);
  so_limit : 0 <= c.(limit);
  so_slack : 0 <= c.(slack);
  so_duration : ∀ d, c.(duration) = Some d → 0 <= d;
}.
Hypothesis Hc : setting_ok.

(** A status and whether the alarm has rung: the target has ended by itself, or it was killed
    by the handler, and then it took at least as long as the limit. *)
Definition result (st : wait_status) (alarm : bool) : Prop :=
  st = c.(own) ∧ is_Some c.(duration) ∨
  st = Signaled SIGKILL ∧ alarm = true ∧
    ∀ d t, c.(duration) = Some d → itimer c.(limit) = Some t → t <= d.

(** The target while nobody has waited for it. *)
Definition target_ok (s : timed_run) : Prop :=
  match s.(target) with
  | Runs r => s.(timed_out) = false ∧
      match r, c.(duration) with
      | None, None => True
      | Some x, Some d => 0 <= x <= d ∧ ∀ t y, itimer c.(limit) = Some t → s.(timer) = Some y → x - y <= d - t
      | _, _ => False
      end
  | Zombie st => result st s.(timed_out)
  | _ => False
  end.

Definition finished (s : timed_run) : Prop :=
  s.(target) = Reaped ∧ ∃ st, s.(status) = Some st ∧ result st s.(timed_out) ∧
    (s.(stray) = true → s.(timed_out) = true ∧ st = c.(own)) ∧ (s.(timed_out) = false → st = c.(own)).

Definition place_ok (s : timed_run) : Prop :=
  match s.(pc) with
  | AtFork => s.(child_pid) = 0 ∧ s.(timed_out) = false ∧ s.(timer) = None ∧ s.(target) = Absent ∧ s.(stray) = false
  | AtArm => s.(child_pid) = c.(pid) ∧ s.(timed_out) = false ∧ s.(timer) = None ∧ s.(stray) = false ∧ target_ok s
  | AtWait => s.(child_pid) = c.(pid) ∧ s.(stray) = false ∧ target_ok s ∧
      (s.(timed_out) = false → s.(timer) = None → itimer c.(limit) = None)
  | AtClear => s.(child_pid) = c.(pid) ∧ finished s
  | AtDisarm => s.(child_pid) = 0 ∧ finished s
  | AtJudge => s.(child_pid) = 0 ∧ s.(timer) = None ∧ finished s
  | Returned f => s.(child_pid) = 0 ∧ s.(timer) = None ∧ finished s ∧
      ∃ st, s.(status) = Some st ∧ f = judge st s.(timed_out)
  | Gone => c.(forks) = false ∧ s.(timer) = None ∧ s.(target) = Absent
  end.

Record run_inv (s : timed_run) : Prop := RunInv {
  ri_delays : 0 <= s.(delays);
  ri_timer : ∀ r, s.(timer) = Some r → 0 <= r ∧ s.(timed_out) = false;
  ri_place : place_ok s;
}.

Lemma itimer_range t : itimer c.(limit) = Some t → 0 < t.
Proof.
  unfold itimer. case_decide as H; [done|]. intros [= <-]. pose proof (so_limit Hc).
  pose proof (Z.mod_pos_bound c.(limit) 1000 ltac:(lia)). pose proof (Z.div_pos c.(limit) 1000 ltac:(lia) ltac:(lia)).
  lia.
Qed.

Lemma start_inv : run_inv (timed_start c).
Proof. split; [apply Hc|done|done]. Qed.

Lemma main_inv s s' : run_inv s → main_step s = Some s' → run_inv s'.
Proof.
  intros [Hd Ht Hp] E. unfold main_step in E. unfold place_ok in Hp. destruct (pc s) eqn:Epc.
  - destruct Hp as (Hp&Ho&Htm&Htg&Hs). destruct (forks c) eqn:Ef; simplify_eq; (split; cbn; [done|done|]); [|done].
    unfold place_ok, target_ok. cbn. do 4 (split; [done|]). split; [done|]. destruct (duration c) as [d|] eqn:Ed; [|done].
    apply (so_duration Hc) in Ed. rewrite Htm. split; [lia|done].
  - destruct Hp as (Hp&Ho&Htm&Hs&Htg). simplify_eq. split; cbn; [done| |].
    + intros r Hr. apply itimer_range in Hr. split; [lia|done].
    + unfold place_ok, target_ok in *. cbn in *. do 2 (split; [done|]). split; [|done].
      destruct (target s) as [|r| |]; try done. destruct Htg as [_ Hr]. split; [done|].
      destruct r as [x|], (duration c) as [d|]; try done. destruct Hr as [Hr _]. split; [done|].
      intros t y -> [= <-]. lia.
  - destruct Hp as (Hp&Hs&Htg&Hno). unfold target_ok in Htg. destruct (target s) as [|r|st|]; try done. simplify_eq.
    split; cbn; [done|done|]. unfold place_ok, finished. cbn. do 2 (split; [done|]). exists st. do 2 (split; [done|]).
    split; [congruence|]. intros Ho. destruct Htg as [[? _]|(_&?&_)]; congruence.
  - destruct Hp as (Hp&Hf). simplify_eq. by split.
  - destruct Hp as (Hp&Hf). simplify_eq. by split.
  - destruct Hp as (Hp&Htm&Hf). destruct (status s) as [st|] eqn:Es; [|done]. cbn in E. simplify_eq.
    split; cbn; [done|done|]. unfold place_ok. cbn. do 2 (split; [done|]). rewrite <-Es. split; [done|]. by exists st.
  - done.
  - done.
Qed.

(** The target ends by itself. *)
Lemma end_inv s : run_inv s → s.(target) = Runs (Some 0) →
  run_inv (Timed s.(pc) s.(child_pid) s.(timed_out) s.(status) s.(timer) (Zombie c.(own)) s.(stray) s.(delays)).
Proof.
  intros [Hd Ht Hp] Htg. split; cbn; [done|done|]. unfold place_ok, target_ok, finished in *. cbn. rewrite Htg in Hp.
  assert (is_Some c.(duration) → result c.(own) s.(timed_out)) by (by left).
  destruct (pc s); destruct_and?; try done; split_and!; try done; destruct (duration c) eqn:Ed; naive_solver.
Qed.

(** The alarm rings: at most once, and after [child_pid = 0] without any effect. *)
Lemma ring_inv s : run_inv s → due s.(timer) →
  run_inv (HandleTimeout (Timed s.(pc) s.(child_pid) s.(timed_out) s.(status) None s.(target) s.(stray) s.(delays))).
Proof.
  intros [Hd Ht Hp] Hdue. unfold due in Hdue. destruct (Ht 0 Hdue) as [_ Ho]. pose proof (so_pid Hc) as Hpid.
  unfold HandleTimeout, place_ok in *. cbn [child_pid]. destruct (pc s) eqn:Epc.
  - destruct Hp as (_&_&?&_). congruence.
  - destruct Hp as (_&_&?&_). congruence.
  - destruct Hp as (Hp&Hs&Htg&_). rewrite Hp, decide_True by lia. unfold kill_child, target_ok in *. cbn [target].
    destruct (target s) as [|r|st|]; try done; (split; cbn; [done|done|]); unfold place_ok, target_ok; cbn;
      do 2 (split; [done|]); (split; [|done]).
    + right. do 2 (split; [done|]). intros d t Hdur Hlim. destruct Htg as [_ Hr]. rewrite Hdur in Hr.
      destruct r as [x|]; [|done]. destruct Hr as [Hx Hr]. specialize (Hr t 0 Hlim Hdue). lia.
    + destruct Htg as [?|(_&?&_)]; [by left|congruence].
  - destruct Hp as (Hp&Htg&st&Hst&Hres&_&Hown). rewrite Hp, decide_True by lia. unfold kill_child. cbn [target]. rewrite Htg.
    split; cbn; [done|done|]. unfold place_ok, finished. cbn. do 2 (split; [done|]). exists st. split; [done|].
    split; [|by rewrite Hown]. destruct Hres as [?|(_&?&_)]; [by left|congruence].
  - destruct Hp as (Hp&Hf). rewrite decide_False by lia. split; cbn; [done|done|]. by split.
  - destruct Hp as (_&?&_). congruence.
  - destruct Hp as (_&?&_). congruence.
  - destruct Hp as (_&?&_). congruence.
Qed.

Lemma tick_target s : target_ok s → can_tick s → target_ok (tick s).
Proof.
  intros Htg (_&Hdue&Hnow&_). unfold target_ok, tick in *. cbn. destruct (target s) as [|r|st|]; try done.
  destruct Htg as [Ho Hr]. split; [done|]. destruct r as [x|], (duration c) as [d|]; try done. cbn.
  assert (x ≠ 0) by congruence. destruct Hr as [Hx Hr]. split; [lia|]. intros t y Hlim Htm.
  destruct (timer s) as [z|]; [|done]. injection Htm as <-. specialize (Hr t z Hlim eq_refl). lia.
Qed.

Lemma tick_inv s : run_inv s → can_tick s → run_inv (tick s).
Proof.
  intros [Hd Ht Hp] Hcan. pose proof (λ H, tick_target s H Hcan) as Htarget. destruct Hcan as (_&Hdue&Htg&Hdel).
  split; cbn.
  - destruct (main_step s); [|done]. specialize (Hdel ltac:(by eexists)). lia.
  - intros r Hr. unfold later in Hr. destruct (timer s) as [y|]; [|done]. injection Hr as <-. destruct (Ht y eq_refl).
    split; [|done]. unfold due in Hdue. assert (y ≠ 0) by congruence. lia.
  - unfold place_ok, finished in *. cbn. destruct (pc s); destruct_and?;
      repeat match goal with
      | H : timer s = _ |- _ => rewrite H
      | H : target s = _ |- _ => rewrite H
      end; split_and?; try done; try (by apply Htarget).
    intros Ho Hnone. destruct (timer s) eqn:E; [done|]. auto.
Qed.

Lemma timed_step_inv s s' : timed_step s s' → run_inv s → run_inv s'.
Proof. intros [] Hs; eauto using main_inv, end_inv, ring_inv, tick_inv. Qed.

Lemma reachable_inv s : rtc timed_step (timed_start c) s → run_inv s.
Proof. intros H. eapply rtc_ind_r; [| |exact H]; [apply start_inv|]. intros. by eapply timed_step_inv. Qed.

(** ** Termination *)

Definition rank (p : place) : Z :=
  match p with
  | AtFork => 6 | AtArm => 5 | AtWait => 4 | AtClear => 3 | AtDisarm => 2 | AtJudge => 1 | Returned _ | Gone => 0
  end.
Definition timer_budget (s : timed_run) : Z :=
  match s.(pc) with
  | AtFork | AtArm => default 0 (itimer c.(limit)) + 1
  | _ => match s.(timer) with Some r => r + 1 | None => 0 end
  end.
Definition target_budget (s : timed_run) : Z :=
  match s.(target) with
  | Absent => default 0 c.(duration) + 1
  | Runs r => default 0 r + 1
  | Zombie _ | Reaped => 0
  end.
Definition budget (s : timed_run) : Z := rank s.(pc) + s.(delays) + timer_budget s + target_budget s.

(** There is a limit, or the target ends by itself. *)
Definition bounded : Prop := is_Some (itimer c.(limit)) ∨ is_Some c.(duration).

Lemma limit_nonneg : 0 <= default 0 (itimer c.(limit)).
Proof. destruct (itimer c.(limit)) eqn:E; cbn; [|lia]. apply itimer_range in E. lia. Qed.

Lemma target_budget_nonneg s : run_inv s → 0 <= target_budget s.
Proof.
  intros [_ _ Hp]. assert (0 <= default 0 c.(duration)).
  { destruct (duration c) eqn:E; cbn; [|lia]. by apply (so_duration Hc). }
  unfold target_budget. destruct (target s) as [|r| |] eqn:E; try lia.
  assert (target_ok s) as Htg; [|unfold target_ok in Htg; rewrite E in Htg].
  { unfold place_ok, finished in Hp. destruct (pc s); destruct_and?; done || congruence. }
  destruct Htg as [_ Hr]. destruct r as [x|], (duration c); cbn; lia || done.
Qed.

Lemma budget_nonneg s : run_inv s → 0 <= budget s.
Proof.
  intros Hs. pose proof (target_budget_nonneg s Hs). pose proof limit_nonneg. destruct Hs as [Hd Ht Hp].
  unfold budget. assert (0 <= rank s.(pc)) by (destruct (pc s); cbn; lia). assert (0 <= timer_budget s); [|lia].
  unfold timer_budget. destruct (timer s) as [r|] eqn:E; [destruct (Ht r eq_refl)|]; destruct (pc s); lia.
Qed.

Lemma main_budget s s' : run_inv s → main_step s = Some s' → budget s' < budget s.
Proof.
  pose proof limit_nonneg as Hl.
  intros [Hd Ht Hp] E. unfold main_step, place_ok, finished, budget, timer_budget, target_budget in *.
  destruct (pc s) eqn:Epc; destruct_and?; try done.
  - destruct (forks c); simplify_eq; cbn;
      repeat match goal with H : target s = _ |- _ => rewrite H | H : timer s = _ |- _ => rewrite H end; lia.
  - simplify_eq; cbn. destruct (itimer c.(limit)); cbn in *; lia.
  - destruct (target s); simplify_eq; cbn; lia.
  - simplify_eq; cbn. lia.
  - simplify_eq; cbn. destruct (timer s) as [r|]; [destruct (Ht r eq_refl)|]; lia.
  - destruct (status s); [|done]. cbn in E. simplify_eq. cbn. lia.
Qed.

Lemma end_budget s : s.(target) = Runs (Some 0) →
  budget (Timed s.(pc) s.(child_pid) s.(timed_out) s.(status) s.(timer) (Zombie c.(own)) s.(stray) s.(delays)) < budget s.
Proof. intros E. unfold budget, timer_budget, target_budget. cbn. rewrite E. cbn. lia. Qed.

Lemma ring_budget s : run_inv s → due s.(timer) →
  budget (HandleTimeout (Timed s.(pc) s.(child_pid) s.(timed_out) s.(status) None s.(target) s.(stray) s.(delays))) < budget s.
Proof.
  intros Hs Hdue. pose proof (target_budget_nonneg s Hs) as Hr. destruct Hs as [Hd Ht Hp]. unfold due in Hdue.
  unfold HandleTimeout, kill_child, budget, timer_budget, target_budget, place_ok in *. rewrite Hdue in *. cbn [child_pid].
  case_decide; cbn; destruct (pc s); destruct_and?; try congruence; cbn; destruct (target s); cbn in *; lia.
Qed.

Lemma tick_budget s : bounded → run_inv s → can_tick s → budget (tick s) < budget s.
Proof.
  intros Hb [Hd Ht Hp] (Hrun&Hdue&Hnow&Hdel).
  assert (timer_budget (tick s) <= timer_budget s ∧ (is_Some (timer s) → rank (pc s) <= 4 → timer_budget (tick s) < timer_budget s)) as [Hm1 Hm2].
  { unfold timer_budget, tick. cbn. destruct (pc s), (timer s); cbn; (split; [lia|]); (done || lia || by intros []). }
  assert (target_budget (tick s) <= target_budget s ∧ (∀ x, target s = Runs (Some x) → target_budget (tick s) < target_budget s)) as [Hg1 Hg2].
  { unfold target_budget, tick. cbn. destruct (target s) as [|[x|]| |]; cbn; (split; [lia|]); intros; simplify_eq; lia. }
  unfold budget. change (pc (tick s)) with (pc s). cut (delays (tick s) < delays s ∨
    delays (tick s) = delays s ∧ (timer_budget (tick s) < timer_budget s ∨ target_budget (tick s) < target_budget s)); [lia|].
  unfold tick at 1 2. cbn [delays]. destruct (main_step s) eqn:Em; [left; lia|]. right. split; [done|].
  unfold main_step, place_ok, finished, target_ok in *. destruct (pc s) eqn:Epc; destruct_and?; try done.
  - by destruct (forks c).
  - destruct (target s) as [|r| |] eqn:Et; try done. destruct (timer s) as [y|] eqn:Etm; [left; apply Hm2; [done|cbn; lia]|].
    destruct_and?. destruct r as [x|], (duration c) as [d|] eqn:Ed; try done; [right; by eapply Hg2|].
    destruct Hb as [Hl|Hl]; [|by rewrite Ed in Hl; destruct Hl]. destruct Hl as [t Hl]. rewrite Hl in *. naive_solver.
  - match goal with H : ∃ _, _ |- _ => destruct H as (st&Hst&_) end. by rewrite Hst in Em.
  - destruct Hrun as [[? Hr]|[? Hr]]; congruence.
  - destruct Hrun as [[? Hr]|[? Hr]]; congruence.
Qed.

Lemma step_budget s s' : bounded → run_inv s → timed_step s s' → budget s' < budget s.
Proof.
  intros Hb Hs Hstep. revert Hs. destruct Hstep; intros Hs;
    [by apply main_budget|by apply end_budget|by apply ring_budget|by apply tick_budget].
Qed.

Lemma steps_budget n s s' : bounded → run_inv s → nsteps timed_step n s s' → Z.of_nat n <= budget s.
Proof.
  intros Hb Hs H. induction H as [s|n s s1 s2 Hstep _ IH]; [by apply budget_nonneg|].
  pose proof (step_budget _ _ Hb Hs Hstep). specialize (IH (timed_step_inv _ _ Hstep Hs)). lia.
Qed.

(** ** Progress *)

Definition over (p : place) : bool := match p with Returned _ | Gone => true | _ => false end.

Lemma run_progress s : run_inv s → over s.(pc) = false → ∃ s', timed_step s s'.
Proof.
  intros [Hd Ht Hp] Ho. destruct (main_step s) as [s'|] eqn:Em; [exists s'; by constructor|].
  assert (∃ r, target s = Runs r) as [r Hr].
  { unfold main_step, place_ok, finished in *. destruct (pc s); try done.
    - by destruct (forks c).
    - destruct (target s); try done. by eexists.
    - destruct Hp as (_&_&_&st&Hst&_). by rewrite Hst in Em. }
  destruct (decide (r = Some 0)) as [->|Hne]; [eexists; by apply step_end|].
  destruct (decide (timer s = Some 0)) as [Hdue|Hdue]; [eexists; by apply step_ring|].
  eexists. apply step_tick. split; [right; by eexists|]. split; [done|]. split; [congruence|].
  rewrite Em. by intros [].
Qed.
End alarm.

(** ** A run *)

Lemma judge_fault t b e k st alarm : judge st alarm = fault_of (Child t b e k st alarm).
Proof. done. Qed.

(** C9. A run of the target ends however the fuzzer, the target and the alarm are
    interleaved, when there is a time limit or the target ends by itself: after a bounded
    number of steps, none of which is blocked.  [waitpid] never fails.  When [ExecuteCase]
    returns, the target was waited for, the timer is off and [child_pid] is 0, so that a
    late alarm would do nothing; the result is the one that [ExecuteCase] of [Execution] has
    for the same status and alarm.  A target that never ends is a timeout; one that ends
    before the limit, or whose alarm has not rung, keeps its own status; and so does one
    that was waited for before the handler has sent its signal. *)
Theorem alarm_run c : setting_ok c → bounded c →
  (∀ n s, nsteps (timed_step c) n (timed_start c) s →
     Z.of_nat n <= 8 + c.(slack) + default 0 (itimer c.(limit)) + default 0 c.(duration)) ∧
  ∀ s, rtc (timed_step c) (timed_start c) s →
    (over s.(pc) = false → ∃ s', timed_step c s s') ∧ (s.(pc) = Gone → c.(forks) = false) ∧
    ∀ f, s.(pc) = Returned f →
      s.(target) = Reaped ∧ s.(timer) = None ∧ s.(child_pid) = 0 ∧
      ∃ st, s.(status) = Some st ∧
        (∀ (env : Env) map_size list_size g t b e k,
           run_target g.(runs) g.(files) g.(errorList) (clear_counters g.(shared)) c.(limit) =
             Some (Child t b e k st s.(timed_out)) →
           (ExecuteCase map_size list_size c.(limit) g).1 = Norm f) ∧
        (c.(duration) = None → f = FAULT_TMOUT) ∧
        (∀ d t, c.(duration) = Some d → itimer c.(limit) = Some t → d < t → st = c.(own)) ∧
        (s.(timed_out) = false → st = c.(own)) ∧ (s.(stray) = true → st = c.(own)).
Proof.
  intros Hc Hb. split.
  { intros n s Hn. pose proof (steps_budget c Hc n _ _ Hb (start_inv c Hc) Hn) as H. unfold budget in H.
    unfold timer_budget, target_budget in H. cbn in H. lia. }
  intros s Hs. pose proof (reachable_inv c Hc s Hs) as Hi. split; [by apply run_progress|].
  destruct Hi as [_ _ Hp]. split; [intros E; unfold place_ok in Hp; rewrite E in Hp; by destruct Hp|].
  intros f Ef. unfold place_ok in Hp. rewrite Ef in Hp.
  destruct Hp as (Hpid&Htm&(Htg&st&Hst&Hres&Hstray&Hown)&st'&Hst'&->). assert (st' = st) as -> by congruence.
  do 3 (split; [done|]). exists st. split; [done|]. split; [|split; [|split; [|split; [done|]]]].
  - intros env map_size list_size g t b e k Hrun.
    pose proof (ExecuteCase_run (map_size := map_size) (list_size := list_size) c.(limit) g) as H.
    rewrite Hrun in H. by rewrite H.
  - intros Hd. destruct Hres as [[_ Hx]|(->&->&_)]; [rewrite Hd in Hx; by destruct Hx|done].
  - intros d t Hd Ht Hlt. destruct Hres as [[? _]|(_&_&Hx)]; [done|]. specialize (Hx d t Hd Ht). lia.
  - intros Hx. by apply Hstray.
Qed.

(** A signal can be sent to a process that was waited for already: when the alarm rings
    between [waitpid] and [child_pid = 0].  Its number may belong to another process then. *)
Definition demo_race : setting := Setting 7 (Some 0) (Exited 0) 1 true 1000.

Lemma clear_ticks c p st (n : nat) d : Z.of_nat n <= d →
  rtc (timed_step c) (Timed AtClear p false st (Some (Z.of_nat n)) Reaped false d)
    (Timed AtClear p false st (Some 0) Reaped false (d - Z.of_nat n)).
Proof.
  revert d. induction n as [|n IH]; intros d Hd; [by rewrite Z.sub_0_r|].
  eapply rtc_l; [apply step_tick; split; [left; by eexists|]; split; [unfold due; cbn; intros [=]|]; split; [done|cbn; lia]|].
  unfold tick. cbn [main_step pc child_pid timed_out status timer target stray delays later fmap option_fmap option_map].
  replace (Z.of_nat (S n) - 1) with (Z.of_nat n) by lia.
  replace (d - Z.of_nat (S n)) with (d - 1 - Z.of_nat n) by lia. apply IH. lia.
Qed.

Lemma stray_possible : ∃ s, rtc (timed_step demo_race) (timed_start demo_race) s ∧ s.(stray) = true.
Proof.
  eexists. split.
  - eapply rtc_l; [by apply step_main|]. eapply rtc_l; [by apply step_main|].
    eapply rtc_l; [by apply step_end|]. eapply rtc_l; [by apply step_main|]. cbn.
    etrans; [apply (clear_ticks demo_race 7 (Some (Exited 0)) 1000 1000); lia|].
    eapply rtc_l; [by apply step_ring|]. apply rtc_refl.
  - done.
Qed.

Lemma demo_race_ok : setting_ok demo_race.
Proof. split; cbn; [lia..|]. by intros d [= <-]. Qed.

Lemma alarm_run_witness :
  (∀ n s, nsteps (timed_step demo_race) n (timed_start demo_race) s → Z.of_nat n <= 2008) ∧
  ∀ s, rtc (timed_step demo_race) (timed_start demo_race) s →
    (over s.(pc) = false → ∃ s', timed_step demo_race s s') ∧ (s.(pc) = Gone → true = false).
Proof.
  destruct (alarm_run demo_race) as [H1 H2]; [exact demo_race_ok|left; by eexists|].
  split; [exact H1|]. intros s Hs. destruct (H2 s Hs) as (H3&H4&_). by split.
Defined.
