(* ===== verification/Attach.v ===== *)
(** * The coverage channel

    How the injectors reach the maps of the fuzzer: [init_dst_fuzz] of
    [strace/src/dst_fuzz.c], the first call of [dst_fuzz] of [rr/src/dst_fuzz.cc] and
    [main] of [bpf/dst_fuzz_fault.c], composed with [ShmSetup] of the fuzzer, which
    makes the segments and names them in the environment, and with [has_new_bits],
    which judges what the injectors have counted. *)

From S2P Require Import Prelude.
From S2P Require Import Decimal.
From S2P Require Import TraceMap.
From S2P Require Import Keeping.
From S2P Require Import RandomFile.
From S2P Require Import Startup.
From S2P Require Import Strace.
From S2P Require Import Bpf.
From S2P Require Import Kafka.

Definition FUZZ_COVERAGE_MAP_ENV_ID : string := "AFLCplusplus_BRANCH_TRACE_SHM_ID".
Definition GLOBAL_INDEX_SHM_ENV_VAR : string := "AFLCplusplus_VARIABLE_COUNT_SHMD_ID".

(** What a pointer of an injector points to: a segment, memory of its own that was set to
    zero or not set at all, or nothing: [shmat] has failed and returned [(void * )-1]. *)
Inductive memory := Shared (id : Z) | Zeroed | Garbage | Bad.

Section attach.
Context `{!Kernel}.

(** [shmat((int)atoi(text), NULL, 0)] *)
Definition attach_segment (m : machine) (text : string) : memory :=
  let id := atoi text in
  if decide (is_Some (m.(m_segments) !! id) ∧ may_attach m id = true) then Shared id else Bad.

(** The coverage map, [use_kafka] and the index. *)
Definition init_dst_fuzz (k : rdkafka) : proc machine (memory * bool * memory) :=
  m ← gets id;
  match m.(m_environ) !! "DST_FUZZ" with
  | Some _ =>
      p ← match m.(m_environ) !! FUZZ_COVERAGE_MAP_ENV_ID with
          | Some v => mret (attach_segment m v, false)
          | None =>
              if decide (m.(m_environ) !! "USE_KAFKA" = None) then mret (Garbage, false) else
              init_kafka_producer k ;; mret (Garbage, true)
          end;
      mret (p, match m.(m_environ) !! GLOBAL_INDEX_SHM_ENV_VAR with Some v => attach_segment m v | None => Zeroed end)
  | None => mret (Garbage, false, Garbage)
  end.

(** The first call of [dst_fuzz] under rr; later calls keep the map. *)
Definition rr_init (fuzz_coverage_map : option memory) (m : machine) : memory :=
  match fuzz_coverage_map with
  | Some p => p
  | None =>
      match m.(m_environ) !! "DST_FUZZ" with
      | Some _ =>
          match m.(m_environ) !! FUZZ_COVERAGE_MAP_ENV_ID with Some v => attach_segment m v | None => Garbage end
      | None => Garbage
      end
  end.

(** [fuzz_coverage_map[hash_index]++] through a pointer. *)
Definition count_at (p : memory) (hash_index : Z) : proc machine unit :=
  match p with
  | Shared id =>
      s ← from_option (λ m, m.(m_segments) !! id);
      v ← from_option (λ _, s !! Z.to_nat hash_index);
      shm_fill id (<[Z.to_nat hash_index := u8 (v + 1)]> s)
  | Zeroed | Garbage => mret tt
  | Bad => ub
  end.

(** The bytes of a map of [n] places. *)
Definition image (n : Z) (m : gmap Z Z) : list Z := (λ i, default 0 (m !! i)) <$> seqZ 0 n.

(** [memcpy(fuzz_coverage_map, skel->bss->fuzz_coverage_map, FUZZ_COVERAGE_MAP_SIZE)]; the
    segment is at least as large as the map of the programs. *)
Definition copy_back (n : Z) (k : bpf) : proc machine unit :=
  m ← gets id;
  match m.(m_environ) !! "DST_FUZZ" with
  | None => mret tt
  | Some _ =>
      match m.(m_environ) !! FUZZ_COVERAGE_MAP_ENV_ID with
      | None => mret tt
      | Some v =>
          match attach_segment m v with
          | Shared id =>
              s ← from_option (λ m, m.(m_segments) !! id);
              s' ← from_option (λ _, blit s 0 (image n k.(Bpf.fuzz_coverage_map)));
              shm_fill id s'
          | _ => ub
          end
      end
  end.

(** What [libbpf] and the kernel do for the loader: whether the programs are loaded, the
    result of attaching them, whether the handler is installed, the result of [fork] in the
    loader, and the state of the programs when the server has ended or the loader was
    interrupted. *)
Record libbpf := Libbpf {
  loads : bool;
  attach_result : Z;
  handler_installed : bool;
  forked : Z;
  traced : bpf → bpf;
}.
(** [l_killed]: the arguments of [kill(_, SIGKILL)]. *)
Record loader := Loader { l_random : reader; l_machine : machine; l_killed : list Z }.
Definition on_l_machine {A} (p : proc machine A) : proc loader A :=
  zoom l_machine (λ m s, Loader s.(l_random) m s.(l_killed)) p.

(** [main] of the loader, with its result; [n] is the size of the map. *)
Definition loader_main (n : Z) (b : libbpf) (argc : Z) : proc loader Z :=
  if decide (argc < 2) then mret 0 else
  if negb b.(loads) then mret 1 else
  if decide (b.(attach_result) ≠ 0) then mret (- b.(attach_result)) else
  if negb b.(handler_installed) then mret 0 else
  bytes ← zoom l_random (λ r s, Loader r s.(l_machine) s.(l_killed)) init_fuzz_bytes;
  node ← gets (λ s, match s.(l_machine).(m_environ) !! "NODE_ID" with Some v => u32 (atoi v) | None => 0 end);
  modify (λ s, Loader s.(l_random) s.(l_machine) (s.(l_killed) ++ [b.(forked)])) ;;
  on_l_machine (copy_back n (b.(traced) (loaded bytes node))) ;;
  mret 0.
End attach.

(** ** Counting *)

(** A map after the events [l]: each place counts its events, modulo 256. *)
Definition tally (l : list Z) (s : list Z) : list Z :=
  imap (λ i v, u8 (v + occurrences (Z.of_nat i) l)) s.

Lemma occurrences_cons h x l : occurrences h (x :: l) = (if decide (x = h) then 1 else 0) + occurrences h l.
Proof. unfold occurrences. rewrite filter_cons. unfold zlen. case_decide; cbn [length]; lia. Qed.

Lemma u8_add a b : u8 (u8 a + b) = u8 (a + b).
Proof. unfold u8. apply Zplus_mod_idemp_l. Qed.

Lemma tally_cons x l s : (Z.to_nat x < length s)%nat → 0 <= x →
  tally l (<[Z.to_nat x := u8 (default 0 (s !! Z.to_nat x) + 1)]> s) = tally (x :: l) s.
Proof.
  intros Hx H0. apply list_eq. intros i. unfold tally. rewrite !list_lookup_imap.
  destruct (decide (i = Z.to_nat x)) as [->|Hne].
  - rewrite list_lookup_insert_eq by done. destruct (lookup_lt_is_Some_2 s _ Hx) as [v ->]. cbn. f_equal.
    rewrite u8_add, occurrences_cons, decide_True by lia. f_equal. lia.
  - rewrite list_lookup_insert_ne by done. destruct (s !! i); [|done]. cbn. f_equal. f_equal.
    rewrite occurrences_cons, decide_False by lia. lia.
Qed.

Lemma tally_nil s : Forall is_u8 s → tally [] s = s.
Proof.
  intros Hs. apply list_eq. intros i. unfold tally. rewrite list_lookup_imap.
  destruct (s !! i) as [v|] eqn:E; [|done]. cbn. unfold occurrences. cbn. rewrite Z.add_0_r, u8_id; [done|].
  rewrite list.Forall_forall in Hs. by eapply Hs, list_elem_of_lookup_2.
Qed.

Lemma tally_length l s : length (tally l s) = length s.
Proof. apply length_imap. Qed.

Lemma count_at_run id l m s R E : m.(m_segments) !! id = Some s → Forall is_u8 s →
  Forall (λ h, 0 <= h < zlen s) l →
  wp (for_each l (count_at (Shared id)))
    (λ _ m', m' = set_segments (<[id := tally l s]> m.(m_segments)) m) R E m.
Proof.
  revert m s. induction l as [|h l IH]; intros m s Hs Hu Hl; cbn [for_each].
  - wp_step. rewrite tally_nil by done. rewrite insert_id by done. by destruct m.
  - apply list.Forall_cons in Hl as [Hh Hl]. unfold zlen in *.
    destruct (lookup_lt_is_Some_2 s (Z.to_nat h)) as [v Hv]; [lia|].
    wp_step. unfold count_at. wp_step. eapply wp_from_option; [done|]. wp_step. eapply wp_from_option; [done|].
    unfold shm_fill. wp_step. set (s1 := <[Z.to_nat h := u8 (v + 1)]> s). eapply wp_conseq; [apply (IH _ s1)|].
    + cbn. apply lookup_insert_eq.
    + unfold s1. apply Forall_insert; [done|apply u8_range].
    + unfold s1. by rewrite length_insert.
    + intros _ m' ->. unfold set_segments. cbn. f_equal. rewrite insert_insert_eq. f_equal. unfold s1.
      rewrite <-tally_cons by lia. by rewrite Hv.
Qed.

(** The map of the strace injector, as [Strace] has it, is the segment. *)
Lemma image_lookup n m i : image n m !! i = if decide (Z.of_nat i < n) then Some (default 0 (m !! Z.of_nat i)) else None.
Proof.
  unfold image. rewrite list_lookup_fmap. case_decide.
  - by rewrite lookup_seqZ_lt by lia.
  - by rewrite lookup_seqZ_ge by lia.
Qed.

Lemma count_event_image `{!Tracee} n l t : 0 <= n → t.(i).(use_kafka) = false → Forall (λ h, 0 <= h < n) l →
  map_Forall (λ _ v, is_u8 v) t.(i).(Strace.fuzz_coverage_map) →
  wp (for_each l count_event)
    (λ _ t', image n t'.(i).(Strace.fuzz_coverage_map) = tally l (image n t.(i).(Strace.fuzz_coverage_map)))
    (λ _ _, False) (λ _ _, False) t.
Proof.
  intros Hn. revert t. induction l as [|h l IH]; intros t Hk Hl Hu; cbn [for_each].
  - wp_step. rewrite tally_nil; [done|]. apply list.Forall_forall. intros v.
    rewrite list_elem_of_lookup. intros [k Hx]. rewrite image_lookup in Hx. case_decide; [|done].
    injection Hx as <-. destruct (_ !! Z.of_nat k) eqn:E; [by apply Hu in E|apply is_u8_0].
  - apply list.Forall_cons in Hl as [Hh Hl]. wp_step. unfold count_event. wp_step. wp_step.
    rewrite Hk. wp_step. eapply wp_conseq; [apply IH; [exact Hk|done|]|].
    + cbn. apply map_Forall_insert_2; [apply u8_range|done].
    + intros _ t' ->. cbn. unfold bump. rewrite <-tally_cons; [f_equal|unfold image; rewrite length_fmap, length_seqZ; lia|lia].
      apply list_eq. intros k. rewrite image_lookup. destruct (decide (k = Z.to_nat h)) as [->|Hne].
      * rewrite list_lookup_insert_eq by (unfold image; rewrite length_fmap, length_seqZ; lia).
        rewrite image_lookup, !decide_True by lia. rewrite Z2Nat.id by lia. by rewrite lookup_insert_eq.
      * rewrite list_lookup_insert_ne by done. rewrite image_lookup. case_decide; [|done].
        by rewrite lookup_insert_ne by lia.
Qed.

(** ** Judging *)

Lemma max_flag_new cur vir :
  max_list (zip_with byte_flag cur vir) = 2 ↔ ∃ i c, cur !! i = Some c ∧ c ≠ 0 ∧ vir !! i = Some 255.
Proof.
  unfold max_list. revert vir. induction cur as [|c cur IH]; intros [|v vir]; cbn [zip_with foldr].
  1-3: split; [done|]; intros (k&x&Hx&_&Hv); by destruct k.
  pose proof (max_flags_range cur vir) as Hr. unfold max_list in Hr. specialize (IH vir).
  assert (byte_flag c v = 2 ↔ c ≠ 0 ∧ v = 255) as Hf.
  { unfold byte_flag. destruct (Z.eqb_spec c 0), (Z.eqb_spec v 255); [split; lia..|case_match; lia]. }
  pose proof (byte_flag_range c v). split.
  - intros E. destruct (decide (byte_flag c v = 2)) as [[H1 ->]%Hf|Hne]; [by exists O, c|].
    destruct (proj1 IH) as (k&x&Hk); [lia|]. by exists (S k), x.
  - intros ([|k]&x&Hx&Hx0&Hv); cbn in Hx, Hv; simplify_eq.
    + assert (byte_flag x 255 = 2) by (by apply Hf). lia.
    + assert (foldr Z.max 0 (zip_with byte_flag cur vir) = 2) by (apply IH; by exists k, x). lia.
Qed.

(** ** Attaching *)

Section channel.
Context `{!Kernel} `{!KernelOK}.

Lemma attach_segment_ok m id : is_Some (m.(m_segments) !! id) → 0 <= id < 2 ^ 31 → attach_segment m (to_string id) = Shared id.
Proof.
  intros Hs Hid. unfold attach_segment. rewrite atoi_to_string by done. cbv zeta.
  rewrite decide_True; [done|]. split; [done|]. by apply segment_attached.
Qed.

(** A process that inherits the environment, [DST_FUZZ] apart. *)
Definition inherits (env env' : gmap string string) : Prop :=
  ∀ v x, v ≠ "DST_FUZZ" → env !! v = Some x → env' !! v = Some x.

Lemma attached k map_size list_size s m m1 env :
  placed (shm_layout map_size list_size s) m m1 → inherits m1.(m_environ) env → is_Some (env !! "DST_FUZZ") →
  let m2 := set_environ env m1 in
  init_dst_fuzz k m2 = (Norm (Shared s.(branch_trace_shmid), false, Shared s.(variable_count_shmid)), m2) ∧
  rr_init None m2 = Shared s.(branch_trace_shmid).
Proof.
  intros Hp He [d Hd] m2.
  set (b := (BRANCH_TRACE_SHM_ENV_VAR, s.(branch_trace_shmid), replicate (Z.to_nat map_size) 0)).
  set (v := (VARIABLE_COUNT_SHM_ENV_VAR, s.(variable_count_shmid), replicate (Z.to_nat SIZEOF_U64) 0)).
  assert (b ∈ shm_layout map_size list_size s) as Hb
    by (unfold shm_layout; repeat first [apply list_elem_of_here|apply list_elem_of_further]).
  assert (v ∈ shm_layout map_size list_size s) as Hv
    by (unfold shm_layout; repeat first [apply list_elem_of_here|apply list_elem_of_further]).
  assert (∀ x, x ∈ shm_layout map_size list_size s → env !! x.1.1 = Some (to_string x.1.2) ∧
    attach_segment m2 (to_string x.1.2) = Shared x.1.2) as Hx.
  { intros x Hin. split.
    { apply He; [|apply (pl_environ _ _ _ Hp x Hin)]. clear -Hin. unfold shm_layout in Hin.
      repeat (apply elem_of_cons in Hin as [->|Hin]; [done|]). by apply elem_of_nil in Hin. }
    apply attach_segment_ok; [|apply (pl_new _ _ _ Hp x Hin)]. cbn. rewrite (pl_content _ _ _ Hp x Hin). by eexists. }
  destruct (Hx b Hb) as [Eb Sb], (Hx v Hv) as [Ev Sv]. cbn in Eb, Sb, Ev, Sv.
  unfold init_dst_fuzz, rr_init, mbind, proc_bind, gets, id. cbn [m_environ set_environ m2]. rewrite Hd.
  change FUZZ_COVERAGE_MAP_ENV_ID with BRANCH_TRACE_SHM_ENV_VAR.
  change GLOBAL_INDEX_SHM_ENV_VAR with VARIABLE_COUNT_SHM_ENV_VAR. by rewrite Eb, Ev, Sb, Sv.
Qed.
End channel.

Lemma tally_zeros n l : tally l (replicate (Z.to_nat n) 0) = (λ h, u8 (occurrences h l)) <$> seqZ 0 n.
Proof.
  apply list_eq. intros k. unfold tally. rewrite list_lookup_imap, list_lookup_fmap.
  destruct (decide (Z.of_nat k < n)) as [Hk|Hk].
  - rewrite lookup_replicate_2 by lia. by rewrite lookup_seqZ_lt by lia.
  - rewrite (proj1 (lookup_replicate_None _ _ _)) by lia. by rewrite lookup_seqZ_ge by lia.
Qed.


(** ** The loader of the BPF programs *)

Section loader.
Context `{!Kernel} `{!KernelOK}.

(** The environment of a server: it is fuzzed, and its branch map is the segment [id]. *)
Record served (id : Z) (n : Z) (m : machine) : Prop := Served {
  se_fuzz : is_Some (m.(m_environ) !! "DST_FUZZ");
  se_name : m.(m_environ) !! FUZZ_COVERAGE_MAP_ENV_ID = Some (to_string id);
  se_id : 0 <= id < 2 ^ 31;
  se_segment : ∃ s, m.(m_segments) !! id = Some s ∧ zlen s = n;
}.

Lemma image_length n m : 0 <= n → zlen (image n m) = n.
Proof. intros Hn. unfold zlen, image. rewrite length_fmap, length_seqZ. lia. Qed.

Lemma copy_back_run id n k m : 0 <= n → served id n m →
  copy_back n k m = (Norm tt, set_segments (<[id := image n k.(Bpf.fuzz_coverage_map)]> m.(m_segments)) m).
Proof.
  intros Hn [[d Hd] He Hid (s&Hs&Hl)]. unfold copy_back, mbind, proc_bind, gets. cbn. rewrite Hd, He.
  rewrite attach_segment_ok by (done || by eexists). unfold from_option at 1. rewrite Hs. unfold from_option, blit.
  rewrite decide_True by (rewrite image_length; lia). unfold shm_fill, modify. do 3 f_equal.
  rewrite take_0, app_nil_l, drop_ge, app_nil_r; [done|]. pose proof (image_length n k.(Bpf.fuzz_coverage_map) Hn).
  unfold zlen in *. lia.
Qed.

Lemma served_insert id n l m : served id n m → zlen l = n → served id n (set_segments (<[id := l]> m.(m_segments)) m).
Proof. intros [? ? ? ?] Hl. split; cbn; [done..|]. exists l. by rewrite lookup_insert_eq. Qed.

(** Each loader copies its whole map: what the server of an earlier one has covered is
    lost. *)
Lemma loader_overwrites id n k1 k2 m : 0 <= n → served id n m →
  (copy_back n k1 ;; copy_back n k2) m = copy_back n k2 m.
Proof.
  intros Hn Hs. unfold mbind, proc_bind. rewrite (copy_back_run id n k1 m) by done. cbn [fst].
  rewrite (copy_back_run id n k2 m), (copy_back_run id n k2 (set_segments _ _)); try done.
  - unfold set_segments. cbn. by rewrite insert_insert_eq.
  - apply served_insert; [done|by apply image_length].
Qed.

(** A loader that gets that far gives the programs the next bytes of the input, kills what
    [fork] returned, which is every process when it has failed with -1, and leaves the map
    of the programs in the segment of the fuzzer. *)
Theorem loader_copies id n b argc s : 0 <= n → served id n s.(l_machine) → reader_ok s.(l_random) →
  2 <= argc → b.(loads) = true → b.(attach_result) = 0 → b.(handler_installed) = true →
  ∃ node r', let bytes := (next_n (Z.to_nat FUZZ_BYTES_SIZE) (left_of s.(l_random))).1 in
    let k := b.(traced) (loaded bytes node) in
    loader_main n b argc s = (Norm 0, Loader r'
      (set_segments (<[id := image n k.(Bpf.fuzz_coverage_map)]> s.(l_machine).(m_segments)) s.(l_machine))
      (s.(l_killed) ++ [b.(forked)])) ∧
    reader_ok r'.
Proof.
  intros Hn Hs Hr Ha Ho Ht Hh. unfold loader_main. rewrite decide_False by lia. rewrite Ho, Ht, Hh. cbn [negb].
  rewrite decide_False by (intros []; done). unfold init_fuzz_bytes.
  destruct (read_bytes_run (Z.to_nat FUZZ_BYTES_SIZE) s.(l_random) Hr) as (r'&E&Hr'&_).
  eexists _, r'. split; [|done]. unfold mbind at 1, proc_bind, zoom at 1. rewrite E.
  unfold mbind, proc_bind, gets, modify, on_l_machine, zoom. cbn [l_machine l_random l_killed]. rewrite (copy_back_run id n) by done.
  reflexivity.
Qed.
End loader.

(** ** Witnesses *)

