(* ===== verification/System.v ===== *)
(** * The fuzzer and the driver together

    The fuzzer runs the driver of a test as its target ([execv] in [ExecuteCase] of
    [fuzz/fuzzer/old/TestRunning.cpp], [main] of [core/src/dst_test_main.cpp]).  Here the
    field [run_target] of the surroundings of the fuzzer is the model of the driver: the
    file that the fuzzer has written is the input of the driver, and the way the driver
    ends is the wait status that the fuzzer judges.  The last part follows the input from
    [split_files] to the readers of the driver and of the servers. *)

From S2P Require Import Prelude.
From S2P Require Import Decimal.
From S2P Require Import TraceMap.
From S2P Require Import Faults.
From S2P Require Import Execution.
From S2P Require Import Keeping.
From S2P Require Import Found.
From S2P Require Import RandomFile.
From S2P Require Import Nodes.
From S2P Require Import Store.
From S2P Require Import TestMain.

Definition SIGABRT : Z := 6.

(** The wait status of a process: [abort] is a signal, other exits have a code of eight
    bits; what has no defined behaviour may end in any way, [wild]. *)
Definition status_of {A} (wild : wait_status) (r : outcome A) : wait_status :=
  match r with
  | Norm _ => Exited 0
  | Ret v => Exited (u8 v)
  | Exit c => if decide (c = ABORTED) then Signaled SIGABRT else Exited (u8 c)
  | UB | Diverge => wild
  end.

Lemma on_time t b e k st : fault_of (Child t b e k st false) ≠ FAULT_TMOUT.
Proof. unfold fault_of. cbn. destruct st; [done|]. rewrite decide_False by (by intros [? ?]). done. Qed.

(** ** The count of crashes *)

Section crashes.
Context {cfg : config} {map_size list_size : Z}.

Lemma prepared_input mem g g1 : prepared (cfg := cfg) (map_size := map_size) mem None g g1 →
  counts g1 total_crash_count = counts g total_crash_count ∧ files g1 !! cfg.(testfile) = Some mem.
Proof. intros (g0&(t&v&vb&p&->&_&_)&->). split; [done|]. cbn. by rewrite lookup_insert_eq. Qed.

Lemma after_run_crashes c g : counts (after_run map_size c g) total_crash_count = counts g total_crash_count.
Proof. unfold after_run. by destruct (c_status c). Qed.

(** The number of crashes that a judged run adds. *)
Lemma judged_crashes mem st g k g' : cfg.(fuzzing_error) = false → st ≠ FAULT_TMOUT →
  judged (cfg := cfg) (map_size := map_size) (list_size := list_size) mem st g k g' →
  counts g' total_crash_count =
    counts g total_crash_count + if decide (st = FAULT_CRASH) then 1 else 0.
Proof.
  intros Herrors Hst Hj. case_decide as Hc.
  - destruct (jd_crash _ _ _ _ _ Hj Hc) as [-> _ _]; [by rewrite Herrors|done].
  - destruct (jd_none _ _ _ _ _ Hj) as [Hn _]; [set_solver|]. rewrite Hn; [lia|].
    unfold numbering. set_solver.
Qed.

End crashes.

(** ** The driver as the target *)

Section system.
Context {os process : Type} `{!Host os process} `{!Generator} `{!HostOK os process}.
Context {X : Type} `{!TestHost X} `{!TestHostOK X}.
Context (shmget : gmap Z Z → Z).
Context (critical : list (string * proc (cluster (os := os) (child := process)) bool)).
Abbreviation world := (TestMain.world (os := os) (child := process) (X := X)).

(** The command line of the driver; the machine in which its [n]-th run starts, given the
    files of the fuzzer; the maps that the run leaves in the shared memory; whether the
    run takes longer than the fuzzer waits. *)
Context (argv : list string) (start : nat → fs → world).
Context (left_maps : nat → shm_counters → world → list Z * list Z * list Z * shm_counters) (overtime : nat → fs → bool).
Context (wild : wait_status) (around : Env).

Definition run_driver (n : nat) (f : fs) (errors : list Z) (k : shm_counters) (timeout : Z) :
    option Execution.child :=
  let '(r, w) := test_main shmget critical argv (start n f) in
  let '(t, b, e, k') := left_maps n k w in
  Some (if overtime n f then Child t b e k' (Signaled SIGKILL) true
        else Child t b e k' (status_of wild r) false).

Definition system_env : Env := {|
  run_target := run_driver;
  clock := @clock around;
  Execution.disk := @Execution.disk around;
  peers := @peers around;
  rand_at := @rand_at around;
|}.

Context {cfg : config}.
Abbreviation opts := (parse_options argv).
Abbreviation o := (settings_of opts).
Hypothesis Hhelp : opts !! "help" = None.
Hypothesis Hpauses : pauses_ok o.
Hypothesis Hcounts : counts_ok o.
Hypothesis Hcritical : Forall (λ x, sound x.2) critical.

(** The test file of the fuzzer is the random file of the driver. *)
Hypothesis Hstart : ∀ n f x, f !! cfg.(testfile) = Some x → file_ok x →
  fresh_driver shmget (start n f) ∧ (start n f).(w_cluster).(disk) !! o.(random_file) = Some x.

(** What the fuzzer concludes from a run. *)
Definition concluded (r : outcome unit) (w w' : world) (crashes : Z) : Prop :=
  let count := read_count w.(w_cluster).(disk) in
  match r with
  | Norm _ => finished o count w' ∧ (CheckFailed ∉ w'.(trace)) ∧ crashes = 0
  | Exit c => ended o count c w' ∧ crashes = (if decide (c = ABORTED) then 1 else 0)
  | _ => False
  end.

Lemma fault_of_status r t b e k :
  fault_of (Child t b e k (status_of wild (A := unit) r) false) =
  match r with
  | Norm _ | Ret _ => FAULT_NONE
  | Exit c => if decide (c = ABORTED) then FAULT_CRASH else FAULT_NONE
  | _ => match wild with Exited _ => FAULT_NONE | Signaled _ => FAULT_CRASH end
  end.
Proof.
  destruct r; cbn; try done; [case_decide; [|done]|destruct wild; [done|]..]; cbn; by rewrite decide_False by (intros [? ?]; done).
Qed.

(** The run of the driver on an input. *)
Lemma driver_run n f x : f !! cfg.(testfile) = Some x → file_ok x →
  let '(r, w') := test_main shmget critical argv (start n f) in
  concluded r (start n f) w' (if decide (fault_of (Child [] [] [] (ShmCounters 0 0 0) (status_of wild r) false) = FAULT_CRASH) then 1 else 0).
Proof.
  intros Hx Hok. destruct (Hstart n f x Hx Hok) as [Hf _].
  pose proof (test_main_ok shmget critical argv (start n f) Hhelp Hf Hpauses Hcounts Hcritical) as Hrun.
  unfold wp in Hrun. destruct (test_main _ _ _ _) as [r w']. rewrite fault_of_status.
  destruct r; try done; cbn.
  - destruct Hrun. by split.
  - split; [done|]. by destruct (decide (code = ABORTED)).
Qed.
End system.


(** ** The bytes of each process *)

(** [getenv] in a process that was started with [l]. *)
Definition getenv_in (l : launch) (name : string) : option string :=
  snd ∘ snd <$> list_find (λ x, x.1 = name) l.(l_env).

(** A process that opens a file of random bytes and makes the requests [qs]. *)
Lemma opened_answers (f : fs) x l qs : f !! x = Some l → zlen l < 2 ^ 32 → Forall is_u8 l →
  ∃ s s', init_random_file f (Some x) fresh_reader = (Norm tt, s) ∧
    serve_all qs s = (Norm (answers qs l).1, s').
Proof.
  intros Hx Hl Hb. destruct (opened_reader_ok 0 l ltac:(lia) Hl Hb) as [Hok Hby].
  destruct (serve_all_run qs _ Hok) as (s'&E&_). unfold left_of in E. rewrite Hby in E.
  eexists _, s'. split; [|exact E]. cbn. unfold file_to_string. by rewrite Hx.
Qed.

Lemma write_files_node n i : 0 <= i < n → write_files n !! S (Z.to_nat i) = Some (node_file i).
Proof.
  intros Hi. unfold write_files. rewrite lookup_cons_ne_0 by done. cbn [Nat.pred].
  rewrite list_lookup_fmap, lookup_seqZ_lt by lia. cbn [fmap option_fmap option_map]. do 2 f_equal. lia.
Qed.

(** C11. Every process of a test decides by its own part of the input of the fuzzer.  After
    [split_files] the driver reads from the first share of the input, at the index it had
    reached.  Each server below [n] that is started or restarted while the files of the
    nodes are as they were written opens the file that its environment names and, whatever
    it asks for, is answered from the start of its share, with zeros at the end.  The shares
    are consecutive parts of the input of the same length. *)
Theorem inputs_dealt {os process : Type} `{!Host os process} `{!Generator} name content n f r :
  f !! name = Some content → 0 <= n < 2 ^ 32 → zlen content < 2 ^ 32 → Forall is_u8 content →
  0 <= r.(fuzz_file_index) < 2 ^ 32 →
  ∃ f' r', split_files name n (f, r) = (Norm tt, (f', r')) ∧
    (∀ qs, ∃ s', serve_all qs r' =
       (Norm (answers qs (drop (Z.to_nat r.(fuzz_file_index)) (share content n 0))).1, s')) ∧
    (∀ (w : cluster (os := os) (child := process)) ni qs, 0 <= ni.(node_id) < n →
       w.(disk) !! node_file ni.(node_id) = f' !! node_file ni.(node_id) →
       ∃ s s', init_random_file w.(disk) (getenv_in (launch_of w ni) "__DST_ENV_RANDOM_FILE__") fresh_reader =
           (Norm tt, s) ∧
         serve_all qs s = (Norm (answers qs (share content n (S (Z.to_nat ni.(node_id))))).1, s')) ∧
    (∃ rest, content = concat (share content n <$> seq 0 (S (Z.to_nat n))) ++ rest ∧ zlen rest <= n) ∧
    (∀ k, Z.of_nat k <= n → zlen (share content n k) = zlen content / (n + 1)).
Proof.
  intros Hf Hn Hc Hb Hr. pose proof (zlen_nonneg content).
  pose proof (Z.div_le_upper_bound (zlen content) (n + 1) (zlen content) ltac:(lia) ltac:(nia)) as Hle.
  assert (∀ k, Z.of_nat k <= n → zlen (share content n k) = zlen content / (n + 1)) as Hs
    by (intros; apply zlen_share; lia).
  destruct (split_files_shares name content n f r Hf Hn) as (f'&E&Hp&_).
  eexists f', _. split; [exact E|]. split; [|split; [|split; [by apply shares_concat; lia|done]]].
  - intros qs. destruct (opened_reader_ok r.(fuzz_file_index) (share content n 0)) as [Hok Hby];
      [done|rewrite Hs; lia|by apply share_u8|].
    destruct (serve_all_run qs _ Hok) as (s'&E'&_). exists s'. unfold left_of in E'. by rewrite Hby in E'.
  - intros w ni qs Hi Hd. rewrite (Hp _ _ (write_files_node n _ Hi)) in Hd.
    apply (opened_answers _ _ _ qs) in Hd; [exact Hd|rewrite Hs; lia|by apply share_u8].
Qed.

Lemma inputs_dealt_witness :
  let content := [1; 2; 3; 4; 5; 6; 7] in
  ∃ f' r', split_files "input" 2 ({["input" := content]}, fresh_reader) = (Norm tt, (f', r')) ∧
    (∀ qs, ∃ s', serve_all qs r' = (Norm (answers qs (drop 0 (share content 2 0))).1, s')) ∧
    (∀ (w : cluster (os := nat * gset nat) (child := nat)) ni qs, 0 <= ni.(node_id) < 2 →
       w.(disk) !! node_file ni.(node_id) = f' !! node_file ni.(node_id) →
       ∃ s s', init_random_file w.(disk) (getenv_in (launch_of w ni) "__DST_ENV_RANDOM_FILE__") fresh_reader =
           (Norm tt, s) ∧
         serve_all qs s = (Norm (answers qs (share content 2 (S (Z.to_nat ni.(node_id))))).1, s')) ∧
    (∃ rest, content = concat (share content 2 <$> seq 0 3) ++ rest ∧ zlen rest <= 2) ∧
    (∀ k, Z.of_nat k <= 2 → zlen (share content 2 k) = zlen content / (2 + 1)).
Proof.
  apply (inputs_dealt "input" [1; 2; 3; 4; 5; 6; 7] 2 {["input" := [1; 2; 3; 4; 5; 6; 7]]} fresh_reader);
    [done|lia|done| |cbn; lia].
  apply (bool_decide_unpack _). vm_compute. exact I.
Defined.

(** ** A run of both *)

Definition demo_start (n : nat) (f : fs) : TestMain.world (os := nat * gset nat) (child := nat) (X := unit) :=
  set_cluster (set_disk (<["init_random.txt" := default [] (f !! "t")]> demo_world.(w_cluster).(disk))
    demo_world.(w_cluster)) demo_world.
Definition demo_maps (n : nat) (k : shm_counters)
    (w : TestMain.world (os := nat * gset nat) (child := nat) (X := unit)) :
    list Z * list Z * list Z * shm_counters :=
  (replicate 8 1, replicate 8 0, replicate 8 0, k).
Definition demo_system : Env :=
  system_env (λ _, 1) demo_critical TestMain.demo_argv demo_start demo_maps (λ _ _, false) (Exited 0) demo_env.

Lemma demo_system_ok : @EnvOK demo_system 8 8.
Proof.
  destruct demo_env_ok as [_ Hd Hp Hc Hr]. split; [|exact Hd|exact Hp|exact Hc|exact Hr].
  intros n f l k t c. cbn. unfold run_driver. destruct (test_main _ _ _ _) as [r w]. intros [= <-]. cbn.
  split_and!; (split; [done|]); repeat constructor; unfold is_u8; lia.
Qed.

