(* ===== verification/ForkServer.v ===== *)
(** * The fork server

    [fuzz/fuzzer/old/ForkServer.cpp] and the calls of it in [ExecuteCase] of
    [TestRunning.cpp]: a target with a fork server in it is started once, and asked over
    a pair of pipes for a new process for each run.  [no_forkserver] is 1, so that the
    fuzzer as it is does not reach this code.  The other end of the pipes is the class
    [ForkPeer]. *)

From S2P Require Import Prelude.

Definition FORSRV_FD : Z := 198.
Definition FORK_WAIT_MULT : Z := 10.

(** What [pipe], [fork], [read] and [write] do: the descriptors of a pipe, the result of
    [fork] in the fuzzer, the number that the [n]-th [read] of four bytes delivers and
    whether the [n]-th [write] of four bytes is complete. *)
Class ForkPeer := {
  pipe : nat → option (Z * Z);
  fork : Z;
  read4 : nat → option Z;
  write4 : nat → bool;
}.

(** [closed] and [timers] record the calls of [close] and [setitimer], [sent] what was
    written. *)
Record fsrv := Fsrv {
  fsrv_ctl_fd : Z;
  fsrv_st_fd : Z;
  forkserver_pid : Z;
  closed : list Z;
  timers : list (Z * Z);
  reads : nat;
  sent : list Z;
}.

(** ** The child *)

(** The ends of the pipes, and the descriptors of a process. *)
Inductive end_of := DevNull | CtlRead | CtlWrite | StRead | StWrite.
Abbreviation fds := (gmap Z end_of).

Definition dup2 (old new : Z) : proc fds bool :=
  t ← gets (λ t : fds, t !! old);
  match t with
  | Some f => modify (insert new f) ;; mret true
  | None => mret false
  end.

(** What the child does before [system(cmd)]: the descriptors that the target gets. *)
Definition forkserver_child (st_r st_w ctl_r ctl_w dev_null_fd : Z) : proc fds unit :=
  dup2 dev_null_fd 0 ;; dup2 dev_null_fd 1 ;; dup2 dev_null_fd 2 ;;
  a ← dup2 ctl_r FORSRV_FD;
  if negb a then exit_ (-1) else
  b ← dup2 st_w (FORSRV_FD + 1);
  if negb b then exit_ (-1) else
  modify (delete ctl_r) ;; modify (delete ctl_w) ;; modify (delete st_r) ;; modify (delete st_w) ;;
  modify (delete dev_null_fd).

Lemma dup2_run old new f t : t !! old = Some f → dup2 old new t = (Norm true, <[new := f]> t).
Proof. intros E. unfold dup2, mbind, proc_bind, gets. by rewrite E. Qed.

(** The target finds the pipes at the two agreed descriptors, and no other end of them:
    the fuzzer's death is the end of its input. *)
Lemma forkserver_child_fds st_r st_w ctl_r ctl_w d t :
  NoDup [0; 1; 2; FORSRV_FD; FORSRV_FD + 1; st_r; st_w; ctl_r; ctl_w; d] →
  t = {[ st_r := StRead; st_w := StWrite; ctl_r := CtlRead; ctl_w := CtlWrite; d := DevNull ]} →
  ∃ t', forkserver_child st_r st_w ctl_r ctl_w d t = (Norm tt, t') ∧
    t' = {[ 0 := DevNull; 1 := DevNull; 2 := DevNull; FORSRV_FD := CtlRead; FORSRV_FD + 1 := StWrite ]}.
Proof.
  unfold FORSRV_FD. rewrite !list.NoDup_cons, !not_elem_of_cons. intros Hn ->. destruct_and! Hn.
  unfold forkserver_child, FORSRV_FD, mbind, proc_bind.
  rewrite (dup2_run d 0 DevNull) by (by simplify_map_eq).
  rewrite (dup2_run d 1 DevNull) by (by simplify_map_eq).
  rewrite (dup2_run d 2 DevNull) by (by simplify_map_eq).
  rewrite (dup2_run ctl_r 198 CtlRead) by (by simplify_map_eq). cbn [negb].
  rewrite (dup2_run st_w (198 + 1) StWrite) by (by simplify_map_eq). cbn [negb]. unfold modify.
  eexists. split; [reflexivity|]. apply map_eq. intros k.
  assert (∀ x : Z, x = k ∨ x ≠ k) as Hd by (intros x; destruct (decide (x = k)); [by left|by right]).
  destruct (Hd d) as [<-|]; [by simplify_map_eq|].
  destruct (Hd st_w) as [<-|]; [by simplify_map_eq|].
  destruct (Hd st_r) as [<-|]; [by simplify_map_eq|].
  destruct (Hd ctl_w) as [<-|]; [by simplify_map_eq|].
  destruct (Hd ctl_r) as [<-|]; [by simplify_map_eq|].
  destruct (Hd 0) as [<-|]; [by simplify_map_eq|].
  destruct (Hd 1) as [<-|]; [by simplify_map_eq|].
  destruct (Hd 2) as [<-|]; [by simplify_map_eq|].
  destruct (Hd 198) as [<-|]; [by simplify_map_eq|].
  destruct (Hd (198 + 1)) as [<-|]; by simplify_map_eq.
Qed.

Section forkserver.
Context `{!ForkPeer}.

Definition error_exit {A} : proc fsrv A := exit_ (-1).

Definition set_pipes (ctl st : Z) (s : fsrv) : fsrv :=
  Fsrv ctl st s.(forkserver_pid) s.(closed) s.(timers) s.(reads) s.(sent).
Definition set_pid (pid : Z) (s : fsrv) : fsrv :=
  Fsrv s.(fsrv_ctl_fd) s.(fsrv_st_fd) pid s.(closed) s.(timers) s.(reads) s.(sent).
Definition close (fd : Z) : proc fsrv unit :=
  modify (λ s, Fsrv s.(fsrv_ctl_fd) s.(fsrv_st_fd) s.(forkserver_pid) (s.(closed) ++ [fd]) s.(timers) s.(reads) s.(sent)).
Definition setitimer (sec usec : Z) : proc fsrv unit :=
  modify (λ s, Fsrv s.(fsrv_ctl_fd) s.(fsrv_st_fd) s.(forkserver_pid) s.(closed) (s.(timers) ++ [(sec, usec)]) s.(reads) s.(sent)).

(** [read(fsrv_st_fd, &x, 4)]: [None] when it does not return 4. *)
Definition read_word : proc fsrv (option Z) :=
  n ← gets reads;
  modify (λ s, Fsrv s.(fsrv_ctl_fd) s.(fsrv_st_fd) s.(forkserver_pid) s.(closed) s.(timers) (S n) s.(sent)) ;;
  mret (read4 n).
Definition write_word (v : Z) : proc fsrv bool :=
  l ← gets sent;
  modify (λ s, Fsrv s.(fsrv_ctl_fd) s.(fsrv_st_fd) s.(forkserver_pid) s.(closed) s.(timers) s.(reads) (l ++ [v])) ;;
  mret (write4 (length l)).

(** The fuzzer's side; the child becomes the target. *)
Definition init_forkserver (exec_tmout : Z) : proc fsrv unit :=
  match pipe 0, pipe 1 with
  | Some (st_r, st_w), Some (ctl_r, ctl_w) =>
      modify (set_pid fork) ;;
      if decide (fork < 0) then error_exit else
      close ctl_r ;;
      close st_w ;;
      modify (set_pipes ctl_w st_r) ;;
      setitimer (u32 (exec_tmout * FORK_WAIT_MULT) / 1000) (u32 (exec_tmout * FORK_WAIT_MULT) mod 1000 * 1000) ;;
      r ← read_word;
      setitimer 0 0 ;;
      if decide (is_Some r) then mret tt else error_exit
  | _, _ => error_exit
  end.

Definition call_forkserver (prev_time_out : Z) : proc fsrv Z :=
  ok ← write_word prev_time_out;
  if negb ok then error_exit else
  r ← read_word;
  match r with
  | None => error_exit
  | Some child_pid => if decide (child_pid <= 0) then error_exit else mret child_pid
  end.

Definition get_child_status : proc fsrv Z :=
  r ← read_word;
  match r with
  | None => error_exit
  | Some status => mret status
  end.

(** The two calls in [ExecuteCase], around its timer. *)
Definition run_case (prev_timed_out : Z) (timeout : Z) : proc fsrv (Z * Z) :=
  child_pid ← call_forkserver prev_timed_out;
  setitimer (timeout / 1000) (timeout mod 1000 * 1000) ;;
  status ← get_child_status;
  setitimer 0 0 ;;
  mret (child_pid, status).

(** A series of runs, each with the flag of the one before it. *)
Fixpoint run_cases (l : list (Z * Z)) : proc fsrv (list (Z * Z)) :=
  match l with
  | [] => mret []
  | (prev, timeout) :: l' => x ← run_case prev timeout; xs ← run_cases l'; mret (x :: xs)
  end.

(** ** The protocol *)

(** The server says hello, then a process and its status for each run. *)
Definition reply (k : nat) (x : Z * Z) : Prop :=
  read4 (1 + 2 * k) = Some x.1 ∧ read4 (2 + 2 * k) = Some x.2 ∧ 0 < x.1.

(** The alarm is off. *)
Definition quiet (s : fsrv) : Prop := list.last s.(timers) = Some (0, 0).

Lemma run_case_ok prev timeout k s : s.(reads) = (1 + 2 * k)%nat → length s.(sent) = k →
  wp (run_case prev timeout)
    (λ x s', reply k x ∧ s'.(reads) = (1 + 2 * S k)%nat ∧ s'.(sent) = s.(sent) ++ [prev] ∧ quiet s' ∧
       s'.(fsrv_ctl_fd) = s.(fsrv_ctl_fd) ∧ s'.(fsrv_st_fd) = s.(fsrv_st_fd) ∧ s'.(forkserver_pid) = s.(forkserver_pid))
    (λ _ _, False) (λ c _, c = -1) s.
Proof.
  intros Hr Hs. unfold run_case, call_forkserver, get_child_status, write_word, read_word, setitimer, error_exit.
  wp_steps; [done|]. cbn [reads]. rewrite Hr.
  destruct (read4 (1 + 2 * k)) as [pid|] eqn:E1; [|by wp_step].
  wp_steps; [done|]. cbn [reads].
  destruct (read4 (S (1 + 2 * k))) as [status|] eqn:E2; [|by wp_step].
  wp_steps. cbn. split; [split; [done|split; [done|cbn; lia]]|]. split; [lia|]. split; [done|].
  split; [|done]. unfold quiet. cbn. by rewrite list.last_snoc.
Qed.

Lemma run_cases_ok l k s : s.(reads) = (1 + 2 * k)%nat → length s.(sent) = k → quiet s →
  wp (run_cases l)
    (λ xs s', length xs = length l ∧ (∀ j x, xs !! j = Some x → reply (k + j) x) ∧ quiet s' ∧
       s'.(reads) = (1 + 2 * (k + length l))%nat ∧ s'.(sent) = s.(sent) ++ l.*1 ∧
       s'.(forkserver_pid) = s.(forkserver_pid))
    (λ _ _, False) (λ c _, c = -1) s.
Proof.
  revert k s. induction l as [|[prev timeout] l IH]; intros k s Hr Hs Hq; cbn [run_cases].
  - wp_step. split; [done|]. split; [done|]. split; [done|]. split; [cbn; lia|]. by rewrite app_nil_r.
  - wp_step. eapply wp_conseq; [by apply (run_case_ok prev timeout k)|].
    intros x s1 (Hx&Hr1&Hs1&Hq1&_&_&Hp1). wp_step. eapply wp_conseq; [apply (IH (S k)); [done| |done]|].
    { rewrite Hs1, length_app, Hs. cbn. lia. }
    intros xs s2 (Hl&Hxs&Hq2&Hr2&Hs2&Hp2). wp_step. split; [cbn; lia|]. split; [|split; [done|]].
    + intros [|j] y Hy; cbn in Hy; [injection Hy as <-; by rewrite Nat.add_0_r|].
      replace (k + S j)%nat with (S k + j)%nat by lia. by apply Hxs.
    + split; [rewrite Hr2; cbn [length]; lia|]. split; [|by rewrite Hp2].
      rewrite Hs2, Hs1, <-app_assoc. done.
Qed.

(** A session with the fork server, whatever it answers: the fuzzer exits with -1, or
    it has read the greeting of the server and then, for each run, exactly one process
    and one status, the ones that the server has sent for this run; it has written the
    flags of the runs in their order, and no alarm is pending. *)
Theorem forkserver_session exec_tmout l s : s.(reads) = 0%nat → s.(sent) = [] →
  wp (init_forkserver exec_tmout ;; run_cases l)
    (λ xs s', is_Some (read4 0) ∧ 0 <= s'.(forkserver_pid) ∧ length xs = length l ∧
       (∀ j x, xs !! j = Some x → reply j x) ∧
       s'.(reads) = (1 + 2 * length l)%nat ∧ s'.(sent) = l.*1 ∧ quiet s')
    (λ _ _, False) (λ c _, c = -1) s.
Proof.
  intros Hr Hs. wp_step. unfold init_forkserver, error_exit. destruct (pipe 0) as [[st_r st_w]|]; [|by wp_step].
  destruct (pipe 1) as [[ctl_r ctl_w]|]; [|by wp_step].
  unfold close, setitimer, read_word. wp_steps; [done| |done].
  match goal with H : is_Some (read4 _) |- _ => cbn in H; rewrite Hr in H end.
  eapply wp_conseq; [apply (run_cases_ok l 0); cbn; [by rewrite Hr|by rewrite Hs|unfold quiet; cbn; by rewrite list.last_snoc]|].
  cbn. intros xs s' (Hl&Hx&Hq&Hr'&Hs'&Hp). rewrite Hs in Hs'. cbn in Hs'.
  split; [done|]. split; [rewrite Hp; lia|]. split; [done|]. split; [done|]. split; [rewrite Hr'; lia|]. done.
Qed.
End forkserver.

(** A server that answers two runs, the second of which ends with signal 6. *)
#[local] Instance demo_peer : ForkPeer := {|
  pipe n := Some (3 + 2 * Z.of_nat n, 4 + 2 * Z.of_nat n);
  fork := 77;
  read4 n := ([0; 101; 0; 102; 6] : list Z) !! n;
  write4 _ := true;
|}.
Definition demo_fsrv : fsrv := Fsrv 0 0 0 [] [] 0 [].

Lemma forkserver_session_witness :
  wp (init_forkserver 1000 ;; run_cases [(0, 1000); (0, 1000)])
    (λ xs s', is_Some (read4 0) ∧ 0 <= s'.(forkserver_pid) ∧ length xs = 2%nat ∧
       (∀ j x, xs !! j = Some x → reply j x) ∧
       s'.(reads) = 5%nat ∧ s'.(sent) = [0; 0] ∧ quiet s')
    (λ _ _, False) (λ c _, c = -1) demo_fsrv.
Proof. exact (forkserver_session 1000 [(0, 1000); (0, 1000)] demo_fsrv eq_refl eq_refl). Defined.

Lemma demo_session :
  (init_forkserver 1000 ;; run_cases [(0, 1000); (0, 1000)]) demo_fsrv =
  (Norm [(101, 0); (102, 6)], Fsrv 6 3 77 [5; 4]
    [(10, 0); (0, 0); (1, 0); (0, 0); (1, 0); (0, 0)] 5 [0; 0]).
Proof. vm_compute. reflexivity. Qed.
